(* ===== verification/_CoqProject ===== *)
-Q . S2P
Prelude.v
Digits.v
Object.v
Order.v
TreeCodec.v
Index.v
MergeFile.v
Text.v
Store.v
Commit.v
Tag.v
Reachable.v
IndexCodec.v
TreeRead.v
TreeBuild.v
Reader.v
PackHeader.v
Zlib.v
DeltaRead.v
DeltaWrite.v
PackWrite.v
PackParse.v
PackIndex.v
PackIndexSpec.v
PackIndexLookup.v
PackPrefix.v
PackIndexSafe.v
PackIndexing.v
PackRoundtrip.v
PackIndexed.v
PackStore.v
PackStoreRead.v
PackStoreLookup.v
PackServe.v
PackMerge.v
PackIds.v
PackShort.v
PackReuse.v
Diff.v
DiffSpec.v
DiffTree.v
DiffRename.v
Wildcard.v
FileSystem.v
Ignore.v
IgnoreRules.v
RefNames.v
Refs.v
RefSpec.v
Attributes.v
RefStore.v
RefList.v
RefPack.v
RefSafe.v
RefFresh.v
LooseCodec.v
