(* ===== verification/Prelude.v ===== *)
(** * A verification development for zmin-git-core

    zmin is a git implementation in Rust.  Its command line (src/crates/zmin-cli), its HTTP helper and
    its runtime are layers of arguments, output and processes around one library,
    src/crates/zmin-git-core, that reads, writes, indexes and serves git's data.  This development is
    about that library: the functions are translated as they are written, in the order and with the
    errors of the source, and run inside the logic.

    ** How code is modelled

    A function of the crate is a function to [outcome] (this file): a value, an [io::Error] with its kind and
    message, a panic (an index out of range, a failed assertion, those of debug builds included), or [NoFuel], the outcome of a loop
    whose fuel ran out.  Loops that are not structural take fuel; every theorem that speaks of a
    result includes that the fuel given by the definition is enough.  Code that reads from an
    [io::Read] or keeps state is in the state-and-outcome monad [rd] of Reader.v; a mutated structure
    is passed and returned.  Bytes are [Byte.byte], machine integers are [N] or [Z] with their width
    written out ([usize] is 64 bits wide), lengths are [nat] compared with [usize_limit] where the code checks.
    Hash maps are [gmap]; where their order shows, it is a parameter ([HashKeys] of PackStore.v).

    Parameters stand for the crates the library calls, with what their documentation promises as
    classes of laws: SHA-1 and SHA-256 ([Sha], [ShaLaws]: the length of a digest), the zlib codec
    ([ZlibDecoder], [ZlibEncoder], [ZlibLaws]), CRC-32 ([Crc32], [Crc32Laws]: a result of 32 bits), the
    unstable sort of the standard library ([UnstableSort], [UnstableSortLaws]), readers and writers
    ([Reader], [ReaderLaws], [Writer], [WriterLaws]), the hexadecimal codec ([HexCrate], [HexCrateLaws])
    and the order in which the system lists a directory ([DirOrder], [DirOrderLaws]).  Each law class has an instance that computes,
    which the witnesses use.  Those instances are local: no theorem can pick one by accident.

    ** The parts, and the files that model them (source files under src/crates/zmin-git-core/src/)

    - Foundations.  Prelude (outcomes, slices, checked arithmetic), Digits (the decimal and octal
      loops), Order (orders, sorting, binary search, ordered maps of the standard library), Text
      (UTF-8, integer parsing, lines), Reader (readers, the monad, [runs] and [kept] for invariants
      of runs).
    - Objects.  Object (object.rs: ids, hexadecimal, frames, hashing, writers), Store (object_store.rs:
      the interface [GitObjectStore] / [GitObjectSink] with its laws, and the store in memory), TreeCodec
      (tree.rs: modes, names, the codec and the order of entries), Commit (commit.rs) and Tag (tag.rs).
    - Clients of a store.  Reachable (reachable.rs), TreeRead (tree.rs: lookup of a path, expansion
      into an index, the cache of trees), TreeBuild (tree.rs: trees written from an index), MergeFile
      (merge_file.rs).  They are proved against the interface of Store.v; the store in memory
      discharges it.
    - Differences.  Diff (diff.rs: the comparison of two indexes, the walk over two trees with its cache,
      path buffer and visitor, exact renames and copies).  Its specification, the changes between two
      sorted lists of files, and the proofs are in DiffSpec, DiffTree and DiffRename.
    - The index.  Index (index.rs: entries and the sorted list), IndexCodec (index.rs: the file).
    - References (refs.rs).  FileSystem (the part of [std::fs] and [std::path] the code uses, as a map from
      paths to files and directories), RefNames (names and texts), Refs (every operation of [RefStore]:
      loose and packed references, lock files, HEAD, packing, enumeration).  The proofs are in RefSpec (names),
      RefStore (single writes and deletions), RefList (enumeration), RefPack (packing), RefSafe (what any
      sequence of calls leaves) and RefFresh (clones and HEAD).
    - Rules about paths.  Wildcard (the matcher of ignore.rs and attributes.rs), Ignore (ignore.rs: parsing,
      matching, loading; what its lines mean is in IgnoreRules) and Attributes (attributes.rs: parsing, values of a path, ident, ends of lines).
    - Loose objects.  LooseCodec (loose.rs: the format of a file, its encoder and its verified readers).
    - Packs (pack.rs).  PackHeader (entry headers), Zlib (bounded inflation, cursors), DeltaRead (two
      decoders and a hashing one against one semantics of delta programs), DeltaWrite (deltas and
      replacement plans), PackWrite (the encoder and its window), PackParse (the full parser and its
      retention plan), PackIndex (index versions 1 and 2, reverse index, lookups), PackIndexing (the
      indexing pass, verification, unpacking, thin packs), PackStore (the store of packs: five caches,
      the search of indexes, reads through delta chains, hints, copies of entries), PackMerge (the heap that merges
      the ids of several indexes, and the ways to ask for ids), PackReuse (whole packs sent again).  Their proofs are in
      PackIndexSpec, PackIndexLookup, PackPrefix, PackIndexSafe (indexes), PackRoundtrip and PackIndexed (parser and
      indexer on encoded packs), PackStoreRead, PackStoreLookup and PackServe (the store), PackIds (ids), PackShort (abbreviated ids).

    ** What the theorems show

    - Round trips: index files, trees, commits, tags, deltas, entry headers, packs, pack indexes, loose files, ident
      markers and ends of lines
      are read back as they were written, and where a decoder is stated as an equivalence it accepts
      exactly the encodings.
    - Functional behaviour on every branch: the updates of the index list, the three-way merge (what
      conflicts is what the longest common runs of lines in front and at the end leave), reachability as the exact closure, expansion of trees, writing of
      trees, lookups in pack indexes and abbreviated ids over all packs, the rule that
      decides about an ignored path and the meaning of each line of an ignore file, the values of attributes, the
      directories a deleted reference takes with it.
    - Safety on any input: decoders of index files, pack indexes and loose files neither panic nor run out
      of fuel, whatever the bytes.  A search by prefix in a pack index needs its names in order, which the reader
      does not check ([PackIndexSafe.unordered_index_panics]).
    - Invariants: the sorted list of index entries (but for the constructor that checks nothing, see
      [Index.index_reachable_wf]), the encoder's window, the caches of the pack store
      (counters, limits and coherence with the files), the store of references under any sequence of
      calls, failing or not ([RefSafe.refs_keep_store]).
    - Refinement: caches of commits and of packs change no result; the store of packs returns what the
      chain of an entry stands for ([chain], [served]); packing changes what no reference reads as; a pack that is sent again has exactly the objects asked for.
    - Equivalence: the wildcard loop with its one point to go back to and what a pattern means
      (on texts without stars: with one, the loop is wrong), the ways to ask a store of packs for its ids, three ways to run a delta, the walk over two trees and the comparison of their
      expansions.
    - Composition: a pack written for stored objects, indexed by the indexer and put in the pack
      directory, is served object by object ([PackServe.encoded_pack_served]); this goes through the
      encoder, the indexing pass with its retention of bases, the index codec, the search and the
      reads with their caches.
    - Errors the code makes: the theorems of kind error, and the list of findings, record where code
      and intent differ (an index entry of SHA-256 that is not read back, distances of offset deltas
      without a bound, offsets of version 1 indexes that the decoder refuses, lock files of references that do
      not hold, deletions that bring an old value back, and others).

    ** Fuel and bounds

    Fuel is the length of the input, the number of entries, or a fixed width (ten groups of seven bits for
    a 64-bit size), stated at each definition.  The reads through delta chains use the code's own
    limit, [MAX_DELTA_DEPTH]: the fuel is one more than the depths a chain may visit.  The bound on
    packs is the code's [PACK_OBJECT_CONTENT_NOT_RETAINED] objects of at most [PARSE_LIMIT] bytes.

    ** Not modelled

    Mapping files and their metadata beyond length and time: the pack store runs over a map from paths to
    bytes and metadata, and two runs see the same map unless a theorem changes it.  For references
    the tree of files is modelled, with failures that come from the tree (something missing, there already,
    of the wrong kind) and without those of the system (permissions, a full disk).  Threads and processes:
    a call is one step.  The streaming variants of the pack encoder write
    what the in-memory ones return.  Checkout, the directories of loose objects, the
    command line and the transports are listed as not modelled with the reasons. *)
From Stdlib Require Export ZArith NArith Lia ZifyNat ZifyN.
From Stdlib Require Export Init.Byte.
From Stdlib Require Strings.Byte.
From stdpp Require Export base tactics strings gmap countable numbers option list sorting.

#[export] Set Default Goal Selector "!".
#[export] Set Warnings "-clear-no-such-hyp".
#[global] Open Scope nat_scope.

(** ** Errors and outcomes

    A Rust function of the crate returns normally, returns an [io::Error], or
    panics (slice out of range, failed assertion).  Loops that are not
    structural are written with fuel, and [NoFuel] is the outcome of a loop
    whose fuel ran out: the theorems show that it never occurs. *)

Inductive ErrorKind : Set :=
| NotFound
| InvalidInput
| InvalidData
| UnexpectedEof
| AlreadyExists
| DirectoryNotEmpty
| OtherKind.

Record io_error : Set := IoError { err_kind : ErrorKind; err_msg : string }.

Inductive outcome (A : Type) : Type :=
| Ok (a : A)
| Err (e : io_error)
| Panic
| NoFuel.
Arguments Ok {A} a.
Arguments Err {A} e.
Arguments Panic {A}.
Arguments NoFuel {A}.

#[export] Instance ErrorKind_eq_dec : EqDecision ErrorKind.
Proof. solve_decision. Defined.

#[export] Instance io_error_eq_dec : EqDecision io_error.
Proof. solve_decision. Defined.

#[export] Instance outcome_eq_dec `{EqDecision A} : EqDecision (outcome A).
Proof. solve_decision. Defined.

#[export] Instance outcome_ret : MRet outcome := fun _ a => Ok a.

#[export] Instance outcome_bind : MBind outcome := fun _ _ f m =>
  match m with
  | Ok a => f a
  | Err e => Err e
  | Panic => Panic
  | NoFuel => NoFuel
  end.

#[export] Instance outcome_fmap : FMap outcome := fun _ _ f m =>
  match m with
  | Ok a => Ok (f a)
  | Err e => Err e
  | Panic => Panic
  | NoFuel => NoFuel
  end.

(** [Err(io::Error::new(kind, msg))]. *)
Definition fail {A} (k : ErrorKind) (msg : string) : outcome A :=
  Err (IoError k msg).

(** [Option::ok_or_else]. *)
Definition ok_or {A} (o : option A) (k : ErrorKind) (msg : string) : outcome A :=
  match o with
  | Some a => Ok a
  | None => fail k msg
  end.

(** [if cond { return Err(..) }] *)
Definition check (bad : bool) (k : ErrorKind) (msg : string) : outcome unit :=
  if bad then fail k msg else Ok tt.

(** [assert!]/[expect]: a panic when the condition is false. *)
Definition assert (good : bool) : outcome unit :=
  if good then Ok tt else Panic.

Definition unwrap {A} (o : option A) : outcome A :=
  match o with
  | Some a => Ok a
  | None => Panic
  end.

Definition is_ok {A} (m : outcome A) : bool :=
  match m with
  | Ok _ => true
  | _ => false
  end.

(** The outcomes of a total, panic-free function: a value or an error. *)
Definition safe {A} (m : outcome A) : Prop :=
  match m with
  | Ok _ | Err _ => True
  | Panic | NoFuel => False
  end.

(** ** Bytes *)

Abbreviation byte := Byte.byte.
Abbreviation bytes := (list Byte.byte).

#[export] Instance byte_eq_dec : EqDecision byte := Byte.byte_eq_dec.

Definition u8 (b : byte) : N := Byte.to_N b.

(** [n as u8]. *)
Definition byte_of_N (n : N) : byte :=
  match Byte.of_N (n mod 256) with
  | Some b => b
  | None => Byte.x00
  end.

#[export] Program Instance byte_countable : Countable byte :=
  inj_countable u8 (fun n => Byte.of_N n) _.
Next Obligation. intros b. apply Byte.of_to_N. Qed.

(** A byte-string literal [b"..."]. *)
Definition bstr (s : string) : bytes := String.list_byte_of_string s.

(** ** Machine integers: [usize] and [u64] are 64 bits wide *)

Definition usize_limit : N := (2 ^ 64)%N.

(** [usize::checked_add] on lengths and offsets. *)
Definition checked_add (a b : nat) : option nat :=
  if (N.of_nat a + N.of_nat b <? usize_limit)%N then Some (a + b) else None.

(** [u64::checked_add], [u64::checked_mul], [u64::checked_sub] (also those of [usize]
    when the operands are not lengths). *)
Definition checked_addN (a b : N) : option N :=
  if (a + b <? usize_limit)%N then Some (a + b)%N else None.

Definition checked_mulN (a b : N) : option N :=
  if (a * b <? usize_limit)%N then Some (a * b)%N else None.

Definition checked_subN (a b : N) : option N :=
  if (b <=? a)%N then Some (a - b)%N else None.

(** Big-endian encoding of a [k]-byte integer, [to_be_bytes] and [from_be_bytes]. *)
Fixpoint to_be (k : nat) (n : N) : bytes :=
  match k with
  | 0 => []
  | S k => byte_of_N (N.shiftr n (8 * N.of_nat k)) :: to_be k n
  end.

Definition from_be (bs : bytes) : N :=
  fold_left (fun acc b => (acc * 256 + u8 b)%N) bs 0%N.

(** ** Slices *)

(** [bytes[a..b]]: panics when [a > b] or [b > len]. *)
Definition slice {A} (l : list A) (a b : nat) : outcome (list A) :=
  if bool_decide (a <= b /\ b <= length l) then Ok (take (b - a) (drop a l)) else Panic.

(** [bytes.get(a..b)]. *)
Definition get_range {A} (l : list A) (a b : nat) : option (list A) :=
  if bool_decide (a <= b /\ b <= length l) then Some (take (b - a) (drop a l)) else None.

(** [bytes[i]]. *)
Definition index_at {A} (l : list A) (i : nat) : outcome A := unwrap (l !! i).

(** [iter().position(p)]. *)
Fixpoint position {A} (p : A -> bool) (l : list A) : option nat :=
  match l with
  | [] => None
  | x :: l => if p x then Some 0 else S <$> position p l
  end.

Definition byte_is (c b : byte) : bool := Byte.eqb b c.

Definition contains_byte (c : byte) (l : bytes) : bool := existsb (byte_is c) l.

(** [starts_with], [strip_prefix], [ends_with]. *)
Fixpoint strip_prefix (p l : bytes) : option bytes :=
  match p, l with
  | [], _ => Some l
  | c :: p, b :: l => if Byte.eqb c b then strip_prefix p l else None
  | _ :: _, [] => None
  end.

Definition starts_with (p l : bytes) : bool :=
  match strip_prefix p l with
  | Some _ => true
  | None => false
  end.

Definition ends_with (s l : bytes) : bool := starts_with (rev s) (rev l).

(** [haystack.windows(n).position(|w| w == needle)] with [n] the length of a
    non-empty needle. *)
Fixpoint find_subslice (needle l : bytes) : option nat :=
  if starts_with needle l then Some 0
  else match l with
       | [] => None
       | _ :: l => S <$> find_subslice needle l
       end.

(** [l.split(|b| b == c)]: always at least one piece. *)
Fixpoint split_on (c : byte) (l : bytes) : list bytes :=
  match l with
  | [] => [[]]
  | b :: l =>
      if Byte.eqb b c then [] :: split_on c l
      else match split_on c l with
           | [] => [[b]]
           | p :: ps => (b :: p) :: ps
           end
  end.

(** The inverse of [split_on]. *)
Fixpoint join_with (c : byte) (ps : list bytes) : bytes :=
  match ps with
  | [] => []
  | [p] => p
  | p :: ps => p ++ c :: join_with c ps
  end.

(** ** Automation *)

(** Proves the first premise of [H]. *)
Ltac premise H :=
  match type of H with
  | ?P -> _ => let HP := fresh in assert (HP : P); [|specialize (H HP); clear HP]
  end.

Create HintDb zmin discriminated.
Create Rewrite HintDb zmin_rw.

Section outcome_lemmas.
Context {A B : Type}.
Implicit Types (m : outcome A) (f : A -> outcome B).

Lemma bind_Ok_inv f m b : mbind f m = Ok b -> exists a, m = Ok a /\ f a = Ok b.
Proof. destruct m; cbn; naive_solver. Qed.

Lemma bind_Ok f a : mbind f (Ok a) = f a.
Proof. reflexivity. Qed.

Lemma safe_bind f m :
  safe m -> (forall a, m = Ok a -> safe (f a)) -> safe (mbind f m).
Proof. destruct m; cbn; naive_solver. Qed.

Lemma safe_ok_or (o : option A) k msg : safe (ok_or o k msg).
Proof. destruct o; exact I. Qed.

Lemma safe_check c k msg : safe (check c k msg).
Proof. destruct c; exact I. Qed.

Lemma ok_or_Ok (o : option A) k msg a : ok_or o k msg = Ok a <-> o = Some a.
Proof. destruct o; cbn; unfold fail; split; congruence. Qed.

Lemma unwrap_Ok (o : option A) a : unwrap o = Ok a <-> o = Some a.
Proof. destruct o; cbn; unfold fail; split; congruence. Qed.

Lemma check_Ok c k msg u : check c k msg = Ok u <-> c = false /\ u = tt.
Proof. destruct c, u; cbn; unfold fail; split; intros; destruct_and?; simplify_eq; auto. Qed.

Lemma bind_check_Ok c k msg (r : outcome A) a :
  (_ ← check c k msg; r) = Ok a <-> c = false /\ r = Ok a.
Proof. destruct c; cbn; unfold fail; naive_solver. Qed.
End outcome_lemmas.

#[export] Hint Resolve safe_ok_or safe_check : zmin.
#[export] Hint Rewrite @bind_Ok : zmin_rw.

(** Opens every [x <- m; k] in a hypothesis that says a run ended with [Ok]. *)
Ltac inv_ok :=
  repeat match goal with
  | H : Ok _ = Ok _ |- _ => injection H as H; subst
  | H : Err _ = Ok _ |- _ => discriminate H
  | H : fail _ _ = Ok _ |- _ => discriminate H
  | H : Panic = Ok _ |- _ => discriminate H
  | H : NoFuel = Ok _ |- _ => discriminate H
  | H : mbind _ _ = Ok _ |- _ =>
      let a := fresh "v" in let E := fresh "E" in
      apply bind_Ok_inv in H as (a & E & H)
  | H : ok_or _ _ _ = Ok _ |- _ => apply ok_or_Ok in H
  | H : unwrap _ = Ok _ |- _ => apply unwrap_Ok in H
  | H : check _ _ _ = Ok _ |- _ => apply check_Ok in H as [H ?]; subst
  end.

(** Decomposes the safety of a run into the safety of its steps. *)
Ltac solve_safe :=
  repeat match goal with
  | |- safe (Ok _) => exact I
  | |- safe (Err _) => exact I
  | |- safe (fail _ _) => exact I
  | |- safe (mbind _ _) => apply safe_bind; [| intros ? ?]
  | |- safe (if ?c then _ else _) => destruct c eqn:?
  | |- safe (match ?m with _ => _ end) => destruct m eqn:?
  | |- safe _ => solve [auto with zmin]
  end.

(** Reflects boolean tests in the context to propositions. *)
Ltac breflect :=
  repeat match goal with
  | H : bool_decide _ = true |- _ => apply bool_decide_eq_true in H
  | H : bool_decide _ = false |- _ => apply bool_decide_eq_false in H
  | H : negb _ = true |- _ => apply negb_true_iff in H
  | H : negb _ = false |- _ => apply negb_false_iff in H
  | H : (_ || _)%bool = false |- _ => apply orb_false_iff in H as [? ?]
  | H : (_ && _)%bool = true |- _ => apply andb_true_iff in H as [? ?]
  | H : (_ <? _)%N = true |- _ => apply N.ltb_lt in H
  | H : (_ <? _)%N = false |- _ => apply N.ltb_ge in H
  | H : (_ <=? _)%N = true |- _ => apply N.leb_le in H
  | H : (_ <=? _)%N = false |- _ => apply N.leb_gt in H
  | H : (_ =? _)%N = true |- _ => apply N.eqb_eq in H
  | H : (_ =? _)%N = false |- _ => apply N.eqb_neq in H
  | H : (_ <? _) = true |- _ => apply Nat.ltb_lt in H
  | H : (_ <? _) = false |- _ => apply Nat.ltb_ge in H
  | H : (_ <=? _) = true |- _ => apply Nat.leb_le in H
  | H : (_ <=? _) = false |- _ => apply Nat.leb_gt in H
  | H : (_ =? _) = true |- _ => apply Nat.eqb_eq in H
  | H : (_ =? _) = false |- _ => apply Nat.eqb_neq in H
  end.

(** ** Lemmas on bytes and integers *)

Lemma u8_lt b : (u8 b < 256)%N.
Proof. unfold u8. pose proof (Byte.to_N_bounded b). lia. Qed.

Lemma byte_of_N_u8 b : byte_of_N (u8 b) = b.
Proof.
  unfold byte_of_N. rewrite N.mod_small by apply u8_lt.
  unfold u8. by rewrite Byte.of_to_N.
Qed.

Lemma u8_byte_of_N n : u8 (byte_of_N n) = (n mod 256)%N.
Proof.
  unfold byte_of_N, u8.
  destruct (Byte.of_N (n mod 256)) as [b|] eqn:E.
  - by apply Byte.to_of_N in E.
  - apply Byte.of_N_None_iff in E.
    assert (n mod 256 < 256)%N by (apply N.mod_lt; lia). lia.
Qed.

Lemma u8_inj b c : u8 b = u8 c -> b = c.
Proof. intros E. by rewrite <- (byte_of_N_u8 b), E, byte_of_N_u8. Qed.

Lemma byte_eqb_spec b c : reflect (b = c) (Byte.eqb b c).
Proof.
  destruct (Byte.eqb b c) eqn:E; constructor.
  - by apply Byte.byte_dec_bl in E.
  - intros ->. by rewrite (Byte.byte_dec_lb (eq_refl c)) in E.
Qed.

Lemma byte_eqb_refl b : Byte.eqb b b = true.
Proof. by apply Byte.byte_dec_lb. Qed.

Lemma byte_eqb_false b c : b <> c -> Byte.eqb b c = false.
Proof. destruct (byte_eqb_spec b c); congruence. Qed.

#[export] Hint Rewrite byte_of_N_u8 u8_byte_of_N byte_eqb_refl : zmin_rw.

Lemma length_to_be k n : length (to_be k n) = k.
Proof. induction k; cbn; congruence. Qed.

Lemma from_be_acc bs acc :
  fold_left (fun acc b => (acc * 256 + u8 b)%N) bs acc
  = (acc * 256 ^ N.of_nat (length bs) + from_be bs)%N.
Proof.
  unfold from_be. revert acc. induction bs as [|b bs IH]; intros acc; cbn [fold_left length].
  - rewrite N.pow_0_r. lia.
  - rewrite IH, (IH (0 * 256 + u8 b)%N).
    rewrite Nat2N.inj_succ, N.pow_succ_r'. lia.
Qed.

Lemma from_be_cons b bs :
  from_be (b :: bs) = (u8 b * 256 ^ N.of_nat (length bs) + from_be bs)%N.
Proof. unfold from_be at 1. cbn [fold_left]. by rewrite from_be_acc, N.mul_0_l, N.add_0_l. Qed.

Lemma from_be_lt bs : (from_be bs < 256 ^ N.of_nat (length bs))%N.
Proof.
  induction bs as [|b bs IH]; [done|].
  rewrite from_be_cons. cbn [length]. rewrite Nat2N.inj_succ, N.pow_succ_r'.
  pose proof (u8_lt b). nia.
Qed.

Lemma from_be_to_be_mod k n : from_be (to_be k n) = (n mod 256 ^ N.of_nat k)%N.
Proof.
  induction k as [|k IH]; [by rewrite N.mod_1_r|].
  cbn [to_be]. rewrite from_be_cons, IH, length_to_be, u8_byte_of_N.
  rewrite N.shiftr_div_pow2. replace (2 ^ (8 * N.of_nat k))%N with (256 ^ N.of_nat k)%N
    by (rewrite N.pow_mul_r; done).
  rewrite Nat2N.inj_succ, N.pow_succ_r', (N.mul_comm 256).
  rewrite N.Div0.mod_mul_r. lia.
Qed.

Lemma from_be_to_be k n : (n < 256 ^ N.of_nat k)%N -> from_be (to_be k n) = n.
Proof. intros. rewrite from_be_to_be_mod. by apply N.mod_small. Qed.

(** ** Lemmas on slices *)

Section slice_lemmas.
Context {A : Type}.
Implicit Types l : list A.

Lemma slice_Ok l a b r :
  slice l a b = Ok r <-> a <= b /\ b <= length l /\ r = take (b - a) (drop a l).
Proof. unfold slice. case_bool_decide; split; naive_solver. Qed.

Lemma get_range_Some l a b r :
  get_range l a b = Some r <-> a <= b /\ b <= length l /\ r = take (b - a) (drop a l).
Proof. unfold get_range. case_bool_decide; split; naive_solver. Qed.

(** The slice that covers exactly the middle of a concatenation. *)
Lemma slice_app l1 l2 l3 a b :
  a = length l1 -> b = length l1 + length l2 -> slice (l1 ++ l2 ++ l3) a b = Ok l2.
Proof.
  intros -> ->. apply slice_Ok. rewrite !length_app. split_and!; [lia..|].
  rewrite drop_app_length. replace (_ - _) with (length l2) by lia.
  by rewrite take_app_length.
Qed.

Lemma get_range_app l1 l2 l3 a b :
  a = length l1 -> b = length l1 + length l2 -> get_range (l1 ++ l2 ++ l3) a b = Some l2.
Proof.
  intros Ha Hb. apply get_range_Some.
  by apply slice_Ok, slice_app.
Qed.

Lemma slice_length l a b r : slice l a b = Ok r -> length r = b - a.
Proof. rewrite slice_Ok. intros (? & ? & ->). rewrite length_take, length_drop. lia. Qed.

Lemma safe_slice l a b : a <= b -> b <= length l -> safe (slice l a b).
Proof. intros. unfold slice. by rewrite bool_decide_true. Qed.

Lemma safe_slice_from l a : a <= length l -> safe (slice l a (length l)).
Proof. intros. by apply safe_slice. Qed.

Lemma slice_eq l a b :
  a <= b -> b <= length l -> slice l a b = Ok (take (b - a) (drop a l)).
Proof. intros. by apply slice_Ok. Qed.

Lemma slice_from l a : a <= length l -> slice l a (length l) = Ok (drop a l).
Proof.
  intros. apply slice_Ok. split_and!; [done..|].
  rewrite take_ge; [done|]. rewrite length_drop. lia.
Qed.

Lemma slice_take l b : b <= length l -> slice l 0 b = Ok (take b l).
Proof. intros. apply slice_Ok. rewrite drop_0, Nat.sub_0_r. split_and!; [lia..|done]. Qed.

Lemma index_at_lookup l i x : l !! i = Some x -> index_at l i = Ok x.
Proof. unfold index_at. by intros ->. Qed.

Lemma safe_index_at l i : i < length l -> safe (index_at l i).
Proof. intros Hi. unfold index_at. by destruct (lookup_lt_is_Some_2 l i Hi) as [x ->]. Qed.
End slice_lemmas.

(** ** Lemmas on searching *)

Section position_lemmas.
Context {A : Type} (p : A -> bool).
Implicit Types l : list A.

Lemma position_Some l i :
  position p l = Some i <->
  exists x l2, l = take i l ++ x :: l2 /\ i <= length l /\ p x = true
               /\ Forall (fun y => p y = false) (take i l).
Proof.
  revert i. induction l as [|y l IH]; intros i; cbn [position].
  - split; [done|]. intros (x & l2 & E & _). destruct (take i []); discriminate.
  - destruct (p y) eqn:Hy.
    + split; [intros [= <-]; exists y, l; cbn; eauto using Forall_nil, Nat.le_0_l|].
      intros (x & l2 & E & Hi & Hx & F). destruct i; [done|].
      cbn in F. inversion F; congruence.
    + rewrite fmap_Some. split.
      * intros (j & (x & l2 & E & Hi & Hx & F)%IH & ->). exists x, l2. cbn.
        split_and!; [by rewrite <- E|lia|done|by constructor].
      * intros (x & l2 & E & Hi & Hx & F). destruct i as [|i].
        { cbn in E. congruence. }
        cbn in E, F, Hi. injection E as E. inversion F; subst.
        exists i. split; [|done]. apply IH. exists x, l2.
        split_and!; [done|lia|done|done].
Qed.

Lemma position_app l1 x l2 :
  Forall (fun y => p y = false) l1 -> p x = true ->
  position p (l1 ++ x :: l2) = Some (length l1).
Proof.
  intros F Hx. apply position_Some. exists x, l2. rewrite take_app_length.
  rewrite length_app. split_and!; [done|cbn; lia|done|done].
Qed.

Lemma position_None l : position p l = None <-> Forall (fun y => p y = false) l.
Proof.
  induction l as [|y l IH]; cbn [position]; [split; eauto|].
  rewrite Forall_cons. destruct (p y); [naive_solver|]. rewrite fmap_None, IH. naive_solver.
Qed.

Lemma position_lt l i : position p l = Some i -> i < length l.
Proof.
  intros (x & l2 & E & Hi & _)%position_Some.
  apply (f_equal length) in E. rewrite length_app, length_take in E. cbn in E. lia.
Qed.
End position_lemmas.

Lemma byte_is_refl c : byte_is c c = true.
Proof. apply byte_eqb_refl. Qed.

Lemma contains_byte_false c l :
  contains_byte c l = false <-> Forall (fun b => byte_is c b = false) l.
Proof.
  unfold contains_byte. induction l as [|b l IH]; cbn; [split; eauto|].
  rewrite Forall_cons, orb_false_iff. naive_solver.
Qed.

Lemma contains_byte_true c l : contains_byte c l = true <-> c ∈ l.
Proof.
  unfold contains_byte. rewrite existsb_exists. split.
  - intros (x & Hx%list_elem_of_In & E). unfold byte_is in E.
    destruct (byte_eqb_spec x c); naive_solver.
  - intros Hc%list_elem_of_In. exists c. by rewrite byte_is_refl.
Qed.

Lemma contains_byte_app c l1 l2 :
  contains_byte c (l1 ++ l2) = contains_byte c l1 || contains_byte c l2.
Proof. unfold contains_byte. by rewrite existsb_app. Qed.

(** The first occurrence of a separator ends the piece that does not contain it. *)
Lemma position_byte_app c l1 l2 :
  contains_byte c l1 = false -> position (byte_is c) (l1 ++ c :: l2) = Some (length l1).
Proof. intros H%contains_byte_false. apply position_app; [done|apply byte_is_refl]. Qed.

Lemma position_byte_inv c l i :
  position (byte_is c) l = Some i ->
  l = take i l ++ c :: drop (S i) l /\ contains_byte c (take i l) = false /\ i < length l.
Proof.
  intros H. pose proof (position_lt _ _ _ H) as Hlt.
  apply position_Some in H as (x & l2 & E & Hi & Hx & F).
  unfold byte_is in Hx. destruct (byte_eqb_spec x c); [subst|done].
  split_and!; [|by apply contains_byte_false|done].
  assert (drop (S i) l = l2) as ->; [|done].
  rewrite E at 1. rewrite drop_app_ge; rewrite length_take_le by lia; [|lia].
  by replace (S i - i) with 1 by lia.
Qed.

Lemma strip_prefix_Some p l r : strip_prefix p l = Some r <-> l = p ++ r.
Proof.
  revert l. induction p as [|c p IH]; intros [|b l]; cbn; try naive_solver.
  destruct (byte_eqb_spec c b); [subst; rewrite IH|]; naive_solver.
Qed.

Lemma strip_prefix_app p r : strip_prefix p (p ++ r) = Some r.
Proof. by apply strip_prefix_Some. Qed.

Lemma starts_with_spec p l : starts_with p l = true <-> p `prefix_of` l.
Proof.
  unfold starts_with, prefix. destruct (strip_prefix p l) eqn:E.
  - apply strip_prefix_Some in E. naive_solver.
  - split; [done|]. intros [r ->]. by rewrite strip_prefix_app in E.
Qed.

Lemma starts_with_app p r : starts_with p (p ++ r) = true.
Proof. apply starts_with_spec. by exists r. Qed.

(** ** In-place updates of a fixed-size array *)

(** [buf[i] = x]: panics out of range. *)
Definition set_at {A} (l : list A) (i : nat) (x : A) : outcome (list A) :=
  if i <? length l then Ok (<[i := x]> l) else Panic.

(** [cursor -= 1] on a [usize] (and the out-of-range access that follows a
    wrap-around): a panic at zero. *)
Definition pred_usize (n : nat) : outcome nat :=
  match n with
  | 0 => Panic
  | S n => Ok n
  end.

Lemma set_at_app {A} (l1 l2 : list A) x y :
  set_at (l1 ++ x :: l2) (length l1) y = Ok (l1 ++ y :: l2).
Proof.
  unfold set_at. rewrite (proj2 (Nat.ltb_lt _ _)) by (rewrite length_app; cbn; lia).
  by rewrite insert_app_r_alt, Nat.sub_diag by lia.
Qed.

(** ** Checking a property of every byte, or of every small integer, by computation *)

Fixpoint all_from (k : nat) (n : N) (P : N -> bool) : bool :=
  match k with
  | 0 => true
  | S k => P n && all_from k (N.succ n) P
  end.

Lemma all_from_spec k n P :
  all_from k n P = true -> forall m, (n <= m < n + N.of_nat k)%N -> P m = true.
Proof.
  revert n. induction k as [|k IH]; intros n H m Hm; [lia|].
  cbn [all_from] in H. apply andb_true_iff in H as [Hn H].
  destruct (decide (m = n)) as [->|Hne]; [done|]. apply (IH (N.succ n)); [done|lia].
Qed.

Lemma forall_below (k : nat) (P : N -> bool) :
  all_from k 0 P = true -> forall n, (n < N.of_nat k)%N -> P n = true.
Proof. intros H n Hn. apply (all_from_spec k 0); [done|lia]. Qed.

Lemma forall_bytes (P : byte -> bool) :
  all_from 256 0 (fun n => P (byte_of_N n)) = true -> forall b, P b = true.
Proof.
  intros H b. rewrite <- (byte_of_N_u8 b).
  apply (forall_below 256 (fun n => P (byte_of_N n)) H). pose proof (u8_lt b). lia.
Qed.

(** ** Cursors: slices and searches at the end of a known prefix *)

Lemma slice_split {A} (l1 m l3 l : list A) a b :
  l = l1 ++ m ++ l3 -> a = length l1 -> b = length l1 + length m -> slice l a b = Ok m.
Proof. intros -> -> ->. by apply slice_app. Qed.

Lemma slice_tail {A} (l1 l2 l : list A) a b :
  l = l1 ++ l2 -> a = length l1 -> b = length l -> slice l a b = Ok l2.
Proof.
  intros -> -> ->. apply (slice_split l1 l2 []); rewrite ?app_nil_r; [done..|apply length_app].
Qed.

(** A search for a byte splits the text, or the byte is absent. *)
Lemma position_split c l :
  (position (byte_is c) l = None /\ contains_byte c l = false) \/
  exists x r, l = x ++ c :: r /\ contains_byte c x = false /\
              position (byte_is c) l = Some (length x).
Proof.
  destruct (position (byte_is c) l) as [i|] eqn:E.
  - right. apply position_byte_inv in E as (El & Hc & Hi).
    exists (take i l), (drop (S i) l). rewrite length_take_le by lia. done.
  - left. split; [done|]. by apply contains_byte_false, position_None.
Qed.

Lemma byte_eqb_sym b c : Byte.eqb b c = Byte.eqb c b.
Proof. destruct (byte_eqb_spec b c), (byte_eqb_spec c b); congruence. Qed.

(** Side conditions of [slice_split]: re-association and lengths. *)
Ltac solve_app := repeat (rewrite <- app_assoc || cbn [app]); reflexivity.
Ltac solve_length := repeat first [progress (rewrite length_app) | progress cbn [length]]; lia.

(** The slice that comes next in the run on the left of the goal. *)
Ltac slice_as l1 m l3 :=
  lazymatch goal with
  | |- context [mbind _ (slice ?l ?a ?b)] =>
      rewrite (slice_split l1 m l3 l a b); [rewrite bind_Ok|solve_app|solve_length|solve_length]
  end.
Ltac slice_tail_as l1 l2 :=
  lazymatch goal with
  | |- context [mbind _ (slice ?l ?a ?b)] =>
      rewrite (slice_tail l1 l2 l a b); [rewrite bind_Ok|solve_app|solve_length|reflexivity]
  end.

(** ** Filters *)

Section filter_lemmas.
Context {A : Type} (P : A -> Prop) `{!forall x, Decision (P x)}.
Implicit Types l : list A.

Lemma Forall_filter_weaken (Q : A -> Prop) l : Forall Q l -> Forall Q (filter P l).
Proof.
  rewrite !Forall_forall. intros HF x [_ Hx]%list_elem_of_filter. by apply HF.
Qed.

Lemma filter_none l : filter P l = [] <-> Forall (fun x => ~ P x) l.
Proof.
  induction l as [|x l IH]; [split; [constructor|done]|].
  rewrite filter_cons, Forall_cons, <- IH. destruct (decide (P x)); naive_solver.
Qed.

Lemma filter_all l : Forall P l -> filter P l = l.
Proof.
  induction 1 as [|x l Hx _ IH]; [done|]. rewrite filter_cons_True by done. by f_equal.
Qed.
End filter_lemmas.

Lemma NoDup_fmap_elem {A B} (f : A -> B) (l : list A) x y :
  NoDup (f <$> l) -> x ∈ l -> y ∈ l -> f x = f y -> x = y.
Proof.
  intros Hnd [i Hi]%list_elem_of_lookup [j Hj]%list_elem_of_lookup E.
  assert (i = j) as ->; [|congruence].
  apply (NoDup_lookup _ _ _ (f x) Hnd); rewrite list_lookup_fmap; [by rewrite Hi|].
  rewrite Hj. cbn. by rewrite E.
Qed.

Lemma checked_add_Some a b n :
  checked_add a b = Some n <-> (N.of_nat a + N.of_nat b < usize_limit)%N /\ n = a + b.
Proof.
  unfold checked_add. destruct (N.ltb_spec (N.of_nat a + N.of_nat b) usize_limit); split;
    [intros [= <-]|intros [_ ->]|..]; try done. intros [? _]. lia.
Qed.

Lemma checked_add_fits a b :
  (N.of_nat a + N.of_nat b < usize_limit)%N -> checked_add a b = Some (a + b).
Proof. intros. by apply checked_add_Some. Qed.

(** Linear arithmetic with division and remainder by constants. *)
Ltac lia_mod := zify; Z.to_euclidean_division_equations; lia.

Lemma check_pass (c : bool) k msg : c = false -> check c k msg = Ok tt.
Proof. by intros ->. Qed.

(** Related elements of related lists. *)
Lemma Forall2_elem_l {A B} (R : A -> B -> Prop) l k x :
  Forall2 R l k -> x ∈ l -> exists y, y ∈ k /\ R x y.
Proof.
  induction 1 as [|a b l k Hab _ IH]; [by intros ?%elem_of_nil|].
  intros [->|Hx]%elem_of_cons; [exists b; split; [by left|done]|].
  destruct (IH Hx) as (y & ? & ?). exists y. split; [by right|done].
Qed.

Lemma Forall2_elem_r {A B} (R : A -> B -> Prop) l k y :
  Forall2 R l k -> y ∈ k -> exists x, x ∈ l /\ R x y.
Proof. intros H. apply (Forall2_elem_l (fun y x => R x y)). by apply Forall2_flip. Qed.
