(* ===== verification/Digits.v ===== *)
(** * Rendering and measuring integers in a base

    The crate renders sizes and timestamps in decimal ([update_decimal] and
    [write_decimal] of object.rs, [write_decimal_u64] of commit.rs) and modes in
    octal ([write_octal_u32_stream] of index.rs) with one and the same loop: the
    digits are stored backwards in a fixed array, from its end.  This file holds
    the loop, parameterised by the base, and its specification: the bytes
    produced are the canonical numeral of the value. *)
From S2P Require Import Prelude.

Section digits.
Context (base : N).

(** The body of [while value > 0 { cursor -= 1; buf[cursor] = b'0' + digit; value = rest }]. *)
Fixpoint fill_digits (fuel : nat) (buf : bytes) (cursor : nat) (value : N)
  : outcome (bytes * nat) :=
  if (value =? 0)%N then Ok (buf, cursor) else
  match fuel with
  | 0 => NoFuel
  | S fuel =>
      cursor ← pred_usize cursor;
      buf ← set_at buf cursor (byte_of_N (48 + value mod base));
      fill_digits fuel buf cursor (value / base)
  end.

(** The whole rendering into an array of [width] bytes: the slice [buf[cursor..]]. *)
Definition render (width : nat) (value : N) : outcome bytes :=
  let buf := replicate width Byte.x00 in
  let cursor := length buf in
  '(buf, cursor) ← (if (value =? 0)%N
                    then cursor ← pred_usize cursor;
                         buf ← set_at buf cursor (byte_of_N 48);
                         Ok (buf, cursor)
                    else fill_digits (S width) buf cursor value);
  slice buf cursor (length buf).

(** The number of iterations of [while value > 0 { len += 1; value /= base }]. *)
Fixpoint count_digits (fuel : nat) (len : nat) (value : N) : outcome nat :=
  if (value =? 0)%N then Ok len else
  match fuel with
  | 0 => NoFuel
  | S fuel => count_digits fuel (S len) (value / base)
  end.

(** ** Specification *)

Definition digit_value (b : byte) : N := (u8 b - 48)%N.

Definition is_digit (b : byte) : Prop := (48 <= u8 b < 48 + base)%N.

(** The value of a numeral, most significant digit first. *)
Definition numeral_value (ds : bytes) : N :=
  fold_left (fun acc b => (acc * base + digit_value b)%N) ds 0%N.

(** A canonical numeral: at least one digit and no leading zero. *)
Definition canonical (ds : bytes) : Prop :=
  Forall is_digit ds /\
  match ds with
  | [] => False
  | [_] => True
  | d :: _ => u8 d <> 48%N
  end.
End digits.

Section digits_lemmas.
Context (base : N).
Hypothesis base_range : (2 <= base <= 10)%N.

Lemma numeral_value_acc ds acc :
  fold_left (fun acc b => (acc * base + digit_value b)%N) ds acc
  = (acc * base ^ N.of_nat (length ds) + numeral_value base ds)%N.
Proof.
  unfold numeral_value. revert acc. induction ds as [|b ds IH]; intros acc; cbn [fold_left length].
  - rewrite N.pow_0_r. lia.
  - rewrite IH, (IH (0 * base + digit_value b)%N).
    rewrite Nat2N.inj_succ, N.pow_succ_r'. lia.
Qed.

Lemma numeral_value_cons d ds :
  numeral_value base (d :: ds)
  = (digit_value d * base ^ N.of_nat (length ds) + numeral_value base ds)%N.
Proof. unfold numeral_value at 1. cbn [fold_left]. by rewrite numeral_value_acc, N.mul_0_l. Qed.

Lemma numeral_value_snoc ds d :
  numeral_value base (ds ++ [d]) = (numeral_value base ds * base + digit_value d)%N.
Proof. unfold numeral_value. by rewrite fold_left_app. Qed.

Lemma digit_byte n : (n < base)%N ->
  is_digit base (byte_of_N (48 + n)) /\ digit_value (byte_of_N (48 + n)) = n
  /\ u8 (byte_of_N (48 + n)) = (48 + n)%N.
Proof.
  intros. unfold is_digit, digit_value. rewrite u8_byte_of_N, N.mod_small by lia. lia.
Qed.

Lemma numeral_value_lt ds :
  Forall (is_digit base) ds -> (numeral_value base ds < base ^ N.of_nat (length ds))%N.
Proof.
  induction 1 as [|d ds Hd _ IH]; [done|].
  rewrite numeral_value_cons. cbn [length]. rewrite Nat2N.inj_succ, N.pow_succ_r'.
  unfold is_digit, digit_value in *. nia.
Qed.

(** The loop stores the digits of [value], and only them, in front of the cursor. *)
Lemma fill_digits_spec fuel pre suf value :
  (value < base ^ N.of_nat (length pre))%N -> length pre < fuel ->
  exists pre' ds, fill_digits base fuel (pre ++ suf) (length pre) value
                  = Ok (pre' ++ ds ++ suf, length pre')
    /\ length pre' + length ds = length pre
    /\ Forall (is_digit base) ds /\ numeral_value base ds = value
    /\ match ds with [] => value = 0%N | d :: _ => u8 d <> 48%N end.
Proof.
  revert pre suf value. induction fuel as [|fuel IH]; intros pre suf value Hv Hf; [lia|].
  cbn [fill_digits]. destruct (N.eqb_spec value 0) as [->|Hnz].
  { exists pre, []. cbn. split_and!; [done|lia|constructor|done|done]. }
  destruct pre as [|x pre _] using rev_ind; [cbn in Hv; lia|].
  rewrite length_app in *. cbn [length] in *. rewrite Nat.add_1_r in *. cbn [pred_usize].
  rewrite bind_Ok, <- app_assoc. cbn [app]. rewrite set_at_app, bind_Ok.
  rewrite Nat2N.inj_succ, N.pow_succ_r' in Hv.
  pose proof (N.div_mod value base ltac:(lia)) as Hdm.
  pose proof (N.mod_lt value base ltac:(lia)) as Hm.
  destruct (IH pre (byte_of_N (48 + value mod base) :: suf) (value / base)%N)
    as (pre' & ds & -> & Hl & Hds & Hval & Hhd); [by apply N.Div0.div_lt_upper_bound|lia|].
  destruct (digit_byte (value mod base)%N Hm) as (Hdig & Hdv & Hu).
  exists pre', (ds ++ [byte_of_N (48 + value mod base)]).
  rewrite length_app, <- app_assoc. cbn [length app].
  split_and!; [done|lia|by apply Forall_app_2; [|constructor]| |].
  - rewrite numeral_value_snoc, Hval, Hdv. lia.
  - destruct ds; [|done]. cbn. rewrite Hu. lia.
Qed.

(** ** Correctness of the rendering *)

Lemma render_spec width value :
  0 < width -> (value < base ^ N.of_nat width)%N ->
  exists ds, render base width value = Ok ds
             /\ canonical base ds /\ numeral_value base ds = value.
Proof.
  intros Hw Hv. unfold render. rewrite length_replicate.
  destruct (N.eqb_spec value 0) as [->|Hnz].
  - destruct width as [|w]; [lia|]. cbn [pred_usize]. rewrite bind_Ok.
    rewrite replicate_S_end.
    pose proof (set_at_app (replicate w Byte.x00) [] Byte.x00 (byte_of_N 48)) as Hset.
    rewrite length_replicate in Hset. rewrite Hset, !bind_Ok. cbn beta iota.
    exists [byte_of_N 48]. rewrite length_app, length_replicate.
    rewrite <- (app_nil_r (replicate w _ ++ _)), <- app_assoc.
    rewrite slice_app; [|by rewrite length_replicate|by rewrite length_replicate].
    destruct (digit_byte 0%N ltac:(lia)) as (? & ? & ?).
    unfold canonical. split_and!; [done|by constructor|done|done].
  - destruct (fill_digits_spec (S width) (replicate width Byte.x00) [] value)
      as (pre' & ds & Hfill & Hl & Hds & Hval & Hhd); rewrite ?length_replicate; [done|lia|].
    rewrite app_nil_r, length_replicate in Hfill. rewrite Hfill, bind_Ok. cbn beta iota.
    exists ds. rewrite !length_app. cbn [length]. rewrite Nat.add_0_r.
    rewrite slice_app by done. split_and!; [done| |done].
    unfold canonical. split; [done|]. destruct ds as [|d [|? ?]]; cbn in *; [lia|done|done].
Qed.

(** A canonical numeral is determined by its value. *)
Lemma canonical_head_bound ds d d' :
  canonical base (d :: d' :: ds) ->
  (base ^ N.of_nat (S (length ds)) <= numeral_value base (d :: d' :: ds))%N.
Proof.
  intros [Hd Hn]. rewrite numeral_value_cons. cbn [length].
  apply Forall_inv in Hd as Hd0. unfold is_digit, digit_value in *. nia.
Qed.

Lemma canonical_length_bound ds n :
  canonical base ds -> (numeral_value base ds < base ^ N.of_nat n)%N -> 0 < n -> length ds <= n.
Proof.
  intros Hc Hlt Hn. destruct ds as [|d [|d' ds]]; cbn; [lia..|].
  pose proof (canonical_head_bound _ _ _ Hc) as Hb.
  destruct (Nat.le_gt_cases (S (S (length ds))) n) as [|Hgt]; [done|].
  assert (base ^ N.of_nat n <= base ^ N.of_nat (S (length ds)))%N
    by (apply N.pow_le_mono_r; lia). lia.
Qed.

Lemma numeral_inj ds1 ds2 :
  length ds1 = length ds2 -> Forall (is_digit base) ds1 -> Forall (is_digit base) ds2 ->
  numeral_value base ds1 = numeral_value base ds2 -> ds1 = ds2.
Proof.
  revert ds2. induction ds1 as [|d1 ds1 IH]; intros [|d2 ds2] Hl H1 H2 Hv; try done.
  apply Forall_cons in H1 as [Hd1 H1], H2 as [Hd2 H2].
  injection Hl as Hl. rewrite !numeral_value_cons, Hl in Hv.
  pose proof (numeral_value_lt _ H1) as B1. pose proof (numeral_value_lt _ H2) as B2.
  rewrite Hl in B1. unfold is_digit in *.
  assert (digit_value d1 = digit_value d2 /\ numeral_value base ds1 = numeral_value base ds2)
    as [Hd Hr] by (apply (N.div_mod_unique (base ^ N.of_nat (length ds2))); [done..|lia]).
  f_equal; [|by apply IH]. apply u8_inj. unfold digit_value in Hd. lia.
Qed.

Lemma canonical_inj ds1 ds2 :
  canonical base ds1 -> canonical base ds2 ->
  numeral_value base ds1 = numeral_value base ds2 -> ds1 = ds2.
Proof.
  assert (Hlen : forall a b, canonical base a -> canonical base b ->
            numeral_value base a = numeral_value base b -> length a <= length b).
  { intros a b Ha Hb E. pose proof (numeral_value_lt b (proj1 Hb)) as Hlt.
    apply canonical_length_bound; [done|by rewrite E|]. destruct b; [by destruct Hb|cbn; lia]. }
  intros H1 H2 E. apply numeral_inj; [|apply H1|apply H2|done].
  apply Nat.le_antisymm; by apply Hlen.
Qed.

(** The digit-counting loop measures the canonical numeral. *)
Lemma count_digits_spec fuel len ds :
  Forall (is_digit base) ds -> match ds with [] => True | d :: _ => u8 d <> 48%N end ->
  length ds <= fuel ->
  count_digits base fuel len (numeral_value base ds) = Ok (len + length ds).
Proof.
  revert fuel len. induction ds as [|d ds IH] using rev_ind; intros fuel len Hds Hhd Hf.
  { destruct fuel; cbn; by rewrite Nat.add_0_r. }
  apply Forall_app in Hds as [Hds Hd]. apply Forall_inv in Hd.
  rewrite length_app in *. cbn [length] in *.
  destruct fuel as [|fuel]; [lia|]. cbn [count_digits].
  rewrite numeral_value_snoc. unfold is_digit in Hd.
  assert (Hdv : (digit_value d < base)%N) by (unfold digit_value; lia).
  assert (Hpos : (numeral_value base ds * base + digit_value d <> 0)%N).
  { destruct ds as [|d0 ds]; [cbn in *; unfold digit_value in *; lia|].
    rewrite numeral_value_cons. apply Forall_inv in Hds. unfold is_digit, digit_value in *.
    pose proof (N.pow_nonzero base (N.of_nat (length ds)) ltac:(lia)). cbn in Hhd. nia. }
  rewrite (proj2 (N.eqb_neq _ _) Hpos).
  rewrite N.div_add_l, N.div_small, N.add_0_r by lia.
  rewrite IH; [f_equal; lia|done|destruct ds; [done|exact Hhd]|lia].
Qed.
End digits_lemmas.
