(* ===== verification/Object.v ===== *)
(** * Object ids, hexadecimal, object framing and hashing (zmin-git-core/src/object.rs)

    The digest functions of the [sha1] and [sha2] crates are parameters (class
    [Sha]); the documented length of their results is the class [ShaLaws]. *)
From S2P Require Import Prelude Digits.

(** ** Data *)

Inductive GitHashAlgorithm : Set :=
| Sha1
| Sha256.

Definition digest_len (a : GitHashAlgorithm) : nat :=
  match a with
  | Sha1 => 20
  | Sha256 => 32
  end.

Inductive GitObjectKind : Set :=
| Blob
| Tree
| Commit
| Tag.

(** [GitObjectKind::as_bytes] (and [as_str]). *)
Definition kind_as_bytes (k : GitObjectKind) : bytes :=
  match k with
  | Blob => bstr "blob"
  | Tree => bstr "tree"
  | Commit => bstr "commit"
  | Tag => bstr "tag"
  end.

(** [GitObjectKind::parse]. *)
Definition kind_parse (bs : bytes) : option GitObjectKind :=
  if bool_decide (bs = bstr "blob") then Some Blob
  else if bool_decide (bs = bstr "tree") then Some Tree
  else if bool_decide (bs = bstr "commit") then Some Commit
  else if bool_decide (bs = bstr "tag") then Some Tag
  else None.

(** [ObjectId]: the digest is stored in a 32-byte array, padded with zeros. *)
Record ObjectId : Set := MkObjectId {
  algorithm : GitHashAlgorithm;
  id_bytes : bytes
}.

#[export] Instance GitHashAlgorithm_eq_dec : EqDecision GitHashAlgorithm.
Proof. solve_decision. Defined.

#[export] Instance GitObjectKind_eq_dec : EqDecision GitObjectKind.
Proof. solve_decision. Defined.

#[export] Instance ObjectId_eq_dec : EqDecision ObjectId.
Proof. solve_decision. Defined.

#[export] Program Instance ObjectId_countable : Countable ObjectId :=
  inj_countable' (fun i => (bool_decide (algorithm i = Sha1), id_bytes i))
    (fun p => MkObjectId (if p.1 then Sha1 else Sha256) p.2) _.
Next Obligation. by intros [[] ?]. Qed.

(** The invariant of the private fields. *)
Definition ObjectId_wf (i : ObjectId) : Prop :=
  length (id_bytes i) = 32 /\
  drop (digest_len (algorithm i)) (id_bytes i)
  = replicate (32 - digest_len (algorithm i)) Byte.x00.

(** [ObjectId::new]: asserts the digest's length. *)
Definition ObjectId_new (a : GitHashAlgorithm) (digest : bytes) : outcome ObjectId :=
  _ ← assert (length digest =? digest_len a);
  let buf := replicate 32 Byte.x00 in
  Ok (MkObjectId a (digest ++ drop (length digest) buf)).

(** [ObjectId::as_bytes]. *)
Definition as_bytes (i : ObjectId) : bytes := take (digest_len (algorithm i)) (id_bytes i).

Definition hex_len (i : ObjectId) : nat := length (as_bytes i) * 2.

(** ** Hexadecimal *)

Definition hex_nibble (b : byte) : outcome N :=
  let n := u8 b in
  if ((48 <=? n) && (n <=? 57))%N then Ok (n - 48)%N
  else if ((97 <=? n) && (n <=? 102))%N then Ok (n - 97 + 10)%N
  else if ((65 <=? n) && (n <=? 70))%N then Ok (n - 65 + 10)%N
  else fail InvalidInput "git object id contains non-hex characters".

(** The loop over [hex_id.chunks_exact(2).enumerate()]. *)
Fixpoint from_hex_loop (hex_id : bytes) (idx : nat) (buf : bytes) : outcome bytes :=
  match hex_id with
  | c0 :: c1 :: rest =>
      high ← hex_nibble c0;
      low ← hex_nibble c1;
      buf ← set_at buf idx (byte_of_N (N.lor (N.shiftl high 4) low));
      from_hex_loop rest (S idx) buf
  | _ => Ok buf
  end.

(** [ObjectId::from_hex_bytes] ([ObjectId::from_hex] on the bytes of a string). *)
Definition from_hex_bytes (a : GitHashAlgorithm) (hex_id : bytes) : outcome ObjectId :=
  _ ← check (negb (length hex_id =? digest_len a * 2)) InvalidInput
        "git object id has the wrong length";
  buf ← from_hex_loop hex_id 0 (replicate 32 Byte.x00);
  digest ← slice buf 0 (digest_len a);
  ObjectId_new a digest.

Definition HEX : bytes := bstr "0123456789abcdef".

(** The two characters written for one byte. *)
Definition hex_pair (b : byte) : outcome bytes :=
  high ← index_at HEX (N.to_nat (N.shiftr (u8 b) 4));
  low ← index_at HEX (N.to_nat (N.land (u8 b) 15));
  Ok [high; low].

(** [ObjectId::write_hex_bytes]; [write_hex] writes the same characters. *)
Fixpoint write_hex_loop (bs : bytes) (out : bytes) : outcome bytes :=
  match bs with
  | [] => Ok out
  | b :: bs => p ← hex_pair b; write_hex_loop bs (out ++ p)
  end.

Definition write_hex_bytes (i : ObjectId) (out : bytes) : outcome bytes :=
  write_hex_loop (as_bytes i) out.

(** The loop of [ObjectId::write_hex_io] over the 64-byte buffer. *)
Fixpoint write_hex_io_loop (bs : bytes) (buffer : bytes) (cursor : nat)
  : outcome (bytes * nat) :=
  match bs with
  | [] => Ok (buffer, cursor)
  | b :: bs =>
      high ← index_at HEX (N.to_nat (N.shiftr (u8 b) 4));
      buffer ← set_at buffer cursor high;
      low ← index_at HEX (N.to_nat (N.land (u8 b) 15));
      buffer ← set_at buffer (cursor + 1) low;
      write_hex_io_loop bs buffer (cursor + 2)
  end.

(** The bytes [ObjectId::write_hex_io] passes to [out.write_all]. *)
Definition write_hex_io (i : ObjectId) : outcome bytes :=
  '(buffer, cursor) ← write_hex_io_loop (as_bytes i) (replicate 64 Byte.x00) 0;
  slice buffer 0 cursor.

(** The loop of [ObjectId::short_hex]: both [break]s stop it. *)
Fixpoint short_hex_loop (bs : bytes) (len : nat) (out : bytes) : outcome bytes :=
  match bs with
  | [] => Ok out
  | b :: bs =>
      if length out =? len then Ok out else
      high ← index_at HEX (N.to_nat (N.shiftr (u8 b) 4));
      let out := out ++ [high] in
      if length out =? len then Ok out else
      low ← index_at HEX (N.to_nat (N.land (u8 b) 15));
      short_hex_loop bs len (out ++ [low])
  end.

Definition short_hex (i : ObjectId) (len : nat) : outcome bytes :=
  let len := Nat.min len (hex_len i) in
  short_hex_loop (as_bytes i) len [].

(** ** Sizes in decimal *)

(** [update_decimal] and [write_decimal]: the bytes they emit from their
    20-byte buffer. *)
Definition decimal_bytes (value : N) : outcome bytes := render 10 20 value.

Definition decimal_len (value : N) : outcome nat :=
  if (value =? 0)%N then Ok 1 else count_digits 10 20 0 value.

(** The loop of [parse_decimal]. *)
Fixpoint parse_decimal_loop (bs : bytes) (value : N) : outcome N :=
  match bs with
  | [] => Ok value
  | b :: bs =>
      _ ← check (negb ((48 <=? u8 b) && (u8 b <=? 57))%N) InvalidData
            "invalid git object size digit";
      value ← ok_or (checked_mulN value 10 ≫= (fun value => checked_addN value (u8 b - 48)%N))
                InvalidData "git object too large";
      parse_decimal_loop bs value
  end.

Definition parse_decimal (bs : bytes) : outcome N :=
  _ ← check (bool_decide (bs = [])) InvalidData "empty git object size";
  _ ← check ((1 <? length bs) && bool_decide (bs !! 0 = Some "0"%byte)) InvalidData
        "git object size has leading zero";
  parse_decimal_loop bs 0.

(** ** Framing: [<kind> <len>\0<content>] *)

Definition encoded_object_len (k : GitObjectKind) (content_len : nat) : outcome nat :=
  dl ← decimal_len (N.of_nat content_len);
  Ok (length (kind_as_bytes k) + 1 + dl + 1 + content_len).

Definition decode_object_header (encoded : bytes) : outcome (GitObjectKind * N * nat) :=
  nul ← ok_or (position (byte_is Byte.x00) encoded) InvalidData "git object header missing NUL";
  header ← slice encoded 0 nul;
  space ← ok_or (position (byte_is " "%byte) header) InvalidData
            "git object header missing space";
  kind_bytes ← slice header 0 space;
  kind ← ok_or (kind_parse kind_bytes) InvalidData "unknown git object type";
  size_bytes ← slice header (space + 1) (length header);
  size ← parse_decimal size_bytes;
  let content_start := nul + 1 in
  let actual_size := length encoded - content_start in
  _ ← check (negb (N.of_nat actual_size =? size)%N) InvalidData
        "git object size does not match header";
  Ok (kind, size, content_start).

(** ** Hashing *)

Class Sha : Type := {
  sha1 : bytes -> bytes;
  sha256 : bytes -> bytes
}.

(** Documented of the [sha1] and [sha2] crates: the length of a digest. *)
Class ShaLaws `{Sha} : Prop := {
  sha1_length : forall bs, length (sha1 bs) = 20;
  sha256_length : forall bs, length (sha256 bs) = 32
}.

Definition sha_digest `{Sha} (a : GitHashAlgorithm) (bs : bytes) : bytes :=
  match a with
  | Sha1 => sha1 bs
  | Sha256 => sha256 bs
  end.

(** [GitObjectHash]: a streaming hasher is determined by the algorithm and the
    bytes it has absorbed. *)
Record GitObjectHash : Set := MkHash {
  hash_algorithm : GitHashAlgorithm;
  hash_absorbed : bytes
}.

Definition hash_new (a : GitHashAlgorithm) : GitObjectHash := MkHash a [].

Definition hash_update (h : GitObjectHash) (bs : bytes) : GitObjectHash :=
  MkHash (hash_algorithm h) (hash_absorbed h ++ bs).

Definition hash_finalize `{Sha} (h : GitObjectHash) : outcome ObjectId :=
  ObjectId_new (hash_algorithm h) (sha_digest (hash_algorithm h) (hash_absorbed h)).

(** [update_header] (and [GitObjectHash::update_object_header]). *)
Definition update_header (h : GitObjectHash) (k : GitObjectKind) (content_len : nat)
  : outcome GitObjectHash :=
  let h := hash_update h (kind_as_bytes k) in
  let h := hash_update h (bstr " ") in
  d ← decimal_bytes (N.of_nat content_len);
  let h := hash_update h d in
  Ok (hash_update h [Byte.x00]).

Definition hash_object `{Sha} (a : GitHashAlgorithm) (k : GitObjectKind) (content : bytes)
  : outcome ObjectId :=
  h ← update_header (hash_new a) k (length content);
  hash_finalize (hash_update h content).

(** ** Writers

    [io::Write]: one call of [write] may accept only part of its buffer. *)
Class Writer (W : Type) : Type := writer_write : W -> bytes -> outcome nat * W.

(** [Write::write_all]: the standard library's loop. *)
Fixpoint write_all_loop `{Writer W} (fuel : nat) (w : W) (buf : bytes) : outcome unit * W :=
  match buf with
  | [] => (Ok tt, w)
  | _ :: _ =>
      match fuel with
      | 0 => (NoFuel, w)
      | S fuel =>
          match writer_write w buf with
          | (Ok 0, w) => (fail OtherKind "failed to write whole buffer", w)
          | (Ok n, w) =>
              match slice buf n (length buf) with
              | Ok buf => write_all_loop fuel w buf
              | _ => (Panic, w)
              end
          | (Err e, w) => (Err e, w)
          | (Panic, w) => (Panic, w)
          | (NoFuel, w) => (NoFuel, w)
          end
      end
  end.

Definition write_all `{Writer W} (w : W) (buf : bytes) : outcome unit * W :=
  write_all_loop (length buf) w buf.

(** [GitObjectWriter]: hashes exactly what the inner writer accepted. *)
Record GitObjectWriter (W : Type) : Type := MkObjectWriter {
  inner : W;
  hasher : GitObjectHash
}.
Arguments MkObjectWriter {W}.
Arguments inner {W}.
Arguments hasher {W}.

Definition object_writer_new {W} (w : W) (a : GitHashAlgorithm) : GitObjectWriter W :=
  MkObjectWriter w (hash_new a).

#[export] Instance object_writer_write `{Writer W} : Writer (GitObjectWriter W) :=
  fun ow buf =>
    match writer_write (inner ow) buf with
    | (Ok written, w) =>
        match slice buf 0 written with
        | Ok accepted => (Ok written, MkObjectWriter w (hash_update (hasher ow) accepted))
        | _ => (Panic, MkObjectWriter w (hasher ow))
        end
    | (r, w) => (r, MkObjectWriter w (hasher ow))
    end.

Definition object_writer_finish `{Sha} {W} (ow : GitObjectWriter W) : outcome (W * ObjectId) :=
  id ← hash_finalize (hasher ow);
  Ok (inner ow, id).

(** [io::Result] operations in sequence on one writer: the first error stops. *)
Definition then_write {W} (r : outcome unit * W) (f : W -> outcome unit * W) : outcome unit * W :=
  match r with
  | (Ok _, w) => f w
  | r => r
  end.

Definition write_decimal `{Writer W} (w : W) (value : N) : outcome unit * W :=
  match decimal_bytes value with
  | Ok d => write_all w d
  | Err e => (Err e, w)
  | Panic => (Panic, w)
  | NoFuel => (NoFuel, w)
  end.

Definition write_header `{Writer W} (w : W) (k : GitObjectKind) (content_len : nat)
  : outcome unit * W :=
  then_write (write_all w (kind_as_bytes k)) (fun w =>
  then_write (write_all w (bstr " ")) (fun w =>
  then_write (write_decimal w (N.of_nat content_len)) (fun w =>
  write_all w [Byte.x00]))).

Definition write_encoded_object `{Sha, Writer W} (w : W) (a : GitHashAlgorithm)
    (k : GitObjectKind) (content : bytes) : outcome (W * ObjectId) :=
  let r := then_write (write_header (object_writer_new w a) k (length content)) (fun ow =>
           write_all ow content) in
  match r with
  | (Ok _, ow) => object_writer_finish ow
  | (Err e, _) => Err e
  | (Panic, _) => Panic
  | (NoFuel, _) => NoFuel
  end.

(** ** Specification of the framing *)

(** The canonical decimal of a length. *)
Definition decimal_spec (n : N) (ds : bytes) : Prop :=
  canonical 10 ds /\ numeral_value 10 ds = n.

(** The canonical frame of an object. *)
Definition frame (k : GitObjectKind) (ds : bytes) (content : bytes) : bytes :=
  kind_as_bytes k ++ " "%byte :: ds ++ Byte.x00 :: content.

(** The reference hexadecimal encoding, lowercase. *)
Definition hex_char (n : N) : byte := byte_of_N (if n <? 10 then 48 + n else 87 + n)%N.

Definition hex_encode (bs : bytes) : bytes :=
  flat_map (fun b => [hex_char (u8 b / 16)%N; hex_char (u8 b mod 16)%N]) bs.

(** [to_ascii_lowercase]. *)
Definition to_lower (b : byte) : byte :=
  if ((65 <=? u8 b) && (u8 b <=? 90))%N then byte_of_N (u8 b + 32) else b.

(** The reference decoder: pairs of hexadecimal digits. *)
Fixpoint hex_decode (s : bytes) : outcome bytes :=
  match s with
  | c0 :: c1 :: rest =>
      high ← hex_nibble c0;
      low ← hex_nibble c1;
      ds ← hex_decode rest;
      Ok (byte_of_N (N.lor (N.shiftl high 4) low) :: ds)
  | _ => Ok []
  end.

(** The id with a given digest. *)
Definition mk_id (a : GitHashAlgorithm) (d : bytes) : ObjectId :=
  MkObjectId a (d ++ drop (length d) (replicate 32 Byte.x00)).

(** ** Object ids *)

Lemma digest_len_le a : digest_len a <= 32.
Proof. destruct a; cbn; lia. Qed.

Lemma digest_len_pos a : 0 < digest_len a.
Proof. destruct a; cbn; lia. Qed.

Lemma ObjectId_new_ok a d : length d = digest_len a -> ObjectId_new a d = Ok (mk_id a d).
Proof. intros E%Nat.eqb_eq. unfold ObjectId_new. by rewrite E. Qed.

Lemma ObjectId_new_Ok a d i :
  ObjectId_new a d = Ok i <-> length d = digest_len a /\ i = mk_id a d.
Proof.
  unfold ObjectId_new. destruct (Nat.eqb_spec (length d) (digest_len a)); cbn.
  - split; [intros [= <-]; done|intros [_ ->]; done].
  - split; [done|intros [? _]; done].
Qed.

Lemma as_bytes_mk_id a d : length d = digest_len a -> as_bytes (mk_id a d) = d.
Proof. intros E. unfold as_bytes, mk_id. cbn. by rewrite take_app_length'. Qed.

Lemma length_as_bytes i : ObjectId_wf i -> length (as_bytes i) = digest_len (algorithm i).
Proof.
  intros [Hl _]. unfold as_bytes. rewrite length_take.
  pose proof (digest_len_le (algorithm i)). lia.
Qed.

Lemma mk_id_wf a d : length d = digest_len a -> ObjectId_wf (mk_id a d).
Proof.
  intros E. unfold ObjectId_wf, mk_id. cbn [id_bytes algorithm]. rewrite E.
  split.
  - rewrite length_app, length_drop, length_replicate. pose proof (digest_len_le a). lia.
  - rewrite drop_app_length' by done. by rewrite drop_replicate.
Qed.

Lemma mk_id_as_bytes i : ObjectId_wf i -> mk_id (algorithm i) (as_bytes i) = i.
Proof.
  intros Hwf. pose proof (length_as_bytes i Hwf) as Hl. destruct Hwf as [_ Hd].
  destruct i as [a bs]. unfold mk_id. rewrite Hl. cbn [id_bytes algorithm] in *.
  change (as_bytes _) with (take (digest_len a) bs).
  rewrite drop_replicate, <- Hd. f_equal. apply take_drop.
Qed.

(** A well-formed id is determined by its algorithm and its digest. *)
Lemma as_bytes_inj i j :
  ObjectId_wf i -> ObjectId_wf j -> algorithm i = algorithm j ->
  as_bytes i = as_bytes j -> i = j.
Proof.
  intros Hi Hj Ha Hb. rewrite <- (mk_id_as_bytes i), <- (mk_id_as_bytes j) by done. congruence.
Qed.

Lemma ObjectId_new_as_bytes i :
  ObjectId_wf i -> ObjectId_new (algorithm i) (as_bytes i) = Ok i.
Proof.
  intros Hwf. rewrite ObjectId_new_ok by by apply length_as_bytes. by rewrite mk_id_as_bytes.
Qed.

Lemma safe_ObjectId_new a d : length d = digest_len a -> safe (ObjectId_new a d).
Proof. intros E. by rewrite ObjectId_new_ok. Qed.

(** ** Hexadecimal *)

Lemma hex_pair_spec b :
  hex_pair b = Ok [hex_char (u8 b / 16)%N; hex_char (u8 b mod 16)%N].
Proof. by destruct b. Qed.

Lemma hex_char_roundtrip b :
  hex_nibble (hex_char (u8 b / 16)%N) = Ok (u8 b / 16)%N /\
  hex_nibble (hex_char (u8 b mod 16)%N) = Ok (u8 b mod 16)%N /\
  byte_of_N (N.lor (N.shiftl (u8 b / 16) 4) (u8 b mod 16)) = b.
Proof. by destruct b. Qed.

Lemma hex_nibble_lt c n : hex_nibble c = Ok n -> (n < 16)%N /\ hex_char n = to_lower c.
Proof. destruct c; intros [= <-]; done. Qed.

Lemma nibbles_join h l :
  (h < 16)%N -> (l < 16)%N ->
  u8 (byte_of_N (N.lor (N.shiftl h 4) l)) = (h * 16 + l)%N.
Proof.
  intros Hh Hl. apply N.eqb_eq. revert l Hl.
  refine (_ (forall_below 16 (fun h => forallb (fun l =>
    u8 (byte_of_N (N.lor (N.shiftl h 4) (N.of_nat l))) =? h * 16 + N.of_nat l)%N (seq 0 16))
    eq_refl h Hh)).
  intros H l Hl. apply (forall_below 16 (fun l =>
    u8 (byte_of_N (N.lor (N.shiftl h 4) l)) =? h * 16 + l)%N H). lia.
Qed.

Lemma hex_nibble_char n c : (n < 16)%N -> to_lower c = hex_char n -> hex_nibble c = Ok n.
Proof.
  intros Hn E.
  pose proof (forall_bytes (fun c => forallb (fun n =>
    implb (Byte.eqb (to_lower c) (hex_char (N.of_nat n)))
      (bool_decide (hex_nibble c = Ok (N.of_nat n)))) (seq 0 16)) eq_refl c) as H. cbv beta in H.
  pose proof (forall_below 16 (fun n => implb (Byte.eqb (to_lower c) (hex_char n))
    (bool_decide (hex_nibble c = Ok n))) H n Hn) as Hc. cbv beta in Hc.
  rewrite E, byte_eqb_refl in Hc. by apply bool_decide_eq_true in Hc.
Qed.

Lemma hex_decode_encode bs : hex_decode (hex_encode bs) = Ok bs.
Proof.
  induction bs as [|b bs IH]; [done|]. cbn [hex_encode flat_map app hex_decode].
  destruct (hex_char_roundtrip b) as (-> & -> & Hb). rewrite !bind_Ok.
  fold (hex_encode bs). rewrite IH, bind_Ok. by rewrite Hb.
Qed.

Lemma length_hex_encode bs : length (hex_encode bs) = length bs * 2.
Proof. induction bs as [|b bs IH]; [done|]. cbn. fold (hex_encode bs). lia. Qed.

Lemma hex_encode_decode n s ds :
  length s = n * 2 -> hex_decode s = Ok ds -> hex_encode ds = map to_lower s /\ length ds = n.
Proof.
  revert s ds. induction n as [|n IH]; intros [|c0 [|c1 s]] ds Hl Hd; cbn in Hl; try lia.
  { by injection Hd as <-. }
  cbn [hex_decode] in Hd. inv_ok. cbn [hex_encode flat_map map app length].
  destruct (hex_nibble_lt _ _ E) as [? <-], (hex_nibble_lt _ _ E0) as [? <-].
  rewrite nibbles_join by done. rewrite N.div_add_l, N.div_small, N.add_0_r by lia.
  rewrite (N.add_comm (_ * 16)), N.Div0.mod_add, N.mod_small by done.
  destruct (IH s v1) as [Henc Hlen]; [lia|done|]. split; [by do 2 f_equal|by f_equal].
Qed.

(** The loop over the fixed array agrees with the reference decoder. *)
Lemma from_hex_loop_spec n s pre mid post :
  length s = n * 2 -> length mid = n ->
  from_hex_loop s (length pre) (pre ++ mid ++ post)
  = (ds ← hex_decode s; Ok (pre ++ ds ++ post)).
Proof.
  revert s pre mid. induction n as [|n IH]; intros [|c0 [|c1 s]] pre [|x mid] Hl Hm;
    cbn in Hl, Hm; try lia; [done|].
  cbn [from_hex_loop hex_decode].
  destruct (hex_nibble c0) as [h|e| |]; [rewrite !bind_Ok|done..].
  destruct (hex_nibble c1) as [l|e| |]; [rewrite !bind_Ok|done..].
  cbn [app]. rewrite set_at_app, bind_Ok.
  replace (S (length pre)) with (length (pre ++ [byte_of_N (N.lor (N.shiftl h 4) l)]))
    by (rewrite length_app; cbn; lia).
  change (?p ++ ?b :: mid ++ post) with (p ++ [b] ++ (mid ++ post)).
  rewrite app_assoc, IH by lia.
  destruct (hex_decode s) as [ds|e| |]; cbn; [by rewrite <- app_assoc|done..].
Qed.

Lemma safe_hex_nibble c : safe (hex_nibble c).
Proof. by destruct c. Qed.

Lemma safe_hex_decode n s : length s = n * 2 -> safe (hex_decode s).
Proof.
  revert s. induction n as [|n IH]; intros [|c0 [|c1 s]] Hl; cbn in Hl; try lia; [exact I|].
  cbn [hex_decode]. apply safe_bind; [apply safe_hex_nibble|intros ? _].
  apply safe_bind; [apply safe_hex_nibble|intros ? _].
  apply safe_bind; [apply IH; lia|intros ? _; exact I].
Qed.
#[export] Hint Resolve safe_hex_nibble : zmin.

Lemma from_hex_bytes_spec a s :
  from_hex_bytes a s =
  if length s =? digest_len a * 2 then (ds ← hex_decode s; Ok (mk_id a ds))
  else fail InvalidInput "git object id has the wrong length".
Proof.
  unfold from_hex_bytes. destruct (Nat.eqb_spec (length s) (digest_len a * 2)) as [Hl|]; [|done].
  cbn [negb check]. rewrite bind_Ok.
  pose proof (digest_len_le a) as Hle.
  replace (replicate 32 Byte.x00)
    with ([] ++ replicate (digest_len a) Byte.x00 ++ replicate (32 - digest_len a) Byte.x00)
    by (rewrite app_nil_l, <- replicate_add; f_equal; lia).
  pose proof (from_hex_loop_spec (digest_len a) s [] (replicate (digest_len a) Byte.x00)
    (replicate (32 - digest_len a) Byte.x00) Hl) as Hloop.
  cbn [length] in Hloop. rewrite Hloop by apply length_replicate.
  destruct (hex_decode s) as [ds|e| |] eqn:Hd; cbn [app]; [rewrite !bind_Ok|done..].
  destruct (hex_encode_decode _ _ _ Hl Hd) as [_ Hds].
  rewrite <- (app_nil_l (ds ++ _)), slice_app by done. rewrite bind_Ok.
  by apply ObjectId_new_ok.
Qed.

Lemma from_hex_bytes_encode i :
  ObjectId_wf i -> from_hex_bytes (algorithm i) (hex_encode (as_bytes i)) = Ok i.
Proof.
  intros Hwf. rewrite from_hex_bytes_spec, length_hex_encode, length_as_bytes, Nat.eqb_refl by done.
  by rewrite hex_decode_encode, bind_Ok, mk_id_as_bytes.
Qed.

Lemma safe_from_hex_bytes a s : safe (from_hex_bytes a s).
Proof.
  rewrite from_hex_bytes_spec. destruct (Nat.eqb_spec (length s) (digest_len a * 2)); [|done].
  apply safe_bind; [by apply (safe_hex_decode (digest_len a))|done].
Qed.

Lemma from_hex_bytes_wf a s i : from_hex_bytes a s = Ok i -> ObjectId_wf i /\ algorithm i = a.
Proof.
  rewrite from_hex_bytes_spec. destruct (Nat.eqb_spec (length s) (digest_len a * 2)) as [Hl|];
    [|done].
  intros H. inv_ok. destruct (hex_encode_decode _ _ _ Hl E) as [_ Hds].
  split; [by apply mk_id_wf|done].
Qed.

(** The digits are ASCII and none of the separators of the text formats. *)
Lemma hex_char_text n : (n < 16)%N -> ((48 <=? u8 (hex_char n)) && (u8 (hex_char n) <? 128))%N = true.
Proof. apply (forall_below 16 (fun n => ((48 <=? u8 (hex_char n)) && (u8 (hex_char n) <? 128))%N)). vm_compute. reflexivity. Qed.

Lemma hex_encode_text bs : Forall (fun b => (48 <= u8 b < 128)%N) (hex_encode bs).
Proof.
  unfold hex_encode. induction bs as [|b bs IH]; cbn [flat_map app]; [constructor|].
  pose proof (u8_lt b).
  assert (u8 b / 16 < 16)%N by (by apply N.Div0.div_lt_upper_bound).
  assert (u8 b mod 16 < 16)%N by (by apply N.mod_lt).
  repeat apply Forall_cons_2; [| |done].
  - pose proof (hex_char_text (u8 b / 16) ltac:(assumption)) as E. breflect. lia.
  - pose proof (hex_char_text (u8 b mod 16) ltac:(assumption)) as E. breflect. lia.
Qed.

Lemma hex_decode_lower bs s :
  map to_lower s = hex_encode bs -> hex_decode s = Ok bs.
Proof.
  revert s. induction bs as [|b bs IH]; intros s E; [by destruct s|].
  destruct s as [|c0 [|c1 s]]; [done..|].
  cbn [map hex_encode flat_map app] in E. injection E as E0 E1 E.
  pose proof (u8_lt b). cbn [hex_decode].
  rewrite (hex_nibble_char (u8 b / 16)%N c0) by (done || by apply N.Div0.div_lt_upper_bound).
  rewrite (hex_nibble_char (u8 b mod 16)%N c1) by (done || by apply N.mod_lt).
  rewrite !bind_Ok, IH, bind_Ok by done. f_equal. f_equal. apply hex_char_roundtrip.
Qed.

Lemma write_hex_loop_spec bs out : write_hex_loop bs out = Ok (out ++ hex_encode bs).
Proof.
  revert out. induction bs as [|b bs IH]; intros out; cbn [write_hex_loop]; [by rewrite app_nil_r|].
  rewrite hex_pair_spec, bind_Ok, IH. by rewrite <- app_assoc.
Qed.

Lemma write_hex_io_loop_spec bs pre post :
  length bs * 2 <= length post ->
  write_hex_io_loop bs (pre ++ post) (length pre)
  = Ok (pre ++ hex_encode bs ++ drop (length bs * 2) post, length pre + length bs * 2).
Proof.
  revert pre post. induction bs as [|b bs IH]; intros pre post Hl.
  { cbn. by rewrite drop_0, Nat.add_0_r. }
  destruct post as [|x0 [|x1 post]]; cbn in Hl; [lia..|].
  pose proof (hex_pair_spec b) as Hp. unfold hex_pair in Hp. inv_ok.
  cbn [hex_encode flat_map]. fold (hex_encode bs).
  set (h := hex_char (u8 b / 16)) in *. set (l := hex_char (u8 b mod 16)) in *.
  cbn [write_hex_io_loop]. rewrite E, bind_Ok, set_at_app, bind_Ok, E0, bind_Ok.
  change (pre ++ h :: x1 :: post) with (pre ++ [h] ++ x1 :: post). rewrite app_assoc.
  replace (length pre + 1) with (length (pre ++ [h])) by (rewrite length_app; cbn; lia).
  rewrite set_at_app, bind_Ok.
  change (_ ++ l :: post) with ((pre ++ [h]) ++ [l] ++ post). rewrite app_assoc.
  replace (length pre + 2) with (length ((pre ++ [h]) ++ [l]))
    by (rewrite !length_app; cbn; lia).
  rewrite IH by lia. rewrite !length_app, <- !app_assoc. cbn. do 2 f_equal. lia.
Qed.

Lemma short_hex_loop_spec bs len out :
  length out <= len -> len <= length out + length bs * 2 ->
  short_hex_loop bs len out = Ok (out ++ take (len - length out) (hex_encode bs)).
Proof.
  revert out. induction bs as [|b bs IH]; intros out Hlo Hhi; cbn [short_hex_loop].
  { cbn. by rewrite take_nil, app_nil_r. }
  pose proof (hex_pair_spec b) as Hp. unfold hex_pair in Hp. inv_ok.
  cbn [hex_encode flat_map]. fold (hex_encode bs). rewrite E, E0. cbn [length] in Hhi.
  set (h := hex_char (u8 b / 16)) in *. set (l := hex_char (u8 b mod 16)) in *.
  destruct (Nat.eqb_spec (length out) len) as [->|].
  { by rewrite Nat.sub_diag, take_0, app_nil_r. }
  rewrite bind_Ok. rewrite length_app. cbn [length].
  destruct (Nat.eqb_spec (length out + 1) len) as [<-|].
  { by replace (_ - _) with 1 by lia. }
  rewrite bind_Ok, IH; rewrite !length_app; cbn [length]; [|lia..].
  rewrite <- !app_assoc. do 2 f_equal.
  replace (len - length out) with (S (S (len - (length out + 1 + 1)))) by lia. done.
Qed.

(** ** Decimal *)

Lemma decimal_spec_exists n : exists ds, decimal_spec n ds.
Proof.
  destruct (render_spec 10 ltac:(lia) (S (N.size_nat n)) n) as (ds & _ & ?); [lia| |by exists ds].
  apply N.lt_le_trans with (2 ^ N.of_nat (S (N.size_nat n)))%N; [|apply N.pow_le_mono_l; lia].
  destruct n as [|p]; [done|]. apply N.lt_le_trans with (2 ^ N.size (N.pos p))%N.
  - apply N.size_gt.
  - apply N.pow_le_mono_r; [lia|]. cbn [N.size N.size_nat].
    clear. induction p; cbn in *; lia.
Qed.

Lemma decimal_bytes_ok n :
  (n < usize_limit)%N -> exists ds, decimal_bytes n = Ok ds /\ decimal_spec n ds.
Proof.
  intros Hn. apply render_spec; [lia..|]. eapply N.lt_trans; [exact Hn|done].
Qed.

Lemma decimal_spec_inj n ds1 ds2 : decimal_spec n ds1 -> decimal_spec n ds2 -> ds1 = ds2.
Proof. intros [? E1] [? E2]. apply (canonical_inj 10); [lia|done..|congruence]. Qed.

Lemma decimal_bytes_spec n ds :
  (n < usize_limit)%N -> decimal_spec n ds -> decimal_bytes n = Ok ds.
Proof.
  intros Hn Hds. destruct (decimal_bytes_ok n Hn) as (ds' & -> & Hds').
  f_equal. by apply (decimal_spec_inj n).
Qed.

Lemma decimal_len_spec n ds :
  (n < usize_limit)%N -> decimal_spec n ds -> decimal_len n = Ok (length ds).
Proof.
  intros Hn Hds. unfold decimal_len. destruct (N.eqb_spec n 0) as [->|Hnz].
  - rewrite (decimal_spec_inj 0 ds (bstr "0")); [done|done|].
    split; [|done]. split; [|done]. by repeat constructor.
  - destruct Hds as [[Hd Hhd] <-]. rewrite count_digits_spec; [done|lia|done| |].
    + destruct ds as [|d [|d' ds]]; [done| |done].
      unfold numeral_value, digit_value in Hnz. cbn in Hnz. intros E. by rewrite E in Hnz.
    + apply (canonical_length_bound 10); [lia|by split| |lia].
      eapply N.lt_trans; [exact Hn|done].
Qed.

Lemma digit_test b : ((48 <=? u8 b) && (u8 b <=? 57))%N = true <-> is_digit 10 b.
Proof. unfold is_digit. rewrite andb_true_iff, !N.leb_le. lia. Qed.

Lemma parse_decimal_loop_Ok bs v n :
  (v < usize_limit)%N ->
  parse_decimal_loop bs v = Ok n <->
  Forall (is_digit 10) bs /\ n = (v * 10 ^ N.of_nat (length bs) + numeral_value 10 bs)%N
  /\ (n < usize_limit)%N.
Proof.
  revert v. induction bs as [|b bs IH]; intros v Hv; cbn [parse_decimal_loop].
  { cbn. rewrite N.mul_1_r, N.add_0_r.
    split; [intros [= <-]; by split_and!|by intros (_ & -> & _)]. }
  rewrite numeral_value_cons by lia. cbn [length]. rewrite Nat2N.inj_succ, N.pow_succ_r'.
  rewrite Forall_cons, <- digit_test.
  destruct (_ && _)%bool eqn:Hd; cbn [negb check]; [rewrite bind_Ok|split; [done|naive_solver]].
  apply digit_test in Hd. unfold is_digit in Hd. unfold digit_value.
  unfold checked_mulN. destruct (N.ltb_spec (v * 10) usize_limit) as [Hm|Hm]; cbn [mbind option_bind].
  2:{ split; [done|]. intros (_ & -> & Hlt).
      pose proof (N.pow_nonzero 10 (N.of_nat (length bs)) ltac:(lia)). nia. }
  unfold checked_addN. destruct (N.ltb_spec (v * 10 + (u8 b - 48)) usize_limit) as [Ha|Ha].
  - cbn [ok_or]. rewrite bind_Ok, IH by done.
    set (P := (10 ^ N.of_nat (length bs))%N).
    replace ((v * 10 + (u8 b - 48)) * P)%N with (v * (10 * P) + (u8 b - 48) * P)%N by ring.
    rewrite <- N.add_assoc. naive_solver.
  - cbn. split; [done|]. intros (_ & -> & Hlt).
    pose proof (N.pow_nonzero 10 (N.of_nat (length bs)) ltac:(lia)). nia.
Qed.

(** [parse_decimal] accepts exactly the canonical numerals of 64-bit values. *)
Lemma parse_decimal_Ok bs n :
  parse_decimal bs = Ok n <-> decimal_spec n bs /\ (n < usize_limit)%N.
Proof.
  unfold parse_decimal, decimal_spec, canonical.
  destruct bs as [|d bs]; [split; [done|naive_solver]|].
  rewrite (bool_decide_false (d :: bs = [])) by done. cbn [check]. rewrite bind_Ok.
  destruct ((1 <? length (d :: bs)) && _) eqn:Hz; cbn [check].
  - split; [done|]. intros [[[_ Hhd] _] _]. breflect. destruct bs as [|d' bs]; [cbn in *; lia|].
    cbn in *. by simplify_eq.
  - rewrite bind_Ok, parse_decimal_loop_Ok by done. rewrite N.mul_0_l, N.add_0_l.
    split; [|naive_solver]. intros (? & -> & ?). split_and!; [done| |done|done].
    destruct bs as [|d' bs]; [done|]. intros E. apply andb_false_iff in Hz as [Hz|Hz].
    + by cbn in Hz.
    + apply bool_decide_eq_false in Hz. apply Hz. cbn. f_equal. by apply u8_inj.
Qed.

Lemma safe_parse_decimal bs : safe (parse_decimal bs).
Proof.
  unfold parse_decimal. apply safe_bind; [auto with zmin|intros _ _].
  apply safe_bind; [auto with zmin|intros _ _].
  generalize 0%N. induction bs as [|b bs IH]; intros v; cbn [parse_decimal_loop]; [exact I|].
  apply safe_bind; [auto with zmin|intros _ _].
  apply safe_bind; [auto with zmin|intros ? _]. apply IH.
Qed.
#[export] Hint Resolve safe_parse_decimal : zmin.

(** ** Framing *)

Lemma kind_parse_as_bytes k : kind_parse (kind_as_bytes k) = Some k.
Proof. by destruct k. Qed.

Lemma kind_parse_Some bs k : kind_parse bs = Some k <-> bs = kind_as_bytes k.
Proof.
  split; [|intros ->; apply kind_parse_as_bytes].
  unfold kind_parse. repeat case_bool_decide; intros; simplify_eq; done.
Qed.

Lemma kind_no_space k : contains_byte " "%byte (kind_as_bytes k) = false.
Proof. by destruct k. Qed.

Lemma kind_no_nul k : contains_byte Byte.x00 (kind_as_bytes k) = false.
Proof. by destruct k. Qed.

Lemma digits_no_byte c ds :
  Forall (is_digit 10) ds -> (u8 c < 48)%N -> contains_byte c ds = false.
Proof.
  intros Hds Hc. apply contains_byte_false. eapply Forall_impl; [exact Hds|].
  intros d Hd. apply byte_eqb_false. intros ->. unfold is_digit in Hd. lia.
Qed.

Lemma frame_header_no_nul k ds :
  Forall (is_digit 10) ds -> contains_byte Byte.x00 (kind_as_bytes k ++ " "%byte :: ds) = false.
Proof.
  intros Hds. rewrite contains_byte_app, kind_no_nul.
  change (contains_byte Byte.x00 ds = false). by apply digits_no_byte.
Qed.

Lemma decode_frame k ds content :
  decimal_spec (N.of_nat (length content)) ds ->
  (N.of_nat (length content) < usize_limit)%N ->
  decode_object_header (frame k ds content)
  = Ok (k, N.of_nat (length content), length (kind_as_bytes k) + 1 + length ds + 1).
Proof.
  intros Hds Hlt. unfold decode_object_header.
  assert (Ef : frame k ds content = (kind_as_bytes k ++ " "%byte :: ds) ++ Byte.x00 :: content)
    by (unfold frame; by rewrite <- app_assoc).
  rewrite Ef, position_byte_app by apply frame_header_no_nul, Hds.
  cbn [ok_or]. rewrite bind_Ok, slice_take by (rewrite !length_app; cbn [length]; lia).
  rewrite take_app_length, bind_Ok, position_byte_app by apply kind_no_space.
  cbn [ok_or]. rewrite bind_Ok, slice_take by (rewrite !length_app; cbn [length]; lia).
  rewrite take_app_length, bind_Ok, kind_parse_as_bytes. cbn [ok_or].
  rewrite bind_Ok, slice_from by (rewrite !length_app; cbn [length]; lia).
  rewrite bind_Ok.
  replace (drop (length (kind_as_bytes k) + 1) _) with ds
    by (rewrite drop_app_ge by lia; by rewrite Nat.add_comm, Nat.add_sub).
  rewrite (proj2 (parse_decimal_Ok ds _)) by done. rewrite bind_Ok.
  rewrite !length_app. cbn [length].
  replace (length (kind_as_bytes k) + S (length ds) + S (length content)
           - (length (kind_as_bytes k) + S (length ds) + 1)) with (length content) by lia.
  rewrite N.eqb_refl. cbn [negb check]. rewrite bind_Ok. do 2 f_equal. lia.
Qed.

Lemma decode_object_header_inv encoded k size start :
  decode_object_header encoded = Ok (k, size, start) ->
  exists ds content, encoded = frame k ds content /\ decimal_spec size ds
    /\ (size < usize_limit)%N /\ N.of_nat (length content) = size
    /\ start = length encoded - length content.
Proof.
  unfold decode_object_header. intros H. inv_ok.
  apply position_byte_inv in E as (Eenc & Hn & Hlt).
  apply slice_Ok in E0 as (_ & _ & ->). rewrite Nat.sub_0_r, drop_0 in *.
  apply position_byte_inv in E1 as (Ehd & Hs & Hlt').
  apply slice_Ok in E2 as (_ & _ & ->). rewrite Nat.sub_0_r, drop_0 in *.
  apply kind_parse_Some in E3. apply slice_Ok in E4 as (_ & _ & ->).
  rewrite take_ge in E5 by (rewrite length_drop; lia).
  apply parse_decimal_Ok in E5 as [Hds Hlim]. breflect.
  rewrite Nat.add_1_r in Hds.
  exists (drop (S v1) (take v encoded)), (drop (S v) encoded). rewrite length_drop.
  split_and!; [|done|done|lia|lia].
  unfold frame. rewrite <- E3. rewrite Eenc at 1. rewrite Ehd at 1. by rewrite <- app_assoc.
Qed.

Lemma safe_decode_object_header encoded : safe (decode_object_header encoded).
Proof.
  unfold decode_object_header.
  apply safe_bind; [auto with zmin|intros nul Hn%ok_or_Ok].
  pose proof (position_lt _ _ _ Hn).
  apply safe_bind; [apply safe_slice; lia|intros header Hh%slice_length].
  apply safe_bind; [auto with zmin|intros space Hs%ok_or_Ok].
  pose proof (position_lt _ _ _ Hs).
  apply safe_bind; [apply safe_slice; lia|intros ? _].
  apply safe_bind; [auto with zmin|intros ? _].
  apply safe_bind; [apply safe_slice_from; lia|intros ? _].
  apply safe_bind; [auto with zmin|intros ? _].
  apply safe_bind; [auto with zmin|intros ? _]. exact I.
Qed.

Lemma encoded_object_len_frame k ds content :
  decimal_spec (N.of_nat (length content)) ds ->
  (N.of_nat (length content) < usize_limit)%N ->
  encoded_object_len k (length content) = Ok (length (frame k ds content)).
Proof.
  intros Hds Hlt. unfold encoded_object_len.
  rewrite (decimal_len_spec _ ds) by done. rewrite bind_Ok. unfold frame.
  rewrite length_app. cbn [length]. rewrite length_app. cbn [length]. f_equal. lia.
Qed.

(** ** Hashing *)

Section hashing.
Context `{ShaLaws}.

Lemma length_sha_digest a bs : length (sha_digest a bs) = digest_len a.
Proof. destruct a; [apply sha1_length|apply sha256_length]. Qed.

Lemma hash_finalize_ok h :
  hash_finalize h = Ok (mk_id (hash_algorithm h) (sha_digest (hash_algorithm h) (hash_absorbed h))).
Proof. apply ObjectId_new_ok, length_sha_digest. Qed.

Lemma update_header_frame h k ds n :
  (N.of_nat n < usize_limit)%N -> decimal_spec (N.of_nat n) ds ->
  update_header h k n
  = Ok (MkHash (hash_algorithm h) (hash_absorbed h ++ kind_as_bytes k ++ " "%byte :: ds ++ [Byte.x00])).
Proof.
  intros Hn Hds. unfold update_header. rewrite (decimal_bytes_spec _ ds) by done.
  rewrite bind_Ok. unfold hash_update. cbn. by rewrite <- !app_assoc.
Qed.

Lemma hash_object_frame a k content ds :
  (N.of_nat (length content) < usize_limit)%N ->
  decimal_spec (N.of_nat (length content)) ds ->
  hash_object a k content = Ok (mk_id a (sha_digest a (frame k ds content))).
Proof.
  intros Hn Hds. unfold hash_object. rewrite (update_header_frame _ _ ds) by done.
  rewrite bind_Ok, hash_finalize_ok. cbn [hash_update hash_algorithm hash_absorbed hash_new app].
  unfold frame. do 3 f_equal. rewrite <- app_assoc. cbn [app]. by rewrite <- app_assoc.
Qed.

Lemma hash_object_ok a k content :
  (N.of_nat (length content) < usize_limit)%N ->
  exists i, hash_object a k content = Ok i /\ ObjectId_wf i /\ algorithm i = a.
Proof.
  intros Hn. destruct (decimal_spec_exists (N.of_nat (length content))) as [ds Hds].
  eexists. split; [by apply hash_object_frame|]. split; [|done].
  apply mk_id_wf, length_sha_digest.
Qed.
End hashing.

(** ** Writers *)

(** The documented contract of [io::Write::write]: it accepts a prefix of its
    buffer and reports its length, and it does not panic. *)
Class WriterLaws (W : Type) `{Writer W} (log : W -> bytes) : Prop := {
  write_accepts : forall w buf n w',
    writer_write w buf = (Ok n, w') -> n <= length buf /\ log w' = log w ++ take n buf;
  write_safe : forall w buf, safe (writer_write w buf).1
}.

Section writers.
Context {W : Type} `{WriterLaws W log}.

Lemma write_all_loop_log fuel w buf w' :
  length buf <= fuel -> write_all_loop fuel w buf = (Ok tt, w') -> log w' = log w ++ buf.
Proof.
  revert w buf. induction fuel as [|fuel IH]; intros w [|b buf] Hf Hw; cbn in Hf; try lia.
  1,2: injection Hw as <-; by rewrite app_nil_r.
  cbn [write_all_loop] in Hw. destruct (writer_write w (b :: buf)) as [[n|e| |] w1] eqn:E;
    [|discriminate..].
  destruct (write_accepts _ _ _ _ E) as [Hle Hlog].
  destruct n as [|n]; [discriminate|]. rewrite slice_from in Hw by done.
  apply IH in Hw; [|rewrite length_drop; cbn; lia].
  by rewrite Hw, Hlog, <- app_assoc, take_drop.
Qed.

Lemma write_all_loop_safe fuel w buf :
  length buf <= fuel -> safe (write_all_loop fuel w buf).1.
Proof.
  revert w buf. induction fuel as [|fuel IH]; intros w [|b buf] Hf; cbn in Hf; try lia; try exact I.
  cbn [write_all_loop]. pose proof (write_safe w (b :: buf)) as Hs.
  destruct (writer_write w (b :: buf)) as [[n|e| |] w1] eqn:E; cbn [fst] in *; try done.
  destruct (write_accepts _ _ _ _ E) as [Hle Hlog].
  destruct n as [|n]; [exact I|]. rewrite slice_from by done.
  apply IH. rewrite length_drop. cbn. lia.
Qed.

End writers.

Section object_writers.
Context {W : Type} `{WriterLaws W log}.

Lemma object_writer_write_eq (ow : GitObjectWriter W) buf :
  writer_write ow buf
  = match writer_write (inner ow) buf with
    | (Ok written, w) =>
        match slice buf 0 written with
        | Ok accepted => (Ok written, MkObjectWriter w (hash_update (hasher ow) accepted))
        | _ => (Panic, MkObjectWriter w (hasher ow))
        end
    | (r, w) => (r, MkObjectWriter w (hasher ow))
    end.
Proof. reflexivity. Qed.

(** The hashing writer satisfies the contract for the bytes it forwards. *)
#[export] Instance object_writer_laws :
  WriterLaws (GitObjectWriter W) (fun ow => log (inner ow)).
Proof.
  split.
  - intros [w h] buf n [w' h'] E. rewrite object_writer_write_eq in E. cbn [inner hasher] in *.
    destruct (writer_write w buf) as [[m|e| |] w1] eqn:Ew; [|discriminate..].
    destruct (write_accepts _ _ _ _ Ew) as [Hle Hlog].
    rewrite slice_take in E by done. by injection E as <- <- <-.
  - intros [w h] buf. rewrite object_writer_write_eq. cbn [inner]. pose proof (write_safe w buf) as Hs.
    destruct (writer_write w buf) as [[m|e| |] w1] eqn:Ew; cbn in *; try done.
    destruct (write_accepts _ _ _ _ Ew) as [Hle Hlog]. by rewrite slice_take.
Qed.

(** ... and absorbs exactly those bytes. *)
Lemma object_writer_absorbs fuel (ow ow' : GitObjectWriter W) buf :
  length buf <= fuel -> write_all_loop fuel ow buf = (Ok tt, ow') ->
  hash_algorithm (hasher ow') = hash_algorithm (hasher ow) /\
  hash_absorbed (hasher ow') = hash_absorbed (hasher ow) ++ buf.
Proof.
  revert ow buf. induction fuel as [|fuel IH]; intros ow [|b buf] Hf Hw; cbn in Hf; try lia.
  1,2: injection Hw as <-; by rewrite app_nil_r.
  cbn [write_all_loop] in Hw.
  destruct (writer_write ow (b :: buf)) as [[n|e| |] ow1] eqn:E; [|discriminate..].
  rewrite object_writer_write_eq in E.
  destruct (writer_write (inner ow) (b :: buf)) as [[m|e| |] w1] eqn:Ew; [|discriminate..].
  destruct (write_accepts _ _ _ _ Ew) as [Hle Hlog].
  rewrite slice_take in E by done. injection E as <- <-.
  destruct m as [|m]; [discriminate|]. rewrite slice_from in Hw by done.
  apply IH in Hw as [-> ->]; [|rewrite length_drop; cbn; lia].
  cbn. split; [done|]. rewrite <- app_assoc. f_equal. cbn. by rewrite take_drop.
Qed.

Lemma object_write_all (ow ow' : GitObjectWriter W) buf :
  write_all ow buf = (Ok tt, ow') ->
  log (inner ow') = log (inner ow) ++ buf /\
  hasher ow' = hash_update (hasher ow) buf.
Proof.
  intros Hw. unfold write_all in Hw. split.
  - by apply write_all_loop_log in Hw.
  - apply object_writer_absorbs in Hw as [Ha Hb]; [|done].
    destruct (hasher ow'). cbn in *. by subst.
Qed.
End object_writers.

Lemma then_write_Ok {W} (r : outcome unit * W) f w :
  then_write r f = (Ok tt, w) -> exists w1, r = (Ok tt, w1) /\ f w1 = (Ok tt, w).
Proof. destruct r as [[[]|e| |] w1]; cbn; naive_solver. Qed.

Lemma then_write_safe {W} (r : outcome unit * W) f :
  safe r.1 -> (forall w, safe (f w).1) -> safe (then_write r f).1.
Proof. destruct r as [[[]|e| |] w1]; cbn; auto. Qed.

Lemma write_all_safe `{WriterLaws W log} (w : W) buf : safe (write_all w buf).1.
Proof. by apply write_all_loop_safe. Qed.

(** ** Properties *)

(** Parsing a hexadecimal object id accepts exactly the spellings, in either
    case, of the id's digest, and yields an id that satisfies the invariant of its
    private fields; with [hex_writers_agree] this is the print/parse round trip. *)
Theorem from_hex_bytes_iff a s i :
  from_hex_bytes a s = Ok i <->
  ObjectId_wf i /\ algorithm i = a /\ map to_lower s = hex_encode (as_bytes i).
Proof.
  rewrite from_hex_bytes_spec. destruct (Nat.eqb_spec (length s) (digest_len a * 2)) as [Hl|Hl].
  - split.
    + intros Hd. inv_ok. destruct (hex_encode_decode _ _ _ Hl E) as [He Hds].
      rewrite as_bytes_mk_id by done. split_and!; [by apply mk_id_wf|done|done].
    + intros (Hwf & <- & Hlow). rewrite (hex_decode_lower (as_bytes i)) by done.
      rewrite bind_Ok. f_equal. by apply mk_id_as_bytes.
  - split; [done|]. intros (Hwf & <- & Hlow). apply (f_equal length) in Hlow.
    rewrite length_map, length_hex_encode, length_as_bytes in Hlow by done. done.
Qed.

(** The three hexadecimal printers of an id agree: [write_hex_bytes] and
    [write_hex_io] emit the lowercase digits of the digest (so parsing them gives the
    id back), and [short_hex] emits their first [len]. *)
Theorem hex_writers_agree i out len :
  ObjectId_wf i ->
  write_hex_bytes i out = Ok (out ++ hex_encode (as_bytes i)) /\
  write_hex_io i = Ok (hex_encode (as_bytes i)) /\
  short_hex i len = Ok (take len (hex_encode (as_bytes i))) /\
  from_hex_bytes (algorithm i) (hex_encode (as_bytes i)) = Ok i.
Proof.
  intros Hwf. pose proof (length_as_bytes i Hwf) as Hl. pose proof (digest_len_le (algorithm i)).
  split_and!.
  - apply write_hex_loop_spec.
  - unfold write_hex_io. pose proof (write_hex_io_loop_spec (as_bytes i) [] (replicate 64 Byte.x00)) as Hw.
    cbn [app length] in Hw. rewrite Hw by (rewrite length_replicate; lia).
    rewrite bind_Ok. rewrite slice_take by (rewrite !length_app, length_hex_encode; lia).
    by rewrite take_app_length' by (symmetry; apply length_hex_encode).
  - unfold short_hex, hex_len. rewrite short_hex_loop_spec by (cbn [length]; lia).
    cbn [app length]. rewrite Nat.sub_0_r, <- length_hex_encode.
    destruct (Nat.le_ge_cases len (length (hex_encode (as_bytes i)))).
    + by rewrite Nat.min_l.
    + by rewrite Nat.min_r, !take_ge by lia.
  - rewrite from_hex_bytes_spec, length_hex_encode, Hl, Nat.eqb_refl, hex_decode_encode, bind_Ok.
    by rewrite mk_id_as_bytes.
Qed.

(** [decode_object_header] never panics, and accepts exactly the canonical
    frames [<kind> <len>\0<content>] whose decimal length (no leading zero, below
    2^64) is the length of the content; it returns the kind, the length and the
    offset of the content. *)
Theorem decode_object_header_iff encoded k size start :
  safe (decode_object_header encoded) /\
  (decode_object_header encoded = Ok (k, size, start) <->
   exists ds content, encoded = frame k ds content /\ decimal_spec size ds
     /\ (size < usize_limit)%N /\ N.of_nat (length content) = size
     /\ start = length encoded - length content).
Proof.
  split; [apply safe_decode_object_header|].
  split; [apply decode_object_header_inv|].
  intros (ds & content & -> & Hds & Hlt & <- & ->).
  rewrite decode_frame by done. do 2 f_equal. unfold frame.
  rewrite !length_app. cbn [length]. rewrite length_app. cbn [length]. lia.
Qed.

(** Writing an object through the hashing writer never panics, and when it
    succeeds the inner writer received exactly the canonical frame and the id
    returned is the id [hash_object] computes, however the inner writer splits the
    writes. *)
Theorem write_encoded_object_spec `{ShaLaws} `{WriterLaws W log} (w : W) a k content :
  (N.of_nat (length content) < usize_limit)%N ->
  safe (write_encoded_object w a k content) /\
  forall w' id, write_encoded_object w a k content = Ok (w', id) ->
    hash_object a k content = Ok id /\
    exists ds, decimal_spec (N.of_nat (length content)) ds /\ log w' = log w ++ frame k ds content.
Proof.
  intros Hlt. destruct (decimal_spec_exists (N.of_nat (length content))) as [ds Hds].
  unfold write_encoded_object, write_header, write_decimal.
  rewrite (decimal_bytes_spec _ ds) by done.
  set (r := then_write _ _). split.
  - assert (Hs : safe r.1) by (repeat (apply then_write_safe; [|intros ?]); apply write_all_safe).
    destruct r as [[[]|e| |] ow]; cbn [fst] in Hs; try done.
    unfold object_writer_finish. by rewrite hash_finalize_ok.
  - intros w' id Hw. destruct r as [[[]|e| |] ow] eqn:Hr; [|discriminate..]. subst r.
    apply then_write_Ok in Hr as (w4 & Hr & [L5 S5]%object_write_all).
    apply then_write_Ok in Hr as (w1 & [L1 S1]%object_write_all & Hr).
    apply then_write_Ok in Hr as (w2 & [L2 S2]%object_write_all & Hr).
    apply then_write_Ok in Hr as (w3 & [L3 S3]%object_write_all & [L4 S4]%object_write_all).
    unfold object_writer_finish in Hw. rewrite hash_finalize_ok in Hw. inv_ok.
    rewrite S5, S4, S3, S2, S1, L5, L4, L3, L2, L1. split.
    + rewrite (hash_object_frame _ _ _ ds) by done. cbn [object_writer_new hasher].
      unfold hash_update, hash_new, frame. cbn [hash_algorithm hash_absorbed app].
      do 3 f_equal. by rewrite <- !app_assoc.
    + exists ds. split; [done|]. unfold frame. cbn [object_writer_new inner].
      by rewrite <- !app_assoc.
Qed.

(** ** Concrete instances for the witnesses *)

(** A polynomial checksum with the lengths of the digests. *)
Definition sample_digest (n : nat) (bs : bytes) : bytes :=
  to_be n (fold_left (fun h b => (h * 257 + u8 b + 1)%N) bs 0%N).

Lemma length_sample_digest n bs : length (sample_digest n bs) = n.
Proof. apply length_to_be. Qed.

#[local] Instance sample_sha : Sha := {
  sha1 := sample_digest 20;
  sha256 := sample_digest 32
}.

#[local] Instance sample_sha_laws : ShaLaws.
Proof. split; intros bs; apply length_sample_digest. Qed.

(** A writer into memory that accepts at most three bytes per call. *)
Definition short_writer : Type := bytes.

#[export] Instance short_writer_write : Writer short_writer := fun w buf =>
  (Ok (Nat.min 3 (length buf)), w ++ take 3 buf).

#[export] Instance short_writer_laws : WriterLaws short_writer (fun w => w).
Proof.
  split; [|done]. intros w buf n w' E.
  change (writer_write w buf) with (Ok (Nat.min 3 (length buf)), w ++ take 3 buf) in E.
  assert (n = Nat.min 3 (length buf)) as -> by (apply (f_equal fst) in E; cbv [fst] in E; congruence).
  assert (w' = w ++ take 3 buf) as -> by (apply (f_equal snd) in E; cbv [snd] in E; congruence).
  split; [lia|]. f_equal. destruct (Nat.le_ge_cases 3 (length buf)).
  - by rewrite Nat.min_l.
  - by rewrite Nat.min_r, !take_ge by lia.
Qed.

Definition sample_id (a : GitHashAlgorithm) (n : N) : ObjectId :=
  mk_id a (replicate (digest_len a) (byte_of_N n)).

Lemma sample_id_wf a n : ObjectId_wf (sample_id a n).
Proof. apply mk_id_wf, length_replicate. Qed.

Lemma hex_writers_agree_witness :
  short_hex (sample_id Sha1 171) 7 = Ok (bstr "abababa").
Proof.
  rewrite (proj1 (proj2 (proj2 (hex_writers_agree (sample_id Sha1 171) [] 7 (sample_id_wf _ _))))).
  vm_compute. reflexivity.
Defined.

Lemma write_encoded_object_spec_witness :
  exists w' id, write_encoded_object ([] : short_writer) Sha1 Blob (bstr "hello") = Ok (w', id) /\
    hash_object Sha1 Blob (bstr "hello") = Ok id /\
    exists ds, decimal_spec 5 ds /\ w' = [] ++ frame Blob ds (bstr "hello").
Proof.
  eexists _, _. split; [vm_compute; reflexivity|].
  refine (proj2 (write_encoded_object_spec (log := fun w => w) ([] : short_writer) Sha1 Blob
    (bstr "hello") _) _ _ _); [done|vm_compute; reflexivity].
Defined.
