(* ===== verification/Order.v ===== *)
(** * Orders, sorting, binary search and ordered maps of the Rust standard library

    [Ord::cmp] on byte strings and tuples, [slice::sort_by] (stable),
    [slice::binary_search_by], [slice::partition_point], [Vec::drain] and
    [BTreeMap], with the laws the components rely on. *)
From S2P Require Import Prelude.

(** ** Comparisons *)

(** [Ordering::then]. *)
Definition then_cmp (c d : comparison) : comparison :=
  match c with
  | Eq => d
  | c => c
  end.

(** [<[u8]>::cmp]. *)
Fixpoint cmp_bytes (a b : bytes) : comparison :=
  match a, b with
  | [], [] => Eq
  | [], _ :: _ => Lt
  | _ :: _, [] => Gt
  | x :: a, y :: b => then_cmp (N.compare (u8 x) (u8 y)) (cmp_bytes a b)
  end.

(** Lexicographic comparison of pairs. *)
Definition cmp_pair {A B} (ca : A -> A -> comparison) (cb : B -> B -> comparison)
    (x y : A * B) : comparison :=
  then_cmp (ca x.1 y.1) (cb x.2 y.2).

(** What [Ord] promises. *)
Class TotalOrder {K} (cmp : K -> K -> comparison) : Prop := {
  cmp_eq : forall a b, cmp a b = Eq <-> a = b;
  cmp_opp : forall a b, cmp b a = CompOpp (cmp a b);
  cmp_lt_trans : forall a b c, cmp a b = Lt -> cmp b c = Lt -> cmp a c = Lt
}.

#[export] Instance comparison_eq_dec : EqDecision comparison.
Proof. solve_decision. Defined.

(** ** Sorting *)

Section sorting.
Context {A : Type} (cmp : A -> A -> comparison).

Fixpoint insert_by (x : A) (l : list A) : list A :=
  match l with
  | [] => [x]
  | y :: l' =>
      match cmp x y with
      | Gt => y :: insert_by x l'
      | _ => x :: l
      end
  end.

(** [slice::sort_by]: a stable sort. *)
Definition sort_by (l : list A) : list A := foldr insert_by [] l.

(** [windows(2).all(..)] on adjacent elements. *)
Fixpoint windows2_all {B} (p : B -> B -> bool) (l : list B) : bool :=
  match l with
  | x :: (y :: _) as l' => p x y && windows2_all p l'
  | _ => true
  end.
End sorting.

(** ** Binary search *)

(** The loop of [slice::binary_search_by]: [size > 1]. *)
Fixpoint bsearch_loop {A} (f : A -> comparison) (l : list A) (fuel size base : nat)
  : outcome nat :=
  if size <=? 1 then Ok base else
  match fuel with
  | 0 => NoFuel
  | S fuel =>
      let half := size / 2 in
      let mid := base + half in
      x ← index_at l mid;
      let base := match f x with Gt => base | _ => mid end in
      bsearch_loop f l fuel (size - half) base
  end.

(** [slice::binary_search_by]: [inl] is Rust's [Ok], [inr] its [Err]. *)
Definition binary_search_by {A} (f : A -> comparison) (l : list A) : outcome (nat + nat) :=
  match l with
  | [] => Ok (inr 0)
  | _ =>
      base ← bsearch_loop f l (length l) (length l) 0;
      x ← index_at l base;
      match f x with
      | Eq => Ok (inl base)
      | Lt => Ok (inr (base + 1))
      | Gt => Ok (inr base)
      end
  end.

(** [slice::partition_point]. *)
Definition partition_point {A} (p : A -> bool) (l : list A) : outcome nat :=
  r ← binary_search_by (fun x => if p x then Lt else Gt) l;
  match r with
  | inl i | inr i => Ok i
  end.

(** [Vec::insert] and [Vec::drain(a..b)]: panic out of range. *)
Definition vec_insert {A} (l : list A) (i : nat) (x : A) : outcome (list A) :=
  if i <=? length l then Ok (take i l ++ x :: drop i l) else Panic.

Definition vec_drain {A} (l : list A) (a b : nat) : outcome (list A) :=
  if (a <=? b) && (b <=? length l) then Ok (take a l ++ drop b l) else Panic.

(** ** Ordered maps: [BTreeMap] as a list sorted by key *)

Section btree.
Context {K V : Type} (cmp : K -> K -> comparison).

Fixpoint bt_get (k : K) (m : list (K * V)) : option V :=
  match m with
  | [] => None
  | (k', v) :: m =>
      match cmp k k' with
      | Lt => None
      | Eq => Some v
      | Gt => bt_get k m
      end
  end.

Definition bt_contains (k : K) (m : list (K * V)) : bool :=
  match bt_get k m with
  | Some _ => true
  | None => false
  end.

(** [BTreeMap::insert]: replaces the value of an equal key. *)
Fixpoint bt_insert (k : K) (v : V) (m : list (K * V)) : list (K * V) :=
  match m with
  | [] => [(k, v)]
  | (k', v') :: m' =>
      match cmp k k' with
      | Lt => (k, v) :: m
      | Eq => (k', v) :: m'
      | Gt => (k', v') :: bt_insert k v m'
      end
  end.

(** [BTreeMap::remove]. *)
Fixpoint bt_remove (k : K) (m : list (K * V)) : list (K * V) :=
  match m with
  | [] => []
  | (k', v') :: m' =>
      match cmp k k' with
      | Lt => m
      | Eq => m'
      | Gt => (k', v') :: bt_remove k m'
      end
  end.

Definition bt_sorted (m : list (K * V)) : Prop :=
  StronglySorted (fun p q => cmp p.1 q.1 = Lt) m.
End btree.

(** ** Laws of the comparisons *)

Lemma then_cmp_Eq c d : then_cmp c d = Eq <-> c = Eq /\ d = Eq.
Proof. destruct c; cbn; naive_solver. Qed.

Lemma then_cmp_Lt c d : then_cmp c d = Lt <-> c = Lt \/ (c = Eq /\ d = Lt).
Proof. destruct c; cbn; naive_solver. Qed.

Lemma then_cmp_opp c d : then_cmp (CompOpp c) (CompOpp d) = CompOpp (then_cmp c d).
Proof. by destruct c. Qed.

#[export] Instance N_compare_total : TotalOrder N.compare.
Proof.
  split; [apply N.compare_eq_iff|intros; apply N.compare_antisym|].
  intros a b c. rewrite !N.compare_lt_iff. lia.
Qed.

#[export] Instance cmp_bytes_total : TotalOrder cmp_bytes.
Proof.
  split.
  - induction a as [|x a IH]; intros [|y b]; cbn; [done..|].
    rewrite then_cmp_Eq, cmp_eq, IH. split; [intros [->%u8_inj ->]|intros [= -> ->]]; done.
  - induction a as [|x a IH]; intros [|y b]; cbn; [done..|].
    by rewrite IH, (cmp_opp (u8 x)), then_cmp_opp.
  - induction a as [|x a IH]; intros [|y b] [|z c]; cbn; try done.
    rewrite !then_cmp_Lt, !cmp_eq. intros [?|[-> ?]] [?|[<- ?]]; [|eauto..].
    left. by apply cmp_lt_trans with (u8 y).
Qed.

#[export] Instance cmp_pair_total {A B} (ca : A -> A -> comparison) (cb : B -> B -> comparison) :
  TotalOrder ca -> TotalOrder cb -> TotalOrder (cmp_pair ca cb).
Proof.
  intros Ha Hb. unfold cmp_pair. split.
  - intros [a1 b1] [a2 b2]. cbn. rewrite then_cmp_Eq, !cmp_eq. naive_solver.
  - intros [a1 b1] [a2 b2]. cbn. by rewrite (cmp_opp a1), (cmp_opp b1), then_cmp_opp.
  - intros [a1 b1] [a2 b2] [a3 b3]. cbn. rewrite !then_cmp_Lt, !cmp_eq.
    intros [?|[-> ?]] [?|[-> ?]]; [left|left|left|right]; eauto using cmp_lt_trans.
Qed.

Section total_order_lemmas.
Context {K} (cmp : K -> K -> comparison) `{!TotalOrder cmp}.

Lemma cmp_refl a : cmp a a = Eq.
Proof. by apply cmp_eq. Qed.

Lemma cmp_gt_lt a b : cmp a b = Gt <-> cmp b a = Lt.
Proof. rewrite (cmp_opp (cmp := cmp) a b). destruct (cmp a b); cbn; naive_solver. Qed.

Lemma cmp_lt_irrefl a : cmp a a <> Lt.
Proof. by rewrite cmp_refl. Qed.

Lemma cmp_lt_asym a b : cmp a b = Lt -> cmp b a <> Lt.
Proof. intros E. by rewrite (cmp_opp (cmp := cmp) a b), E. Qed.

(** The weak order, as a decision procedure uses it. *)
Lemma cmp_not_gt_trans a b c : cmp a b <> Gt -> cmp b c <> Gt -> cmp a c <> Gt.
Proof.
  intros Hab Hbc Hac%cmp_gt_lt.
  destruct (cmp a b) eqn:Eab; [apply cmp_eq in Eab; subst|..]; [|clear Hab|done].
  - by apply Hbc, cmp_gt_lt.
  - apply Hbc, cmp_gt_lt. by apply cmp_lt_trans with a.
Qed.
End total_order_lemmas.
#[export] Hint Rewrite @cmp_refl using typeclasses eauto : zmin_rw.

(** ** Sorting *)

(** Sorting with a comparison of keys. *)
Definition by_key {A K} (key : A -> K) (cmp : K -> K -> comparison) (x y : A) : comparison :=
  cmp (key x) (key y).

Section sort_lemmas.
Context {A K : Type} (key : A -> K) (cmp : K -> K -> comparison) `{!TotalOrder cmp}.

Definition weakly_sorted : list A -> Prop :=
  StronglySorted (fun x y => cmp (key x) (key y) <> Gt).

Definition strictly_sorted : list A -> Prop :=
  StronglySorted (fun x y => cmp (key x) (key y) = Lt).

Lemma insert_by_perm x l : insert_by (by_key key cmp) x l ≡ₚ x :: l.
Proof.
  induction l as [|y l IH]; cbn; [done|]. destruct (by_key key cmp x y); [done..|].
  rewrite IH. apply Permutation_swap.
Qed.

Lemma sort_by_perm l : sort_by (by_key key cmp) l ≡ₚ l.
Proof. induction l as [|x l IH]; cbn; [done|]. by rewrite insert_by_perm, IH. Qed.

Lemma insert_by_sorted x l : weakly_sorted l -> weakly_sorted (insert_by (by_key key cmp) x l).
Proof.
  unfold weakly_sorted. induction l as [|y l IH]; cbn; [by repeat constructor|].
  intros [Hy Hl]%StronglySorted_cons. unfold by_key at 1.
  assert (Hle : cmp (key x) (key y) <> Gt ->
    Forall (fun z => cmp (key x) (key z) <> Gt) (y :: l)).
  { intros Hxy. constructor; [done|]. eapply Forall_impl; [exact Hy|].
    intros z Hz. by apply (cmp_not_gt_trans cmp) with (key y). }
  destruct (cmp (key x) (key y)) eqn:E.
  1,2: apply StronglySorted_cons; split; [by apply Hle|by apply StronglySorted_cons].
  apply StronglySorted_cons. split; [|by apply IH].
  rewrite insert_by_perm. constructor; [|done]. apply cmp_gt_lt in E; [|done]. by rewrite E.
Qed.

Lemma sort_by_sorted l : weakly_sorted (sort_by (by_key key cmp) l).
Proof. induction l as [|x l IH]; cbn; [constructor|]. by apply insert_by_sorted. Qed.

(** Sorting a sorted list changes nothing (stability on equal keys included). *)
Lemma sort_by_id l : weakly_sorted l -> sort_by (by_key key cmp) l = l.
Proof.
  induction l as [|x l IH]; [done|]. intros [Hx Hl]%StronglySorted_cons.
  change (insert_by (by_key key cmp) x (sort_by (by_key key cmp) l) = x :: l). rewrite IH by done.
  destruct l as [|y l]; [done|]. cbn. unfold by_key. apply Forall_inv in Hx.
  by destruct (cmp (key x) (key y)).
Qed.

Lemma strictly_weakly_sorted l : strictly_sorted l -> weakly_sorted l.
Proof.
  unfold strictly_sorted, weakly_sorted. induction 1 as [|x l _ IH Hx]; constructor; [done|].
  eapply Forall_impl; [exact Hx|]. by intros y ->.
Qed.

Lemma strictly_sorted_NoDup l : strictly_sorted l -> NoDup (key <$> l).
Proof.
  unfold strictly_sorted. induction 1 as [|x l _ IH Hx]; cbn; constructor; [|done].
  intros (y & E & Hy)%list_elem_of_fmap. rewrite Forall_forall in Hx.
  apply Hx in Hy. rewrite E in Hy. by apply (cmp_lt_irrefl cmp) in Hy.
Qed.

(** A weakly sorted list with distinct keys is strictly sorted. *)
Lemma weakly_sorted_strict l :
  weakly_sorted l -> NoDup (key <$> l) -> strictly_sorted l.
Proof.
  unfold weakly_sorted, strictly_sorted.
  induction 1 as [|x l Hl IH Hx]; cbn; [constructor|]. intros [Hni Hnd]%NoDup_cons.
  constructor; [by apply IH|]. rewrite Forall_forall in *. intros y Hy.
  specialize (Hx y Hy). destruct (cmp (key x) (key y)) eqn:E; [|done..].
  apply cmp_eq in E. destruct Hni. rewrite E. by apply list_elem_of_fmap_2.
Qed.

(** The adjacent-pairs test decides strict sortedness. *)
Lemma windows2_sorted l :
  windows2_all (fun x y => bool_decide (cmp (key x) (key y) = Lt)) l = true <-> strictly_sorted l.
Proof.
  unfold strictly_sorted. induction l as [|x l IH]; [split; constructor|].
  destruct l as [|y l]; [split; [by repeat constructor|done]|].
  change (windows2_all _ (x :: y :: l)) with
    (bool_decide (cmp (key x) (key y) = Lt) &&
     windows2_all (fun x y => bool_decide (cmp (key x) (key y) = Lt)) (y :: l)).
  rewrite andb_true_iff, IH, bool_decide_eq_true, (StronglySorted_cons _ _ x).
  split; [|intros [H ?]; split; [by apply Forall_inv in H|done]].
  intros [Hxy Hs]. split; [|done]. constructor; [done|].
  apply StronglySorted_cons in Hs as [Hy _]. eapply Forall_impl; [exact Hy|].
  intros z Hz. by apply (cmp_lt_trans _ (key y)).
Qed.

(** The adjacent-pairs test with equal keys allowed decides weak sortedness. *)
Lemma windows2_weak l :
  windows2_all (fun x y => bool_decide (cmp (key x) (key y) <> Gt)) l = true <-> weakly_sorted l.
Proof.
  unfold weakly_sorted. induction l as [|x l IH]; [split; constructor|].
  destruct l as [|y l]; [split; [by repeat constructor|done]|].
  change (windows2_all _ (x :: y :: l)) with
    (bool_decide (cmp (key x) (key y) <> Gt) &&
     windows2_all (fun x y => bool_decide (cmp (key x) (key y) <> Gt)) (y :: l)).
  rewrite andb_true_iff, IH, bool_decide_eq_true, (StronglySorted_cons _ _ x).
  split; [|intros [H ?]; split; [by apply Forall_inv in H|done]].
  intros [Hxy Hs]. split; [|done]. constructor; [done|].
  apply StronglySorted_cons in Hs as [Hy _]. eapply Forall_impl; [exact Hy|].
  intros z Hz. by apply (cmp_not_gt_trans cmp) with (key y).
Qed.

(** Two strictly sorted lists with the same elements are equal. *)
Lemma strictly_sorted_ext l1 l2 :
  strictly_sorted l1 -> strictly_sorted l2 -> (forall x, x ∈ l1 <-> x ∈ l2) -> l1 = l2.
Proof.
  intros H1 H2 Hel.
  assert (AntiSymm eq (fun x y => cmp (key x) (key y) = Lt)).
  { intros x y Hxy Hyx. by apply (cmp_lt_asym cmp) in Hxy. }
  apply (StronglySorted_unique (fun x y => cmp (key x) (key y) = Lt)); [done..|].
  apply NoDup_Permutation; [..|done];
    by eapply (NoDup_fmap_1 key), strictly_sorted_NoDup.
Qed.
End sort_lemmas.

(** ** Binary search *)

Section bsearch_lemmas.
Context {A : Type} (f : A -> comparison).
Implicit Types l : list A.

(** The documented precondition: the elements are partitioned by [f]. *)
Definition partitioned l (l1 l2 l3 : list A) : Prop :=
  l = l1 ++ l2 ++ l3 /\ Forall (fun x => f x = Lt) l1 /\ Forall (fun x => f x = Eq) l2
  /\ Forall (fun x => f x = Gt) l3.

Lemma partitioned_lookup l l1 l2 l3 i x :
  partitioned l l1 l2 l3 -> l !! i = Some x ->
  f x = if i <? length l1 then Lt else if i <? length l1 + length l2 then Eq else Gt.
Proof.
  intros (-> & H1 & H2 & H3) Hx. rewrite Forall_lookup in H1, H2, H3.
  apply lookup_app_Some in Hx as [Hx|[Hl Hx]].
  { rewrite (H1 _ _ Hx). apply lookup_lt_Some in Hx. by rewrite (proj2 (Nat.ltb_lt _ _)). }
  rewrite (proj2 (Nat.ltb_ge _ _)) by done.
  apply lookup_app_Some in Hx as [Hx|[Hl' Hx]].
  - rewrite (H2 _ _ Hx). apply lookup_lt_Some in Hx. rewrite (proj2 (Nat.ltb_lt _ _)); [done|lia].
  - rewrite (H3 _ _ Hx). rewrite (proj2 (Nat.ltb_ge _ _)); [done|lia].
Qed.

(** The loop ends on the last element that is not [Gt] (or on the first one). *)
Lemma bsearch_loop_spec l l1 l2 l3 fuel size base :
  partitioned l l1 l2 l3 -> 0 < size -> size <= S fuel -> base + size <= length l ->
  (base = 0 \/ base < length l1 + length l2) -> length l1 + length l2 <= base + size ->
  bsearch_loop f l fuel size base = Ok (pred (length l1 + length l2)).
Proof.
  intros Hp. revert size base. induction fuel as [|fuel IH]; intros size base Hs Hf Hlen Hb Hhi;
    cbn [bsearch_loop]; destruct (Nat.leb_spec size 1); try (f_equal; lia).
  assert (0 < size / 2 < size) by (split; [apply Nat.div_str_pos|apply Nat.div_lt]; lia).
  pose proof (Nat.Div0.mul_div_le size 2).
  assert (base + size / 2 < length l) as [x Hx]%lookup_lt_is_Some_2 by lia.
  unfold index_at. rewrite Hx. cbn [unwrap]. rewrite bind_Ok.
  rewrite (partitioned_lookup _ _ _ _ _ _ Hp Hx).
  destruct (Nat.ltb_spec (base + size / 2) (length l1));
    [|destruct (Nat.ltb_spec (base + size / 2) (length l1 + length l2))];
    apply IH; lia.
Qed.

Lemma binary_search_by_spec l l1 l2 l3 :
  partitioned l l1 l2 l3 ->
  binary_search_by f l =
  Ok (match l2 with [] => inr (length l1) | _ => inl (pred (length l1 + length l2)) end).
Proof.
  intros Hp. unfold binary_search_by. destruct l as [|x0 t].
  { destruct Hp as ([-> [-> ->]%app_nil]%eq_sym%app_nil & _). done. }
  set (l := x0 :: t) in *. assert (Hpos : 0 < length l) by (cbn; lia). clearbody l.
  assert (Hlen : length l = length l1 + length l2 + length l3).
  { destruct Hp as (-> & _). rewrite !length_app. lia. }
  rewrite (bsearch_loop_spec _ l1 l2 l3) by (done || lia). rewrite bind_Ok.
  destruct (lookup_lt_is_Some_2 l (pred (length l1 + length l2))) as [x Hx]; [lia|].
  unfold index_at. rewrite Hx. cbn [unwrap]. rewrite bind_Ok.
  rewrite (partitioned_lookup _ _ _ _ _ _ Hp Hx).
  destruct l2 as [|y l2]; cbn [length] in *.
  - rewrite Nat.add_0_r in *. destruct l1 as [|z l1]; cbn [length pred] in *; [done|].
    rewrite (proj2 (Nat.ltb_lt _ _)) by lia. do 2 f_equal. lia.
  - rewrite (proj2 (Nat.ltb_ge _ _)) by lia. rewrite (proj2 (Nat.ltb_lt _ _)) by lia. done.
Qed.
End bsearch_lemmas.

Lemma partition_point_spec {A} (p : A -> bool) (l1 l2 : list A) :
  Forall (fun x => p x = true) l1 -> Forall (fun x => p x = false) l2 ->
  partition_point p (l1 ++ l2) = Ok (length l1).
Proof.
  intros H1 H2. unfold partition_point.
  rewrite (binary_search_by_spec _ _ l1 [] l2); [done|]. split_and!; [done| |constructor|].
  - eapply Forall_impl; [exact H1|]. by intros x ->.
  - eapply Forall_impl; [exact H2|]. by intros x ->.
Qed.

(** A weakly sorted list is partitioned by the comparison with a key. *)
Lemma sorted_partitioned {A K} (key : A -> K) cmp `{!TotalOrder cmp} (k : K) (l : list A) :
  weakly_sorted key cmp l ->
  exists l1 l2 l3, partitioned (fun x => cmp (key x) k) l l1 l2 l3.
Proof.
  unfold weakly_sorted. induction 1 as [|x l Hl IH Hx]; [by exists [], [], []|].
  destruct IH as (l1 & l2 & l3 & -> & H1 & H2 & H3).
  rewrite !Forall_app in Hx. destruct Hx as (Hx1 & Hx2 & Hx3).
  destruct (cmp (key x) k) eqn:E.
  - (* equal: nothing before *)
    assert (l1 = []) as ->.
    { destruct l1 as [|y l1]; [done|]. apply Forall_inv in H1, Hx1.
      apply cmp_eq in E. subst k. exfalso. by apply Hx1, cmp_gt_lt. }
    exists [], (x :: l2), l3. split_and!; [done|constructor|by constructor|done].
  - exists (x :: l1), l2, l3. split_and!; [done|by constructor|done|done].
  - assert (l1 = []) as ->.
    { destruct l1 as [|y l1]; [done|]. apply Forall_inv in H1, Hx1. exfalso.
      apply Hx1, cmp_gt_lt; [done|]. apply (cmp_lt_trans _ k); [done|by apply cmp_gt_lt]. }
    assert (l2 = []) as ->.
    { destruct l2 as [|y l2]; [done|]. apply Forall_inv in H2, Hx2. exfalso.
      apply cmp_eq in H2. subst k. by apply Hx2. }
    exists [], [], (x :: l3). split_and!; [done|constructor|constructor|by constructor].
Qed.

(** ** Ordered maps *)

Section btree_lemmas.
Context {K V : Type} (cmp : K -> K -> comparison) `{!TotalOrder cmp}.
Implicit Types (m : list (K * V)) (k : K) (v : V).

Lemma bt_sorted_cons p m :
  bt_sorted cmp (p :: m) <-> Forall (fun q => cmp p.1 q.1 = Lt) m /\ bt_sorted cmp m.
Proof. apply StronglySorted_cons. Qed.

Lemma bt_get_below k m : Forall (fun q => cmp k q.1 = Lt) m -> bt_get cmp k m = None.
Proof. intros [|[k' v'] ? E ?]; cbn in *; [done|]. by rewrite E. Qed.

Lemma bt_get_insert_eq k v m : bt_get cmp k (bt_insert cmp k v m) = Some v.
Proof.
  induction m as [|[k' v'] m IH]; cbn; [by rewrite cmp_refl|].
  destruct (cmp k k') eqn:E; cbn; [by rewrite E|by rewrite cmp_refl|by rewrite E].
Qed.

Lemma bt_get_insert_ne k k' v m :
  k' <> k -> bt_get cmp k' (bt_insert cmp k v m) = bt_get cmp k' m.
Proof.
  intros Hne. induction m as [|[k1 v1] m IH]; cbn.
  { destruct (cmp k' k) eqn:E; [by apply cmp_eq in E|done..]. }
  destruct (cmp k k1) eqn:E; cbn; [|..|by rewrite IH].
  - apply cmp_eq in E. subst k1. destruct (cmp k' k) eqn:E; [by apply cmp_eq in E|done..].
  - destruct (cmp k' k) eqn:E'; [by apply cmp_eq in E'| |done].
    by rewrite (cmp_lt_trans _ _ _ E' E).
Qed.

Lemma bt_get_insert k k' v m :
  bt_get cmp k' (bt_insert cmp k v m)
  = match cmp k' k with Eq => Some v | _ => bt_get cmp k' m end.
Proof.
  destruct (cmp k' k) eqn:E.
  - apply cmp_eq in E as ->. apply bt_get_insert_eq.
  - apply bt_get_insert_ne. intros ->. by rewrite cmp_refl in E.
  - apply bt_get_insert_ne. intros ->. by rewrite cmp_refl in E.
Qed.

Lemma bt_insert_Forall (P : K * V -> Prop) k v m :
  Forall P m -> (forall k', k' = k -> P (k', v)) -> Forall P (bt_insert cmp k v m).
Proof.
  intros Hm Hk. induction Hm as [|[k' v'] m Hp Hm IH]; cbn; [by constructor; eauto|].
  destruct (cmp k k') eqn:E; constructor; eauto.
  apply Hk. apply cmp_eq in E. congruence.
Qed.

Lemma bt_insert_sorted k v m : bt_sorted cmp m -> bt_sorted cmp (bt_insert cmp k v m).
Proof.
  induction m as [|[k' v'] m IH]; cbn; [by repeat constructor|].
  intros [Hm Hs]%bt_sorted_cons. cbn in Hm.
  destruct (cmp k k') eqn:E; apply bt_sorted_cons; cbn; split; eauto.
  - constructor; [done|]. eapply Forall_impl; [exact Hm|]. cbn.
    intros q Hq. by apply cmp_lt_trans with k'.
  - by apply bt_sorted_cons.
  - apply bt_insert_Forall; [done|]. intros ? ->. cbn. by apply cmp_gt_lt.
Qed.

Lemma bt_get_elem k v m : bt_sorted cmp m -> bt_get cmp k m = Some v <-> (k, v) ∈ m.
Proof.
  induction m as [|[k' v'] m IH]; cbn; [by rewrite elem_of_nil|].
  intros [Hm Hs]%bt_sorted_cons. cbn in Hm. rewrite elem_of_cons.
  destruct (cmp k k') eqn:E.
  - apply cmp_eq in E. subst k'. split; [intros [= ->]; by left|].
    intros [[= ->]|Hin]; [done|]. rewrite Forall_forall in Hm. apply Hm in Hin. cbn in Hin.
    by rewrite cmp_refl in Hin.
  - split; [done|]. intros [[= -> ->]|Hin]; [by rewrite cmp_refl in E|].
    rewrite Forall_forall in Hm. apply Hm in Hin. cbn in Hin.
    by apply (cmp_lt_asym cmp) in Hin.
  - rewrite IH by done. split; [by right|]. intros [[= -> ->]|Hin]; [|done].
    by rewrite cmp_refl in E.
Qed.

Lemma bt_get_remove k k' m :
  bt_sorted cmp m ->
  bt_get cmp k' (bt_remove cmp k m)
  = match cmp k' k with Eq => None | _ => bt_get cmp k' m end.
Proof.
  induction m as [|[k1 v1] m IH]; cbn; [by destruct (cmp k' k)|].
  intros [Hm Hs]%bt_sorted_cons. cbn in Hm. destruct (cmp k k1) eqn:E; cbn.
  - apply cmp_eq in E. subst k1. destruct (cmp k' k) eqn:E'; [|by apply bt_get_below;
      eapply Forall_impl; [exact Hm|]; cbn; intros q Hq; apply cmp_lt_trans with k|done].
    apply cmp_eq in E'. subst. by apply bt_get_below.
  - destruct (cmp k' k) eqn:E'; [|done..]. apply cmp_eq in E'. subst. by rewrite E.
  - rewrite IH by done. destruct (cmp k' k) eqn:E'; [|done..].
    apply cmp_eq in E'. subst. by rewrite E.
Qed.

Lemma bt_remove_Forall (P : K * V -> Prop) k m : Forall P m -> Forall P (bt_remove cmp k m).
Proof.
  intros H. induction H as [|[k1 v1] m Hp Hm IH]; cbn; [done|].
  destruct (cmp k k1); [done|by constructor..].
Qed.

Lemma bt_remove_sorted k m : bt_sorted cmp m -> bt_sorted cmp (bt_remove cmp k m).
Proof.
  induction m as [|[k1 v1] m IH]; cbn; [done|]. intros [Hm Hs]%bt_sorted_cons.
  destruct (cmp k k1); [done|by apply bt_sorted_cons|].
  apply bt_sorted_cons. cbn in *. split; [by apply bt_remove_Forall|by apply IH].
Qed.

(** A map is determined by its lookups. *)
Lemma bt_ext m1 m2 :
  bt_sorted cmp m1 -> bt_sorted cmp m2 ->
  (forall k, bt_get cmp k m1 = bt_get cmp k m2) -> m1 = m2.
Proof.
  intros H1 H2 Hget. eapply (strictly_sorted_ext fst cmp); [exact H1|exact H2|].
  intros [k v]. by rewrite <- !bt_get_elem, Hget by done.
Qed.
End btree_lemmas.

(** ** Convex ranges of a sorted list *)

Section ranges.
Context {A K : Type} (key : A -> K) (cmp : K -> K -> comparison) `{!TotalOrder cmp}.
Implicit Types (l : list A) (p q : A -> bool).

(** [p] holds of everything below an element of [l] where it holds. *)
Definition downward p l : Prop :=
  forall x y, x ∈ l -> y ∈ l -> cmp (key x) (key y) <> Gt -> p y = true -> p x = true.

Lemma weakly_sorted_filter (P : A -> Prop) `{!forall x, Decision (P x)} l :
  weakly_sorted key cmp l -> weakly_sorted key cmp (filter P l).
Proof.
  unfold weakly_sorted. induction 1 as [|x l Hl IH Hx]; [constructor|].
  rewrite filter_cons. destruct (decide (P x)); [|done]. constructor; [done|].
  by apply Forall_filter_weaken.
Qed.

Lemma strictly_sorted_filter (P : A -> Prop) `{!forall x, Decision (P x)} l :
  strictly_sorted key cmp l -> strictly_sorted key cmp (filter P l).
Proof.
  unfold strictly_sorted. induction 1 as [|x l Hl IH Hx]; [constructor|].
  rewrite filter_cons. destruct (decide (P x)); [|done]. constructor; [done|].
  by apply Forall_filter_weaken.
Qed.

Lemma sorted_split p l :
  weakly_sorted key cmp l -> downward p l ->
  l = filter (fun x => p x = true) l ++ filter (fun x => p x = false) l.
Proof.
  unfold weakly_sorted. induction 1 as [|x l Hl IH Hx]; intros Hd; [done|].
  rewrite !filter_cons.
  assert (Hd' : downward p l) by (intros y z ? ?; apply Hd; by right).
  specialize (IH Hd'). destruct (p x) eqn:Ex; repeat case_decide; try done.
  { cbn. by f_equal. }
  assert (filter (fun x => p x = true) l = []) as E.
  { apply filter_none. rewrite Forall_forall in Hx |- *. intros y Hy Ey.
    assert (p x = true); [|congruence].
    apply (Hd x y); [by left|by right|by apply Hx|done]. }
  rewrite E in *. cbn in *. by f_equal.
Qed.

(** The two calls of [partition_point] that find a range, and the [drain] of it. *)
Lemma drain_range p q l :
  weakly_sorted key cmp l -> downward p l ->
  downward q (filter (fun x => p x = false) l) -> (forall x, q x = true -> p x = false) ->
  exists s e, partition_point p l = Ok s /\
    slice l s (length l) = Ok (filter (fun x => p x = false) l) /\
    partition_point q (filter (fun x => p x = false) l) = Ok e /\
    (e = 0 <-> filter (fun x => q x = true) l = []) /\
    vec_drain l s (e + s) = Ok (filter (fun x => q x = false) l).
Proof.
  intros Hl Hp Hq Hpq.
  pose proof (sorted_split p l Hl Hp) as E1.
  pose proof (sorted_split q _ (weakly_sorted_filter (fun x => p x = false) l Hl) Hq) as E2.
  set (l1 := filter (fun x => p x = true) l) in *.
  set (l2 := filter (fun x => p x = false) l) in *.
  assert (Hff : forall b, filter (fun x => q x = b) l
                  = filter (fun x => q x = b) l1 ++ filter (fun x => q x = b) l2).
  { intros b. by rewrite E1 at 1; rewrite filter_app. }
  assert (filter (fun x => q x = true) l1 = []) as Hq1.
  { apply filter_none, Forall_forall. intros x [Hx _]%list_elem_of_filter Eq.
    apply Hpq in Eq. congruence. }
  assert (filter (fun x => q x = false) l1 = l1) as Hq2.
  { apply filter_all, Forall_forall. intros x [Hx _]%list_elem_of_filter.
    destruct (q x) eqn:Eq; [|done]. apply Hpq in Eq. congruence. }
  exists (length l1), (length (filter (fun x => q x = true) l2)). split_and!.
  - rewrite E1 at 1. apply partition_point_spec; apply Forall_forall;
      by intros x [? _]%list_elem_of_filter.
  - apply (slice_tail l1 l2); done.
  - rewrite E2 at 1. apply partition_point_spec; apply Forall_forall;
      by intros x [? _]%list_elem_of_filter.
  - rewrite Hff, Hq1. cbn. split; [by intros ?%length_zero_iff_nil|by intros ->].
  - rewrite Hff, Hq2. unfold vec_drain.
    assert (length l = length l1 + length l2) by (rewrite E1 at 1; apply length_app).
    assert (length l2 = length (filter (fun x => q x = true) l2)
                        + length (filter (fun x => q x = false) l2))
      by (rewrite E2 at 1; apply length_app).
    rewrite (proj2 (Nat.leb_le _ _)) by lia. rewrite (proj2 (Nat.leb_le _ _)) by lia.
    cbn [andb]. f_equal. rewrite E1 at 1 2. f_equal; [by rewrite take_app_length|].
    rewrite drop_app_ge by lia. rewrite Nat.add_sub.
    transitivity (drop (length (filter (fun x => q x = true) l2))
      (filter (fun x => q x = true) l2 ++ filter (fun x => q x = false) l2)).
    + by rewrite <- E2.
    + apply drop_app_length.
Qed.
End ranges.

(** ** Prefixes in the order of byte strings *)

Lemma cmp_bytes_app pre a b : cmp_bytes (pre ++ a) (pre ++ b) = cmp_bytes a b.
Proof. induction pre as [|x pre IH]; cbn; [done|]. by rewrite N.compare_refl. Qed.

Lemma cmp_bytes_prefix_not_gt pre r : cmp_bytes pre (pre ++ r) <> Gt.
Proof. rewrite <- (app_nil_r pre) at 1. rewrite cmp_bytes_app. by destruct r. Qed.

(** The strings that start with a prefix form an interval. *)
Lemma cmp_bytes_prefix_convex pre r x :
  cmp_bytes pre x <> Gt -> cmp_bytes x (pre ++ r) <> Gt -> pre `prefix_of` x.
Proof.
  revert x. induction pre as [|c pre IH]; intros x; [by exists x|].
  destruct x as [|d x]; cbn; [done|].
  rewrite (cmp_opp (cmp := N.compare) (u8 c) (u8 d)).
  destruct (N.compare_spec (u8 c) (u8 d)) as [E|?|?]; cbn; [|done..].
  apply u8_inj in E as <-. intros H1 H2. destruct (IH x H1 H2) as [r' ->]. by exists r'.
Qed.

(** ** Unstable sorting *)

(** [slice::sort_unstable_by]: the order it leaves equal elements in is unspecified. *)
Class UnstableSort : Type := sort_unstable_by : forall A : Type, (A -> A -> comparison) -> list A -> list A.

Class UnstableSortLaws `{UnstableSort} : Prop := {
  unstable_perm : forall A K (key : A -> K) cmp `{!TotalOrder cmp} (l : list A),
    sort_unstable_by A (by_key key cmp) l ≡ₚ l;
  unstable_sorted : forall A K (key : A -> K) cmp `{!TotalOrder cmp} (l : list A),
    weakly_sorted key cmp (sort_unstable_by A (by_key key cmp) l)
}.

(** A stable sort is one. *)
Definition stable_sort : UnstableSort := fun A => @sort_by A.

Lemma stable_sort_laws : @UnstableSortLaws stable_sort.
Proof. split; intros; [by apply sort_by_perm|by apply sort_by_sorted]. Qed.
