(* ===== verification/TreeCodec.v ===== *)
(** * Tree objects: modes, names, the binary codec and the order of entries
      (the first half of zmin-git-core/src/tree.rs) *)
From S2P Require Import Prelude Object Order.

(** ** Data *)

Inductive TreeMode : Set :=
| TFile
| TExecutable
| TSymlink
| TTree
| TGitlink.

#[export] Instance TreeMode_eq_dec : EqDecision TreeMode.
Proof. solve_decision. Defined.

(** [TreeMode::as_bytes]. *)
Definition mode_as_bytes (m : TreeMode) : bytes :=
  match m with
  | TFile => bstr "100644"
  | TExecutable => bstr "100755"
  | TSymlink => bstr "120000"
  | TTree => bstr "40000"
  | TGitlink => bstr "160000"
  end.

(** [TreeMode::parse]. *)
Definition mode_parse (bs : bytes) : option TreeMode :=
  if bool_decide (bs = bstr "100644") then Some TFile
  else if bool_decide (bs = bstr "100755") then Some TExecutable
  else if bool_decide (bs = bstr "120000") then Some TSymlink
  else if bool_decide (bs = bstr "40000") then Some TTree
  else if bool_decide (bs = bstr "160000") then Some TGitlink
  else None.

Record TreeEntry : Set := MkTreeEntry {
  te_mode : TreeMode;
  te_name : bytes;
  te_id : ObjectId
}.

#[export] Instance TreeEntry_eq_dec : EqDecision TreeEntry.
Proof. solve_decision. Defined.

Record TreeObjectRef : Set := MkTreeObjectRef {
  tor_mode : TreeMode;
  tor_id : ObjectId
}.

Definition validate_tree_name (name : bytes) : outcome unit :=
  _ ← check (bool_decide (name = [])) InvalidInput "tree entry name is empty";
  check (contains_byte Byte.x00 name || contains_byte "/"%byte name) InvalidInput
    "tree entry name contains invalid byte".

(** [TreeEntry::new]. *)
Definition TreeEntry_new (mode : TreeMode) (name : bytes) (id : ObjectId) : outcome TreeEntry :=
  _ ← validate_tree_name name;
  Ok (MkTreeEntry mode name id).

(** ** The codec *)

(** The loop of [encode_tree]. *)
Fixpoint encode_tree_loop (entries : list TreeEntry) (encoded : bytes) : outcome bytes :=
  match entries with
  | [] => Ok encoded
  | entry :: entries =>
      _ ← validate_tree_name (te_name entry);
      let encoded := encoded ++ mode_as_bytes (te_mode entry) in
      let encoded := encoded ++ [" "%byte] in
      let encoded := encoded ++ te_name entry in
      let encoded := encoded ++ [Byte.x00] in
      let encoded := encoded ++ as_bytes (te_id entry) in
      encode_tree_loop entries encoded
  end.

Definition encode_tree (entries : list TreeEntry) : outcome bytes :=
  encode_tree_loop entries [].

(** The loop of [decode_tree]: [while cursor < bytes.len()]. *)
Fixpoint decode_tree_loop (fuel : nat) (a : GitHashAlgorithm) (bs : bytes) (cursor : nat)
    (entries : list TreeEntry) : outcome (list TreeEntry) :=
  if length bs <=? cursor then Ok entries else
  match fuel with
  | 0 => NoFuel
  | S fuel =>
      rest ← slice bs cursor (length bs);
      offset ← ok_or (position (byte_is " "%byte) rest) InvalidData "tree mode missing space";
      let mode_end := cursor + offset in
      mode_bytes ← slice bs cursor mode_end;
      mode ← ok_or (mode_parse mode_bytes) InvalidData "invalid tree mode";
      let cursor := mode_end + 1 in
      rest ← slice bs cursor (length bs);
      offset ← ok_or (position (byte_is Byte.x00) rest) InvalidData "tree name missing NUL";
      let name_end := cursor + offset in
      name ← slice bs cursor name_end;
      _ ← validate_tree_name name;
      let cursor := name_end + 1 in
      _ ← check (length bs - cursor <? digest_len a) InvalidData "tree object id is truncated";
      digest ← slice bs cursor (cursor + digest_len a);
      id ← ObjectId_new a digest;
      decode_tree_loop fuel a bs (cursor + digest_len a) (entries ++ [MkTreeEntry mode name id])
  end.

Definition decode_tree (a : GitHashAlgorithm) (bs : bytes) : outcome (list TreeEntry) :=
  decode_tree_loop (length bs) a bs 0 [].

(** The loop of [for_each_tree_object_ref]; the visitor threads a state. *)
Fixpoint for_each_tree_object_ref_loop {St} (visit : St -> TreeMode -> ObjectId -> outcome St)
    (fuel : nat) (a : GitHashAlgorithm) (bs : bytes) (cursor : nat) (st : St) : outcome St :=
  if length bs <=? cursor then Ok st else
  match fuel with
  | 0 => NoFuel
  | S fuel =>
      rest ← slice bs cursor (length bs);
      offset ← ok_or (position (byte_is " "%byte) rest) InvalidData "tree mode missing space";
      let mode_end := cursor + offset in
      mode_bytes ← slice bs cursor mode_end;
      mode ← ok_or (mode_parse mode_bytes) InvalidData "invalid tree mode";
      let cursor := mode_end + 1 in
      rest ← slice bs cursor (length bs);
      offset ← ok_or (position (byte_is Byte.x00) rest) InvalidData "tree name missing NUL";
      let name_end := cursor + offset in
      name ← slice bs cursor name_end;
      _ ← validate_tree_name name;
      let cursor := name_end + 1 in
      _ ← check (length bs - cursor <? digest_len a) InvalidData "tree object id is truncated";
      digest ← slice bs cursor (cursor + digest_len a);
      id ← ObjectId_new a digest;
      let cursor := cursor + digest_len a in
      st ← visit st mode id;
      for_each_tree_object_ref_loop visit fuel a bs cursor st
  end.

Definition for_each_tree_object_ref {St} (a : GitHashAlgorithm) (bs : bytes)
    (visit : St -> TreeMode -> ObjectId -> outcome St) (st : St) : outcome St :=
  for_each_tree_object_ref_loop visit (length bs) a bs 0 st.

Definition decode_tree_object_refs (a : GitHashAlgorithm) (bs : bytes)
  : outcome (list TreeObjectRef) :=
  for_each_tree_object_ref a bs
    (fun entries mode id => Ok (entries ++ [MkTreeObjectRef mode id])) [].

(** ** The order of tree entries *)

Definition tree_name_byte (name : bytes) (is_tree : bool) (idx : nat) : option byte :=
  if idx <? length name then name !! idx
  else if (idx =? length name) && is_tree then Some "/"%byte
  else None.

(** The loop of [compare_tree_names]. *)
Fixpoint compare_tree_names_loop (fuel : nat) (left : bytes) (left_tree : bool)
    (right : bytes) (right_tree : bool) (idx : nat) : outcome comparison :=
  match fuel with
  | 0 => NoFuel
  | S fuel =>
      match tree_name_byte left left_tree idx, tree_name_byte right right_tree idx with
      | None, None => Ok Eq
      | None, Some _ => Ok Lt
      | Some _, None => Ok Gt
      | Some l, Some r =>
          if negb (Byte.eqb l r) then Ok (N.compare (u8 l) (u8 r))
          else compare_tree_names_loop fuel left left_tree right right_tree (idx + 1)
      end
  end.

(** Both names end after [length left + 2] steps. *)
Definition compare_tree_names (left : bytes) (left_tree : bool) (right : bytes)
    (right_tree : bool) : outcome comparison :=
  compare_tree_names_loop (length left + 2) left left_tree right right_tree 0.

Definition is_tree (e : TreeEntry) : bool := bool_decide (te_mode e = TTree).

Definition tree_entry_cmp (left right : TreeEntry) : outcome comparison :=
  compare_tree_names (te_name left) (is_tree left) (te_name right) (is_tree right).

(** ** Specification *)

(** The bytes of one entry: [<mode> <name>\0<digest>]. *)
Definition entry_bytes (e : TreeEntry) : bytes :=
  mode_as_bytes (te_mode e) ++ " "%byte :: te_name e ++ Byte.x00 :: as_bytes (te_id e).

Definition tree_bytes (es : list TreeEntry) : bytes := es ≫= entry_bytes.

Definition tree_name_ok (name : bytes) : Prop :=
  name <> [] /\ contains_byte Byte.x00 name = false /\ contains_byte "/"%byte name = false.

Definition entry_wf (a : GitHashAlgorithm) (e : TreeEntry) : Prop :=
  tree_name_ok (te_name e) /\ ObjectId_wf (te_id e) /\ algorithm (te_id e) = a.

(** The string git orders an entry by: a directory's name ends in a slash. *)
Definition sort_name (name : bytes) (tree : bool) : bytes :=
  if tree then name ++ ["/"%byte] else name.

Definition sort_key (e : TreeEntry) : bytes := sort_name (te_name e) (is_tree e).

(** ** Modes and names *)

Lemma mode_parse_as_bytes m : mode_parse (mode_as_bytes m) = Some m.
Proof. by destruct m. Qed.

Lemma mode_parse_Some bs m : mode_parse bs = Some m <-> bs = mode_as_bytes m.
Proof.
  split; [|intros ->; apply mode_parse_as_bytes].
  unfold mode_parse. repeat case_bool_decide; intros [= <-]; done.
Qed.

Lemma mode_no_space m : contains_byte " "%byte (mode_as_bytes m) = false.
Proof. by destruct m. Qed.

Lemma validate_tree_name_Ok name u : validate_tree_name name = Ok u <-> tree_name_ok name.
Proof.
  destruct u. unfold validate_tree_name, tree_name_ok, check.
  case_bool_decide; cbn; unfold fail; [naive_solver|].
  destruct (contains_byte _ name), (contains_byte _ name); cbn; naive_solver.
Qed.

Lemma safe_validate_tree_name name : safe (validate_tree_name name).
Proof. unfold validate_tree_name. solve_safe. Qed.
#[export] Hint Resolve safe_validate_tree_name : zmin.

(** ** The encoder *)

Lemma encode_tree_loop_Ok es out bs :
  encode_tree_loop es out = Ok bs <->
  bs = out ++ tree_bytes es /\ Forall (fun e => tree_name_ok (te_name e)) es.
Proof.
  revert out. induction es as [|e es IH]; intros out; cbn.
  { rewrite app_nil_r. split; [intros [= ->]; eauto|by intros [-> _]]. }
  rewrite Forall_cons. split.
  - intros H. inv_ok. apply validate_tree_name_Ok in E. apply IH in H as [-> H].
    split; [|done]. unfold entry_bytes. solve_app.
  - intros (-> & Hn & Hes).
    rewrite (proj2 (validate_tree_name_Ok _ tt) Hn), bind_Ok. apply IH.
    split; [|done]. unfold entry_bytes. solve_app.
Qed.

(** ** The decoder *)

Section decode.
Context (a : GitHashAlgorithm).

(** One iteration at a well-delimited entry. *)
Lemma decode_tree_step fuel pre x y d rest acc :
  contains_byte " "%byte x = false -> contains_byte Byte.x00 y = false ->
  length d = digest_len a ->
  decode_tree_loop (S fuel) a (pre ++ x ++ " "%byte :: y ++ Byte.x00 :: d ++ rest)
    (length pre) acc
  = (mode ← ok_or (mode_parse x) InvalidData "invalid tree mode";
     _ ← validate_tree_name y;
     decode_tree_loop fuel a ((pre ++ x ++ " "%byte :: y ++ Byte.x00 :: d) ++ rest)
       (length (pre ++ x ++ " "%byte :: y ++ Byte.x00 :: d))
       (acc ++ [MkTreeEntry mode y (mk_id a d)])).
Proof.
  intros Hx Hy Hd. cbn [decode_tree_loop].
  rewrite (proj2 (Nat.leb_gt _ _)) by solve_length.
  slice_tail_as pre (x ++ " "%byte :: y ++ Byte.x00 :: d ++ rest).
  rewrite position_byte_app by done. cbn [ok_or]. rewrite bind_Ok.
  slice_as pre x (" "%byte :: y ++ Byte.x00 :: d ++ rest).
  destruct (mode_parse x) as [mode|]; [|done]. cbn [ok_or]. rewrite !bind_Ok.
  slice_tail_as (pre ++ x ++ [" "%byte]) (y ++ Byte.x00 :: d ++ rest).
  rewrite position_byte_app by done. cbn [ok_or]. rewrite bind_Ok.
  slice_as (pre ++ x ++ [" "%byte]) y (Byte.x00 :: d ++ rest).
  destruct (validate_tree_name y); [|done..]. rewrite !bind_Ok. unfold check.
  rewrite (proj2 (Nat.ltb_ge _ _)) by solve_length. rewrite bind_Ok.
  slice_as (pre ++ x ++ " "%byte :: y ++ [Byte.x00]) d rest.
  rewrite ObjectId_new_ok, bind_Ok by done.
  f_equal; [solve_app|solve_length].
Qed.

(** Every iteration that does not fail found a well-delimited entry. *)
Lemma decode_tree_cases fuel pre suf acc :
  suf <> [] ->
  (exists e, decode_tree_loop (S fuel) a (pre ++ suf) (length pre) acc = Err e) \/
  exists x y d rest, suf = x ++ " "%byte :: y ++ Byte.x00 :: d ++ rest /\
    contains_byte " "%byte x = false /\ contains_byte Byte.x00 y = false /\
    length d = digest_len a.
Proof.
  intros Hne. assert (0 < length suf) by (destruct suf; [done|cbn; lia]).
  destruct (position_split " "%byte suf) as [[E _]|(x & r & -> & Hx & E)].
  { left. eexists. cbn [decode_tree_loop].
    rewrite (proj2 (Nat.leb_gt _ _)) by solve_length.
    slice_tail_as pre suf. by rewrite E. }
  destruct (position_split Byte.x00 r) as [[E' _]|(y & d & -> & Hy & E')].
  { left. destruct (mode_parse x) as [m|] eqn:Em.
    all: eexists; cbn [decode_tree_loop]; rewrite (proj2 (Nat.leb_gt _ _)) by solve_length;
      slice_tail_as pre (x ++ " "%byte :: r); rewrite E; cbn [ok_or]; rewrite bind_Ok;
      slice_as pre x (" "%byte :: r); rewrite Em; cbn [ok_or]; rewrite ?bind_Ok; try done.
    slice_tail_as (pre ++ x ++ [" "%byte]) r. by rewrite E'. }
  destruct (Nat.le_gt_cases (digest_len a) (length d)) as [Hd|Hd].
  { right. exists x, y, (take (digest_len a) d), (drop (digest_len a) d).
    rewrite take_drop, length_take_le by done. done. }
  left. destruct (mode_parse x) as [m|] eqn:Em.
  all: destruct (validate_tree_name y) as [[]|e| |] eqn:En;
    try (by pose proof (safe_validate_tree_name y) as Hs; rewrite En in Hs).
  all: eexists; cbn [decode_tree_loop]; rewrite (proj2 (Nat.leb_gt _ _)) by solve_length;
    slice_tail_as pre (x ++ " "%byte :: y ++ Byte.x00 :: d); rewrite E; cbn [ok_or];
    rewrite bind_Ok; slice_as pre x (" "%byte :: y ++ Byte.x00 :: d);
    rewrite Em; cbn [ok_or]; rewrite ?bind_Ok; try done.
  all: slice_tail_as (pre ++ x ++ [" "%byte]) (y ++ Byte.x00 :: d); rewrite E'; cbn [ok_or];
    rewrite bind_Ok; slice_as (pre ++ x ++ [" "%byte]) y (Byte.x00 :: d); rewrite En; try done.
  rewrite bind_Ok. unfold check. rewrite (proj2 (Nat.ltb_lt _ _)) by solve_length. done.
Qed.

Lemma safe_decode_tree_loop fuel pre suf acc :
  length suf <= fuel -> safe (decode_tree_loop fuel a (pre ++ suf) (length pre) acc).
Proof.
  revert pre suf acc. induction fuel as [|fuel IH]; intros pre suf acc Hf;
    (destruct suf as [|b suf]; [cbn; rewrite app_nil_r, Nat.leb_refl; done|]);
    [cbn in Hf; lia|].
  destruct (decode_tree_cases fuel pre (b :: suf) acc) as
    [[e ->]|(x & y & d & rest & E & Hx & Hy & Hd)]; [done|done|].
  rewrite E in *. rewrite decode_tree_step by done.
  solve_safe. apply IH. revert Hf. repeat first [rewrite length_app|progress cbn [length]]. lia.
Qed.

Lemma decode_tree_loop_Ok fuel pre suf acc es :
  length suf <= fuel ->
  decode_tree_loop fuel a (pre ++ suf) (length pre) acc = Ok es <->
  exists es', es = acc ++ es' /\ suf = tree_bytes es' /\ Forall (entry_wf a) es'.
Proof.
  revert pre suf acc. induction fuel as [|fuel IH]; intros pre suf acc Hf;
    (destruct suf as [|b suf]; [try clear IH|try (cbn in Hf; lia)]).
  1,2: cbn; rewrite app_nil_r, Nat.leb_refl; split;
    [intros [= ->]; exists []; by rewrite app_nil_r|].
  1,2: intros ([|e es'] & -> & E & _); [by rewrite app_nil_r|];
    destruct e as [[] ? ?]; discriminate.
  split.
  - destruct (decode_tree_cases fuel pre (b :: suf) acc) as
      [[e ->]|(x & y & d & rest & E & Hx & Hy & Hd)]; [done|done|].
    rewrite E in *. rewrite decode_tree_step by done. intros H. inv_ok.
    apply mode_parse_Some in E0. apply validate_tree_name_Ok in E1.
    apply IH in H as (es' & -> & -> & Hes);
      [|revert Hf; repeat first [rewrite length_app|progress cbn [length]]; lia].
    exists (MkTreeEntry v y (mk_id a d) :: es'). split_and!; [solve_app| |].
    + unfold tree_bytes. cbn [mbind list_bind]. unfold entry_bytes. cbn [te_mode te_name te_id].
      rewrite as_bytes_mk_id, E0 by done. solve_app.
    + constructor; [|done]. split_and!; [done|by apply mk_id_wf|done].
  - intros ([|e es'] & -> & E & Hes); [done|]. apply Forall_cons in Hes as [(Hn & Hid & Ha) Hes].
    assert (b :: suf = mode_as_bytes (te_mode e) ++ " "%byte :: te_name e ++ Byte.x00 ::
              as_bytes (te_id e) ++ tree_bytes es') as E'.
    { rewrite E. unfold tree_bytes. cbn [mbind list_bind]. unfold entry_bytes. solve_app. }
    rewrite E' in *. rewrite decode_tree_step;
      [|apply mode_no_space|apply Hn|rewrite length_as_bytes by done; by rewrite Ha].
    rewrite mode_parse_as_bytes. cbn [ok_or]. rewrite bind_Ok.
    rewrite (proj2 (validate_tree_name_Ok _ tt) Hn), bind_Ok.
    apply IH; [revert Hf; repeat first [rewrite length_app|progress cbn [length]]; lia|].
    exists es'. split_and!; [|done|done]. rewrite <- app_assoc. cbn [app]. do 2 f_equal.
    destruct e as [m n i]. cbn in *. by rewrite <- Ha, mk_id_as_bytes.
Qed.
End decode.

(** C27: [decode_tree] is the exact inverse of [encode_tree]: on any bytes it never panics
    and always terminates, and it returns the entries [es] exactly when [encode_tree es]
    succeeds with those bytes and every id of [es] is a well-formed id of the tree's
    algorithm. *)
Theorem decode_tree_iff a bs :
  safe (decode_tree a bs) /\
  forall es, decode_tree a bs = Ok es <->
    encode_tree es = Ok bs /\ Forall (fun e => ObjectId_wf (te_id e) /\ algorithm (te_id e) = a) es.
Proof.
  split; [apply (safe_decode_tree_loop a _ []); lia|]. intros es.
  unfold decode_tree, encode_tree.
  rewrite (decode_tree_loop_Ok a _ [] bs []) by lia. rewrite encode_tree_loop_Ok. cbn [app].
  unfold entry_wf. split.
  - intros (es' & -> & -> & H). rewrite Forall_and in H. naive_solver.
  - intros [[-> H1] H2]. exists es. by rewrite Forall_and.
Qed.

(** The visitor loop is the decoder followed by the visits, with the visits interleaved. *)
Lemma object_refs_loop fuel a bs cursor es :
  for_each_tree_object_ref_loop
    (fun entries mode id => Ok (entries ++ [MkTreeObjectRef mode id])) fuel a bs cursor
    ((fun e => MkTreeObjectRef (te_mode e) (te_id e)) <$> es)
  = fmap (M := outcome) (fmap (fun e => MkTreeObjectRef (te_mode e) (te_id e)))
      (decode_tree_loop fuel a bs cursor es).
Proof.
  revert cursor es. induction fuel as [|fuel IH]; intros cursor es;
    cbn [for_each_tree_object_ref_loop decode_tree_loop]; destruct (length bs <=? cursor); try done.
  repeat match goal with
  | |- mbind _ ?m = _ => destruct m; [rewrite !bind_Ok; cbv zeta|done..]
  end.
  rewrite <- IH, fmap_app. done.
Qed.

(** [decode_tree_object_refs], built on the visitor [for_each_tree_object_ref], agrees with
    [decode_tree] on every input: the same references in the same order, or the same error. *)
Theorem decode_tree_object_refs_decode a bs :
  decode_tree_object_refs a bs
  = fmap (M := outcome) (fmap (fun e => MkTreeObjectRef (te_mode e) (te_id e))) (decode_tree a bs).
Proof. apply (object_refs_loop _ a bs 0 []). Qed.

(** ** The order *)

Lemma tree_name_byte_lookup name t idx : tree_name_byte name t idx = sort_name name t !! idx.
Proof.
  unfold tree_name_byte, sort_name. destruct (Nat.ltb_spec idx (length name)).
  - destruct t; [|done]. by rewrite lookup_app_l.
  - destruct t; [|by rewrite andb_false_r, lookup_ge_None_2].
    rewrite lookup_app_r, andb_true_r by done.
    destruct (Nat.eqb_spec idx (length name)); [by subst; rewrite Nat.sub_diag|].
    rewrite lookup_ge_None_2; [done|]. cbn. lia.
Qed.

Lemma compare_tree_names_loop_spec fuel l lt r rt idx :
  length (sort_name l lt) < fuel + idx -> idx <= length (sort_name l lt) ->
  compare_tree_names_loop fuel l lt r rt idx
  = Ok (cmp_bytes (drop idx (sort_name l lt)) (drop idx (sort_name r rt))).
Proof.
  revert idx. induction fuel as [|fuel IH]; intros idx Hf Hi; [lia|].
  cbn [compare_tree_names_loop]. rewrite !tree_name_byte_lookup.
  destruct (sort_name l lt !! idx) as [x|] eqn:El.
  - rewrite (drop_S _ x idx) by done. destruct (sort_name r rt !! idx) as [y|] eqn:Er.
    + rewrite (drop_S (sort_name r rt) y idx) by done. cbn [cmp_bytes].
      destruct (byte_eqb_spec x y) as [->|Hne]; cbn [negb].
      * rewrite N.compare_refl. cbn [then_cmp]. apply lookup_lt_Some in El.
        rewrite IH, Nat.add_1_r by lia. done.
      * destruct (N.compare_spec (u8 x) (u8 y)) as [E|?|?]; [by apply u8_inj in E|done..].
    + apply lookup_ge_None in Er. by rewrite (drop_ge (sort_name r rt)).
  - apply lookup_ge_None in El. rewrite (drop_ge (sort_name l lt)) by lia.
    destruct (sort_name r rt !! idx) as [y|] eqn:Er.
    + by rewrite (drop_S (sort_name r rt) y idx).
    + apply lookup_ge_None in Er. by rewrite (drop_ge (sort_name r rt)).
Qed.

(** The byte-by-byte comparison of tree names terminates, never panics, and is the
    lexicographic order of the names in which a directory's name is followed by a slash. *)
Theorem compare_tree_names_spec left left_tree right right_tree :
  compare_tree_names left left_tree right right_tree
  = Ok (cmp_bytes (sort_name left left_tree) (sort_name right right_tree)).
Proof.
  unfold compare_tree_names. rewrite compare_tree_names_loop_spec; [done| |lia].
  unfold sort_name. destruct left_tree; rewrite ?length_app; cbn; lia.
Qed.

(** A visitor that cannot fail folds over the decoded entries. *)
Lemma for_each_loop_fold {St} (f : St -> TreeMode -> ObjectId -> St) fuel a bs cursor es st :
  for_each_tree_object_ref_loop (fun st m i => Ok (f st m i)) fuel a bs cursor
    (fold_left (fun st e => f st (te_mode e) (te_id e)) es st)
  = fmap (M := outcome) (fun es => fold_left (fun st e => f st (te_mode e) (te_id e)) es st)
      (decode_tree_loop fuel a bs cursor es).
Proof.
  revert cursor es. induction fuel as [|fuel IH]; intros cursor es;
    cbn [for_each_tree_object_ref_loop decode_tree_loop]; destruct (length bs <=? cursor); try done.
  repeat match goal with
  | |- mbind _ ?m = _ => destruct m; [rewrite !bind_Ok; cbv zeta|done..]
  end.
  rewrite <- IH, fold_left_app. done.
Qed.

Lemma for_each_fold {St} (f : St -> TreeMode -> ObjectId -> St) a bs st :
  for_each_tree_object_ref a bs (fun st m i => Ok (f st m i)) st
  = fmap (M := outcome) (fun es => fold_left (fun st e => f st (te_mode e) (te_id e)) es st)
      (decode_tree a bs).
Proof. apply (for_each_loop_fold f _ a bs 0 [] st). Qed.

Lemma safe_decode_tree a bs : safe (decode_tree a bs).
Proof. apply (safe_decode_tree_loop a _ []); lia. Qed.

Lemma decode_tree_wf a bs es : decode_tree a bs = Ok es -> Forall (entry_wf a) es.
Proof.
  unfold decode_tree. intros H. apply (decode_tree_loop_Ok a _ [] bs []) in H; [|lia].
  destruct H as (es' & -> & _ & H). done.
Qed.
