(* ===== verification/Index.v ===== *)
(** * The index: entries, flags, the sorted entry list and its updates
      (the in-memory half of zmin-git-core/src/index.rs) *)
From S2P Require Import Prelude Object Order TreeCodec.

(** ** Data *)

Inductive IndexMode : Set :=
| IFile
| IExecutable
| ISymlink
| IGitlink.

#[export] Instance IndexMode_eq_dec : EqDecision IndexMode.
Proof. solve_decision. Defined.

(** [IndexMode::bits]: 0o100644, 0o100755, 0o120000, 0o160000. *)
Definition mode_bits (m : IndexMode) : N :=
  match m with
  | IFile => 33188
  | IExecutable => 33261
  | ISymlink => 40960
  | IGitlink => 57344
  end.

Definition mode_from_bits (bits : N) : outcome IndexMode :=
  if (bits =? 33188)%N then Ok IFile
  else if (bits =? 33261)%N then Ok IExecutable
  else if (bits =? 40960)%N then Ok ISymlink
  else if (bits =? 57344)%N then Ok IGitlink
  else fail InvalidData "unsupported git index mode".

Definition tree_mode (m : IndexMode) : TreeMode :=
  match m with
  | IFile => TFile
  | IExecutable => TExecutable
  | ISymlink => TSymlink
  | IGitlink => TGitlink
  end.

Record IndexEntry : Set := MkIndexEntry {
  ie_path : bytes;
  ie_id : ObjectId;
  ie_mode : IndexMode;
  ie_stage : N;
  ie_size : N;
  ctime_seconds : N;
  ctime_nanoseconds : N;
  mtime_seconds : N;
  mtime_nanoseconds : N;
  dev : N;
  ino : N;
  uid : N;
  gid : N;
  ie_flags : N
}.

Record ResolveUndoStage : Set := MkResolveUndoStage {
  rus_mode : IndexMode;
  rus_id : ObjectId
}.

(** The array of three stages is a triple; [rue_stages] is its iterator. *)
Record ResolveUndoEntry : Set := MkResolveUndoEntry {
  rue_path : bytes;
  stage1 : option ResolveUndoStage;
  stage2 : option ResolveUndoStage;
  stage3 : option ResolveUndoStage
}.

Definition rue_stages (e : ResolveUndoEntry) : list (option ResolveUndoStage) :=
  [stage1 e; stage2 e; stage3 e].

#[export] Instance IndexEntry_eq_dec : EqDecision IndexEntry.
Proof. solve_decision. Defined.
#[export] Instance ResolveUndoStage_eq_dec : EqDecision ResolveUndoStage.
Proof. solve_decision. Defined.
#[export] Instance ResolveUndoEntry_eq_dec : EqDecision ResolveUndoEntry.
Proof. solve_decision. Defined.

Record GitIndex : Set := MkGitIndex {
  entries : list IndexEntry;
  resolve_undo : list ResolveUndoEntry
}.

(** ** Flags of an entry *)

Definition INDEX_ENTRY_ASSUME_VALID : N := 1.
Definition INDEX_ENTRY_SKIP_WORKTREE : N := 2.
Definition INDEX_ENTRY_INTENT_TO_ADD : N := 4.

Definition assume_valid (e : IndexEntry) : bool :=
  negb (N.land (ie_flags e) INDEX_ENTRY_ASSUME_VALID =? 0)%N.

Definition skip_worktree (e : IndexEntry) : bool :=
  negb (N.land (ie_flags e) INDEX_ENTRY_SKIP_WORKTREE =? 0)%N.

Definition intent_to_add (e : IndexEntry) : bool :=
  negb (N.land (ie_flags e) INDEX_ENTRY_INTENT_TO_ADD =? 0)%N.

Definition index_entry_flags (av sw ita : bool) : N :=
  N.lor (N.lor (if av then INDEX_ENTRY_ASSUME_VALID else 0)
               (if sw then INDEX_ENTRY_SKIP_WORKTREE else 0))
        (if ita then INDEX_ENTRY_INTENT_TO_ADD else 0).

(** [!mask] on a [u8] is [255 - mask] as a bit pattern. *)
Definition set_index_entry_flag (flags mask : N) (value : bool) : N :=
  if value then N.lor flags mask else N.land flags (N.lxor mask 255).

Definition with_flags (e : IndexEntry) (flags : N) : IndexEntry :=
  MkIndexEntry (ie_path e) (ie_id e) (ie_mode e) (ie_stage e) (ie_size e) (ctime_seconds e)
    (ctime_nanoseconds e) (mtime_seconds e) (mtime_nanoseconds e) (dev e) (ino e) (uid e) (gid e)
    flags.

Definition set_assume_valid (e : IndexEntry) (value : bool) : IndexEntry :=
  with_flags e (set_index_entry_flag (ie_flags e) INDEX_ENTRY_ASSUME_VALID value).

Definition set_skip_worktree (e : IndexEntry) (value : bool) : IndexEntry :=
  with_flags e (set_index_entry_flag (ie_flags e) INDEX_ENTRY_SKIP_WORKTREE value).

Definition set_intent_to_add (e : IndexEntry) (value : bool) : IndexEntry :=
  with_flags e (set_index_entry_flag (ie_flags e) INDEX_ENTRY_INTENT_TO_ADD value).

(** ** Validation *)

(** [path.windows(3).any(|w| w == needle)]. *)
Definition windows_any (n : nat) (needle path : bytes) : bool :=
  existsb (fun i => bool_decide (take n (drop i path) = needle))
    (seq 0 (S (length path) - n)).

Definition validate_index_path (path : bytes) : outcome unit :=
  _ ← check (bool_decide (path = [])) InvalidInput "git index path is empty";
  _ ← check (contains_byte Byte.x00 path || starts_with (bstr "/") path
             || windows_any 3 (bstr "/../") path) InvalidInput "git index path is invalid";
  check (bool_decide (path = bstr "..") || starts_with (bstr "../") path
         || ends_with (bstr "/..") path) InvalidInput "git index path escapes repository".

(** [IndexEntry::new]. *)
Definition IndexEntry_new (path : bytes) (id : ObjectId) (mode : IndexMode) (size : N)
  : outcome IndexEntry :=
  _ ← validate_index_path path;
  _ ← check (negb (bool_decide (algorithm id = Sha1))) InvalidInput
        "git index v2 currently requires SHA-1 object ids";
  Ok (MkIndexEntry path id mode 0 size 0 0 0 0 0 0 0 0 0).

Fixpoint validate_index_entries (es : list IndexEntry) : outcome unit :=
  match es with
  | [] => Ok tt
  | e :: es =>
      _ ← validate_index_path (ie_path e);
      _ ← check (3 <? ie_stage e)%N InvalidInput "git index stage must be 0..=3";
      validate_index_entries es
  end.

(** The inner loop of [validate_resolve_undo_entries], over the stages present. *)
Fixpoint validate_stages (ss : list (option ResolveUndoStage)) : outcome unit :=
  match ss with
  | [] => Ok tt
  | None :: ss => validate_stages ss
  | Some s :: ss =>
      _ ← check (negb (bool_decide (algorithm (rus_id s) = Sha1))) InvalidInput
            "git resolve-undo entries currently require SHA-1 object ids";
      validate_stages ss
  end.

Fixpoint validate_resolve_undo_entries (es : list ResolveUndoEntry) : outcome unit :=
  match es with
  | [] => Ok tt
  | e :: es =>
      _ ← validate_index_path (rue_path e);
      _ ← validate_stages (rue_stages e);
      validate_resolve_undo_entries es
  end.

Definition entry_cmp (left right : IndexEntry) : comparison :=
  then_cmp (cmp_bytes (ie_path left) (ie_path right)) (N.compare (ie_stage left) (ie_stage right)).

Definition undo_cmp (left right : ResolveUndoEntry) : comparison :=
  cmp_bytes (rue_path left) (rue_path right).

Definition is_lt (c : comparison) : bool := bool_decide (c = Lt).

Definition validate_sorted_index_entries (es : list IndexEntry) : outcome unit :=
  check (negb (windows2_all (fun l r => is_lt (entry_cmp l r)) es)) InvalidData
    "git index entries are not sorted".

Definition validate_sorted_resolve_undo_entries (es : list ResolveUndoEntry) : outcome unit :=
  check (negb (windows2_all (fun l r => is_lt (undo_cmp l r)) es)) InvalidData
    "git resolve-undo entries are not sorted".

(** ** Construction *)

Definition GitIndex_new : GitIndex := MkGitIndex [] [].

Definition from_entries_and_resolve_undo (es : list IndexEntry) (ru : list ResolveUndoEntry)
  : outcome GitIndex :=
  _ ← validate_index_entries es;
  _ ← validate_resolve_undo_entries ru;
  let es := sort_by entry_cmp es in
  let ru := sort_by undo_cmp ru in
  Ok (MkGitIndex es ru).

Definition from_entries (es : list IndexEntry) : outcome GitIndex :=
  from_entries_and_resolve_undo es [].

Definition from_trusted_sorted_entries_unchecked (es : list IndexEntry) : GitIndex :=
  MkGitIndex es [].

Definition from_trusted_sorted_entries (es : list IndexEntry) : outcome GitIndex :=
  _ ← validate_index_entries es;
  _ ← validate_sorted_index_entries es;
  Ok (from_trusted_sorted_entries_unchecked es).

Definition from_trusted_sorted_entries_and_resolve_undo (es : list IndexEntry)
    (ru : list ResolveUndoEntry) : outcome GitIndex :=
  _ ← validate_index_entries es;
  _ ← validate_resolve_undo_entries ru;
  _ ← validate_sorted_index_entries es;
  _ ← validate_sorted_resolve_undo_entries ru;
  Ok (MkGitIndex es ru).

(** ** Lookup and updates *)

Definition probe_cmp (path : bytes) (stage : N) (probe : IndexEntry) : comparison :=
  then_cmp (cmp_bytes (ie_path probe) path) (N.compare (ie_stage probe) stage).

(** [GitIndex::entry]. *)
Definition entry (index : GitIndex) (path : bytes) (stage : N) : outcome (option IndexEntry) :=
  r ← binary_search_by (probe_cmp path stage) (entries index);
  match r with
  | inl idx => e ← index_at (entries index) idx; Ok (Some e)
  | inr _ => Ok None
  end.

Definition upsert (index : GitIndex) (e : IndexEntry) : outcome GitIndex :=
  _ ← validate_index_path (ie_path e);
  _ ← check (3 <? ie_stage e)%N InvalidInput "git index stage must be 0..=3";
  r ← binary_search_by (probe_cmp (ie_path e) (ie_stage e)) (entries index);
  es ← match r with
       | inl idx => set_at (entries index) idx e
       | inr idx => vec_insert (entries index) idx e
       end;
  Ok (MkGitIndex es (resolve_undo index)).

(** [entry.path.as_slice() < path]. *)
Definition path_lt (path : bytes) (e : IndexEntry) : bool :=
  is_lt (cmp_bytes (ie_path e) path).

Definition path_eq (path : bytes) (e : IndexEntry) : bool := bool_decide (ie_path e = path).

(** The common body of [remove_path] and [remove_dir]: the range of the entries that are not
    [below] and satisfy [inside] is drained. *)
Definition remove_range (index : GitIndex) (below inside : IndexEntry -> bool)
  : outcome (GitIndex * bool) :=
  start ← partition_point below (entries index);
  tail ← slice (entries index) start (length (entries index));
  n ← partition_point inside tail;
  let stop := n + start in
  if start =? stop then Ok (index, false)
  else
    es ← vec_drain (entries index) start stop;
    Ok (MkGitIndex es (resolve_undo index), true).

Definition remove_path (index : GitIndex) (path : bytes) : outcome (GitIndex * bool) :=
  _ ← validate_index_path path;
  remove_range index (path_lt path) (path_eq path).

Definition remove_dir (index : GitIndex) (path : bytes) : outcome (GitIndex * bool) :=
  _ ← validate_index_path path;
  let prefix := path ++ ["/"%byte] in
  remove_range index (path_lt prefix) (fun e => starts_with prefix (ie_path e)).

(** ** Specification *)

Definition entry_key (e : IndexEntry) : bytes * N := (ie_path e, ie_stage e).
Definition cmp_key : bytes * N -> bytes * N -> comparison := cmp_pair cmp_bytes N.compare.

(** The path checks that the code performs. *)
Definition index_path_ok (path : bytes) : Prop :=
  path <> [] /\ contains_byte Byte.x00 path = false /\ ~ bstr "/" `prefix_of` path /\
  path <> bstr ".." /\ ~ bstr "../" `prefix_of` path /\ ~ bstr "/.." `suffix_of` path.

Definition index_entry_ok (e : IndexEntry) : Prop :=
  index_path_ok (ie_path e) /\ (ie_stage e <= 3)%N.

Definition resolve_undo_ok (e : ResolveUndoEntry) : Prop :=
  index_path_ok (rue_path e) /\
  forall s, Some s ∈ rue_stages e -> algorithm (rus_id s) = Sha1.

(** The invariant of an index: valid entries in the order of (path, stage). *)
Record index_wf (index : GitIndex) : Prop := {
  wf_entries : Forall index_entry_ok (entries index);
  wf_sorted : weakly_sorted entry_key cmp_key (entries index);
  wf_undo : Forall resolve_undo_ok (resolve_undo index);
  wf_undo_sorted : weakly_sorted rue_path cmp_bytes (resolve_undo index)
}.

(** No two entries have the same path and stage. *)
Definition index_strict (index : GitIndex) : Prop :=
  strictly_sorted entry_key cmp_key (entries index).

(** ** Path validation *)

(** The window has three bytes and the needle four: the test never succeeds. *)
Lemma windows_any_short n needle path : length needle <> n -> windows_any n needle path = false.
Proof.
  intros Hn. unfold windows_any. apply not_true_is_false. rewrite existsb_exists.
  intros (i & Hi%in_seq & E%bool_decide_eq_true).
  apply (f_equal length) in E. rewrite length_take, length_drop in E. lia.
Qed.

Lemma ends_with_spec s l : ends_with s l = true <-> s `suffix_of` l.
Proof.
  unfold ends_with. rewrite starts_with_spec. split; intros [k E].
  - exists (rev k). by rewrite <- (rev_involutive l), E, rev_app_distr, rev_involutive.
  - exists (rev k). by rewrite E, rev_app_distr.
Qed.

Lemma starts_with_false p l : starts_with p l = false <-> ~ p `prefix_of` l.
Proof. rewrite <- starts_with_spec. destruct (starts_with p l); naive_solver. Qed.

Lemma ends_with_false s l : ends_with s l = false <-> ~ s `suffix_of` l.
Proof. rewrite <- ends_with_spec. destruct (ends_with s l); naive_solver. Qed.

Lemma validate_index_path_Ok path u : validate_index_path path = Ok u <-> index_path_ok path.
Proof.
  unfold validate_index_path, index_path_ok.
  rewrite <- !starts_with_false, <- ends_with_false.
  rewrite (windows_any_short 3), !bind_check_Ok, check_Ok, !orb_false_iff, !bool_decide_eq_false
    by done.
  destruct u. naive_solver.
Qed.

Lemma safe_validate_index_path path : safe (validate_index_path path).
Proof. unfold validate_index_path. solve_safe. Qed.
#[export] Hint Resolve safe_validate_index_path : zmin.

Lemma validate_index_entries_Ok es u :
  validate_index_entries es = Ok u <-> Forall index_entry_ok es.
Proof.
  destruct u. induction es as [|e es IH]; cbn; [split; [constructor|done]|].
  rewrite Forall_cons, <- IH. unfold index_entry_ok. split.
  - intros H. inv_ok. apply validate_index_path_Ok in E. by breflect.
  - intros [[Hp Hs] H]. rewrite (proj2 (validate_index_path_Ok _ tt) Hp), bind_Ok.
    unfold check. by rewrite (proj2 (N.ltb_ge _ _)).
Qed.

Lemma safe_validate_index_entries es : safe (validate_index_entries es).
Proof. induction es; cbn; solve_safe. done. Qed.

Lemma validate_stages_Ok ss u :
  validate_stages ss = Ok u <-> (forall s, Some s ∈ ss -> algorithm (rus_id s) = Sha1).
Proof.
  destruct u. induction ss as [|[s|] ss IH]; cbn.
  - split; [|done]. intros _ s Hs. by apply elem_of_nil in Hs.
  - rewrite bind_check_Ok, IH, negb_false_iff, bool_decide_eq_true.
    setoid_rewrite elem_of_cons. naive_solver.
  - rewrite IH. setoid_rewrite elem_of_cons. naive_solver.
Qed.

Lemma safe_validate_stages ss : safe (validate_stages ss).
Proof. induction ss as [|[s|] ss IH]; cbn; solve_safe; done. Qed.
#[export] Hint Resolve safe_validate_stages safe_validate_index_entries : zmin.

Lemma validate_resolve_undo_entries_Ok es u :
  validate_resolve_undo_entries es = Ok u <-> Forall resolve_undo_ok es.
Proof.
  destruct u. induction es as [|e es IH]; cbn [validate_resolve_undo_entries];
    [split; [constructor|done]|].
  rewrite Forall_cons, <- IH. unfold resolve_undo_ok. split.
  - intros H. inv_ok. apply validate_index_path_Ok in E. by rewrite validate_stages_Ok in E0.
  - intros [[Hp Hs] H]. rewrite (proj2 (validate_index_path_Ok _ tt) Hp), bind_Ok.
    by rewrite (proj2 (validate_stages_Ok _ tt) Hs).
Qed.

Lemma safe_validate_resolve_undo_entries es : safe (validate_resolve_undo_entries es).
Proof. induction es; cbn [validate_resolve_undo_entries]; solve_safe. Qed.
#[export] Hint Resolve safe_validate_resolve_undo_entries : zmin.

Lemma validate_sorted_index_entries_Ok es u :
  validate_sorted_index_entries es = Ok u <-> strictly_sorted entry_key cmp_key es.
Proof.
  unfold validate_sorted_index_entries. rewrite check_Ok, negb_false_iff.
  destruct u. etransitivity; [|apply (windows2_sorted entry_key cmp_key)]. naive_solver.
Qed.

Lemma validate_sorted_resolve_undo_entries_Ok es u :
  validate_sorted_resolve_undo_entries es = Ok u <-> strictly_sorted rue_path cmp_bytes es.
Proof.
  unfold validate_sorted_resolve_undo_entries. rewrite check_Ok, negb_false_iff.
  destruct u. etransitivity; [|apply (windows2_sorted rue_path cmp_bytes)]. naive_solver.
Qed.

(** ** The search *)

Lemma probe_cmp_key p s e : probe_cmp p s e = cmp_key (entry_key e) (p, s).
Proof. done. Qed.

#[export] Instance cmp_key_total : TotalOrder cmp_key.
Proof. apply cmp_pair_total; apply _. Qed.

(** The binary search finds an entry of the key when there is one, and otherwise the only
    insertion point that keeps the order. *)
Lemma search_spec p s es :
  weakly_sorted entry_key cmp_key es ->
  exists l1 l2 l3, es = l1 ++ l2 ++ l3 /\
    Forall (fun e => cmp_key (entry_key e) (p, s) = Lt) l1 /\
    Forall (fun e => entry_key e = (p, s)) l2 /\
    Forall (fun e => cmp_key (p, s) (entry_key e) = Lt) l3 /\
    binary_search_by (probe_cmp p s) es
    = Ok (match l2 with [] => inr (length l1) | _ => inl (pred (length l1 + length l2)) end).
Proof.
  intros Hs. destruct (sorted_partitioned entry_key cmp_key (p, s) es Hs)
    as (l1 & l2 & l3 & Hp). exists l1, l2, l3.
  pose proof (binary_search_by_spec _ _ _ _ _ Hp) as Hb.
  destruct Hp as (-> & H1 & H2 & H3). split_and!; [done|done| | |exact Hb].
  - eapply Forall_impl; [exact H2|]. cbn. intros e. apply cmp_eq.
  - eapply Forall_impl; [exact H3|]. cbn. intros e. apply (cmp_gt_lt cmp_key).
Qed.

(** With distinct keys at most one entry has the key. *)
Lemma strict_keys es l1 l2 l3 k :
  strictly_sorted entry_key cmp_key es -> es = l1 ++ l2 ++ l3 ->
  Forall (fun e => entry_key e = k) l2 -> l2 = [] \/ exists e, l2 = [e].
Proof.
  intros Hs%strictly_sorted_NoDup -> H2; [|apply _].
  destruct l2 as [|e [|e' l2]]; [by left|right; eauto|].
  rewrite !fmap_app in Hs. apply NoDup_app in Hs as (_ & _ & Hs).
  apply NoDup_app in Hs as (Hs & _ & _). apply Forall_cons in H2 as [E1 H2].
  apply Forall_inv in H2. cbn in Hs. rewrite E1, H2 in Hs. inversion_clear Hs as [|? ? Hn].
  destruct Hn. by left.
Qed.

(** ** Lookup *)

Lemma lookup_middle (l1 l2 l3 : list IndexEntry) e i :
  i = pred (length l1 + length (e :: l2)) ->
  exists e', (l1 ++ (e :: l2) ++ l3) !! i = Some e' /\ e' ∈ e :: l2.
Proof.
  intros ->. cbn [length]. rewrite lookup_app_r by lia.
  replace (_ - _) with (length l2) by lia.
  destruct (lookup_lt_is_Some_2 (e :: l2) (length l2)) as [e' He']; [cbn; lia|].
  exists e'. rewrite lookup_app_l by (cbn; lia). split; [done|].
  by apply list_elem_of_lookup_2 in He'.
Qed.

(** On a sorted list [entry] finds an entry of the key if and only if there is one. *)
Lemma entry_sorted index p s :
  weakly_sorted entry_key cmp_key (entries index) ->
  exists r, entry index p s = Ok r /\
    match r with
    | Some e => e ∈ entries index /\ entry_key e = (p, s)
    | None => forall e, e ∈ entries index -> entry_key e <> (p, s)
    end.
Proof.
  intros Hs. destruct (search_spec p s _ Hs) as (l1 & l2 & l3 & E & H1 & H2 & H3 & Hb).
  unfold entry. rewrite Hb, bind_Ok. destruct l2 as [|e l2].
  - exists None. split; [done|]. intros e He Hk. rewrite E in He.
    rewrite Forall_forall in H1, H3. rewrite elem_of_app in He. cbn in He.
    destruct He as [He|He]; [apply H1 in He|apply H3 in He];
      rewrite Hk in He; by apply (cmp_lt_irrefl cmp_key) in He.
  - destruct (lookup_middle l1 l2 l3 e _ eq_refl) as (e' & Hl & He').
    exists (Some e'). unfold index_at. rewrite E, Hl. cbn [unwrap]. rewrite bind_Ok.
    split; [done|]. split; [rewrite !elem_of_app; auto|].
    rewrite Forall_forall in H2. by apply H2.
Qed.

(** ** Updates *)

Lemma sorted_replace (R : IndexEntry -> IndexEntry -> Prop) l1 l2 l2' l3 :
  StronglySorted R (l1 ++ l2 ++ l3) -> StronglySorted R l2' ->
  (forall x y, x ∈ l1 -> y ∈ l2' -> R x y) -> (forall x y, x ∈ l2' -> y ∈ l3 -> R x y) ->
  StronglySorted R (l1 ++ l2' ++ l3).
Proof.
  rewrite !StronglySorted_app. setoid_rewrite elem_of_app. naive_solver.
Qed.

(** The list [upsert] builds: the last entry of the key is replaced, or the entry is inserted. *)
Lemma upsert_list index e :
  weakly_sorted entry_key cmp_key (entries index) -> index_entry_ok e ->
  exists l1 l2 l3, entries index = l1 ++ l2 ++ l3 /\
    Forall (fun e' => cmp_key (entry_key e') (entry_key e) = Lt) l1 /\
    Forall (fun e' => entry_key e' = entry_key e) l2 /\
    Forall (fun e' => cmp_key (entry_key e) (entry_key e') = Lt) l3 /\
    upsert index e
    = Ok (MkGitIndex (l1 ++ (take (pred (length l2)) l2 ++ [e]) ++ l3) (resolve_undo index)).
Proof.
  intros Hs [Hp Hst]. destruct (search_spec (ie_path e) (ie_stage e) _ Hs)
    as (l1 & l2 & l3 & E & H1 & H2 & H3 & Hb).
  exists l1, l2, l3. split_and!; [done..|]. unfold upsert.
  rewrite (proj2 (validate_index_path_Ok _ tt) Hp), bind_Ok. unfold check.
  rewrite (proj2 (N.ltb_ge _ _)) by done. rewrite bind_Ok, Hb, bind_Ok, E.
  destruct l2 as [|z l2 _] using rev_ind.
  - unfold vec_insert. rewrite (proj2 (Nat.leb_le _ _)) by solve_length. cbn [app].
    by rewrite take_app_length, drop_app_length, bind_Ok.
  - rewrite length_app. cbn [length]. rewrite Nat.add_1_r. cbn [pred]. rewrite take_app_length.
    replace (pred (length l1 + S (length l2))) with (length (l1 ++ l2)) by solve_length.
    replace (l1 ++ (l2 ++ [z]) ++ l3) with ((l1 ++ l2) ++ z :: l3) by solve_app.
    destruct (l2 ++ [z]) eqn:E2; [by destruct l2|].
    rewrite set_at_app, bind_Ok. do 2 f_equal. solve_app.
Qed.

Lemma upsert_Ok index e index' :
  upsert index e = Ok index' -> index_entry_ok e.
Proof.
  unfold upsert. intros H. inv_ok. apply validate_index_path_Ok in E. breflect. by split.
Qed.

Lemma strict_unique es e e' :
  strictly_sorted entry_key cmp_key es -> e ∈ es -> e' ∈ es -> entry_key e = entry_key e' -> e = e'.
Proof. intros Hs%strictly_sorted_NoDup; [|apply _]. by apply NoDup_fmap_elem. Qed.

Lemma strict_weak index : index_strict index -> weakly_sorted entry_key cmp_key (entries index).
Proof. apply strictly_weakly_sorted; apply _. Qed.

(** Without duplicates the answer of [entry] is determined by the set of entries. *)
Lemma entry_strict index p s r :
  index_strict index ->
  match r with
  | Some e => e ∈ entries index /\ entry_key e = (p, s)
  | None => forall e, e ∈ entries index -> entry_key e <> (p, s)
  end -> entry index p s = Ok r.
Proof.
  intros Hs Hr. destruct (entry_sorted index p s (strict_weak _ Hs)) as (r' & -> & Hr').
  f_equal. destruct r as [e|], r' as [e'|]; [|naive_solver..|done].
  destruct Hr, Hr'. f_equal. apply (strict_unique (entries index)); [done..|congruence].
Qed.

(** C4: [upsert] on a sorted index without duplicates never fails on a valid entry; the result
    is again sorted and without duplicates, looking up the key of the new entry finds it, and
    every other key is unaffected. *)
Theorem upsert_spec index e :
  index_strict index -> index_entry_ok e ->
  exists index', upsert index e = Ok index' /\ index_strict index' /\
    resolve_undo index' = resolve_undo index /\
    forall p s, entry index' p s
                = if bool_decide ((p, s) = entry_key e) then Ok (Some e) else entry index p s.
Proof.
  intros Hs He. destruct (upsert_list index e (strict_weak _ Hs) He)
    as (l1 & l2 & l3 & E & H1 & H2 & H3 & ->).
  assert (take (pred (length l2)) l2 = []) as ->.
  { unfold index_strict in Hs. rewrite E in Hs.
    destruct (strict_keys _ l1 l2 l3 _ Hs eq_refl H2) as [->|[z ->]]; done. }
  cbn [app]. eexists. split; [done|]. set (index' := MkGitIndex _ _).
  assert (Hs' : index_strict index').
  { unfold index_strict in *. rewrite E in Hs. cbn [entries index'].
    apply (sorted_replace _ l1 l2 [e] l3); [done|by repeat constructor|..];
      rewrite Forall_forall in H1, H3.
    - intros x y Hx ->%list_elem_of_singleton. by apply H1.
    - intros x y ->%list_elem_of_singleton Hy. by apply H3. }
  split_and!; [done|done|]. intros p s. rewrite Forall_forall in H2.
  case_bool_decide as Hk.
  { apply entry_strict; [done|]. split; [|done]. cbn. rewrite elem_of_app, elem_of_cons. auto. }
  destruct (entry_sorted index p s (strict_weak _ Hs)) as (r & -> & Hr).
  apply entry_strict; [done|]. cbn [entries index'].
  destruct r as [e'|].
  - destruct Hr as [Hin Hk']. split; [|done]. rewrite E, !elem_of_app in Hin.
    rewrite elem_of_app, elem_of_cons. destruct Hin as [?|[Hin|?]]; [auto| |auto].
    apply H2 in Hin. congruence.
  - intros e' Hin. rewrite elem_of_app, elem_of_cons in Hin.
    destruct Hin as [?|[->|?]]; [|congruence|]; apply Hr; rewrite E, !elem_of_app; auto.
Qed.

(** ** Removals *)

Lemma remove_range_spec index below inside :
  weakly_sorted entry_key cmp_key (entries index) ->
  downward entry_key cmp_key below (entries index) ->
  downward entry_key cmp_key inside (filter (fun x => below x = false) (entries index)) ->
  (forall x, inside x = true -> below x = false) ->
  remove_range index below inside
  = Ok (MkGitIndex (filter (fun x => inside x = false) (entries index)) (resolve_undo index),
        existsb inside (entries index)).
Proof.
  intros Hs Hb Hi Hbi. destruct (drain_range entry_key cmp_key below inside _ Hs Hb Hi Hbi)
    as (s & n & E1 & E2 & E3 & Hn & E4).
  unfold remove_range. rewrite E1, bind_Ok, E2, bind_Ok, E3, bind_Ok. cbv zeta.
  assert (existsb inside (entries index) = false <-> n = 0) as Hex.
  { rewrite Hn, filter_none, Forall_forall, <- not_true_iff_false, existsb_exists.
    setoid_rewrite <- list_elem_of_In. naive_solver. }
  destruct (Nat.eqb_spec s (n + s)) as [E|Hne].
  - rewrite (proj2 Hex) by lia. destruct index as [es ru]. cbn [entries resolve_undo] in *.
    rewrite filter_all; [done|]. assert (n = 0) as Hn0 by lia.
    apply Hn, filter_none in Hn0. eapply Forall_impl; [exact Hn0|]. cbn.
    intros x. apply not_true_is_false.
  - destruct (existsb inside (entries index)); [by rewrite E4, bind_Ok|].
    destruct Hne. rewrite (proj1 Hex eq_refl). done.
Qed.

Lemma key_path_le x y :
  cmp_key (entry_key x) (entry_key y) <> Gt -> cmp_bytes (ie_path x) (ie_path y) <> Gt.
Proof. unfold cmp_key, cmp_pair. cbn. by destruct (cmp_bytes _ _). Qed.

Lemma path_lt_true p e : path_lt p e = true <-> cmp_bytes (ie_path e) p = Lt.
Proof. apply bool_decide_eq_true. Qed.

Lemma path_lt_false p e : path_lt p e = false <-> cmp_bytes p (ie_path e) <> Gt.
Proof.
  unfold path_lt, is_lt. rewrite bool_decide_eq_false.
  by rewrite (cmp_gt_lt cmp_bytes p).
Qed.

Lemma path_lt_downward p es : downward entry_key cmp_key (path_lt p) es.
Proof.
  intros x y _ _ Hxy%key_path_le. rewrite !path_lt_true. intros Hy.
  destruct (cmp_bytes (ie_path x) (ie_path y)) eqn:E; [| |done].
  - apply cmp_eq in E. by rewrite E.
  - by apply cmp_lt_trans with (ie_path y).
Qed.

(** [remove_path] on a sorted index (duplicates allowed) removes exactly the entries of the
    path, whatever their stage, and tells whether there was one; it only fails on an invalid
    path. *)
Theorem remove_path_spec index p :
  weakly_sorted entry_key cmp_key (entries index) -> index_path_ok p ->
  remove_path index p
  = Ok (MkGitIndex (filter (fun e => ie_path e <> p) (entries index)) (resolve_undo index),
        existsb (path_eq p) (entries index)).
Proof.
  intros Hs Hp. unfold remove_path. rewrite (proj2 (validate_index_path_Ok _ tt) Hp), bind_Ok.
  rewrite remove_range_spec; [|done|apply path_lt_downward|..].
  - do 3 f_equal. apply list_filter_iff. intros e. unfold path_eq. by rewrite bool_decide_eq_false.
  - intros x y [Hx _]%list_elem_of_filter _ Hxy%key_path_le. unfold path_eq.
    rewrite !bool_decide_eq_true. rewrite path_lt_false in Hx. intros <-.
    apply (cmp_eq (cmp := cmp_bytes)). destruct (cmp_bytes (ie_path x) (ie_path y)) eqn:E; [done| |done].
    by apply (cmp_gt_lt cmp_bytes) in E.
  - unfold path_eq. intros x E%bool_decide_eq_true. apply path_lt_false. rewrite E.
    by rewrite (cmp_refl cmp_bytes).
Qed.

(** [remove_dir] on a sorted index removes exactly the entries below the directory: those
    whose path starts with the directory's path and a slash; files with the path as a mere
    string prefix stay. *)
Theorem remove_dir_spec index p :
  weakly_sorted entry_key cmp_key (entries index) -> index_path_ok p ->
  remove_dir index p
  = Ok (MkGitIndex (filter (fun e => ~ (p ++ bstr "/") `prefix_of` ie_path e) (entries index))
          (resolve_undo index),
        existsb (fun e => bool_decide ((p ++ bstr "/") `prefix_of` ie_path e)) (entries index)).
Proof.
  intros Hs Hp. unfold remove_dir. rewrite (proj2 (validate_index_path_Ok _ tt) Hp), bind_Ok.
  cbv zeta. set (d := p ++ ["/"%byte]).
  assert (Hst : forall e, starts_with d (ie_path e) = bool_decide (d `prefix_of` ie_path e)).
  { intros e. apply eq_true_iff_eq. by rewrite starts_with_spec, bool_decide_eq_true. }
  rewrite remove_range_spec; [|done|apply path_lt_downward|..].
  - do 2 f_equal.
    + f_equal. apply list_filter_iff. intros e. apply starts_with_false.
    + clear Hs. induction (entries index) as [|e es IH]; cbn; [done|]. by rewrite IH, Hst.
  - intros x y [Hx _]%list_elem_of_filter _ Hxy%key_path_le.
    rewrite !starts_with_spec. rewrite path_lt_false in Hx. intros [r Ey]. rewrite Ey in Hxy.
    by apply cmp_bytes_prefix_convex with r.
  - intros x [r E]%starts_with_spec. apply path_lt_false. rewrite E.
    apply cmp_bytes_prefix_not_gt.
Qed.

(** ** The invariant *)

(** The indexes the operations build: the constructors (the decoder ends in
    [from_trusted_sorted_entries_and_resolve_undo]), then any [upsert], [remove_path] and
    [remove_dir]. [from_trusted_sorted_entries_unchecked] checks nothing: what it makes counts
    here only when its argument is valid and sorted, which is its caller's to see to
    ([read_tree_to_index] of [tree.rs] does not for a tree out of order). *)
Inductive index_reachable : GitIndex -> Prop :=
| reach_new : index_reachable GitIndex_new
| reach_from es ru index :
    from_entries_and_resolve_undo es ru = Ok index -> index_reachable index
| reach_trusted es index :
    from_trusted_sorted_entries es = Ok index -> index_reachable index
| reach_unchecked es :
    Forall index_entry_ok es -> weakly_sorted entry_key cmp_key es ->
    index_reachable (from_trusted_sorted_entries_unchecked es)
| reach_decoded es ru index :
    from_trusted_sorted_entries_and_resolve_undo es ru = Ok index -> index_reachable index
| reach_upsert index e index' :
    index_reachable index -> upsert index e = Ok index' -> index_reachable index'
| reach_remove_path index p index' b :
    index_reachable index -> remove_path index p = Ok (index', b) -> index_reachable index'
| reach_remove_dir index p index' b :
    index_reachable index -> remove_dir index p = Ok (index', b) -> index_reachable index'.

Lemma filter_wf (P : IndexEntry -> Prop) `{!forall e, Decision (P e)} index :
  index_wf index -> index_wf (MkGitIndex (filter P (entries index)) (resolve_undo index)).
Proof.
  intros []. split; [by apply Forall_filter_weaken|by apply weakly_sorted_filter|done..].
Qed.

Lemma upsert_wf index e index' : index_wf index -> upsert index e = Ok index' -> index_wf index'.
Proof.
  intros [Hok Hs Hru Hrs] Hu. pose proof (upsert_Ok _ _ _ Hu) as He.
  destruct (upsert_list index e Hs He) as (l1 & l2 & l3 & E & H1 & H2 & H3 & Eu).
  rewrite Eu in Hu. inv_ok. rewrite E in Hok, Hs. split; cbn [entries resolve_undo]; [| |done..].
  - rewrite !Forall_app in Hok. destruct Hok as (? & ? & ?).
    apply Forall_app_2; [done|]. apply Forall_app_2; [|done].
    apply Forall_app_2; [by apply Forall_take|by constructor].
  - apply (sorted_replace _ l1 l2); [done|..].
    + apply StronglySorted_app in Hs as (_ & _ & Hs). apply StronglySorted_app in Hs as (_ & Hs & _).
      rewrite <- (take_drop (pred (length l2)) l2) in Hs.
      apply StronglySorted_app in Hs as (_ & Hs & _).
      apply StronglySorted_app. split_and!; [|done|by repeat constructor].
      intros x y Hx%subseteq_take ->%list_elem_of_singleton.
      rewrite Forall_forall in H2. rewrite H2 by done. by rewrite (cmp_refl cmp_key).
    + rewrite Forall_forall in H1, H2. intros x y Hx Hy.
      assert (entry_key y = entry_key e) as ->; [|by rewrite H1].
      apply elem_of_app in Hy as [Hy%subseteq_take| ->%list_elem_of_singleton]; auto.
    + rewrite Forall_forall in H2, H3. intros x y Hx Hy.
      assert (entry_key x = entry_key e) as ->; [|by rewrite H3].
      apply elem_of_app in Hx as [Hx%subseteq_take| ->%list_elem_of_singleton]; auto.
Qed.

Lemma from_entries_wf es ru index :
  from_entries_and_resolve_undo es ru = Ok index -> index_wf index.
Proof.
  unfold from_entries_and_resolve_undo. intros H. inv_ok.
  apply validate_index_entries_Ok in E. apply validate_resolve_undo_entries_Ok in E0.
  split; cbn [entries resolve_undo].
  - by rewrite (sort_by_perm entry_key cmp_key).
  - apply (sort_by_sorted entry_key cmp_key).
  - by rewrite (sort_by_perm rue_path cmp_bytes).
  - apply (sort_by_sorted rue_path cmp_bytes).
Qed.

Lemma from_trusted_wf es ru index :
  from_trusted_sorted_entries_and_resolve_undo es ru = Ok index ->
  index = MkGitIndex es ru /\ index_wf index /\ index_strict index.
Proof.
  unfold from_trusted_sorted_entries_and_resolve_undo. intros H. inv_ok.
  apply validate_index_entries_Ok in E. apply validate_resolve_undo_entries_Ok in E0.
  apply validate_sorted_index_entries_Ok in E1.
  apply validate_sorted_resolve_undo_entries_Ok in E2.
  split_and!; [done| |done]. split; [done|apply strict_weak; done|done|].
  by apply (strictly_weakly_sorted rue_path cmp_bytes).
Qed.

(** C7: every index that the operations build satisfies the invariant: its entries have valid
    paths and stages and are in the order of (path, stage), and its resolve-undo records are
    valid and in the order of their paths. One constructor checks nothing:
    [from_trusted_sorted_entries_unchecked], which [read_tree_to_index] and its [_uncached] form
    of [tree.rs] end in. What it makes satisfies the invariant exactly when its argument is
    valid and sorted, so it counts as building an index on that condition only. *)
Theorem index_reachable_wf :
  (forall index, index_reachable index -> index_wf index) /\
  forall es, index_wf (from_trusted_sorted_entries_unchecked es) <->
    Forall index_entry_ok es /\ weakly_sorted entry_key cmp_key es.
Proof.
  split; [|intros es; split; [by intros []|by intros []; split; [..|constructor|constructor]]].
  induction 1 as [|es ru index E|es index E|es Hok Hs|es ru index E|index e index' _ IH E
                  |index p index' b _ IH E|index p index' b _ IH E].
  - split; constructor.
  - by eapply from_entries_wf.
  - unfold from_trusted_sorted_entries in E. inv_ok.
    apply validate_index_entries_Ok in E0. apply validate_sorted_index_entries_Ok in E1.
    split; [done|by apply strict_weak|constructor..].
  - by split; [..|constructor|constructor].
  - by eapply from_trusted_wf.
  - by eapply upsert_wf.
  - assert (index_path_ok p) as Hp.
    { unfold remove_path in E. inv_ok. by apply validate_index_path_Ok in E0. }
    rewrite remove_path_spec in E by (apply IH || done). inv_ok. by apply filter_wf.
  - assert (index_path_ok p) as Hp.
    { unfold remove_dir in E. inv_ok. by apply validate_index_path_Ok in E0. }
    rewrite remove_dir_spec in E by (apply IH || done). inv_ok. by apply filter_wf.
Qed.

(** ** The inner [..] component *)

(** The test for [/../] inside a path compares three-byte windows with four bytes and never
    succeeds: for every path [a] accepted by [validate_index_path] and every [b] without a NUL
    byte that does not end the path in [..], the path [a/../b] is accepted too. *)
Theorem validate_index_path_inner_dotdot a b :
  validate_index_path a = Ok tt -> contains_byte Byte.x00 b = false ->
  ~ bstr "/.." `suffix_of` (bstr "/" ++ b) ->
  validate_index_path (a ++ bstr "/../" ++ b) = Ok tt.
Proof.
  intros (Hne & Hnul & Hslash & Hdd & Hpre & Hsuf)%validate_index_path_Ok Hb Hbs.
  apply validate_index_path_Ok. destruct a as [|c a]; [done|]. split_and!.
  - done.
  - rewrite !contains_byte_app, Hnul, Hb. done.
  - intros [k E]. apply Hslash. injection E as -> _. by exists a.
  - intros E%(f_equal length). revert E. rewrite length_app, length_app. cbn. lia.
  - intros [k E]. destruct a as [|c2 [|c3 a]]; injection E as E1 E2.
    + done.
    + by subst.
    + subst. apply Hpre. by exists a.
  - intros [k E]. replace ((c :: a) ++ bstr "/../" ++ b) with
      (((c :: a) ++ bstr "/..") ++ (bstr "/" ++ b)) in E by solve_app.
    apply Hbs. apply app_eq_inv in E as [(l & _ & E)|(l & _ & E)].
    + destruct l as [|? [|? [|? [|]]]]; injection E; intros; subst; [|discriminate..].
      by exists [].
    + by exists l.
Qed.

(** ** Witnesses *)

Definition sample_entry (path : bytes) (stage : N) : IndexEntry :=
  MkIndexEntry path (sample_id Sha1 7) IFile stage 3 0 0 0 0 0 0 0 0 0.

Definition sample_index : GitIndex :=
  MkGitIndex [sample_entry (bstr "a") 0; sample_entry (bstr "a.c") 0; sample_entry (bstr "a/b") 0;
              sample_entry (bstr "a/b") 2] [].

Lemma sample_index_strict : index_strict sample_index.
Proof. apply (windows2_sorted entry_key cmp_key). vm_compute. reflexivity. Qed.

Lemma path_ok_check path : is_ok (validate_index_path path) = true -> index_path_ok path.
Proof.
  intros H. destruct (validate_index_path path) as [[]| | |] eqn:E; try discriminate.
  by apply validate_index_path_Ok in E.
Qed.

Lemma upsert_spec_witness :
  exists index', upsert sample_index (sample_entry (bstr "a/b") 1) = Ok index' /\
    length (entries index') = 5 /\
    entry index' (bstr "a/b") 1 = Ok (Some (sample_entry (bstr "a/b") 1)).
Proof.
  destruct (upsert_spec sample_index (sample_entry (bstr "a/b") 1) sample_index_strict)
    as (index' & E & _ & _ & Hl).
  - split; [apply path_ok_check; reflexivity|cbn; lia].
  - exists index'. split; [exact E|]. split.
    + vm_compute in E. injection E as E. subst. reflexivity.
    + rewrite Hl. reflexivity.
Defined.

Lemma remove_path_spec_witness :
  remove_path sample_index (bstr "a/b")
  = Ok (MkGitIndex [sample_entry (bstr "a") 0; sample_entry (bstr "a.c") 0] [], true).
Proof.
  rewrite (remove_path_spec sample_index (bstr "a/b")).
  - vm_compute. reflexivity.
  - apply strict_weak, sample_index_strict.
  - apply path_ok_check. reflexivity.
Defined.

Lemma remove_dir_spec_witness :
  remove_dir sample_index (bstr "a")
  = Ok (MkGitIndex [sample_entry (bstr "a") 0; sample_entry (bstr "a.c") 0] [], true).
Proof.
  rewrite (remove_dir_spec sample_index (bstr "a")).
  - vm_compute. reflexivity.
  - apply strict_weak, sample_index_strict.
  - apply path_ok_check. reflexivity.
Defined.

Lemma index_reachable_wf_witness :
  exists index, from_entries [sample_entry (bstr "b") 0; sample_entry (bstr "a") 0] = Ok index /\
    index_wf index.
Proof.
  eexists. split; [vm_compute; reflexivity|]. apply (proj1 index_reachable_wf).
  apply (reach_from [sample_entry (bstr "b") 0; sample_entry (bstr "a") 0] []).
  vm_compute. reflexivity.
Defined.

Lemma validate_index_path_inner_dotdot_witness :
  validate_index_path (bstr "src" ++ bstr "/../" ++ bstr "../../etc/passwd") = Ok tt.
Proof.
  apply (validate_index_path_inner_dotdot (bstr "src") (bstr "../../etc/passwd")).
  - reflexivity.
  - reflexivity.
  - apply ends_with_false. reflexivity.
Defined.
