(* ===== verification/MergeFile.v ===== *)
(** * The three-way merge of file contents (zmin-git-core/src/merge_file.rs) *)
From S2P Require Import Prelude.

(** ** Data *)

Record MergeFileLabels : Set := MkMergeFileLabels {
  label_current : bytes;
  label_ancestor : bytes;
  label_other : bytes
}.

Record MergeFileResult : Set := MkMergeFileResult {
  mf_content : bytes;
  mf_conflicts : nat
}.

(** ** Lines *)

(** The loop of [split_lines] over [bytes.iter().enumerate()]. *)
Fixpoint split_lines_loop (bs rest : bytes) (idx start : nat) (lines : list bytes)
  : outcome (list bytes * nat) :=
  match rest with
  | [] => Ok (lines, start)
  | b :: rest =>
      if byte_is Byte.x0a b then
        line ← slice bs start (idx + 1);
        split_lines_loop bs rest (idx + 1) (idx + 1) (lines ++ [line])
      else split_lines_loop bs rest (idx + 1) start lines
  end.

Definition split_lines (bs : bytes) : outcome (list bytes) :=
  if bool_decide (bs = []) then Ok [] else
  '(lines, start) ← split_lines_loop bs bs 0 0 [];
  if start <? length bs then
    line ← slice bs start (length bs);
    Ok (lines ++ [line])
  else Ok lines.

Fixpoint append_lines (out : bytes) (lines : list bytes) : bytes :=
  match lines with
  | [] => out
  | line :: lines => append_lines (out ++ line) lines
  end.

Definition append_conflict (out : bytes) (current other : list bytes) (labels : MergeFileLabels)
  : bytes :=
  let out := out ++ bstr "<<<<<<< " in
  let out := out ++ label_current labels in
  let out := out ++ [Byte.x0a] in
  let out := append_lines out current in
  let out := out ++ bstr "=======" ++ [Byte.x0a] in
  let out := append_lines out other in
  let out := out ++ bstr ">>>>>>> " in
  let out := out ++ label_other labels in
  out ++ [Byte.x0a].

(** ** The common prefix and suffix *)

(** [while prefix_len < .. && current_lines[prefix_len] == .. { prefix_len += 1 }]. *)
Fixpoint prefix_loop (fuel : nat) (cur anc oth : list bytes) (n : nat) : outcome nat :=
  if (n <? length cur) && (n <? length anc) && (n <? length oth) then
    c ← index_at cur n;
    a ← index_at anc n;
    o ← index_at oth n;
    if bool_decide (c = a) && bool_decide (a = o) then
      match fuel with
      | 0 => NoFuel
      | S fuel => prefix_loop fuel cur anc oth (n + 1)
      end
    else Ok n
  else Ok n.

(** [while prefix_len + suffix_len < .. && current_lines[len - suffix_len - 1] == ..]. *)
Fixpoint suffix_loop (fuel : nat) (cur anc oth : list bytes) (p n : nat) : outcome nat :=
  if (p + n <? length cur) && (p + n <? length anc) && (p + n <? length oth) then
    c ← index_at cur (length cur - n - 1);
    a ← index_at anc (length anc - n - 1);
    o ← index_at oth (length oth - n - 1);
    if bool_decide (c = a) && bool_decide (a = o) then
      match fuel with
      | 0 => NoFuel
      | S fuel => suffix_loop fuel cur anc oth p (n + 1)
      end
    else Ok n
  else Ok n.

(** ** The merge *)

Definition merge_file (current ancestor other : bytes) (labels : MergeFileLabels)
  : outcome MergeFileResult :=
  if bool_decide (current = other) then Ok (MkMergeFileResult current 0) else
  if bool_decide (current = ancestor) then Ok (MkMergeFileResult other 0) else
  if bool_decide (other = ancestor) then Ok (MkMergeFileResult current 0) else
  cur ← split_lines current;
  anc ← split_lines ancestor;
  oth ← split_lines other;
  p ← prefix_loop (length cur) cur anc oth 0;
  s ← suffix_loop (length cur) cur anc oth p 0;
  current_mid ← slice cur p (length cur - s);
  ancestor_mid ← slice anc p (length anc - s);
  other_mid ← slice oth p (length oth - s);
  let resolved_mid :=
    if bool_decide (current_mid = ancestor_mid) then Some other_mid
    else if bool_decide (other_mid = ancestor_mid) || bool_decide (current_mid = other_mid)
    then Some current_mid
    else None in
  head ← slice cur 0 p;
  let out := append_lines [] head in
  match resolved_mid with
  | Some mid =>
      let out := append_lines out mid in
      tail ← slice cur (length cur - s) (length cur);
      Ok (MkMergeFileResult (append_lines out tail) 0)
  | None =>
      let out := append_conflict out current_mid other_mid labels in
      tail ← slice cur (length cur - s) (length cur);
      Ok (MkMergeFileResult (append_lines out tail) 1)
  end.

(** ** Lemmas *)

Lemma append_lines_concat out lines : append_lines out lines = out ++ concat lines.
Proof.
  revert out. induction lines as [|l lines IH]; intros out; cbn; [by rewrite app_nil_r|].
  by rewrite IH, <- app_assoc.
Qed.

(** A line with its newline. *)
Definition full_line (l : bytes) : Prop := exists b, l = b ++ [Byte.x0a] /\ Byte.x0a ∉ b.

(** The lines of a text: each ends at the first newline, save the last one, which may have none and is then not empty. *)
Definition are_lines (bs : bytes) (lines : list bytes) : Prop :=
  concat lines = bs /\
  exists full rest, lines = full ++ rest /\ Forall full_line full /\
    (rest = [] \/ exists l, rest = [l] /\ l <> [] /\ Byte.x0a ∉ l).

Lemma split_lines_loop_spec pre part rest lines :
  concat lines = pre -> Forall full_line lines -> Byte.x0a ∉ part ->
  exists lines' part', split_lines_loop (pre ++ part ++ rest) rest
      (length (pre ++ part)) (length pre) lines = Ok (lines', length (concat lines')) /\
    pre ++ part ++ rest = concat lines' ++ part' /\ Forall full_line lines' /\ Byte.x0a ∉ part'.
Proof.
  revert pre part lines. induction rest as [|b rest IH]; intros pre part lines El Hl Hp.
  { exists lines, part. rewrite app_nil_r, El. done. }
  cbn [split_lines_loop]. unfold byte_is. destruct (byte_eqb_spec b Byte.x0a) as [->|Hb].
  - slice_as pre (part ++ [Byte.x0a]) rest.
    destruct (IH (pre ++ part ++ [Byte.x0a]) [] (lines ++ [part ++ [Byte.x0a]]))
      as (lines' & part' & E & Ec & Hl' & Hp').
    { rewrite concat_app, El. cbn. by rewrite app_nil_r. }
    { apply Forall_app. split; [done|]. constructor; [by exists part|done]. }
    { apply not_elem_of_nil. }
    exists lines', part'. split; [|split; [|done]].
    + rewrite <- E. f_equal; [solve_app|solve_length..].
    + rewrite <- Ec. solve_app.
  - destruct (IH pre (part ++ [b]) lines El Hl) as (lines' & part' & E & Ec & Hl' & Hp').
    { rewrite elem_of_app, list_elem_of_singleton. intros [?|?]; congruence. }
    exists lines', part'. split; [|split; [|done]].
    + rewrite <- E. f_equal; [solve_app|solve_length..].
    + rewrite <- Ec. solve_app.
Qed.

(** A text is split into its lines. *)
Lemma split_lines_spec bs : exists lines, split_lines bs = Ok lines /\ are_lines bs lines.
Proof.
  unfold split_lines. case_bool_decide as Hbs; [subst; exists []; split; [done|]; split; [done|]; exists [], []; auto|].
  destruct (split_lines_loop_spec [] [] bs []) as (lines & part & E & Ec & Hl & Hp); [done|done|apply not_elem_of_nil|].
  cbn [app length] in E, Ec. rewrite E, bind_Ok. cbn beta iota.
  destruct (Nat.ltb_spec (length (concat lines)) (length bs)).
  - rewrite (slice_tail (concat lines) part bs) by done. rewrite bind_Ok.
    eexists. split; [done|]. split; [rewrite concat_app; cbn; by rewrite app_nil_r|].
    exists lines, [part]. split; [done|]. split; [done|]. right. exists part. split; [done|]. split; [|done].
    intros ->. rewrite Ec, app_nil_r in *. lia.
  - exists lines. split; [done|]. rewrite Ec in *. rewrite length_app in *.
    assert (part = []) as -> by (apply length_zero_iff_nil; lia). split; [by rewrite app_nil_r|].
    exists lines, []. rewrite app_nil_r. auto.
Qed.

Lemma index_at_Ok {A} (l : list A) n : n < length l -> exists x, index_at l n = Ok x /\ l !! n = Some x.
Proof. intros [x Hx]%lookup_lt_is_Some_2. exists x. unfold index_at. by rewrite Hx. Qed.

Lemma take_S_snoc {A} (l : list A) n x : l !! n = Some x -> take (n + 1) l = take n l ++ [x].
Proof. rewrite Nat.add_1_r. apply take_S_r. Qed.

Lemma prefix_loop_spec fuel cur anc oth n :
  length cur <= fuel + n ->
  n <= length cur -> n <= length anc -> n <= length oth ->
  take n cur = take n anc -> take n anc = take n oth ->
  exists k, prefix_loop fuel cur anc oth n = Ok k /\ k <= length cur /\ k <= length anc /\
    k <= length oth /\ take k cur = take k anc /\ take k anc = take k oth /\
    ~ exists l, cur !! k = Some l /\ anc !! k = Some l /\ oth !! k = Some l.
Proof.
  revert n. induction fuel as [|fuel IH]; intros n Hf Hc Ha Ho E1 E2; cbn [prefix_loop];
    destruct (Nat.ltb_spec n (length cur)), (Nat.ltb_spec n (length anc)),
      (Nat.ltb_spec n (length oth)); cbn [andb];
    try (exists n; split_and!; [done|lia|lia|lia|done|done|];
      intros (l & ?%lookup_lt_Some & ?%lookup_lt_Some & ?%lookup_lt_Some); lia).
  all: destruct (index_at_Ok cur n) as (c & -> & Lc); [done|];
    destruct (index_at_Ok anc n) as (a & -> & La); [done|];
    destruct (index_at_Ok oth n) as (o & -> & Lo); [done|]; rewrite !bind_Ok.
  all: repeat case_bool_decide; cbn [andb];
    try (exists n; split_and!; [done|lia|lia|lia|done|done|]; intros (l & ? & ? & ?); congruence).
  all: try lia.
  apply IH; try lia; subst; erewrite !take_S_snoc by eassumption; congruence.
Qed.

Lemma drop_pred {A} (l : list A) n x :
  n < length l -> l !! (length l - n - 1) = Some x ->
  drop (length l - (n + 1)) l = x :: drop (length l - n) l.
Proof.
  intros Hn Hx. rewrite (drop_S l x (length l - (n + 1)));
    [|by replace (length l - (n + 1)) with (length l - n - 1) by lia].
  f_equal. f_equal. lia.
Qed.

Lemma suffix_loop_spec fuel cur anc oth p n :
  length cur <= fuel + p + n ->
  p + n <= length cur -> p + n <= length anc -> p + n <= length oth ->
  drop (length cur - n) cur = drop (length anc - n) anc ->
  drop (length anc - n) anc = drop (length oth - n) oth ->
  exists k, suffix_loop fuel cur anc oth p n = Ok k /\ p + k <= length cur /\
    p + k <= length anc /\ p + k <= length oth /\
    drop (length cur - k) cur = drop (length anc - k) anc /\
    drop (length anc - k) anc = drop (length oth - k) oth /\
    (p + k < length cur -> p + k < length anc -> p + k < length oth ->
      ~ exists l, cur !! (length cur - k - 1) = Some l /\ anc !! (length anc - k - 1) = Some l /\
          oth !! (length oth - k - 1) = Some l).
Proof.
  revert n. induction fuel as [|fuel IH]; intros n Hf Hc Ha Ho E1 E2; cbn [suffix_loop];
    destruct (Nat.ltb_spec (p + n) (length cur)), (Nat.ltb_spec (p + n) (length anc)),
      (Nat.ltb_spec (p + n) (length oth)); cbn [andb];
    try (exists n; split_and!; [done|lia|lia|lia|done|done|lia]).
  all: destruct (index_at_Ok cur (length cur - n - 1)) as (c & -> & Lc); [lia|];
    destruct (index_at_Ok anc (length anc - n - 1)) as (a & -> & La); [lia|];
    destruct (index_at_Ok oth (length oth - n - 1)) as (o & -> & Lo); [lia|]; rewrite !bind_Ok.
  all: repeat case_bool_decide; cbn [andb];
    try (exists n; split_and!; [done|lia|lia|lia|done|done|]; intros _ _ _ (l & ? & ? & ?); congruence).
  all: try lia.
  apply IH; try lia; subst; erewrite !drop_pred by (eassumption || lia); congruence.
Qed.

(** The three texts around a common prefix and suffix of lines. *)
Lemma split_three {A} (l : list A) p s :
  p + s <= length l ->
  l = take p l ++ take (length l - s - p) (drop p l) ++ drop (length l - s) l.
Proof.
  intros H. rewrite <- (take_drop p l) at 1. f_equal.
  rewrite <- (take_drop (length l - s - p) (drop p l)) at 1. f_equal.
  rewrite drop_drop. f_equal. lia.
Qed.

(** The parts of two texts after a common prefix of lines and before a common suffix. *)
Lemma part_lookup {A} (l hd mid tl : list A) p s : l = hd ++ mid ++ tl -> length hd = p -> length tl = s ->
  l !! p = head (mid ++ tl) /\ (forall x, last mid = Some x -> p + s < length l /\ l !! (length l - s - 1) = Some x).
Proof.
  intros -> <- <-. split.
  - rewrite lookup_app_r, Nat.sub_diag by lia. by destruct (mid ++ tl).
  - intros x Hx. destruct mid as [|y mid _] using rev_ind; [done|]. rewrite last_snoc in Hx. injection Hx as ->.
    rewrite !length_app. cbn [length]. split; [lia|]. rewrite lookup_app_r by lia. rewrite lookup_app_l by (rewrite length_app; cbn; lia).
    apply list_lookup_middle. lia.
Qed.

(** The three texts share the lines in front and at the end, as many in front as they can, then as many at the end as what
    is left allows. *)
Definition conflict_of (current ancestor other : bytes) (hd c a o tl : list bytes) : Prop :=
  are_lines current (hd ++ c ++ tl) /\ are_lines ancestor (hd ++ a ++ tl) /\ are_lines other (hd ++ o ++ tl) /\
  (~ exists l, head (c ++ tl) = Some l /\ head (a ++ tl) = Some l /\ head (o ++ tl) = Some l) /\
  (~ exists l, last c = Some l /\ last a = Some l /\ last o = Some l).

Lemma merge_file_cases current ancestor other labels :
  exists r, merge_file current ancestor other labels = Ok r /\
  ((current = other \/ other = ancestor) /\ r = MkMergeFileResult current 0 \/
   current <> other /\ current = ancestor /\ r = MkMergeFileResult other 0 \/
   current <> other /\ current <> ancestor /\ other <> ancestor /\
   exists hd c a o tl, conflict_of current ancestor other hd c a o tl /\
     r = MkMergeFileResult
           (concat hd ++ bstr "<<<<<<< " ++ label_current labels ++ [Byte.x0a] ++ concat c ++
            bstr "=======" ++ [Byte.x0a] ++ concat o ++
            bstr ">>>>>>> " ++ label_other labels ++ [Byte.x0a] ++ concat tl) 1).
Proof.
  unfold merge_file. case_bool_decide as H1; [eexists; split; [done|]; naive_solver|].
  case_bool_decide as H2; [eexists; split; [done|]; naive_solver|].
  case_bool_decide as H3; [eexists; split; [done|]; naive_solver|].
  destruct (split_lines_spec current) as (cur & -> & Lc).
  destruct (split_lines_spec ancestor) as (anc & -> & La).
  destruct (split_lines_spec other) as (oth & -> & Lo). rewrite !bind_Ok.
  destruct (prefix_loop_spec (length cur) cur anc oth 0) as (p & -> & Pc & Pa & Po & Pca & Pao & Pmax);
    [lia..|done|done|]. rewrite bind_Ok.
  destruct (suffix_loop_spec (length cur) cur anc oth p 0) as (s & -> & Sc & Sa & So & Sca & Sao & Smax);
    [lia..|by rewrite !Nat.sub_0_r, !drop_all|by rewrite !Nat.sub_0_r, !drop_all|].
  rewrite bind_Ok.
  pose proof (split_three cur p s Sc) as Dc. pose proof (split_three anc p s Sa) as Da.
  pose proof (split_three oth p s So) as Do.
  rewrite (slice_eq cur p (length cur - s)), (slice_eq anc p (length anc - s)),
    (slice_eq oth p (length oth - s)), !bind_Ok by lia.
  rewrite slice_take, bind_Ok, slice_from by lia.
  assert (Hhd : length (take p cur) = p) by (rewrite length_take; lia).
  assert (Htl : length (drop (length cur - s) cur) = s) by (rewrite length_drop; lia).
  set (mc := take _ (drop p cur)) in *. set (ma := take _ (drop p anc)) in *.
  set (mo := take _ (drop p oth)) in *.
  rewrite <- Pca in Da. rewrite <- Pao, <- Pca in Do. rewrite <- Sca in Da.
  rewrite <- Sao, <- Sca in Do.
  set (hd := take p cur) in *. set (tl := drop _ cur) in *. clearbody mc ma mo hd tl.
  destruct (part_lookup _ _ _ _ _ _ Dc Hhd Htl) as [Xc Yc]. destruct (part_lookup _ _ _ _ _ _ Da Hhd Htl) as [Xa Ya].
  destruct (part_lookup _ _ _ _ _ _ Do Hhd Htl) as [Xo Yo]. rewrite Xc, Xa, Xo in Pmax.
  assert (Hend : ~ exists l, last mc = Some l /\ last ma = Some l /\ last mo = Some l).
  { intros (l & [? Gc]%Yc & [? Ga]%Ya & [? Go]%Yo). apply Smax; [done..|]. by exists l. }
  rewrite Dc in Lc. rewrite Da in La. rewrite Do in Lo. pose proof Lc as [Ec _]. pose proof La as [Ea _]. pose proof Lo as [Eo _].
  rewrite !bool_decide_false by congruence. cbn [orb]. rewrite bind_Ok.
  eexists. split; [done|]. right. right. split_and!; [done..|].
  exists hd, mc, ma, mo, tl. split; [done|].
  f_equal. unfold append_conflict. rewrite !append_lines_concat. solve_app.
Qed.

(** C36: [merge_file] never panics and always terminates.  It reports no conflict exactly when
    two of the three contents agree, and then returns the side that changed (or the common
    content); otherwise it reports one conflict, with the lines of the two sides between the
    markers that are left of the three contents after the longest common prefix of lines and,
    of what remains, the longest common suffix. *)
Theorem merge_file_spec current ancestor other labels :
  exists r, merge_file current ancestor other labels = Ok r /\
  ((current = other \/ other = ancestor) /\ r = MkMergeFileResult current 0 \/
   current <> other /\ current = ancestor /\ r = MkMergeFileResult other 0 \/
   current <> other /\ current <> ancestor /\ other <> ancestor /\
   exists hd c a o tl, conflict_of current ancestor other hd c a o tl /\
     r = MkMergeFileResult
           (concat hd ++ bstr "<<<<<<< " ++ label_current labels ++ [Byte.x0a] ++ concat c ++
            bstr "=======" ++ [Byte.x0a] ++ concat o ++
            bstr ">>>>>>> " ++ label_other labels ++ [Byte.x0a] ++ concat tl) 1).
Proof. apply merge_file_cases. Qed.

(** The second chance at resolving (the comparison of the middle parts) never applies: a
    merge of three pairwise different contents is always a conflict, even when the two sides
    changed different lines. *)
Theorem merge_file_never_combines current ancestor other labels r :
  merge_file current ancestor other labels = Ok r ->
  mf_conflicts r = 0 -> mf_content r = current \/ mf_content r = other.
Proof.
  intros E H. destruct (merge_file_cases current ancestor other labels) as (r' & E' & Hr).
  assert (r' = r) as -> by congruence.
  destruct Hr as [[_ ->]|[(_ & _ & ->)|(_ & _ & _ & hd & c & a & o & tl & _ & ->)]];
    [by left|by right|done].
Qed.

Definition sample_labels : MergeFileLabels :=
  MkMergeFileLabels (bstr "ours") (bstr "base") (bstr "theirs").

Definition lines_of (ls : list string) : bytes := concat ((fun l => bstr l ++ [Byte.x0a]) <$> ls).

Lemma merge_file_never_combines_witness :
  exists r, merge_file (lines_of ["a"; "b"]) (lines_of ["a"; "b"]) (lines_of ["a"; "c"]) sample_labels
            = Ok r /\ (mf_content r = lines_of ["a"; "b"] \/ mf_content r = lines_of ["a"; "c"]).
Proof.
  eexists. split; [vm_compute; reflexivity|].
  eapply (merge_file_never_combines (lines_of ["a"; "b"]) (lines_of ["a"; "b"])
    (lines_of ["a"; "c"]) sample_labels); [vm_compute; reflexivity|reflexivity].
Defined.

(** The two sides changed different lines (the first and the last): a conflict, not the
    combination of the changes. *)
Example merge_file_distinct_lines :
  mf_conflicts <$> merge_file (lines_of ["A"; "b"; "c"]) (lines_of ["a"; "b"; "c"])
                     (lines_of ["a"; "b"; "C"]) sample_labels = Ok 1.
Proof. vm_compute. reflexivity. Qed.

(** A side without a final newline is glued to the marker that follows it. *)
Example merge_file_glued_marker :
  merge_file (bstr "x") (bstr "a") (bstr "y") sample_labels
  = Ok (MkMergeFileResult (lines_of ["<<<<<<< ours"; "x======="; "y>>>>>>> theirs"]) 1).
Proof. vm_compute. reflexivity. Qed.
