(* ===== verification/Text.v ===== *)
(** * Text: UTF-8 validation, integer parsing and header lines

    What the crate uses of [std::str::from_utf8], [String::from_utf8_lossy] and
    [u32::from_str_radix], and the lemmas on texts made of lines. *)
From S2P Require Import Prelude.

(** ** UTF-8 *)

Definition in_range (lo hi : N) (b : byte) : bool := ((lo <=? u8 b) && (u8 b <=? hi))%N.

Definition is_cont (b : byte) : bool := in_range 128 191 b.

(** One step of the standard library's decoder: [inl n] is a character of [n] bytes, [inr n] an
    invalid sequence of [n] bytes. *)
Definition utf8_next (b : byte) (rest : bytes) : nat + nat :=
  if (u8 b <? 128)%N then inl 1
  else if in_range 194 223 b then
    match rest with
    | c :: _ => if is_cont c then inl 2 else inr 1
    | [] => inr 1
    end
  else if in_range 224 239 b then
    match rest with
    | [] => inr 1
    | c :: rest =>
        let ok := if (u8 b =? 224)%N then in_range 160 191 c
                  else if (u8 b =? 237)%N then in_range 128 159 c
                  else is_cont c in
        if ok then
          match rest with
          | d :: _ => if is_cont d then inl 3 else inr 2
          | [] => inr 2
          end
        else inr 1
    end
  else if in_range 240 244 b then
    match rest with
    | [] => inr 1
    | c :: rest =>
        let ok := if (u8 b =? 240)%N then in_range 144 191 c
                  else if (u8 b =? 244)%N then in_range 128 143 c
                  else is_cont c in
        if ok then
          match rest with
          | [] => inr 2
          | d :: rest =>
              if is_cont d then
                match rest with
                | e :: _ => if is_cont e then inl 4 else inr 3
                | [] => inr 3
                end
              else inr 2
          end
        else inr 1
    end
  else inr 1.

Fixpoint utf8_valid_loop (fuel : nat) (l : bytes) : bool :=
  match l with
  | [] => true
  | b :: rest =>
      match fuel with
      | 0 => false
      | S fuel =>
          match utf8_next b rest with
          | inl n => utf8_valid_loop fuel (drop n l)
          | inr _ => false
          end
      end
  end.

(** [std::str::from_utf8(..).is_ok()]. *)
Definition utf8_valid (l : bytes) : bool := utf8_valid_loop (length l) l.

(** U+FFFD. *)
Definition replacement : bytes := [Byte.xef; Byte.xbf; Byte.xbd].

Fixpoint lossy_loop (fuel : nat) (l : bytes) : bytes :=
  match l with
  | [] => []
  | b :: rest =>
      match fuel with
      | 0 => []
      | S fuel =>
          match utf8_next b rest with
          | inl n => take n l ++ lossy_loop fuel (drop n l)
          | inr n => replacement ++ lossy_loop fuel (drop n l)
          end
      end
  end.

(** [String::from_utf8_lossy]. *)
Definition from_utf8_lossy (l : bytes) : bytes := lossy_loop (length l) l.

(** ** Integers *)

(** The digits of [u32::from_str_radix(.., 8)], with its overflow check. *)
Fixpoint octal_loop (bs : bytes) (value : N) : option N :=
  match bs with
  | [] => Some value
  | b :: bs =>
      if in_range 48 55 b then
        let value := (value * 8 + (u8 b - 48))%N in
        if (value <? 2 ^ 32)%N then octal_loop bs value else None
      else None
  end.

(** [u32::from_str_radix(text, 8).ok()]: a leading plus sign is accepted, a lone sign and the
    empty text are not. *)
Definition u32_from_octal (bs : bytes) : option N :=
  match bs with
  | [] => None
  | [c] => if byte_is "+"%byte c || byte_is "-"%byte c then None else octal_loop bs 0
  | c :: rest => if byte_is "+"%byte c then octal_loop rest 0 else octal_loop bs 0
  end.

(** ** Lemmas *)

Lemma utf8_next_inl b rest n : utf8_next b rest = inl n -> 0 < n <= S (length rest).
Proof.
  unfold utf8_next.
  repeat match goal with
  | |- context [if ?c then _ else _] => destruct c
  | |- context [match rest with _ => _ end] => destruct rest as [|? rest]
  | |- context [match ?l with _ => _ end] => is_var l; destruct l
  end; intros [= <-]; cbn; lia.
Qed.

Lemma lossy_valid l : utf8_valid l = true -> from_utf8_lossy l = l.
Proof.
  unfold utf8_valid, from_utf8_lossy. generalize (length l). intros fuel.
  revert l. induction fuel as [|fuel IH]; intros [|b l] H; cbn in *; [done..|].
  destruct (utf8_next b l) as [n|n] eqn:E; [|done].
  by rewrite IH, take_drop.
Qed.

Lemma utf8_valid_ascii l : Forall (fun b => (u8 b < 128)%N) l -> utf8_valid l = true.
Proof.
  unfold utf8_valid. intros H. induction H as [|b l Hb _ IH]; [done|]. cbn.
  unfold utf8_next. rewrite (proj2 (N.ltb_lt _ _)) by done. exact IH.
Qed.

(** ** Lines *)

(** Splitting a joined list of pieces gives the pieces. *)
Lemma split_on_piece c p : contains_byte c p = false -> split_on c p = [p].
Proof.
  induction p as [|b p IH]; [done|]. intros H. cbn [contains_byte existsb] in H. apply orb_false_iff in H as [Hb H].
  cbn [split_on]. rewrite IH by done. unfold byte_is in Hb. by rewrite Hb.
Qed.

Lemma split_on_app c p l :
  contains_byte c p = false -> split_on c (p ++ c :: l) = p :: split_on c l.
Proof.
  induction p as [|b p IH]; intros H; cbn [split_on app]; [by rewrite byte_eqb_refl|].
  cbn [contains_byte existsb] in H. apply orb_false_iff in H as [Hb H]. unfold byte_is in Hb. by rewrite Hb, IH.
Qed.

Lemma split_on_join c ps :
  ps <> [] -> Forall (fun p => contains_byte c p = false) ps -> split_on c (join_with c ps) = ps.
Proof.
  intros Hne H. induction H as [|p ps Hp Hps IH]; [done|].
  destruct ps as [|q ps]; [by apply split_on_piece|].
  change (join_with c (p :: q :: ps)) with (p ++ c :: join_with c (q :: ps)).
  rewrite split_on_app by done. by rewrite IH.
Qed.

Lemma split_on_nonempty c l : split_on c l <> [].
Proof.
  induction l as [|b l IH]; cbn [split_on]; [done|]. destruct (Byte.eqb b c); [done|].
  by destruct (split_on c l).
Qed.

(** [join_with] is a left inverse of [split_on]. *)
Lemma join_split_on c l : join_with c (split_on c l) = l.
Proof.
  induction l as [|b l IH]; [done|]. cbn [split_on]. destruct (byte_eqb_spec b c) as [->|Hb].
  - pose proof (split_on_nonempty c l). destruct (split_on c l) as [|p ps]; [done|].
    cbn. cbn in IH. by rewrite IH.
  - pose proof (split_on_nonempty c l). destruct (split_on c l) as [|p ps]; [done|].
    destruct ps; cbn in *; by rewrite IH.
Qed.

Lemma split_on_Forall c l : Forall (fun p => contains_byte c p = false) (split_on c l).
Proof.
  induction l as [|b l IH]; cbn [split_on]; [by repeat constructor|].
  destruct (Byte.eqb b c) eqn:E; [by constructor|].
  destruct (split_on c l) as [|p ps]; [constructor; [|done]; cbn [contains_byte existsb]; unfold byte_is; by rewrite E|].
  apply Forall_cons in IH as [Hp Hps]. constructor; [|done]. cbn [contains_byte existsb]. unfold byte_is at 1. by rewrite E.
Qed.

Definition nl : byte := Byte.x0a.
Definition blank_line : bytes := [nl; nl].

(** Lines of a header: not empty, no line break inside. *)
Definition header_line (l : bytes) : Prop := l <> [] /\ contains_byte nl l = false.

Lemma starts_with_blank b r :
  Byte.eqb b nl = false -> starts_with blank_line (b :: r) = false.
Proof.
  intros E. unfold starts_with, blank_line. cbn [strip_prefix].
  rewrite byte_eqb_sym, E. done.
Qed.

Lemma find_blank_skip p r :
  contains_byte nl p = false ->
  find_subslice blank_line (p ++ r) = Nat.add (length p) <$> find_subslice blank_line r.
Proof.
  induction p as [|b p IH]; intros H.
  - cbn [app length]. by destruct (find_subslice blank_line r).
  - cbn [contains_byte existsb] in H. apply orb_false_iff in H as [Hb H]. unfold byte_is in Hb.
    cbn [app length find_subslice]. rewrite starts_with_blank by done.
    rewrite IH by done. by destruct (find_subslice blank_line r).
Qed.

(** The first blank line after header lines is the one that ends them. *)
Lemma find_header_end ls r :
  ls <> [] -> Forall header_line ls ->
  find_subslice blank_line (join_with nl ls ++ blank_line ++ r) = Some (length (join_with nl ls)).
Proof.
  intros Hne H. induction H as [|l ls [Hl Hc] Hls IH]; [done|].
  destruct ls as [|l2 ls].
  - cbn [join_with]. rewrite find_blank_skip by done. cbn. f_equal. lia.
  - change (join_with nl (l :: l2 :: ls)) with (l ++ nl :: join_with nl (l2 :: ls)).
    rewrite <- app_assoc, find_blank_skip by done.
    apply Forall_inv in Hls as [Hl2 Hc2].
    assert (exists b t, join_with nl (l2 :: ls) ++ blank_line ++ r = b :: t /\ Byte.eqb nl b = false)
      as (b & t & E & Eb).
    { destruct l2 as [|b l2]; [done|]. cbn [contains_byte existsb] in Hc2. apply orb_false_iff in Hc2 as [Hb _].
      unfold byte_is in Hb. exists b.
      destruct ls; eexists; (split; [reflexivity|by rewrite byte_eqb_sym]). }
    cbn [app]. cbn [find_subslice]. unfold starts_with at 1, blank_line at 1. cbn [strip_prefix].
    rewrite E, byte_eqb_refl, Eb. rewrite <- E. rewrite IH by done.
    rewrite length_app. cbn. reflexivity.
Qed.

Lemma find_subslice_Some needle l i :
  find_subslice needle l = Some i -> i + length needle <= length l.
Proof.
  revert i. induction l as [|b l IH]; intros i; cbn [find_subslice].
  - destruct (starts_with needle []) eqn:E; [|done].
    apply starts_with_spec, prefix_length in E. cbn in *. intros [= <-]. lia.
  - destruct (starts_with needle (b :: l)) eqn:E.
    + apply starts_with_spec, prefix_length in E. intros [= <-]. lia.
    + intros (j & Hj & ->)%fmap_Some. apply IH in Hj. cbn. lia.
Qed.

(** ** Lines and trimming *)

(** [trim_end_matches] of a byte. *)
Fixpoint trim_start_byte (c : byte) (l : bytes) : bytes :=
  match l with
  | [] => []
  | b :: l' => if byte_is c b then trim_start_byte c l' else l
  end.

Definition trim_end_byte (c : byte) (l : bytes) : bytes := rev (trim_start_byte c (rev l)).

(** What [read_line] gives: the text up to a line feed, and whether there was one. *)
Definition raw_lines (content : bytes) : list (bytes * bool) :=
  let pieces := split_on nl content in
  map (fun piece => (piece, true)) (removelast pieces) ++
  match last pieces with
  | Some piece => if bool_decide (piece = []) then [] else [(piece, false)]
  | None => []
  end.

Definition chomp (raw : bytes * bool) : bytes :=
  let '(line, terminated) := raw in
  if terminated && ends_with [Byte.x0d] line then removelast line else line.

(** [str::lines]. *)
Definition str_lines (content : bytes) : list bytes := map chomp (raw_lines content).

(** [replace] of backslashes by slashes. *)
Definition forward_slashes (l : bytes) : bytes := map (fun b => if byte_is "\"%byte b then "/"%byte else b) l.

Lemma trim_end_keep c l : c ∉ l -> trim_end_byte c (l ++ [c]) = l.
Proof.
  intros Hc. unfold trim_end_byte. rewrite rev_app_distr. cbn [rev app trim_start_byte].
  unfold byte_is. rewrite byte_eqb_refl. destruct (rev l) as [|b r] eqn:E; [by apply (f_equal (@rev _)) in E; rewrite rev_involutive in E|].
  cbn [trim_start_byte]. unfold byte_is. destruct (byte_eqb_spec b c) as [->|_].
  - destruct Hc. rewrite <- (rev_involutive l), E. cbn. apply elem_of_app. right. by left.
  - by rewrite <- E, rev_involutive.
Qed.

Lemma join_with_cons c p q ps : join_with c (p :: q :: ps) = p ++ c :: join_with c (q :: ps).
Proof. done. Qed.

Lemma elem_of_join c ps b : b ∈ join_with c ps -> b = c \/ exists p, p ∈ ps /\ b ∈ p.
Proof.
  induction ps as [|p ps IH]; [by intros ?%elem_of_nil|]. destruct ps as [|q ps].
  - intros Hb. right. exists p. split; [by left|done].
  - rewrite join_with_cons, elem_of_app, elem_of_cons. intros [Hb|[->|Hb]]; [|by left|].
    + right. exists p. split; [by left|done].
    + destruct (IH Hb) as [?|(p' & Hin & Hb')]; [by left|]. right. exists p'. split; [by right|done].
Qed.

Lemma elem_of_join_2 c ps p b : p ∈ ps -> b ∈ p -> b ∈ join_with c ps.
Proof.
  induction ps as [|p' ps IH]; [by intros ?%elem_of_nil|]. intros Hin Hb. destruct ps as [|q ps].
  - apply elem_of_cons in Hin as [->|Hin%elem_of_nil]; done.
  - rewrite join_with_cons, elem_of_app, elem_of_cons. apply elem_of_cons in Hin as [->|Hin]; [by left|]. right. right. by apply IH.
Qed.
