(* ===== verification/Store.v ===== *)
(** * Object stores: the interface of its clients and the store in memory
      (zmin-git-core/src/object_store.rs) *)
From S2P Require Import Prelude Object Order TreeCodec.

(** ** Data *)

(** [LooseObject] of loose.rs. *)
Record LooseObject : Set := MkLooseObject {
  lo_id : ObjectId;
  lo_kind : GitObjectKind;
  lo_content : bytes
}.

#[export] Instance LooseObject_eq_dec : EqDecision LooseObject.
Proof. solve_decision. Defined.

(** ** The traits *)

(** [GitObjectStore]: the reading operations the clients of this development call. *)
Class GitObjectStore (S : Type) : Type := {
  read_object : S -> ObjectId -> outcome LooseObject;
  object_kind_hint : S -> ObjectId -> outcome (option GitObjectKind);
  object_id_capacity_hint : S -> outcome nat
}.

(** [GitObjectSink]: writing threads the store, which the code mutates behind a lock. *)
Class GitObjectSink (S : Type) : Type :=
  write_object : S -> GitObjectKind -> bytes -> outcome (S * ObjectId).

(** What a client may rely on, for the well-formed ids and the states the invariant describes: an
    object is returned under the id it was asked for, and the kind hint, where there is one, is
    the kind of the object. *)
Class StoreLaws (St : Type) `{GitObjectStore St} (inv : St -> Prop) : Prop := {
  read_object_id : forall s i o,
    inv s -> ObjectId_wf i -> read_object s i = Ok o -> lo_id o = i;
  read_object_safe : forall s i, inv s -> safe (read_object s i);
  kind_hint_safe : forall s i, inv s -> safe (object_kind_hint s i);
  capacity_hint_safe : forall s, inv s -> safe (object_id_capacity_hint s);
  kind_hint_agrees : forall s i k o, inv s ->
    object_kind_hint s i = Ok (Some k) -> read_object s i = Ok o -> lo_kind o = k
}.

(** The default methods of the traits. *)
Definition contains_object `{GitObjectStore St} (s : St) (i : ObjectId) : outcome bool :=
  match read_object s i with
  | Ok _ => Ok true
  | Err e => if bool_decide (err_kind e = NotFound) then Ok false else Err e
  | Panic => Panic
  | NoFuel => NoFuel
  end.

Definition read_tree_refs `{GitObjectStore St} (s : St) (i : ObjectId)
  : outcome (list TreeObjectRef) :=
  object ← read_object s i;
  _ ← check (negb (bool_decide (lo_kind object = Tree))) InvalidData "object is not a tree";
  decode_tree_object_refs (algorithm i) (lo_content object).

(** [write_streamed_blob_content]: the closure is the outcome of what it wrote to the vector. *)
Definition write_streamed_blob_content `{GitObjectSink St} (s : St) (size : nat)
    (write_content : outcome bytes) : outcome (St * ObjectId) :=
  content ← write_content;
  _ ← check (negb (length content =? size)) UnexpectedEof
        "blob stream ended before declared size";
  write_object s Blob content.

(** ** The store in memory *)

Record InMemoryObjectStore : Set := MkInMemory {
  mem_algorithm : GitHashAlgorithm;
  mem_objects : list (bytes * LooseObject)
}.

Definition in_memory_new (a : GitHashAlgorithm) : InMemoryObjectStore := MkInMemory a [].

Definition in_memory_read_object (s : InMemoryObjectStore) (i : ObjectId) : outcome LooseObject :=
  _ ← check (negb (bool_decide (algorithm i = mem_algorithm s))) InvalidInput
        "object id algorithm does not match store";
  ok_or (bt_get cmp_bytes (as_bytes i) (mem_objects s)) NotFound "git object not found".

Definition in_memory_object_count (s : InMemoryObjectStore) : nat := length (mem_objects s).

(** [for_each_object_id]: in the order of the map; the callback threads a state. *)
Definition in_memory_for_each_object_id {A} (s : InMemoryObjectStore)
    (for_each : A -> ObjectId -> outcome A) (acc : A) : outcome A :=
  fold_left (fun r p => acc ← r; for_each acc (lo_id p.2)) (mem_objects s) (Ok acc).

Definition in_memory_append_object_ids (s : InMemoryObjectStore) (ids : list ObjectId)
  : outcome (list ObjectId) :=
  in_memory_for_each_object_id s (fun ids i => Ok (ids ++ [i])) ids.

Definition in_memory_object_ids (s : InMemoryObjectStore) : outcome (list ObjectId) :=
  match in_memory_append_object_ids s [] with
  | Err _ => Panic
  | r => r
  end.

Definition in_memory_object_kind_hint (s : InMemoryObjectStore) (i : ObjectId)
  : outcome (option GitObjectKind) :=
  _ ← check (negb (bool_decide (algorithm i = mem_algorithm s))) InvalidInput
        "object id algorithm does not match store";
  Ok (lo_kind <$> bt_get cmp_bytes (as_bytes i) (mem_objects s)).

Definition in_memory_object_header_hint (s : InMemoryObjectStore) (i : ObjectId)
  : outcome (option (GitObjectKind * nat)) :=
  _ ← check (negb (bool_decide (algorithm i = mem_algorithm s))) InvalidInput
        "object id algorithm does not match store";
  Ok ((fun o => (lo_kind o, length (lo_content o)))
        <$> bt_get cmp_bytes (as_bytes i) (mem_objects s)).

(** [entry(key).or_insert_with(..)]. *)
Definition or_insert (k : bytes) (o : LooseObject) (m : list (bytes * LooseObject))
  : list (bytes * LooseObject) :=
  if bt_contains cmp_bytes k m then m else bt_insert cmp_bytes k o m.

Definition in_memory_write_object `{Sha} (s : InMemoryObjectStore) (k : GitObjectKind)
    (content : bytes) : outcome (InMemoryObjectStore * ObjectId) :=
  i ← hash_object (mem_algorithm s) k content;
  let objects := or_insert (as_bytes i) (MkLooseObject i k content) (mem_objects s) in
  Ok (MkInMemory (mem_algorithm s) objects, i).

Definition in_memory_write_streamed_blob_content `{Sha} (s : InMemoryObjectStore) (size : nat)
    (write_content : outcome bytes) : outcome (InMemoryObjectStore * ObjectId) :=
  content ← write_content;
  _ ← check (negb (length content =? size)) UnexpectedEof
        "blob stream ended before declared size";
  i ← hash_object (mem_algorithm s) Blob content;
  let objects := or_insert (as_bytes i) (MkLooseObject i Blob content) (mem_objects s) in
  Ok (MkInMemory (mem_algorithm s) objects, i).

#[export] Instance in_memory_store : GitObjectStore InMemoryObjectStore := {
  read_object := in_memory_read_object;
  object_kind_hint := in_memory_object_kind_hint;
  object_id_capacity_hint s := Ok (in_memory_object_count s)
}.

#[export] Instance in_memory_sink `{Sha} : GitObjectSink InMemoryObjectStore :=
  in_memory_write_object.

(** ** The invariant *)

(** Every object is stored under its digest, of the store's algorithm, and its id is the hash of
    its content. *)
Definition stored_ok `{Sha} (a : GitHashAlgorithm) (p : bytes * LooseObject) : Prop :=
  p.1 = as_bytes (lo_id p.2) /\ algorithm (lo_id p.2) = a /\ ObjectId_wf (lo_id p.2) /\
  hash_object a (lo_kind p.2) (lo_content p.2) = Ok (lo_id p.2).

Definition in_memory_wf `{Sha} (s : InMemoryObjectStore) : Prop :=
  bt_sorted cmp_bytes (mem_objects s) /\ Forall (stored_ok (mem_algorithm s)) (mem_objects s).

Section in_memory.
Context `{ShaLaws}.
Implicit Types s : InMemoryObjectStore.

Lemma hash_object_wf a k content i :
  hash_object a k content = Ok i -> ObjectId_wf i /\ algorithm i = a.
Proof.
  unfold hash_object, update_header, hash_finalize. intros E. inv_ok.
  apply ObjectId_new_Ok in E as [Hl ->]. split; [by apply mk_id_wf|done].
Qed.

Lemma or_insert_get k o m k' :
  bt_get cmp_bytes k' (or_insert k o m)
  = match bt_get cmp_bytes k' m with
    | Some o' => Some o'
    | None => if bool_decide (k' = k) then Some o else None
    end.
Proof.
  unfold or_insert, bt_contains. destruct (bt_get cmp_bytes k m) eqn:E.
  - case_bool_decide; [subst; by rewrite E|]. by destruct (bt_get cmp_bytes k' m).
  - case_bool_decide as Hk.
    + subst. by rewrite (bt_get_insert_eq cmp_bytes), E.
    + rewrite (bt_get_insert_ne cmp_bytes) by done. by destruct (bt_get cmp_bytes k' m).
Qed.

Lemma in_memory_write_wf s k content s' i :
  in_memory_wf s -> in_memory_write_object s k content = Ok (s', i) -> in_memory_wf s'.
Proof.
  intros [Hs Hok] E. unfold in_memory_write_object in E. inv_ok.
  destruct (hash_object_wf _ _ _ _ E0) as [Hwf Ha].
  unfold in_memory_wf. cbn [mem_objects mem_algorithm]. unfold or_insert.
  destruct (bt_contains _ _ _); [done|]. split; [by apply (bt_insert_sorted cmp_bytes)|].
  apply (bt_insert_Forall cmp_bytes); [done|]. intros k' ->. done.
Qed.

Lemma in_memory_read_Ok s i o :
  in_memory_read_object s i = Ok o <->
  algorithm i = mem_algorithm s /\ bt_get cmp_bytes (as_bytes i) (mem_objects s) = Some o.
Proof.
  unfold in_memory_read_object. rewrite bind_check_Ok, negb_false_iff, bool_decide_eq_true.
  by rewrite ok_or_Ok.
Qed.

Lemma stored_lookup s i o :
  in_memory_wf s -> in_memory_read_object s i = Ok o ->
  (as_bytes i, o) ∈ mem_objects s /\ stored_ok (mem_algorithm s) (as_bytes i, o) /\
  algorithm i = mem_algorithm s.
Proof.
  intros [Hs Hok] [Ha Hg]%in_memory_read_Ok. apply (bt_get_elem cmp_bytes) in Hg; [|done].
  split; [done|]. rewrite Forall_forall in Hok. auto.
Qed.

#[export] Instance in_memory_laws : StoreLaws InMemoryObjectStore in_memory_wf.
Proof.
  split; cbn.
  - intros s i o Hwf Hi Hr. destruct (stored_lookup s i o Hwf Hr) as (_ & (Hk & Ha & Hw & _) & Hai).
    cbn in *. apply as_bytes_inj; congruence.
  - intros s i _. unfold in_memory_read_object. solve_safe.
  - intros s i _. unfold in_memory_object_kind_hint. solve_safe.
  - done.
  - intros s i k o _ Hk [Ha Hg]%in_memory_read_Ok. unfold in_memory_object_kind_hint in Hk.
    rewrite Hg in Hk. inv_ok. done.
Qed.

(** What a write changes: the id reads as the new object, unless it held one before. *)
Lemma in_memory_write_reads s k content s' i j :
  in_memory_wf s -> in_memory_write_object s k content = Ok (s', i) -> ObjectId_wf j ->
  in_memory_read_object s' j
  = match in_memory_read_object s j with
    | Ok o => Ok o
    | r => if bool_decide (j = i) then Ok (MkLooseObject i k content) else r
    end.
Proof.
  intros Hwf E Hj. unfold in_memory_write_object in E. inv_ok.
  destruct (hash_object_wf _ _ _ _ E0) as [Hi Ha]. unfold in_memory_read_object.
  cbn [mem_algorithm mem_objects]. case_bool_decide as Haj; cbn [negb check].
  - rewrite !bind_Ok, or_insert_get. destruct (bt_get cmp_bytes (as_bytes j) (mem_objects s)); [done|].
    cbn [ok_or]. rewrite (bool_decide_ext (as_bytes j = as_bytes i) (j = i)).
    + by case_bool_decide.
    + split; [|by intros ->]. intros Hb. apply as_bytes_inj; congruence.
  - rewrite bool_decide_false by congruence. done.
Qed.

(** Writing an object to the store in memory succeeds, keeps the invariant, returns the hash
    of the framed object; reading that id gives back the kind and the content, unless the store
    already held an object under the same id, which is then kept; no other id is affected. *)
Theorem in_memory_write_read s k content :
  in_memory_wf s -> (N.of_nat (length content) < usize_limit)%N ->
  exists s' i, in_memory_write_object s k content = Ok (s', i) /\ in_memory_wf s' /\
    hash_object (mem_algorithm s) k content = Ok i /\
    in_memory_read_object s' i
    = (match in_memory_read_object s i with
       | Ok old => Ok old
       | _ => Ok (MkLooseObject i k content)
       end) /\
    forall j, ObjectId_wf j -> j <> i -> in_memory_read_object s' j = in_memory_read_object s j.
Proof.
  intros Hwf Hn. destruct (hash_object_ok (mem_algorithm s) k content Hn) as (i & E & Hi & Ha).
  assert (Hw : exists s', in_memory_write_object s k content = Ok (s', i))
    by (unfold in_memory_write_object; rewrite E; eauto).
  destruct Hw as (s' & Hw). exists s', i. split; [done|]. split; [by eapply in_memory_write_wf|].
  split; [done|]. split.
  - rewrite (in_memory_write_reads s k content s' i i Hwf Hw Hi), (bool_decide_true (i = i)) by done.
    by destruct (in_memory_read_object s i).
  - intros j Hj Hne. rewrite (in_memory_write_reads s k content s' i j Hwf Hw Hj).
    rewrite bool_decide_false by done. by destruct (in_memory_read_object s j).
Qed.

Lemma append_ids_loop (m : list (bytes * LooseObject)) ids :
  fold_left (fun r p => acc ← r; Ok (acc ++ [lo_id p.2])) m (Ok ids)
  = Ok (ids ++ ((fun p : bytes * LooseObject => lo_id p.2) <$> m)).
Proof.
  revert ids. induction m as [|p m IH]; intros ids; cbn [fold_left]; [by rewrite app_nil_r|].
  rewrite bind_Ok, IH. cbn. by rewrite <- app_assoc.
Qed.

(** [object_ids] lists exactly the ids that can be read, without repetition, in the order of
    their digests. *)
Theorem in_memory_object_ids_spec s :
  in_memory_wf s ->
  exists ids, in_memory_object_ids s = Ok ids /\ strictly_sorted as_bytes cmp_bytes ids /\
    forall i, ObjectId_wf i -> i ∈ ids <-> exists o, in_memory_read_object s i = Ok o.
Proof.
  intros Hwf. pose proof Hwf as [Hs Hok].
  exists ((fun p => lo_id p.2) <$> mem_objects s). split_and!.
  - unfold in_memory_object_ids, in_memory_append_object_ids, in_memory_for_each_object_id.
    by rewrite append_ids_loop.
  - unfold bt_sorted, strictly_sorted in *. revert Hok. induction Hs as [|p m _ IH Hp];
      intros Hok; cbn; [constructor|]. apply Forall_cons in Hok as [[Ep _] Hok].
    constructor; [by apply IH|]. apply Forall_fmap. rewrite Forall_forall in Hp, Hok |- *.
    intros q Hq. cbn. destruct (Hok q Hq) as [Eq _]. rewrite <- Ep, <- Eq. by apply Hp.
  - intros i Hi. rewrite list_elem_of_fmap. split.
    + intros ([k o] & -> & Hin). rewrite Forall_forall in Hok. destruct (Hok _ Hin) as (Ek & Ea & _).
      cbn in *. exists o. apply in_memory_read_Ok. split; [done|]. rewrite <- Ek.
      by apply (bt_get_elem cmp_bytes).
    + intros [o Ho]. exists (as_bytes i, o). cbn.
      split; [symmetry; by apply (read_object_id (inv := in_memory_wf) s)|].
      by apply stored_lookup.
Qed.
End in_memory.

(** ** Witnesses *)

#[local] Existing Instances sample_sha sample_sha_laws.

Definition sample_store : InMemoryObjectStore := MkInMemory Sha1 [].

Lemma sample_store_wf : in_memory_wf sample_store.
Proof. split; constructor. Qed.

Lemma in_memory_write_read_witness :
  exists s' i, in_memory_write_object sample_store Blob (bstr "hi") = Ok (s', i) /\
    in_memory_read_object s' i = Ok (MkLooseObject i Blob (bstr "hi")).
Proof.
  destruct (in_memory_write_read sample_store Blob (bstr "hi") sample_store_wf)
    as (s' & i & E & _ & _ & Hr & _); [vm_compute; reflexivity|].
  exists s', i. split; [exact E|]. rewrite Hr. vm_compute in E. injection E as <- <-. reflexivity.
Defined.

Lemma in_memory_object_ids_spec_witness :
  exists ids, in_memory_object_ids sample_store = Ok ids /\ strictly_sorted as_bytes cmp_bytes ids.
Proof.
  destruct (in_memory_object_ids_spec sample_store sample_store_wf) as (ids & E & Hs & _).
  exists ids. split; [exact E|exact Hs].
Defined.
