(* ===== verification/Commit.v ===== *)
(** * Commits: signatures, encoding, decoding and the cache of decoded commits
      (zmin-git-core/src/commit.rs) *)
From S2P Require Import Prelude Digits Object Text Store.

(** ** Data *)

Record CommitObject : Set := MkCommitObject {
  co_tree : ObjectId;
  co_parents : list ObjectId;
  co_author : bytes;
  co_committer : bytes;
  co_message : bytes
}.

Record CommitLinks : Set := MkCommitLinks {
  cl_tree : ObjectId;
  cl_parents : list ObjectId
}.

(** The strings are their UTF-8 bytes; the timestamp is an [i64]. *)
Record Signature : Set := MkSignature {
  sig_name : bytes;
  sig_email : bytes;
  sig_timestamp : Z;
  sig_timezone : bytes
}.

#[export] Instance CommitObject_eq_dec : EqDecision CommitObject.
Proof. solve_decision. Defined.
#[export] Instance CommitLinks_eq_dec : EqDecision CommitLinks.
Proof. solve_decision. Defined.

(** ** Signatures *)

Definition validate_signature_field (value : bytes) (label : string) : outcome unit :=
  check (bool_decide (value = []) || contains_byte nl value || contains_byte "<"%byte value
         || contains_byte ">"%byte value) InvalidInput (label +:+ " contains invalid characters").

Definition is_ascii_digit (b : byte) : bool := in_range 48 57 b.

Definition validate_timezone (value : bytes) : outcome unit :=
  bad ← (if negb (length value =? 5) then Ok true
         else c ← index_at value 0; Ok (negb (byte_is "+"%byte c) && negb (byte_is "-"%byte c)));
  _ ← check bad InvalidInput "timezone must use +/-HHMM";
  rest ← slice value 1 (length value);
  check (negb (forallb is_ascii_digit rest)) InvalidInput "timezone must use numeric +/-HHMM".

(** [Signature::new]. *)
Definition Signature_new (name email : bytes) (timestamp : Z) (timezone : bytes)
  : outcome Signature :=
  _ ← validate_signature_field name "signature name";
  _ ← validate_signature_field email "signature email";
  _ ← validate_timezone timezone;
  Ok (MkSignature name email timestamp timezone).

Definition write_decimal_u64 (out : bytes) (value : N) : outcome bytes :=
  d ← render 10 20 value;
  Ok (out ++ d).

Definition write_decimal_i64 (out : bytes) (value : Z) : outcome bytes :=
  if (value <? 0)%Z then write_decimal_u64 (out ++ bstr "-") (Z.abs_N value)
  else write_decimal_u64 out (Z.to_N value).

(** [Signature::write_to]. *)
Definition write_to (s : Signature) (out : bytes) : outcome bytes :=
  let out := out ++ sig_name s in
  let out := out ++ bstr " <" in
  let out := out ++ sig_email s in
  let out := out ++ bstr "> " in
  out ← write_decimal_i64 out (sig_timestamp s);
  let out := out ++ bstr " " in
  Ok (out ++ sig_timezone s).

(** [usize::saturating_add]. *)
Definition saturating_add (a b : N) : N := N.min (a + b) (usize_limit - 1).

Fixpoint u64_len_loop (fuel : nat) (len value : N) : outcome N :=
  if (value <? 10)%N then Ok len else
  match fuel with
  | 0 => NoFuel
  | S fuel => u64_len_loop fuel (len + 1) (value / 10)
  end.

Definition decimal_u64_len (value : N) : outcome N := u64_len_loop 20 1 value.

Definition decimal_i64_len (value : Z) : outcome N :=
  if (value <? 0)%Z then n ← decimal_u64_len (Z.abs_N value); Ok (1 + n)%N
  else decimal_u64_len (Z.to_N value).

Definition len (bs : bytes) : N := N.of_nat (length bs).

(** [Signature::encoded_len]. *)
Definition encoded_len (s : Signature) : outcome N :=
  d ← decimal_i64_len (sig_timestamp s);
  Ok (saturating_add (saturating_add (saturating_add (saturating_add (len (sig_name s))
        (len (sig_email s))) (len (sig_timezone s))) 5) d).

(** ** Encoding *)

(** The loop over the parents. *)
Fixpoint write_parents (parents : list ObjectId) (out : bytes) : outcome bytes :=
  match parents with
  | [] => Ok out
  | parent :: parents =>
      let out := out ++ bstr "parent " in
      out ← write_hex_bytes parent out;
      write_parents parents (out ++ [nl])
  end.

Definition encode_commit (tree : ObjectId) (parents : list ObjectId)
    (author committer : Signature) (message : bytes) : outcome bytes :=
  _ ← check (contains_byte Byte.x00 message) InvalidInput "commit message contains NUL";
  _ ← check (existsb (fun p => negb (bool_decide (algorithm p = algorithm tree))) parents)
        InvalidInput "commit parent hash algorithm does not match tree";
  let out := bstr "tree " in
  out ← write_hex_bytes tree out;
  let out := out ++ [nl] in
  out ← write_parents parents out;
  let out := out ++ bstr "author " in
  out ← write_to author out;
  let out := out ++ [nl] in
  let out := out ++ bstr "committer " in
  out ← write_to committer out;
  let out := out ++ blank_line in
  Ok (out ++ message).

(** [CommitBuilder] and its methods. *)
Record CommitBuilder : Set := MkCommitBuilder {
  cb_tree : ObjectId;
  cb_parents : list ObjectId;
  cb_author : Signature;
  cb_committer : Signature;
  cb_message : bytes
}.

Definition CommitBuilder_new (tree : ObjectId) (author committer : Signature) : CommitBuilder :=
  MkCommitBuilder tree [] author committer [].

Definition cb_parent (b : CommitBuilder) (parent : ObjectId) : CommitBuilder :=
  MkCommitBuilder (cb_tree b) (cb_parents b ++ [parent]) (cb_author b) (cb_committer b)
    (cb_message b).

Definition cb_set_message (b : CommitBuilder) (message : bytes) : outcome CommitBuilder :=
  _ ← check (contains_byte Byte.x00 message) InvalidInput "commit message contains NUL";
  Ok (MkCommitBuilder (cb_tree b) (cb_parents b) (cb_author b) (cb_committer b) message).

Definition cb_encode (b : CommitBuilder) : outcome bytes :=
  encode_commit (cb_tree b) (cb_parents b) (cb_author b) (cb_committer b) (cb_message b).

(** ** Decoding *)

Definition map_err {A} (m : outcome A) (k : ErrorKind) (msg : string) : outcome A :=
  match m with
  | Err _ => fail k msg
  | m => m
  end.

Definition parse_commit_id (a : GitHashAlgorithm) (value : bytes) (label : string)
  : outcome ObjectId :=
  _ ← check (negb (utf8_valid value)) InvalidData ("commit " +:+ label +:+ " id is not utf-8");
  map_err (from_hex_bytes a value) InvalidData ("commit " +:+ label +:+ " id is invalid").

Record CommitHeaders : Set := MkCommitHeaders {
  h_tree : option ObjectId;
  h_parents : list ObjectId;
  h_author : option bytes;
  h_committer : option bytes
}.

(** The loop of [decode_commit] over the header lines. *)
Fixpoint commit_lines (a : GitHashAlgorithm) (lines : list bytes) (h : CommitHeaders)
  : outcome CommitHeaders :=
  match lines with
  | [] => Ok h
  | line :: lines =>
      if starts_with (bstr " ") line then commit_lines a lines h else
      match strip_prefix (bstr "tree ") line with
      | Some value =>
          _ ← check (bool_decide (is_Some (h_tree h))) InvalidData
                "commit has multiple tree headers";
          i ← parse_commit_id a value "tree";
          commit_lines a lines (MkCommitHeaders (Some i) (h_parents h) (h_author h) (h_committer h))
      | None =>
      match strip_prefix (bstr "parent ") line with
      | Some value =>
          i ← parse_commit_id a value "parent";
          commit_lines a lines
            (MkCommitHeaders (h_tree h) (h_parents h ++ [i]) (h_author h) (h_committer h))
      | None =>
      match strip_prefix (bstr "author ") line with
      | Some value =>
          commit_lines a lines
            (MkCommitHeaders (h_tree h) (h_parents h) (Some value) (h_committer h))
      | None =>
      match strip_prefix (bstr "committer ") line with
      | Some value =>
          commit_lines a lines
            (MkCommitHeaders (h_tree h) (h_parents h) (h_author h) (Some value))
      | None => commit_lines a lines h
      end end end end
  end.

Definition decode_commit (a : GitHashAlgorithm) (bs : bytes) : outcome CommitObject :=
  idx ← ok_or (find_subslice blank_line bs) InvalidData "commit missing header end";
  let message_start := idx + 2 in
  headers ← slice bs 0 (message_start - 2);
  message ← slice bs message_start (length bs);
  h ← commit_lines a (split_on nl headers) (MkCommitHeaders None [] None None);
  tree ← ok_or (h_tree h) InvalidData "commit missing tree header";
  author ← ok_or (h_author h) InvalidData "commit missing author header";
  committer ← ok_or (h_committer h) InvalidData "commit missing committer header";
  Ok (MkCommitObject tree (h_parents h) author committer message).

Record LinkHeaders : Set := MkLinkHeaders {
  l_tree : option ObjectId;
  l_parents : list ObjectId;
  l_author : bool;
  l_committer : bool
}.

(** The loop of [decode_commit_links]. *)
Fixpoint link_lines (a : GitHashAlgorithm) (lines : list bytes) (h : LinkHeaders)
  : outcome LinkHeaders :=
  match lines with
  | [] => Ok h
  | line :: lines =>
      if starts_with (bstr " ") line then link_lines a lines h else
      match strip_prefix (bstr "tree ") line with
      | Some value =>
          _ ← check (bool_decide (is_Some (l_tree h))) InvalidData
                "commit has multiple tree headers";
          i ← parse_commit_id a value "tree";
          link_lines a lines (MkLinkHeaders (Some i) (l_parents h) (l_author h) (l_committer h))
      | None =>
      match strip_prefix (bstr "parent ") line with
      | Some value =>
          i ← parse_commit_id a value "parent";
          link_lines a lines
            (MkLinkHeaders (l_tree h) (l_parents h ++ [i]) (l_author h) (l_committer h))
      | None =>
      match strip_prefix (bstr "author ") line with
      | Some value =>
          link_lines a lines (MkLinkHeaders (l_tree h) (l_parents h) true (l_committer h))
      | None =>
      match strip_prefix (bstr "committer ") line with
      | Some value =>
          link_lines a lines (MkLinkHeaders (l_tree h) (l_parents h) (l_author h) true)
      | None => link_lines a lines h
      end end end end
  end.

Definition decode_commit_links (a : GitHashAlgorithm) (bs : bytes) : outcome CommitLinks :=
  message_start ← ok_or (find_subslice blank_line bs) InvalidData "commit missing header end";
  headers ← slice bs 0 message_start;
  h ← link_lines a (split_on nl headers) (MkLinkHeaders None [] false false);
  _ ← check (negb (l_author h)) InvalidData "commit missing author header";
  _ ← check (negb (l_committer h)) InvalidData "commit missing committer header";
  tree ← ok_or (l_tree h) InvalidData "commit missing tree header";
  Ok (MkCommitLinks tree (l_parents h)).

(** ** The cache *)

(** [CommitObjectCache]: the two [HashMap]s behind [RefCell]s. *)
Record CommitObjectCache : Type := MkCommitCache {
  commits : gmap ObjectId CommitObject;
  commit_links : gmap ObjectId CommitLinks
}.

Definition commit_cache_new : CommitObjectCache := MkCommitCache ∅ ∅.

Definition links_of (c : CommitObject) : CommitLinks := MkCommitLinks (co_tree c) (co_parents c).

(** The outcome of a cached read and the cache after it. *)
Definition read_loaded_commit (cache : CommitObjectCache) (object : LooseObject)
  : outcome CommitObject * CommitObjectCache :=
  let object_id := lo_id object in
  match commits cache !! object_id with
  | Some commit => (Ok commit, cache)
  | None =>
  match commit_links cache !! object_id with
  | Some links =>
      match decode_commit (algorithm object_id) (lo_content object) with
      | Ok decoded =>
          let commit := MkCommitObject (cl_tree links) (cl_parents links) (co_author decoded)
                          (co_committer decoded) (co_message decoded) in
          (Ok commit, MkCommitCache (<[object_id := commit]> (commits cache)) (commit_links cache))
      | r => (r, cache)
      end
  | None =>
      if negb (bool_decide (lo_kind object = Commit))
      then (fail InvalidData "object is not a commit", cache)
      else
        match decode_commit (algorithm object_id) (lo_content object) with
        | Ok commit =>
            (Ok commit, MkCommitCache (<[object_id := commit]> (commits cache))
                          (<[object_id := links_of commit]> (commit_links cache)))
        | r => (r, cache)
        end
  end end.

Definition read_commit `{GitObjectStore St} (s : St) (cache : CommitObjectCache) (i : ObjectId)
  : outcome CommitObject * CommitObjectCache :=
  match commits cache !! i with
  | Some commit => (Ok commit, cache)
  | None =>
      match read_object s i with
      | Ok object => read_loaded_commit cache object
      | Err e => (Err e, cache)
      | Panic => (Panic, cache)
      | NoFuel => (NoFuel, cache)
      end
  end.

Definition read_commit_links `{GitObjectStore St} (s : St) (cache : CommitObjectCache)
    (i : ObjectId) : outcome CommitLinks * CommitObjectCache :=
  match commit_links cache !! i with
  | Some links => (Ok links, cache)
  | None =>
  match commits cache !! i with
  | Some commit =>
      let links := links_of commit in
      (Ok links, MkCommitCache (commits cache) (<[i := links]> (commit_links cache)))
  | None =>
      match read_object s i with
      | Ok object =>
          if negb (bool_decide (lo_kind object = Commit))
          then (fail InvalidData "object is not a commit", cache)
          else
            match decode_commit_links (algorithm (lo_id object)) (lo_content object) with
            | Ok links =>
                (Ok links, MkCommitCache (commits cache)
                             (<[lo_id object := links]> (commit_links cache)))
            | r => (r, cache)
            end
      | Err e => (Err e, cache)
      | Panic => (Panic, cache)
      | NoFuel => (NoFuel, cache)
      end
  end end.

(** ** Specification *)

Definition i64_range (z : Z) : Prop := (- 2 ^ 63 <= z < 2 ^ 63)%Z.

(** What [Signature::new] establishes. *)
Definition signature_ok (s : Signature) : Prop :=
  i64_range (sig_timestamp s) /\
  Signature_new (sig_name s) (sig_email s) (sig_timestamp s) (sig_timezone s) = Ok s.

(** ** Signatures *)

Lemma digits_text ds : Forall (is_digit 10) ds -> contains_byte nl ds = false.
Proof.
  intros H. apply contains_byte_false. eapply Forall_impl; [exact H|]. cbn.
  intros b Hb. unfold byte_is. apply byte_eqb_false. intros ->. unfold is_digit in Hb.
  cbn in Hb. lia.
Qed.

Lemma hex_text bs : contains_byte nl (hex_encode bs) = false.
Proof.
  apply contains_byte_false. eapply Forall_impl; [apply hex_encode_text|]. cbn.
  intros b Hb. unfold byte_is. apply byte_eqb_false. intros ->. cbn in Hb. lia.
Qed.

Lemma u64_len_loop_count fuel l v :
  (0 < v)%N ->
  u64_len_loop fuel (N.of_nat (S l)) v
  = fmap (M := outcome) N.of_nat (count_digits 10 (S fuel) l v).
Proof.
  revert l v. induction fuel as [|fuel IH]; intros l v Hv.
  - cbn [u64_len_loop count_digits]. rewrite (proj2 (N.eqb_neq v 0)) by lia.
    destruct (N.ltb_spec v 10).
    + by rewrite N.div_small.
    + destruct (N.eqb_spec (v / 10) 0) as [E|]; [|done]. apply N.div_small_iff in E; lia.
  - change (count_digits 10 (S (S fuel)) l v) with
      (if (v =? 0)%N then Ok l else count_digits 10 (S fuel) (S l) (v / 10)).
    cbn [u64_len_loop]. rewrite (proj2 (N.eqb_neq v 0)) by lia.
    destruct (N.ltb_spec v 10).
    + rewrite N.div_small by done. done.
    + replace (N.of_nat (S l) + 1)%N with (N.of_nat (S (S l))) by lia.
      apply IH. apply N.div_str_pos. lia.
Qed.

Lemma decimal_u64_len_spec n ds :
  (n < usize_limit)%N -> decimal_spec n ds -> decimal_u64_len n = Ok (len ds).
Proof.
  intros Hn Hds. unfold decimal_u64_len, len. destruct (N.eqb_spec n 0) as [->|Hnz].
  - rewrite (decimal_spec_inj 0 ds (bstr "0")); [done|done|].
    split; [|done]. split; [|done]. by repeat constructor.
  - rewrite (u64_len_loop_count 20 0) by lia.
    pose proof (decimal_len_spec n ds Hn Hds) as Hl. unfold decimal_len in Hl.
    rewrite (proj2 (N.eqb_neq n 0) Hnz) in Hl.
    destruct Hds as [[Hd Hhd] <-]. rewrite count_digits_spec; [done|lia|done| |].
    + destruct ds as [|d [|d' ds]]; [done| |done].
      unfold numeral_value, digit_value in Hnz. cbn in Hnz. intros E. by rewrite E in Hnz.
    + apply Nat.le_trans with 20; [|lia].
      apply (canonical_length_bound 10); [lia|by split| |lia].
      eapply N.lt_trans; [exact Hn|done].
Qed.

(** The text of a timestamp. *)
Lemma decimal_i64_spec z :
  i64_range z ->
  exists ds, (forall out, write_decimal_i64 out z = Ok (out ++ ds)) /\
    contains_byte nl ds = false /\ decimal_i64_len z = Ok (len ds) /\ length ds <= 20.
Proof.
  intros Hz. unfold i64_range in Hz. unfold write_decimal_i64, write_decimal_u64, decimal_i64_len.
  assert (Hu : forall n, (n < 10000000000000000000)%N -> exists ds, render 10 20 n = Ok ds /\
    contains_byte nl ds = false /\ decimal_u64_len n = Ok (len ds) /\ length ds <= 19).
  { intros n Hn. destruct (render_spec 10 ltac:(lia) 20 n) as (ds & E & Hds).
    - lia.
    - eapply N.lt_trans; [exact Hn|done].
    - exists ds. split_and!; [done|apply digits_text, Hds| |].
      + apply decimal_u64_len_spec; [|done]. eapply N.lt_trans; [exact Hn|done].
      + apply (canonical_length_bound 10); [lia|apply Hds| |lia].
        destruct Hds as [_ ->]. done. }
  destruct (Z.ltb_spec z 0).
  - destruct (Hu (Z.abs_N z)) as (ds & -> & Hnl & Hl & Hb); [apply N2Z.inj_lt; rewrite N2Z.inj_abs_N; lia|].
    exists (bstr "-" ++ ds). split_and!.
    + intros out. rewrite bind_Ok. by rewrite <- app_assoc.
    + rewrite contains_byte_app, Hnl. done.
    + rewrite Hl, bind_Ok. unfold len.
      change (length (bstr "-" ++ ds)) with (S (length ds)). f_equal. lia.
    + change (length (bstr "-" ++ ds)) with (S (length ds)). lia.
  - destruct (Hu (Z.to_N z)) as (ds & -> & Hnl & Hl & Hb); [lia|].
    exists ds. split_and!; [by intros out|done|done|lia].
Qed.

Lemma validate_signature_field_Ok v label u :
  validate_signature_field v label = Ok u -> v <> [] /\ contains_byte nl v = false.
Proof. unfold validate_signature_field. rewrite check_Ok, !orb_false_iff. intros H.
  destruct_and!. breflect. done.
Qed.

Lemma validate_timezone_Ok v u :
  validate_timezone v = Ok u -> length v = 5 /\ contains_byte nl v = false.
Proof.
  unfold validate_timezone. destruct (Nat.eqb_spec (length v) 5) as [Hl|]; [|done].
  cbn [negb]. destruct v as [|c v]; [done|]. unfold index_at. cbn [lookup list_lookup unwrap].
  rewrite !bind_Ok, bind_check_Ok. intros [E0 H]. inv_ok. split; [done|].
  apply slice_Ok in E as (_ & _ & ->).
  assert (take (length (c :: v) - 1) (drop 1 (c :: v)) = v) as Et
    by (cbn; rewrite Nat.sub_0_r; apply firstn_all).
  rewrite Et, negb_false_iff, forallb_forall in H.
  apply andb_false_iff in E0. cbn [contains_byte existsb]. apply orb_false_iff. split.
  - unfold byte_is in *. destruct (byte_eqb_spec c nl) as [->|]; [|done].
    destruct E0 as [E0|E0]; vm_compute in E0; discriminate.
  - apply contains_byte_false. rewrite Forall_forall. intros b Hb%list_elem_of_In.
    apply H in Hb. unfold byte_is. apply byte_eqb_false. intros ->. discriminate.
Qed.

(** The text of a signature is one line, and [encoded_len] is its length. *)
Lemma write_to_spec s :
  signature_ok s ->
  exists t, (forall out, write_to s out = Ok (out ++ t)) /\ contains_byte nl t = false /\
    ((len t < usize_limit)%N -> encoded_len s = Ok (len t)).
Proof.
  intros [Hts Hs]. unfold Signature_new in Hs. inv_ok.
  apply validate_signature_field_Ok in E as [_ Hn]. apply validate_signature_field_Ok in E0 as [_ He].
  apply validate_timezone_Ok in E1 as [Htz Htn].
  destruct (decimal_i64_spec _ Hts) as (ds & Hw & Hd & Hl & Hb).
  exists (sig_name s ++ bstr " <" ++ sig_email s ++ bstr "> " ++ ds ++ bstr " " ++ sig_timezone s).
  split_and!.
  - intros out. unfold write_to. rewrite Hw, bind_Ok. solve_app.
  - rewrite !contains_byte_app, Hn, He, Hd, Htn. done.
  - unfold encoded_len. rewrite Hl, bind_Ok. unfold len, saturating_add. rewrite !length_app.
    change (length (bstr " <")) with 2. change (length (bstr "> ")) with 2.
    change (length (bstr " ")) with 1. unfold usize_limit. intros Hlen. f_equal. lia.
Qed.

(** ** Round trip *)

Lemma parse_commit_id_encode i label :
  ObjectId_wf i -> parse_commit_id (algorithm i) (hex_encode (as_bytes i)) label = Ok i.
Proof.
  intros Hi. unfold parse_commit_id. rewrite utf8_valid_ascii.
  - cbn [negb check]. rewrite bind_Ok, from_hex_bytes_encode by done. done.
  - eapply Forall_impl; [apply hex_encode_text|]. cbn. lia.
Qed.

Lemma write_hex_bytes_eq i out : write_hex_bytes i out = Ok (out ++ hex_encode (as_bytes i)).
Proof. apply write_hex_loop_spec. Qed.

Definition parent_line (p : ObjectId) : bytes := bstr "parent " ++ hex_encode (as_bytes p).

Lemma write_parents_spec ps out :
  write_parents ps out = Ok (out ++ concat ((fun p => parent_line p ++ [nl]) <$> ps)).
Proof.
  revert out. induction ps as [|p ps IH]; intros out; cbn [write_parents fmap list_fmap concat];
    [by rewrite app_nil_r|].
  rewrite write_hex_bytes_eq, bind_Ok, IH. unfold parent_line. f_equal. solve_app.
Qed.

(** The header lines of an encoded commit. *)
Definition commit_header (t : ObjectId) (ps : list ObjectId) (author committer : bytes)
  : list bytes :=
  (bstr "tree " ++ hex_encode (as_bytes t)) :: (parent_line <$> ps)
  ++ [bstr "author " ++ author; bstr "committer " ++ committer].

Lemma join_cons l ls : ls <> [] -> join_with nl (l :: ls) = l ++ nl :: join_with nl ls.
Proof. by destruct ls. Qed.

Lemma join_commit_header t ps a c :
  join_with nl (commit_header t ps a c)
  = bstr "tree " ++ hex_encode (as_bytes t) ++ [nl] ++
    concat ((fun p => parent_line p ++ [nl]) <$> ps) ++
    bstr "author " ++ a ++ [nl] ++ bstr "committer " ++ c.
Proof.
  unfold commit_header. rewrite join_cons by (by destruct ps). rewrite <- app_assoc. f_equal. f_equal.
  cbn [app]. f_equal. induction ps as [|p ps IH].
  - cbn [fmap list_fmap app concat join_with]. solve_app.
  - cbn [fmap list_fmap app concat]. rewrite join_cons by (by destruct ps). rewrite IH. solve_app.
Qed.

Lemma commit_header_lines t ps a c :
  contains_byte nl a = false -> contains_byte nl c = false ->
  Forall header_line (commit_header t ps a c).
Proof.
  intros Ha Hc. unfold commit_header. constructor.
  { split; [done|]. by rewrite contains_byte_app, hex_text. }
  apply Forall_app_2.
  - apply Forall_fmap, Forall_forall. intros p _. split; [done|]. unfold parent_line.
    by rewrite contains_byte_app, hex_text.
  - repeat constructor; (done || by rewrite contains_byte_app, ?Ha, ?Hc).
Qed.

Lemma encode_commit_Ok t ps au co msg a c :
  (forall out, write_to au out = Ok (out ++ a)) -> (forall out, write_to co out = Ok (out ++ c)) ->
  contains_byte Byte.x00 msg = false -> Forall (fun p => algorithm p = algorithm t) ps ->
  encode_commit t ps au co msg = Ok (join_with nl (commit_header t ps a c) ++ blank_line ++ msg).
Proof.
  intros Ha Hc Hm Hps. unfold encode_commit. rewrite Hm. cbn [check]. rewrite bind_Ok.
  assert (existsb (fun p => negb (bool_decide (algorithm p = algorithm t))) ps = false) as ->.
  { induction Hps as [|p ps Hp _ IH]; [done|]. cbn. by rewrite bool_decide_true, IH by done. }
  cbn [check]. rewrite bind_Ok, write_hex_bytes_eq, bind_Ok, write_parents_spec, bind_Ok.
  rewrite Ha, bind_Ok, Hc, bind_Ok, join_commit_header. f_equal. solve_app.
Qed.

(** The decoder on the lines the encoder writes. *)
Lemma commit_lines_parents a ps ls h :
  Forall (fun p => ObjectId_wf p /\ algorithm p = a) ps ->
  commit_lines a ((parent_line <$> ps) ++ ls) h
  = commit_lines a ls (MkCommitHeaders (h_tree h) (h_parents h ++ ps) (h_author h) (h_committer h)).
Proof.
  intros Hps. revert h. induction Hps as [|p ps [Hp Ha] _ IH]; intros h.
  - rewrite app_nil_r. by destruct h.
  - change (commit_lines a ((parent_line <$> p :: ps) ++ ls) h) with
      (i ← parse_commit_id a (hex_encode (as_bytes p)) "parent";
       commit_lines a ((parent_line <$> ps) ++ ls)
         (MkCommitHeaders (h_tree h) (h_parents h ++ [i]) (h_author h) (h_committer h))).
    rewrite <- Ha at 1. rewrite parse_commit_id_encode, bind_Ok, IH by done. cbn [h_parents].
    by rewrite <- app_assoc.
Qed.

Lemma decode_commit_lines a ls msg :
  ls <> [] -> Forall header_line ls ->
  decode_commit a (join_with nl ls ++ blank_line ++ msg)
  = (h ← commit_lines a ls (MkCommitHeaders None [] None None);
     tree ← ok_or (h_tree h) InvalidData "commit missing tree header";
     author ← ok_or (h_author h) InvalidData "commit missing author header";
     committer ← ok_or (h_committer h) InvalidData "commit missing committer header";
     Ok (MkCommitObject tree (h_parents h) author committer msg)).
Proof.
  intros Hne Hls. unfold decode_commit. rewrite find_header_end by done. cbn [ok_or].
  rewrite bind_Ok. cbv zeta. rewrite Nat.add_sub.
  slice_as (@nil byte) (join_with nl ls) (blank_line ++ msg).
  slice_tail_as (join_with nl ls ++ [nl; nl]) msg.
  rewrite split_on_join; [done|done|]. eapply Forall_impl; [exact Hls|]. by intros l [_ Hl].
Qed.

(** C31: a commit that [encode_commit] accepts decodes to the same tree, parents, author and
    committer texts and message, whatever the message contains (blank lines included), provided
    the ids are well formed and the signatures come from [Signature::new]; and [encode_commit]
    accepts exactly the messages without a NUL byte and parents of the tree's algorithm. *)
Theorem commit_roundtrip t ps au co msg :
  ObjectId_wf t -> Forall ObjectId_wf ps -> signature_ok au -> signature_ok co ->
  (is_ok (encode_commit t ps au co msg) = true <->
     contains_byte Byte.x00 msg = false /\ Forall (fun p => algorithm p = algorithm t) ps) /\
  forall bs, encode_commit t ps au co msg = Ok bs ->
    exists a c, write_to au [] = Ok a /\ write_to co [] = Ok c /\
      decode_commit (algorithm t) bs = Ok (MkCommitObject t ps a c msg).
Proof.
  intros Ht Hps Hau Hco. destruct (write_to_spec au Hau) as (a & Ha & Hna & _).
  destruct (write_to_spec co Hco) as (c & Hc & Hnc & _).
  assert (Hok : is_ok (encode_commit t ps au co msg) = true ->
    contains_byte Byte.x00 msg = false /\ Forall (fun p => algorithm p = algorithm t) ps).
  { unfold encode_commit. destruct (contains_byte Byte.x00 msg) eqn:E; [done|]. intros H.
    split; [done|]. cbn [check] in H. rewrite bind_Ok in H.
    destruct (existsb _ ps) eqn:Ex; [done|]. apply Forall_forall. intros p Hp.
    destruct (decide (algorithm p = algorithm t)) as [|Hne]; [done|].
    rewrite <- not_true_iff_false, existsb_exists in Ex. destruct Ex. exists p.
    rewrite bool_decide_false by done. split; [by apply list_elem_of_In|done]. }
  split; [split; [exact Hok|]|].
  - intros [Hm Ha']. by rewrite (encode_commit_Ok t ps au co msg a c).
  - intros bs Hbs. destruct Hok as [Hm Hal]; [by rewrite Hbs|].
    rewrite (encode_commit_Ok t ps au co msg a c) in Hbs by done.
    assert (bs = join_with nl (commit_header t ps a c) ++ blank_line ++ msg) as -> by congruence.
    exists a, c. rewrite Ha, Hc. split_and!; [done..|].
    rewrite decode_commit_lines by (done || by apply commit_header_lines).
    assert (commit_lines (algorithm t) (commit_header t ps a c) (MkCommitHeaders None [] None None)
      = Ok (MkCommitHeaders (Some t) ps (Some a) (Some c))) as ->; [|done].
    change (commit_lines (algorithm t) (commit_header t ps a c) (MkCommitHeaders None [] None None))
      with (i ← parse_commit_id (algorithm t) (hex_encode (as_bytes t)) "tree";
            commit_lines (algorithm t)
              ((parent_line <$> ps) ++ [bstr "author " ++ a; bstr "committer " ++ c])
              (MkCommitHeaders (Some i) [] None None)).
    rewrite parse_commit_id_encode, bind_Ok by done.
    rewrite commit_lines_parents; [done|].
    apply Forall_forall. rewrite Forall_forall in Hps, Hal. auto.
Qed.

(** ** The link decoder *)

Definition header_links (h : CommitHeaders) : LinkHeaders :=
  MkLinkHeaders (h_tree h) (h_parents h) (bool_decide (is_Some (h_author h)))
    (bool_decide (is_Some (h_committer h))).

Lemma link_lines_spec a ls h :
  link_lines a ls (header_links h) = fmap (M := outcome) header_links (commit_lines a ls h).
Proof.
  revert h. induction ls as [|l ls IH]; intros h; [done|]. cbn [link_lines commit_lines].
  destruct (starts_with _ l); [apply IH|].
  destruct (strip_prefix (bstr "tree ") l).
  { cbn [header_links l_tree]. destruct (check _ _ _); [rewrite !bind_Ok|done..].
    destruct (parse_commit_id _ _ _); [rewrite !bind_Ok|done..]. rewrite <- IH. done. }
  destruct (strip_prefix (bstr "parent ") l).
  { destruct (parse_commit_id _ _ _); [rewrite !bind_Ok|done..]. rewrite <- IH. done. }
  destruct (strip_prefix (bstr "author ") l); [rewrite <- IH; done|].
  destruct (strip_prefix (bstr "committer ") l); [rewrite <- IH; done|]. apply IH.
Qed.

Lemma safe_parse_commit_id a v label : safe (parse_commit_id a v label).
Proof.
  unfold parse_commit_id. apply safe_bind; [auto with zmin|]. intros _ _.
  pose proof (safe_from_hex_bytes a v). by destruct (from_hex_bytes a v).
Qed.
#[export] Hint Resolve safe_parse_commit_id : zmin.

Lemma safe_commit_lines a ls h : safe (commit_lines a ls h).
Proof. revert h. induction ls; intros h; cbn [commit_lines]; solve_safe; auto. Qed.
#[export] Hint Resolve safe_commit_lines : zmin.

Lemma safe_decode_commit a bs : safe (decode_commit a bs).
Proof.
  unfold decode_commit. apply safe_bind; [auto with zmin|]. intros i Hi.
  apply ok_or_Ok, find_subslice_Some in Hi. cbn in Hi.
  apply safe_bind; [apply safe_slice; lia|]. intros ? _.
  apply safe_bind; [apply safe_slice; lia|]. intros ? _. solve_safe.
Qed.

Lemma decode_links_iff a bs :
  safe (decode_commit a bs) /\ safe (decode_commit_links a bs) /\
  forall l, decode_commit_links a bs = Ok l <->
            exists c, decode_commit a bs = Ok c /\ l = links_of c.
Proof.
  split; [apply safe_decode_commit|].
  unfold decode_commit_links, decode_commit.
  destruct (find_subslice blank_line bs) as [i|] eqn:Hi; [|split; [done|naive_solver]].
  apply find_subslice_Some in Hi. cbn in Hi. cbn [ok_or]. rewrite !bind_Ok. cbv zeta.
  rewrite Nat.add_sub, slice_take, !bind_Ok, slice_from, bind_Ok by lia.
  change (MkLinkHeaders None [] false false) with (header_links (MkCommitHeaders None [] None None)).
  rewrite link_lines_spec.
  pose proof (safe_commit_lines a (split_on nl (take i bs)) (MkCommitHeaders None [] None None)).
  destruct (commit_lines _ _ _) as [[[t|] ps [au|] [co|]]|e| |]; cbn; try done.
  all: split; [done|]; split; [|naive_solver].
  all: unfold fail; intros H'; try discriminate. eexists. split; [done|]. by injection H' as <-.
Qed.

(** Neither decoder panics, and the light [decode_commit_links] accepts exactly the commits
    that [decode_commit] accepts, with the same tree and parents. *)
Theorem decode_commit_links_agrees a bs :
  safe (decode_commit a bs) /\ safe (decode_commit_links a bs) /\
  forall l, decode_commit_links a bs = Ok l <->
            exists c, decode_commit a bs = Ok c /\ l = links_of c.
Proof. apply decode_links_iff. Qed.

(** ** The cache *)

Section cache.
Context `{StoreLaws St inv}.
Implicit Types (s : St) (cache : CommitObjectCache).

(** The read without a cache. *)
Definition read_commit_uncached s (i : ObjectId) : outcome CommitObject :=
  object ← read_object s i;
  _ ← check (negb (bool_decide (lo_kind object = Commit))) InvalidData "object is not a commit";
  decode_commit (algorithm i) (lo_content object).

(** Every cached value is what the store holds. *)
Definition cache_ok s cache : Prop :=
  (forall i c, commits cache !! i = Some c -> read_commit_uncached s i = Ok c) /\
  (forall i l, commit_links cache !! i = Some l ->
     exists c, read_commit_uncached s i = Ok c /\ l = links_of c).

Lemma cache_ok_insert s cache i c :
  cache_ok s cache -> read_commit_uncached s i = Ok c ->
  cache_ok s (MkCommitCache (<[i := c]> (commits cache)) (commit_links cache)) /\
  cache_ok s (MkCommitCache (commits cache) (<[i := links_of c]> (commit_links cache))) /\
  cache_ok s (MkCommitCache (<[i := c]> (commits cache))
                (<[i := links_of c]> (commit_links cache))).
Proof.
  intros [H1 H2] Hc. unfold cache_ok. cbn [commits commit_links].
  assert (forall j c', <[i := c]> (commits cache) !! j = Some c' ->
            read_commit_uncached s j = Ok c').
  { intros j c' [[-> ->]|[_ ?]]%lookup_insert_Some; auto. }
  assert (forall j l, <[i := links_of c]> (commit_links cache) !! j = Some l ->
            exists c', read_commit_uncached s j = Ok c' /\ l = links_of c').
  { intros j l [[-> <-]|[_ ?]]%lookup_insert_Some; eauto. }
  auto.
Qed.

Lemma read_commit_transparent s cache i :
  inv s -> ObjectId_wf i -> cache_ok s cache ->
  (read_commit s cache i).1 = read_commit_uncached s i /\ cache_ok s (read_commit s cache i).2.
Proof.
  intros Hs Hi Hc. pose proof Hc as [H1 H2]. unfold read_commit.
  destruct (commits cache !! i) as [c|] eqn:Ec; [by rewrite (H1 _ _ Ec)|].
  destruct (read_object s i) as [o|e| |] eqn:Eo;
    [|unfold read_commit_uncached; by rewrite Eo..].
  pose proof (read_object_id s i o Hs Hi Eo) as Hid.
  unfold read_loaded_commit. rewrite Hid, Ec.
  assert (Hu : read_commit_uncached s i
    = (_ ← check (negb (bool_decide (lo_kind o = Commit))) InvalidData "object is not a commit";
       decode_commit (algorithm i) (lo_content o))).
  { unfold read_commit_uncached. by rewrite Eo, bind_Ok. }
  destruct (commit_links cache !! i) as [l|] eqn:El.
  - destruct (H2 _ _ El) as (c & Ecu & ->). rewrite Ecu.
    rewrite Hu, bind_check_Ok in Ecu. destruct Ecu as [Hk Hd]. rewrite Hd. cbn [fst snd].
    assert (MkCommitObject (cl_tree (links_of c)) (cl_parents (links_of c)) (co_author c)
              (co_committer c) (co_message c) = c) as -> by (by destruct c).
    split; [done|]. apply cache_ok_insert; [done|]. by rewrite Hu, bind_check_Ok.
  - destruct (bool_decide (lo_kind o = Commit)); cbn [negb] in *; [|by rewrite Hu].
    cbn [check] in Hu. rewrite bind_Ok in Hu. rewrite Hu.
    destruct (decode_commit _ _) as [c|e| |]; try done. split; [done|].
    by apply cache_ok_insert.
Qed.

Lemma read_commit_links_transparent s cache i :
  inv s -> ObjectId_wf i -> cache_ok s cache ->
  (forall l, (read_commit_links s cache i).1 = Ok l <->
             exists c, read_commit_uncached s i = Ok c /\ l = links_of c) /\
  cache_ok s (read_commit_links s cache i).2.
Proof.
  intros Hs Hi Hc. pose proof Hc as [H1 H2]. unfold read_commit_links.
  destruct (commit_links cache !! i) as [l|] eqn:El.
  { split; [|done]. destruct (H2 _ _ El) as (c & -> & ->). cbn. naive_solver. }
  destruct (commits cache !! i) as [c|] eqn:Ec.
  { rewrite (H1 _ _ Ec). cbn. split; [naive_solver|]. apply cache_ok_insert; [done|]. by apply H1. }
  destruct (read_object s i) as [o|e| |] eqn:Eo.
  2-4: unfold read_commit_uncached; rewrite Eo; cbn; split; [naive_solver|done].
  rewrite (read_object_id s i o Hs Hi Eo).
  assert (Hu : read_commit_uncached s i
    = (_ ← check (negb (bool_decide (lo_kind o = Commit))) InvalidData "object is not a commit";
       decode_commit (algorithm i) (lo_content o))).
  { unfold read_commit_uncached. by rewrite Eo, bind_Ok. }
  destruct (bool_decide (lo_kind o = Commit)); cbn [negb] in *.
  2: { rewrite Hu. cbn. unfold fail. split; [naive_solver|done]. }
  cbn [check] in Hu. rewrite bind_Ok in Hu.
  destruct (decode_links_iff (algorithm i) (lo_content o)) as (_ & _ & Hl).
  destruct (decode_commit_links _ _) as [l|e| |].
  - destruct (proj1 (Hl l) eq_refl) as (c & Ec' & ->). rewrite Hu, Ec'. cbn [fst snd].
    split; [naive_solver|]. apply cache_ok_insert; [done|]. congruence.
  - cbn [fst snd]. rewrite Hu. split; [exact Hl|done].
  - cbn [fst snd]. rewrite Hu. split; [exact Hl|done].
  - cbn [fst snd]. rewrite Hu. split; [exact Hl|done].
Qed.

(** The cache is invisible: from a cache whose values are those of the store (the empty one
    is), [read_commit] returns exactly what reading and decoding the object returns, errors
    included, [read_commit_links] returns the tree and the parents of that commit and fails when
    it fails, and both leave such a cache, in any order of calls. *)
Theorem commit_cache_transparent s cache i :
  inv s -> ObjectId_wf i -> cache_ok s cache ->
  (read_commit s cache i).1 = read_commit_uncached s i /\
  (forall l, (read_commit_links s cache i).1 = Ok l <->
             exists c, read_commit_uncached s i = Ok c /\ l = links_of c) /\
  cache_ok s (read_commit s cache i).2 /\ cache_ok s (read_commit_links s cache i).2.
Proof.
  intros Hs Hi Hc. destruct (read_commit_transparent s cache i Hs Hi Hc).
  destruct (read_commit_links_transparent s cache i Hs Hi Hc). done.
Qed.

Lemma cache_ok_new s : cache_ok s commit_cache_new.
Proof. split; intros i x; cbn [commits commit_links commit_cache_new]; by rewrite lookup_empty. Qed.
End cache.

(** ** Witnesses *)

#[local] Existing Instances sample_sha sample_sha_laws.

Definition sample_signature : Signature :=
  MkSignature (bstr "A U Thor") (bstr "author@example.com") (-1)%Z (bstr "+0100").

Lemma sample_signature_ok : signature_ok sample_signature.
Proof. split; [done|]. vm_compute. reflexivity. Qed.

Definition sample_commit : outcome bytes :=
  encode_commit (sample_id Sha1 1) [sample_id Sha1 2; sample_id Sha1 3] sample_signature
    sample_signature (bstr "message").

Lemma commit_roundtrip_witness :
  exists bs c, sample_commit = Ok bs /\ decode_commit Sha1 bs = Ok c /\
    co_parents c = [sample_id Sha1 2; sample_id Sha1 3].
Proof.
  destruct (commit_roundtrip (sample_id Sha1 1) [sample_id Sha1 2; sample_id Sha1 3]
    sample_signature sample_signature (bstr "message")) as [_ Hr].
  - apply sample_id_wf.
  - repeat constructor; apply sample_id_wf.
  - apply sample_signature_ok.
  - apply sample_signature_ok.
  - unfold sample_commit. destruct (encode_commit _ _ _ _ _) as [bs| | |] eqn:E;
      [|vm_compute in E; discriminate..].
    destruct (Hr bs eq_refl) as (a & c & _ & _ & Hd).
    exists bs. eexists. split; [reflexivity|]. split; [exact Hd|reflexivity].
Defined.

(** A store that holds one commit. *)
Definition commit_store : outcome (InMemoryObjectStore * ObjectId) :=
  content ← sample_commit;
  in_memory_write_object sample_store Commit content.

Lemma commit_cache_transparent_witness :
  exists s i, commit_store = Ok (s, i) /\
    (read_commit s commit_cache_new i).1 = read_commit_uncached s i /\
    is_ok (read_commit_uncached s i) = true.
Proof.
  destruct commit_store as [[s i]|e| |] eqn:E; [|vm_compute in E; discriminate..].
  exists s, i. split; [reflexivity|].
  assert (in_memory_wf s /\ ObjectId_wf i) as [Hs Hi].
  { unfold commit_store in E. apply bind_Ok_inv in E as (content & _ & E).
    split; [by apply (in_memory_write_wf _ _ _ _ _ sample_store_wf E)|].
    unfold in_memory_write_object in E. inv_ok. by apply hash_object_wf in E0 as [? _]. }
  destruct (commit_cache_transparent (inv := in_memory_wf) s commit_cache_new i Hs Hi
    (cache_ok_new s)) as [Hr _].
  split; [exact Hr|]. vm_compute in E. injection E as <- <-. vm_compute. reflexivity.
Defined.
