(* ===== verification/Tag.v ===== *)
(** * Annotated tags: encoding and decoding (zmin-git-core/src/tag.rs) *)
From S2P Require Import Prelude Digits Object Text Store Commit.

(** ** Data *)

Record TagObject : Set := MkTagObject {
  to_target : ObjectId;
  to_target_kind : GitObjectKind;
  to_name : bytes;
  to_tagger : bytes;
  to_message : bytes
}.

Record TagBuilder : Set := MkTagBuilder {
  tb_target : ObjectId;
  tb_target_kind : GitObjectKind;
  tb_name : bytes;
  tb_tagger : Signature;
  tb_message : bytes
}.

(** ** Operations *)

Definition validate_tag_name (name : bytes) : outcome unit :=
  check (bool_decide (name = []) || contains_byte Byte.x00 name || contains_byte nl name)
    InvalidInput "tag name contains invalid characters".

Definition encode_tag (target : ObjectId) (target_kind : GitObjectKind) (name : bytes)
    (tagger : Signature) (message : bytes) : outcome bytes :=
  _ ← validate_tag_name name;
  _ ← check (contains_byte Byte.x00 message) InvalidInput "tag message contains NUL";
  let out := bstr "object " in
  out ← write_hex_bytes target out;
  let out := out ++ [nl] in
  let out := out ++ bstr "type " in
  let out := out ++ kind_as_bytes target_kind in
  let out := out ++ [nl] in
  let out := out ++ bstr "tag " in
  let out := out ++ name in
  let out := out ++ [nl] in
  let out := out ++ bstr "tagger " in
  out ← write_to tagger out;
  let out := out ++ blank_line in
  Ok (out ++ message).

Definition TagBuilder_new (target : ObjectId) (target_kind : GitObjectKind) (name : bytes)
    (tagger : Signature) : outcome TagBuilder :=
  _ ← validate_tag_name name;
  Ok (MkTagBuilder target target_kind name tagger []).

Definition tb_set_message (b : TagBuilder) (message : bytes) : outcome TagBuilder :=
  _ ← check (contains_byte Byte.x00 message) InvalidInput "tag message contains NUL";
  Ok (MkTagBuilder (tb_target b) (tb_target_kind b) (tb_name b) (tb_tagger b) message).

Definition tb_encode (b : TagBuilder) : outcome bytes :=
  encode_tag (tb_target b) (tb_target_kind b) (tb_name b) (tb_tagger b) (tb_message b).

Definition parse_tag_id (a : GitHashAlgorithm) (value : bytes) : outcome ObjectId :=
  _ ← check (negb (utf8_valid value)) InvalidData "tag object id is not utf-8";
  map_err (from_hex_bytes a value) InvalidData "tag object id is invalid".

Record TagHeaders : Set := MkTagHeaders {
  th_target : option ObjectId;
  th_target_kind : option GitObjectKind;
  th_name : option bytes;
  th_tagger : option bytes
}.

(** The loop of [decode_tag] over the header lines: the last header of a kind wins. *)
Fixpoint tag_lines (a : GitHashAlgorithm) (lines : list bytes) (h : TagHeaders)
  : outcome TagHeaders :=
  match lines with
  | [] => Ok h
  | line :: lines =>
      if starts_with (bstr " ") line then tag_lines a lines h else
      match strip_prefix (bstr "object ") line with
      | Some value =>
          i ← parse_tag_id a value;
          tag_lines a lines (MkTagHeaders (Some i) (th_target_kind h) (th_name h) (th_tagger h))
      | None =>
      match strip_prefix (bstr "type ") line with
      | Some value =>
          k ← ok_or (kind_parse value) InvalidData "tag object type is invalid";
          tag_lines a lines (MkTagHeaders (th_target h) (Some k) (th_name h) (th_tagger h))
      | None =>
      match strip_prefix (bstr "tag ") line with
      | Some value =>
          tag_lines a lines
            (MkTagHeaders (th_target h) (th_target_kind h) (Some value) (th_tagger h))
      | None =>
      match strip_prefix (bstr "tagger ") line with
      | Some value =>
          tag_lines a lines
            (MkTagHeaders (th_target h) (th_target_kind h) (th_name h) (Some value))
      | None => tag_lines a lines h
      end end end end
  end.

Definition decode_tag (a : GitHashAlgorithm) (bs : bytes) : outcome TagObject :=
  idx ← ok_or (find_subslice blank_line bs) InvalidData "tag missing header end";
  let message_start := idx + 2 in
  headers ← slice bs 0 (message_start - 2);
  message ← slice bs message_start (length bs);
  h ← tag_lines a (split_on nl headers) (MkTagHeaders None None None None);
  target ← ok_or (th_target h) InvalidData "tag missing object";
  target_kind ← ok_or (th_target_kind h) InvalidData "tag missing type";
  name ← ok_or (th_name h) InvalidData "tag missing name";
  tagger ← ok_or (th_tagger h) InvalidData "tag missing tagger";
  Ok (MkTagObject target target_kind name tagger message).

(** ** Lemmas *)

Lemma safe_parse_tag_id a v : safe (parse_tag_id a v).
Proof.
  unfold parse_tag_id. apply safe_bind; [auto with zmin|]. intros _ _.
  pose proof (safe_from_hex_bytes a v). by destruct (from_hex_bytes a v).
Qed.
#[export] Hint Resolve safe_parse_tag_id : zmin.

Lemma safe_tag_lines a ls h : safe (tag_lines a ls h).
Proof. revert h. induction ls; intros h; cbn [tag_lines]; solve_safe; auto. Qed.
#[export] Hint Resolve safe_tag_lines : zmin.

Lemma safe_decode_tag a bs : safe (decode_tag a bs).
Proof.
  unfold decode_tag. apply safe_bind; [auto with zmin|]. intros i Hi.
  apply ok_or_Ok, find_subslice_Some in Hi. cbn in Hi.
  apply safe_bind; [apply safe_slice; lia|]. intros ? _.
  apply safe_bind; [apply safe_slice; lia|]. intros ? _. solve_safe.
Qed.

(** The target of a decoded tag is a well-formed id of the tag's algorithm. *)
Lemma tag_lines_target a ls h h' :
  tag_lines a ls h = Ok h' ->
  (forall i, th_target h = Some i -> ObjectId_wf i /\ algorithm i = a) ->
  forall i, th_target h' = Some i -> ObjectId_wf i /\ algorithm i = a.
Proof.
  revert h. induction ls as [|l ls IH]; intros h; cbn [tag_lines]; [by intros [= ->]|].
  destruct (starts_with _ l); [apply IH|].
  destruct (strip_prefix (bstr "object ") l) as [b|].
  { intros H. inv_ok. intros _. eapply IH; [exact H|]. cbn. intros i [= <-].
    unfold parse_tag_id in E. inv_ok. unfold map_err in E.
    destruct (from_hex_bytes a b) eqn:Eh; inv_ok; [by apply from_hex_bytes_wf in Eh|done..]. }
  destruct (strip_prefix (bstr "type ") l).
  { intros H. inv_ok. intros Hh. by eapply IH; [exact H|]. }
  destruct (strip_prefix (bstr "tag ") l); [intros H Hh; by eapply IH; [exact H|]|].
  destruct (strip_prefix (bstr "tagger ") l); [intros H Hh; by eapply IH; [exact H|]|]. apply IH.
Qed.

Lemma decode_tag_target a bs t :
  decode_tag a bs = Ok t -> ObjectId_wf (to_target t) /\ algorithm (to_target t) = a.
Proof.
  unfold decode_tag. intros H. inv_ok. cbn [to_target].
  eapply tag_lines_target; [eassumption|done|eassumption].
Qed.

Definition tag_header (t : ObjectId) (k : GitObjectKind) (name tagger : bytes) : list bytes :=
  [bstr "object " ++ hex_encode (as_bytes t); bstr "type " ++ kind_as_bytes k;
   bstr "tag " ++ name; bstr "tagger " ++ tagger].

Lemma tag_header_lines t k n g :
  contains_byte nl n = false -> contains_byte nl g = false -> Forall header_line (tag_header t k n g).
Proof.
  intros Hn Hg. unfold tag_header.
  repeat constructor; try done; rewrite contains_byte_app, ?hex_text, ?Hn, ?Hg; try done.
  by destruct k.
Qed.

Lemma parse_tag_id_encode i :
  ObjectId_wf i -> parse_tag_id (algorithm i) (hex_encode (as_bytes i)) = Ok i.
Proof.
  intros Hi. unfold parse_tag_id. rewrite utf8_valid_ascii.
  - cbn [negb check]. rewrite bind_Ok, from_hex_bytes_encode by done. done.
  - eapply Forall_impl; [apply hex_encode_text|]. cbn. lia.
Qed.

(** The decoder on the lines the encoder writes. *)
Lemma tag_header_decode t k n g :
  ObjectId_wf t ->
  tag_lines (algorithm t) (tag_header t k n g) (MkTagHeaders None None None None)
  = Ok (MkTagHeaders (Some t) (Some k) (Some n) (Some g)).
Proof.
  intros Ht.
  change (tag_lines (algorithm t) (tag_header t k n g) (MkTagHeaders None None None None)) with
    (i ← parse_tag_id (algorithm t) (hex_encode (as_bytes t));
     k' ← ok_or (kind_parse (kind_as_bytes k)) InvalidData "tag object type is invalid";
     Ok (MkTagHeaders (Some i) (Some k') (Some n) (Some g))).
  by rewrite parse_tag_id_encode, kind_parse_as_bytes.
Qed.

(** A tag that [encode_tag] accepts decodes to the same target,
    kind, name, tagger text and message; [encode_tag] accepts exactly the non-empty names without
    NUL or line break and the messages without NUL. *)
Theorem tag_roundtrip t k name tagger msg :
  ObjectId_wf t -> signature_ok tagger ->
  (is_ok (encode_tag t k name tagger msg) = true <->
     name <> [] /\ contains_byte Byte.x00 name = false /\ contains_byte nl name = false /\
     contains_byte Byte.x00 msg = false) /\
  forall bs, encode_tag t k name tagger msg = Ok bs ->
    exists g, write_to tagger [] = Ok g /\
      decode_tag (algorithm t) bs = Ok (MkTagObject t k name g msg).
Proof.
  intros Ht Hs. destruct (write_to_spec tagger Hs) as (g & Hg & Hng & _).
  assert (Henc : encode_tag t k name tagger msg
    = (_ ← validate_tag_name name;
       _ ← check (contains_byte Byte.x00 msg) InvalidInput "tag message contains NUL";
       Ok (join_with nl (tag_header t k name g) ++ blank_line ++ msg))).
  { unfold encode_tag. destruct (validate_tag_name name); [rewrite !bind_Ok|done..].
    destruct (check _ _ _); [rewrite !bind_Ok|done..].
    rewrite write_hex_bytes_eq, bind_Ok, Hg, bind_Ok. f_equal.
    unfold tag_header. cbn [join_with]. solve_app. }
  rewrite Henc. split.
  - unfold validate_tag_name, check. case_bool_decide; cbn; [naive_solver|].
    destruct (contains_byte Byte.x00 name), (contains_byte nl name), (contains_byte Byte.x00 msg);
      cbn; naive_solver.
  - intros bs H. unfold validate_tag_name in H. rewrite !bind_check_Ok, !orb_false_iff in H.
    destruct H as (((Hne & Hnul) & Hnl) & Hm & H).
    assert (bs = join_with nl (tag_header t k name g) ++ blank_line ++ msg) as -> by congruence.
    exists g. rewrite Hg. split; [done|].
    pose proof (tag_header_lines t k name g Hnl Hng) as Hls.
    unfold decode_tag. rewrite find_header_end by done. cbn [ok_or]. rewrite bind_Ok. cbv zeta.
    rewrite Nat.add_sub.
    slice_as (@nil byte) (join_with nl (tag_header t k name g)) (blank_line ++ msg).
    slice_tail_as (join_with nl (tag_header t k name g) ++ [nl; nl]) msg.
    rewrite split_on_join; [|done|by eapply Forall_impl; [exact Hls|]; intros l [_ Hl]].
    rewrite tag_header_decode by done. done.
Qed.

(** ** Witness *)

#[local] Existing Instances sample_sha sample_sha_laws.

Lemma tag_roundtrip_witness :
  exists bs t, encode_tag (sample_id Sha1 1) Commit (bstr "v1.0") sample_signature (bstr "notes")
            = Ok bs /\ decode_tag Sha1 bs = Ok t /\ to_name t = bstr "v1.0".
Proof.
  destruct (tag_roundtrip (sample_id Sha1 1) Commit (bstr "v1.0") sample_signature (bstr "notes")
    (sample_id_wf _ _) sample_signature_ok) as [_ Hr].
  destruct (encode_tag _ _ _ _ _) as [bs| | |] eqn:E; [|vm_compute in E; discriminate..].
  destruct (Hr bs eq_refl) as (g & _ & Hd).
  exists bs. eexists. split; [reflexivity|]. split; [exact Hd|reflexivity].
Defined.
