(* ===== verification/Reachable.v ===== *)
(** * Reachable objects (zmin-git-core/src/reachable.rs)

    The depth-first traversal from a list of roots, over any store of the interface. *)
From S2P Require Import Prelude Object Text TreeCodec Store Commit Tag.

Section reachable.
Context `{GitObjectStore St}.
Implicit Types (s : St) (seen : gset ObjectId) (pending : list ObjectId).

(** ** The traversal

    [seen] is the [HashSet]; [pending] is the stack, its top first.  Capacity reservations have
    no effect on the result. *)

Definition schedule_reachable_object (st : gset ObjectId * list ObjectId) (i : ObjectId)
  : gset ObjectId * list ObjectId :=
  let '(seen, pending) := st in
  if bool_decide (i ∈ seen) then st else ({[ i ]} ∪ seen, i :: pending).

Definition mark_reachable_object s (i : ObjectId) (st : gset ObjectId * list ObjectId)
  : outcome (gset ObjectId * list ObjectId) :=
  hint ← object_kind_hint s i;
  if bool_decide (hint = Some Blob) then Ok st else
  object ← read_object s i;
  match lo_kind object with
  | Blob => Ok st
  | Tree =>
      for_each_tree_object_ref (algorithm i) (lo_content object)
        (fun st mode entry_id =>
           Ok (if bool_decide (mode = TGitlink) then st else schedule_reachable_object st entry_id))
        st
  | Commit =>
      commit ← decode_commit_links (algorithm i) (lo_content object);
      let st := schedule_reachable_object st (cl_tree commit) in
      Ok (fold_left schedule_reachable_object (cl_parents commit) st)
  | Tag =>
      tag ← decode_tag (algorithm i) (lo_content object);
      Ok (schedule_reachable_object st (to_target tag))
  end.

(** [while let Some(id) = pending.pop() { mark_reachable_object(..)?; }] *)
Fixpoint drain_pending (fuel : nat) s seen pending : outcome (gset ObjectId) :=
  match pending with
  | [] => Ok seen
  | i :: pending =>
      match fuel with
      | 0 => NoFuel
      | S fuel =>
          '(seen, pending) ← mark_reachable_object s i (seen, pending);
          drain_pending fuel s seen pending
      end
  end.

(** [for root in roots.iter().rev()]. *)
Fixpoint visit_roots (fuel : nat) s (roots : list ObjectId) seen : outcome (gset ObjectId) :=
  match roots with
  | [] => Ok seen
  | root :: roots =>
      if bool_decide (root ∈ seen) then visit_roots fuel s roots seen
      else
        let '(seen, pending) := schedule_reachable_object (seen, []) root in
        seen ← drain_pending fuel s seen pending;
        visit_roots fuel s roots seen
  end.

Definition collect_reachable_objects_from_roots (fuel : nat) s (roots : list ObjectId)
  : outcome (gset ObjectId) :=
  _ ← object_id_capacity_hint s;
  visit_roots fuel s (rev roots) ∅.

(** ** Specification *)

(** The objects an object refers to (submodule commits excepted). *)
Definition object_refs s (i : ObjectId) : outcome (list ObjectId) :=
  hint ← object_kind_hint s i;
  if bool_decide (hint = Some Blob) then Ok [] else
  object ← read_object s i;
  match lo_kind object with
  | Blob => Ok []
  | Tree =>
      es ← decode_tree (algorithm i) (lo_content object);
      Ok (map te_id (filter (fun e => te_mode e <> TGitlink) es))
  | Commit =>
      c ← decode_commit_links (algorithm i) (lo_content object);
      Ok (cl_tree c :: cl_parents c)
  | Tag =>
      t ← decode_tag (algorithm i) (lo_content object);
      Ok [to_target t]
  end.

Inductive reachable s (roots : list ObjectId) : ObjectId -> Prop :=
| reachable_root i : i ∈ roots -> reachable s roots i
| reachable_step i refs j :
    reachable s roots i -> object_refs s i = Ok refs -> j ∈ refs -> reachable s roots j.

(** ** The step *)

Lemma schedule_entries es st :
  fold_left (fun st e => if bool_decide (te_mode e = TGitlink) then st
                         else schedule_reachable_object st (te_id e)) es st
  = fold_left schedule_reachable_object
      (map te_id (filter (fun e => te_mode e <> TGitlink) es)) st.
Proof.
  revert st. induction es as [|e es IH]; intros st; [done|]. rewrite filter_cons.
  cbn [fold_left]. rewrite IH. case_bool_decide; case_decide; naive_solver.
Qed.

(** Marking an object schedules exactly the objects it refers to, or fails as reading them. *)
Lemma mark_refs s i st :
  mark_reachable_object s i st
  = fmap (M := outcome) (fun refs => fold_left schedule_reachable_object refs st) (object_refs s i).
Proof.
  unfold mark_reachable_object, object_refs.
  destruct (object_kind_hint s i) as [hint|e| |]; [rewrite !bind_Ok|done..].
  case_bool_decide; [done|]. destruct (read_object s i) as [o|e| |]; [rewrite !bind_Ok|done..].
  destruct (lo_kind o); [done|..].
  - rewrite (for_each_fold (fun st mode entry_id => if bool_decide (mode = TGitlink) then st
                                                   else schedule_reachable_object st entry_id)).
    destruct (decode_tree _ _) as [es| | |]; cbn; [|done..]. by rewrite schedule_entries.
  - by destruct (decode_commit_links _ _).
  - by destruct (decode_tag _ _).
Qed.

(** What scheduling a list of ids does to the set and the stack. *)
Lemma schedule_list refs seen pending :
  exists new, fold_left schedule_reachable_object refs (seen, pending)
              = (list_to_set new ∪ seen, new ++ pending) /\
    NoDup new /\ (forall j, j ∈ new -> j ∈ refs /\ j ∉ seen) /\
    (forall j, j ∈ refs -> j ∈ new \/ j ∈ seen).
Proof.
  revert seen pending. induction refs as [|r refs IH]; intros seen pending.
  { exists []. split_and!; [|constructor|set_solver..].
    by rewrite list_to_set_nil, (left_id_L ∅ (∪)). }
  cbn [fold_left]. unfold schedule_reachable_object at 2. case_bool_decide as Hr.
  - destruct (IH seen pending) as (new & E & Hnd & Hin & Hall). exists new.
    split_and!; [done|done|set_solver|set_solver].
  - destruct (IH ({[ r ]} ∪ seen) (r :: pending)) as (new & E & Hnd & Hin & Hall).
    exists (new ++ [r]). split_and!.
    + rewrite E, list_to_set_app_L, list_to_set_singleton_L, <- (assoc_L (∪)), <- app_assoc. done.
    + apply NoDup_app. split_and!; [done| |apply NoDup_singleton].
      intros j Hj ->%list_elem_of_singleton. set_solver.
    + set_solver.
    + set_solver.
Qed.

(** ** The traversal *)

(** The state of the loop: what is seen and no longer pending is closed. *)
Definition trav_inv s (roots : list ObjectId) seen pending : Prop :=
  (forall i, i ∈ seen -> reachable s roots i) /\
  (forall i, i ∈ pending -> i ∈ seen) /\
  (forall i, i ∈ seen -> i ∉ pending ->
     exists refs, object_refs s i = Ok refs /\ forall j, j ∈ refs -> j ∈ seen).

(** A finite set of ids that contains the roots and is closed under references. *)
Definition universe s (roots : list ObjectId) (U : gset ObjectId) : Prop :=
  (forall i, i ∈ roots -> i ∈ U) /\
  (forall i refs j, i ∈ U -> object_refs s i = Ok refs -> j ∈ refs -> j ∈ U).

Lemma universe_reachable s roots U i : universe s roots U -> reachable s roots i -> i ∈ U.
Proof. intros [Hr Hc]. induction 1; eauto. Qed.

Lemma trav_inv_step s roots seen i pending refs new :
  trav_inv s roots seen (i :: pending) -> object_refs s i = Ok refs ->
  (forall j, j ∈ new -> j ∈ refs /\ j ∉ seen) -> (forall j, j ∈ refs -> j ∈ new \/ j ∈ seen) ->
  trav_inv s roots (list_to_set new ∪ seen) (new ++ pending).
Proof.
  intros (Hr & Hp & Hc) Er Hnew Hall. split_and!.
  - intros j. rewrite elem_of_union, elem_of_list_to_set. intros [Hj|Hj]; [|by apply Hr].
    apply reachable_step with i refs; [apply Hr, Hp; by left|done|by apply Hnew].
  - intros j. rewrite elem_of_union, elem_of_list_to_set, elem_of_app. intros [?|?]; [by left|].
    right. apply Hp. by right.
  - intros j Hj Hnp. rewrite elem_of_app in Hnp.
    destruct (decide (j = i)) as [->|Hne].
    + exists refs. split; [done|]. intros k Hk. destruct (Hall k Hk); set_solver.
    + destruct (Hc j) as (refs' & E & Hin); [set_solver..|].
      exists refs'. split; [done|]. set_solver.
Qed.

(** How a traversal may end: with the exact answer, or with the failure of a reachable object. *)
Definition trav_end s (roots : list ObjectId) seen (r : outcome (gset ObjectId)) : Prop :=
  match r with
  | Ok seen' => seen ⊆ seen' /\ trav_inv s roots seen' []
  | Err e => exists i, reachable s roots i /\ object_refs s i = Err e
  | Panic | NoFuel => False
  end.

Lemma drain_pending_spec s roots U fuel seen pending :
  universe s roots U -> (forall i, safe (object_refs s i)) ->
  trav_inv s roots seen pending -> NoDup pending ->
  size (U ∖ seen) + length pending <= fuel ->
  trav_end s roots seen (drain_pending fuel s seen pending).
Proof.
  intros HU Hsafe. revert seen pending. induction fuel as [|fuel IH];
    intros seen [|i pending] Hinv Hnd Hf; cbn [drain_pending]; try done; [cbn in Hf; lia|].
  rewrite mark_refs. pose proof (Hsafe i) as Hs. pose proof Hinv as (Hr & Hp & _).
  destruct (object_refs s i) as [refs|e| |] eqn:Er; cbn in Hs; try done.
  2: { exists i. split; [apply Hr, Hp; by left|done]. }
  destruct (schedule_list refs seen pending) as (new & E & Hnew & Hin & Hall).
  change (fmap (M := outcome) ?f (Ok refs)) with (Ok (f refs)). cbv beta. rewrite E, bind_Ok.
  cbn beta iota. apply NoDup_cons in Hnd as [_ Hnd].
  assert (Hnp : NoDup (new ++ pending)).
  { apply NoDup_app. split_and!; [done| |done]. intros j Hj Hj'.
    destruct (Hin j Hj) as [_ []]. apply Hp. by right. }
  specialize (IH (list_to_set new ∪ seen) (new ++ pending)).
  assert (Hsz : size (U ∖ (list_to_set new ∪ seen)) + length new <= size (U ∖ seen)).
  { rewrite <- (size_list_to_set (C := gset ObjectId) new) by done.
    rewrite <- size_union by set_solver. apply subseteq_size.
    intros j. rewrite elem_of_union, !elem_of_difference, elem_of_union, elem_of_list_to_set.
    intros [[? ?]|Hj]; [split; [done|]; naive_solver|]. destruct (Hin j Hj) as [Hj' Hns].
    split; [|done]. apply (proj2 HU i refs); [|done|done].
    apply (universe_reachable s roots); [done|]. apply Hr, Hp. by left. }
  rewrite length_app in IH. cbn [length] in Hf.
  assert (Hend : trav_end s roots (list_to_set new ∪ seen)
    (drain_pending fuel s (list_to_set new ∪ seen) (new ++ pending))).
  { apply IH; [by eapply trav_inv_step|done|lia]. }
  destruct (drain_pending _ _ _ _); [|done..]. destruct Hend as [Hsub ?]. split; [set_solver|done].
Qed.

Lemma visit_roots_spec s roots U fuel rs seen :
  universe s roots U -> (forall i, safe (object_refs s i)) -> size U <= fuel ->
  (forall i, i ∈ rs -> i ∈ roots) -> trav_inv s roots seen [] ->
  trav_end s roots seen (visit_roots fuel s rs seen) /\
  forall seen', visit_roots fuel s rs seen = Ok seen' -> forall i, i ∈ rs -> i ∈ seen'.
Proof.
  intros HU Hsafe Hf. revert seen. induction rs as [|r rs IH]; intros seen Hrs Hinv.
  { split; [split; [done|done]|set_solver]. }
  cbn [visit_roots]. case_bool_decide as Hr.
  { destruct (IH seen) as [Hend Hin]; [set_solver|done|]. split; [done|].
    intros seen' E i [->|Hi]%elem_of_cons; [|by eapply Hin].
    unfold trav_end in Hend. rewrite E in Hend. set_solver. }
  unfold schedule_reachable_object. rewrite bool_decide_false by done. cbn beta iota.
  assert (Hinv' : trav_inv s roots ({[ r ]} ∪ seen) [r]).
  { destruct Hinv as (H1 & H2 & H3). split_and!.
    - intros i [->%elem_of_singleton|Hi]%elem_of_union; [|by apply H1].
      apply reachable_root. set_solver.
    - set_solver.
    - intros i Hi Hne. destruct (H3 i) as (refs & ? & ?); [set_solver..|].
      exists refs. set_solver. }
  assert (Hrb : r ∈ U) by (apply HU, Hrs; by left).
  pose proof (drain_pending_spec s roots U fuel ({[ r ]} ∪ seen) [r] HU Hsafe Hinv'
    (NoDup_singleton r)) as Hd.
  assert (Hsz : size (U ∖ ({[ r ]} ∪ seen)) + length [r] <= fuel).
  { cbn [length]. apply Nat.le_trans with (size U); [|done].
    rewrite <- (size_singleton (C := gset ObjectId) r), <- size_union by set_solver.
    apply subseteq_size. set_solver. }
  specialize (Hd Hsz). destruct (drain_pending _ _ _ _) as [seen1|e| |]; [|done..].
  destruct Hd as [Hsub Hinv1]. rewrite bind_Ok.
  destruct (IH seen1) as [Hend Hin]; [set_solver|done|]. split.
  - destruct (visit_roots fuel s rs seen1); [|done..]. destruct Hend. split; [set_solver|done].
  - intros seen' E i [->|Hi]%elem_of_cons; [|by eapply Hin].
    unfold trav_end in Hend. rewrite E in Hend. set_solver.
Qed.

Lemma size_list_to_set_le (l : list ObjectId) : size (list_to_set l : gset ObjectId) <= length l.
Proof.
  induction l as [|i l IH]; [done|]. rewrite list_to_set_cons, size_union_alt, size_singleton.
  cbn [length]. apply le_n_S. etransitivity; [|exact IH]. apply subseteq_size. set_solver.
Qed.

(** A universe can be checked by computation. *)
Definition universe_check s (roots l : list ObjectId) : bool :=
  forallb (fun i => bool_decide (i ∈ l)) roots &&
  forallb (fun i => match object_refs s i with
                    | Ok refs => forallb (fun j => bool_decide (j ∈ l)) refs
                    | _ => true
                    end) l.

Lemma universe_check_ok s roots l :
  universe_check s roots l = true -> universe s roots (list_to_set l).
Proof.
  unfold universe_check. rewrite andb_true_iff, !forallb_forall. intros [H1 H2]. split.
  - intros i Hi%list_elem_of_In. apply H1, bool_decide_eq_true in Hi. set_solver.
  - intros i refs j Hi E Hj. apply elem_of_list_to_set, list_elem_of_In, H2 in Hi.
    rewrite E, forallb_forall in Hi. apply list_elem_of_In, Hi, bool_decide_eq_true in Hj.
    set_solver.
Qed.
End reachable.

Section exact.
Context `{StoreLaws St inv}.

Lemma safe_object_refs (s : St) i : inv s -> safe (object_refs s i).
Proof.
  intros Hs. unfold object_refs. apply safe_bind; [by apply kind_hint_safe|]. intros hint _.
  case_bool_decide; [done|]. apply safe_bind; [by apply read_object_safe|]. intros o _.
  destruct (lo_kind o); [done|apply safe_bind; [|done]..].
  - apply safe_decode_tree.
  - apply decode_links_iff.
  - apply safe_decode_tag.
Qed.

(** C1: on a store with a finite set of ids that contains the roots and is closed under
    references, the traversal terminates with the stated fuel and never panics; when it succeeds
    the result is exactly the set of the ids reachable from the roots, all of them readable;
    when it fails, the error is that of a reachable object (or of the store's size hint). *)
Theorem collect_reachable_exact (s : St) roots U fuel :
  inv s -> universe s roots U -> size U <= fuel ->
  match collect_reachable_objects_from_roots fuel s roots with
  | Ok seen => forall i, (i ∈ seen <-> reachable s roots i) /\
                         (i ∈ seen -> is_ok (object_refs s i) = true)
  | Err e => object_id_capacity_hint s = Err e \/
             exists i, reachable s roots i /\ object_refs s i = Err e
  | Panic | NoFuel => False
  end.
Proof.
  intros Hs HU Hf. unfold collect_reachable_objects_from_roots.
  pose proof (capacity_hint_safe s Hs) as Hcap.
  destruct (object_id_capacity_hint s) as [n|e| |]; cbn in Hcap; [rewrite bind_Ok|by left|done..].
  destruct (visit_roots_spec s roots U fuel (rev roots) ∅ HU) as [Hend Hin].
  - intros i. by apply safe_object_refs.
  - done.
  - intros i. by rewrite !list_elem_of_In, <- in_rev.
  - split_and!; set_solver.
  - destruct (visit_roots fuel s (rev roots) ∅) as [seen|e| |]; [|by right|done..].
    destruct Hend as [_ (Hr & _ & Hc)]. intros i. split; [split; [apply Hr|]|].
    + induction 1 as [i Hi|i refs j _ IH E Hj].
      * apply (Hin seen); [done|]. by rewrite list_elem_of_In, <- in_rev, <- list_elem_of_In.
      * destruct (Hc i IH) as (refs' & E' & Hsub); [set_solver|].
        apply Hsub. congruence.
    + intros Hi. destruct (Hc i Hi) as (refs & -> & _); [set_solver|done].
Qed.
End exact.

(** ** Witness *)

#[local] Existing Instances sample_sha sample_sha_laws.

(** A tree with one file, and the file. *)
Definition tree_store : outcome (InMemoryObjectStore * ObjectId * ObjectId) :=
  '(s, b) ← in_memory_write_object sample_store Blob (bstr "hi");
  content ← encode_tree [MkTreeEntry TFile (bstr "f") b];
  '(s, t) ← in_memory_write_object s Tree content;
  Ok (s, t, b).

Lemma collect_reachable_exact_witness :
  exists s t b, tree_store = Ok (s, t, b) /\
    match collect_reachable_objects_from_roots 2 s [t] with
    | Ok seen => b ∈ seen <-> reachable s [t] b
    | _ => False
    end.
Proof.
  destruct tree_store as [[[s t] b]|e| |] eqn:E; [|vm_compute in E; discriminate..].
  exists s, t, b. split; [reflexivity|].
  assert (in_memory_wf s) as Hs.
  { unfold tree_store in E. apply bind_Ok_inv in E as ([s1 b1] & E1 & E).
    apply bind_Ok_inv in E as (content & _ & E). apply bind_Ok_inv in E as ([s2 t2] & E2 & E).
    injection E as <- _ _. apply (in_memory_write_wf _ _ _ _ _ (in_memory_write_wf _ _ _ _ _ sample_store_wf E1) E2). }
  assert (Hc : universe_check s [t] [t; b] = true).
  { vm_compute in E. injection E as <- <- <-. vm_compute. reflexivity. }
  assert (Ho : is_ok (collect_reachable_objects_from_roots 2 s [t]) = true).
  { vm_compute in E. injection E as <- <- <-. vm_compute. reflexivity. }
  pose proof (collect_reachable_exact (inv := in_memory_wf) s [t] (list_to_set [t; b]) 2 Hs
    (universe_check_ok _ _ _ Hc) (size_list_to_set_le _)) as H.
  destruct (collect_reachable_objects_from_roots _ _ _) as [seen|e| |].
  - apply H.
  - discriminate Ho.
  - exact H.
  - exact H.
Defined.
