(* ===== verification/IndexCodec.v ===== *)
(** * The index file: streaming encoder and decoder (the binary half of
      zmin-git-core/src/index.rs) *)
From S2P Require Import Prelude Digits Object Order Text TreeCodec Index.

(** ** Constants *)

Definition INDEX_SIGNATURE : bytes := bstr "DIRC".
Definition INDEX_VERSION_V2 : N := 2.
Definition INDEX_VERSION_V3 : N := 3.
Definition ENTRY_FIXED_LEN : nat := 62.
Definition CHECKSUM_LEN : nat := 20.
Definition ENTRY_FLAG_ASSUME_VALID : N := 32768.
Definition ENTRY_FLAG_EXTENDED : N := 16384.
Definition ENTRY_EXTENDED_SKIP_WORKTREE : N := 16384.
Definition ENTRY_EXTENDED_INTENT_TO_ADD : N := 8192.
Definition RESOLVE_UNDO_EXTENSION : bytes := bstr "REUC".

(** ** The streaming writer *)

(** [Write::flush] of the inner writer. *)
Class Flush (W : Type) : Type := writer_flush : W -> outcome unit * W.

(** [IndexStreamingWriter]: the digest is the bytes it has absorbed. *)
Record IndexStreamingWriter (W : Type) : Type := MkStreaming {
  isw_inner : W;
  isw_digest : bytes;
  entry_start : nat;
  written : nat
}.
Arguments MkStreaming {W}.
Arguments isw_inner {W}.
Arguments isw_digest {W}.
Arguments entry_start {W}.
Arguments written {W}.

Definition streaming_new {W} (w : W) : IndexStreamingWriter W := MkStreaming w [] 0 0.

Definition start_entry {W} (o : IndexStreamingWriter W) : IndexStreamingWriter W :=
  MkStreaming (isw_inner o) (isw_digest o) (written o) (written o).

Definition entry_len {W} (o : IndexStreamingWriter W) : nat := written o - entry_start o.

Section encode.
Context `{Writer W}.
Implicit Types o : IndexStreamingWriter W.

(** [IndexStreamingWriter::write_all]: the digest absorbs the bytes before they are written. *)
Definition emit o (bs : bytes) : outcome unit * IndexStreamingWriter W :=
  let digest := isw_digest o ++ bs in
  match write_all (isw_inner o) bs with
  | (Ok _, w) => (Ok tt, MkStreaming w digest (entry_start o) (written o + length bs))
  | (r, w) => (r, MkStreaming w digest (entry_start o) (written o))
  end.

(** [IndexStreamingWriter::finish]. *)
Definition finish `{Sha, Flush W} o : outcome unit * W :=
  then_write (write_all (isw_inner o) (sha1 (isw_digest o))) writer_flush.

Definition write_u32_stream o (value : N) : outcome unit * IndexStreamingWriter W :=
  emit o (to_be 4 value).

Definition write_u16_stream o (value : N) : outcome unit * IndexStreamingWriter W :=
  emit o (to_be 2 value).

(** The digits of [write_octal_u32_stream], from its 11-byte buffer. *)
Definition write_octal_u32_stream o (value : N) : outcome unit * IndexStreamingWriter W :=
  match render 8 11 value with
  | Ok d => emit o d
  | Err e => (Err e, o)
  | Panic => (Panic, o)
  | NoFuel => (NoFuel, o)
  end.

(** A step that may fail before it writes. *)
Definition guard {A} o (m : outcome A) (f : A -> outcome unit * IndexStreamingWriter W)
  : outcome unit * IndexStreamingWriter W :=
  match m with
  | Ok a => f a
  | Err e => (Err e, o)
  | Panic => (Panic, o)
  | NoFuel => (NoFuel, o)
  end.

Definition flags_for_entry (e : IndexEntry) : N :=
  let path_len := N.of_nat (Nat.min (length (ie_path e)) 4095) in
  let av := if assume_valid e then ENTRY_FLAG_ASSUME_VALID else 0%N in
  let extended := if skip_worktree e || intent_to_add e then ENTRY_FLAG_EXTENDED else 0%N in
  N.lor (N.lor (N.lor av extended) (N.shiftl (ie_stage e) 12)) path_len.

Definition extended_flags_for_entry (e : IndexEntry) : N :=
  let sw := if skip_worktree e then ENTRY_EXTENDED_SKIP_WORKTREE else 0%N in
  let ita := if intent_to_add e then ENTRY_EXTENDED_INTENT_TO_ADD else 0%N in
  N.lor sw ita.

(** [while !out.entry_len().is_multiple_of(8) { out.write_all(&[0])?; }] *)
Fixpoint pad_entry (fuel : nat) o : outcome unit * IndexStreamingWriter W :=
  if entry_len o mod 8 =? 0 then (Ok tt, o) else
  match fuel with
  | 0 => (NoFuel, o)
  | S fuel => then_write (emit o [Byte.x00]) (pad_entry fuel)
  end.

Definition encode_entry_stream o (e : IndexEntry) : outcome unit * IndexStreamingWriter W :=
  guard o (validate_index_path (ie_path e)) (fun _ =>
  guard o (check (3 <? ie_stage e)%N InvalidInput "git index stage must be 0..=3") (fun _ =>
  let o := start_entry o in
  then_write (write_u32_stream o (ctime_seconds e)) (fun o =>
  then_write (write_u32_stream o (ctime_nanoseconds e)) (fun o =>
  then_write (write_u32_stream o (mtime_seconds e)) (fun o =>
  then_write (write_u32_stream o (mtime_nanoseconds e)) (fun o =>
  then_write (write_u32_stream o (dev e)) (fun o =>
  then_write (write_u32_stream o (ino e)) (fun o =>
  then_write (write_u32_stream o (mode_bits (ie_mode e))) (fun o =>
  then_write (write_u32_stream o (uid e)) (fun o =>
  then_write (write_u32_stream o (gid e)) (fun o =>
  then_write (write_u32_stream o (ie_size e)) (fun o =>
  then_write (emit o (as_bytes (ie_id e))) (fun o =>
  then_write (write_u16_stream o (flags_for_entry e)) (fun o =>
  then_write (if skip_worktree e || intent_to_add e
              then write_u16_stream o (extended_flags_for_entry e) else (Ok tt, o)) (fun o =>
  then_write (emit o (ie_path e)) (fun o =>
  then_write (emit o [Byte.x00]) (fun o =>
  pad_entry 8 o))))))))))))))))).

(** The loop of [octal_u32_len]. *)
Fixpoint octal_len_loop (fuel len : nat) (value : N) : outcome nat :=
  if (value <? 8)%N then Ok len else
  match fuel with
  | 0 => NoFuel
  | S fuel => octal_len_loop fuel (len + 1) (value / 8)
  end.

Definition octal_u32_len (value : N) : outcome nat := octal_len_loop 11 1 value.

Definition too_large {A} (x : option A) : outcome A :=
  ok_or x InvalidInput "git resolve-undo extension is too large".

(** The inner loop of [resolve_undo_extension_body_len], over the stages. *)
Fixpoint stages_len (ss : list (option ResolveUndoStage)) (len : nat) : outcome nat :=
  match ss with
  | [] => Ok len
  | s :: ss =>
      mode_len ← (match s with
                  | Some s => octal_u32_len (mode_bits (rus_mode s))
                  | None => Ok 1
                  end);
      len ← too_large (checked_add len (mode_len + 1));
      stages_len ss len
  end.

(** [entry.stages.iter().flatten()]. *)
Definition present (e : ResolveUndoEntry) : list ResolveUndoStage :=
  omap id (rue_stages e).

Fixpoint body_len_loop (es : list ResolveUndoEntry) (len : nat) : outcome nat :=
  match es with
  | [] => Ok len
  | e :: es =>
      len ← too_large (checked_add len (length (rue_path e) + 1));
      len ← stages_len (rue_stages e) len;
      let ids_len := length (present e) * digest_len Sha1 in
      len ← too_large (checked_add len ids_len);
      body_len_loop es len
  end.

(** [u32::try_from]. *)
Definition u32_try_from (n : nat) : option N :=
  if (N.of_nat n <? 2 ^ 32)%N then Some (N.of_nat n) else None.

Definition resolve_undo_extension_body_len (es : list ResolveUndoEntry) : outcome N :=
  len ← body_len_loop es 0;
  too_large (u32_try_from len).

Definition checked_entry_count (count : nat) : outcome N :=
  ok_or (u32_try_from count) InvalidInput "git index has too many entries".

(** A loop that writes the elements in order and stops at the first failure. *)
Fixpoint write_each {A} (f : IndexStreamingWriter W -> A -> outcome unit * IndexStreamingWriter W)
    (l : list A) o : outcome unit * IndexStreamingWriter W :=
  match l with
  | [] => (Ok tt, o)
  | x :: l => then_write (f o x) (write_each f l)
  end.

Definition write_stage_mode o (s : option ResolveUndoStage)
  : outcome unit * IndexStreamingWriter W :=
  then_write (match s with
              | Some s => write_octal_u32_stream o (mode_bits (rus_mode s))
              | None => emit o (bstr "0")
              end) (fun o => emit o [Byte.x00]).

Definition encode_undo_entry o (e : ResolveUndoEntry) : outcome unit * IndexStreamingWriter W :=
  then_write (emit o (rue_path e)) (fun o =>
  then_write (emit o [Byte.x00]) (fun o =>
  then_write (write_each write_stage_mode (rue_stages e) o) (fun o =>
  write_each (fun o s => emit o (as_bytes (rus_id s))) (present e) o))).

Definition encode_resolve_undo_extension_stream o (es : list ResolveUndoEntry)
  : outcome unit * IndexStreamingWriter W :=
  then_write (emit o RESOLVE_UNDO_EXTENSION) (fun o =>
  guard o (resolve_undo_extension_body_len es) (fun n =>
  then_write (write_u32_stream o n) (fun o =>
  write_each encode_undo_entry es o))).

Definition index_version_for_index (index : GitIndex) : N :=
  if existsb (fun e => skip_worktree e || intent_to_add e) (entries index)
  then INDEX_VERSION_V3 else INDEX_VERSION_V2.

Definition write_index_stream o (index : GitIndex) : outcome unit * IndexStreamingWriter W :=
  then_write (emit o INDEX_SIGNATURE) (fun o =>
  then_write (write_u32_stream o (index_version_for_index index)) (fun o =>
  guard o (checked_entry_count (length (entries index))) (fun count =>
  then_write (write_u32_stream o count) (fun o =>
  then_write (write_each encode_entry_stream (entries index) o) (fun o =>
  if bool_decide (resolve_undo index = []) then (Ok tt, o)
  else encode_resolve_undo_extension_stream o (resolve_undo index)))))).

(** The part of [write_index_lock] after the lock file is open. *)
Definition write_index_to `{Sha, Flush W} (w : W) (index : GitIndex) : outcome unit * W :=
  match write_index_stream (streaming_new w) index with
  | (Ok _, o) => finish o
  | (r, o) => (r, isw_inner o)
  end.
End encode.

(** ** The decoder *)

Definition read_u32 (bs : bytes) (offset : nat) : outcome N :=
  stop ← ok_or (checked_add offset 4) InvalidData "git index offset overflow";
  s ← ok_or (get_range bs offset stop) InvalidData "git index u32 is truncated";
  Ok (from_be s).

Definition read_u16 (bs : bytes) (offset : nat) : outcome N :=
  stop ← ok_or (checked_add offset 2) InvalidData "git index offset overflow";
  s ← ok_or (get_range bs offset stop) InvalidData "git index u16 is truncated";
  Ok (from_be s).

Definition flag (flags mask : N) : bool := negb (N.land flags mask =? 0)%N.

(** [while !(next - start).is_multiple_of(8) { next += 1; }] *)
Fixpoint pad_next (fuel start next : nat) : outcome nat :=
  if (next - start) mod 8 =? 0 then Ok next else
  match fuel with
  | 0 => NoFuel
  | S fuel => pad_next fuel start (next + 1)
  end.

Definition decode_entry (bs : bytes) (start limit : nat) : outcome (IndexEntry * nat) :=
  fixed_end ← ok_or (checked_add start ENTRY_FIXED_LEN) InvalidData
                "git index entry offset overflow";
  _ ← check (limit <? fixed_end) InvalidData "git index entry is truncated";
  flags ← read_u16 bs (start + 60);
  let av := flag flags ENTRY_FLAG_ASSUME_VALID in
  let stage := N.land (N.shiftr flags 12) 3 in
  let declared_path_len := N.to_nat (N.land flags 4095) in
  '(sw, ita, path_start) ←
    (if flag flags ENTRY_FLAG_EXTENDED then
       extended_end ← ok_or (checked_add fixed_end 2) InvalidData
                        "git index extended flags offset overflow";
       _ ← check (limit <? extended_end) InvalidData "git index extended flags are truncated";
       extended_flags ← read_u16 bs fixed_end;
       Ok (flag extended_flags ENTRY_EXTENDED_SKIP_WORKTREE,
           flag extended_flags ENTRY_EXTENDED_INTENT_TO_ADD, extended_end)
     else Ok (false, false, fixed_end));
  rest ← slice bs path_start limit;
  offset ← ok_or (position (byte_is Byte.x00) rest) InvalidData "git index path missing NUL";
  let path_nul := path_start + offset in
  path ← slice bs path_start path_nul;
  _ ← check (negb (declared_path_len =? 4095) && negb (declared_path_len =? length path))
        InvalidData "git index path length mismatch";
  _ ← validate_index_path path;
  next ← pad_next 8 start (path_nul + 1);
  _ ← check (limit <? next) InvalidData "git index entry padding is truncated";
  cs ← read_u32 bs start;
  cn ← read_u32 bs (start + 4);
  ms ← read_u32 bs (start + 8);
  mn ← read_u32 bs (start + 12);
  d ← read_u32 bs (start + 16);
  i ← read_u32 bs (start + 20);
  mode_raw ← read_u32 bs (start + 24);
  mode ← mode_from_bits mode_raw;
  u ← read_u32 bs (start + 28);
  g ← read_u32 bs (start + 32);
  sz ← read_u32 bs (start + 36);
  digest ← slice bs (start + 40) (start + 60);
  oid ← ObjectId_new Sha1 digest;
  Ok (MkIndexEntry path oid mode stage sz cs cn ms mn d i u g (index_entry_flags av sw ita), next).

Definition decode_index_header `{Sha} (bs : bytes) : outcome (N * nat) :=
  _ ← check (length bs <? 12 + CHECKSUM_LEN) InvalidData "git index is too short";
  let checksum_offset := length bs - CHECKSUM_LEN in
  body ← slice bs 0 checksum_offset;
  sum ← slice bs checksum_offset (length bs);
  _ ← check (negb (bool_decide (sha1 body = sum))) InvalidData "git index checksum mismatch";
  signature ← slice bs 0 4;
  _ ← check (negb (bool_decide (signature = INDEX_SIGNATURE))) InvalidData
        "git index signature mismatch";
  version ← read_u32 bs 4;
  _ ← check (negb ((version =? INDEX_VERSION_V2)%N || (version =? INDEX_VERSION_V3)%N)) InvalidData
        "unsupported git index version";
  count ← read_u32 bs 8;
  Ok (count, checksum_offset).

Definition read_nul_terminated (bs : bytes) (cursor : nat) (label : string)
  : outcome (bytes * nat) :=
  rest ← slice bs cursor (length bs);
  offset ← ok_or (position (byte_is Byte.x00) rest) InvalidData (label +:+ " missing NUL");
  let nul := cursor + offset in
  s ← slice bs cursor nul;
  Ok (s, nul + 1).

Definition parse_resolve_undo_mode (raw : bytes) : outcome (option IndexMode) :=
  if bool_decide (raw = []) || bool_decide (raw = bstr "0") then Ok None else
  _ ← check (negb (utf8_valid raw)) InvalidData "resolve-undo mode is not utf-8";
  mode ← ok_or (u32_from_octal raw) InvalidData "resolve-undo mode is not octal";
  m ← mode_from_bits mode;
  Ok (Some m).

(** One pass of [for mode in &mut modes]. *)
Definition read_undo_mode (body : bytes) (cursor : nat) : outcome (option IndexMode * nat) :=
  '(raw, cursor) ← read_nul_terminated body cursor "resolve-undo mode";
  mode ← parse_resolve_undo_mode raw;
  Ok (mode, cursor).

(** One pass of [for (idx, mode) in modes.into_iter().enumerate()]. *)
Definition read_undo_id (body : bytes) (cursor : nat) (mode : option IndexMode)
  : outcome (option ResolveUndoStage * nat) :=
  match mode with
  | None => Ok (None, cursor)
  | Some mode =>
      stop ← ok_or (checked_add cursor CHECKSUM_LEN) InvalidData
               "resolve-undo object id offset overflow";
      _ ← check (length body <? stop) InvalidData "resolve-undo object id is truncated";
      digest ← slice body cursor stop;
      i ← ObjectId_new Sha1 digest;
      Ok (Some (MkResolveUndoStage mode i), stop)
  end.

Fixpoint decode_undo_loop (fuel : nat) (body : bytes) (cursor : nat)
    (es : list ResolveUndoEntry) : outcome (list ResolveUndoEntry) :=
  if length body <=? cursor then Ok es else
  match fuel with
  | 0 => NoFuel
  | S fuel =>
      '(path, cursor) ← read_nul_terminated body cursor "resolve-undo path";
      _ ← validate_index_path path;
      '(m1, cursor) ← read_undo_mode body cursor;
      '(m2, cursor) ← read_undo_mode body cursor;
      '(m3, cursor) ← read_undo_mode body cursor;
      '(s1, cursor) ← read_undo_id body cursor m1;
      '(s2, cursor) ← read_undo_id body cursor m2;
      '(s3, cursor) ← read_undo_id body cursor m3;
      decode_undo_loop fuel body cursor (es ++ [MkResolveUndoEntry path s1 s2 s3])
  end.

Definition decode_resolve_undo_extension (body : bytes) : outcome (list ResolveUndoEntry) :=
  decode_undo_loop (length body) body 0 [].

Definition is_ascii_lowercase (b : byte) : bool := in_range 97 122 b.

Fixpoint decode_extensions_loop (fuel : nat) (bs : bytes) (cursor checksum_offset : nat)
    (ru : list ResolveUndoEntry) : outcome (list ResolveUndoEntry) :=
  if checksum_offset <=? cursor then Ok ru else
  match fuel with
  | 0 => NoFuel
  | S fuel =>
      header_end ← ok_or (checked_add cursor 8) InvalidData
                     "git index extension offset overflow";
      _ ← check (checksum_offset <? header_end) InvalidData
            "git index extension header is truncated";
      signature ← slice bs cursor (cursor + 4);
      _ ← check (existsb is_ascii_lowercase signature) InvalidData
            "git index has an unsupported required extension";
      len ← read_u32 bs (cursor + 4);
      cursor ← ok_or (checked_add header_end (N.to_nat len)) InvalidData
                 "git index extension length overflow";
      _ ← check (checksum_offset <? cursor) InvalidData "git index extension body is truncated";
      ru ← (if bool_decide (signature = RESOLVE_UNDO_EXTENSION)
            then body ← slice bs header_end cursor; decode_resolve_undo_extension body
            else Ok ru);
      decode_extensions_loop fuel bs cursor checksum_offset ru
  end.

Definition decode_index_extensions (bs : bytes) (cursor checksum_offset : nat)
  : outcome (list ResolveUndoEntry) :=
  decode_extensions_loop (checksum_offset - cursor) bs cursor checksum_offset [].

(** [for _ in 0..count]. *)
Fixpoint decode_entries (count : nat) (bs : bytes) (cursor limit : nat) (es : list IndexEntry)
  : outcome (list IndexEntry * nat) :=
  match count with
  | 0 => Ok (es, cursor)
  | S count =>
      '(e, next) ← decode_entry bs cursor limit;
      decode_entries count bs next limit (es ++ [e])
  end.

Definition decode_index `{Sha} (bs : bytes) : outcome GitIndex :=
  '(count, checksum_offset) ← decode_index_header bs;
  '(es, cursor) ← decode_entries (N.to_nat count) bs 12 checksum_offset [];
  ru ← decode_index_extensions bs cursor checksum_offset;
  from_trusted_sorted_entries_and_resolve_undo es ru.

(** ** Specification: the bytes of an index *)

Definition pad_len (n : nat) : nat := (8 - n mod 8) mod 8.

Definition entry_fixed (e : IndexEntry) : bytes :=
  to_be 4 (ctime_seconds e) ++ to_be 4 (ctime_nanoseconds e) ++ to_be 4 (mtime_seconds e) ++
  to_be 4 (mtime_nanoseconds e) ++ to_be 4 (dev e) ++ to_be 4 (ino e) ++
  to_be 4 (mode_bits (ie_mode e)) ++ to_be 4 (uid e) ++ to_be 4 (gid e) ++ to_be 4 (ie_size e) ++
  as_bytes (ie_id e) ++ to_be 2 (flags_for_entry e).

Definition entry_extended (e : IndexEntry) : bytes :=
  if skip_worktree e || intent_to_add e then to_be 2 (extended_flags_for_entry e) else [].

Definition entry_unpadded (e : IndexEntry) : bytes :=
  entry_fixed e ++ entry_extended e ++ ie_path e ++ [Byte.x00].

Definition entry_text (e : IndexEntry) : bytes :=
  entry_unpadded e ++ replicate (pad_len (length (entry_unpadded e))) Byte.x00.

(** The octal text of a mode. *)
Definition octal_text (m : IndexMode) : bytes :=
  match m with
  | IFile => bstr "100644"
  | IExecutable => bstr "100755"
  | ISymlink => bstr "120000"
  | IGitlink => bstr "160000"
  end.

Definition stage_text (s : option ResolveUndoStage) : bytes :=
  match s with
  | Some s => octal_text (rus_mode s)
  | None => bstr "0"
  end ++ [Byte.x00].

Definition undo_text (e : ResolveUndoEntry) : bytes :=
  rue_path e ++ [Byte.x00] ++ (rue_stages e ≫= stage_text)
  ++ (present e ≫= fun s => as_bytes (rus_id s)).

Definition undo_body (es : list ResolveUndoEntry) : bytes := es ≫= undo_text.

Definition undo_extension (es : list ResolveUndoEntry) : bytes :=
  match es with
  | [] => []
  | _ => RESOLVE_UNDO_EXTENSION ++ to_be 4 (N.of_nat (length (undo_body es))) ++ undo_body es
  end.

Definition index_body (index : GitIndex) : bytes :=
  INDEX_SIGNATURE ++ to_be 4 (index_version_for_index index)
  ++ to_be 4 (N.of_nat (length (entries index))) ++ (entries index ≫= entry_text)
  ++ undo_extension (resolve_undo index).

Definition index_file `{Sha} (index : GitIndex) : bytes :=
  index_body index ++ sha1 (index_body index).

(** What the encoder needs of an index. *)
Definition index_encodable (index : GitIndex) : Prop :=
  Forall index_entry_ok (entries index) /\
  (N.of_nat (length (entries index)) < 2 ^ 32)%N /\
  (N.of_nat (length (undo_body (resolve_undo index))) < 2 ^ 32)%N.

(** ** The encoder emits the specified bytes *)

Class FlushLaws (W : Type) `{Flush W} (log : W -> bytes) : Prop := {
  flush_log : forall w w', writer_flush w = (Ok tt, w') -> log w' = log w;
  flush_safe : forall w, safe (writer_flush w).1
}.

Section encode_spec.
Context `{WriterLaws W log}.
Implicit Types o : IndexStreamingWriter W.

(** The bytes an action appended; [keep] says that it did not start an entry. *)
Definition appends (keep : bool) o (bs : bytes) o' : Prop :=
  log (isw_inner o') = log (isw_inner o) ++ bs /\ isw_digest o' = isw_digest o ++ bs /\
  written o' = written o + length bs /\ (keep = true -> entry_start o' = entry_start o).

Definition emits (keep : bool) (f : IndexStreamingWriter W -> outcome unit * IndexStreamingWriter W)
    (bs : bytes) : Prop :=
  forall o, safe (f o).1 /\ forall o', f o = (Ok tt, o') -> appends keep o bs o'.

Lemma emits_emit keep bs : emits keep (fun o => emit o bs) bs.
Proof.
  intros o. unfold emit. pose proof (write_all_safe (isw_inner o) bs) as Hs.
  destruct (write_all (isw_inner o) bs) as [[[]|e| |] w] eqn:E; cbn in Hs; try done.
  split; [done|]. intros o' [= <-]. split_and!; [|done..].
  cbn. apply write_all_loop_log in E; done.
Qed.

Lemma emits_weaken f bs : emits true f bs -> emits false f bs.
Proof.
  intros Hf o. destruct (Hf o) as [Hs Ho]. split; [done|]. intros o' E.
  destruct (Ho o' E) as (? & ? & ? & ?). done.
Qed.

Lemma emits_ret keep : emits keep (fun o => (Ok tt, o)) [].
Proof. intros o. split; [done|]. intros o' [= <-]. unfold appends. rewrite !app_nil_r. cbn. auto with lia. Qed.

Lemma emits_then keep f g a b :
  emits keep f a -> emits keep g b -> emits keep (fun o => then_write (f o) g) (a ++ b).
Proof.
  intros Hf Hg o. destruct (Hf o) as [Hs Ho]. split.
  - apply then_write_safe; [done|]. intros o'. apply Hg.
  - intros o' (o1 & E1 & E2)%then_write_Ok. destruct (Ho o1 E1) as (L1 & D1 & W1 & S1).
    destruct (proj2 (Hg o1) o' E2) as (L2 & D2 & W2 & S2). unfold appends.
    rewrite L2, L1, D2, D1, W2, W1, <- !app_assoc, length_app. split_and!; [done|done|lia|].
    intros Hk. by rewrite S2, S1.
Qed.

Lemma emits_guard {A} keep (m : outcome A) f bs :
  safe m -> (forall a, m = Ok a -> emits keep (fun o => f o a) bs) ->
  emits keep (fun o => guard o m (f o)) bs.
Proof. intros Hm Hf o. destruct m; cbn in Hm; try done. by apply Hf. Qed.

Lemma emits_each {A} keep (f : IndexStreamingWriter W -> A -> outcome unit * IndexStreamingWriter W)
    (t : A -> bytes) l :
  (forall x, x ∈ l -> emits keep (fun o => f o x) (t x)) -> emits keep (write_each f l) (l ≫= t).
Proof.
  induction l as [|x l IH]; intros Hf; [apply emits_ret|].
  cbn [write_each mbind list_bind]. apply (emits_then keep (fun o => f o x)).
  - apply Hf. by left.
  - apply IH. intros y Hy. apply Hf. by right.
Qed.

Lemma render_mode m : render 8 11 (mode_bits m) = Ok (octal_text m).
Proof. by destruct m. Qed.

Lemma emits_stage_mode keep s : emits keep (fun o => write_stage_mode o s) (stage_text s).
Proof.
  unfold write_stage_mode, stage_text. apply (emits_then keep (fun o => match s with
    | Some s => write_octal_u32_stream o (mode_bits (rus_mode s))
    | None => emit o (bstr "0")
    end)); [|apply emits_emit].
  destruct s; [|apply emits_emit]. unfold write_octal_u32_stream. rewrite render_mode.
  apply emits_emit.
Qed.

Lemma emits_undo_entry keep e : emits keep (fun o => encode_undo_entry o e) (undo_text e).
Proof.
  unfold encode_undo_entry, undo_text.
  apply (emits_then keep (fun o => emit o (rue_path e))); [apply emits_emit|].
  apply (emits_then keep (fun o => emit o [Byte.x00])); [apply emits_emit|].
  apply (emits_then keep (write_each write_stage_mode (rue_stages e))).
  - apply emits_each. intros s _. apply emits_stage_mode.
  - apply (emits_each keep (fun o s => emit o (as_bytes (rus_id s)))). intros s _. apply emits_emit.
Qed.

(** ** The length of the resolve-undo extension *)

Lemma octal_u32_len_mode m : octal_u32_len (mode_bits m) = Ok (length (octal_text m)).
Proof. by destruct m. Qed.

Lemma stages_len_Ok ss l n :
  stages_len ss l = Ok n -> n = l + length (ss ≫= stage_text).
Proof.
  revert l. induction ss as [|s ss IH]; intros l; cbn [stages_len mbind list_bind].
  { intros [= <-]. cbn. lia. }
  intros E. inv_ok. unfold too_large in *. apply ok_or_Ok, checked_add_Some in E1 as [_ ->].
  apply IH in E as ->. rewrite length_app. unfold stage_text at 2. rewrite length_app.
  cbn [length]. destruct s as [s|].
  - rewrite octal_u32_len_mode in E0. injection E0 as <-. lia.
  - injection E0 as <-. change (length (bstr "0")) with 1. lia.
Qed.

Lemma stages_len_fits ss l :
  (N.of_nat (l + length (ss ≫= stage_text)) < usize_limit)%N -> is_ok (stages_len ss l) = true.
Proof.
  revert l. induction ss as [|s ss IH]; intros l Hl; cbn [stages_len]; [done|].
  cbn [mbind list_bind] in Hl. rewrite length_app in Hl. unfold stage_text at 1 in Hl.
  rewrite length_app in Hl. cbn [length] in Hl.
  assert (exists n, (match s with Some s => octal_u32_len (mode_bits (rus_mode s)) | None => Ok 1 end)
                    = Ok n /\ n = length (match s with Some s => octal_text (rus_mode s)
                                                    | None => bstr "0" end)) as (n & -> & ->).
  { destruct s; [rewrite octal_u32_len_mode; eauto|by exists 1]. }
  rewrite bind_Ok. set (k := length (match s with Some _ => _ | None => _ end)) in *.
  unfold too_large. rewrite checked_add_fits by lia.
  cbn [ok_or]. rewrite bind_Ok. apply IH. lia.
Qed.

Lemma safe_stages_len ss l : safe (stages_len ss l).
Proof.
  revert l. induction ss as [|[s|] ss IH]; intros l; cbn [stages_len]; [done|..].
  - rewrite octal_u32_len_mode, bind_Ok. unfold too_large. apply safe_bind; [auto with zmin|done].
  - rewrite bind_Ok. unfold too_large. apply safe_bind; [auto with zmin|done].
Qed.

Definition undo_ids_ok (e : ResolveUndoEntry) : Prop :=
  forall s, Some s ∈ rue_stages e -> ObjectId_wf (rus_id s) /\ algorithm (rus_id s) = Sha1.

Lemma length_present_ids e :
  undo_ids_ok e -> length (present e ≫= fun s => as_bytes (rus_id s)) = length (present e) * 20.
Proof.
  unfold undo_ids_ok, present. induction (rue_stages e) as [|s ss IH]; intros Hs; [done|].
  assert (Hss : forall s', Some s' ∈ ss -> ObjectId_wf (rus_id s') /\ algorithm (rus_id s') = Sha1)
    by (intros s' ?; apply Hs; by right).
  destruct s as [s|]; cbn [omap list_omap id]; [|by apply IH].
  cbn [mbind list_bind]. rewrite length_app, IH by done.
  destruct (Hs s) as [Hwf Ha]; [by left|]. rewrite length_as_bytes, Ha by done. cbn. lia.
Qed.

Lemma length_undo_text e :
  undo_ids_ok e ->
  length (undo_text e)
  = length (rue_path e) + 1 + length (rue_stages e ≫= stage_text) + length (present e) * 20.
Proof.
  intros He. unfold undo_text. rewrite !length_app, length_present_ids by done. cbn [length]. lia.
Qed.

Lemma body_len_Ok es l n :
  Forall undo_ids_ok es -> body_len_loop es l = Ok n -> n = l + length (undo_body es).
Proof.
  intros Hes. revert l. induction Hes as [|e es He _ IH]; intros l; cbn [body_len_loop].
  { intros [= <-]. cbn. lia. }
  intros E. inv_ok. unfold too_large in *.
  apply ok_or_Ok, checked_add_Some in E0 as [_ ->]. apply ok_or_Ok, checked_add_Some in E2 as [_ ->].
  apply stages_len_Ok in E1 as ->. apply IH in E as ->. unfold undo_body. cbn [mbind list_bind].
  rewrite length_app, length_undo_text by done. cbn [digest_len]. lia.
Qed.

Lemma body_len_fits es l :
  Forall undo_ids_ok es -> (N.of_nat (l + length (undo_body es)) < usize_limit)%N ->
  is_ok (body_len_loop es l) = true.
Proof.
  intros Hes. revert l. induction Hes as [|e es He _ IH]; intros l Hl; cbn [body_len_loop]; [done|].
  unfold undo_body in *. cbn [mbind list_bind] in Hl.
  rewrite length_app, length_undo_text in Hl by done. unfold too_large.
  rewrite checked_add_fits by lia.
  cbn [ok_or]. rewrite bind_Ok.
  pose proof (stages_len_fits (rue_stages e) (l + (length (rue_path e) + 1))) as Hf.
  destruct (stages_len _ _) as [n|e'| |] eqn:E; try (discriminate Hf; lia).
  apply stages_len_Ok in E as ->. rewrite bind_Ok. cbn [digest_len].
  rewrite checked_add_fits by lia. cbn [ok_or]. rewrite bind_Ok.
  apply IH. lia.
Qed.

Lemma safe_body_len es l : safe (body_len_loop es l).
Proof.
  revert l. induction es as [|e es IH]; intros l; cbn [body_len_loop]; [done|]. unfold too_large.
  apply safe_bind; [auto with zmin|]. intros ? _. apply safe_bind; [apply safe_stages_len|].
  intros ? _. apply safe_bind; [auto with zmin|]. intros ? _. apply IH.
Qed.

Lemma u32_try_from_Some n m :
  u32_try_from n = Some m <-> (N.of_nat n < 2 ^ 32)%N /\ m = N.of_nat n.
Proof. unfold u32_try_from. destruct (N.ltb_spec (N.of_nat n) (2 ^ 32)); naive_solver lia. Qed.

(** ** Padding *)

Lemma pad_len_zero n : n mod 8 = 0 <-> pad_len n = 0.
Proof. unfold pad_len. lia_mod. Qed.

Lemma pad_len_step n : n mod 8 <> 0 -> pad_len n = S (pad_len (n + 1)).
Proof. unfold pad_len. lia_mod. Qed.

Lemma pad_len_lt n : pad_len n < 8.
Proof. unfold pad_len. lia_mod. Qed.

Lemma pad_entry_spec fuel o :
  entry_start o <= written o -> pad_len (entry_len o) <= fuel ->
  safe (pad_entry fuel o).1 /\
  forall o', pad_entry fuel o = (Ok tt, o') ->
             appends true o (replicate (pad_len (entry_len o)) Byte.x00) o'.
Proof.
  revert o. induction fuel as [|fuel IH]; intros o Hle Hf; cbn [pad_entry];
    destruct (Nat.eqb_spec (entry_len o mod 8) 0) as [E|E].
  1,3: apply pad_len_zero in E; rewrite E; apply (emits_ret true o).
  { apply pad_len_step in E. lia. }
  apply pad_len_step in E. rewrite E in *.
  destruct (emits_emit true [Byte.x00] o) as [Hs Ho]. split.
  - destruct (emit o [Byte.x00]) as [[[]|e| |] o1] eqn:E1; try done.
    cbn [then_write]. destruct (Ho o1 eq_refl) as (_ & _ & Hw & Hst). specialize (Hst eq_refl).
    cbn [length] in Hw.
    apply IH; [lia|]. unfold entry_len in *. rewrite Hw, Hst.
    replace (written o + 1 - entry_start o) with (written o - entry_start o + 1) by lia. lia.
  - intros o' (o1 & E1 & E2)%then_write_Ok. destruct (Ho o1 E1) as (L1 & D1 & W1 & S1).
    specialize (S1 eq_refl). cbn [length] in W1.
    assert (El : entry_len o1 = entry_len o + 1) by (unfold entry_len; lia).
    destruct (IH o1) as [_ H2]; [lia|rewrite El; lia|].
    destruct (H2 o' E2) as (L2 & D2 & W2 & S2). rewrite El in *.
    unfold appends. rewrite L2, L1, D2, D1, W2, W1, <- !app_assoc.
    cbn [replicate app length]. split_and!; [done|done|lia|]. intros _. by rewrite S2, S1.
Qed.

(** ** Entries, the extension and the whole stream *)

(** A run from [o0] that has written [pre] and ends by having written [total]. *)
Definition ends o0 (total : bytes) (r : outcome unit * IndexStreamingWriter W) : Prop :=
  safe r.1 /\ forall o', r = (Ok tt, o') -> appends true o0 total o'.

Lemma ends_emit o0 pre total o b g :
  appends true o0 pre o -> (forall o1, appends true o0 (pre ++ b) o1 -> ends o0 total (g o1)) ->
  ends o0 total (then_write (emit o b) g).
Proof.
  intros (L & D & Wr & S) Hg. destruct (emits_emit true b o) as [Hs Ho].
  assert (Happ : forall o1, emit o b = (Ok tt, o1) -> appends true o0 (pre ++ b) o1).
  { intros o1 E. destruct (Ho o1 E) as (L1 & D1 & W1 & S1). unfold appends.
    rewrite L1, L, D1, D, W1, Wr, length_app, <- !app_assoc. split_and!; [done|done|lia|].
    intros Hk. by rewrite S1, S. }
  destruct (emit o b) as [[[]|e| |] o1]; try done. apply Hg. by apply Happ.
Qed.

Lemma ends_skip o0 pre total o g :
  appends true o0 pre o -> (forall o1, appends true o0 (pre ++ []) o1 -> ends o0 total (g o1)) ->
  ends o0 total (then_write (Ok tt, o) g).
Proof. intros Ha Hg. apply Hg. by rewrite app_nil_r. Qed.

Lemma ends_extended o0 pre total o e g :
  appends true o0 pre o ->
  (forall o1, appends true o0 (pre ++ entry_extended e) o1 -> ends o0 total (g o1)) ->
  ends o0 total (then_write
    (if skip_worktree e || intent_to_add e
     then write_u16_stream o (extended_flags_for_entry e) else (Ok tt, o)) g).
Proof.
  intros Ha Hg. unfold entry_extended in Hg.
  destruct (skip_worktree e || intent_to_add e); [by eapply ends_emit|by eapply ends_skip].
Qed.

Lemma emits_entry e : emits false (fun o => encode_entry_stream o e) (entry_text e).
Proof.
  unfold encode_entry_stream. apply emits_guard; [apply safe_validate_index_path|]. intros _ _.
  apply emits_guard; [apply safe_check|]. intros _ _ o.
  assert (H0' : appends true (start_entry o) [] (start_entry o)).
  { unfold appends. rewrite !app_nil_r. cbn. auto with lia. }
  match goal with |- safe ?r.1 /\ _ => assert (He : ends (start_entry o) (entry_text e) r) end.
  { repeat (eapply ends_emit; [eassumption|]; clear H0'; intros ? H0').
    eapply ends_extended; [eassumption|]. clear H0'. intros ? H0'.
    repeat (eapply ends_emit; [eassumption|]; clear H0'; intros ? H0').
    match type of H0' with appends true _ ?pre ?o1 =>
      assert (Hpre : pre = entry_unpadded e)
        by (unfold entry_unpadded, entry_fixed; cbn [app]; solve_app);
      rewrite Hpre in H0'; clear Hpre; rename o1 into oz end.
    destruct H0' as (L & D & Wr & Sx). specialize (Sx eq_refl). cbn [start_entry written entry_start] in *.
    assert (El : entry_len oz = length (entry_unpadded e)) by (unfold entry_len; lia).
    destruct (pad_entry_spec 8 oz) as [Hs Hp];
      [lia|pose proof (pad_len_lt (entry_len oz)); lia|].
    split; [done|]. intros o' E. destruct (Hp o' E) as (L1 & D1 & W1 & S1). rewrite El in *.
    unfold appends, entry_text. rewrite L1, L, D1, D, W1, Wr, length_app, <- !app_assoc.
    split_and!; [done|done|cbn [start_entry written]; lia|]. intros Hk. by rewrite S1. }
  destruct He as [Hs Ho]. split; [done|]. intros o' E. destruct (Ho o' E) as (L & D & Wr & _).
  done.
Qed.

Lemma emits_extension es :
  Forall undo_ids_ok es -> es <> [] ->
  emits false (fun o => encode_resolve_undo_extension_stream o es) (undo_extension es).
Proof.
  intros Hids Hne. unfold encode_resolve_undo_extension_stream.
  assert (undo_extension es = RESOLVE_UNDO_EXTENSION ++ to_be 4 (N.of_nat (length (undo_body es)))
            ++ undo_body es) as -> by (by destruct es).
  apply (emits_then false (fun o => emit o RESOLVE_UNDO_EXTENSION)); [apply emits_emit|].
  apply emits_guard.
  - unfold resolve_undo_extension_body_len, too_large. apply safe_bind; [apply safe_body_len|].
    intros ? _. auto with zmin.
  - intros n En. unfold resolve_undo_extension_body_len, too_large in En. inv_ok.
    apply u32_try_from_Some in En as [_ ->]. apply body_len_Ok in E as ->; [|done].
    cbn [Nat.add]. apply (emits_then false (fun o => write_u32_stream o _)); [apply emits_emit|].
    apply (emits_each false encode_undo_entry). intros e _. apply emits_undo_entry.
Qed.

Lemma emits_stream index :
  Forall undo_ids_ok (resolve_undo index) ->
  emits false (fun o => write_index_stream o index) (index_body index).
Proof.
  intros Hids. unfold write_index_stream, index_body.
  apply (emits_then false (fun o => emit o INDEX_SIGNATURE)); [apply emits_emit|].
  apply (emits_then false (fun o => write_u32_stream o _)); [apply emits_emit|].
  apply emits_guard; [apply safe_ok_or|]. intros n En. unfold checked_entry_count in En.
  apply ok_or_Ok, u32_try_from_Some in En as [_ ->].
  apply (emits_then false (fun o => write_u32_stream o _)); [apply emits_emit|].
  apply (emits_then false (write_each encode_entry_stream (entries index))).
  - apply emits_each. intros e _. apply emits_entry.
  - case_bool_decide as Hr; [rewrite Hr; apply emits_ret|by apply emits_extension].
Qed.

(** ** Success: with a writer that accepts everything, only the checks can fail *)

Definition no_err (r : outcome unit * IndexStreamingWriter W) : Prop :=
  match r.1 with
  | Err _ => False
  | _ => True
  end.

Definition total_writer : Prop := forall (w : W) buf, is_ok (write_all w buf).1 = true.

Lemma no_err_emit o bs : total_writer -> no_err (emit o bs).
Proof.
  intros Ht. unfold no_err, emit. specialize (Ht (isw_inner o) bs).
  by destruct (write_all (isw_inner o) bs) as [[[]|e| |] w].
Qed.

Lemma no_err_then r g : no_err r -> (forall o, no_err (g o)) -> no_err (then_write r g).
Proof. unfold no_err. destruct r as [[[]|e| |] o]; cbn; naive_solver. Qed.

Lemma no_err_each {A} (f : IndexStreamingWriter W -> A -> outcome unit * IndexStreamingWriter W) l o :
  (forall x o, x ∈ l -> no_err (f o x)) -> no_err (write_each f l o).
Proof.
  revert o. induction l as [|x l IH]; intros o Hf; [done|]. cbn [write_each].
  apply no_err_then; [apply Hf; by left|]. intros o'. apply IH. intros y o'' Hy. apply Hf. by right.
Qed.

Lemma no_err_pad fuel o : total_writer -> no_err (pad_entry fuel o).
Proof.
  intros Ht. revert o. induction fuel as [|fuel IH]; intros o; cbn [pad_entry];
    destruct (entry_len o mod 8 =? 0); try done.
  apply no_err_then; [by apply no_err_emit|done].
Qed.

Lemma no_err_entry e o : total_writer -> index_entry_ok e -> no_err (encode_entry_stream o e).
Proof.
  intros Ht [Hp Hs]. unfold encode_entry_stream.
  rewrite (proj2 (validate_index_path_Ok _ tt) Hp). cbn [guard]. unfold check.
  rewrite (proj2 (N.ltb_ge _ _)) by done. cbn [guard].
  repeat (apply no_err_then; [by apply no_err_emit|intros ?]).
  apply no_err_then; [destruct (_ || _); [by apply no_err_emit|done]|intros ?].
  repeat (apply no_err_then; [by apply no_err_emit|intros ?]).
  by apply no_err_pad.
Qed.

Lemma no_err_extension es o :
  total_writer -> Forall undo_ids_ok es -> (N.of_nat (length (undo_body es)) < 2 ^ 32)%N ->
  no_err (encode_resolve_undo_extension_stream o es).
Proof.
  intros Ht Hids Hl. unfold encode_resolve_undo_extension_stream.
  apply no_err_then; [by apply no_err_emit|]. intros o1.
  unfold resolve_undo_extension_body_len.
  pose proof (body_len_fits es 0 Hids) as Hb. cbn [Nat.add] in Hb.
  destruct (body_len_loop es 0) as [n|e| |] eqn:E; try (discriminate Hb; unfold usize_limit; lia).
  apply body_len_Ok in E as ->; [|done]. rewrite bind_Ok. unfold too_large, u32_try_from.
  cbn [Nat.add]. rewrite (proj2 (N.ltb_lt _ _)) by done. cbn [ok_or guard].
  apply no_err_then; [by apply no_err_emit|]. intros ?. apply no_err_each. intros e ? _.
  unfold encode_undo_entry.
  repeat (apply no_err_then; [by apply no_err_emit|intros ?]).
  apply no_err_then.
  - apply no_err_each. intros s ? _. unfold write_stage_mode.
    apply no_err_then; [|intros ?; by apply no_err_emit].
    destruct s; [|by apply no_err_emit]. unfold write_octal_u32_stream. rewrite render_mode.
    by apply no_err_emit.
  - intros ?. apply no_err_each. intros ? ? _. by apply no_err_emit.
Qed.

Lemma no_err_stream index o :
  total_writer -> Forall undo_ids_ok (resolve_undo index) -> index_encodable index ->
  no_err (write_index_stream o index).
Proof.
  intros Ht Hids (He & Hn & Hl). unfold write_index_stream, checked_entry_count, u32_try_from.
  repeat (apply no_err_then; [by apply no_err_emit|intros ?]).
  rewrite (proj2 (N.ltb_lt _ _)) by done. cbn [ok_or guard].
  apply no_err_then; [by apply no_err_emit|intros ?].
  apply no_err_then.
  - apply no_err_each. intros e o' Hin. rewrite Forall_forall in He. by apply no_err_entry; auto.
  - intros ?. case_bool_decide; [done|]. by apply no_err_extension.
Qed.

(** The checks of a run that succeeded. *)
Lemma each_Ok {A} (f : IndexStreamingWriter W -> A -> outcome unit * IndexStreamingWriter W)
    (P : A -> Prop) l o o' :
  (forall x o o', f o x = (Ok tt, o') -> P x) -> write_each f l o = (Ok tt, o') -> Forall P l.
Proof.
  intros Hf. revert o. induction l as [|x l IH]; intros o; [constructor|]. cbn [write_each].
  intros (o1 & E1 & E2)%then_write_Ok. constructor; [by eapply Hf|by eapply IH].
Qed.

Lemma guard_Ok {A} o (m : outcome A) f o' :
  guard o m f = (Ok tt, o') -> exists a, m = Ok a /\ f a = (Ok tt, o').
Proof. destruct m; cbn; naive_solver. Qed.

Lemma write_index_stream_Ok index o o' :
  Forall undo_ids_ok (resolve_undo index) ->
  write_index_stream o index = (Ok tt, o') -> index_encodable index.
Proof.
  intros Hids. unfold write_index_stream.
  intros (o1 & _ & E)%then_write_Ok. apply then_write_Ok in E as (o2 & _ & E).
  apply guard_Ok in E as (n & En & E). apply then_write_Ok in E as (o3 & _ & E).
  apply then_write_Ok in E as (o4 & Ee & E). unfold checked_entry_count in En.
  apply ok_or_Ok, u32_try_from_Some in En as [Hn _]. split_and!; [|done|].
  - eapply each_Ok; [|exact Ee]. intros e o5 o6 E'. unfold encode_entry_stream in E'.
    apply guard_Ok in E' as (u & E1 & E'). apply guard_Ok in E' as (u' & E2 & _).
    apply validate_index_path_Ok in E1. apply check_Ok in E2 as [E2 _]. breflect. by split.
  - case_bool_decide as Hr; [rewrite Hr; done|].
    unfold encode_resolve_undo_extension_stream in E. apply then_write_Ok in E as (o5 & _ & E).
    apply guard_Ok in E as (m & Em & _). unfold resolve_undo_extension_body_len, too_large in Em.
    inv_ok. apply u32_try_from_Some in Em as [Hm _]. apply body_len_Ok in E as ->; done.
Qed.

Lemma write_index_to_Ok `{ShaLaws, !Flush W, !FlushLaws W log} (w : W) index w' :
  Forall undo_ids_ok (resolve_undo index) -> write_index_to w index = (Ok tt, w') ->
  index_encodable index /\ log w' = log w ++ index_file index.
Proof.
  intros Hids Hw. destruct (emits_stream index Hids (streaming_new w)) as [_ Ho].
  unfold write_index_to, finish in Hw.
  destruct (write_index_stream (streaming_new w) index) as [[[]|e| |] o] eqn:E;
    [|discriminate..].
  split; [by eapply write_index_stream_Ok|].
  apply then_write_Ok in Hw as (w1 & E1 & E2%flush_log).
  apply write_all_loop_log in E1; [|done].
  destruct (Ho o eq_refl) as (L & D & _). cbn [streaming_new isw_inner isw_digest app] in L, D.
  rewrite E2, E1, L, D. unfold index_file. solve_app.
Qed.

(** Writing an index to any writer that obeys the contract of [io::Write] (short writes
    included) never panics; if it succeeds the writer received exactly the bytes of the index
    file (header, padded entries, resolve-undo extension and SHA-1 of all that), and the paths,
    stages and sizes fit the format; and it fails only when they do not, or when the writer
    fails. *)
Theorem write_index_to_spec `{ShaLaws, !Flush W, !FlushLaws W log} (w : W) index :
  Forall undo_ids_ok (resolve_undo index) ->
  safe (write_index_to w index).1 /\
  (forall w', write_index_to w index = (Ok tt, w') ->
     index_encodable index /\ log w' = log w ++ index_file index) /\
  (total_writer -> (forall w0 : W, is_ok (writer_flush w0).1 = true) ->
   index_encodable index -> is_ok (write_index_to w index).1 = true).
Proof.
  intros Hids. destruct (emits_stream index Hids (streaming_new w)) as [Hs _]. split_and!.
  - unfold write_index_to, finish.
    destruct (write_index_stream (streaming_new w) index) as [[[]|e| |] o] eqn:E; try done.
    apply then_write_safe; [apply write_all_safe|apply flush_safe].
  - intros w'. by apply write_index_to_Ok.
  - intros Ht Hf He. pose proof (no_err_stream index (streaming_new w) Ht Hids He) as Hn.
    unfold write_index_to, finish.
    destruct (write_index_stream (streaming_new w) index) as [[[]|e| |] o] eqn:E; try done.
    specialize (Ht (isw_inner o) (sha1 (isw_digest o))).
    destruct (write_all (isw_inner o) _) as [[[]|e| |] w1]; try done. apply Hf.
Qed.
End encode_spec.

(** ** The decoder never panics *)

Lemma safe_read_u32 bs o : safe (read_u32 bs o).
Proof. unfold read_u32. solve_safe. Qed.

Lemma safe_read_u16 bs o : safe (read_u16 bs o).
Proof. unfold read_u16. solve_safe. Qed.

Lemma safe_mode_from_bits n : safe (mode_from_bits n).
Proof. unfold mode_from_bits. solve_safe. Qed.
#[export] Hint Resolve safe_read_u32 safe_read_u16 safe_mode_from_bits : zmin.

Lemma pad_next_spec fuel start next :
  start <= next -> pad_len (next - start) <= fuel ->
  pad_next fuel start next = Ok (next + pad_len (next - start)).
Proof.
  revert next. induction fuel as [|fuel IH]; intros next Hle Hf; cbn [pad_next];
    destruct (Nat.eqb_spec ((next - start) mod 8) 0) as [E|E].
  1,3: apply pad_len_zero in E; rewrite E; f_equal; lia.
  { apply pad_len_step in E. lia. }
  apply pad_len_step in E. replace (next - start + 1) with (next + 1 - start) in E by lia.
  rewrite IH by lia. f_equal. lia.
Qed.

Lemma safe_decode_entry bs start limit : limit <= length bs -> safe (decode_entry bs start limit).
Proof.
  intros Hl. unfold decode_entry. apply safe_bind; [auto with zmin|]. intros fe Hfe.
  apply ok_or_Ok, checked_add_Some in Hfe as [_ ->]. unfold ENTRY_FIXED_LEN.
  apply safe_bind; [auto with zmin|]. intros _ [Hlim _]%check_Ok. breflect.
  apply safe_bind; [auto with zmin|]. intros flags _. cbv zeta.
  apply safe_bind; [solve_safe|]. intros [[sw ita] ps] Hps.
  assert (start + 62 <= ps <= limit) as Hps'.
  { destruct (flag flags ENTRY_FLAG_EXTENDED); inv_ok; [|lia].
    apply checked_add_Some in E as [_ ->]. breflect. lia. }
  clear Hps. apply safe_bind; [apply safe_slice; lia|]. intros rest Hr.
  apply slice_length in Hr as Hrl. apply safe_bind; [auto with zmin|]. intros off Ho.
  apply ok_or_Ok, position_lt in Ho. apply safe_bind; [apply safe_slice; lia|]. intros path Hp.
  apply safe_bind; [auto with zmin|]. intros _ _. apply safe_bind; [auto with zmin|]. intros _ _.
  rewrite pad_next_spec; [|lia|pose proof (pad_len_lt (ps + off + 1 - start)); lia].
  rewrite bind_Ok. repeat (apply safe_bind; [solve [auto with zmin]|intros ? _]).
  apply safe_bind; [apply safe_slice; lia|]. intros d Hd. apply slice_length in Hd.
  apply safe_bind; [apply safe_ObjectId_new; cbn; lia|done].
Qed.

Lemma decode_entry_next bs start limit e next :
  decode_entry bs start limit = Ok (e, next) -> start + 62 <= next <= limit.
Proof.
  unfold decode_entry. intros H. inv_ok. destruct v2 as [[sw ita] ps].
  apply checked_add_Some in E as [_ ->]. unfold ENTRY_FIXED_LEN in *.
  assert (start + 62 <= ps) as Hps.
  { destruct (flag _ _); inv_ok; [|lia].
    match goal with HA : checked_add _ _ = Some _ |- _ => apply checked_add_Some in HA as [_ ->] end.
    lia. }
  inv_ok. breflect.
  match goal with HP : pad_next 8 start ?p = Ok _ |- _ =>
    rewrite pad_next_spec in HP; [injection HP as <-|lia|pose proof (pad_len_lt (p - start)); lia]
  end. lia.
Qed.

Lemma decode_entries_next count bs cursor limit es es' next :
  decode_entries count bs cursor limit es = Ok (es', next) ->
  cursor <= next /\ (cursor <= limit -> next <= limit).
Proof.
  revert cursor es. induction count as [|count IH]; intros cursor es; cbn [decode_entries].
  { intros [= <- <-]. lia. }
  intros H. apply bind_Ok_inv in H as ([e n] & E & H). apply decode_entry_next in E.
  apply IH in H. lia.
Qed.

Lemma safe_decode_entries count bs cursor limit es :
  limit <= length bs -> safe (decode_entries count bs cursor limit es).
Proof.
  intros Hl. revert cursor es. induction count as [|count IH]; intros cursor es;
    cbn [decode_entries]; [done|].
  apply safe_bind; [by apply safe_decode_entry|]. intros [e n] _. apply IH.
Qed.

(** A cursor operation: it never panics from a cursor inside the text and moves forward by at
    least [k] bytes. *)
Definition moves {A} (k : nat) (bs : bytes) (cursor : nat) (m : outcome (A * nat)) : Prop :=
  safe m /\ forall a c, m = Ok (a, c) -> cursor + k <= c <= length bs.

Lemma moves_bind {A B} k bs cursor (m : outcome (A * nat)) (f : A * nat -> outcome B) :
  moves k bs cursor m -> (forall a c, cursor + k <= c <= length bs -> safe (f (a, c))) ->
  safe (mbind f m).
Proof.
  intros [Hs Hm] Hf. apply safe_bind; [done|]. intros [a c] E. apply Hf. by eapply Hm.
Qed.

Lemma moves_nul bs cursor label :
  cursor <= length bs -> moves 1 bs cursor (read_nul_terminated bs cursor label).
Proof.
  intros Hc. unfold read_nul_terminated. rewrite slice_from, bind_Ok by done.
  destruct (position _ (drop cursor bs)) as [off|] eqn:E; [|by split].
  cbn [ok_or]. rewrite bind_Ok. cbv zeta. apply position_lt in E as Ho. rewrite length_drop in Ho.
  rewrite slice_eq, bind_Ok by lia. split; [done|]. intros a c [= _ <-]. lia.
Qed.

Lemma safe_parse_resolve_undo_mode raw : safe (parse_resolve_undo_mode raw).
Proof. unfold parse_resolve_undo_mode. solve_safe. Qed.
#[local] Hint Resolve safe_parse_resolve_undo_mode : zmin.

Lemma moves_mode bs cursor : cursor <= length bs -> moves 1 bs cursor (read_undo_mode bs cursor).
Proof.
  intros Hc. unfold read_undo_mode. pose proof (moves_nul bs cursor "resolve-undo mode" Hc) as Hm.
  split.
  - eapply moves_bind; [exact Hm|]. intros a c _. solve_safe.
  - intros a c H. apply bind_Ok_inv in H as ([raw c'] & E & H). inv_ok. by eapply Hm.
Qed.

Lemma moves_id bs cursor m : cursor <= length bs -> moves 0 bs cursor (read_undo_id bs cursor m).
Proof.
  intros Hc. unfold read_undo_id. destruct m as [m|]; [|split; [done|]; intros a c [= _ <-]; lia].
  unfold CHECKSUM_LEN. destruct (checked_add cursor 20) as [e|] eqn:E; [|by split].
  apply checked_add_Some in E as [_ ->]. cbn [ok_or]. rewrite bind_Ok. unfold check.
  destruct (Nat.ltb_spec (length bs) (cursor + 20)); [by split|]. rewrite bind_Ok.
  rewrite slice_eq, bind_Ok by lia.
  rewrite ObjectId_new_ok, bind_Ok by (rewrite length_take, length_drop; cbn; lia).
  split; [done|]. intros a c [= _ <-]. lia.
Qed.

Lemma safe_decode_undo_loop fuel bs cursor es :
  cursor <= length bs -> length bs - cursor <= fuel -> safe (decode_undo_loop fuel bs cursor es).
Proof.
  revert cursor es. induction fuel as [|fuel IH]; intros cursor es Hc Hf; cbn [decode_undo_loop];
    destruct (Nat.leb_spec (length bs) cursor); try done; [lia|].
  eapply moves_bind; [by apply moves_nul|]. intros path c1 H1.
  apply safe_bind; [auto with zmin|]. intros _ _.
  eapply moves_bind; [apply moves_mode; lia|]. intros m1 c2 H2.
  eapply moves_bind; [apply moves_mode; lia|]. intros m2 c3 H3.
  eapply moves_bind; [apply moves_mode; lia|]. intros m3 c4 H4.
  eapply moves_bind; [apply moves_id; lia|]. intros s1 c5 H5.
  eapply moves_bind; [apply moves_id; lia|]. intros s2 c6 H6.
  eapply moves_bind; [apply moves_id; lia|]. intros s3 c7 H7. apply IH; lia.
Qed.

Lemma safe_decode_extensions fuel bs cursor limit ru :
  limit <= length bs -> limit - cursor <= fuel ->
  safe (decode_extensions_loop fuel bs cursor limit ru).
Proof.
  intros Hl. revert cursor ru. induction fuel as [|fuel IH]; intros cursor ru Hf;
    cbn [decode_extensions_loop]; destruct (Nat.leb_spec limit cursor); try done; [lia|].
  apply safe_bind; [auto with zmin|]. intros he Hhe.
  apply ok_or_Ok, checked_add_Some in Hhe as [_ ->].
  apply safe_bind; [auto with zmin|]. intros _ [H1 _]%check_Ok. breflect.
  apply safe_bind; [apply safe_slice; lia|]. intros sig _.
  apply safe_bind; [auto with zmin|]. intros _ _. apply safe_bind; [auto with zmin|]. intros n _.
  apply safe_bind; [auto with zmin|]. intros c Hc. apply ok_or_Ok, checked_add_Some in Hc as [_ ->].
  apply safe_bind; [auto with zmin|]. intros _ [H2 _]%check_Ok. breflect.
  apply safe_bind; [|intros ? _; apply IH; lia].
  case_bool_decide; [|done]. rewrite slice_eq, bind_Ok by lia.
  apply safe_decode_undo_loop; lia.
Qed.

Lemma safe_decode_header `{Sha} bs : safe (decode_index_header bs).
Proof.
  unfold decode_index_header, CHECKSUM_LEN. apply safe_bind; [auto with zmin|].
  intros _ [Hl _]%check_Ok. breflect. cbv zeta.
  repeat (apply safe_bind; [solve [auto with zmin|apply safe_slice; lia]|intros ? _]). done.
Qed.

Lemma decode_header_offset `{Sha} bs n off :
  decode_index_header bs = Ok (n, off) -> off + 20 = length bs /\ 12 <= off.
Proof. unfold decode_index_header, CHECKSUM_LEN. intros H'. inv_ok. breflect. lia. Qed.

Lemma safe_from_trusted es ru : safe (from_trusted_sorted_entries_and_resolve_undo es ru).
Proof.
  unfold from_trusted_sorted_entries_and_resolve_undo, validate_sorted_index_entries,
    validate_sorted_resolve_undo_entries. solve_safe.
Qed.

(** C33: [decode_index] returns on every sequence of bytes, with an index or an error: it never
    panics and no loop runs out of fuel; the indexes it returns satisfy the invariant, strictly
    sorted and therefore without duplicate (path, stage) pairs. *)
Theorem decode_index_safe `{Sha} bs :
  safe (decode_index bs) /\
  forall index, decode_index bs = Ok index -> index_wf index /\ index_strict index.
Proof.
  unfold decode_index. split.
  - apply safe_bind; [apply safe_decode_header|]. intros [n off] Hh.
    apply decode_header_offset in Hh. apply safe_bind; [apply safe_decode_entries; lia|].
    intros [es c] He. apply safe_bind; [apply safe_decode_extensions; lia|]. intros ru _.
    apply safe_from_trusted.
  - intros index H'. apply bind_Ok_inv in H' as ([n off] & _ & H').
    apply bind_Ok_inv in H' as ([es c] & _ & H'). apply bind_Ok_inv in H' as (ru & _ & H').
    by apply from_trusted_wf in H' as (_ & ? & ?).
Qed.

(** ** Round trip *)

Definition u32 (n : N) : Prop := (n < 2 ^ 32)%N.

(** An entry whose fields fit the fixed-width fields of the file. *)
Record entry_fits (e : IndexEntry) : Prop := {
  fits_ok : index_entry_ok e;
  fits_id : ObjectId_wf (ie_id e);
  fits_alg : algorithm (ie_id e) = Sha1;
  fits_flags : (ie_flags e < 8)%N;
  fits_fields : Forall u32 [ctime_seconds e; ctime_nanoseconds e; mtime_seconds e;
    mtime_nanoseconds e; dev e; ino e; uid e; gid e; ie_size e]
}.

Lemma get_be_at l1 s l3 bs off k :
  bs = l1 ++ s ++ l3 -> off = length l1 -> length s = k ->
  (N.of_nat (length bs) < usize_limit)%N ->
  (stop ← ok_or (checked_add off k) InvalidData "git index offset overflow";
   s ← ok_or (get_range bs off stop) InvalidData (if decide (k = 4)
         then "git index u32 is truncated" else "git index u16 is truncated");
   Ok (from_be s)) = Ok (from_be s).
Proof.
  intros -> -> <- Hl. rewrite !length_app in Hl. rewrite checked_add_fits by lia.
  cbn [ok_or]. rewrite bind_Ok, (get_range_app l1 s l3) by done. done.
Qed.

Lemma read_u32_at l1 n l3 bs off :
  bs = l1 ++ to_be 4 n ++ l3 -> off = length l1 -> (N.of_nat (length bs) < usize_limit)%N ->
  u32 n -> read_u32 bs off = Ok n.
Proof.
  intros Hb Ho Hl Hn. rewrite <- (from_be_to_be 4 n) at 1 by done.
  apply (get_be_at l1 _ l3 bs off 4 Hb Ho (length_to_be 4 n) Hl).
Qed.

Lemma read_u16_at l1 n l3 bs off :
  bs = l1 ++ to_be 2 n ++ l3 -> off = length l1 -> (N.of_nat (length bs) < usize_limit)%N ->
  (n < 65536)%N -> read_u16 bs off = Ok n.
Proof.
  intros Hb Ho Hl Hn. rewrite <- (from_be_to_be 2 n) at 1 by done.
  apply (get_be_at l1 _ l3 bs off 2 Hb Ho (length_to_be 2 n) Hl).
Qed.

(** The flag words, checked on every combination. *)
Definition flags_of (av ext : bool) (stage len : N) : N :=
  N.lor (N.lor (N.lor (if av then ENTRY_FLAG_ASSUME_VALID else 0)
    (if ext then ENTRY_FLAG_EXTENDED else 0)) (N.shiftl stage 12)) len.

Definition flags_check (av ext : bool) (stage len : N) : bool :=
  let w := flags_of av ext stage len in
  (w <? 65536)%N && eqb (flag w ENTRY_FLAG_ASSUME_VALID) av && eqb (flag w ENTRY_FLAG_EXTENDED) ext
  && (N.land (N.shiftr w 12) 3 =? stage)%N && (N.land w 4095 =? len)%N.

Lemma flags_check_all av ext stage len :
  (stage <= 3)%N -> (len <= 4095)%N -> flags_check av ext stage len = true.
Proof.
  intros Hs Hl. apply (forall_below 4096 (flags_check av ext stage)); [|lia].
  assert (stage = 0 \/ stage = 1 \/ stage = 2 \/ stage = 3)%N as Hst by lia.
  destruct av, ext, Hst as [ -> |[ -> |[ -> | -> ]]]; vm_compute; reflexivity.
Qed.

Lemma flags_word e :
  index_entry_ok e ->
  let w := flags_for_entry e in
  (w < 65536)%N /\ flag w ENTRY_FLAG_ASSUME_VALID = assume_valid e /\
  flag w ENTRY_FLAG_EXTENDED = skip_worktree e || intent_to_add e /\
  N.land (N.shiftr w 12) 3 = ie_stage e /\
  N.to_nat (N.land w 4095) = Nat.min (length (ie_path e)) 4095.
Proof.
  intros [_ Hs]. cbv zeta.
  change (flags_for_entry e) with (flags_of (assume_valid e) (skip_worktree e || intent_to_add e)
    (ie_stage e) (N.of_nat (Nat.min (length (ie_path e)) 4095))).
  set (n := N.of_nat (Nat.min (length (ie_path e)) 4095)).
  pose proof (flags_check_all (assume_valid e) (skip_worktree e || intent_to_add e) (ie_stage e) n
    Hs ltac:(lia)) as Hc.
  unfold flags_check in Hc. breflect. rewrite !eqb_true_iff in *.
  split_and!; try done. subst n. lia.
Qed.

Lemma extended_word e :
  let w := extended_flags_for_entry e in
  (w < 65536)%N /\ flag w ENTRY_EXTENDED_SKIP_WORKTREE = skip_worktree e /\
  flag w ENTRY_EXTENDED_INTENT_TO_ADD = intent_to_add e.
Proof. unfold extended_flags_for_entry. by destruct (skip_worktree e), (intent_to_add e). Qed.

Lemma index_entry_flags_id e :
  (ie_flags e < 8)%N ->
  index_entry_flags (assume_valid e) (skip_worktree e) (intent_to_add e) = ie_flags e.
Proof.
  intros Hf. unfold assume_valid, skip_worktree, intent_to_add.
  set (f := ie_flags e) in *. clearbody f.
  apply N.eqb_eq. apply (forall_below 8 (fun f => index_entry_flags
    (negb (N.land f INDEX_ENTRY_ASSUME_VALID =? 0)%N)
    (negb (N.land f INDEX_ENTRY_SKIP_WORKTREE =? 0)%N)
    (negb (N.land f INDEX_ENTRY_INTENT_TO_ADD =? 0)%N) =? f)%N); [vm_compute; reflexivity|done].
Qed.

Lemma mode_from_bits_bits m : mode_from_bits (mode_bits m) = Ok m.
Proof. by destruct m. Qed.

Lemma u32_mode_bits m : u32 (mode_bits m).
Proof. by destruct m. Qed.

Lemma length_entry_fixed e : entry_fits e -> length (entry_fixed e) = 62.
Proof.
  intros []. unfold entry_fixed. rewrite !length_app, !length_to_be, length_as_bytes by done.
  by rewrite fits_alg0.
Qed.

Lemma path_ok_position path rest :
  index_path_ok path -> position (byte_is Byte.x00) (path ++ Byte.x00 :: rest) = Some (length path).
Proof. intros (_ & Hn & _). by apply position_byte_app. Qed.

(** The ten words at the start of an entry. *)
Definition entry_words (e : IndexEntry) : list N :=
  [ctime_seconds e; ctime_nanoseconds e; mtime_seconds e; mtime_nanoseconds e; dev e; ino e;
   mode_bits (ie_mode e); uid e; gid e; ie_size e].

Definition words_bytes (ws : list N) : bytes := ws ≫= to_be 4.

Lemma entry_fixed_words e :
  entry_fixed e = words_bytes (entry_words e) ++ as_bytes (ie_id e) ++ to_be 2 (flags_for_entry e).
Proof.
  unfold words_bytes, entry_words, entry_fixed. cbn [mbind list_bind]. rewrite app_nil_r. solve_app.
Qed.

Lemma length_words ws : length (words_bytes ws) = 4 * length ws.
Proof.
  unfold words_bytes. induction ws as [|w ws IH]; [done|]. cbn [mbind list_bind].
  rewrite length_app, length_to_be, IH. cbn [length]. lia.
Qed.

Lemma read_word pre ws rest bs i n :
  bs = pre ++ words_bytes ws ++ rest -> (N.of_nat (length bs) < usize_limit)%N -> Forall u32 ws ->
  ws !! i = Some n -> read_u32 bs (length pre + 4 * i) = Ok n.
Proof.
  intros Hb Hl Hu Hi. apply (read_u32_at (pre ++ words_bytes (take i ws)) n
    (words_bytes (drop (S i) ws) ++ rest)); [|..].
  - rewrite Hb, <- (take_drop_middle ws i n Hi) at 1. unfold words_bytes.
    rewrite bind_app. cbn [mbind list_bind]. solve_app.
  - rewrite length_app, length_words, length_take_le; [done|].
    apply lookup_lt_Some in Hi. lia.
  - done.
  - rewrite Forall_lookup in Hu. by eapply Hu.
Qed.

(** The branch on the extended flags. *)
Lemma decode_extended e pre rest bs limit flags :
  bs = pre ++ entry_extended e ++ rest -> (N.of_nat (length bs) < usize_limit)%N ->
  length pre + length (entry_extended e) <= limit ->
  flag flags ENTRY_FLAG_EXTENDED = skip_worktree e || intent_to_add e ->
  (if flag flags ENTRY_FLAG_EXTENDED then
     extended_end ← ok_or (checked_add (length pre) 2) InvalidData
                      "git index extended flags offset overflow";
     _ ← check (limit <? extended_end) InvalidData "git index extended flags are truncated";
     extended_flags ← read_u16 bs (length pre);
     Ok (flag extended_flags ENTRY_EXTENDED_SKIP_WORKTREE,
         flag extended_flags ENTRY_EXTENDED_INTENT_TO_ADD, extended_end)
   else Ok (false, false, length pre))
  = Ok (skip_worktree e, intent_to_add e, length pre + length (entry_extended e)).
Proof.
  intros Hb Hl Hlim ->. unfold entry_extended in *.
  destruct (extended_word e) as (X0 & X1 & X2).
  destruct (skip_worktree e || intent_to_add e) eqn:E.
  - rewrite length_to_be in *.
    assert (length bs = length pre + 2 + length rest) by (rewrite Hb, !length_app, length_to_be; lia).
    rewrite checked_add_fits by lia. cbn [ok_or]. rewrite bind_Ok. unfold check.
    rewrite (proj2 (Nat.ltb_ge _ _)) by lia. rewrite bind_Ok.
    rewrite (read_u16_at pre (extended_flags_for_entry e) rest bs (length pre)) by done.
    by rewrite bind_Ok, X1, X2.
  - apply orb_false_iff in E as [-> ->]. cbn [length]. by rewrite Nat.add_0_r.
Qed.

(** The decoder on the bytes of one entry. *)
Lemma decode_entry_text e pre post1 post2 bs limit :
  entry_fits e -> bs = pre ++ entry_text e ++ post1 ++ post2 ->
  limit = length (pre ++ entry_text e ++ post1) -> (N.of_nat (length bs) < usize_limit)%N ->
  decode_entry bs (length pre) limit = Ok (e, length (pre ++ entry_text e)).
Proof.
  intros Hfit Hbs Hlim Hlen. pose proof (length_entry_fixed e Hfit) as HF.
  pose proof Hfit as [[Hp Hst] Hid Ha Hfl Hu].
  destruct (flags_word e (conj Hp Hst)) as (W0 & W1 & W2 & W3 & W4).
  set (P := replicate (pad_len (length (entry_unpadded e))) Byte.x00).
  assert (Htext : entry_text e = entry_fixed e ++ entry_extended e ++ ie_path e ++ Byte.x00 :: P).
  { unfold entry_text, entry_unpadded. fold P. solve_app. }
  assert (Hun : length (entry_unpadded e) = 62 + length (entry_extended e) + length (ie_path e) + 1).
  { unfold entry_unpadded. rewrite !length_app, HF. cbn [length]. lia. }
  assert (HlP : length P = pad_len (length (entry_unpadded e))) by apply length_replicate.
  assert (Hlt : length (entry_text e) = length (entry_unpadded e) + length P).
  { rewrite Htext, Hun, !length_app, HF. cbn [length]. lia. }
  assert (Hl2 : length bs = length pre + length (entry_text e) + length post1 + length post2).
  { rewrite Hbs, !length_app. lia. }
  rewrite !length_app in Hlim.
  assert (Hwords : Forall u32 (entry_words e)).
  { rewrite !Forall_cons in Hu. unfold entry_words. pose proof (u32_mode_bits (ie_mode e)).
    repeat constructor; naive_solver. }
  assert (Hb1 : bs = pre ++ words_bytes (entry_words e) ++ as_bytes (ie_id e)
    ++ to_be 2 (flags_for_entry e) ++ entry_extended e ++ ie_path e ++ Byte.x00 :: P ++ post1 ++ post2).
  { rewrite Hbs, Htext, entry_fixed_words. solve_app. }
  assert (Hlw : length (words_bytes (entry_words e)) = 40) by (rewrite length_words; done).
  assert (Hli : length (as_bytes (ie_id e)) = 20) by (rewrite length_as_bytes, Ha; done).
  unfold decode_entry, ENTRY_FIXED_LEN.
  rewrite checked_add_fits by lia. cbn [ok_or]. rewrite bind_Ok.
  rewrite (check_pass (limit <? length pre + 62)) by (apply Nat.ltb_ge; lia). rewrite bind_Ok.
  rewrite (read_u16_at (pre ++ words_bytes (entry_words e) ++ as_bytes (ie_id e))
    (flags_for_entry e) (entry_extended e ++ ie_path e ++ Byte.x00 :: P ++ post1 ++ post2) bs
    (length pre + 60));
    [|rewrite Hb1; solve_app|rewrite !length_app; lia|done|done].
  rewrite bind_Ok. cbv zeta.
  assert (Hpf : length pre + 62 = length (pre ++ entry_fixed e)) by (rewrite length_app; lia).
  rewrite Hpf. rewrite (decode_extended e (pre ++ entry_fixed e)
    (ie_path e ++ Byte.x00 :: P ++ post1 ++ post2) bs limit);
    [|rewrite Hb1, entry_fixed_words; solve_app|done|lia|done].
  rewrite bind_Ok. cbn beta iota. rewrite <- Hpf.
  set (ps := length pre + 62 + length (entry_extended e)).
  rewrite (slice_split (pre ++ entry_fixed e ++ entry_extended e) (ie_path e ++ Byte.x00 :: P ++ post1)
    post2 bs ps limit);
    [|rewrite Hb1, entry_fixed_words; solve_app|unfold ps; rewrite !length_app; lia
     |rewrite !length_app; cbn [length]; rewrite length_app; lia].
  rewrite bind_Ok, path_ok_position by done. cbn [ok_or]. rewrite bind_Ok.
  rewrite (slice_split (pre ++ entry_fixed e ++ entry_extended e) (ie_path e)
    (Byte.x00 :: P ++ post1 ++ post2) bs ps (ps + length (ie_path e)));
    [|rewrite Hb1, entry_fixed_words; solve_app|unfold ps; rewrite !length_app; lia
     |unfold ps; rewrite !length_app; lia].
  rewrite bind_Ok, W4, W3, W1.
  rewrite (check_pass (negb (Nat.min (length (ie_path e)) 4095 =? 4095) && _)).
  2: { apply andb_false_iff. destruct (Nat.le_ge_cases 4095 (length (ie_path e))).
       - left. by rewrite Nat.min_r.
       - right. by rewrite Nat.min_l, Nat.eqb_refl. }
  rewrite bind_Ok, (proj2 (validate_index_path_Ok _ tt) Hp), bind_Ok.
  assert (Hn : ps + length (ie_path e) + 1 - length pre = length (entry_unpadded e))
    by (unfold ps; lia).
  rewrite pad_next_spec; [|unfold ps; lia|pose proof (pad_len_lt (ps + length (ie_path e) + 1 - length pre)); lia].
  rewrite bind_Ok, Hn.
  rewrite (check_pass (limit <? _)) by (apply Nat.ltb_ge; unfold ps; lia). rewrite bind_Ok.
  pose proof (fun i n => read_word pre (entry_words e) _ bs i n Hb1 Hlen Hwords) as Hr.
  assert (R0 : read_u32 bs (length pre) = Ok (ctime_seconds e)) by (rewrite <- (Nat.add_0_r (length pre)); apply (Hr 0 _ eq_refl)).
  assert (R1 : read_u32 bs (length pre + 4) = Ok (ctime_nanoseconds e)) by apply (Hr 1 _ eq_refl).
  assert (R2 : read_u32 bs (length pre + 8) = Ok (mtime_seconds e)) by apply (Hr 2 _ eq_refl).
  assert (R3 : read_u32 bs (length pre + 12) = Ok (mtime_nanoseconds e)) by apply (Hr 3 _ eq_refl).
  assert (R4 : read_u32 bs (length pre + 16) = Ok (dev e)) by apply (Hr 4 _ eq_refl).
  assert (R5 : read_u32 bs (length pre + 20) = Ok (ino e)) by apply (Hr 5 _ eq_refl).
  assert (R6 : read_u32 bs (length pre + 24) = Ok (mode_bits (ie_mode e))) by apply (Hr 6 _ eq_refl).
  assert (R7 : read_u32 bs (length pre + 28) = Ok (uid e)) by apply (Hr 7 _ eq_refl).
  assert (R8 : read_u32 bs (length pre + 32) = Ok (gid e)) by apply (Hr 8 _ eq_refl).
  assert (R9 : read_u32 bs (length pre + 36) = Ok (ie_size e)) by apply (Hr 9 _ eq_refl).
  rewrite R0, bind_Ok, R1, bind_Ok, R2, bind_Ok, R3, bind_Ok, R4, bind_Ok, R5, bind_Ok, R6, bind_Ok,
    mode_from_bits_bits, bind_Ok, R7, bind_Ok, R8, bind_Ok, R9, bind_Ok.
  rewrite (slice_split (pre ++ words_bytes (entry_words e)) (as_bytes (ie_id e))
    (to_be 2 (flags_for_entry e) ++ entry_extended e ++ ie_path e ++ Byte.x00 :: P ++ post1 ++ post2));
    [|rewrite Hb1; solve_app|rewrite !length_app; lia|rewrite !length_app; lia].
  rewrite bind_Ok, <- Ha, ObjectId_new_as_bytes, bind_Ok, index_entry_flags_id by done.
  f_equal. f_equal; [by destruct e|]. rewrite length_app, Hlt. unfold ps. lia.
Qed.

Lemma decode_entries_text es pre post1 post2 bs limit acc :
  Forall entry_fits es -> bs = pre ++ (es ≫= entry_text) ++ post1 ++ post2 ->
  limit = length (pre ++ (es ≫= entry_text) ++ post1) -> (N.of_nat (length bs) < usize_limit)%N ->
  decode_entries (length es) bs (length pre) limit acc
  = Ok (acc ++ es, length (pre ++ (es ≫= entry_text))).
Proof.
  intros Hes. revert pre acc. induction Hes as [|e es He _ IH]; intros pre acc Hb Hl Hlen.
  { cbn [length decode_entries mbind list_bind]. by rewrite !app_nil_r. }
  cbn [length decode_entries mbind list_bind] in *.
  rewrite (decode_entry_text e pre ((es ≫= entry_text) ++ post1) post2);
    [|done|rewrite Hb; solve_app|rewrite Hl; f_equal; solve_app|done].
  rewrite bind_Ok. cbn beta iota. rewrite (IH (pre ++ entry_text e)); [..|done].
  - rewrite <- !app_assoc. done.
  - rewrite Hb. solve_app.
  - rewrite Hl. f_equal. solve_app.
Qed.

(** *** The resolve-undo extension *)

Lemma read_nul_at pre s rest bs label :
  bs = pre ++ s ++ Byte.x00 :: rest -> contains_byte Byte.x00 s = false ->
  read_nul_terminated bs (length pre) label = Ok (s, length (pre ++ s ++ [Byte.x00])).
Proof.
  intros -> Hs. unfold read_nul_terminated. slice_tail_as pre (s ++ Byte.x00 :: rest).
  rewrite position_byte_app by done. cbn [ok_or]. rewrite bind_Ok. cbv zeta.
  slice_as pre s (Byte.x00 :: rest). do 2 f_equal. solve_length.
Qed.

Lemma parse_octal_text m : parse_resolve_undo_mode (octal_text m) = Ok (Some m).
Proof. by destruct m. Qed.

Lemma read_undo_mode_at pre s rest bs :
  bs = pre ++ stage_text s ++ rest ->
  read_undo_mode bs (length pre) = Ok (rus_mode <$> s, length (pre ++ stage_text s)).
Proof.
  intros Hb. unfold read_undo_mode, stage_text in *. destruct s as [s|].
  - rewrite (read_nul_at pre (octal_text (rus_mode s)) rest) by (done || (rewrite Hb; solve_app)
      || by destruct (rus_mode s)).
    rewrite bind_Ok. cbn beta iota. by rewrite parse_octal_text.
  - rewrite (read_nul_at pre (bstr "0") rest) by (done || (rewrite Hb; solve_app)).
    rewrite bind_Ok. done.
Qed.

Definition id_text (s : option ResolveUndoStage) : bytes :=
  match s with
  | Some s => as_bytes (rus_id s)
  | None => []
  end.

Lemma read_undo_id_at pre s rest bs :
  bs = pre ++ id_text s ++ rest -> (N.of_nat (length bs) < usize_limit)%N ->
  (forall s', s = Some s' -> ObjectId_wf (rus_id s') /\ algorithm (rus_id s') = Sha1) ->
  read_undo_id bs (length pre) (rus_mode <$> s) = Ok (s, length (pre ++ id_text s)).
Proof.
  intros Hb Hl Hs. unfold read_undo_id, CHECKSUM_LEN. destruct s as [s|]; cbn [id_text] in *;
    [|by rewrite app_nil_r]. cbn [fmap option_fmap option_map].
  destruct (Hs s eq_refl) as [Hwf Ha].
  assert (Hli : length (as_bytes (rus_id s)) = 20) by (rewrite length_as_bytes, Ha; done).
  assert (length bs = length pre + 20 + length rest) by (rewrite Hb, !length_app, Hli; lia).
  rewrite checked_add_fits by lia. cbn [ok_or]. rewrite bind_Ok.
  rewrite (check_pass (length bs <? length pre + 20)) by (apply Nat.ltb_ge; lia). rewrite bind_Ok.
  rewrite (slice_split pre (as_bytes (rus_id s)) rest) by (done || lia). rewrite bind_Ok.
  rewrite <- Ha, ObjectId_new_as_bytes, bind_Ok by done. rewrite length_app, Hli.
  by destruct s.
Qed.

Lemma present_text e :
  (present e ≫= fun s => as_bytes (rus_id s)) = id_text (stage1 e) ++ id_text (stage2 e) ++ id_text (stage3 e).
Proof.
  unfold present, rue_stages.
  destruct (stage1 e), (stage2 e), (stage3 e); cbn [omap list_omap id mbind list_bind id_text];
    rewrite ?app_nil_r; solve_app.
Qed.

Definition undo_fits (e : ResolveUndoEntry) : Prop := index_path_ok (rue_path e) /\ undo_ids_ok e.

Lemma undo_text_split e :
  undo_text e
  = rue_path e ++ Byte.x00 :: stage_text (stage1 e) ++ stage_text (stage2 e) ++ stage_text (stage3 e)
    ++ id_text (stage1 e) ++ id_text (stage2 e) ++ id_text (stage3 e).
Proof.
  unfold undo_text. rewrite present_text. unfold rue_stages. cbn [mbind list_bind].
  rewrite app_nil_r. solve_app.
Qed.

(** One iteration on the bytes of one record. *)
Lemma decode_undo_step e fuel pre rest bs acc :
  undo_fits e -> bs = pre ++ undo_text e ++ rest -> (N.of_nat (length bs) < usize_limit)%N ->
  decode_undo_loop (S fuel) bs (length pre) acc
  = decode_undo_loop fuel bs (length (pre ++ undo_text e)) (acc ++ [e]).
Proof.
  intros [Hp Hids] Hb Hl. rewrite undo_text_split in *.
  assert (Hid : forall s s', s ∈ rue_stages e -> s = Some s' ->
            ObjectId_wf (rus_id s') /\ algorithm (rus_id s') = Sha1)
    by (intros s s' Hs ->; by apply Hids).
  unfold rue_stages in Hid.
  destruct e as [path s1 s2 s3]. cbn [rue_path stage1 stage2 stage3] in *.
  set (p1 := pre ++ path ++ [Byte.x00]). set (p2 := p1 ++ stage_text s1).
  set (p3 := p2 ++ stage_text s2). set (p4 := p3 ++ stage_text s3).
  set (p5 := p4 ++ id_text s1). set (p6 := p5 ++ id_text s2). set (p7 := p6 ++ id_text s3).
  cbn [decode_undo_loop]. rewrite (proj2 (Nat.leb_gt _ _)) by (rewrite Hb; solve_length).
  rewrite (read_nul_at pre path (stage_text s1 ++ stage_text s2 ++ stage_text s3 ++ id_text s1
    ++ id_text s2 ++ id_text s3 ++ rest)); [|rewrite Hb; solve_app|apply Hp].
  rewrite bind_Ok. cbn beta iota. rewrite (proj2 (validate_index_path_Ok _ tt) Hp), bind_Ok.
  fold p1. rewrite (read_undo_mode_at p1 s1 (stage_text s2 ++ stage_text s3 ++ id_text s1
    ++ id_text s2 ++ id_text s3 ++ rest)) by (rewrite Hb; unfold p1; solve_app).
  rewrite bind_Ok. cbn beta iota.
  fold p2. rewrite (read_undo_mode_at p2 s2 (stage_text s3 ++ id_text s1
    ++ id_text s2 ++ id_text s3 ++ rest)) by (rewrite Hb; unfold p2, p1; solve_app).
  rewrite bind_Ok. cbn beta iota.
  fold p3. rewrite (read_undo_mode_at p3 s3 (id_text s1 ++ id_text s2 ++ id_text s3 ++ rest))
    by (rewrite Hb; unfold p3, p2, p1; solve_app).
  rewrite bind_Ok. cbn beta iota.
  fold p4. rewrite (read_undo_id_at p4 s1 (id_text s2 ++ id_text s3 ++ rest));
    [|rewrite Hb; unfold p4, p3, p2, p1; solve_app|done|intros; eapply Hid; [|done]; set_solver].
  rewrite bind_Ok. cbn beta iota.
  fold p5. rewrite (read_undo_id_at p5 s2 (id_text s3 ++ rest));
    [|rewrite Hb; unfold p5, p4, p3, p2, p1; solve_app|done|intros; eapply Hid; [|done]; set_solver].
  rewrite bind_Ok. cbn beta iota.
  fold p6. rewrite (read_undo_id_at p6 s3 rest);
    [|rewrite Hb; unfold p6, p5, p4, p3, p2, p1; solve_app|done
     |intros; eapply Hid; [|done]; set_solver].
  rewrite bind_Ok. cbn beta iota. fold p7. f_equal.
  unfold p7, p6, p5, p4, p3, p2, p1. f_equal. solve_app.
Qed.

Lemma length_undo_text_pos e : 0 < length (undo_text e).
Proof. rewrite undo_text_split, length_app. cbn [length]. lia. Qed.

Lemma decode_undo_text es fuel pre bs acc :
  Forall undo_fits es -> bs = pre ++ undo_body es -> (N.of_nat (length bs) < usize_limit)%N ->
  length (undo_body es) <= fuel ->
  decode_undo_loop fuel bs (length pre) acc = Ok (acc ++ es).
Proof.
  intros Hes. revert fuel pre acc. induction Hes as [|e es He _ IH];
    intros fuel pre acc Hb Hl Hf.
  { assert (length bs = length pre) as E by (rewrite Hb; unfold undo_body; cbn; by rewrite app_nil_r).
    destruct fuel; cbn [decode_undo_loop]; by rewrite E, Nat.leb_refl, app_nil_r. }
  unfold undo_body in *. cbn [mbind list_bind] in *. rewrite length_app in Hf.
  pose proof (length_undo_text_pos e). destruct fuel as [|fuel]; [lia|].
  rewrite (decode_undo_step e fuel pre (es ≫= undo_text)) by done.
  rewrite IH; [by rewrite <- app_assoc|rewrite Hb; solve_app|done|lia].
Qed.

(** The extensions of an encoded index. *)
Lemma decode_extensions_text es pre post bs :
  Forall undo_fits es -> bs = pre ++ undo_extension es ++ post ->
  (N.of_nat (length bs) < usize_limit)%N -> (N.of_nat (length (undo_body es)) < 2 ^ 32)%N ->
  decode_index_extensions bs (length pre) (length (pre ++ undo_extension es)) = Ok es.
Proof.
  intros Hes Hb Hl Hn. unfold decode_index_extensions. rewrite length_app.
  replace (length pre + length (undo_extension es) - length pre)
    with (length (undo_extension es)) by lia.
  destruct es as [|e es0]; [cbn; by rewrite Nat.add_0_r, Nat.leb_refl|].
  set (es := e :: es0) in *. set (n := N.of_nat (length (undo_body es))) in *.
  assert (Hx : undo_extension es = bstr "REUC" ++ to_be 4 n ++ undo_body es) by done.
  assert (Hlx : length (undo_extension es) = 8 + length (undo_body es)).
  { rewrite Hx, !length_app, length_to_be. change (length (bstr "REUC")) with 4. lia. }
  assert (Hlb : length bs = length pre + (8 + length (undo_body es)) + length post)
    by (rewrite Hb, !length_app; lia).
  rewrite Hx in Hb. rewrite Hlx. cbn [Nat.add decode_extensions_loop].
  rewrite (proj2 (Nat.leb_gt _ _)) by lia. rewrite checked_add_fits by lia. cbn [ok_or].
  rewrite bind_Ok, (check_pass (_ <? _)) by (apply Nat.ltb_ge; lia). rewrite bind_Ok.
  rewrite (slice_split pre (bstr "REUC") (to_be 4 n ++ undo_body es ++ post));
    [|rewrite Hb; solve_app|done|done].
  rewrite bind_Ok, (check_pass (existsb _ _)), bind_Ok by done.
  rewrite (read_u32_at (pre ++ bstr "REUC") n (undo_body es ++ post));
    [|rewrite Hb; solve_app|by rewrite length_app|done|done].
  rewrite bind_Ok, checked_add_fits by lia. cbn [ok_or]. rewrite bind_Ok.
  rewrite (check_pass (_ <? _)) by (apply Nat.ltb_ge; lia). rewrite bind_Ok.
  rewrite bool_decide_true by done.
  assert (Hlh : length (pre ++ bstr "REUC" ++ to_be 4 n) = length pre + 8)
    by (rewrite !length_app, length_to_be; change (length (bstr "REUC")) with 4; lia).
  assert (HnN : N.to_nat n = length (undo_body es)) by apply Nat2N.id.
  rewrite (slice_split (pre ++ bstr "REUC" ++ to_be 4 n) (undo_body es) post bs
    (length pre + 8) (length pre + 8 + N.to_nat n)); [|rewrite Hb; solve_app|lia|lia].
  rewrite bind_Ok. unfold decode_resolve_undo_extension.
  rewrite (decode_undo_text es _ [] (undo_body es) []) by (done || lia).
  rewrite bind_Ok. destruct (7 + length (undo_body es)) as [|f] eqn:Ef; [lia|].
  cbn [decode_extensions_loop app]. rewrite (proj2 (Nat.leb_le _ _)) by lia. done.
Qed.

(** *** The whole file *)

Lemma decode_header_text `{ShaLaws} version count rest body bs :
  (version = INDEX_VERSION_V2 \/ version = INDEX_VERSION_V3) -> (count < 2 ^ 32)%N ->
  body = INDEX_SIGNATURE ++ to_be 4 version ++ to_be 4 count ++ rest -> bs = body ++ sha1 body ->
  (N.of_nat (length bs) < usize_limit)%N ->
  decode_index_header bs = Ok (count, length body).
Proof.
  intros Hv Hc Hb Hbs Hl. unfold decode_index_header, CHECKSUM_LEN.
  assert (Hn : length bs = length body + 20) by (rewrite Hbs, length_app, sha1_length; done).
  assert (Hlb : length body = 12 + length rest)
    by (rewrite Hb, !length_app, !length_to_be; change (length INDEX_SIGNATURE) with 4; lia).
  assert (Hb' : bs = INDEX_SIGNATURE ++ to_be 4 version ++ to_be 4 count ++ rest ++ sha1 body)
    by (rewrite Hbs, Hb at 1; solve_app).
  rewrite (check_pass (length bs <? _)), bind_Ok by (apply Nat.ltb_ge; lia).
  replace (length bs - 20) with (length body) by lia.
  rewrite (slice_split [] body (sha1 body) bs 0 (length body)), bind_Ok by done.
  rewrite (slice_tail body (sha1 body) bs (length body) (length bs)), bind_Ok by done.
  rewrite bool_decide_true by done. rewrite check_pass, bind_Ok by done.
  rewrite (slice_split [] INDEX_SIGNATURE (to_be 4 version ++ to_be 4 count ++ rest ++ sha1 body)
    bs 0 4), bind_Ok by done.
  rewrite bool_decide_true by done. rewrite check_pass, bind_Ok by done.
  rewrite (read_u32_at INDEX_SIGNATURE version (to_be 4 count ++ rest ++ sha1 body) bs 4), bind_Ok;
    [|done|done|done|by destruct Hv as [->| ->]].
  rewrite check_pass, bind_Ok by (by destruct Hv as [->| ->]).
  rewrite (read_u32_at (INDEX_SIGNATURE ++ to_be 4 version) count (rest ++ sha1 body) bs 8), bind_Ok;
    [done|rewrite Hb'; solve_app|by rewrite length_app, length_to_be|done|done].
Qed.

Lemma index_version_cases index :
  index_version_for_index index = INDEX_VERSION_V2 \/ index_version_for_index index = INDEX_VERSION_V3.
Proof. unfold index_version_for_index. destruct (existsb _ _); auto. Qed.

(** An index that the format can hold: the fields fit their width, the ids are SHA-1, no two
    entries have the same key and no two resolve-undo records the same path. *)
Record index_fits `{Sha} (index : GitIndex) : Prop := {
  fits_entries : Forall entry_fits (entries index);
  fits_strict : index_strict index;
  fits_undo : Forall undo_fits (resolve_undo index);
  fits_undo_strict : strictly_sorted rue_path cmp_bytes (resolve_undo index);
  fits_memory : (N.of_nat (length (index_file index)) < usize_limit)%N
}.

Lemma from_trusted_Ok es ru :
  Forall index_entry_ok es -> Forall resolve_undo_ok ru -> strictly_sorted entry_key cmp_key es ->
  strictly_sorted rue_path cmp_bytes ru ->
  from_trusted_sorted_entries_and_resolve_undo es ru = Ok (MkGitIndex es ru).
Proof.
  intros H1 H2 H3 H4. unfold from_trusted_sorted_entries_and_resolve_undo.
  rewrite (proj2 (validate_index_entries_Ok es tt) H1), bind_Ok.
  rewrite (proj2 (validate_resolve_undo_entries_Ok ru tt) H2), bind_Ok.
  rewrite (proj2 (validate_sorted_index_entries_Ok es tt) H3), bind_Ok.
  by rewrite (proj2 (validate_sorted_resolve_undo_entries_Ok ru tt) H4), bind_Ok.
Qed.

Lemma decode_index_file `{ShaLaws} index :
  index_fits index -> index_encodable index -> decode_index (index_file index) = Ok index.
Proof.
  intros [He Hs Hu Hus Hl] (Hok & Hn & Hb). unfold decode_index.
  set (head := INDEX_SIGNATURE ++ to_be 4 (index_version_for_index index)
    ++ to_be 4 (N.of_nat (length (entries index)))).
  set (es := entries index ≫= entry_text). set (ext := undo_extension (resolve_undo index)).
  assert (Hbody : index_body index = head ++ es ++ ext) by (unfold index_body, head; solve_app).
  assert (Hlh : length head = 12).
  { unfold head. rewrite !length_app, !length_to_be. done. }
  rewrite (decode_header_text (index_version_for_index index) (N.of_nat (length (entries index)))
    (es ++ ext) (index_body index)); [|apply index_version_cases|done|done|done|done].
  rewrite bind_Ok. cbn beta iota. rewrite Nat2N.id, <- Hlh.
  assert (Hfile : index_file index = head ++ es ++ ext ++ sha1 (index_body index))
    by (unfold index_file; rewrite Hbody at 1; solve_app).
  rewrite (decode_entries_text (entries index) head ext (sha1 (index_body index)));
    [|done|done|by rewrite Hbody|done].
  rewrite bind_Ok. cbn beta iota. fold es.
  assert (Hlb : length (index_body index) = length ((head ++ es) ++ ext))
    by (rewrite Hbody; f_equal; solve_app).
  rewrite Hlb. unfold ext.
  rewrite (decode_extensions_text (resolve_undo index) (head ++ es) (sha1 (index_body index)));
    [|done|rewrite Hfile; solve_app|done|done].
  rewrite bind_Ok, from_trusted_Ok; [by destruct index|done| |done|done].
  eapply Forall_impl; [exact Hu|]. intros e [Hp Hids]. split; [done|]. intros s Hin.
  by apply Hids.
Qed.

(** C2: an index written to any writer, and read back from the bytes that reached it, is the same
    index, entry by entry with the stat data, the flags and the resolve-undo records. *)
Theorem index_roundtrip `{ShaLaws, WriterLaws W log, !Flush W, !FlushLaws W log} (w w' : W) index :
  index_fits index -> write_index_to w index = (Ok tt, w') ->
  exists file, log w' = log w ++ file /\ decode_index file = Ok index.
Proof.
  intros Hf Hw. exists (index_file index).
  apply write_index_to_Ok in Hw as [He Hlog].
  - split; [done|by apply decode_index_file].
  - eapply Forall_impl; [apply Hf|]. by intros e [].
Qed.

(** ** Witnesses *)

#[local] Existing Instances sample_sha sample_sha_laws.

#[export] Instance short_writer_flush : Flush short_writer := fun w => (Ok tt, w).

#[export] Instance short_writer_flush_laws : FlushLaws short_writer (fun w => w).
Proof. split; [|done]. intros w w' E. by injection E as <-. Qed.

(** Two stages of a path, one of them with the extended flags, and a resolve-undo record. *)
Definition codec_index : GitIndex :=
  MkGitIndex
    [sample_entry (bstr "a/b") 0;
     MkIndexEntry (bstr "c") (sample_id Sha1 9) IExecutable 2 70000 1 2 3 4 5 6 7 8 5]
    [MkResolveUndoEntry (bstr "a") (Some (MkResolveUndoStage ISymlink (sample_id Sha1 1))) None
       (Some (MkResolveUndoStage IFile (sample_id Sha1 2)))].

Lemma codec_index_ids : Forall undo_ids_ok (resolve_undo codec_index).
Proof.
  apply Forall_cons_2; [|constructor]. intros s Hs. unfold rue_stages in Hs. cbn in Hs.
  apply list_elem_of_In in Hs. destruct Hs as [[= <-]|[[=]|[[= <-]|[]]]];
    (split; [apply sample_id_wf|done]).
Qed.

Lemma codec_index_encodable : index_encodable codec_index.
Proof.
  split; [|vm_compute; done].
  repeat apply Forall_cons_2; [| |constructor];
    (split; [apply path_ok_check; reflexivity|cbn; lia]).
Qed.

Lemma codec_index_fits : index_fits codec_index.
Proof.
  split.
  - pose proof (proj1 codec_index_encodable) as Hok. cbn [codec_index entries] in *.
    rewrite !Forall_cons in Hok. destruct Hok as (H1 & H2 & _).
    repeat apply Forall_cons_2; [| |constructor];
      (split; [assumption|apply sample_id_wf|done..|by repeat constructor]).
  - apply (windows2_sorted entry_key cmp_key). vm_compute. reflexivity.
  - pose proof codec_index_ids as Hi. cbn [codec_index resolve_undo] in *.
    apply Forall_cons in Hi as [Hi _]. constructor; [|constructor].
    split; [apply path_ok_check; reflexivity|done].
  - apply (windows2_sorted rue_path cmp_bytes). vm_compute. reflexivity.
  - vm_compute. reflexivity.
Qed.

Lemma write_index_to_spec_witness :
  (forall w', write_index_to ([] : short_writer) codec_index = (Ok tt, w') ->
     w' = index_file codec_index) /\
  exists w', write_index_to ([] : short_writer) codec_index = (Ok tt, w').
Proof.
  split.
  - intros w' E.
    by destruct (proj1 (proj2 (write_index_to_spec (log := fun w : short_writer => w) []
      codec_index codec_index_ids)) w' E) as [_ ->].
  - eexists. vm_compute. reflexivity.
Defined.

Lemma index_roundtrip_witness :
  exists w' : short_writer, write_index_to ([] : short_writer) codec_index = (Ok tt, w') /\
    decode_index w' = Ok codec_index.
Proof.
  set (r := write_index_to ([] : short_writer) codec_index).
  assert (E : r = (Ok tt, snd r)) by (vm_compute; reflexivity).
  exists (snd r). split; [exact E|].
  destruct (index_roundtrip (log := fun w : short_writer => w) ([] : short_writer) (snd r)
    codec_index codec_index_fits E) as (file & Hl & Hd).
  cbn [app] in Hl. rewrite Hl. exact Hd.
Defined.

(** An entry with a SHA-256 id is written without an error, and the file cannot be read back: the
    writer checks the algorithm of no entry. *)
Definition sha256_index : GitIndex :=
  MkGitIndex [MkIndexEntry (bstr "a") (sample_id Sha256 7) IFile 0 3 0 0 0 0 0 0 0 0 0] [].

(** [write_index_to] accepts an entry with a SHA-256 id, but [decode_index] refuses the file
    it writes. *)
Theorem sha256_entry_not_read_back :
  exists w', write_index_to ([] : short_writer) sha256_index = (Ok tt, w') /\
    is_ok (decode_index w') = false.
Proof. eexists. split; [vm_compute; reflexivity|]. vm_compute. reflexivity. Qed.
