(* ===== verification/TreeRead.v ===== *)
(** * Reading trees: lookup of a path, expansion of a tree into an index, the cache of decoded
      trees (the reading half of zmin-git-core/src/tree.rs) *)
From S2P Require Import Prelude Object Order Text TreeCodec Index Store.

(** ** Definitions *)

(** [read_tree]. *)
Definition read_tree `{GitObjectStore St} (s : St) (tree_id : ObjectId)
  : outcome (list TreeEntry) :=
  object ← read_object s tree_id;
  _ ← check (negb (bool_decide (lo_kind object = Tree))) InvalidData "object is not a tree";
  decode_tree (algorithm tree_id) (lo_content object).

(** [TreeObjectCache]: the map behind the [RefCell]; the store is passed separately. *)
Record TreeObjectCache : Type := MkTreeCache {
  trees : gmap ObjectId (list TreeEntry);
  entry_limit : nat
}.

Definition TREE_OBJECT_CACHE_ENTRY_LIMIT : nat := N.to_nat 8192.

Definition tree_cache_new : TreeObjectCache := MkTreeCache ∅ TREE_OBJECT_CACHE_ENTRY_LIMIT.

(** [TreeObjectCache::read_tree]: the outcome and the cache after the call. *)
Definition cached_read_tree `{GitObjectStore St} (s : St) (cache : TreeObjectCache)
    (tree_id : ObjectId) : outcome (list TreeEntry) * TreeObjectCache :=
  match trees cache !! tree_id with
  | Some entries => (Ok entries, cache)
  | None =>
      match read_object s tree_id with
      | Ok object =>
          if negb (bool_decide (lo_kind object = Tree))
          then (fail InvalidData "object is not a tree", cache)
          else
            match decode_tree (algorithm tree_id) (lo_content object) with
            | Ok entries =>
                let ts := if entry_limit cache <=? size (trees cache) then ∅ else trees cache in
                (Ok entries, MkTreeCache (<[tree_id := entries]> ts) (entry_limit cache))
            | r => (r, cache)
            end
      | Err e => (Err e, cache)
      | Panic => (Panic, cache)
      | NoFuel => (NoFuel, cache)
      end
  end.

Definition index_mode_from_tree_mode (mode : TreeMode) : outcome IndexMode :=
  match mode with
  | TFile => Ok IFile
  | TExecutable => Ok IExecutable
  | TSymlink => Ok ISymlink
  | TGitlink => Ok IGitlink
  | TTree => fail InvalidData "tree entry mode was expected to be expanded recursively"
  end.

(** The index entry of a leaf: no stat data and no flags. *)
Definition leaf_entry (path : bytes) (id : ObjectId) (mode : IndexMode) : IndexEntry :=
  MkIndexEntry path id mode 0 0 0 0 0 0 0 0 0 0 0.

(** [TreeIndexFrame]. *)
Record TreeIndexFrame : Set := MkTreeFrame {
  tf_entries : list TreeEntry;
  tf_next : nat;
  tf_path_len : nat
}.

(** The loop of [collect_tree_index_entries] and, word for word, of its uncached variant; the two
    differ in the reader.  The stack has its top first; [path] is the shared buffer. *)
Section collect.
Context {C : Type} (read : C -> ObjectId -> outcome (list TreeEntry) * C).

Fixpoint collect_loop (fuel : nat) (c : C) (stack : list TreeIndexFrame) (path : bytes)
    (entries : list IndexEntry) : outcome (bytes * list IndexEntry) * C :=
  match stack with
  | [] => (Ok (path, entries), c)
  | frame :: stack =>
      match fuel with
      | 0 => (NoFuel, c)
      | S fuel =>
          if tf_next frame =? length (tf_entries frame) then
            collect_loop fuel c stack (take (tf_path_len frame) path) entries
          else
            match index_at (tf_entries frame) (tf_next frame) with
            | Ok entry =>
                let frame := MkTreeFrame (tf_entries frame) (tf_next frame + 1)
                               (tf_path_len frame) in
                let path := take (tf_path_len frame) path ++ te_name entry in
                if bool_decide (te_mode entry = TTree) then
                  let path := path ++ ["/"%byte] in
                  match read c (te_id entry) with
                  | (Ok es, c) =>
                      collect_loop fuel c (MkTreeFrame es 0 (length path) :: frame :: stack) path
                        entries
                  | (Err e, c) => (Err e, c)
                  | (Panic, c) => (Panic, c)
                  | (NoFuel, c) => (NoFuel, c)
                  end
                else
                  match index_mode_from_tree_mode (te_mode entry) with
                  | Ok mode =>
                      collect_loop fuel c (frame :: stack) path
                        (entries ++ [leaf_entry path (te_id entry) mode])
                  | Err e => (Err e, c)
                  | Panic => (Panic, c)
                  | NoFuel => (NoFuel, c)
                  end
            | Err e => (Err e, c)
            | Panic => (Panic, c)
            | NoFuel => (NoFuel, c)
            end
      end
  end.

Definition collect_tree_index_entries (fuel : nat) (c : C) (root_entries : list TreeEntry)
    (path : bytes) (entries : list IndexEntry) : outcome (bytes * list IndexEntry) * C :=
  let initial_path_len := length path in
  match collect_loop fuel c [MkTreeFrame root_entries 0 initial_path_len] path entries with
  | (Ok (path, entries), c) => (Ok (take initial_path_len path, entries), c)
  | r => r
  end.

(** The body shared by [TreeObjectCache::read_tree_to_index] and [read_tree_to_index_uncached]. *)
Definition read_tree_to_index_with (fuel : nat) (c : C) (tree_id : ObjectId)
  : outcome GitIndex * C :=
  match read c tree_id with
  | (Ok root_entries, c) =>
      match collect_tree_index_entries fuel c root_entries [] [] with
      | (Ok (_, entries), c) => (Ok (from_trusted_sorted_entries_unchecked entries), c)
      | (Err e, c) => (Err e, c)
      | (Panic, c) => (Panic, c)
      | (NoFuel, c) => (NoFuel, c)
      end
  | (Err e, c) => (Err e, c)
  | (Panic, c) => (Panic, c)
  | (NoFuel, c) => (NoFuel, c)
  end.
End collect.

Definition cached_read_tree_to_index `{GitObjectStore St} (fuel : nat) (s : St)
    (cache : TreeObjectCache) (tree_id : ObjectId) : outcome GitIndex * TreeObjectCache :=
  read_tree_to_index_with (cached_read_tree s) fuel cache tree_id.

(** [read_tree_to_index] starts from an empty cache. *)
Definition read_tree_to_index `{GitObjectStore St} (fuel : nat) (s : St) (tree_id : ObjectId)
  : outcome GitIndex :=
  (cached_read_tree_to_index fuel s tree_cache_new tree_id).1.

Definition uncached_reader `{GitObjectStore St} (s : St) (_ : unit) (i : ObjectId)
  : outcome (list TreeEntry) * unit := (read_tree s i, tt).

Definition read_tree_to_index_uncached `{GitObjectStore St} (fuel : nat) (s : St)
    (tree_id : ObjectId) : outcome GitIndex :=
  (read_tree_to_index_with (uncached_reader s) fuel tt tree_id).1.

(** The loop of [find_tree_entry] over the components of the path. *)
Fixpoint find_tree_loop `{GitObjectStore St} (s : St) (current_tree : ObjectId)
    (components : list bytes) : outcome (option TreeEntry) :=
  match components with
  | [] => Ok None
  | component :: components =>
      if bool_decide (component = []) then Ok None else
      entries ← read_tree s current_tree;
      match list_find (fun entry => te_name entry = component) entries with
      | None => Ok None
      | Some (_, entry) =>
          match components with
          | [] => Ok (Some entry)
          | _ =>
              if negb (bool_decide (te_mode entry = TTree)) then Ok None
              else find_tree_loop s (te_id entry) components
          end
      end
  end.

Definition find_tree_entry `{GitObjectStore St} (s : St) (tree_id : ObjectId) (path : bytes)
  : outcome (option TreeEntry) :=
  if bool_decide (path = []) then Ok None
  else find_tree_loop s tree_id (split_on "/"%byte path).

(** ** Specification *)

Section flattens.
Context `{GitObjectStore St}.
Implicit Types s : St.

(** The leaves of a list of entries, with the path [pre] before their names and the subtrees
    expanded where they stand; [n] counts the iterations of the loop. *)
Inductive flattens s : bytes -> list TreeEntry -> list IndexEntry -> nat -> Prop :=
| flattens_nil pre : flattens s pre [] [] 1
| flattens_leaf pre e es mode L n :
    index_mode_from_tree_mode (te_mode e) = Ok mode -> flattens s pre es L n ->
    flattens s pre (e :: es) (leaf_entry (pre ++ te_name e) (te_id e) mode :: L) (S n)
| flattens_tree pre e es es' L' L n' n :
    te_mode e = TTree -> read_tree s (te_id e) = Ok es' ->
    flattens s ((pre ++ te_name e) ++ ["/"%byte]) es' L' n' -> flattens s pre es L n ->
    flattens s pre (e :: es) (L' ++ L) (S (n' + n)).

(** [P] holds of the list and of the trees below it. *)
Inductive trees_all (P : list TreeEntry -> Prop) s : list TreeEntry -> Prop :=
| trees_all_intro es :
    P es ->
    (forall e es', e ∈ es -> te_mode e = TTree -> read_tree s (te_id e) = Ok es' ->
       trees_all P s es') ->
    trees_all P s es.

(** Every tree below is in git's order and has no two entries with the same key. *)
Definition trees_sorted : St -> list TreeEntry -> Prop :=
  trees_all (strictly_sorted sort_key cmp_bytes).

(** No tree below has two entries with the same name. *)
Definition trees_distinct : St -> list TreeEntry -> Prop :=
  trees_all (fun es => NoDup (te_name <$> es)).

(** The same as a computation, to the given depth. *)
Fixpoint trees_check (p : list TreeEntry -> bool) (depth : nat) s (es : list TreeEntry) : bool :=
  p es &&
  forallb (fun e =>
    if bool_decide (te_mode e = TTree) then
      match depth with
      | 0 => false
      | S depth =>
          match read_tree s (te_id e) with
          | Ok es' => trees_check p depth s es'
          | _ => true
          end
      end
    else true) es.

Lemma trees_check_ok (P : list TreeEntry -> Prop) p depth s es :
  (forall es, p es = true -> P es) -> trees_check p depth s es = true -> trees_all P s es.
Proof.
  intros Hp. revert es. induction depth as [|depth IH]; intros es; cbn [trees_check];
    rewrite andb_true_iff, forallb_forall; intros [He Hes]; (constructor; [by apply Hp|]);
    intros e es' Hin%list_elem_of_In Hm Hr; specialize (Hes e Hin);
    rewrite bool_decide_true in Hes by done; [done|].
  rewrite Hr in Hes. by apply IH.
Qed.
End flattens.

Lemma index_mode_Ok m : m <> TTree -> exists im, index_mode_from_tree_mode m = Ok im.
Proof. destruct m; naive_solver. Qed.

Lemma index_mode_not_tree m im : index_mode_from_tree_mode m = Ok im -> m <> TTree.
Proof. by destruct m. Qed.

Lemma read_tree_wf `{GitObjectStore St} (s : St) i es :
  read_tree s i = Ok es -> Forall (entry_wf (algorithm i)) es.
Proof. unfold read_tree. intros E. inv_ok. by eapply decode_tree_wf. Qed.

(** ** The loop expands the tree *)

Section uncached.
Context `{GitObjectStore St}.
Implicit Types s : St.

Lemma take_pre (pre junk : bytes) : take (length pre) (pre ++ junk) = pre.
Proof. by rewrite take_app_length. Qed.

(** Enough fuel: the iterations of the relation. *)
Lemma collect_complete s pre es L n :
  flattens s pre es L n ->
  forall fuel all k stack junk acc, es = drop k all -> k <= length all ->
  collect_loop (uncached_reader s) (n + fuel) tt
    (MkTreeFrame all k (length pre) :: stack) (pre ++ junk) acc
  = collect_loop (uncached_reader s) fuel tt stack pre (acc ++ L).
Proof.
  assert (Hlk : forall (all : list TreeEntry) k e es0, e :: es0 = drop k all ->
            index_at all k = Ok e /\ k <> length all /\ es0 = drop (k + 1) all /\
            k + 1 <= length all).
  { clear. intros all k e es0 E. assert (Hk : all !! k = Some e).
    { rewrite <- (Nat.add_0_r k), <- lookup_drop, <- E. done. }
    pose proof (lookup_lt_Some _ _ _ Hk). split_and!; [|lia| |lia].
    - unfold index_at. by rewrite Hk.
    - rewrite (drop_S all e k Hk) in E. rewrite Nat.add_1_r. by injection E. }
  induction 1 as [pre|pre e es mode L n Hm _ IH|pre e es es' L' L n' n Hm Hr _ IH' _ IH];
    intros fuel all k stack junk acc Hes Hk.
  - assert (Hl : k = length all).
    { apply (f_equal length) in Hes. rewrite length_drop in Hes. cbn in Hes. lia. }
    cbn [Nat.add collect_loop tf_next tf_entries tf_path_len].
    rewrite (proj2 (Nat.eqb_eq _ _) Hl), take_pre, app_nil_r. done.
  - destruct (Hlk _ _ _ _ Hes) as (Hi & Hn & Hes' & Hk').
    cbn [Nat.add collect_loop tf_next tf_entries tf_path_len].
    rewrite (proj2 (Nat.eqb_neq _ _) Hn), Hi. rewrite take_pre.
    rewrite bool_decide_false by (by eapply index_mode_not_tree). rewrite Hm.
    rewrite IH by done. by rewrite <- app_assoc.
  - destruct (Hlk _ _ _ _ Hes) as (Hi & Hn & Hes' & Hk').
    cbn [Nat.add collect_loop tf_next tf_entries tf_path_len].
    rewrite (proj2 (Nat.eqb_neq _ _) Hn), Hi. rewrite take_pre.
    rewrite bool_decide_true by done. unfold uncached_reader at 1. rewrite Hr.
    rewrite <- (app_nil_r ((pre ++ te_name e) ++ _)) at 2.
    replace (n' + n + fuel) with (n' + (n + fuel)) by lia.
    rewrite (IH' (n + fuel) es' 0) by (done || lia).
    rewrite <- (app_assoc pre). rewrite IH by done. by rewrite <- app_assoc.
Qed.

(** What a stack of frames still has to deliver, with the buffer at [path]. *)
Fixpoint stack_ok (stack : list TreeIndexFrame) (path : bytes) : Prop :=
  match stack with
  | [] => True
  | f :: stack =>
      tf_path_len f <= length path /\ tf_next f <= length (tf_entries f) /\
      stack_ok stack (take (tf_path_len f) path)
  end.

Fixpoint stack_flattens s (stack : list TreeIndexFrame) (path : bytes) (L : list IndexEntry)
  : Prop :=
  match stack with
  | [] => L = []
  | f :: stack =>
      let pre := take (tf_path_len f) path in
      exists L1 L2 n, L = L1 ++ L2 /\ flattens s pre (drop (tf_next f) (tf_entries f)) L1 n /\
        stack_flattens s stack pre L2
  end.

(** How a run may end: with what the stack flattens to, with the error of a tree, or short of
    fuel. *)
Definition collect_end s stack path acc (r : outcome (bytes * list IndexEntry)) : Prop :=
  match r with
  | Ok (_, es) => exists L, es = acc ++ L /\ stack_flattens s stack path L
  | Err e => exists j, read_tree s j = Err e
  | Panic => False
  | NoFuel => True
  end.

Lemma take_take_pre n (path name : bytes) :
  n <= length path -> take n (take n path ++ name) = take n path.
Proof. intros. rewrite take_app_le by (rewrite length_take; lia). rewrite take_take. f_equal. lia. Qed.

Lemma collect_sound s fuel stack path acc :
  (forall j, safe (read_tree s j)) -> stack_ok stack path ->
  collect_end s stack path acc (collect_loop (uncached_reader s) fuel tt stack path acc).1.
Proof.
  intros Hsafe. revert stack path acc. induction fuel as [|fuel IH];
    intros [|[all k plen] stack] path acc; cbn [collect_loop fst]; try done;
    [intros _; exists []; by rewrite app_nil_r..|].
  cbn [tf_entries tf_next tf_path_len stack_ok stack_flattens]. intros (Hpl & Hk & Hst).
  destruct (Nat.eqb_spec k (length all)) as [->|Hne].
  { specialize (IH stack (take plen path) acc Hst).
    unfold collect_end in *. destruct (collect_loop _ _ _ _ _ _).1 as [[p es]|e| |]; try done.
    destruct IH as (L & -> & HL). exists L. split; [done|]. cbn. exists [], L, 1.
    rewrite drop_all. split_and!; [done|constructor|done]. }
  destruct (lookup_lt_is_Some_2 all k) as [e He]; [lia|].
  unfold index_at. rewrite He. cbn [ok_or unwrap]. pose proof (drop_S all e k He) as Hd.
  rewrite <- Nat.add_1_r in Hd.
  case_bool_decide as Hm.
  - unfold uncached_reader at 1. pose proof (Hsafe (te_id e)) as Hs.
    destruct (read_tree s (te_id e)) as [es'|er| |] eqn:Er; cbn in Hs; try done; [|by exists (te_id e)].
    set (path' := (take plen path ++ te_name e) ++ ["/"%byte]).
    assert (Hp' : take plen path' = take plen path)
      by (unfold path'; rewrite <- app_assoc; by apply take_take_pre).
    specialize (IH (MkTreeFrame es' 0 (length path') :: MkTreeFrame all (k + 1) plen :: stack)
      path' acc). cbn [stack_ok tf_entries tf_next tf_path_len] in IH.
    rewrite firstn_all, Hp' in IH. premise IH.
    { split_and!; [done|lia|unfold path'; rewrite !length_app, length_take; lia|lia|done]. }
    unfold collect_end in *. destruct (collect_loop _ _ _ _ _ _).1 as [[p es]|er| |]; try done.
    destruct IH as (L & -> & HL). exists L. split; [done|].
    cbn [stack_flattens tf_entries tf_next tf_path_len] in HL |- *.
    rewrite firstn_all in HL. destruct HL as (L1 & L2 & n & -> & H1 & L3 & L4 & n' & -> & H3 & H4).
    rewrite Hp' in H3, H4. exists (L1 ++ L3), L4, (S (n + n')). split_and!; [solve_app| |done].
    rewrite Hd. by eapply flattens_tree.
  - destruct (index_mode_Ok _ Hm) as [im Him]. rewrite Him.
    pose proof (take_take_pre plen path (te_name e) Hpl) as Hp'.
    specialize (IH (MkTreeFrame all (k + 1) plen :: stack) (take plen path ++ te_name e)
      (acc ++ [leaf_entry (take plen path ++ te_name e) (te_id e) im])).
    cbn [stack_ok tf_entries tf_next tf_path_len] in IH. rewrite Hp' in IH. premise IH.
    { split_and!; [rewrite length_app, length_take; lia|lia|done]. }
    unfold collect_end in *. destruct (collect_loop _ _ _ _ _ _).1 as [[p es]|er| |]; try done.
    destruct IH as (L & -> & HL). eexists. split; [by rewrite <- app_assoc|].
    cbn [stack_flattens tf_entries tf_next tf_path_len app] in HL |- *. rewrite Hp' in HL.
    destruct HL as (L1 & L2 & n & -> & H1 & H2).
    exists (leaf_entry (take plen path ++ te_name e) (te_id e) im :: L1), L2, (S n).
    split_and!; [done| |done]. rewrite Hd. by apply flattens_leaf.
Qed.
End uncached.

(** ** The cache does not show *)

Section cached.
Context `{GitObjectStore St}.
Implicit Types (s : St) (cache : TreeObjectCache).

(** Every cached tree is the one the store holds, and the limit bounds the map. *)
Definition tree_cache_ok s cache : Prop :=
  (forall i es, trees cache !! i = Some es -> read_tree s i = Ok es) /\
  size (trees cache) <= Nat.max 1 (entry_limit cache).

Lemma tree_cache_new_ok s : tree_cache_ok s tree_cache_new.
Proof. split; cbn [trees tree_cache_new]; [intros i es E; by rewrite lookup_empty in E|]. rewrite map_size_empty. lia. Qed.

Lemma cached_read_tree_spec s cache i :
  tree_cache_ok s cache ->
  (cached_read_tree s cache i).1 = read_tree s i /\ tree_cache_ok s (cached_read_tree s cache i).2.
Proof.
  intros Hc. pose proof Hc as [Hr Hl]. unfold cached_read_tree.
  destruct (trees cache !! i) as [es|] eqn:Ei; [by rewrite (Hr _ _ Ei)|].
  assert (Hu : forall o, read_object s i = Ok o -> read_tree s i
    = (_ ← check (negb (bool_decide (lo_kind o = Tree))) InvalidData "object is not a tree";
       decode_tree (algorithm i) (lo_content o))).
  { intros o E. unfold read_tree. by rewrite E, bind_Ok. }
  assert (Hcase : match read_object s i with
    | Ok o => read_tree s i
              = (_ ← check (negb (bool_decide (lo_kind o = Tree))) InvalidData
                       "object is not a tree";
                 decode_tree (algorithm i) (lo_content o))
    | Err e => read_tree s i = Err e
    | Panic => read_tree s i = Panic
    | NoFuel => read_tree s i = NoFuel
    end) by (unfold read_tree; by destruct (read_object s i)).
  destruct (read_object s i) as [o|e| |]; [|by rewrite Hcase..].
  destruct (bool_decide (lo_kind o = Tree)); cbn [negb check] in *; [rewrite bind_Ok in Hcase|by rewrite Hcase].
  rewrite <- Hcase. destruct (read_tree s i) as [es|e| |] eqn:Ei'; try done.
  split; [done|]. set (ts := if _ <=? _ then _ else _).
  assert (Hts : (forall j es', ts !! j = Some es' -> read_tree s j = Ok es') /\
                size ts <= pred (Nat.max 1 (entry_limit cache))).
  { unfold ts. destruct (Nat.leb_spec (entry_limit cache) (size (trees cache))).
    - split; [intros j es' E; by rewrite lookup_empty in E|]. rewrite map_size_empty. lia.
    - split; [done|lia]. }
  split; cbn [snd trees entry_limit].
  - intros j es' [[<- <-]|[_ E]]%lookup_insert_Some; [done|by apply Hts].
  - destruct Hts as [_ Hts]. rewrite map_size_insert. destruct (ts !! i); cbn; lia.
Qed.

(** Two readers whose answers agree run the loop alike; [R] relates their states. *)
Lemma collect_loop_cached s cache fuel stack path acc :
  tree_cache_ok s cache ->
  (collect_loop (cached_read_tree s) fuel cache stack path acc).1
  = (collect_loop (uncached_reader s) fuel tt stack path acc).1 /\
  tree_cache_ok s (collect_loop (cached_read_tree s) fuel cache stack path acc).2.
Proof.
  revert cache stack path acc. induction fuel as [|fuel IH];
    intros cache [|[all k plen] stack] path acc Hc; cbn [collect_loop]; try done.
  cbn [tf_entries tf_next tf_path_len]. destruct (k =? length all); [by apply IH|].
  destruct (index_at all k) as [e|er| |]; try done.
  case_bool_decide; [|destruct (index_mode_from_tree_mode _); try done; by apply IH].
  destruct (cached_read_tree_spec s cache (te_id e) Hc) as [Hr Hc'].
  unfold uncached_reader at 1. rewrite <- Hr.
  destruct (cached_read_tree s cache (te_id e)) as [[es|er| |] cache']; cbn [fst snd] in *; try done.
  by apply IH.
Qed.

Lemma cached_read_tree_to_index_spec fuel s cache i :
  tree_cache_ok s cache ->
  (cached_read_tree_to_index fuel s cache i).1 = read_tree_to_index_uncached fuel s i /\
  tree_cache_ok s (cached_read_tree_to_index fuel s cache i).2.
Proof.
  intros Hc. unfold cached_read_tree_to_index, read_tree_to_index_uncached,
    read_tree_to_index_with, uncached_reader at 1.
  destruct (cached_read_tree_spec s cache i Hc) as [Hr Hc']. rewrite <- Hr.
  destruct (cached_read_tree s cache i) as [[es|er| |] cache']; cbn [fst snd] in *; try done.
  unfold collect_tree_index_entries.
  destruct (collect_loop_cached s cache' fuel [MkTreeFrame es 0 (length (@nil byte))] [] [] Hc')
    as [Hl Hc''].
  destruct (collect_loop (cached_read_tree s) _ _ _ _ _) as [r1 c1],
    (collect_loop (uncached_reader s) _ _ _ _ _) as [r2 c2]. cbn [fst snd] in *. subst r2.
  by destruct r1 as [[? ?]|?| |].
Qed.

(** The cache of decoded trees cannot be observed: from any cache that agrees with the store,
    a cached read and a cached expansion give the outcome of the uncached ones, errors included,
    and leave a cache that agrees with the store and has at most the allowed number of trees. *)
Theorem tree_cache_transparent fuel s cache i :
  tree_cache_ok s cache ->
  ((cached_read_tree s cache i).1 = read_tree s i /\
   tree_cache_ok s (cached_read_tree s cache i).2) /\
  (cached_read_tree_to_index fuel s cache i).1 = read_tree_to_index_uncached fuel s i /\
  tree_cache_ok s (cached_read_tree_to_index fuel s cache i).2.
Proof.
  intros Hc. split; [by apply cached_read_tree_spec|by apply cached_read_tree_to_index_spec].
Qed.
End cached.

(** ** Expansion of a tree into an index *)

Section expand.
Context `{StoreLaws St inv}.
Implicit Types s : St.

Lemma safe_read_tree s i : inv s -> safe (read_tree s i).
Proof.
  intros Hs. unfold read_tree. apply safe_bind; [by apply read_object_safe|]. intros o _.
  apply safe_bind; [apply safe_check|]. intros _ _. apply safe_decode_tree.
Qed.

Lemma read_tree_to_index_uncached_eq fuel s i :
  read_tree_to_index fuel s i = read_tree_to_index_uncached fuel s i.
Proof. apply cached_read_tree_to_index_spec, tree_cache_new_ok. Qed.

Lemma read_tree_to_index_complete s i es L n fuel :
  read_tree s i = Ok es -> flattens s [] es L n -> n <= fuel ->
  read_tree_to_index fuel s i = Ok (MkGitIndex L []).
Proof.
  intros Er Hf Hn. rewrite read_tree_to_index_uncached_eq.
  unfold read_tree_to_index_uncached, read_tree_to_index_with, uncached_reader at 1. rewrite Er.
  unfold collect_tree_index_entries.
  pose proof (collect_complete s [] es L n Hf (fuel - n) es 0 [] [] [] eq_refl ltac:(lia)) as E.
  replace (n + (fuel - n)) with fuel in E by lia. cbn [app length] in *. rewrite E.
  by destruct (fuel - n).
Qed.

(** C37: expanding a tree into an index never panics.  It returns the leaves of the tree, with the
    subtrees expanded where they stand, as soon as the fuel covers the nodes of the expansion;
    what it returns is that list; and an error is the error of reading one of the trees. *)
Theorem read_tree_to_index_spec s i :
  inv s ->
  (forall es L n fuel, read_tree s i = Ok es -> flattens s [] es L n -> n <= fuel ->
     read_tree_to_index fuel s i = Ok (MkGitIndex L [])) /\
  (forall fuel, match read_tree_to_index fuel s i with
   | Ok index => resolve_undo index = [] /\
       exists es n, read_tree s i = Ok es /\ flattens s [] es (entries index) n
   | Err e => exists j, read_tree s j = Err e
   | Panic => False
   | NoFuel => True
   end).
Proof.
  intros Hs. split; [intros *; apply read_tree_to_index_complete|]. intros fuel.
  rewrite read_tree_to_index_uncached_eq.
  unfold read_tree_to_index_uncached, read_tree_to_index_with, uncached_reader at 1.
  pose proof (safe_read_tree s i Hs) as Hi.
  destruct (read_tree s i) as [es|e| |] eqn:Er; cbn in Hi |- *; try done; [|by exists i].
  unfold collect_tree_index_entries.
  pose proof (collect_sound s fuel [MkTreeFrame es 0 0] [] [] (fun j => safe_read_tree s j Hs)) as Hc.
  premise Hc; [cbn; auto with lia|].
  unfold collect_end in Hc. cbn [length].
  destruct (collect_loop _ _ _ _ _ _) as [[[p L]|e| |] c]; cbn [fst] in *; try done.
  destruct Hc as (L' & -> & HL). cbn in HL. destruct HL as (L1 & L2 & n & -> & HL & ->).
  split; [done|]. exists es, n. split; [done|]. cbn. by rewrite app_nil_r.
Qed.
End expand.

(** ** The order of the expansion *)

Lemma cmp_bytes_Lt a b :
  cmp_bytes a b = Lt ->
  (exists y t, b = a ++ y :: t) \/ (forall r r', cmp_bytes (a ++ r) (b ++ r') = Lt).
Proof.
  revert b. induction a as [|x a IH]; intros [|y b]; cbn; try done; [by eauto|].
  destruct (N.compare_spec (u8 x) (u8 y)) as [E|?|?]; cbn; [|by right|done].
  apply u8_inj in E as ->. intros [(z & t & ->)|Hr]%IH; [by left; eauto|].
  right. intros r r'. apply Hr.
Qed.

(** A path below an entry: the sort key of the entry, and a rest below directories only. *)
Lemma below_order n1 t1 r1 n2 t2 r2 :
  contains_byte "/"%byte n2 = false -> (t1 = false -> r1 = []) ->
  cmp_bytes (sort_name n1 t1) (sort_name n2 t2) = Lt ->
  cmp_bytes (sort_name n1 t1 ++ r1) (sort_name n2 t2 ++ r2) = Lt.
Proof.
  intros Hn Hr [(y & t & E)|Hlt]%cmp_bytes_Lt; [|apply Hlt].
  destruct t1; [exfalso|].
  - cbn [sort_name] in E. assert (Hin : contains_byte "/"%byte n2 = true); [|congruence].
    apply contains_byte_true. destruct t2; cbn [sort_name] in E.
    + destruct (exists_last (l := y :: t)) as (t' & z & Et); [done|]. rewrite Et in E.
      rewrite app_assoc in E. apply app_inj_tail in E as [-> _].
      rewrite !elem_of_app. left. right. by left.
    + rewrite E, !elem_of_app. left. right. by left.
  - rewrite Hr, app_nil_r, E by done. rewrite <- app_assoc.
    rewrite <- (app_nil_r (sort_name n1 false)) at 1. by rewrite cmp_bytes_app.
Qed.

Section order.
Context `{GitObjectStore St}.
Implicit Types s : St.

Lemma sort_key_leaf e : te_mode e <> TTree -> sort_key e = te_name e.
Proof. intros Hm. unfold sort_key, is_tree. by rewrite bool_decide_false. Qed.

Lemma sort_key_tree e : te_mode e = TTree -> sort_key e = te_name e ++ ["/"%byte].
Proof. intros Hm. unfold sort_key, is_tree. by rewrite bool_decide_true. Qed.

(** A list has one expansion. *)
Lemma flattens_det s pre es L n L' n' :
  flattens s pre es L n -> flattens s pre es L' n' -> L' = L /\ n' = n.
Proof.
  intros H1. revert L' n'. induction H1 as [pre|pre e es mode L n Hm _ IH
    |pre e es es1 L1 L n1 n Hm Hr _ IH1 _ IH]; intros L' n' H2; inversion H2; subst;
    try (exfalso; by eapply index_mode_not_tree); try done.
  - destruct (IH _ _ ltac:(eassumption)) as [-> ->]. split; congruence.
  - assert (es' = es1) as -> by congruence.
    destruct (IH1 _ _ ltac:(eassumption)) as [-> ->].
    by destruct (IH _ _ ltac:(eassumption)) as [-> ->].
Qed.

(** Where the elements of an expansion come from. *)
Lemma flattens_below s pre es L n :
  flattens s pre es L n ->
  forall ie, ie ∈ L -> ie_stage ie = 0%N /\
    exists e r, e ∈ es /\ ie_path ie = pre ++ sort_key e ++ r /\ (is_tree e = false -> r = []).
Proof.
  induction 1 as [pre|pre e es mode L n Hm _ IH|pre e es es' L' L n' n Hm Hr _ IH' _ IH];
    intros ie Hie; [by apply elem_of_nil in Hie|..].
  - apply elem_of_cons in Hie as [->|Hie].
    + split; [done|]. exists e, []. split; [by left|].
      by rewrite sort_key_leaf, app_nil_r by (by eapply index_mode_not_tree).
    + destruct (IH ie Hie) as (? & e' & r & ? & ?). split; [done|]. exists e', r.
      split; [by right|done].
  - apply elem_of_app in Hie as [Hie|Hie].
    + destruct (IH' ie Hie) as (? & e' & r & _ & -> & _). split; [done|].
      exists e, (sort_key e' ++ r). split; [by left|]. unfold is_tree.
      rewrite (sort_key_tree e), bool_decide_true by done. split; [solve_app|done].
    + destruct (IH ie Hie) as (? & e' & r & ? & ?). split; [done|]. exists e', r.
      split; [by right|done].
Qed.

Lemma flattens_sorted s pre es L n a :
  flattens s pre es L n -> trees_sorted s es -> Forall (entry_wf a) es ->
  strictly_sorted ie_path cmp_bytes L.
Proof.
  intros Hf. revert a. induction Hf as [pre|pre e es mode L n Hm Hf IH
    |pre e es es' L' L n' n Hm Hr Hf' IH' Hf IH]; intros a Hs Hwf; [constructor|..];
    inversion Hs as [? Hso Hsub]; subst; apply Forall_cons in Hwf as [He Hwf];
    apply StronglySorted_inv in Hso as [Hso Hlt]; rewrite Forall_forall in Hlt;
    assert (Hs' : trees_sorted s es)
      by (constructor; [done|]; intros; eapply Hsub; [by right|done..]);
    assert (Hbelow : forall ie1 ie2 r1, ie_path ie1 = pre ++ sort_key e ++ r1 ->
      (is_tree e = false -> r1 = []) -> ie2 ∈ L -> cmp_bytes (ie_path ie1) (ie_path ie2) = Lt).
  1,3: intros ie1 ie2 r1 E1 Hr1 Hin2;
    destruct (flattens_below _ _ _ _ _ Hf ie2 Hin2) as (_ & e2 & r2 & He2 & E2 & _);
    rewrite E1, E2, cmp_bytes_app; rewrite Forall_forall in Hwf;
    apply below_order; [apply (Hwf e2 He2)|done|by apply Hlt].
  - constructor; [by eapply IH|]. apply Forall_forall. intros ie Hie.
    apply (Hbelow _ _ []); [|done|done].
    by rewrite sort_key_leaf, app_nil_r by (by eapply index_mode_not_tree).
  - apply StronglySorted_app_2.
    + intros ie1 ie2 Hin1 Hin2.
      destruct (flattens_below _ _ _ _ _ Hf' ie1 Hin1) as (_ & e1 & r1 & _ & E1 & _).
      apply (Hbelow _ _ (sort_key e1 ++ r1)); [|unfold is_tree; by rewrite bool_decide_true|done].
      rewrite E1, (sort_key_tree e) by done. solve_app.
    + apply (IH' (algorithm (te_id e))); [|by eapply read_tree_wf].
      apply (Hsub e); [by left|done|done].
    + by apply (IH a).
Qed.
End order.

Section sorted.
Context `{StoreLaws St inv}.
Implicit Types s : St.

Lemma read_tree_to_index_Ok s i fuel index :
  inv s -> read_tree_to_index fuel s i = Ok index ->
  resolve_undo index = [] /\
  exists es n, read_tree s i = Ok es /\ flattens s [] es (entries index) n.
Proof.
  intros Hs E. rewrite read_tree_to_index_uncached_eq in E.
  unfold read_tree_to_index_uncached, read_tree_to_index_with, uncached_reader at 1 in E.
  destruct (read_tree s i) as [es|e| |] eqn:Er; cbn in E; try done.
  unfold collect_tree_index_entries in E.
  pose proof (collect_sound s fuel [MkTreeFrame es 0 0] [] [] (fun j => safe_read_tree s j Hs)) as Hc.
  premise Hc; [cbn; auto with lia|]. unfold collect_end in Hc. cbn [length] in E.
  destruct (collect_loop _ _ _ _ _ _) as [[[p L]|e| |] c]; cbn [fst] in *; try done.
  destruct Hc as (L' & -> & HL). cbn in HL. destruct HL as (L1 & L2 & n & -> & HL & ->).
  injection E as <-. split; [done|]. exists es, n. split; [done|]. cbn. by rewrite app_nil_r.
Qed.

Lemma flattens_strict s es L n a :
  flattens s [] es L n -> trees_sorted s es -> Forall (entry_wf a) es ->
  index_strict (MkGitIndex L []) /\ Forall (fun e => ie_stage e = 0%N) L.
Proof.
  intros Hf Ht Hwf. pose proof (flattens_sorted s [] es L n a Hf Ht Hwf) as Hso.
  assert (H0' : Forall (fun e => ie_stage e = 0%N) L).
  { apply Forall_forall. intros ie Hie. by apply (flattens_below s [] es L n Hf). }
  split; [|done]. unfold index_strict, strictly_sorted in *. cbn [entries].
  clear Hf. induction Hso as [|ie L Hso IH Hlt]; [constructor|].
  apply Forall_cons in H0' as [Hz H0']. constructor; [by apply IH|].
  rewrite Forall_forall in Hlt, H0' |- *. intros ie2 Hin.
  unfold cmp_key, cmp_pair, entry_key. cbn [fst snd]. by rewrite (Hlt ie2 Hin).
Qed.

(** The comment of [read_tree_to_index] ("the result is already trusted and sorted") is true
    of trees that are in git's order throughout: the index is then strictly sorted by path and all
    its entries are at stage 0. *)
Theorem read_tree_to_index_sorted s i fuel index :
  inv s -> (forall es, read_tree s i = Ok es -> trees_sorted s es) ->
  read_tree_to_index fuel s i = Ok index ->
  index_strict index /\ Forall (fun e => ie_stage e = 0%N) (entries index).
Proof.
  intros Hs Ht E. apply read_tree_to_index_Ok in E as (Eru & es & n & Er & Hf); [|done].
  destruct index as [L ru]. cbn in *. subst ru. eapply flattens_strict; [done|by apply Ht|].
  by eapply read_tree_wf.
Qed.
End sorted.

(** ** Lookup of a path agrees with the expansion *)

Section find.
Context `{GitObjectStore St}.
Implicit Types s : St.

(** The lookup once the entry of the first component is known. *)
Definition find_below s (e : TreeEntry) (components : list bytes) : outcome (option TreeEntry) :=
  match components with
  | [] => Ok (Some e)
  | _ => if negb (bool_decide (te_mode e = TTree)) then Ok None
         else find_tree_loop s (te_id e) components
  end.

Lemma find_tree_loop_cons s i es name components :
  read_tree s i = Ok es -> name <> [] ->
  find_tree_loop s i (name :: components)
  = match list_find (fun e => te_name e = name) es with
    | None => Ok None
    | Some (_, e) => find_below s e components
    end.
Proof.
  intros Er Hn. cbn [find_tree_loop]. by rewrite bool_decide_false, Er, bind_Ok.
Qed.

Lemma list_find_distinct (es : list TreeEntry) e :
  NoDup (te_name <$> es) -> e ∈ es ->
  exists k, list_find (fun e' => te_name e' = te_name e) es = Some (k, e).
Proof.
  intros Hnd (k & Hk)%list_elem_of_lookup. exists k. apply list_find_Some. split_and!; [done..|].
  intros j y Hj Hlt E. assert (j = k); [|lia].
  apply (NoDup_lookup (te_name <$> es) j k (te_name e)); [done|..]; rewrite list_lookup_fmap.
  - rewrite Hj. cbn. by rewrite E.
  - by rewrite Hk.
Qed.

(** Every element of the expansion is found, under the components of its path. *)
Lemma flattens_found s pre es L n a :
  flattens s pre es L n -> trees_distinct s es -> Forall (entry_wf a) es ->
  forall ie, ie ∈ L -> exists e components e',
    e ∈ es /\ Forall tree_name_ok (te_name e :: components) /\
    ie = leaf_entry (pre ++ join_with "/"%byte (te_name e :: components)) (te_id e') (ie_mode ie) /\
    index_mode_from_tree_mode (te_mode e') = Ok (ie_mode ie) /\
    find_below s e components = Ok (Some e').
Proof.
  intros Hf. revert a. induction Hf as [pre|pre e es mode L n Hm Hf IH
    |pre e es es' L' L n' n Hm Hr Hf' IH' Hf IH]; intros a Hd Hwf ie Hie;
    [by apply elem_of_nil in Hie|..];
    inversion Hd as [? Hnd Hsub]; subst; apply Forall_cons in Hwf as [He Hwf];
    rewrite fmap_cons in Hnd; apply NoDup_cons in Hnd as [_ Hnd];
    assert (Hd' : trees_distinct s es)
      by (constructor; [done|]; intros; eapply Hsub; [by right|done..]);
    (apply elem_of_cons in Hie as [Hie|Hie] || apply elem_of_app in Hie as [Hie|Hie]).
  2,4: destruct (IH a Hd' Hwf ie Hie) as (e0 & cs & e' & ? & ?); exists e0, cs, e';
    split; [by right|done].
  - subst ie. exists e, [], e. cbn [leaf_entry ie_mode]. split_and!; [by left| |done..].
    repeat constructor; apply He.
  - assert (Hw : Forall (entry_wf (algorithm (te_id e))) es') by (by eapply read_tree_wf).
    assert (Hd2 : trees_distinct s es') by (apply (Hsub e); [by left|done..]).
    destruct (IH' _ Hd2 Hw ie Hie) as (e0 & cs & e' & Hin & Hok & -> & Hmode & Hfind).
    exists e, (te_name e0 :: cs), e'. cbn [leaf_entry ie_mode] in *. split_and!.
    + by left.
    + constructor; [apply He|done].
    + f_equal. rewrite <- !app_assoc. done.
    + done.
    + cbn [find_below]. rewrite bool_decide_true by done. cbn [negb].
      inversion Hd2 as [? Hnd2 _]; subst. apply Forall_cons in Hok as [[Hn0 _] _].
      rewrite (find_tree_loop_cons s _ es') by done.
      destruct (list_find_distinct es' e0 Hnd2 Hin) as (k & ->). done.
Qed.

(** Every leaf found is an element of the expansion. *)
Lemma flattens_find_elem s pre es L n e components e' mode :
  flattens s pre es L n -> e ∈ es -> find_below s e components = Ok (Some e') ->
  index_mode_from_tree_mode (te_mode e') = Ok mode ->
  leaf_entry (pre ++ join_with "/"%byte (te_name e :: components)) (te_id e') mode ∈ L.
Proof.
  intros Hf. revert e components. induction Hf as [pre|pre e es mode0 L n Hm Hf IH
    |pre e es es' L' L n' n Hm Hr Hf' IH' Hf IH]; intros e0 components Hin Hfind Hmode;
    [by apply elem_of_nil in Hin|..]; apply elem_of_cons in Hin as [->|Hin].
  2: apply elem_of_cons; right; by apply IH.
  3: apply elem_of_app; right; by apply IH.
  - destruct components as [|c cs]; cbn [find_below] in Hfind.
    + injection Hfind as <-. assert (mode = mode0) as -> by congruence. by left.
    + rewrite bool_decide_false in Hfind by (by eapply index_mode_not_tree). done.
  - apply elem_of_app. left. destruct components as [|c cs]; cbn [find_below] in Hfind.
    + injection Hfind as <-. rewrite Hm in Hmode. done.
    + rewrite bool_decide_true in Hfind by done. cbn [negb] in Hfind.
      destruct (decide (c = [])) as [->|Hc].
      { cbn [find_tree_loop] in Hfind. by rewrite bool_decide_true in Hfind. }
      rewrite (find_tree_loop_cons s _ es') in Hfind by done.
      destruct (list_find _ es') as [[k e1]|] eqn:Ef; [|done].
      apply list_find_Some in Ef as (Hk & <- & _). apply list_elem_of_lookup_2 in Hk.
      pose proof (IH' e1 cs Hk Hfind Hmode) as Hin. rewrite <- !app_assoc in Hin. exact Hin.
Qed.
End find.

Section find_iff.
Context `{StoreLaws St inv}.
Implicit Types s : St.

(** [find_tree_entry] and the expansion of the tree agree: in a tree without two entries of
    the same name, an id is found under a path with a leaf's mode exactly when the index of the
    tree has an entry of that path, id and mode. *)
Theorem find_tree_entry_index s i fuel index path id mode :
  inv s -> (forall es, read_tree s i = Ok es -> trees_distinct s es) ->
  read_tree_to_index fuel s i = Ok index ->
  leaf_entry path id mode ∈ entries index <->
  exists e, find_tree_entry s i path = Ok (Some e) /\ te_id e = id /\
            index_mode_from_tree_mode (te_mode e) = Ok mode.
Proof.
  intros Hs Hd E. apply read_tree_to_index_Ok in E as (_ & es & n & Er & Hf); [|done].
  specialize (Hd es Er). pose proof (read_tree_wf s i es Er) as Hwf. unfold find_tree_entry. split.
  - intros Hin. destruct (flattens_found s [] es _ n _ Hf Hd Hwf _ Hin)
      as (e & cs & e' & Hin' & Hok & E & Hm & Hfind). exists e'.
    assert (path = join_with "/"%byte (te_name e :: cs)) as ->
      by (apply (f_equal ie_path) in E; exact E).
    assert (id = te_id e') as -> by (apply (f_equal ie_id) in E; exact E).
    inversion Hd as [? Hnd _]; subst. pose proof Hok as [Hn _]%Forall_cons.
    assert (Hne : join_with "/"%byte (te_name e :: cs) <> []).
    { destruct Hn as [Hn _]. destruct cs; cbn [join_with]; [done|].
      intros [? _]%app_nil. done. }
    rewrite bool_decide_false by done. rewrite split_on_join; [|done|].
    + rewrite (find_tree_loop_cons s i es) by (done || apply Hn).
      destruct (list_find_distinct es e Hnd Hin') as (k & ->). done.
    + eapply Forall_impl; [exact Hok|]. by intros p (_ & _ & ?).
  - intros (e' & Hfind & <- & Hm). case_bool_decide as Hp; [done|].
    destruct (split_on "/"%byte path) as [|c cs] eqn:Esp; [done|].
    destruct (decide (c = [])) as [->|Hc].
    { cbn [find_tree_loop] in Hfind. by rewrite bool_decide_true in Hfind. }
    rewrite (find_tree_loop_cons s i es) in Hfind by done.
    destruct (list_find _ es) as [[k e]|] eqn:Ef; [|done].
    apply list_find_Some in Ef as (Hk & <- & _). apply list_elem_of_lookup_2 in Hk.
    rewrite <- (join_split_on "/"%byte path), Esp.
    apply (flattens_find_elem s [] es _ n e cs e' mode Hf Hk Hfind Hm).
Qed.
End find_iff.

(** ** Witnesses *)

#[local] Existing Instances sample_sha sample_sha_laws.

Definition in_order (es : list TreeEntry) : bool :=
  windows2_all (fun l r => is_lt (by_key sort_key cmp_bytes l r)) es.

Lemma in_order_ok es : in_order es = true -> strictly_sorted sort_key cmp_bytes es.
Proof. apply (windows2_sorted sort_key cmp_bytes). Qed.

Definition names_distinct (es : list TreeEntry) : bool := bool_decide (NoDup (te_name <$> es)).

(** The tree [a], [a.d/x], [b] in a store, and its id. *)
Definition nested_store : outcome (InMemoryObjectStore * ObjectId) :=
  '(s, f) ← in_memory_write_object sample_store Blob (bstr "hi");
  sub ← encode_tree [MkTreeEntry TExecutable (bstr "x") f];
  '(s, d) ← in_memory_write_object s Tree sub;
  top ← encode_tree [MkTreeEntry TFile (bstr "a") f; MkTreeEntry TTree (bstr "a.d") d;
                     MkTreeEntry TSymlink (bstr "b") f];
  in_memory_write_object s Tree top.

Lemma nested_store_wf s i : nested_store = Ok (s, i) -> in_memory_wf s.
Proof.
  unfold nested_store. intros E. inv_ok. destruct v as [s1 f]. inv_ok. destruct v0 as [s2 d]. inv_ok.
  repeat (eapply in_memory_write_wf; [|eassumption]). apply sample_store_wf.
Qed.

Definition nested : InMemoryObjectStore * ObjectId :=
  match nested_store with
  | Ok p => p
  | _ => (sample_store, sample_id Sha1 0)
  end.

Lemma nested_wf : in_memory_wf nested.1.
Proof.
  apply (nested_store_wf nested.1 nested.2). rewrite <- surjective_pairing.
  vm_compute. reflexivity.
Qed.

Definition nested_entries : list TreeEntry :=
  match read_tree nested.1 nested.2 with
  | Ok es => es
  | _ => []
  end.

Lemma nested_read es : read_tree nested.1 nested.2 = Ok es -> es = nested_entries.
Proof. unfold nested_entries. by intros ->. Qed.

Lemma nested_index :
  exists index, read_tree_to_index 20 nested.1 nested.2 = Ok index /\
    map ie_path (entries index) = [bstr "a"; bstr "a.d/x"; bstr "b"].
Proof.
  destruct (read_tree_to_index 20 nested.1 nested.2) as [index|e| |] eqn:E;
    [|vm_compute in E; discriminate..].
  exists index. split; [done|]. vm_compute in E. injection E as <-. reflexivity.
Qed.

Lemma tree_cache_transparent_witness :
  (cached_read_tree nested.1 tree_cache_new nested.2).1 = read_tree nested.1 nested.2 /\
  (cached_read_tree_to_index 20 nested.1 tree_cache_new nested.2).1
  = read_tree_to_index_uncached 20 nested.1 nested.2.
Proof.
  destruct (tree_cache_transparent 20 nested.1 tree_cache_new nested.2
    (tree_cache_new_ok nested.1)) as ((? & _) & ? & _). split; assumption.
Defined.

Lemma read_tree_to_index_spec_witness :
  exists index es n, read_tree_to_index 20 nested.1 nested.2 = Ok index /\
    map ie_path (entries index) = [bstr "a"; bstr "a.d/x"; bstr "b"] /\
    read_tree nested.1 nested.2 = Ok es /\ flattens nested.1 [] es (entries index) n.
Proof.
  destruct nested_index as (index & E & Hp). exists index.
  pose proof (proj2 (read_tree_to_index_spec (inv := in_memory_wf) nested.1 nested.2 nested_wf) 20) as H.
  rewrite E in H. destruct H as (_ & es & n & H). exists es, n. split; [exact E|]. split; [exact Hp|exact H].
Defined.

Lemma read_tree_to_index_sorted_witness :
  exists index, read_tree_to_index 20 nested.1 nested.2 = Ok index /\ index_strict index.
Proof.
  destruct nested_index as (index & E & _). exists index. split; [exact E|].
  apply (read_tree_to_index_sorted (inv := in_memory_wf) nested.1 nested.2 20 index nested_wf); [|exact E].
  intros es ->%nested_read. apply (trees_check_ok _ in_order 3); [exact in_order_ok|].
  vm_compute. reflexivity.
Defined.

Lemma find_tree_entry_index_witness :
  exists index e, read_tree_to_index 20 nested.1 nested.2 = Ok index /\
    find_tree_entry nested.1 nested.2 (bstr "a.d/x") = Ok (Some e) /\
    leaf_entry (bstr "a.d/x") (te_id e) IExecutable ∈ entries index.
Proof.
  destruct nested_index as (index & E & _). exists index.
  destruct (find_tree_entry nested.1 nested.2 (bstr "a.d/x")) as [[e|]|e| |] eqn:Ef;
    [|vm_compute in Ef; discriminate..].
  exists e. split; [exact E|]. split; [reflexivity|].
  apply (find_tree_entry_index (inv := in_memory_wf) nested.1 nested.2 20 index _ _ _ nested_wf);
    [|exact E|].
  - intros es ->%nested_read.
    apply (trees_check_ok _ names_distinct 3); [intros es; apply bool_decide_eq_true|].
    vm_compute. reflexivity.
  - exists e. split; [exact Ef|]. split; [reflexivity|].
    vm_compute in Ef. injection Ef as <-. reflexivity.
Defined.

(** A tree whose entries are not in order, which [decode_tree] accepts. *)
Definition unordered_tree : outcome (InMemoryObjectStore * ObjectId) :=
  content ← encode_tree [MkTreeEntry TFile (bstr "c") (sample_id Sha1 1);
                         MkTreeEntry TFile (bstr "b") (sample_id Sha1 1);
                         MkTreeEntry TFile (bstr "a") (sample_id Sha1 1)];
  in_memory_write_object sample_store Tree content.

(** The index of a tree that is not in git's order is not sorted, whatever the comment of
    [read_tree_to_index] says: an entry it holds is not found under its own path. *)
Theorem unordered_tree_index :
  exists s i index e, unordered_tree = Ok (s, i) /\ read_tree_to_index 20 s i = Ok index /\
    e ∈ entries index /\ entry index (ie_path e) 0 = Ok None.
Proof.
  destruct unordered_tree as [[s i]|e| |] eqn:E; [|vm_compute in E; discriminate..].
  destruct (read_tree_to_index 20 s i) as [index|e| |] eqn:Ei;
    [|vm_compute in E; injection E as <- <-; vm_compute in Ei; discriminate..].
  exists s, i, index, (leaf_entry (bstr "a") (sample_id Sha1 1) IFile).
  vm_compute in E. injection E as <- <-. vm_compute in Ei. injection Ei as <-.
  split; [done|]. split; [done|]. split; [|vm_compute; reflexivity].
  vm_compute. by right; right; left.
Qed.
