(* ===== verification/TreeBuild.v ===== *)
(** * Writing trees from an index (the writing half of zmin-git-core/src/tree.rs) *)
From S2P Require Import Prelude Object Order Text TreeCodec Index Store TreeRead.

#[local] Set Warnings "-register-all".

(** ** Definitions *)

(** [TreeNode]: the two [BTreeMap]s as association lists in the order of their keys. *)
Inductive TreeNode : Set := MkTreeNode {
  tn_children : list (bytes * TreeNode);
  tn_leaves : list (bytes * (IndexMode * ObjectId))
}.

Definition TreeNode_default : TreeNode := MkTreeNode [] [].

(** The loop of [TreeNode::insert] over the components of the path; [node] is the node the
    mutable reference points to, and the result its new contents. *)
Fixpoint insert_parts (parts : list bytes) (mode : IndexMode) (id : ObjectId) (node : TreeNode)
  : outcome TreeNode :=
  match parts with
  | [] => fail InvalidInput "git index path is empty"
  | part :: parts =>
      _ ← check (bool_decide (part = [])) InvalidInput
            "git index path contains an empty component";
      match parts with
      | [] =>
          _ ← check (bt_contains cmp_bytes part (tn_children node)) InvalidInput
                "git index path collides with a tree";
          Ok (MkTreeNode (tn_children node) (bt_insert cmp_bytes part (mode, id) (tn_leaves node)))
      | _ =>
          _ ← check (bt_contains cmp_bytes part (tn_leaves node)) InvalidInput
                "git index path collides with a file";
          let child := default TreeNode_default (bt_get cmp_bytes part (tn_children node)) in
          child ← insert_parts parts mode id child;
          Ok (MkTreeNode (bt_insert cmp_bytes part child (tn_children node)) (tn_leaves node))
      end
  end.

Definition node_insert (entry : IndexEntry) (node : TreeNode) : outcome TreeNode :=
  insert_parts (split_on "/"%byte (ie_path entry)) (ie_mode entry) (ie_id entry) node.

(** The loop of [write_tree_from_index] over the entries of the index. *)
Fixpoint insert_entries (es : list IndexEntry) (root : TreeNode) : outcome TreeNode :=
  match es with
  | [] => Ok root
  | entry :: es =>
      _ ← check (negb (ie_stage entry =? 0)%N) InvalidInput
            "write-tree cannot write an index with unresolved conflicts";
      root ← node_insert entry root;
      insert_entries es root
  end.

(** [sort_by] takes a total comparison: [tree_entry_cmp] always returns one
    (compare_tree_names_spec), and the other branch is never taken. *)
Definition entry_order (left right : TreeEntry) : comparison :=
  match tree_entry_cmp left right with
  | Ok c => c
  | _ => Eq
  end.

(** [WriteTreeFrame]: the name of the node in its parent, its leaves, the rest of the iterator
    over its children, and the entries so far. *)
Record WriteTreeFrame : Set := MkWriteFrame {
  wf_name_in_parent : option bytes;
  wf_leaves : list (bytes * (IndexMode * ObjectId));
  wf_iter : list (bytes * TreeNode);
  wf_tree_entries : list TreeEntry
}.

Definition write_frame (name : option bytes) (node : TreeNode) : WriteTreeFrame :=
  MkWriteFrame name (tn_leaves node) (tn_children node) [].

(** [for (name, (mode, id)) in &frame.node.leaves]. *)
Fixpoint push_leaves (leaves : list (bytes * (IndexMode * ObjectId))) (es : list TreeEntry)
  : outcome (list TreeEntry) :=
  match leaves with
  | [] => Ok es
  | (name, (mode, id)) :: leaves =>
      e ← TreeEntry_new (tree_mode mode) name id;
      push_leaves leaves (es ++ [e])
  end.

Section write.
Context `{GitObjectSink St}.

(** The end of a frame: leaves, sorting, encoding, writing. *)
Definition finish_frame (s : St) (leaves : list (bytes * (IndexMode * ObjectId)))
    (es : list TreeEntry) : outcome (St * ObjectId) :=
  es ← push_leaves leaves es;
  encoded ← encode_tree (sort_by entry_order es);
  write_object s Tree encoded.

(** The loop of [write_tree_node]; [frame] is the top of the stack. *)
Fixpoint write_tree_loop (fuel : nat) (s : St) (frame : WriteTreeFrame)
    (stack : list WriteTreeFrame) : outcome (St * ObjectId) :=
  match fuel with
  | 0 => NoFuel
  | S fuel =>
      match wf_iter frame with
      | (name, child) :: iter =>
          write_tree_loop fuel s (write_frame (Some name) child)
            (MkWriteFrame (wf_name_in_parent frame) (wf_leaves frame) iter (wf_tree_entries frame)
               :: stack)
      | [] =>
          '(s, id) ← finish_frame s (wf_leaves frame) (wf_tree_entries frame);
          match stack with
          | [] => Ok (s, id)
          | parent :: stack =>
              name ← ok_or (wf_name_in_parent frame) InvalidData
                       "tree frame missing parent entry name";
              e ← TreeEntry_new TTree name id;
              write_tree_loop fuel s
                (MkWriteFrame (wf_name_in_parent parent) (wf_leaves parent) (wf_iter parent)
                   (wf_tree_entries parent ++ [e])) stack
          end
      end
  end.

(** Every node is entered once and left once. *)
Fixpoint node_size (node : TreeNode) : nat :=
  S (list_sum (map (fun p => S (node_size p.2)) (tn_children node))).

Definition write_tree_node (s : St) (node : TreeNode) : outcome (St * ObjectId) :=
  write_tree_loop (node_size node) s (write_frame None node) [].

Definition write_tree_from_index (s : St) (index : GitIndex) : outcome (St * ObjectId) :=
  root ← insert_entries (entries index) TreeNode_default;
  write_tree_node s root.

(** ** Specification of the writer: the recursion over the tree *)

Fixpoint write_node_rec (node : TreeNode) (s : St) : outcome (St * ObjectId) :=
  '(s, es) ← (fix write_children (children : list (bytes * TreeNode)) (s : St)
                  (es : list TreeEntry) : outcome (St * list TreeEntry) :=
                match children with
                | [] => Ok (s, es)
                | (name, child) :: children =>
                    '(s, id) ← write_node_rec child s;
                    e ← TreeEntry_new TTree name id;
                    write_children children s (es ++ [e])
                end) (tn_children node) s [];
  finish_frame s (tn_leaves node) es.

Fixpoint write_children (children : list (bytes * TreeNode)) (s : St) (es : list TreeEntry)
  : outcome (St * list TreeEntry) :=
  match children with
  | [] => Ok (s, es)
  | (name, child) :: children =>
      '(s, id) ← write_node_rec child s;
      e ← TreeEntry_new TTree name id;
      write_children children s (es ++ [e])
  end.

Lemma write_node_rec_eq children leaves s :
  write_node_rec (MkTreeNode children leaves) s
  = ('(s, es) ← write_children children s []; finish_frame s leaves es).
Proof. reflexivity. Qed.
End write.

(** Induction over the nodes below. *)
Lemma TreeNode_nested_ind (P : TreeNode -> Prop) :
  (forall children leaves, Forall (fun p => P p.2) children -> P (MkTreeNode children leaves)) ->
  forall node, P node.
Proof.
  intros Hstep. fix IH 1. intros [children leaves]. apply Hstep.
  induction children as [|[name child] children IHc]; constructor; [apply IH|exact IHc].
Qed.

(** ** The stack machine is the recursion *)

Section machine.
Context `{GitObjectSink St}.

Lemma list_sum_cons x l : list_sum (x :: l) = x + list_sum l.
Proof. done. Qed.

(** What the loop does when a frame is finished. *)
Definition resume (fuel : nat) (s : St) (id : ObjectId) (name : option bytes)
    (stack : list WriteTreeFrame) : outcome (St * ObjectId) :=
  match stack with
  | [] => Ok (s, id)
  | parent :: stack =>
      name ← ok_or name InvalidData "tree frame missing parent entry name";
      e ← TreeEntry_new TTree name id;
      write_tree_loop fuel s
        (MkWriteFrame (wf_name_in_parent parent) (wf_leaves parent) (wf_iter parent)
           (wf_tree_entries parent ++ [e])) stack
  end.

Definition children_size (children : list (bytes * TreeNode)) : nat :=
  list_sum (map (fun p => S (node_size p.2)) children).

Lemma write_loop_children children :
  Forall (fun p => forall fuel s name stack,
    write_tree_loop (node_size p.2 + fuel) s (write_frame name p.2) stack
    = ('(s, id) ← write_node_rec p.2 s; resume fuel s id name stack)) children ->
  forall fuel s name leaves es stack,
    write_tree_loop (S (children_size children) + fuel) s
      (MkWriteFrame name leaves children es) stack
    = ('(s, es) ← write_children children s es;
       '(s, id) ← finish_frame s leaves es; resume fuel s id name stack).
Proof.
  induction 1 as [|[n child] children Hc _ IH]; intros fuel s name leaves es stack.
  { cbn [children_size map list_sum foldr Nat.add write_tree_loop wf_iter write_children].
    rewrite bind_Ok. cbn beta iota. cbn [wf_leaves wf_tree_entries wf_name_in_parent].
    done. }
  replace (S (children_size ((n, child) :: children)) + fuel)
    with (S (node_size child + (S (children_size children) + fuel)))
    by (unfold children_size; rewrite map_cons; rewrite list_sum_cons; cbn [snd]; lia).
  cbn [write_tree_loop wf_iter write_children snd] in *.
  cbn [wf_name_in_parent wf_leaves wf_tree_entries]. rewrite Hc.
  destruct (write_node_rec child s) as [[s1 i]|e| |]; [rewrite !bind_Ok|done..].
  cbn beta iota. cbn [resume ok_or]. rewrite bind_Ok.
  destruct (TreeEntry_new TTree n i) as [e|e| |]; [rewrite !bind_Ok|done..].
  cbn [wf_name_in_parent wf_leaves wf_iter wf_tree_entries]. apply IH.
Qed.

Lemma write_tree_loop_node node fuel s name stack :
  write_tree_loop (node_size node + fuel) s (write_frame name node) stack
  = ('(s, id) ← write_node_rec node s; resume fuel s id name stack).
Proof.
  revert fuel s name stack.
  induction node as [children leaves IH] using TreeNode_nested_ind. intros fuel s name stack.
  rewrite write_node_rec_eq.
  pose proof (write_loop_children children IH fuel s name leaves [] stack) as E.
  destruct (write_children children s []) as [[s1 es]|e| |]; [rewrite bind_Ok in *|exact E..].
  exact E.
Qed.

Lemma write_tree_node_eq s node : write_tree_node s node = write_node_rec node s.
Proof.
  unfold write_tree_node. pose proof (write_tree_loop_node node 0 s None []) as E.
  rewrite Nat.add_0_r in E. rewrite E. by destruct (write_node_rec node s) as [[? ?]|?| |].
Qed.

(** The explicit stack of [write_tree_node] computes what the recursion over the tree does:
    the same writes in the same order (children before their parent), the same root id and the
    same errors, with any sink; and the loop ends after one step per node entered and left. *)
Theorem write_tree_node_rec s node :
  write_tree_loop (node_size node) s (write_frame None node) [] = write_node_rec node s.
Proof. apply write_tree_node_eq. Qed.
End machine.

(** ** The tree as a map from paths *)

(** The leaf at the components of a path. *)
Fixpoint node_lookup (parts : list bytes) (node : TreeNode) : option (IndexMode * ObjectId) :=
  match parts with
  | [] => None
  | part :: parts =>
      match parts with
      | [] => bt_get cmp_bytes part (tn_leaves node)
      | _ =>
          match bt_get cmp_bytes part (tn_children node) with
          | Some child => node_lookup parts child
          | None => None
          end
      end
  end.

(** Sorted maps, valid names and ids of the algorithm, no name both a directory and a leaf. *)
Inductive node_wf (a : GitHashAlgorithm) : TreeNode -> Prop :=
| node_wf_intro children leaves :
    bt_sorted cmp_bytes children -> bt_sorted cmp_bytes leaves ->
    Forall (fun p => tree_name_ok p.1 /\ node_wf a p.2) children ->
    Forall (fun p => tree_name_ok p.1 /\ ObjectId_wf p.2.2 /\ algorithm p.2.2 = a) leaves ->
    (forall k, is_Some (bt_get cmp_bytes k children) -> bt_get cmp_bytes k leaves = None) ->
    node_wf a (MkTreeNode children leaves).

Lemma bt_contains_false {V} k (m : list (bytes * V)) :
  bt_contains cmp_bytes k m = false <-> bt_get cmp_bytes k m = None.
Proof. unfold bt_contains. by destruct (bt_get cmp_bytes k m). Qed.

Lemma bt_get_insert_dec {V} k k' (v : V) m :
  bt_get cmp_bytes k' (bt_insert cmp_bytes k v m)
  = if bool_decide (k' = k) then Some v else bt_get cmp_bytes k' m.
Proof.
  case_bool_decide; [subst; apply (bt_get_insert_eq cmp_bytes)|].
  by apply (bt_get_insert_ne cmp_bytes).
Qed.

Lemma node_wf_default a : node_wf a TreeNode_default.
Proof. constructor; constructor || done. Qed.

Lemma node_lookup_default parts : node_lookup parts TreeNode_default = None.
Proof. by destruct parts as [|p [|q parts]]. Qed.

Lemma node_lookup_cons part parts node :
  parts <> [] ->
  node_lookup (part :: parts) node
  = match bt_get cmp_bytes part (tn_children node) with
    | Some child => node_lookup parts child
    | None => None
    end.
Proof. by destruct parts. Qed.

Lemma bt_get_Forall {V} (P : bytes * V -> Prop) k v m :
  bt_sorted cmp_bytes m -> Forall P m -> bt_get cmp_bytes k m = Some v -> P (k, v).
Proof. intros Hs HP Hg. rewrite Forall_forall in HP. by apply HP, (bt_get_elem cmp_bytes). Qed.

(** Inserting a path keeps the invariant. *)
Lemma insert_parts_wf a parts mode id node node' :
  insert_parts parts mode id node = Ok node' -> node_wf a node ->
  Forall tree_name_ok parts -> ObjectId_wf id -> algorithm id = a -> node_wf a node'.
Proof.
  revert node node'. induction parts as [|part parts IH]; intros [ch lv] node' E Hwf Hn Hid Ha;
    [done|]. cbn [insert_parts tn_children tn_leaves] in E.
  rewrite bind_check_Ok in E. destruct E as [_ E]. inversion Hwf as [? ? Hs1 Hs2 Hc Hl Hdis]; subst.
  apply Forall_cons in Hn as [Hp Hn]. destruct parts as [|p2 parts];
    rewrite bind_check_Ok in E; destruct E as [Hb%bt_contains_false E].
  - injection E as <-.
    constructor; [done|by apply (bt_insert_sorted cmp_bytes)|done| |].
    + apply (bt_insert_Forall cmp_bytes); [done|]. intros k' ->. done.
    + intros k Hk. rewrite bt_get_insert_dec. case_bool_decide; [|by apply Hdis].
      subst. destruct Hk as [? Hk]. congruence.
  - apply bind_Ok_inv in E as (child & Ec & E). injection E as <-.
    assert (Hwf' : node_wf (algorithm id) child).
    { eapply IH; [exact Ec| |done..]. destruct (bt_get cmp_bytes part ch) eqn:Eg; [|apply node_wf_default].
      by apply (bt_get_Forall _ _ _ _ Hs1 Hc Eg). }
    constructor; [by apply (bt_insert_sorted cmp_bytes)|done| |done|].
    + apply (bt_insert_Forall cmp_bytes); [done|]. intros k' ->. done.
    + intros k. rewrite bt_get_insert_dec. case_bool_decide; [by subst|apply Hdis].
Qed.

(** The path is there, the others are as before. *)
Lemma insert_parts_lookup parts mode id node node' q :
  insert_parts parts mode id node = Ok node' ->
  node_lookup q node' = if bool_decide (q = parts) then Some (mode, id) else node_lookup q node.
Proof.
  revert node node' q. induction parts as [|part parts IH]; intros [ch lv] node' q E; [done|].
  cbn [insert_parts tn_children tn_leaves] in E. rewrite bind_check_Ok in E. destruct E as [_ E].
  destruct parts as [|p2 parts]; rewrite bind_check_Ok in E; destruct E as [Hb%bt_contains_false E].
  - injection E as <-. destruct q as [|q [|q2 qs]]; [by case_bool_decide| |by case_bool_decide].
    cbn [node_lookup tn_leaves]. rewrite bt_get_insert_dec. repeat case_bool_decide; congruence.
  - apply bind_Ok_inv in E as (child & Ec & E). injection E as <-.
    destruct q as [|q [|q2 qs]]; [by case_bool_decide|by case_bool_decide|].
    rewrite !node_lookup_cons by done. cbn [tn_children]. rewrite bt_get_insert_dec.
    destruct (decide (q = part)) as [->|Hq].
    + rewrite bool_decide_true, (IH _ _ _ Ec) by done.
      rewrite (bool_decide_ext (q2 :: qs = p2 :: parts) (part :: q2 :: qs = part :: p2 :: parts))
        by naive_solver.
      case_bool_decide; [done|]. destruct (bt_get cmp_bytes part ch); cbn [default]; [done|].
      exact (node_lookup_default (q2 :: qs)).
    + rewrite !bool_decide_false by congruence. done.
Qed.

(** *** The whole index *)

Definition path_parts (e : IndexEntry) : list bytes := split_on "/"%byte (ie_path e).

Lemma path_parts_inj e1 e2 : path_parts e1 = path_parts e2 -> ie_path e1 = ie_path e2.
Proof.
  intros E. rewrite <- (join_split_on "/"%byte (ie_path e1)), <- (join_split_on "/"%byte (ie_path e2)).
  by f_equal.
Qed.

Lemma insert_parts_nonempty parts mode id node node' :
  insert_parts parts mode id node = Ok node' -> Forall (fun p => p <> []) parts.
Proof.
  revert node node'. induction parts as [|p parts IH]; intros node node' E; [done|].
  cbn [insert_parts] in E. rewrite bind_check_Ok in E. destruct E as [Hp%bool_decide_eq_false E].
  constructor; [done|]. destruct parts as [|p2 parts]; [constructor|].
  rewrite bind_check_Ok in E. destruct E as [_ E]. apply bind_Ok_inv in E as (child & Ec & _).
  by eapply IH.
Qed.

(** The components of a path that was accepted are valid names. *)
Lemma parts_names_ok e :
  index_entry_ok e -> Forall (fun p => p <> []) (path_parts e) -> Forall tree_name_ok (path_parts e).
Proof.
  intros [(_ & Hz & _) _] Hne. pose proof (split_on_Forall "/"%byte (ie_path e)) as Hs.
  fold (path_parts e) in Hs. rewrite Forall_forall in *. intros p Hp. split_and!; [by apply Hne| |by apply Hs].
  apply not_true_is_false. intros Hc. apply contains_byte_true in Hc.
  assert (contains_byte Byte.x00 (ie_path e) = true); [|congruence].
  apply contains_byte_true. rewrite <- (join_split_on "/"%byte (ie_path e)).
  fold (path_parts e). clear -Hp Hc. induction (path_parts e) as [|q ps IH]; [by apply elem_of_nil in Hp|].
  destruct ps as [|q2 ps]; cbn [join_with].
  - apply elem_of_cons in Hp as [->|Hp]; [done|by apply elem_of_nil in Hp].
  - change (Byte.x00 ∈ q ++ "/"%byte :: join_with "/"%byte (q2 :: ps)).
    rewrite elem_of_app, elem_of_cons. apply elem_of_cons in Hp as [->|Hp]; [by left|auto].
Qed.

(** The tree built from an index without repeated paths is the map of its entries. *)
Lemma insert_entries_spec a es root root' :
  insert_entries es root = Ok root' -> node_wf a root -> Forall index_entry_ok es ->
  Forall (fun e => ObjectId_wf (ie_id e) /\ algorithm (ie_id e) = a) es ->
  NoDup (ie_path <$> es) ->
  node_wf a root' /\ Forall (fun e => ie_stage e = 0%N) es /\
  (forall e, e ∈ es -> node_lookup (path_parts e) root' = Some (ie_mode e, ie_id e)) /\
  (forall q, (forall e, e ∈ es -> q <> path_parts e) -> node_lookup q root' = node_lookup q root).
Proof.
  revert root. induction es as [|e es IH]; intros root E Hwf Hok Hids Hnd; cbn [insert_entries] in E.
  { injection E as <-. split_and!; [done|constructor| |done]. intros e He. by apply elem_of_nil in He. }
  rewrite bind_check_Ok in E. destruct E as [Hst%negb_false_iff%N.eqb_eq E].
  apply bind_Ok_inv in E as (root1 & E1 & E). apply Forall_cons in Hok as [He Hok].
  apply Forall_cons in Hids as [[Hid Ha] Hids]. rewrite fmap_cons in Hnd.
  apply NoDup_cons in Hnd as [Hni Hnd].
  assert (Hwf1 : node_wf a root1).
  { eapply insert_parts_wf; [exact E1|done| |done|done].
    apply (parts_names_ok e He). by eapply insert_parts_nonempty. }
  pose proof (fun q => insert_parts_lookup _ _ _ _ _ q E1) as Hlk.
  destruct (IH root1 E Hwf1 Hok Hids Hnd) as (Hwf' & Hst' & Hin & Hother).
  fold (path_parts e) in Hlk. split_and!; [done|by constructor| |].
  - intros e' [->|He']%elem_of_cons; [|by apply Hin].
    rewrite Hother, Hlk, bool_decide_true; [done..|].
    intros e' He' Hp%path_parts_inj. apply Hni. rewrite Hp. by apply list_elem_of_fmap_2.
  - intros q Hq. rewrite Hother, Hlk, bool_decide_false; [done|apply Hq; by left|].
    intros e' He'. apply Hq. by right.
Qed.

(** ** What a written tree is *)

Definition leaf_tree_entry (p : bytes * (IndexMode * ObjectId)) : TreeEntry :=
  MkTreeEntry (tree_mode p.2.1) p.1 p.2.2.

(** The tree objects of the directories of a node, from the leaves up: [R i es] says that [i] is
    the tree with the entries [es]. *)
Inductive represents (R : ObjectId -> list TreeEntry -> Prop) : TreeNode -> ObjectId -> Prop :=
| represents_intro children leaves i cs :
    R i (sort_by entry_order (cs ++ map leaf_tree_entry leaves)) ->
    Forall2 (fun p e => e = MkTreeEntry TTree p.1 (te_id e) /\ represents R p.2 (te_id e))
      children cs ->
    represents R (MkTreeNode children leaves) i.

Lemma represents_weaken (R R' : ObjectId -> list TreeEntry -> Prop) node i :
  (forall j es, R j es -> R' j es) -> represents R node i -> represents R' node i.
Proof.
  intros HR. revert i. induction node as [children leaves IH] using TreeNode_nested_ind.
  intros i Hr. inversion Hr as [? ? ? cs Hi Hcs]; subst. apply (represents_intro R' _ _ _ cs); [by apply HR|].
  clear Hi Hr. induction Hcs as [|p e children cs [He Hp] _ IHc]; constructor;
    apply Forall_cons in IH as [Hh IH]; [|by apply IHc]. split; [done|by apply Hh].
Qed.

Lemma tree_entry_cmp_key l r : tree_entry_cmp l r = Ok (by_key sort_key cmp_bytes l r).
Proof.
  unfold tree_entry_cmp, compare_tree_names.
  rewrite compare_tree_names_loop_spec; [done| |lia].
  unfold sort_name. destruct (is_tree l); rewrite ?length_app; cbn; lia.
Qed.

Lemma sort_entry_order es : sort_by entry_order es = sort_by (by_key sort_key cmp_bytes) es.
Proof.
  assert (Hi : forall e l, insert_by entry_order e l = insert_by (by_key sort_key cmp_bytes) e l).
  { intros e l. induction l as [|e' l IH]; cbn [insert_by]; [done|].
    unfold entry_order at 1. by rewrite tree_entry_cmp_key, IH. }
  unfold sort_by. induction es as [|e es IH]; cbn [foldr]; [done|]. by rewrite IH, Hi.
Qed.

Lemma push_leaves_Ok leaves es es' :
  push_leaves leaves es = Ok es' -> es' = es ++ map leaf_tree_entry leaves.
Proof.
  revert es. induction leaves as [|[n [m i]] leaves IH]; intros es; cbn [push_leaves map].
  { intros [= <-]. by rewrite app_nil_r. }
  intros E. apply bind_Ok_inv in E as (e & Ee & E). apply IH in E as ->.
  unfold TreeEntry_new in Ee. inv_ok. by rewrite <- app_assoc.
Qed.

(** Documented of the object stores: the id is the hash of the object, an object that is there is
    kept, and a new one is readable. *)
Class SinkLaws (St : Type) `{Sha, GitObjectStore St, GitObjectSink St} (inv : St -> Prop)
    (alg : St -> GitHashAlgorithm) : Prop := {
  write_object_Ok : forall s k c s' i,
    inv s -> write_object s k c = Ok (s', i) ->
    inv s' /\ alg s' = alg s /\ hash_object (alg s) k c = Ok i;
  write_object_read : forall s k c s' i j,
    inv s -> write_object s k c = Ok (s', i) -> ObjectId_wf j ->
    read_object s' j = match read_object s j with
                       | Ok o => Ok o
                       | r => if bool_decide (j = i) then Ok (MkLooseObject i k c) else r
                       end
}.

(** The sink that only records: it gives the ids and the contents that a tree needs. *)
Definition hash_log `{Sha} (a : GitHashAlgorithm) : GitObjectSink (list (ObjectId * bytes)) :=
  fun log k c => i ← hash_object a k c; Ok (log ++ [(i, c)], i).

Definition tree_objects `{Sha} (a : GitHashAlgorithm) (node : TreeNode)
  : outcome (list (ObjectId * bytes) * ObjectId) :=
  @write_node_rec _ (hash_log a) node [].

(** The trees to be written have distinct ids, and none of them is the id of another object of
    the store. *)
Definition no_collision `{GitObjectStore St} (s : St) (objects : list (ObjectId * bytes)) : Prop :=
  forall j c, (j, c) ∈ objects ->
    (forall c', (j, c') ∈ objects -> c' = c) /\
    (forall o, read_object s j = Ok o -> o = MkLooseObject j Tree c).

(** The record has the tree [j] with the entries [es]. *)
Definition logged (a : GitHashAlgorithm) (log : list (ObjectId * bytes)) (j : ObjectId)
    (es : list TreeEntry) : Prop :=
  ObjectId_wf j /\ algorithm j = a /\ exists c, (j, c) ∈ log /\ encode_tree es = Ok c.

Section written.
Context `{ShaLaws, !GitObjectStore St, !GitObjectSink St, !SinkLaws St inv alg}.
Context (s0 : St) (a : GitHashAlgorithm).
Implicit Types s : St.

(** The state of the store against the record of the writes. *)
Definition sim s (log : list (ObjectId * bytes)) : Prop :=
  inv s /\ alg s = a /\
  (forall j o, ObjectId_wf j -> read_object s j = Ok o ->
     read_object s0 j = Ok o \/ exists c, o = MkLooseObject j Tree c /\ (j, c) ∈ log) /\
  (forall j c, (j, c) ∈ log -> ObjectId_wf j /\ is_ok (read_object s j) = true).

Lemma sim_write s log c s' i :
  sim s log -> write_object s Tree c = Ok (s', i) ->
  hash_object a Tree c = Ok i /\ ObjectId_wf i /\ algorithm i = a /\ sim s' (log ++ [(i, c)]).
Proof.
  intros (Hi & Ha & Hr & Hl) Hw. destruct (write_object_Ok s _ _ _ _ Hi Hw) as (Hi' & Ha' & Hh).
  rewrite Ha in Hh. destruct (hash_object_wf _ _ _ _ Hh) as [Hwf Hai].
  split; [done|]. split; [done|]. split; [done|].
  split; [done|]. split; [congruence|]. split.
  - intros j o Hj. rewrite (write_object_read s _ _ _ _ j Hi Hw Hj).
    destruct (read_object s j) as [o'|e| |] eqn:Ej.
    1: intros [= <-]; destruct (Hr j o' Hj Ej) as [?|(c' & -> & Hin)]; [by left|];
       right; exists c'; split; [done|]; apply elem_of_app; by left.
    all: case_bool_decide; [|done]; intros [= <-]; subst j; right; exists c; split; [done|];
       apply elem_of_app; right; by left.
  - intros j c' [Hin|[= -> ->]%list_elem_of_singleton]%elem_of_app.
    + destruct (Hl j c' Hin) as [Hj Hok]. split; [done|].
      rewrite (write_object_read s _ _ _ _ j Hi Hw Hj). by destruct (read_object s j).
    + split; [done|]. rewrite (write_object_read s _ _ _ _ i Hi Hw Hwf).
      destruct (read_object s i); [done|..]; by rewrite bool_decide_true.
Qed.

Lemma logged_weaken log log' j es : log ⊆ log' -> logged a log j es -> logged a log' j es.
Proof.
  intros Hsub (? & ? & c & Hin & E). split_and!; [done|done|]. exists c. split; [by apply Hsub|done].
Qed.

(** The writer on the store and on the record, side by side. *)
Definition writes_ok node : Prop := forall s log s' i,
  write_node_rec node s = Ok (s', i) -> sim s log ->
  exists log', @write_node_rec _ (hash_log a) node log = Ok (log', i) /\ sim s' log' /\
    log ⊆ log' /\ represents (logged a log') node i.

Lemma write_children_sim children s log es s' es' :
  Forall (fun p => writes_ok p.2) children ->
  write_children children s es = Ok (s', es') -> sim s log ->
  exists log' cs, @write_children _ (hash_log a) children log es = Ok (log', es') /\
    es' = es ++ cs /\ sim s' log' /\ log ⊆ log' /\
    Forall2 (fun p e => e = MkTreeEntry TTree p.1 (te_id e) /\
                        represents (logged a log') p.2 (te_id e)) children cs.
Proof.
  intros Hc. revert s log es. induction Hc as [|[n child] children Hchild _ IH]; intros s log es E Hsim.
  { injection E as <- <-. exists log, []. rewrite app_nil_r. split_and!; [done..|constructor]. }
  cbn [write_children] in E. apply bind_Ok_inv in E as ([s1 i] & E1 & E).
  apply bind_Ok_inv in E as (e & Ee & E).
  destruct (Hchild s log s1 i E1 Hsim) as (log1 & El1 & Hsim1 & Hsub1 & Hrep).
  destruct (IH s1 log1 _ E Hsim1) as (log2 & cs & El2 & -> & Hsim2 & Hsub2 & Hcs).
  exists log2, (e :: cs). cbn [write_children]. cbn [snd] in El1. rewrite El1, bind_Ok.
  cbn beta iota. rewrite Ee, bind_Ok, El2. unfold TreeEntry_new in Ee. inv_ok.
  split_and!; [done|by rewrite <- app_assoc|done|set_solver|]. constructor; [|done].
  split; [done|]. cbn [te_id snd]. eapply represents_weaken; [|exact Hrep].
  intros j es0. by apply logged_weaken.
Qed.

Lemma write_node_sim node : writes_ok node.
Proof.
  induction node as [children leaves IH] using TreeNode_nested_ind. intros s log s' i E Hsim.
  rewrite write_node_rec_eq in E. apply bind_Ok_inv in E as ([s1 es] & E1 & E).
  destruct (write_children_sim children s log [] s1 es IH E1 Hsim)
    as (log1 & cs & El & -> & Hsim1 & Hsub & Hcs). cbn [app] in *.
  unfold finish_frame in E. apply bind_Ok_inv in E as (es & Ep & E).
  apply bind_Ok_inv in E as (c & Ec & E). pose proof (push_leaves_Ok _ _ _ Ep) as Hes.
  destruct (sim_write s1 log1 c s' i Hsim1 E) as (Hh & Hwf & Ha & Hsim').
  exists (log1 ++ [(i, c)]). rewrite write_node_rec_eq, El, bind_Ok. cbn beta iota.
  unfold finish_frame. rewrite Ep, bind_Ok, Ec, bind_Ok. unfold write_object at 1, hash_log.
  rewrite Hh, bind_Ok. split_and!; [done|done|set_solver|].
  apply (represents_intro _ _ _ _ cs).
  - split; [done|]. split; [done|]. exists c. split; [apply elem_of_app; right; by left|]. by rewrite <- Hes.
  - eapply Forall2_impl; [exact Hcs|]. cbn. intros p e [He Hp]. split; [done|].
    eapply represents_weaken; [|exact Hp]. intros j es0. apply logged_weaken. set_solver.
Qed.
End written.

(** ** Reading back *)

Lemma decode_tree_Ok a bs es :
  decode_tree a bs = Ok es <-> bs = tree_bytes es /\ Forall (entry_wf a) es.
Proof.
  unfold decode_tree. rewrite (decode_tree_loop_Ok a _ [] bs []) by lia. cbn [app]. naive_solver.
Qed.

(** A tree of the record is read back, when nothing else holds its id. *)
Lemma logged_read `{GitObjectStore St} (s : St) a log j es :
  (forall j c, (j, c) ∈ log -> read_object s j = Ok (MkLooseObject j Tree c)) ->
  Forall (entry_wf a) es -> logged a log j es -> read_tree s j = Ok es.
Proof.
  intros Hlog Hwf (_ & Ha & c & Hin & Ec). unfold read_tree. rewrite (Hlog j c Hin), bind_Ok.
  cbn [lo_kind lo_content]. rewrite bool_decide_true by done. cbn [negb check]. rewrite bind_Ok.
  apply decode_tree_Ok. split; [|by rewrite Ha].
  unfold encode_tree in Ec. by apply encode_tree_loop_Ok in Ec as [-> _].
Qed.

Section read_back.
Context `{GitObjectStore St}.
Implicit Types s : St.

Lemma flattens_exists s pre es :
  (forall e, e ∈ es -> te_mode e = TTree -> exists es' L n,
     read_tree s (te_id e) = Ok es' /\ flattens s ((pre ++ te_name e) ++ ["/"%byte]) es' L n) ->
  exists L n, flattens s pre es L n.
Proof.
  induction es as [|e es IH]; intros Hall; [by repeat econstructor|].
  destruct IH as (L & n & HL); [intros e' He'; apply Hall; by right|].
  destruct (decide (te_mode e = TTree)) as [Ht|Ht].
  - destruct (Hall e) as (es' & L' & n' & Hr & HL'); [by left|done|].
    eexists _, _. by eapply flattens_tree.
  - destruct (index_mode_Ok _ Ht) as [m Hm]. eexists _, _. by eapply flattens_leaf.
Qed.

Lemma flattens_elem s pre es L n ie :
  flattens s pre es L n ->
  ie ∈ L <-> exists e, e ∈ es /\
    ((exists mode, index_mode_from_tree_mode (te_mode e) = Ok mode /\
        ie = leaf_entry (pre ++ te_name e) (te_id e) mode) \/
     (te_mode e = TTree /\ exists es' L' n', read_tree s (te_id e) = Ok es' /\
        flattens s ((pre ++ te_name e) ++ ["/"%byte]) es' L' n' /\ ie ∈ L')).
Proof.
  induction 1 as [pre|pre e es mode L n Hm _ IH|pre e es es1 L1 L n1 n Hm Hr Hf1 _ _ IH].
  - split; [by intros ?%elem_of_nil|]. by intros (e & ?%elem_of_nil & _).
  - rewrite elem_of_cons, IH. split.
    + intros [->|(e' & He' & Hcase)]; [exists e; split; [by left|eauto]|].
      exists e'. split; [by right|done].
    + intros (e' & [->|He']%elem_of_cons & Hcase); [|right; eauto]. left.
      destruct Hcase as [(m & Hm' & ->)|[Ht _]]; [congruence|]. by apply index_mode_not_tree in Hm.
  - rewrite elem_of_app, IH. split.
    + intros [Hin|(e' & He' & Hcase)]; [|exists e'; split; [by right|done]].
      exists e. split; [by left|]. right. eauto 10.
    + intros (e' & [->|He']%elem_of_cons & Hcase); [|right; eauto]. left.
      destruct Hcase as [(m & Hm' & ->)|(_ & es' & L' & n' & Hr' & Hf' & Hin)].
      { by apply index_mode_not_tree in Hm'. }
      assert (es' = es1) as -> by congruence. by destruct (flattens_det _ _ _ _ _ _ _ Hf1 Hf') as [-> _].
Qed.

Lemma index_mode_tree_mode m : index_mode_from_tree_mode (tree_mode m) = Ok m.
Proof. by destruct m. Qed.

Lemma tree_mode_not_tree m : tree_mode m <> TTree.
Proof. by destruct m. Qed.

End read_back.

(** *** A written tree expands to the map it was written from *)

Section expansion.
Context `{GitObjectStore St} (s : St) (a : GitHashAlgorithm) (log : list (ObjectId * bytes)).
Context (faithful : forall j c, (j, c) ∈ log -> read_object s j = Ok (MkLooseObject j Tree c)).

(** The entries written for the children. *)
Definition child_entry (p : bytes * TreeNode) (e : TreeEntry) : Prop :=
  e = MkTreeEntry TTree p.1 (te_id e) /\ represents (logged a log) p.2 (te_id e).

Lemma bt_sorted_NoDup {V} (m : list (bytes * V)) : bt_sorted cmp_bytes m -> NoDup (fst <$> m).
Proof. apply (strictly_sorted_NoDup fst cmp_bytes). Qed.

(** The entries of a directory have distinct sort keys. *)
Lemma node_entries_distinct children leaves cs :
  node_wf a (MkTreeNode children leaves) -> Forall2 child_entry children cs ->
  NoDup (sort_key <$> (cs ++ map leaf_tree_entry leaves)).
Proof.
  intros Hwf Hcs. inversion Hwf as [? ? Hs1 Hs2 Hc Hl _]; subst.
  assert (Hk1 : sort_key <$> cs = (fun n => n ++ ["/"%byte]) <$> (fst <$> children)).
  { clear -Hcs. induction Hcs as [|p e children cs [He _] _ IH]; [done|].
    rewrite !fmap_cons, IH, sort_key_tree; rewrite He; done. }
  assert (Hk2 : sort_key <$> map leaf_tree_entry leaves = fst <$> leaves).
  { clear. induction leaves as [|p leaves IH]; [done|]. cbn [map]. rewrite !fmap_cons, IH.
    by rewrite sort_key_leaf by apply tree_mode_not_tree. }
  rewrite fmap_app, Hk1, Hk2. apply NoDup_app. split_and!.
  - apply NoDup_fmap_2; [|by apply bt_sorted_NoDup]. intros x y E. by apply app_inj_tail in E as [-> _].
  - intros k (n & -> & _)%list_elem_of_fmap ([n' ?] & Ek & Hin)%list_elem_of_fmap.
    rewrite Forall_forall in Hl. destruct (Hl _ Hin) as [(_ & _ & Hns) _]. cbn [fst] in Ek, Hns.
    rewrite <- Ek, contains_byte_app, orb_false_iff in Hns. by destruct Hns.
  - by apply bt_sorted_NoDup.
Qed.

Lemma node_entries_wf children leaves cs :
  node_wf a (MkTreeNode children leaves) -> Forall2 child_entry children cs ->
  Forall (entry_wf a) (cs ++ map leaf_tree_entry leaves).
Proof.
  intros Hwf Hcs. inversion Hwf as [? ? _ _ Hc Hl _]; subst. apply Forall_app. split.
  - clear -Hcs Hc. induction Hcs as [|p e children cs [He Hr] _ IH]; constructor;
      apply Forall_cons in Hc as [[Hn _] Hc]; [|by apply IH].
    inversion Hr as [? ? ? ? (Hi & Ha & _) _]; subst. rewrite He. done.
  - apply Forall_map. eapply Forall_impl; [exact Hl|]. done.
Qed.

(** The induction hypothesis of the expansion: what a node of the tree expands to. *)
Definition expands node (i : ObjectId) : Prop :=
  exists es, read_tree s i = Ok es /\ trees_sorted s es /\
    forall pre, exists L n, flattens s pre es L n /\
      forall ie, ie ∈ L <-> exists q v, node_lookup q node = Some v /\
        ie = leaf_entry (pre ++ join_with "/"%byte q) v.2 v.1.

Lemma child_expands children cs :
  Forall (fun p => forall i, node_wf a p.2 -> represents (logged a log) p.2 i -> expands p.2 i)
    children ->
  Forall (fun p => tree_name_ok p.1 /\ node_wf a p.2) children -> Forall2 child_entry children cs ->
  Forall2 (fun p e => e = MkTreeEntry TTree p.1 (te_id e) /\ expands p.2 (te_id e)) children cs.
Proof.
  intros IH Hc Hcs. induction Hcs as [|p e children cs [He Hr] _ IHc]; constructor;
    apply Forall_cons in IH as [Hp IH]; apply Forall_cons in Hc as [[_ Hw] Hc]; [|by apply IHc].
  split; [done|by apply Hp].
Qed.

(** The elements of the expansion are the leaves of the node. *)
Lemma expand_elem children leaves cs pre es L n ie :
  bt_sorted cmp_bytes children -> bt_sorted cmp_bytes leaves ->
  Forall2 (fun p e => e = MkTreeEntry TTree p.1 (te_id e) /\ expands p.2 (te_id e)) children cs ->
  es ≡ₚ cs ++ map leaf_tree_entry leaves -> flattens s pre es L n ->
  ie ∈ L <-> exists q v, node_lookup q (MkTreeNode children leaves) = Some v /\
    ie = leaf_entry (pre ++ join_with "/"%byte q) v.2 v.1.
Proof.
  intros Hs1 Hs2 Hcs Hp Hf. rewrite (flattens_elem _ _ _ _ _ ie Hf). split.
  - intros (e & He & Hcase). rewrite Hp in He.
    apply elem_of_app in He as [He|([k [m i]] & <- & Hin)%list_elem_of_In%in_map_iff].
    + destruct (Forall2_elem_r _ _ _ _ Hcs He) as ([k child] & Hin & Ee & es' & Hr' & _ & Hx).
      cbn [fst snd] in *. assert (Hm : te_mode e = TTree) by (by rewrite Ee).
      destruct Hcase as [(m & Hm' & _)|(_ & es2 & L' & n' & Hr & Hf' & Hie)];
        [by apply index_mode_not_tree in Hm'|].
      destruct (Hx ((pre ++ te_name e) ++ ["/"%byte])) as (L2 & n2 & Hf2 & Hiff).
      assert (es2 = es') as -> by congruence.
      destruct (flattens_det _ _ _ _ _ _ _ Hf2 Hf') as [-> _].
      apply Hiff in Hie as (q & v & Hq & ->). exists (k :: q), v.
      assert (Hne : q <> []) by (by intros ->).
      rewrite node_lookup_cons by done. cbn [tn_children].
      rewrite (proj2 (bt_get_elem cmp_bytes k child children Hs1) Hin). split; [done|].
      f_equal. rewrite Ee. cbn [te_name]. destruct q; [done|]. rewrite <- !app_assoc. done.
    + apply list_elem_of_In in Hin. exists [k], (m, i). cbn [node_lookup tn_leaves].
      rewrite (proj2 (bt_get_elem cmp_bytes k (m, i) leaves Hs2) Hin). split; [done|].
      destruct Hcase as [(m' & Hm & ->)|[Hm _]]; [|by apply tree_mode_not_tree in Hm].
      cbn [leaf_tree_entry te_mode te_name te_id fst snd] in *.
      rewrite index_mode_tree_mode in Hm. by injection Hm as <-.
  - intros (q & v & Hq & ->). destruct q as [|k q]; [done|]. destruct (decide (q = [])) as [->|Hne].
    + cbn [node_lookup tn_leaves] in Hq. apply (bt_get_elem cmp_bytes) in Hq; [|done].
      exists (leaf_tree_entry (k, v)). rewrite Hp. split.
      * apply elem_of_app. right. apply list_elem_of_In, in_map, list_elem_of_In, Hq.
      * left. exists v.1. cbn. by rewrite index_mode_tree_mode.
    + rewrite node_lookup_cons in Hq by done. cbn [tn_children] in Hq.
      destruct (bt_get cmp_bytes k children) as [child|] eqn:Ek; [|done].
      apply (bt_get_elem cmp_bytes) in Ek; [|done].
      destruct (Forall2_elem_l _ _ _ _ Hcs Ek) as (e & He & Ee & es' & Hr' & _ & Hx).
      cbn [fst snd] in *. exists e. rewrite Hp. split; [apply elem_of_app; by left|]. right.
      split; [by rewrite Ee|]. destruct (Hx ((pre ++ te_name e) ++ ["/"%byte])) as (L2 & n2 & Hf2 & Hiff).
      exists es', L2, n2. split; [done|]. split; [done|]. apply Hiff. exists q, v. split; [done|].
      f_equal. rewrite Ee. cbn [te_name]. destruct q; [done|]. rewrite <- !app_assoc. done.
Qed.

Lemma represents_expands node i : node_wf a node -> represents (logged a log) node i -> expands node i.
Proof.
  revert i. induction node as [children leaves IH] using TreeNode_nested_ind. intros i Hwf Hr.
  inversion Hr as [? ? ? cs Hi Hcs]; subst. pose proof Hwf as Hwf'.
  inversion Hwf' as [? ? Hs1 Hs2 Hc _ _]; subst.
  set (es := sort_by entry_order (cs ++ map leaf_tree_entry leaves)) in *.
  assert (Hp : es ≡ₚ cs ++ map leaf_tree_entry leaves)
    by (unfold es; rewrite sort_entry_order; apply (sort_by_perm sort_key cmp_bytes)).
  assert (Hw : Forall (entry_wf a) es) by (rewrite Hp; by eapply node_entries_wf).
  pose proof (child_expands children cs IH Hc Hcs) as Hx.
  assert (Htree : forall e, e ∈ es -> te_mode e = TTree -> exists child, expands child (te_id e)).
  { intros e He Hm. rewrite Hp in He.
    apply elem_of_app in He as [He|([k [m j]] & <- & _)%list_elem_of_In%in_map_iff];
      [|by apply tree_mode_not_tree in Hm].
    destruct (Forall2_elem_r _ _ _ _ Hx He) as (p & _ & _ & ?). by exists p.2. }
  exists es. split; [by eapply logged_read|]. split.
  - constructor.
    + apply (weakly_sorted_strict sort_key cmp_bytes).
      * unfold es. rewrite sort_entry_order. apply (sort_by_sorted sort_key cmp_bytes).
      * rewrite Hp. by eapply node_entries_distinct.
    + intros e es' He Hm Hre. destruct (Htree e He Hm) as (child & es2 & Hr2 & Hso & _).
      by assert (es' = es2) as -> by congruence.
  - intros pre. destruct (flattens_exists s pre es) as (L & n & Hf).
    + intros e He Hm. destruct (Htree e He Hm) as (child & es' & Hr2 & _ & Hx').
      destruct (Hx' ((pre ++ te_name e) ++ ["/"%byte])) as (L & n & Hf & _). eauto.
    + exists L, n. split; [done|]. intros ie. by apply (expand_elem _ _ cs _ es _ n).
Qed.
End expansion.

(** ** The round trip *)

(** An entry without its stat data and flags. *)
Definition stat_free (e : IndexEntry) : IndexEntry := leaf_entry (ie_path e) (ie_id e) (ie_mode e).

Section roundtrip.
Context `{ShaLaws, !GitObjectStore St, !GitObjectSink St, !SinkLaws St inv alg}.
Implicit Types s : St.

Lemma sim_faithful (s0 : St) a s log :
  sim (inv := inv) (alg := alg) s0 a s log -> no_collision s0 log ->
  forall j c, (j, c) ∈ log -> read_object s j = Ok (MkLooseObject j Tree c).
Proof.
  intros (_ & _ & Hr & Hl) Hnc j c Hin. destruct (Hl j c Hin) as [Hj Hok].
  destruct (Hnc j c Hin) as [Hc Ho]. destruct (read_object s j) as [o|e| |] eqn:E; try done.
  f_equal. destruct (Hr j o Hj E) as [E0|(c' & -> & Hin')]; [by apply Ho|]. by rewrite (Hc c').
Qed.

Lemma stage0_sorted es :
  Forall (fun e => ie_stage e = 0%N) es -> strictly_sorted entry_key cmp_key es ->
  strictly_sorted ie_path cmp_bytes es.
Proof.
  intros Hst Hs. unfold strictly_sorted in *. induction Hs as [|e es _ IH Hlt]; [constructor|].
  apply Forall_cons in Hst as [He Hst]. constructor; [by apply IH|].
  rewrite Forall_forall in Hst, Hlt |- *. intros e' Hin. specialize (Hlt e' Hin).
  unfold cmp_key, cmp_pair, entry_key in Hlt. cbn [fst snd] in Hlt. rewrite He, (Hst e' Hin) in Hlt.
  apply then_cmp_Lt in Hlt as [?|[_ Hlt]]; [done|]. by rewrite N.compare_refl in Hlt.
Qed.

Lemma insert_entries_stage0 es root root' :
  insert_entries es root = Ok root' -> Forall (fun e => ie_stage e = 0%N) es.
Proof.
  revert root. induction es as [|e es IH]; intros root E; [constructor|]. cbn [insert_entries] in E.
  rewrite bind_check_Ok in E. destruct E as [Hst%negb_false_iff%N.eqb_eq E].
  apply bind_Ok_inv in E as (t1 & _ & E). constructor; [done|by eapply IH].
Qed.

Lemma stat_free_sorted es :
  strictly_sorted ie_path cmp_bytes es -> strictly_sorted ie_path cmp_bytes (map stat_free es).
Proof.
  unfold strictly_sorted. induction 1 as [|e es _ IH Hlt]; cbn [map]; constructor; [done|].
  by apply Forall_map.
Qed.

(** C3: the tree written from an index reads back as that index: when [write_tree_from_index]
    succeeds on an index without conflicting stages, and no two different objects have the same
    id, expanding the tree it returns gives the paths, ids and modes of the index, in order (the
    stat data and the flags are not in a tree). *)
Theorem write_tree_roundtrip s index s' i :
  inv s -> index_strict index -> Forall index_entry_ok (entries index) ->
  Forall (fun e => ObjectId_wf (ie_id e) /\ algorithm (ie_id e) = alg s) (entries index) ->
  write_tree_from_index s index = Ok (s', i) ->
  (forall root log, insert_entries (entries index) TreeNode_default = Ok root ->
     tree_objects (alg s) root = Ok (log, i) -> no_collision s log) ->
  exists n, forall fuel, n <= fuel ->
    read_tree_to_index fuel s' i = Ok (MkGitIndex (map stat_free (entries index)) []).
Proof.
  intros Hs Hstrict Hok Hids E Hnc. unfold write_tree_from_index in E.
  apply bind_Ok_inv in E as (root & Er & E). rewrite write_tree_node_eq in E.
  pose proof (stage0_sorted _ (insert_entries_stage0 _ _ _ Er) Hstrict) as Hso.
  destruct (insert_entries_spec (alg s) _ _ _ Er (node_wf_default _) Hok Hids
    (strictly_sorted_NoDup ie_path cmp_bytes _ Hso)) as (Hwf & _ & Hin & Hother).
  assert (Hsim : sim (inv := inv) (alg := alg) s (alg s) s []).
  { split; [done|]. split; [done|]. split; [by left|]. intros j c Hj. by apply elem_of_nil in Hj. }
  destruct (write_node_sim s (alg s) root s [] s' i E Hsim) as (log & El & Hsim' & _ & Hrep).
  pose proof (sim_faithful s (alg s) s' log Hsim' (Hnc root log Er El)) as Hfaith.
  destruct (represents_expands s' (alg s) log Hfaith root i Hwf Hrep) as (es & Hre & Htree & Hx).
  destruct (Hx []) as (L & n & Hf & Hiff). exists n. intros fuel Hn.
  rewrite (read_tree_to_index_complete s' i es L n fuel Hre Hf Hn). do 2 f_equal.
  apply (strictly_sorted_ext ie_path cmp_bytes).
  - eapply flattens_sorted; [done|done|by eapply read_tree_wf].
  - by apply stat_free_sorted.
  - intros ie. rewrite Hiff, list_elem_of_In, in_map_iff. split.
    + intros (q & v & Hq & ->).
      destruct (decide (Exists (fun e => q = path_parts e) (entries index)))
        as [(e & He & ->)%Exists_exists|Hne].
      * rewrite (Hin e He) in Hq. injection Hq as <-. exists e. rewrite <- list_elem_of_In.
        split; [|done]. unfold stat_free, path_parts. by rewrite join_split_on.
      * rewrite Hother, node_lookup_default in Hq; [done|]. intros e He ->. apply Hne, Exists_exists.
        eauto.
    + intros (e & <- & He%list_elem_of_In). exists (path_parts e), (ie_mode e, ie_id e).
      split; [by apply Hin|]. unfold stat_free, path_parts. by rewrite join_split_on.
Qed.
End roundtrip.

#[export] Instance in_memory_sink_laws `{ShaLaws} :
  SinkLaws InMemoryObjectStore in_memory_wf mem_algorithm.
Proof.
  split.
  - intros s k c s' i Hs Hw. split; [by eapply in_memory_write_wf|].
    unfold write_object, in_memory_sink, in_memory_write_object in Hw. by inv_ok.
  - intros s k c s' i j Hs Hw Hj. by apply in_memory_write_reads.
Qed.

(** ** Which indexes can be written *)

(** Whether the components name a directory of the tree. *)
Fixpoint node_dir (parts : list bytes) (node : TreeNode) : bool :=
  match parts with
  | [] => true
  | part :: parts =>
      match bt_get cmp_bytes part (tn_children node) with
      | Some child => node_dir parts child
      | None => false
      end
  end.

(** [q] is a directory on the way to [parts]. *)
Definition on_the_way (q parts : list bytes) : Prop := exists r, r <> [] /\ parts = q ++ r.

Lemma on_the_way_cons p q ps : on_the_way (p :: q) (p :: ps) <-> on_the_way q ps.
Proof. unfold on_the_way. cbn. naive_solver. Qed.

Lemma insert_parts_iff parts mode id node :
  is_ok (insert_parts parts mode id node) = true <->
  parts <> [] /\ Forall (fun p => p <> []) parts /\ node_dir parts node = false /\
  forall q, q <> [] -> on_the_way q parts -> node_lookup q node = None.
Proof.
  revert node. induction parts as [|part parts IH]; intros [ch lv]; [naive_solver|].
  cbn [insert_parts tn_children tn_leaves node_dir]. rewrite Forall_cons.
  destruct (decide (part = [])) as [->|Hp]; [cbn; naive_solver|].
  rewrite (check_pass (bool_decide (part = []))), bind_Ok by (by apply bool_decide_eq_false).
  destruct parts as [|p2 parts].
  - unfold check, bt_contains. cbn [node_dir]. destruct (bt_get cmp_bytes part ch); [naive_solver|].
    cbn. split; [|done]. intros _. split_and!; [done|done|constructor|done|].
    intros q Hq (r & Hr & E). destruct q as [|? [|??]]; [done|..]; destruct r; discriminate || done.
  - unfold check, bt_contains. destruct (bt_get cmp_bytes part lv) as [v|] eqn:Ev.
    { cbn. split; [done|]. intros (_ & _ & _ & Hq). specialize (Hq [part]). cbn in Hq.
      rewrite Ev in Hq. assert (Some v = None); [|done]. apply Hq; [done|]. by exists (p2 :: parts). }
    rewrite bind_Ok. set (child := default TreeNode_default (bt_get cmp_bytes part ch)).
    assert (Hd : (match bt_get cmp_bytes part ch with
                  | Some child => node_dir (p2 :: parts) child | None => false end)
                 = node_dir (p2 :: parts) child)
      by (unfold child; by destruct (bt_get cmp_bytes part ch)).
    rewrite Hd. assert (Hiff : is_ok (child' ← insert_parts (p2 :: parts) mode id child;
        Ok (MkTreeNode (bt_insert cmp_bytes part child' ch) lv)) = is_ok (insert_parts (p2 :: parts) mode id child))
      by (by destruct (insert_parts (p2 :: parts) mode id child)).
    rewrite Hiff, IH.
    assert (Hl : forall q, q <> [] -> node_lookup (part :: q) (MkTreeNode ch lv) = node_lookup q child).
    { intros q Hq. rewrite node_lookup_cons by done. cbn [tn_children]. unfold child.
      destruct (bt_get cmp_bytes part ch); [done|]. cbn [default]. by rewrite node_lookup_default. }
    split.
    + intros (_ & Hne & Hdir & Hq). split_and!; [done|done|done|done|].
      intros q Hqn Hw. destruct q as [|x q]; [done|]. destruct Hw as (r & Hr & E). injection E as <- E.
      destruct (decide (q = [])) as [->|Hqe]; [done|]. rewrite Hl by done. apply Hq; [done|]. by exists r.
    + intros (_ & [_ Hne] & Hdir & Hq). split_and!; [done|done|done|]. intros q Hqn Hw.
      rewrite <- Hl by done. apply Hq; [done|]. by apply on_the_way_cons.
Qed.

Lemma insert_parts_dir parts mode id node node' q :
  insert_parts parts mode id node = Ok node' ->
  node_dir q node' = true <-> node_dir q node = true \/ on_the_way q parts.
Proof.
  revert node node' q. induction parts as [|part parts IH]; intros [ch lv] node' q E; [done|].
  cbn [insert_parts tn_children tn_leaves] in E. rewrite bind_check_Ok in E. destruct E as [_ E].
  destruct q as [|q0 q]; [cbn; split; [by left|done]|]. cbn [node_dir tn_children].
  destruct parts as [|p2 parts]; rewrite bind_check_Ok in E; destruct E as [_ E].
  - injection E as <-. cbn [tn_children]. split; [by left|]. intros [?|(r & Hr & E)]; [done|].
    injection E as -> E. by destruct q, r.
  - apply bind_Ok_inv in E as (child & Ec & E). injection E as <-. cbn [tn_children].
    rewrite bt_get_insert_dec. destruct (decide (q0 = part)) as [->|Hq].
    + rewrite bool_decide_true, on_the_way_cons, (IH _ _ _ Ec) by done.
      destruct (bt_get cmp_bytes part ch) eqn:Eg; cbn [default]; [done|].
      split; [|intros [?|?]; [done|by right]]. intros [Hd|?]; [right|by right].
      destruct q; [by exists (p2 :: parts)|]. done.
    + rewrite bool_decide_false by done. split; [by left|]. intros [?|(r & _ & E)]; [done|].
      apply (f_equal head) in E. by injection E as ->.
Qed.

(** What a tree knows of the entries inserted so far. *)
Definition holds (node : TreeNode) (es : list IndexEntry) : Prop :=
  (forall q, node_lookup q node <> None <-> exists e, e ∈ es /\ q = path_parts e) /\
  (forall q, q <> [] -> node_dir q node = true <-> exists e, e ∈ es /\ on_the_way q (path_parts e)).

Lemma holds_insert node es e node' :
  holds node es -> node_insert e node = Ok node' -> holds node' (es ++ [e]).
Proof.
  intros [Hl Hd] E. unfold node_insert in E. fold (path_parts e) in E. split.
  - intros q. rewrite (insert_parts_lookup _ _ _ _ _ q E). case_bool_decide as Hq.
    + split; [|done]. intros _. exists e. split; [apply elem_of_app; right; by left|done].
    + rewrite Hl. split; intros (e' & He' & Hq'); exists e'; (split; [|done]).
      * apply elem_of_app. by left.
      * by apply elem_of_app in He' as [?| ->%list_elem_of_singleton].
  - intros q Hq. rewrite (insert_parts_dir _ _ _ _ _ q E), Hd by done. split.
    + intros [(e' & He' & Hw)|Hw]; [exists e'|exists e]; (split; [apply elem_of_app|done]);
        [by left|right; by left].
    + intros (e' & He' & Hw). apply elem_of_app in He' as [He'| ->%list_elem_of_singleton];
        [left; eauto|by right].
Qed.

(** No component is empty, and no path is a directory on the way to another. *)
Definition no_conflict (es : list IndexEntry) : Prop :=
  Forall (fun e => ie_stage e = 0%N /\ Forall (fun p => p <> []) (path_parts e)) es /\
  forall e1 e2, e1 ∈ es -> e2 ∈ es -> ~ on_the_way (path_parts e1) (path_parts e2).

Lemma no_conflict_app_l es1 es2 : no_conflict (es1 ++ es2) -> no_conflict es1.
Proof.
  intros [[Hf _]%Forall_app Hc]. split; [done|]. intros e1 e2 H1 H2.
  apply Hc; apply elem_of_app; by left.
Qed.

Lemma insert_conflict node es e :
  holds node es -> no_conflict es -> ie_stage e = 0%N ->
  is_ok (node_insert e node) = true <-> no_conflict (es ++ [e]).
Proof.
  intros [Hl Hd] [Hf Hc] Hst. unfold node_insert. fold (path_parts e). rewrite insert_parts_iff.
  assert (Hne : path_parts e <> []) by apply split_on_nonempty. split.
  - intros (_ & Hp & Hdir & Hway). split.
    { apply Forall_app. split; [done|]. by repeat constructor. }
    intros e1 e2 [H1| ->%list_elem_of_singleton]%elem_of_app [H2| ->%list_elem_of_singleton]%elem_of_app Hw.
    + exact (Hc _ _ H1 H2 Hw).
    + apply (proj2 (Hl (path_parts e1))); [by eauto|]. apply Hway; [apply split_on_nonempty|done].
    + assert (node_dir (path_parts e) node = true); [|congruence]. apply Hd; [done|eauto].
    + destruct Hw as (r & Hr & E). apply (f_equal length) in E. rewrite length_app in E.
      destruct r; [done|cbn in E; lia].
  - intros [Hf' Hc']. rewrite Forall_app, Forall_singleton in Hf'. destruct Hf' as [_ [_ Hp]].
    assert (He : e ∈ es ++ [e]) by (apply elem_of_app; right; by left).
    split_and!; [done|done| |].
    + apply not_true_is_false. intros (e2 & H2 & Hw)%Hd; [|done].
      apply (Hc' e e2); [done|apply elem_of_app; by left|done].
    + intros q Hq Hw. destruct (node_lookup q node) eqn:E; [|done].
      destruct (proj1 (Hl q)) as (e1 & H1 & ->); [by rewrite E|]. exfalso.
      apply (Hc' e1 e); [apply elem_of_app; by left|done|done].
Qed.

Lemma insert_entries_iff node es0 es :
  holds node es0 -> no_conflict es0 ->
  is_ok (insert_entries es node) = true <-> no_conflict (es0 ++ es).
Proof.
  revert node es0. induction es as [|e es IH]; intros node es0 Hh Hn; cbn [insert_entries].
  { by rewrite app_nil_r. }
  unfold check. destruct (N.eqb_spec (ie_stage e) 0) as [Hst|Hst]; cbn [negb].
  2: { cbn. split; [done|]. intros [Hf _]. rewrite Forall_app, Forall_cons in Hf. naive_solver. }
  rewrite bind_Ok. pose proof (insert_conflict node es0 e Hh Hn Hst) as Hiff.
  destruct (node_insert e node) as [node'| | |] eqn:E; cbn [is_ok] in Hiff.
  1: { rewrite bind_Ok, (IH node' (es0 ++ [e])); [by rewrite <- app_assoc|by apply (holds_insert node)|].
       by apply Hiff. }
  all: split; [done|]; intros Hall; apply Hiff; apply (no_conflict_app_l _ es);
    by rewrite <- app_assoc.
Qed.

Lemma safe_insert_entries es node : safe (insert_entries es node).
Proof.
  revert node. induction es as [|e es IH]; intros node; cbn [insert_entries]; [done|].
  apply safe_bind; [apply safe_check|]. intros _ _. apply safe_bind; [|intros ? _; apply IH].
  unfold node_insert. generalize (split_on "/"%byte (ie_path e)). intros parts. clear.
  revert node. induction parts as [|p parts IH]; intros node; cbn [insert_parts]; [done|].
  apply safe_bind; [apply safe_check|]. intros _ _. destruct parts as [|p2 parts].
  - apply safe_bind; [apply safe_check|done].
  - apply safe_bind; [apply safe_check|]. intros _ _. apply safe_bind; [apply IH|done].
Qed.

(** Building the tree of an index never panics, and it succeeds exactly when every entry is at
    stage 0, no path has an empty component, and no path is a directory of another path. *)
Theorem insert_entries_accepts es :
  safe (insert_entries es TreeNode_default) /\
  (is_ok (insert_entries es TreeNode_default) = true <->
   Forall (fun e => ie_stage e = 0%N /\ Forall (fun p => p <> []) (path_parts e)) es /\
   forall e1 e2, e1 ∈ es -> e2 ∈ es -> ~ on_the_way (path_parts e1) (path_parts e2)).
Proof.
  split; [apply safe_insert_entries|]. apply (insert_entries_iff TreeNode_default []).
  - split.
    + intros q. rewrite node_lookup_default. split; [done|]. by intros (e & ?%elem_of_nil & _).
    + intros [|p q] Hq; [done|]. split; [done|]. by intros (e & ?%elem_of_nil & _).
  - split; [constructor|]. intros e1 e2 H1. by apply elem_of_nil in H1.
Qed.

(** ** Witness *)

#[local] Existing Instances sample_sha sample_sha_laws.

Definition build_index : GitIndex :=
  MkGitIndex [sample_entry (bstr "a") 0; sample_entry (bstr "a.d/x") 0;
              sample_entry (bstr "a.d/y/z") 0; sample_entry (bstr "b") 0] [].

(** Checks [no_collision] on the store without objects. *)
Definition distinct_ids (objects : list (ObjectId * bytes)) : bool :=
  bool_decide (NoDup objects.*1).

Lemma no_collision_empty objects : distinct_ids objects = true -> no_collision sample_store objects.
Proof.
  unfold distinct_ids. rewrite bool_decide_eq_true. intros Hnd j c Hin. split.
  - intros c' Hin'. apply list_elem_of_lookup in Hin as [x Hx], Hin' as [y Hy].
    assert (x = y) as <-; [|congruence].
    apply (NoDup_lookup objects.*1 x y j); [done|..]; rewrite list_lookup_fmap; [by rewrite Hx|by rewrite Hy].
  - intros o. cbn. unfold in_memory_read_object. cbn. by destruct (bool_decide _).
Qed.

Lemma write_tree_roundtrip_witness :
  exists s' i n, write_tree_from_index sample_store build_index = Ok (s', i) /\
    read_tree_to_index n s' i = Ok (MkGitIndex (map stat_free (entries build_index)) []).
Proof.
  destruct (write_tree_from_index sample_store build_index) as [[s' i]|e| |] eqn:E;
    [|vm_compute in E; discriminate..].
  destruct (write_tree_roundtrip (inv := in_memory_wf) (alg := mem_algorithm)
    sample_store build_index s' i sample_store_wf) as (n & Hn).
  - apply (windows2_sorted entry_key cmp_key). vm_compute. reflexivity.
  - repeat apply Forall_cons_2; [..|constructor]; (split; [apply path_ok_check; reflexivity|cbn; lia]).
  - repeat apply Forall_cons_2; [..|constructor]; (split; [apply sample_id_wf|reflexivity]).
  - exact E.
  - intros root log Er El. apply no_collision_empty.
    vm_compute in Er. injection Er as <-. vm_compute in El. injection El as <- _.
    vm_compute. reflexivity.
  - exists s', i, n. split; [reflexivity|]. apply Hn. exact (le_n n).
Defined.
