(* ===== verification/Reader.v ===== *)
(** * Readers: [io::Read] and the state-and-error monad of the code that reads from one *)
From S2P Require Import Prelude.

(** ** The interface *)

(** One call of [read] with a buffer of [n] bytes: the bytes it delivered. *)
Class Reader (R : Type) : Type := reader_read : R -> nat -> outcome bytes * R.

(** The documented contract of [io::Read::read]: it delivers a prefix of what is left, at most the
    buffer, and nothing only at the end (or for an empty buffer); it does not panic. *)
Class ReaderLaws (R : Type) `{Reader R} (rest : R -> bytes) : Prop := {
  read_takes : forall r n bs r', reader_read r n = (Ok bs, r') ->
    rest r = bs ++ rest r' /\ length bs <= n /\ (bs = [] -> n = 0 \/ rest r = []);
  read_safe : forall r n, safe (reader_read r n).1
}.

(** A reader that never fails. *)
Definition total_reader (R : Type) `{Reader R} : Prop :=
  forall r n, is_ok (reader_read r n).1 = true.

(** A reader that does not fail from here on. *)
Definition total_from `{Reader R} (r : R) : Prop :=
  exists P : R -> Prop, P r /\
    forall r n, P r -> is_ok (reader_read r n).1 = true /\ P (reader_read r n).2.

Lemma total_from_read `{Reader R} (r : R) n :
  total_from r -> is_ok (reader_read r n).1 = true /\ total_from (reader_read r n).2.
Proof. intros (P & Hr & HP). destruct (HP r n Hr) as [? ?]. split; [done|]. by exists P. Qed.

Lemma total_reader_from `{Reader R} (r : R) : total_reader R -> total_from r.
Proof. intros Ht. exists (fun _ => True). split; [done|]. intros r' n _. split; [apply Ht|done]. Qed.

(** ** The monad *)

Definition rd (R A : Type) : Type := R -> outcome A * R.

Definition rret {R A} (a : A) : rd R A := fun r => (Ok a, r).

Definition rlift {R A} (m : outcome A) : rd R A := fun r => (m, r).

Definition rbind {R A B} (m : rd R A) (f : A -> rd R B) : rd R B := fun r =>
  match m r with
  | (Ok a, r) => f a r
  | (Err e, r) => (Err e, r)
  | (Panic, r) => (Panic, r)
  | (NoFuel, r) => (NoFuel, r)
  end.

Notation "x <~ m ; f" := (rbind m (fun x => f))
  (at level 20, m at level 100, f at level 200, right associativity) : stdpp_scope.
Notation "' x <~ m ; f" := (rbind m (fun x => f))
  (at level 20, x pattern, m at level 100, f at level 200, right associativity) : stdpp_scope.

Lemma rbind_Ok_inv {R A B} (m : rd R A) (f : A -> rd R B) r b r' :
  rbind m f r = (Ok b, r') -> exists a r1, m r = (Ok a, r1) /\ f a r1 = (Ok b, r').
Proof. unfold rbind. destruct (m r) as [[a|?| |] r1]; [eauto|done..]. Qed.

Lemma rbind_Ok {R A B} (m : rd R A) (f : A -> rd R B) r a r' :
  m r = (Ok a, r') -> rbind m f r = f a r'.
Proof. intros E. unfold rbind. by rewrite E. Qed.

Lemma rlift_Ok_inv {R A} (o : outcome A) (r : R) a r' : rlift o r = (Ok a, r') -> o = Ok a /\ r' = r.
Proof. unfold rlift. intros [= -> ->]. done. Qed.

(** Opens a run that ended with a value. *)
Ltac inv_rd :=
  repeat match goal with
  | H : rbind _ _ _ = (Ok _, _) |- _ =>
      let a := fresh "v" in let r := fresh "st" in let E := fresh "R" in
      apply rbind_Ok_inv in H as (a & r & E & H)
  | H : rlift _ _ = (Ok _, _) |- _ =>
      let E := fresh "O" in apply rlift_Ok_inv in H as [E H]; subst
  | H : rret _ _ = (Ok _, _) |- _ => unfold rret in H; simplify_eq
  end.

(** A property of states that a run keeps, whatever its outcome. *)
Definition kept {R A} (P : R -> Prop) (m : rd R A) : Prop := forall r, P r -> P (m r).2.

Lemma kept_bind {R A B} (P : R -> Prop) (m : rd R A) (f : A -> rd R B) :
  kept P m -> (forall a, kept P (f a)) -> kept P (rbind m f).
Proof.
  intros Hm Hf r Hr. specialize (Hm r Hr). unfold rbind.
  destruct (m r) as [[a|e| |] r']; [by apply Hf|done..].
Qed.

Lemma kept_lift {R A} (P : R -> Prop) (o : outcome A) : kept P (rlift o).
Proof. by intros r. Qed.

Lemma kept_ret {R A} (P : R -> Prop) (a : A) : kept P (rret a).
Proof. by intros r. Qed.

(** What a run does from a state: the invariant holds afterwards, whatever the outcome, and a value
    comes with what is claimed of it. *)
Definition runs {R A} (Inv : R -> Prop) (m : rd R A) (r : R) (Q : A -> R -> Prop) : Prop :=
  Inv (m r).2 /\ forall a, (m r).1 = Ok a -> Q a (m r).2.

Section runs.
Context {R : Type} {Inv : R -> Prop}.

Lemma runs_bind {A B} (m : rd R A) (f : A -> rd R B) r Q P :
  runs Inv m r Q -> (forall a r', Inv r' -> Q a r' -> runs Inv (f a) r' P) -> runs Inv (rbind m f) r P.
Proof.
  intros [Hi Hq] Hf. unfold runs, rbind in *. destruct (m r) as [[a|e| |] r']; try done.
  apply Hf; [done|by apply Hq].
Qed.

Lemma runs_lift {A} (o : outcome A) r : Inv r -> runs Inv (rlift o) r (fun a r' => r' = r /\ o = Ok a).
Proof. by intros Hr. Qed.

Lemma runs_ret {A} (a : A) r (Q : A -> R -> Prop) : Inv r -> Q a r -> runs Inv (rret a) r Q.
Proof. intros Hr Hq. split; [done|]. by intros a' [= <-]. Qed.

Lemma runs_weaken {A} (m : rd R A) r (Q P : A -> R -> Prop) :
  runs Inv m r Q -> (forall a r', Q a r' -> P a r') -> runs Inv m r P.
Proof. intros [Hi Hq] HP. split; [done|]. intros a E. by apply HP, Hq. Qed.
End runs.

(** ** [read_exact] *)

Section reader.
Context `{Reader R}.

(** The loop of the standard library. *)
Fixpoint read_exact_loop (fuel n : nat) (acc : bytes) : rd R bytes := fun r =>
  if n =? 0 then (Ok acc, r) else
  match fuel with
  | 0 => (NoFuel, r)
  | S fuel =>
      match reader_read r n with
      | (Ok [], r) => (fail UnexpectedEof "failed to fill whole buffer", r)
      | (Ok bs, r) => read_exact_loop fuel (n - length bs) (acc ++ bs) r
      | (Err e, r) => (Err e, r)
      | (Panic, r) => (Panic, r)
      | (NoFuel, r) => (NoFuel, r)
      end
  end.

(** Every iteration reads at least one byte. *)
Definition read_exact (n : nat) : rd R bytes := read_exact_loop n n [].

(** [read_byte] of pack.rs. *)
Definition read_byte : rd R byte := fun r =>
  match read_exact 1 r with
  | (Ok bs, r) => (index_at bs 0, r)
  | (Err e, r) => (Err e, r)
  | (Panic, r) => (Panic, r)
  | (NoFuel, r) => (NoFuel, r)
  end.
End reader.

(** What a single read keeps, the loops keep. *)
Section kept_reads.
Context `{Reader R} (P : R -> Prop) (HP : forall r n, P r -> P (reader_read r n).2).

Lemma kept_read_exact n : kept P (read_exact n).
Proof.
  unfold read_exact. generalize (@nil byte). generalize n at 1. intros fuel acc. revert n acc.
  induction fuel as [|fuel IH]; intros n acc r Hr; cbn [read_exact_loop]; destruct (n =? 0); try done.
  specialize (HP r n Hr). destruct (reader_read r n) as [[[|b bs]|e| |] r']; try done. by apply IH.
Qed.

Lemma kept_read_byte : kept P read_byte.
Proof.
  intros r Hr. pose proof (kept_read_exact 1 r Hr) as Hk. unfold read_byte.
  by destruct (read_exact 1 r) as [[bs|e| |] r'].
Qed.
End kept_reads.

(** ** What reading delivers *)

Section laws.
Context `{ReaderLaws R rest}.

Lemma read_exact_loop_spec fuel n acc r :
  n <= fuel ->
  safe (read_exact_loop fuel n acc r).1 /\
  (forall bs r', read_exact_loop fuel n acc r = (Ok bs, r') ->
     (total_from r -> total_from r') /\
     exists b, bs = acc ++ b /\ length b = n /\ rest r = b ++ rest r') /\
  (total_from r -> n <= length (rest r) -> is_ok (read_exact_loop fuel n acc r).1 = true).
Proof.
  revert n acc r. induction fuel as [|fuel IH]; intros n acc r Hf; cbn [read_exact_loop].
  - replace n with 0 by lia. cbn. split; [done|]. split; [|done].
    intros bs r' [= <- <-]. split; [done|]. exists []. by rewrite app_nil_r.
  - destruct (Nat.eqb_spec n 0) as [->|Hn].
    { split; [done|]. split; [|done]. intros bs r' [= <- <-]. split; [done|]. exists []. by rewrite app_nil_r. }
    pose proof (read_safe r n) as Hs. pose proof (total_from_read r n) as Ht.
    destruct (reader_read r n) as [[bs|e| |] r1] eqn:E; cbn [fst snd is_ok safe] in Hs, Ht;
      [|split; [done|]; split; [done|]; intros Htot; by destruct (Ht Htot)..].
    apply read_takes in E as (Er & Hl & Hz). destruct bs as [|b bs].
    + split; [done|]. split; [done|]. intros _ Hle. destruct Hz as [?|Hz]; [done|lia|].
      rewrite Hz in Hle. cbn in Hle. lia.
    + cbn [length] in Hl. destruct (IH (n - length (b :: bs)) (acc ++ b :: bs) r1) as (H1 & H2 & H3);
        [cbn [length]; lia|]. split; [done|]. split.
      * intros cs r' (Htt & c & -> & Hc & Hr)%H2. split; [intros Htot; by apply Htt, Ht|].
        exists (b :: bs ++ c). rewrite Er, Hr.
        split; [solve_app|]. split; [|solve_app]. cbn [length] in *. rewrite length_app. lia.
      * intros Htot Hle. apply H3; [by apply Ht|]. rewrite Er, length_app in Hle. lia.
Qed.

Lemma read_exact_Ok n r bs r' :
  read_exact n r = (Ok bs, r') -> length bs = n /\ rest r = bs ++ rest r'.
Proof.
  intros E. destruct (read_exact_loop_spec n n [] r) as (_ & Hok & _); [lia|].
  by apply Hok in E as (_ & b & -> & ? & ?).
Qed.

Lemma read_exact_total n r bs r' :
  read_exact n r = (Ok bs, r') -> total_from r -> total_from r'.
Proof.
  intros E. destruct (read_exact_loop_spec n n [] r) as (_ & Hok & _); [lia|]. by apply Hok in E as [? _].
Qed.

Lemma safe_read_exact n r : safe (read_exact n r).1.
Proof. apply read_exact_loop_spec. lia. Qed.

(** A reader that does not fail delivers what is there. *)
Lemma read_exact_from r a b :
  total_from r -> rest r = a ++ b ->
  exists r', read_exact (length a) r = (Ok a, r') /\ rest r' = b.
Proof.
  intros Ht Er. destruct (read_exact_loop_spec (length a) (length a) [] r) as (_ & _ & Hok); [lia|].
  specialize (Hok Ht). premise Hok; [rewrite Er, length_app; lia|]. fold (read_exact (length a)) in Hok.
  destruct (read_exact (length a) r) as [[bs|e| |] r'] eqn:E; try done.
  apply read_exact_Ok in E as [Hl E]. rewrite Er in E.
  apply app_inj_1 in E as [-> ->]; [|done]. by exists r'.
Qed.

Lemma read_exact_app r a b :
  total_reader R -> rest r = a ++ b ->
  exists r', read_exact (length a) r = (Ok a, r') /\ rest r' = b.
Proof. intros Ht. by apply read_exact_from, total_reader_from. Qed.

Lemma safe_read_byte r : safe (read_byte r).1.
Proof.
  unfold read_byte. pose proof (safe_read_exact 1 r) as Hs.
  destruct (read_exact 1 r) as [[bs|e| |] r'] eqn:E; try done.
  apply read_exact_Ok in E as [Hl _]. by destruct bs.
Qed.

Lemma read_byte_Ok r b r' : read_byte r = (Ok b, r') -> rest r = b :: rest r'.
Proof.
  unfold read_byte. destruct (read_exact 1 r) as [[bs|e| |] r1] eqn:E; try done.
  apply read_exact_Ok in E as [Hl Er]. destruct bs as [|c [|??]]; try done.
  intros [= <- <-]. done.
Qed.

Lemma read_byte_cons r b t :
  total_reader R -> rest r = b :: t -> exists r', read_byte r = (Ok b, r') /\ rest r' = t.
Proof.
  intros Ht Er. destruct (read_exact_app r [b] t Ht Er) as (r' & E & Hr). exists r'.
  split; [|done]. unfold read_byte. cbn [length] in E. by rewrite E.
Qed.

(** At the end of the input there is no byte. *)
Lemma read_byte_end r : rest r = [] -> is_ok (read_byte r).1 = false.
Proof.
  intros Er. destruct (read_byte r) as [[b|e| |] r'] eqn:E; try done.
  apply read_byte_Ok in E. by rewrite Er in E.
Qed.
End laws.

(** ** A concrete reader: a slice that delivers at most three bytes per call *)

Definition short_reader : Type := bytes.

#[export] Instance short_reader_read : Reader short_reader := fun r n =>
  (Ok (take (Nat.min 3 n) r), drop (Nat.min 3 n) r).

#[export] Instance short_reader_laws : ReaderLaws short_reader (fun r => r).
Proof.
  split; [|done]. intros r n bs r' E.
  change (reader_read r n) with (Ok (take (Nat.min 3 n) r), drop (Nat.min 3 n) r) in E.
  set (k := Nat.min 3 n) in *. assert (bs = take k r) as -> by congruence.
  assert (r' = drop k r) as -> by congruence. rewrite take_drop, length_take.
  split; [done|]. split; [unfold k; lia|]. intros Hz%(f_equal length).
  rewrite length_take in Hz. cbn [length] in Hz. destruct r as [|b r]; [by right|].
  left. cbn [length] in Hz. unfold k in Hz. lia.
Qed.

Lemma short_reader_total : total_reader short_reader.
Proof. done. Qed.
