(* ===== verification/PackHeader.v ===== *)
(** * Entry headers of a pack (zmin-git-core/src/pack.rs): the type and size of an object, and the
      distance of an offset delta *)
From S2P Require Import Prelude Object Reader.

(** ** Definitions *)

(** [out[len] = byte; len += 1] in an array of [cap] bytes. *)
Definition push_array (cap : nat) (out : bytes) (b : N) : outcome bytes :=
  if length out <? cap then Ok (out ++ [byte_of_N b]) else Panic.

(** [value << shift] on [u64]: the bits shifted out are lost. *)
Definition shl64 (value shift : N) : N := (N.shiftl value shift mod 2 ^ 64)%N.

(** The loop [while size != 0] of [pack_object_header_bytes] and
    [pack_delta_object_header_bytes]. *)
Fixpoint size_bytes_loop (fuel cap : nat) (size : N) (out : bytes) : outcome bytes :=
  if (size =? 0)%N then Ok out else
  match fuel with
  | 0 => NoFuel
  | S fuel =>
      let byte := N.land size 127 in
      let size := N.shiftr size 7 in
      let byte := if (size =? 0)%N then byte else N.lor byte 128 in
      out ← push_array cap out byte;
      size_bytes_loop fuel cap size out
  end.

(** The common body of the two functions; a [u64] has at most nine groups of seven bits above its
    first four. *)
Definition header_bytes (cap : nat) (type_code size : N) : outcome bytes :=
  let byte := N.lor (N.shiftl type_code 4) (N.land size 15) in
  let size := N.shiftr size 4 in
  let byte := if (size =? 0)%N then byte else N.lor byte 128 in
  out ← push_array cap [] byte;
  size_bytes_loop 9 cap size out.

Definition kind_code (k : GitObjectKind) : N :=
  match k with
  | Commit => 1
  | Tree => 2
  | Blob => 3
  | Tag => 4
  end.

(** The header in its array of ten bytes. *)
Definition pack_object_header_bytes (k : GitObjectKind) (size : N) : outcome bytes :=
  header_bytes 10 (kind_code k) size.

Definition write_pack_object_header (out : bytes) (k : GitObjectKind) (size : N) : outcome bytes :=
  h ← pack_object_header_bytes k size;
  Ok (out ++ h).

(** [out] is the array of twenty bytes of [ofs_delta_header_bytes]. *)
Definition pack_delta_object_header_bytes (size : N) : outcome bytes := header_bytes 20 6 size.

(** The loop of [delta_base_offset_bytes], in its array of ten bytes. *)
Fixpoint base_offset_loop (fuel : nat) (distance : N) (out : bytes) : outcome bytes :=
  if (distance =? 0)%N then Ok out else
  match fuel with
  | 0 => NoFuel
  | S fuel =>
      let distance := (distance - 1)%N in
      out ← push_array 10 out (N.lor (N.land distance 127) 128);
      base_offset_loop fuel (N.shiftr distance 7) out
  end.

(** The bytes go to the [room] bytes of [out], in reverse. *)
Definition delta_base_offset_bytes (room : nat) (distance : N) : outcome bytes :=
  out ← push_array 10 [] (N.land distance 127);
  out ← base_offset_loop 9 (N.shiftr distance 7) out;
  _ ← assert (length out <=? room);
  Ok (rev out).

Definition ofs_delta_header_bytes (object_offset base_offset size : N) : outcome bytes :=
  distance ← ok_or (checked_subN object_offset base_offset) InvalidInput
               "ofs-delta base offset must precede object offset";
  h ← pack_delta_object_header_bytes size;
  d ← delta_base_offset_bytes (20 - length h) distance;
  Ok (h ++ d).

Inductive PackObjectHeader : Set :=
| Base (kind : GitObjectKind) (size : N)
| OfsDelta (size : N)
| RefDelta (size : N).

Section read.
Context `{Reader R}.

(** The loop [while byte & 0x80 != 0] of [read_pack_object_header]: it runs at most nine times. *)
Fixpoint header_size_loop (fuel : nat) (byte size shift : N) : rd R N :=
  if (N.land byte 128 =? 0)%N then rret size else
  match fuel with
  | 0 => rlift NoFuel
  | S fuel =>
      b <~ read_byte;
      let byte := u8 b in
      let size := N.lor size (shl64 (N.land byte 127) shift) in
      let shift := (shift + 7)%N in
      if (63 <? shift)%N then rlift (fail InvalidData "packed object size overflows u64")
      else header_size_loop fuel byte size shift
  end.

Definition header_of (type_code size : N) : outcome PackObjectHeader :=
  match type_code with
  | 1%N => Ok (Base Commit size)
  | 2%N => Ok (Base Tree size)
  | 3%N => Ok (Base Blob size)
  | 4%N => Ok (Base Tag size)
  | 6%N => Ok (OfsDelta size)
  | 7%N => Ok (RefDelta size)
  | _ => fail InvalidData "invalid packed object type"
  end.

Definition read_pack_object_header : rd R PackObjectHeader :=
  b <~ read_byte;
  let byte := u8 b in
  let type_code := N.land (N.shiftr byte 4) 7 in
  size <~ header_size_loop 9 byte (N.land byte 15) 4;
  rlift (header_of type_code size).

(** The loop of [read_delta_base_offset]; an addition that overflows is a panic, as in the
    profiles with overflow checks. *)
Fixpoint distance_loop (fuel : nat) (byte distance : N) : rd R N :=
  if (N.land byte 128 =? 0)%N then rret distance else
  match fuel with
  | 0 => rlift NoFuel
  | S fuel =>
      b <~ read_byte;
      next <~ rlift (unwrap (checked_addN distance 1));
      distance_loop fuel (u8 b) (N.lor (shl64 next 7) (N.land (u8 b) 127))
  end.

Definition read_delta_base_offset (fuel : nat) (object_offset : N) : rd R N :=
  b <~ read_byte;
  distance <~ distance_loop fuel (u8 b) (N.land (u8 b) 127);
  rlift (ok_or (checked_subN object_offset distance) InvalidData
           "ofs-delta base offset points before pack start").
End read.

(** ** Arithmetic of the bit operations *)

Lemma land_127 n : N.land n 127 = (n mod 128)%N.
Proof. apply (N.land_ones n 7). Qed.

Lemma land_15 n : N.land n 15 = (n mod 16)%N.
Proof. apply (N.land_ones n 4). Qed.

Lemma land_high a b k : (a < 2 ^ k)%N -> N.land a (N.shiftl b k) = 0%N.
Proof.
  intros Ha. apply N.bits_inj. intros n. rewrite N.land_spec, N.bits_0.
  destruct (N.lt_ge_cases n k) as [Hn|Hn].
  - by rewrite N.shiftl_spec_low, andb_false_r.
  - assert (Hb : N.testbit a n = false); [|by rewrite Hb].
    rewrite <- (N.mod_small a (2 ^ k) Ha). by apply N.mod_pow2_bits_high.
Qed.

(** Setting bits above those of [a]. *)
Lemma lor_high a b k : (a < 2 ^ k)%N -> N.lor a (N.shiftl b k) = (a + b * 2 ^ k)%N.
Proof.
  intros Ha. pose proof (land_high a b k Ha) as Hl.
  rewrite <- N.lxor_lor, <- N.add_nocarry_lxor, N.shiftl_mul_pow2 by done. done.
Qed.

Lemma lor_128 n : (n < 128)%N -> N.lor n 128 = (n + 128)%N.
Proof. intros Hn. exact (lor_high n 1 7 Hn). Qed.

Lemma lor_low a b k : (a < 2 ^ k)%N -> N.lor (N.shiftl b k) a = (b * 2 ^ k + a)%N.
Proof. intros Ha. rewrite N.lor_comm, lor_high by done. lia. Qed.

(** The continuation bit and the payload of a byte. *)
Lemma flag_bit b : (b < 256)%N -> (N.land b 128 =? 0)%N = (b <? 128)%N.
Proof.
  intros Hb. apply (forall_below 256 (fun b => Bool.eqb (N.land b 128 =? 0)%N (b <? 128)%N)) in Hb;
    [by apply eqb_prop in Hb|]. vm_compute. reflexivity.
Qed.

Lemma shl64_small v k : (v * 2 ^ k < 2 ^ 64)%N -> shl64 v k = (v * 2 ^ k)%N.
Proof. intros Hv. unfold shl64. rewrite N.shiftl_mul_pow2. by apply N.mod_small. Qed.

(** ** Sizes: the text of a number in groups of seven bits, low groups first *)

Fixpoint leb (fuel : nat) (n : N) : bytes :=
  match fuel with
  | 0 => []
  | S fuel =>
      if (n <? 128)%N then [byte_of_N n]
      else byte_of_N (n mod 128 + 128) :: leb fuel (n / 128)
  end.

(** The groups of a number above its low bits: none for zero. *)
Definition leb_rest (fuel : nat) (n : N) : bytes := if (n =? 0)%N then [] else leb fuel n.

Lemma shiftr_7 n : N.shiftr n 7 = (n / 128)%N.
Proof. apply N.shiftr_div_pow2. Qed.

Lemma div_128_zero n : (n / 128 =? 0)%N = (n <? 128)%N.
Proof.
  destruct (N.ltb_spec n 128); [rewrite N.div_small by done; done|].
  apply N.eqb_neq. intros E. apply N.div_small_iff in E; lia.
Qed.

Lemma length_leb fuel n : length (leb fuel n) <= fuel.
Proof.
  revert n. induction fuel as [|fuel IH]; intros n; cbn [leb]; [done|].
  destruct (n <? 128)%N; cbn [length]; [lia|]. specialize (IH (n / 128)%N). lia.
Qed.

Lemma leb_fuel fuel fuel' n :
  (n < 2 ^ (7 * N.of_nat fuel))%N -> 0 < fuel <= fuel' -> leb fuel' n = leb fuel n.
Proof.
  revert fuel' n. induction fuel as [|fuel IH]; intros fuel' n Hn Hf; [lia|].
  destruct fuel' as [|fuel']; [lia|]. cbn [leb]. destruct (N.ltb_spec n 128); [done|]. f_equal.
  replace (7 * N.of_nat (S fuel))%N with (7 + 7 * N.of_nat fuel)%N in Hn by lia.
  rewrite N.pow_add_r in Hn. apply IH; [by apply N.Div0.div_lt_upper_bound|].
  destruct fuel; [|lia]. cbn in Hn. lia.
Qed.

Lemma size_bytes_loop_Ok fuel cap size out :
  (size < 2 ^ (7 * N.of_nat fuel))%N -> length out + fuel <= cap ->
  size_bytes_loop fuel cap size out = Ok (out ++ leb_rest fuel size).
Proof.
  revert size out. induction fuel as [|fuel IH]; intros size out Hs Hl; cbn [size_bytes_loop];
    unfold leb_rest; destruct (N.eqb_spec size 0) as [->|Hz]; try (by rewrite app_nil_r); [cbn in Hs; lia|].
  rewrite land_127, shiftr_7, div_128_zero. cbn [leb].
  unfold push_array. rewrite (proj2 (Nat.ltb_lt _ _)) by lia. rewrite bind_Ok, IH.
  - rewrite <- app_assoc. do 2 f_equal. cbn [app]. unfold leb_rest.
    destruct (N.ltb_spec size 128) as [Hlt|Hge].
    + rewrite N.mod_small, N.div_small by done. done.
    + rewrite lor_128 by (apply N.mod_lt; done). f_equal.
      by rewrite div_128_zero, (proj2 (N.ltb_ge _ _) Hge).
  - apply N.Div0.div_lt_upper_bound. replace (7 * N.of_nat (S fuel))%N with (7 + 7 * N.of_nat fuel)%N in Hs by lia.
    rewrite N.pow_add_r in Hs. exact Hs.
  - rewrite length_app. cbn [length]. lia.
Qed.

Lemma header_bytes_Ok cap type_code size :
  (type_code < 8)%N -> (size < 2 ^ 64)%N -> 10 <= cap ->
  header_bytes cap type_code size
  = Ok (byte_of_N (type_code * 16 + size mod 16 + (if (size <? 16)%N then 0 else 128))
          :: leb_rest 9 (size / 16)).
Proof.
  intros Ht Hs Hc. unfold header_bytes.
  assert (Hd : N.shiftr size 4 = (size / 16)%N) by apply N.shiftr_div_pow2. rewrite Hd.
  assert (Hz : (size / 16 =? 0)%N = (size <? 16)%N).
  { destruct (N.ltb_spec size 16); [by rewrite N.div_small|].
    apply N.eqb_neq. intros E. apply N.div_small_iff in E; lia. }
  rewrite Hz, land_15, lor_low by (apply N.mod_lt; done). change (2 ^ 4)%N with 16%N.
  assert (Hm : (size mod 16 < 16)%N) by (apply N.mod_lt; done).
  unfold push_array. rewrite (proj2 (Nat.ltb_lt _ _)) by (cbn; lia). rewrite bind_Ok.
  rewrite size_bytes_loop_Ok; [|apply N.Div0.div_lt_upper_bound; cbn; lia|cbn; lia].
  cbn [app]. do 3 f_equal. destruct (size <? 16)%N; [lia|]. rewrite lor_128 by lia. done.
Qed.

(** ** Reading sizes *)

Section read_spec.
Context `{ReaderLaws R rest} (total : total_reader R).

(** The flag and the payload of the bytes of [leb]. *)
Lemma u8_leb_last n : (n < 128)%N -> u8 (byte_of_N n) = n.
Proof. intros Hn. rewrite u8_byte_of_N. apply N.mod_small. lia. Qed.

Lemma u8_leb_more n : u8 (byte_of_N (n mod 128 + 128)) = (n mod 128 + 128)%N.
Proof. rewrite u8_byte_of_N. apply N.mod_small. pose proof (N.mod_lt n 128). lia. Qed.

Lemma payload_more n : N.land (n mod 128 + 128) 127 = (n mod 128)%N.
Proof.
  rewrite land_127. rewrite N.Div0.add_mod, N.Div0.mod_same, N.add_0_r, !N.Div0.mod_mod. done.
Qed.

(** One group more: the value so far is below the group. *)
Lemma add_group a n shift :
  (a < 2 ^ shift)%N -> (a + n * 2 ^ shift < 2 ^ 64)%N ->
  N.lor a (shl64 (n mod 128) shift) = (a + (n mod 128) * 2 ^ shift)%N /\
  (a + (n mod 128) * 2 ^ shift < 2 ^ (shift + 7))%N /\
  (a + (n mod 128) * 2 ^ shift + (n / 128) * 2 ^ (shift + 7) = a + n * 2 ^ shift)%N.
Proof.
  intros Ha Hn. pose proof (N.mod_lt n 128). pose proof (N.div_mod n 128).
  assert (Hp : (2 ^ (shift + 7) = 128 * 2 ^ shift)%N) by (rewrite N.pow_add_r; change (2 ^ 7)%N with 128%N; lia).
  rewrite Hp. split; [|split; nia].
  rewrite shl64_small by nia. rewrite <- N.shiftl_mul_pow2 at 1. by apply lor_high.
Qed.

Lemma header_size_loop_leb fuel fuel' byte n size shift r tail :
  (n < 2 ^ (7 * N.of_nat fuel))%N -> (shift + 7 * N.of_nat fuel <= 60)%N -> fuel <= fuel' ->
  (size < 2 ^ shift)%N -> (size + n * 2 ^ shift < 2 ^ 64)%N ->
  (N.land byte 128 =? 0)%N = (n =? 0)%N -> rest r = leb_rest fuel n ++ tail ->
  exists r', header_size_loop fuel' byte size shift r = (Ok (size + n * 2 ^ shift)%N, r') /\
             rest r' = tail.
Proof.
  revert fuel' byte n size shift r. induction fuel as [|fuel IH];
    intros fuel' byte n size shift r Hn Hsh Hf Hs Hv Hb Hr;
    (destruct (decide (n = 0%N)) as [->|Hz];
     [exists r; rewrite N.mul_0_l, N.add_0_r; by destruct fuel'; cbn [header_size_loop]; rewrite Hb|]).
  { cbn in Hn. lia. }
  destruct fuel' as [|fuel']; [lia|]. unfold leb_rest in Hr. apply N.eqb_neq in Hz as Hz'.
  rewrite Hz' in Hr, Hb. cbn [header_size_loop]. rewrite Hb.
  assert (Hn' : (n / 128 < 2 ^ (7 * N.of_nat fuel))%N).
  { apply N.Div0.div_lt_upper_bound. replace (7 * N.of_nat (S fuel))%N with (7 + 7 * N.of_nat fuel)%N in Hn by lia.
    by rewrite N.pow_add_r in Hn. }
  destruct (add_group size n shift Hs Hv) as (E1 & E2 & E3).
  assert (Hstep : exists b t, leb (S fuel) n = b :: t /\ N.land (u8 b) 127 = (n mod 128)%N /\
    (N.land (u8 b) 128 =? 0)%N = (n / 128 =? 0)%N /\ t = leb_rest fuel (n / 128)).
  { cbn [leb]. unfold leb_rest. rewrite div_128_zero. destruct (N.ltb_spec n 128).
    - eexists _, _. split; [done|]. rewrite u8_leb_last, land_127 by done.
      rewrite flag_bit by lia. by rewrite (proj2 (N.ltb_lt _ _)).
    - eexists _, _. split; [done|]. rewrite u8_leb_more, payload_more. pose proof (N.mod_lt n 128).
      rewrite flag_bit by lia. by rewrite (proj2 (N.ltb_ge _ _)) by lia. }
  destruct Hstep as (b & t & Eleb & Hpay & Hflag & ->). rewrite Eleb in Hr. cbn [app] in Hr.
  destruct (read_byte_cons r b _ total Hr) as (r1 & Er & Hr1). rewrite (rbind_Ok _ _ _ _ _ Er).
  cbv zeta. rewrite (proj2 (N.ltb_ge 63 _)) by lia. rewrite Hpay, E1, <- E3.
  apply IH; [done|lia|lia|done|lia|done|done].
Qed.

(** Too many groups: the size does not fit, and the loop says so. *)
Lemma header_size_loop_overflow k fuel fuel' byte n size shift r tail :
  (2 ^ (7 * N.of_nat k) <= n)%N -> (n < 2 ^ (7 * N.of_nat fuel))%N ->
  (shift + 7 * N.of_nat k = 60)%N -> k < fuel' -> (N.land byte 128 =? 0)%N = false ->
  rest r = leb fuel n ++ tail ->
  exists r', header_size_loop fuel' byte size shift r
             = (fail InvalidData "packed object size overflows u64", r').
Proof.
  revert fuel fuel' byte n size shift r. induction k as [|k IH];
    intros fuel fuel' byte n size shift r Hk Hn Hsh Hf Hb Hr; (destruct fuel' as [|fuel']; [lia|]);
    (match type of Hk with (?p <= _)%N => assert (p <> 0)%N by (by apply N.pow_nonzero) end);
    (destruct fuel as [|fuel]; [cbn in Hn; lia|]);
    cbn [header_size_loop]; rewrite Hb; cbn [leb] in Hr.
  - assert (Hc : exists b t, rest r = b :: t) by (destruct (n <? 128)%N; rewrite Hr; cbn; eauto).
    destruct Hc as (b & t & Er). destruct (read_byte_cons r b t total Er) as (r1 & E1 & _).
    exists r1. rewrite (rbind_Ok _ _ _ _ _ E1). cbv zeta. by rewrite (proj2 (N.ltb_lt 63 _)) by lia.
  - replace (7 * N.of_nat (S k))%N with (7 + 7 * N.of_nat k)%N in Hk by lia.
    replace (7 * N.of_nat (S fuel))%N with (7 + 7 * N.of_nat fuel)%N in Hn by lia.
    rewrite N.pow_add_r in Hk, Hn. change (2 ^ 7)%N with 128%N in Hk, Hn.
    assert (Hpos : (1 <= 2 ^ (7 * N.of_nat k))%N) by (pose proof (N.pow_nonzero 2 (7 * N.of_nat k)); lia).
    rewrite (proj2 (N.ltb_ge n 128)) in Hr by lia. cbn [app] in Hr.
    destruct (read_byte_cons r _ _ total Hr) as (r1 & E1 & Hr1). rewrite (rbind_Ok _ _ _ _ _ E1).
    cbv zeta. rewrite (proj2 (N.ltb_ge 63 _)) by lia.
    apply (IH fuel fuel' _ (n / 128)%N _ _ r1); [| |lia|lia| |done].
    + by apply N.div_le_lower_bound.
    + by apply N.Div0.div_lt_upper_bound.
    + rewrite u8_leb_more. pose proof (N.mod_lt n 128). rewrite flag_bit by lia. apply N.ltb_ge. lia.
Qed.

(** The first byte of a header. *)
Lemma header_first_byte type_code size :
  (type_code < 8)%N ->
  let b := u8 (byte_of_N (type_code * 16 + size mod 16 + (if (size <? 16)%N then 0 else 128))) in
  N.land (N.shiftr b 4) 7 = type_code /\ N.land b 15 = (size mod 16)%N /\
  (N.land b 128 =? 0)%N = (size / 16 =? 0)%N.
Proof.
  intros Ht b. assert (Hm : (size mod 16 < 16)%N) by (apply N.mod_lt; done).
  assert (Hd : (size / 16 =? 0)%N = (size <? 16)%N).
  { destruct (N.ltb_spec size 16); [by rewrite N.div_small|].
    apply N.eqb_neq. intros E. apply N.div_small_iff in E; lia. }
  rewrite Hd.
  assert (Hb : b = (type_code * 16 + size mod 16 + (if (size <? 16)%N then 0 else 128))%N)
    by (unfold b; rewrite u8_byte_of_N; apply N.mod_small; destruct (size <? 16)%N; lia).
  clearbody b. generalize dependent (size mod 16)%N. intros m Hm Hb.
  assert (Hall : forall f : bool, all_from 8 0 (fun t => all_from 16 0 (fun m =>
    let b := (t * 16 + m + (if f then 0 else 128))%N in
    (N.land (N.shiftr b 4) 7 =? t)%N && (N.land b 15 =? m)%N &&
    Bool.eqb (N.land b 128 =? 0)%N f)) = true) by (by intros []; vm_compute).
  pose proof (forall_below 8 _ (Hall (size <? 16)%N) type_code Ht) as H1.
  cbv beta in H1. pose proof (forall_below 16 _ H1 m Hm) as H2. cbv beta zeta in H2.
  rewrite <- Hb in H2.
  apply andb_true_iff in H2 as [[H2 H3]%andb_true_iff H4].
  apply N.eqb_eq in H2, H3. apply eqb_prop in H4. done.
Qed.

Lemma read_header cap type_code size h r tail :
  (type_code < 8)%N -> (size < 2 ^ 64)%N -> 10 <= cap -> header_bytes cap type_code size = Ok h ->
  rest r = h ++ tail ->
  ((size < 2 ^ 60)%N ->
     exists r', read_pack_object_header r = (header_of type_code size, r') /\ rest r' = tail) /\
  ((2 ^ 60 <= size)%N ->
     exists r', read_pack_object_header r
                = (fail InvalidData "packed object size overflows u64", r')).
Proof.
  intros Ht Hs Hc E Hr. rewrite header_bytes_Ok in E by done. injection E as <-.
  destruct (header_first_byte type_code size Ht) as (B1 & B2 & B3).
  set (b := byte_of_N _) in *. cbn [app] in Hr.
  destruct (read_byte_cons r b _ total Hr) as (r1 & E1 & Hr1).
  unfold read_pack_object_header. rewrite (rbind_Ok _ _ _ _ _ E1). cbv zeta. rewrite B1, B2.
  pose proof (N.div_mod size 16 ltac:(done)) as Hdm.
  split; intros Hlt.
  - assert (Hd : (size / 16 < 2 ^ 56)%N) by (apply N.Div0.div_lt_upper_bound; cbn; lia).
    destruct (header_size_loop_leb 8 9 (u8 b) (size / 16)%N (size mod 16)%N 4 r1 tail) as (r2 & E2 & Hr2).
    + exact Hd.
    + done.
    + lia.
    + by apply N.mod_lt.
    + change (2 ^ 4)%N with 16%N. lia.
    + exact B3.
    + rewrite Hr1. unfold leb_rest. destruct (size / 16 =? 0)%N; [done|].
      by rewrite (leb_fuel 8 9 _ Hd) by lia.
    + exists r2. rewrite (rbind_Ok _ _ _ _ _ E2). split; [|done]. unfold rlift. do 2 f_equal.
      change (2 ^ 4)%N with 16%N. lia.
  - assert (Hd : (2 ^ 56 <= size / 16)%N) by (apply N.div_le_lower_bound; cbn; lia).
    destruct (header_size_loop_overflow 8 9 9 (u8 b) (size / 16)%N (size mod 16)%N 4 r1 tail) as (r2 & E2).
    + exact Hd.
    + apply N.Div0.div_lt_upper_bound. cbn. lia.
    + done.
    + lia.
    + rewrite B3. apply N.eqb_neq. lia.
    + rewrite Hr1. unfold leb_rest. destruct (N.eqb_spec (size / 16) 0); [lia|done].
    + exists r2. unfold rbind. by rewrite E2.
Qed.

Lemma leb_rest_length fuel n : length (leb_rest fuel n) <= fuel.
Proof. unfold leb_rest. destruct (n =? 0)%N; [cbn; lia|apply length_leb]. Qed.

Lemma object_header_roundtrip k size :
  (size < 2 ^ 64)%N ->
  exists h, pack_object_header_bytes k size = Ok h /\ length h <= 10 /\
    forall r tail, rest r = h ++ tail ->
      ((size < 2 ^ 60)%N ->
         exists r', read_pack_object_header r = (Ok (Base k size), r') /\ rest r' = tail) /\
      ((2 ^ 60 <= size)%N ->
         exists r', read_pack_object_header r
                    = (fail InvalidData "packed object size overflows u64", r')).
Proof.
  intros Hs. assert (Hk : (kind_code k < 8)%N) by (by destruct k).
  unfold pack_object_header_bytes. eexists. split; [by apply header_bytes_Ok; [..|lia]|].
  split; [cbn [length]; pose proof (leb_rest_length 9 (size / 16)); lia|].
  intros r tail Hr.
  destruct (read_header 10 (kind_code k) size _ r tail Hk Hs (le_n 10)
    (header_bytes_Ok 10 (kind_code k) size Hk Hs (le_n 10)) Hr) as [H1 H2].
  split; [|exact H2]. intros Hlt. destruct (H1 Hlt) as (r' & E & Hr'). exists r'.
  split; [|done]. by destruct k.
Qed.

(** C38: the header of an object never overruns its ten bytes, and reads back, from any reader, as
    the kind and the size it was written for, with the reader left after it, for every size below
    2^60; larger sizes are written, and refused by the reader as too large. *)
Theorem pack_object_header_roundtrip k size :
  (size < 2 ^ 64)%N ->
  exists h, pack_object_header_bytes k size = Ok h /\ length h <= 10 /\
    forall r tail, rest r = h ++ tail ->
      ((size < 2 ^ 60)%N ->
         exists r', read_pack_object_header r = (Ok (Base k size), r') /\ rest r' = tail) /\
      ((2 ^ 60 <= size)%N ->
         exists r', read_pack_object_header r
                    = (fail InvalidData "packed object size overflows u64", r')).
Proof. apply object_header_roundtrip. Qed.

(** ** The distance of an offset delta *)

(** The bytes after the last one, low groups first, all flagged. *)
Fixpoint ofs_rest (fuel : nat) (d : N) : bytes :=
  match fuel with
  | 0 => []
  | S fuel =>
      if (d =? 0)%N then []
      else byte_of_N ((d - 1) mod 128 + 128) :: ofs_rest fuel ((d - 1) / 128)
  end.

Lemma length_ofs_rest fuel d : length (ofs_rest fuel d) <= fuel.
Proof.
  revert d. induction fuel as [|fuel IH]; intros d; cbn [ofs_rest]; [done|].
  destruct (d =? 0)%N; cbn [length]; [lia|]. specialize (IH ((d - 1) / 128)%N). lia.
Qed.

Lemma pred_div_lt d fuel :
  (d < 2 ^ (7 * N.of_nat (S fuel)))%N -> ((d - 1) / 128 < 2 ^ (7 * N.of_nat fuel))%N.
Proof.
  replace (7 * N.of_nat (S fuel))%N with (7 + 7 * N.of_nat fuel)%N by lia.
  rewrite N.pow_add_r. intros Hd. apply N.Div0.div_lt_upper_bound. change (2 ^ 7)%N with 128%N in Hd. lia.
Qed.

Lemma base_offset_loop_Ok fuel d out :
  (d < 2 ^ (7 * N.of_nat fuel))%N -> length out + fuel <= 10 ->
  base_offset_loop fuel d out = Ok (out ++ ofs_rest fuel d).
Proof.
  revert d out. induction fuel as [|fuel IH]; intros d out Hd Hl; cbn [base_offset_loop ofs_rest].
  { cbn in Hd. rewrite (proj2 (N.eqb_eq _ _)) by lia. by rewrite app_nil_r. }
  destruct (N.eqb_spec d 0); [by rewrite app_nil_r|].
  unfold push_array. rewrite (proj2 (Nat.ltb_lt _ _)) by lia. rewrite bind_Ok, shiftr_7, IH.
  - rewrite land_127, lor_128 by (apply N.mod_lt; done). by rewrite <- app_assoc.
  - by apply pred_div_lt.
  - rewrite length_app. cbn [length]. lia.
Qed.

(** The text of a distance, high groups first. *)
Definition ofs_text (d : N) : bytes := rev (ofs_rest 9 (d / 128)) ++ [byte_of_N (d mod 128)].

Lemma delta_base_offset_bytes_Ok room d :
  (d < 2 ^ 64)%N -> length (ofs_text d) <= room -> delta_base_offset_bytes room d = Ok (ofs_text d).
Proof.
  intros Hd Hl. unfold delta_base_offset_bytes, push_array. cbn [length Nat.ltb Nat.leb app].
  rewrite bind_Ok, shiftr_7, land_127, base_offset_loop_Ok.
  - rewrite bind_Ok. unfold ofs_text in *. rewrite length_app, length_rev in Hl. cbn [length] in Hl.
    rewrite (proj2 (Nat.leb_le _ _)) by (cbn [app length]; lia). done.
  - apply N.Div0.div_lt_upper_bound. cbn. lia.
  - cbn. lia.
Qed.

(** Reading the flagged bytes of [d] from the first one: the value is [d - 1], and the last byte
    read has its flag. *)
Lemma distance_prefix fuel d r tail g :
  (d <> 0)%N -> (d < 2 ^ (7 * N.of_nat fuel))%N -> (d < 2 ^ 57)%N ->
  rest r = rev (ofs_rest fuel d) ++ tail ->
  exists b r', (b <~ read_byte; distance_loop (length (ofs_rest fuel d) + g) (u8 b) (N.land (u8 b) 127)) r
               = distance_loop (S g) (u8 b) (d - 1) r' /\
               (N.land (u8 b) 128 =? 0)%N = false /\ rest r' = tail.
Proof.
  revert d r tail g. induction fuel as [|fuel IH]; intros d r tail g Hd Hlt H57 Hr; [cbn in Hlt; lia|].
  cbn [ofs_rest] in *. rewrite (proj2 (N.eqb_neq d 0) Hd) in *. set (d' := ((d - 1) / 128)%N) in *.
  set (c := byte_of_N ((d - 1) mod 128 + 128)) in *. cbn [rev length] in *.
  assert (Hpay : N.land (u8 c) 127 = ((d - 1) mod 128)%N) by (unfold c; by rewrite u8_leb_more, payload_more).
  assert (Hflag : (N.land (u8 c) 128 =? 0)%N = false).
  { unfold c. rewrite u8_leb_more. pose proof (N.mod_lt (d - 1) 128). rewrite flag_bit by lia. apply N.ltb_ge. lia. }
  pose proof (N.div_mod (d - 1) 128 ltac:(done)) as Hdm. fold d' in Hdm.
  rewrite <- app_assoc in Hr. cbn [app] in Hr.
  destruct (decide (d' = 0%N)) as [E|Hd'].
  - assert (Hnil : ofs_rest fuel d' = []) by (rewrite E; by destruct fuel). rewrite Hnil in *. cbn [rev app length] in *.
    destruct (read_byte_cons r c _ total Hr) as (r1 & E1 & Hr1). exists c, r1.
    rewrite (rbind_Ok _ _ _ _ _ E1), Hpay. split; [|done]. do 2 f_equal. lia.
  - destruct (IH d' r (c :: tail) (S g) Hd') as (b & r1 & E1 & Hf1 & Hr1);
      [by apply pred_div_lt|lia|done|].
    destruct (read_byte_cons r1 c _ total Hr1) as (r2 & E2 & Hr2). exists c, r2.
    replace (S (length (ofs_rest fuel d')) + g) with (length (ofs_rest fuel d') + S g) by lia.
    rewrite E1. cbn [distance_loop]. rewrite Hf1, (rbind_Ok _ _ _ _ _ E2). split; [|done].
    unfold checked_addN. rewrite (proj2 (N.ltb_lt _ _)) by (unfold usize_limit; lia). cbn [unwrap].
    rewrite (rbind_Ok (rlift (Ok (d' - 1 + 1)%N)) _ r2 _ r2) by done. rewrite Hpay.
    assert (V : N.lor (shl64 (d' - 1 + 1) 7) ((d - 1) mod 128) = (d - 1)%N).
    { rewrite shl64_small by lia.
      rewrite <- N.shiftl_mul_pow2, lor_low by (by apply N.mod_lt). change (2 ^ 7)%N with 128%N. lia. }
    by rewrite V.
Qed.

Lemma last_group d' d :
  (d' <> 0)%N -> (d < 2 ^ 64)%N -> d' = (d / 128)%N ->
  N.lor (shl64 (d' - 1 + 1) 7) (d mod 128) = d.
Proof.
  intros Hd' Hd E. pose proof (N.div_mod d 128 ltac:(done)) as Hdm. rewrite <- E in Hdm.
  rewrite shl64_small by lia.
  rewrite <- N.shiftl_mul_pow2, lor_low by (by apply N.mod_lt). change (2 ^ 7)%N with 128%N. lia.
Qed.

Lemma read_ofs_text d r tail fuel :
  (d < 2 ^ 64)%N -> 9 <= fuel -> rest r = ofs_text d ++ tail ->
  exists r', (b <~ read_byte; distance_loop fuel (u8 b) (N.land (u8 b) 127)) r = (Ok d, r') /\
             rest r' = tail.
Proof.
  intros Hd Hf Hr. unfold ofs_text in Hr. rewrite <- app_assoc in Hr. cbn [app] in Hr.
  set (c := byte_of_N (d mod 128)) in *.
  assert (Hc : u8 c = (d mod 128)%N) by (apply u8_leb_last; by apply N.mod_lt).
  assert (Hflag : (N.land (u8 c) 128 =? 0)%N = true).
  { rewrite Hc. pose proof (N.mod_lt d 128). rewrite flag_bit by lia. apply N.ltb_lt. lia. }
  assert (Hpay : N.land (u8 c) 127 = (d mod 128)%N) by (by rewrite Hc, land_127, N.Div0.mod_mod).
  destruct (decide (d / 128 = 0)%N) as [E|Hd'].
  - rewrite E in Hr. cbn [ofs_rest rev app N.eqb] in Hr.
    destruct (read_byte_cons r c _ total Hr) as (r1 & E1 & Hr1). exists r1.
    rewrite (rbind_Ok _ _ _ _ _ E1). destruct fuel; [lia|]. cbn [distance_loop].
    rewrite Hflag, Hpay. split; [|done]. unfold rret. do 2 f_equal. apply N.mod_small.
    apply N.div_small_iff in E; lia.
  - assert (H57 : (d / 128 < 2 ^ 57)%N) by (apply N.Div0.div_lt_upper_bound; cbn; lia).
    pose proof (length_ofs_rest 9 (d / 128)) as Hl.
    destruct (distance_prefix 9 (d / 128) r (c :: tail) (fuel - length (ofs_rest 9 (d / 128))) Hd')
      as (b & r1 & E1 & Hf1 & Hr1); [cbn; lia|done|done|].
    replace (length (ofs_rest 9 (d / 128)) + (fuel - length (ofs_rest 9 (d / 128)))) with fuel in E1 by lia.
    destruct (read_byte_cons r1 c _ total Hr1) as (r2 & E2 & Hr2). exists r2. split; [|done].
    rewrite E1. cbn [distance_loop]. rewrite Hf1, (rbind_Ok _ _ _ _ _ E2).
    unfold checked_addN. rewrite (proj2 (N.ltb_lt _ _)) by (unfold usize_limit; lia). cbn [unwrap].
    rewrite (rbind_Ok (rlift (Ok (d / 128 - 1 + 1)%N)) _ r2 _ r2) by done.
    rewrite Hpay, last_group by done.
    destruct (fuel - _); cbn [distance_loop]; by rewrite Hflag.
Qed.

Lemma ofs_header_roundtrip object_offset base_offset size :
  (base_offset <= object_offset)%N -> (object_offset < 2 ^ 64)%N -> (size < 2 ^ 60)%N ->
  exists h, ofs_delta_header_bytes object_offset base_offset size = Ok h /\ length h <= 20 /\
    forall r tail fuel, rest r = h ++ tail -> 10 <= fuel ->
      exists r1 r2, read_pack_object_header r = (Ok (OfsDelta size), r1) /\
        read_delta_base_offset fuel object_offset r1 = (Ok base_offset, r2) /\ rest r2 = tail /\
        forall small, (small < object_offset - base_offset)%N ->
          exists r', read_delta_base_offset fuel small r1
                     = (fail InvalidData "ofs-delta base offset points before pack start", r').
Proof.
  intros Hb Ho Hs. set (d := (object_offset - base_offset)%N).
  set (h := byte_of_N (6 * 16 + size mod 16 + (if (size <? 16)%N then 0 else 128))
              :: leb_rest 9 (size / 16)).
  assert (Hh : header_bytes 20 6 size = Ok h) by (apply header_bytes_Ok; lia).
  assert (Hlh : length h <= 10) by (cbn; pose proof (leb_rest_length 9 (size / 16)); lia).
  assert (Hlo : length (ofs_text d) <= 10).
  { unfold ofs_text. rewrite length_app, length_rev. cbn [length].
    pose proof (length_ofs_rest 9 (d / 128)). lia. }
  exists (h ++ ofs_text d). unfold ofs_delta_header_bytes, pack_delta_object_header_bytes, checked_subN.
  rewrite (proj2 (N.leb_le _ _) Hb). cbn [ok_or]. rewrite bind_Ok, Hh, bind_Ok.
  fold d. rewrite delta_base_offset_bytes_Ok, bind_Ok by lia.
  split; [done|]. split; [rewrite length_app; lia|]. intros r tail fuel Hr Hf.
  rewrite <- app_assoc in Hr.
  destruct (read_header 20 6 size h r (ofs_text d ++ tail)) as [H1 _]; [lia..|done|done|].
  destruct (H1 Hs) as (r1 & E1 & Hr1). exists r1.
  destruct (read_ofs_text d r1 tail fuel) as (r2 & E2 & Hr2); [lia|lia|done|].
  exists r2. split; [by rewrite E1|].
  unfold read_delta_base_offset.
  assert (Hbind : forall off, (b <~ read_byte; distance <~ distance_loop fuel (u8 b) (N.land (u8 b) 127);
      rlift (ok_or (checked_subN off distance) InvalidData
           "ofs-delta base offset points before pack start")) r1
    = (ok_or (checked_subN off d) InvalidData "ofs-delta base offset points before pack start", r2)).
  { intros off. unfold rbind in E2 |- *. destruct (read_byte r1) as [[c|?| |] r']; try discriminate E2.
    rewrite E2. done. }
  split.
  { rewrite Hbind. unfold checked_subN. rewrite (proj2 (N.leb_le d _)) by lia. cbn [ok_or].
    do 2 f_equal. lia. }
  split; [done|]. intros small Hsm. exists r2. rewrite Hbind. unfold checked_subN.
  rewrite (proj2 (N.leb_gt d small)) by lia. done.
Qed.

(** The distance of an offset delta never overruns its arrays, and the reader recovers the
    base offset from it; the reader also refuses a distance that points before the pack. *)
Theorem ofs_delta_header_roundtrip object_offset base_offset size :
  (base_offset <= object_offset)%N -> (object_offset < 2 ^ 64)%N -> (size < 2 ^ 60)%N ->
  exists h, ofs_delta_header_bytes object_offset base_offset size = Ok h /\ length h <= 20 /\
    forall r tail fuel, rest r = h ++ tail -> 10 <= fuel ->
      exists r1 r2, read_pack_object_header r = (Ok (OfsDelta size), r1) /\
        read_delta_base_offset fuel object_offset r1 = (Ok base_offset, r2) /\ rest r2 = tail /\
        forall small, (small < object_offset - base_offset)%N ->
          exists r', read_delta_base_offset fuel small r1
                     = (fail InvalidData "ofs-delta base offset points before pack start", r').
Proof. apply ofs_header_roundtrip. Qed.
End read_spec.

(** What a single read keeps, the header readers keep. *)
Section kept_headers.
Context `{Reader R} (P : R -> Prop) (HP : forall r n, P r -> P (reader_read r n).2).

Lemma kept_read_pack_object_header : kept P read_pack_object_header.
Proof.
  apply kept_bind; [by apply kept_read_byte|]. intros b. cbv zeta.
  apply kept_bind; [|intros size; apply kept_lift].
  generalize (u8 b), (N.land (u8 b) 15), 4%N. generalize 9. intros fuel.
  induction fuel as [|fuel IH]; intros byte size shift; cbn [header_size_loop];
    (destruct (N.land byte 128 =? 0)%N; [apply kept_ret|]); [apply kept_lift|].
  apply kept_bind; [by apply kept_read_byte|]. intros c. cbv zeta.
  destruct (63 <? shift + 7)%N; [apply kept_lift|apply IH].
Qed.

Lemma kept_read_delta_base_offset fuel offset : kept P (read_delta_base_offset fuel offset).
Proof.
  apply kept_bind; [by apply kept_read_byte|]. intros b.
  apply kept_bind; [|intros distance; apply kept_lift].
  generalize (u8 b), (N.land (u8 b) 127).
  induction fuel as [|fuel IH]; intros byte distance; cbn [distance_loop];
    (destruct (N.land byte 128 =? 0)%N; [apply kept_ret|]); [apply kept_lift|].
  apply kept_bind; [by apply kept_read_byte|]. intros c.
  apply kept_bind; [apply kept_lift|]. intros next. apply IH.
Qed.
End kept_headers.

(** ** Overlong distances *)

(** The text of a distance with the last byte flagged, so that one more byte follows. *)
Definition flag_last (bs : bytes) : bytes :=
  match rev bs with
  | b :: bs => rev (byte_of_N (N.lor (u8 b) 128) :: bs)
  | [] => []
  end.

(** Nothing bounds the distance: after a text for 2^64 - 1 the addition overflows (a panic
    where overflow is checked), and after a text for 2^57 - 1 the shift drops the set bit, so that
    the text of a distance above 2^64 is accepted as a distance of five bytes. *)
Theorem read_delta_base_offset_unbounded :
  (read_delta_base_offset 20 1000 (flag_last (ofs_text (2 ^ 64 - 1)) ++ [Byte.x00] : short_reader)).1
  = Panic /\
  (read_delta_base_offset 20 1000 (flag_last (ofs_text (2 ^ 57 - 1)) ++ [Byte.x05] : short_reader)).1
  = Ok 995%N.
Proof. split; vm_compute; reflexivity. Qed.

(** ** Witnesses *)

#[local] Existing Instances sample_sha sample_sha_laws.

Lemma pack_object_header_roundtrip_witness :
  exists h r', pack_object_header_bytes Blob 70000 = Ok h /\
    read_pack_object_header (h ++ bstr "rest" : short_reader) = (Ok (Base Blob 70000), r') /\
    r' = bstr "rest".
Proof.
  destruct (pack_object_header_roundtrip (rest := fun r : short_reader => r) short_reader_total Blob
    70000) as (h & E & _ & Hr); [vm_compute; reflexivity|].
  destruct (Hr (h ++ bstr "rest") (bstr "rest") eq_refl) as [H1 _].
  destruct H1 as (r' & Er & Hr'); [vm_compute; reflexivity|].
  exists h, r'. split; [exact E|]. split; [exact Er|exact Hr'].
Defined.

Lemma ofs_delta_header_roundtrip_witness :
  exists h r1, ofs_delta_header_bytes 100000 300 17 = Ok h /\
    read_pack_object_header (h ++ bstr "rest" : short_reader) = (Ok (OfsDelta 17), r1) /\
    (read_delta_base_offset 10 100000 r1).1 = Ok 300%N.
Proof.
  destruct (ofs_delta_header_roundtrip (rest := fun r : short_reader => r) short_reader_total 100000
    300 17) as (h & E & _ & Hr); [lia|vm_compute; reflexivity|vm_compute; reflexivity|].
  destruct (Hr (h ++ bstr "rest") (bstr "rest") 10 eq_refl (le_n 10)) as (r1 & r2 & E1 & E2 & _).
  exists h, r1. split; [exact E|]. split; [exact E1|]. rewrite E2. reflexivity.
Defined.
