(* ===== verification/Zlib.v ===== *)
(** * Compressed content (zmin-git-core/src/pack.rs): the interface of the zlib codec, cursors, and
      the bounded readers of inflated content *)
From S2P Require Import Prelude Object Reader.

(** ** The codec, which is not part of the crate *)

(** [flate2::read::ZlibDecoder]: a reader over a source, and the bytes it took from the source. *)
Class ZlibDecoder (Src D : Type) : Type := {
  zlib_new : Src -> D;
  zlib_reader :: Reader D;
  total_in : D -> N
}.

(** [flate2::write::ZlibEncoder] into a vector, written and finished. *)
Class ZlibEncoder : Type := zlib_compress : bytes -> bytes.

(** Documented of the decoder of a slice: it is a reader; it decodes one compressed stream, whatever
    follows it, without an error, and once it has reported the end it has consumed exactly that
    stream; what it has consumed grows from nothing.  [inflated_rest] is what a decoder has still to deliver, [zlib_source] the slice it was
    created with.  Compression expands by less than a bound (that of [compressBound] is far below
    this one). *)
Class ZlibLaws (D : Type) `{ZlibDecoder bytes D, ZlibEncoder} (zlib_source inflated_rest : D -> bytes)
  : Prop := {
  zlib_reader_laws :: ReaderLaws D inflated_rest;
  zlib_source_new : forall s, zlib_source (zlib_new s) = s;
  zlib_source_read : forall d n, zlib_source (reader_read d n).2 = zlib_source d;
  zlib_inflates : forall c t, inflated_rest (zlib_new (zlib_compress c ++ t)) = c;
  zlib_total : forall c t, total_from (zlib_new (zlib_compress c ++ t));
  zlib_consumed : forall c t d n d', zlib_source d = zlib_compress c ++ t -> 0 < n ->
    reader_read d n = (Ok [], d') -> total_in d' = N.of_nat (length (zlib_compress c));
  zlib_total_in : forall d, (total_in d <= N.of_nat (length (zlib_source d)))%N;
  zlib_total_in_new : forall s, total_in (zlib_new s) = 0%N;
  zlib_total_in_grows : forall d n, (total_in d <= total_in (reader_read d n).2)%N;
  zlib_bound : forall c, length (zlib_compress c) <= 2 * length c + 64
}.

(** ** Cursors *)

(** [Cursor<&[u8]>]. *)
Record Cursor : Set := MkCursor { cursor_bytes : bytes; cursor_position : N }.

(** What is left after the position. *)
Definition cursor_rest (c : Cursor) : bytes := drop (N.to_nat (cursor_position c)) (cursor_bytes c).

#[export] Instance cursor_reader : Reader Cursor := fun c n =>
  (Ok (take n (cursor_rest c)),
   MkCursor (cursor_bytes c) (cursor_position c + N.of_nat (Nat.min n (length (cursor_rest c))))%N).

(** A cursor over [data] at a position within it: reading keeps it there, and the position follows
    from what is left. *)
Definition on_cursor (data : bytes) (c : Cursor) : Prop :=
  cursor_bytes c = data /\ (cursor_position c <= N.of_nat (length data))%N.

Lemma on_cursor_read data c n : on_cursor data c -> on_cursor data (reader_read c n).2.
Proof.
  intros [Hb Hp]. unfold reader_read, cursor_reader, cursor_rest. split; cbn; [done|].
  rewrite length_drop, Hb. lia.
Qed.

Lemma on_cursor_eq pre t c :
  on_cursor (pre ++ t) c -> cursor_rest c = t -> c = MkCursor (pre ++ t) (N.of_nat (length pre)).
Proof.
  destruct c as [b p]. unfold cursor_rest. intros [Hb Hp] E. cbn [cursor_bytes cursor_position] in *. subst b. f_equal.
  apply (f_equal length) in E. rewrite length_drop, length_app in E. rewrite length_app in Hp. lia.
Qed.

Lemma cursor_rest_at pre t : cursor_rest (MkCursor (pre ++ t) (N.of_nat (length pre))) = t.
Proof. unfold cursor_rest. cbn. by rewrite Nat2N.id, drop_app_length. Qed.

Lemma on_cursor_at pre t : on_cursor (pre ++ t) (MkCursor (pre ++ t) (N.of_nat (length pre))).
Proof. split; [done|]. cbn. rewrite length_app. lia. Qed.

#[export] Instance cursor_laws : ReaderLaws Cursor cursor_rest.
Proof.
  split; [|done]. intros [b p] n bs c' E.
  change (reader_read (MkCursor b p) n) with
    (Ok (take n (cursor_rest (MkCursor b p))),
     MkCursor b (p + N.of_nat (Nat.min n (length (cursor_rest (MkCursor b p)))))%N) in E.
  assert (bs = take n (cursor_rest (MkCursor b p))) as -> by congruence.
  assert (c' = MkCursor b (p + N.of_nat (Nat.min n (length (cursor_rest (MkCursor b p)))))%N) as -> by congruence.
  set (l := cursor_rest (MkCursor b p)). unfold cursor_rest at 1. cbn [cursor_bytes cursor_position].
  assert (El : drop (N.to_nat (p + N.of_nat (Nat.min n (length l)))) b = drop n l).
  { unfold l, cursor_rest. cbn [cursor_bytes cursor_position].
    rewrite N2Nat.inj_add, Nat2N.id, <- drop_drop.
    set (k := drop (N.to_nat p) b). destruct (Nat.le_ge_cases n (length k)).
    - by rewrite Nat.min_l.
    - rewrite Nat.min_r by done. by rewrite !drop_ge. }
  rewrite El, take_drop, length_take. split; [done|]. split; [lia|].
  intros Hz%(f_equal length). rewrite length_take in Hz. cbn [length] in Hz.
  destruct l; [by right|]. left. cbn [length] in Hz. lia.
Qed.

Lemma cursor_total : total_reader Cursor.
Proof. done. Qed.

(** [&cursor.get_ref()[start..]]. *)
Definition cursor_remaining (c : Cursor) : outcome bytes :=
  slice (cursor_bytes c) (N.to_nat (cursor_position c)) (length (cursor_bytes c)).

Definition set_position (c : Cursor) (position : N) : Cursor := MkCursor (cursor_bytes c) position.

(** Runs a decoder of the rest of the cursor, which moves the cursor when it succeeds. *)
Definition decode_cursor {D} `{ZlibDecoder bytes D} {A} (m : rd D A) : rd Cursor A := fun c =>
  match cursor_remaining c with
  | Ok remaining =>
      match m (zlib_new remaining) with
      | (Ok a, d) => (Ok a, set_position c (cursor_position c + total_in d)%N)
      | (Err e, _) => (Err e, c)
      | (Panic, _) => (Panic, c)
      | (NoFuel, _) => (NoFuel, c)
      end
  | Err e => (Err e, c)
  | Panic => (Panic, c)
  | NoFuel => (NoFuel, c)
  end.

(** ** Sizes and limits *)

Definition ZLIB_CONTENT_INITIAL_CAPACITY_LIMIT : N := 64 * 1024.
Definition PACK_ZLIB_STREAM_BUFFER_CAPACITY : N := 64 * 1024.

(** [usize::try_from] never fails on a 64-bit target. *)
Definition zlib_content_capacity (max_object_bytes expected_size : N) : outcome N :=
  _ ← check (max_object_bytes <? expected_size)%N InvalidData
        "packed git object exceeds configured size limit";
  Ok (N.min expected_size ZLIB_CONTENT_INITIAL_CAPACITY_LIMIT).

Definition zlib_content_read_limit (max_object_bytes expected_size : N) : outcome N :=
  _ ← zlib_content_capacity max_object_bytes expected_size;
  ok_or (checked_addN expected_size 1) InvalidData "packed git object size overflows u64".

Definition validate_packed_inflated_size (expected actual : N) : outcome unit :=
  check (negb (expected =? actual)%N) InvalidData "packed object inflated size mismatch".

(** ** Reading all content, one byte beyond the expected size at most *)

Section content.
Context {R : Type} `{Reader R}.

(** The loop of [read_zlib_decoder_content_with_limit]: every turn but the last reads a byte. *)
Fixpoint read_zlib_loop (fuel : nat) (max_object_bytes remaining : N) (content : bytes)
  : rd R bytes := fun decoder =>
  if (remaining =? 0)%N then (Ok content, decoder) else
  match fuel with
  | 0 => (NoFuel, decoder)
  | S fuel =>
      let read_len := N.min remaining PACK_ZLIB_STREAM_BUFFER_CAPACITY in
      match reader_read decoder (N.to_nat read_len) with
      | (Ok [], decoder) => (Ok content, decoder)
      | (Ok read, decoder) =>
          let content := content ++ read in
          if (max_object_bytes <? N.of_nat (length content))%N
          then (fail InvalidData "packed git object exceeds configured size limit", decoder)
          else read_zlib_loop fuel max_object_bytes (remaining - N.of_nat (length read))%N content decoder
      | (Err e, decoder) => (Err e, decoder)
      | (Panic, decoder) => (Panic, decoder)
      | (NoFuel, decoder) => (NoFuel, decoder)
      end
  end.

Definition read_zlib_decoder_content_with_limit (max_object_bytes expected_size remaining : N)
  : rd R bytes :=
  _ <~ rlift (zlib_content_capacity max_object_bytes expected_size);
  read_zlib_loop (N.to_nat remaining) max_object_bytes remaining [].

Definition read_zlib_decoder_content (max_object_bytes expected_size : N) : rd R bytes :=
  read_limit <~ rlift (zlib_content_read_limit max_object_bytes expected_size);
  read_zlib_decoder_content_with_limit max_object_bytes expected_size read_limit.
End content.

Definition read_zlib_content {Src D} `{ZlibDecoder Src D} (src : Src)
  (max_object_bytes expected_size : N) : outcome bytes :=
  (read_zlib_decoder_content max_object_bytes expected_size (zlib_new src)).1.

Definition read_zlib_content_prefix {Src D} `{ZlibDecoder Src D} (src : Src)
  (max_object_bytes expected_size max_bytes : N) : outcome bytes :=
  _ ← zlib_content_capacity max_object_bytes expected_size;
  let prefix_len := N.min expected_size max_bytes in
  (read_exact (N.to_nat prefix_len) (zlib_new src)).1.

Definition read_zlib_content_from_cursor {D} `{ZlibDecoder bytes D}
  (max_object_bytes expected_size : N) : rd Cursor bytes :=
  read_limit <~ rlift (zlib_content_read_limit max_object_bytes expected_size);
  decode_cursor (D := D)
    (read_zlib_decoder_content_with_limit max_object_bytes expected_size read_limit).

(** ** Content that is hashed or skipped, not kept *)

(** [expected_size + 1 - inflated], the room for the next read. *)
Definition zlib_expected_remaining_read_limit (inflated : nat) (expected_size : N) : outcome N :=
  ok_or (limit ← checked_addN expected_size 1; checked_subN limit (N.of_nat inflated)) InvalidData
    "packed object size overflows u64".

Section stream.
Context {D : Type} `{ZlibDecoder bytes D}.

(** The checks after a read, shared by the two loops. *)
Definition checked_object_size (object_size read : nat) (expected_size max_object_bytes : N)
  : outcome nat :=
  object_size ← ok_or (checked_add object_size read) InvalidData "packed object size overflow";
  _ ← check (expected_size <? N.of_nat object_size)%N InvalidData
        "packed object inflated size mismatch";
  _ ← check (max_object_bytes <? N.of_nat object_size)%N InvalidData
        "packed git object exceeds configured size limit";
  Ok object_size.

(** The loop of [read_zlib_content_hashing_with_crc]; the checksum, where there is one, is given by
    the compressed bytes it has absorbed. *)
Fixpoint hash_content_loop (fuel : nat) (remaining : bytes) (max_object_bytes expected_size : N)
  (h : GitObjectHash) (crc32 : option bytes) (object_size : nat)
  : rd D (GitObjectHash * option bytes * nat) := fun decoder =>
  match fuel with
  | 0 => (NoFuel, decoder)
  | S fuel =>
      (read_limit <~ rlift (zlib_expected_remaining_read_limit object_size expected_size);
       let read_len := N.min read_limit PACK_ZLIB_STREAM_BUFFER_CAPACITY in
       let compressed_before := total_in decoder in
       read <~ (fun decoder => reader_read decoder (N.to_nat read_len));
       compressed_after <~ (fun decoder => (Ok (total_in decoder), decoder));
       compressed <~ rlift
         (if (compressed_before <? compressed_after)%N
          then ok_or (get_range remaining (N.to_nat compressed_before) (N.to_nat compressed_after))
                 InvalidData "packed object compressed byte range is invalid"
          else Ok []);
       let crc32 := (fun absorbed => absorbed ++ compressed) <$> crc32 in
       match read with
       | [] => rret (h, crc32, object_size)
       | _ =>
           object_size <~ rlift (checked_object_size object_size (length read) expected_size
                                   max_object_bytes);
           hash_content_loop fuel remaining max_object_bytes expected_size (hash_update h read) crc32
             object_size
       end) decoder
  end.

Definition read_zlib_content_hashing_with_crc (h : GitObjectHash)
  (max_object_bytes expected_size : N) (crc32 : option bytes)
  : rd Cursor (GitObjectHash * option bytes * nat) := fun c =>
  (_ <~ rlift (zlib_content_read_limit max_object_bytes expected_size);
   remaining <~ rlift (cursor_remaining c);
   decode_cursor (D := D)
     (hash_content_loop (S (N.to_nat expected_size)) remaining max_object_bytes expected_size h crc32
        0)) c.

Definition read_zlib_content_hashing (h : GitObjectHash) (max_object_bytes expected_size : N)
  : rd Cursor (GitObjectHash * nat) :=
  '(h, _, object_size) <~ read_zlib_content_hashing_with_crc h max_object_bytes expected_size None;
  rret (h, object_size).

(** The loop of [skip_zlib_content_from_cursor]. *)
Fixpoint skip_content_loop (fuel : nat) (max_object_bytes expected_size : N) (inflated : nat)
  : rd D nat := fun decoder =>
  match fuel with
  | 0 => (NoFuel, decoder)
  | S fuel =>
      (read_limit <~ rlift (zlib_expected_remaining_read_limit inflated expected_size);
       let read_len := N.min read_limit PACK_ZLIB_STREAM_BUFFER_CAPACITY in
       read <~ (fun decoder => reader_read decoder (N.to_nat read_len));
       match read with
       | [] => rret inflated
       | _ =>
           inflated <~ rlift (checked_object_size inflated (length read) expected_size
                                max_object_bytes);
           skip_content_loop fuel max_object_bytes expected_size inflated
       end) decoder
  end.

Definition skip_zlib_content_from_cursor (max_object_bytes expected_size : N) : rd Cursor nat :=
  _ <~ rlift (zlib_content_read_limit max_object_bytes expected_size);
  inflated <~ decode_cursor (D := D)
    (skip_content_loop (S (N.to_nat expected_size)) max_object_bytes expected_size 0);
  _ <~ rlift (validate_packed_inflated_size expected_size (N.of_nat inflated));
  rret inflated.
End stream.

(** ** Reading a whole stream *)

Section whole.
Context {D : Type} `{ZlibLaws D zlib_source inflated_rest} (c t : bytes).

(** A decoder of the stream of [c] that still has [left] to deliver. *)
Definition inflating (d : D) (left : bytes) : Prop :=
  zlib_source d = zlib_compress c ++ t /\ total_from d /\ inflated_rest d = left.

Lemma inflating_new : inflating (zlib_new (zlib_compress c ++ t)) c.
Proof. split; [apply zlib_source_new|]. split; [apply zlib_total|apply zlib_inflates]. Qed.

(** One read: some of what is left, or the end. *)
Lemma inflating_read d left n :
  inflating d left -> 0 < n ->
  (left = [] /\ exists d', reader_read d n = (Ok [], d') /\
     total_in d' = N.of_nat (length (zlib_compress c))) \/
  (exists b bs left' d', left = (b :: bs) ++ left' /\ reader_read d n = (Ok (b :: bs), d') /\
     inflating d' left').
Proof.
  intros (Hs & Ht & Hr) Hn. destruct (total_from_read d n Ht) as [Hok Ht'].
  pose proof (zlib_source_read d n) as Hs'.
  destruct (reader_read d n) as [[bs|e| |] d'] eqn:E; try done. cbn [fst snd] in *.
  pose proof (read_takes _ _ _ _ E) as (Er & _ & Hz). rewrite Hr in *.
  destruct bs as [|b bs].
  - left. destruct Hz as [?|Hz]; [done|lia|]. split; [done|]. exists d'. split; [done|].
    by apply (zlib_consumed c t d n).
  - right. exists b, bs, (inflated_rest d'), d'. split; [done|]. split; [done|].
    split; [congruence|done].
Qed.

Lemma read_zlib_loop_whole fuel d left max remaining content :
  inflating d left -> remaining = (N.of_nat (length left) + 1)%N -> length left < fuel ->
  (N.of_nat (length content + length left) <= max)%N ->
  exists d', read_zlib_loop fuel max remaining content d = (Ok (content ++ left), d') /\
             total_in d' = N.of_nat (length (zlib_compress c)).
Proof.
  revert d left remaining content. induction fuel as [|fuel IH]; intros d left remaining content Hd Hrem Hf Hm; [lia|].
  cbn [read_zlib_loop]. rewrite (proj2 (N.eqb_neq remaining 0)) by lia.
  set (n := N.to_nat (N.min remaining PACK_ZLIB_STREAM_BUFFER_CAPACITY)).
  assert (Hn : 0 < n) by (unfold n, PACK_ZLIB_STREAM_BUFFER_CAPACITY; lia).
  destruct (inflating_read d left n Hd Hn)
    as [(-> & d' & -> & Htot)|(b & bs & left' & d' & -> & -> & Hd')].
  - exists d'. by rewrite app_nil_r.
  - rewrite length_app in Hm, Hf, Hrem. rewrite (proj2 (N.ltb_ge max _)) by (rewrite length_app; lia).
    destruct (IH d' left' (remaining - N.of_nat (length (b :: bs)))%N (content ++ b :: bs) Hd')
      as (d2 & E & Htot); [lia|cbn [length] in *; lia|rewrite length_app; lia|].
    exists d2. rewrite E. split; [by rewrite <- app_assoc|done].
Qed.

Lemma checked_object_size_Ok size read expected max :
  (N.of_nat (size + read) <= expected)%N -> (expected <= max)%N -> (max < usize_limit)%N ->
  checked_object_size size read expected max = Ok (size + read).
Proof.
  intros Hs1 Hs2 Hs3. unfold checked_object_size. rewrite checked_add_fits by lia. cbn [ok_or].
  rewrite bind_Ok, (proj2 (N.ltb_ge expected _)), (proj2 (N.ltb_ge max _)) by lia. done.
Qed.

Lemma remaining_limit_Ok inflated expected :
  (N.of_nat inflated <= expected)%N -> (expected + 1 < usize_limit)%N ->
  zlib_expected_remaining_read_limit inflated expected = Ok (expected + 1 - N.of_nat inflated)%N.
Proof.
  intros Hi He. unfold zlib_expected_remaining_read_limit, checked_addN, checked_subN.
  rewrite (proj2 (N.ltb_lt _ _) He). cbn [mbind option_bind].
  by rewrite (proj2 (N.leb_le _ _)) by lia.
Qed.

Lemma skip_content_loop_whole fuel d left max expected inflated :
  inflating d left -> N.of_nat (inflated + length left) = expected -> length left < fuel ->
  (expected <= max)%N -> (max + 1 < usize_limit)%N ->
  exists d', skip_content_loop fuel max expected inflated d = (Ok (inflated + length left), d') /\
             total_in d' = N.of_nat (length (zlib_compress c)).
Proof.
  revert d left inflated. induction fuel as [|fuel IH]; intros d left inflated Hd He Hf Hm Hu; [lia|].
  cbn [skip_content_loop]. unfold rbind at 1, rlift at 1. rewrite remaining_limit_Ok by lia.
  set (n := N.to_nat (N.min _ PACK_ZLIB_STREAM_BUFFER_CAPACITY)).
  assert (Hn : 0 < n) by (unfold n, PACK_ZLIB_STREAM_BUFFER_CAPACITY; lia). cbv zeta. fold n. unfold rbind at 1.
  destruct (inflating_read d left n Hd Hn)
    as [(-> & d' & -> & Htot)|(b & bs & left' & d' & -> & -> & Hd')].
  - exists d'. rewrite Nat.add_0_r. done.
  - rewrite length_app in *. unfold rbind, rlift. rewrite checked_object_size_Ok by lia.
    destruct (IH d' left' (inflated + length (b :: bs)) Hd') as (d2 & E & Htot);
      [lia|cbn [length] in *; lia|done|done|].
    exists d2. rewrite E. split; [|done]. do 2 f_equal. lia.
Qed.

(** The bytes taken since the decoder had taken [n]. *)
Lemma taken_since (d d' : D) a :
  zlib_source d' = zlib_compress c ++ t -> (total_in d <= total_in d')%N ->
  (total_in d' <= N.of_nat (length (zlib_compress c)))%N ->
  exists compressed,
    (if (total_in d <? total_in d')%N
     then ok_or (get_range (zlib_compress c ++ t) (N.to_nat (total_in d)) (N.to_nat (total_in d')))
            InvalidData "packed object compressed byte range is invalid"
     else Ok []) = Ok compressed /\
    (a ++ compressed) ++ drop (N.to_nat (total_in d')) (zlib_compress c)
    = a ++ drop (N.to_nat (total_in d)) (zlib_compress c).
Proof.
  intros Hs Hm Hle. destruct (N.ltb_spec (total_in d) (total_in d')) as [Hlt|Hge].
  - unfold get_range. rewrite length_app, bool_decide_true by lia. eexists. split; [done|].
    rewrite <- app_assoc. f_equal. rewrite drop_app_le, take_app_le by (rewrite ?length_drop; lia).
    rewrite <- (take_drop (N.to_nat (total_in d') - N.to_nat (total_in d)) (drop (N.to_nat (total_in d)) _)) at 2.
    f_equal. rewrite drop_drop. f_equal. lia.
  - exists []. split; [done|]. rewrite app_nil_r. replace (total_in d') with (total_in d) by lia. done.
Qed.

(** The content is hashed, and exactly the stream is absorbed by the checksum. *)
Lemma hash_content_loop_whole fuel d left max expected h crc size :
  inflating d left -> N.of_nat (size + length left) = expected -> length left < fuel ->
  (expected <= max)%N -> (max + 1 < usize_limit)%N ->
  (total_in d <= N.of_nat (length (zlib_compress c)))%N /\
  exists d', hash_content_loop fuel (zlib_compress c ++ t) max expected h crc size d
             = (Ok (hash_update h left,
                    (fun absorbed => absorbed ++ drop (N.to_nat (total_in d)) (zlib_compress c)) <$> crc,
                    size + length left), d') /\
             total_in d' = N.of_nat (length (zlib_compress c)).
Proof.
  revert d left h crc size. induction fuel as [|fuel IH]; intros d left h crc size Hd He Hf Hm Hu; [lia|].
  cbn [hash_content_loop]. unfold rbind at 1, rlift at 1. rewrite remaining_limit_Ok by lia.
  set (n := N.to_nat (N.min _ PACK_ZLIB_STREAM_BUFFER_CAPACITY)).
  assert (Hn : 0 < n) by (unfold n, PACK_ZLIB_STREAM_BUFFER_CAPACITY; lia). cbv zeta. fold n.
  unfold rbind at 1. pose proof (zlib_total_in_grows d n) as Hgrow.
  assert (Hs : zlib_source (reader_read d n).2 = zlib_compress c ++ t)
    by (rewrite zlib_source_read; apply Hd).
  destruct (inflating_read d left n Hd Hn)
    as [(-> & d' & E & Htot)|(b & bs & left' & d' & -> & E & Hd')]; rewrite E in Hgrow, Hs |- *;
    cbn [snd] in Hgrow, Hs; unfold rbind at 1.
  - rewrite Htot in Hgrow. split; [done|].
    destruct (taken_since d d' (default [] crc) Hs) as (compressed & Ec & Hc); [lia|lia|].
    unfold rbind, rlift. rewrite Ec. exists d'. rewrite Nat.add_0_r. split; [|done]. unfold rret, hash_update.
    rewrite app_nil_r. destruct h. do 4 f_equal. destruct crc as [a|]; [|done]. cbn in Hc |- *. f_equal.
    rewrite <- Hc, Htot, Nat2N.id, drop_all, app_nil_r. done.
  - rewrite length_app in *.
    assert (Hnext : forall crc, _) by (intros crc'; exact (IH d' left' (hash_update h (b :: bs)) crc'
      (size + length (b :: bs)) Hd' ltac:(lia) ltac:(cbn [length] in *; lia) Hm Hu)).
    destruct (Hnext None) as [Hle _]. split; [lia|].
    destruct (taken_since d d' (default [] crc) Hs Hgrow Hle) as (compressed & Ec & Hc).
    unfold rbind at 1, rlift at 1. rewrite Ec. unfold rbind, rlift. rewrite checked_object_size_Ok by lia.
    destruct (Hnext ((fun absorbed => absorbed ++ compressed) <$> crc)) as (_ & d2 & E2 & Htot).
    exists d2. rewrite E2. split; [|done]. do 3 f_equal; [f_equal|lia].
    + unfold hash_update. cbn. by rewrite <- app_assoc.
    + destruct crc as [a|]; [|done]. cbn in Hc |- *. by rewrite Hc.
Qed.
End whole.

Section cursors.
Context {D : Type} `{ZlibLaws D zlib_source inflated_rest}.

(** A decoder run on the stream at a cursor. *)
Lemma decode_cursor_whole {A} (m : rd D A) pre c t a :
  (exists d', m (zlib_new (zlib_compress c ++ t)) = (Ok a, d') /\
              total_in d' = N.of_nat (length (zlib_compress c))) ->
  decode_cursor m (MkCursor (pre ++ zlib_compress c ++ t) (N.of_nat (length pre)))
  = (Ok a, MkCursor (pre ++ zlib_compress c ++ t) (N.of_nat (length (pre ++ zlib_compress c)))).
Proof.
  intros (d' & E & Htot). unfold decode_cursor, cursor_remaining. cbn [cursor_bytes cursor_position].
  rewrite Nat2N.id, slice_from, drop_app_length by (rewrite length_app; lia). rewrite E.
  unfold set_position. cbn [cursor_bytes]. rewrite Htot, length_app. do 2 f_equal. lia.
Qed.

Lemma read_limit_Ok max expected :
  (expected <= max)%N -> (max + 1 < usize_limit)%N ->
  zlib_content_read_limit max expected = Ok (expected + 1)%N.
Proof.
  intros Hm Hu. unfold zlib_content_read_limit, zlib_content_capacity, checked_addN.
  rewrite (proj2 (N.ltb_ge max expected)), (proj2 (N.ltb_lt (expected + 1) _)) by lia. done.
Qed.

Lemma read_zlib_content_from_cursor_whole pre c t max :
  (N.of_nat (length c) <= max)%N -> (max + 1 < usize_limit)%N ->
  read_zlib_content_from_cursor (D := D) max (N.of_nat (length c))
    (MkCursor (pre ++ zlib_compress c ++ t) (N.of_nat (length pre)))
  = (Ok c, MkCursor (pre ++ zlib_compress c ++ t) (N.of_nat (length (pre ++ zlib_compress c)))).
Proof.
  intros Hm Hu. unfold read_zlib_content_from_cursor. rewrite read_limit_Ok by done.
  change (rbind (rlift (Ok ?a)) ?f ?x) with (f a x). cbv beta. apply decode_cursor_whole.
  unfold read_zlib_decoder_content_with_limit, zlib_content_capacity.
  rewrite (proj2 (N.ltb_ge max _)) by done. cbn [check]. rewrite bind_Ok.
  change (rbind (rlift (Ok ?a)) ?f ?x) with (f a x). cbv beta.
  apply (read_zlib_loop_whole (D := D) c t _ _ c max _ []);
    [apply inflating_new|lia|lia|cbn [length]; lia].
Qed.

Lemma skip_zlib_content_from_cursor_whole pre c t max :
  (N.of_nat (length c) <= max)%N -> (max + 1 < usize_limit)%N ->
  skip_zlib_content_from_cursor (D := D) max (N.of_nat (length c))
    (MkCursor (pre ++ zlib_compress c ++ t) (N.of_nat (length pre)))
  = (Ok (length c), MkCursor (pre ++ zlib_compress c ++ t) (N.of_nat (length (pre ++ zlib_compress c)))).
Proof.
  intros Hm Hu. unfold skip_zlib_content_from_cursor. rewrite read_limit_Ok by done.
  change (rbind (rlift (Ok ?a)) ?f ?x) with (f a x). cbv beta. unfold rbind at 1.
  rewrite (decode_cursor_whole _ pre c t (length c)).
  2:{ destruct (skip_content_loop_whole c t (S (N.to_nat (N.of_nat (length c))))
        (zlib_new (zlib_compress c ++ t)) c max (N.of_nat (length c)) 0) as (d' & E & Ht);
      [apply inflating_new|lia|lia|done|done|]. by exists d'. }
  unfold validate_packed_inflated_size. by rewrite N.eqb_refl.
Qed.

Lemma read_zlib_content_hashing_with_crc_whole pre c t max h crc :
  (N.of_nat (length c) <= max)%N -> (max + 1 < usize_limit)%N ->
  read_zlib_content_hashing_with_crc (D := D) h max (N.of_nat (length c)) crc
    (MkCursor (pre ++ zlib_compress c ++ t) (N.of_nat (length pre)))
  = (Ok (hash_update h c, (fun absorbed => absorbed ++ zlib_compress c) <$> crc, length c),
     MkCursor (pre ++ zlib_compress c ++ t) (N.of_nat (length (pre ++ zlib_compress c)))).
Proof.
  intros Hm Hu. unfold read_zlib_content_hashing_with_crc.
  unfold rbind at 1. rewrite read_limit_Ok by done. unfold rlift at 1, rbind at 1, rlift at 1.
  assert (Er : cursor_remaining (MkCursor (pre ++ zlib_compress c ++ t) (N.of_nat (length pre)))
    = Ok (zlib_compress c ++ t)).
  { unfold cursor_remaining. cbn [cursor_bytes cursor_position].
    rewrite Nat2N.id, slice_from, drop_app_length by (rewrite length_app; lia). done. }
  rewrite Er. apply decode_cursor_whole.
  destruct (hash_content_loop_whole c t (S (N.to_nat (N.of_nat (length c))))
    (zlib_new (zlib_compress c ++ t)) c max (N.of_nat (length c)) h crc 0) as (_ & d' & E & Ht);
    [apply inflating_new|lia|lia|done|done|]. exists d'. by rewrite zlib_total_in_new in E.
Qed.

Lemma read_zlib_content_hashing_whole pre c t max h :
  (N.of_nat (length c) <= max)%N -> (max + 1 < usize_limit)%N ->
  read_zlib_content_hashing (D := D) h max (N.of_nat (length c))
    (MkCursor (pre ++ zlib_compress c ++ t) (N.of_nat (length pre)))
  = (Ok (hash_update h c, length c),
     MkCursor (pre ++ zlib_compress c ++ t) (N.of_nat (length (pre ++ zlib_compress c)))).
Proof.
  intros Hm Hu. unfold read_zlib_content_hashing.
  by rewrite (rbind_Ok _ _ _ _ _ (read_zlib_content_hashing_with_crc_whole pre c t max h None Hm Hu)).
Qed.
End cursors.

(** ** A concrete codec, for evaluation: every byte behind a mark, and an end mark *)

Definition marked_compress (c : bytes) : bytes :=
  concat (map (fun b => [Byte.x01; b]) c) ++ [Byte.x00].

#[local] Instance marked_encoder : ZlibEncoder := marked_compress.

(** The content of a stream and the length of the stream. *)
Fixpoint marked_parse (s : bytes) : option (bytes * N) :=
  match s with
  | Byte.x00 :: _ => Some ([], 1%N)
  | Byte.x01 :: b :: s =>
      match marked_parse s with
      | Some (c, n) => Some (b :: c, (n + 2)%N)
      | None => None
      end
  | _ => None
  end.

Record MarkedDecoder : Set := MkMarked {
  md_source : bytes;
  md_left : option bytes;
  md_begun : bool
}.

(** At most three bytes per call. *)
#[export] Instance marked_decoder : ZlibDecoder bytes MarkedDecoder := {
  zlib_new s := MkMarked s (fst <$> marked_parse s) false;
  zlib_reader d n :=
    match md_left d with
    | Some c => (Ok (take (Nat.min 3 n) c), MkMarked (md_source d) (Some (drop (Nat.min 3 n) c)) true)
    | None => (fail InvalidInput "corrupt deflate stream", d)
    end;
  total_in d := if md_begun d then default 0%N (snd <$> marked_parse (md_source d)) else 0%N
}.

Definition marked_rest (d : MarkedDecoder) : bytes := default [] (md_left d).

Lemma marked_parse_compress c t :
  marked_parse (marked_compress c ++ t) = Some (c, N.of_nat (length (marked_compress c))).
Proof.
  unfold marked_compress. induction c as [|b c IH]; [done|].
  cbn [map concat app marked_parse]. rewrite IH. cbn [length]. do 2 f_equal. lia.
Qed.

Lemma marked_parse_le n s c k :
  length s <= n -> marked_parse s = Some (c, k) -> (k <= N.of_nat (length s))%N.
Proof.
  revert s c k. induction n as [|n IH]; intros s c k Hn E; [destruct s; [discriminate E|cbn in Hn; lia]|].
  destruct s as [|m s]; [discriminate E|]. cbn [length] in *.
  assert (Hm : (m = Byte.x00 /\ k = 1%N) \/
    (exists b t c' k', s = b :: t /\ marked_parse t = Some (c', k') /\ k = (k' + 2)%N)).
  { cbn [marked_parse] in E. destruct m; try discriminate E; [left; split; congruence|].
    destruct s as [|b t]; [done|]. destruct (marked_parse t) as [[c' k']|] eqn:Et; [|done].
    right. exists b, t, c', k'. split; [done|]. split; [done|]. congruence. }
  destruct Hm as [[_ ->]|(b & t & c' & k' & -> & Et & ->)]; [lia|].
  cbn [length] in *. apply IH in Et; lia.
Qed.

#[export] Instance marked_laws : ZlibLaws MarkedDecoder md_source marked_rest.
Proof.
  split.
  - split; [|by intros [s [c|] ?] m]. intros [s [c|] b0] m bs d' E; [|done].
    change (reader_read (MkMarked s (Some c) b0) m)
      with (Ok (take (Nat.min 3 m) c), MkMarked s (Some (drop (Nat.min 3 m) c)) true) in E.
    assert (bs = take (Nat.min 3 m) c) as -> by congruence.
    assert (d' = MkMarked s (Some (drop (Nat.min 3 m) c)) true) as -> by congruence.
    unfold marked_rest. cbn [md_left default from_option id]. rewrite take_drop, length_take.
    split; [done|]. split; [lia|]. destruct m; [by left|].
    destruct c as [|b c]; [by right|done].
  - done.
  - by intros [s [c|] ?] m.
  - intros c t. unfold marked_rest, zlib_new, marked_decoder. cbn [md_left].
    by rewrite marked_parse_compress.
  - intros c t. exists (fun d => md_left d <> None).
    unfold zlib_new, marked_decoder. cbn [md_left]. rewrite marked_parse_compress. split; [done|].
    by intros [s [l|] ?] m.
  - intros c t d n d' Hs Hn E.
    assert (Hs' : md_source d' = md_source d /\ md_begun d' = true).
    { destruct d as [s [l|] b0]; [|done]. change d' with (Ok (@nil byte), d').2. by rewrite <- E. }
    destruct Hs' as [Hs' Hb]. cbn. by rewrite Hb, Hs', Hs, marked_parse_compress.
  - intros d. cbn. destruct (md_begun d); [|lia].
    destruct (marked_parse (md_source d)) as [[c k]|] eqn:E; cbn; [|lia].
    by apply (marked_parse_le (length (md_source d))) in E.
  - done.
  - intros [s [l|] [|]] n; cbn; lia.
  - intros c. change (zlib_compress c) with (marked_compress c). unfold marked_compress.
    rewrite length_app. cbn [length].
    assert (Hl : length (concat (map (fun b => [Byte.x01; b]) c)) = 2 * length c); [|lia].
    induction c as [|b c IH]; [done|]. cbn [map concat app length]. lia.
Qed.
