(* ===== verification/DeltaRead.v ===== *)
(** * Applying deltas (zmin-git-core/src/pack.rs): the streaming decoder, the streaming decoder that
      hashes, and the reference decoder of the tests, against one semantics of delta programs *)
From S2P Require Import Prelude Object Reader PackHeader Zlib.

(** ** Sizes and limits *)

Definition DELTA_RESULT_INITIAL_CAPACITY_LIMIT : N := 64 * 1024.

Definition checked_delta_result_len (current added : nat) (expected : N) : outcome nat :=
  next ← ok_or (checked_add current added) InvalidData "delta result size overflows usize";
  _ ← check (expected <? N.of_nat next)%N InvalidData "delta result size mismatch";
  Ok next.

Definition delta_result_initial_capacity (max_object_bytes result_size : N) : outcome N :=
  _ ← check (max_object_bytes <? result_size)%N InvalidData
        "delta result exceeds configured size limit";
  Ok (N.min result_size DELTA_RESULT_INITIAL_CAPACITY_LIMIT).

(** [opcode & (1 << idx) != 0]. *)
Definition has_bit (opcode idx : N) : bool := negb (N.land opcode (N.shiftl 1 idx) =? 0)%N.

Definition get_copy (base : bytes) (offset stop : N) : option bytes :=
  get_range base (N.to_nat offset) (N.to_nat stop).

(** ** Reading with a count: the reader and the [inflated] bytes so far *)

Section counted.
Context {R : Type} `{Reader R}.

Definition counted : Type := (R * N)%type.

(** [reader.read(&mut byte)] with a buffer of one byte. *)
Definition try_read_byte : rd counted (option byte) := fun '(r, inflated) =>
  let '(read, r) := reader_read r 1 in (head <$> read, (r, inflated)).

(** The checks after a byte was read. *)
Definition count_byte (expected_size : N) : rd counted unit := fun '(r, inflated) =>
  match checked_addN inflated 1 with
  | None => (fail InvalidData "delta size overflows u64", (r, inflated))
  | Some inflated =>
      (check (expected_size <? inflated)%N InvalidData "packed object inflated size mismatch",
       (r, inflated))
  end.

(** The shift stays below 64 for ten bytes. *)
Fixpoint delta_size_loop (fuel : nat) (expected_size size shift : N) : rd counted N :=
  match fuel with
  | 0 => rlift NoFuel
  | S fuel =>
      read <~ try_read_byte;
      byte <~ rlift (ok_or read InvalidData "delta size is truncated");
      _ <~ count_byte expected_size;
      let size := N.lor size (shl64 (N.land (u8 byte) 127) shift) in
      if (N.land (u8 byte) 128 =? 0)%N then rret size else
      let shift := (shift + 7)%N in
      if (63 <? shift)%N then rlift (fail InvalidData "delta size overflows u64")
      else delta_size_loop fuel expected_size size shift
  end.

Definition read_delta_size_from_reader (expected_size : N) : rd counted N :=
  delta_size_loop 10 expected_size 0 0.

Definition read_counted_delta_bytes (expected_size : N) (len : nat) (truncated_message : string)
  : rd counted bytes := fun '(r, inflated) =>
  if len =? 0 then (Ok [], (r, inflated)) else
  match checked_addN inflated (N.of_nat len) with
  | None => (fail InvalidData "delta size overflows u64", (r, inflated))
  | Some next =>
      if (expected_size <? next)%N
      then (fail InvalidData "packed object inflated size mismatch", (r, inflated))
      else match read_exact len r with
           | (Ok bs, r) => (Ok bs, (r, next))
           | (Err _, r) => (fail InvalidData truncated_message, (r, inflated))
           | (Panic, r) => (Panic, (r, inflated))
           | (NoFuel, r) => (NoFuel, (r, inflated))
           end
  end.

Definition read_counted_delta_byte (expected_size : N) : rd counted (option byte) :=
  read <~ try_read_byte;
  match read with
  | None => rret None
  | Some byte => _ <~ count_byte expected_size; rret (Some byte)
  end.

(** The loops [for idx in ..] of [read_delta_copy_from_reader]: how many operand bytes follow, and
    the value they make. *)
Fixpoint count_operands (opcode base : N) (idxs : list N) (len : nat) : nat :=
  match idxs with
  | [] => len
  | idx :: idxs =>
      count_operands opcode base idxs (if has_bit opcode (base + idx) then len + 1 else len)
  end.

Fixpoint take_operands (opcode base : N) (idxs : list N) (value : N) (bs : bytes)
  : outcome (N * bytes) :=
  match idxs with
  | [] => Ok (value, bs)
  | idx :: idxs =>
      if has_bit opcode (base + idx) then
        match bs with
        | [] => Panic
        | b :: bs => take_operands opcode base idxs (N.lor value (N.shiftl (u8 b) (idx * 8))) bs
        end
      else take_operands opcode base idxs value bs
  end.

Definition read_delta_copy_from_reader (expected_size opcode : N) : rd counted (N * N) :=
  let len := count_operands opcode 0 [0; 1; 2; 3]%N 0 in
  let len := count_operands opcode 4 [0; 1; 2]%N len in
  _ <~ rlift (assert (len <=? 7));
  bs <~ read_counted_delta_bytes expected_size len "delta instruction is truncated";
  '(offset, bs) <~ rlift (take_operands opcode 0 [0; 1; 2; 3]%N 0 bs);
  '(size, _) <~ rlift (take_operands opcode 4 [0; 1; 2]%N 0 bs);
  rret (offset, if (size =? 0)%N then 65536%N else size).

(** The bytes one instruction appends: the branches on the opcode, which the two streaming decoders
    share word for word. *)
Definition read_instruction (base : bytes) (expected_delta_size opcode : N) : rd counted bytes :=
  if negb (N.land opcode 128 =? 0)%N then
    '(copy_offset, copy_size) <~ read_delta_copy_from_reader expected_delta_size opcode;
    copy_end <~ rlift (ok_or (checked_addN copy_offset copy_size) InvalidData
                         "delta copy range overflows");
    rlift (ok_or (get_copy base copy_offset copy_end) InvalidData
             "delta copy range is outside base")
  else if negb (opcode =? 0)%N then
    _ <~ rlift (assert (opcode <=? 127)%N);
    read_counted_delta_bytes expected_delta_size (N.to_nat opcode) "delta insert range is truncated"
  else rlift (fail InvalidData "delta instruction opcode 0 is reserved").

(** The loop of [apply_delta_from_counted_reader]: every turn but the last counts a byte. *)
Fixpoint apply_counted_loop (fuel : nat) (base : bytes) (expected_delta_size max_object_bytes
  result_size : N) (out : bytes) : rd counted bytes :=
  match fuel with
  | 0 => rlift NoFuel
  | S fuel =>
      opcode <~ read_counted_delta_byte expected_delta_size;
      match opcode with
      | None => rret out
      | Some opcode =>
          part <~ read_instruction base expected_delta_size (u8 opcode);
          next_len <~ rlift (checked_delta_result_len (length out) (length part) result_size);
          let out := out ++ part in
          _ <~ rlift (assert (length out =? next_len));
          _ <~ rlift (check (max_object_bytes <? N.of_nat (length out))%N InvalidData
                        "delta result exceeds configured size limit");
          apply_counted_loop fuel base expected_delta_size max_object_bytes result_size out
      end
  end.

Definition inflated_bytes : rd counted N := fun st => (Ok st.2, st).

(** A run that starts with nothing inflated. *)
Definition uncounted {A} (m : rd counted A) : rd R A := fun r =>
  let '(o, (r, _)) := m (r, 0%N) in (o, r).

(** The body of [apply_delta_from_counted_reader], from a count on. *)
Definition apply_delta_counted (base : bytes) (expected_delta_size max_object_bytes : N)
  : rd counted bytes :=
  base_size <~ read_delta_size_from_reader expected_delta_size;
  _ <~ rlift (check (negb (base_size =? N.of_nat (length base))%N) InvalidData
                "delta base size mismatch");
  result_size <~ read_delta_size_from_reader expected_delta_size;
  _ <~ rlift (check (max_object_bytes <? result_size)%N InvalidData
                "delta result exceeds configured size limit");
  _ <~ rlift (delta_result_initial_capacity max_object_bytes result_size);
  out <~ apply_counted_loop (S (N.to_nat expected_delta_size)) base expected_delta_size
           max_object_bytes result_size [];
  inflated <~ inflated_bytes;
  _ <~ rlift (validate_packed_inflated_size expected_delta_size inflated);
  _ <~ rlift (check (negb (N.of_nat (length out) =? result_size)%N) InvalidData
                "delta result size mismatch");
  rret out.

Definition apply_delta_from_counted_reader (base : bytes) (expected_delta_size max_object_bytes : N)
  : rd R bytes := uncounted (apply_delta_counted base expected_delta_size max_object_bytes).

(** The loop of [apply_zlib_delta_hashing_from_cursor]: the hasher and the length in place of the
    result. *)
Fixpoint apply_hashing_loop (fuel : nat) (base : bytes) (expected_delta_size max_object_bytes
  result_size : N) (h : GitObjectHash) (len : nat) : rd counted (GitObjectHash * nat) :=
  match fuel with
  | 0 => rlift NoFuel
  | S fuel =>
      opcode <~ read_counted_delta_byte expected_delta_size;
      match opcode with
      | None => rret (h, len)
      | Some opcode =>
          part <~ read_instruction base expected_delta_size (u8 opcode);
          len <~ rlift (checked_delta_result_len len (length part) result_size);
          let h := hash_update h part in
          _ <~ rlift (check (max_object_bytes <? N.of_nat len)%N InvalidData
                        "delta result exceeds configured size limit");
          apply_hashing_loop fuel base expected_delta_size max_object_bytes result_size h len
      end
  end.

Definition apply_delta_hashing `{Sha} (alg : GitHashAlgorithm) (kind : GitObjectKind) (base : bytes)
  (expected_delta_size max_object_bytes : N) : rd R (ObjectId * nat) :=
  uncounted (
    base_size <~ read_delta_size_from_reader expected_delta_size;
    _ <~ rlift (check (negb (base_size =? N.of_nat (length base))%N) InvalidData
                  "delta base size mismatch");
    result_size <~ read_delta_size_from_reader expected_delta_size;
    _ <~ rlift (check (max_object_bytes <? result_size)%N InvalidData
                  "delta result exceeds configured size limit");
    h <~ rlift (update_header (hash_new alg) kind (N.to_nat result_size));
    '(h, len) <~ apply_hashing_loop (S (N.to_nat expected_delta_size)) base expected_delta_size
                   max_object_bytes result_size h 0;
    inflated <~ inflated_bytes;
    _ <~ rlift (validate_packed_inflated_size expected_delta_size inflated);
    _ <~ rlift (check (negb (N.of_nat len =? result_size)%N) InvalidData
                  "delta result size mismatch");
    id <~ rlift (hash_finalize h);
    rret (id, len)).
End counted.
Arguments counted : clear implicits.

(** ** The entry points, over a zlib decoder *)

Definition apply_zlib_delta_from_reader {Src D} `{ZlibDecoder Src D} (src : Src) (base : bytes)
  (expected_delta_size max_object_bytes : N) : outcome bytes :=
  _ ← zlib_content_capacity max_object_bytes expected_delta_size;
  (apply_delta_from_counted_reader base expected_delta_size max_object_bytes (zlib_new src)).1.

Definition apply_zlib_delta_from_cursor {D} `{ZlibDecoder bytes D} (base : bytes)
  (expected_delta_size max_object_bytes : N) : rd Cursor bytes :=
  _ <~ rlift (zlib_content_capacity max_object_bytes expected_delta_size);
  decode_cursor (D := D) (apply_delta_from_counted_reader base expected_delta_size max_object_bytes).

Definition apply_zlib_delta_hashing_from_cursor {D} `{ZlibDecoder bytes D} `{Sha}
  (alg : GitHashAlgorithm) (kind : GitObjectKind) (base : bytes)
  (expected_delta_size max_object_bytes : N) : rd Cursor (ObjectId * nat) :=
  _ <~ rlift (zlib_content_capacity max_object_bytes expected_delta_size);
  decode_cursor (D := D)
    (apply_delta_hashing alg kind base expected_delta_size max_object_bytes).

Definition read_zlib_delta_base_and_result_size {Src D} `{ZlibDecoder Src D} (src : Src)
  (max_object_bytes expected_size : N) : outcome (N * N) :=
  _ ← zlib_content_capacity max_object_bytes expected_size;
  (uncounted (base_size <~ read_delta_size_from_reader expected_size;
              result_size <~ read_delta_size_from_reader expected_size;
              rret (base_size, result_size)) (zlib_new src)).1.

(** ** The decoder of the tests, on a delta in memory and a cursor into it *)

Section in_memory.
Context (delta : bytes).

(** [delta.get(cursor)], and [cursor += 1] when there is a byte. *)
Definition get_next : rd nat (option byte) := fun cursor =>
  match delta !! cursor with
  | Some byte => (Ok (Some byte), cursor + 1)
  | None => (Ok None, cursor)
  end.

Fixpoint read_delta_size_loop (fuel : nat) (size shift : N) : rd nat N :=
  match fuel with
  | 0 => rlift NoFuel
  | S fuel =>
      read <~ get_next;
      byte <~ rlift (ok_or read InvalidData "delta size is truncated");
      let size := N.lor size (shl64 (N.land (u8 byte) 127) shift) in
      if (N.land (u8 byte) 128 =? 0)%N then rret size else
      let shift := (shift + 7)%N in
      if (63 <? shift)%N then rlift (fail InvalidData "delta size overflows u64")
      else read_delta_size_loop fuel size shift
  end.

Definition read_delta_size : rd nat N := read_delta_size_loop 10 0 0.

Definition read_delta_byte : rd nat N :=
  read <~ get_next;
  byte <~ rlift (ok_or read InvalidData "delta instruction is truncated");
  rret (u8 byte).

Fixpoint read_operands (opcode base : N) (idxs : list N) (value : N) : rd nat N :=
  match idxs with
  | [] => rret value
  | idx :: idxs =>
      if has_bit opcode (base + idx) then
        byte <~ read_delta_byte;
        read_operands opcode base idxs (N.lor value (N.shiftl byte (idx * 8)))
      else read_operands opcode base idxs value
  end.

Definition read_delta_copy (opcode : N) : rd nat (N * N) :=
  offset <~ read_operands opcode 0 [0; 1; 2; 3]%N 0;
  size <~ read_operands opcode 4 [0; 1; 2]%N 0;
  rret (offset, if (size =? 0)%N then 65536%N else size).

(** [delta.get(cursor..insert_end)], then [cursor = insert_end]. *)
Definition read_insert (insert_size : nat) : rd nat bytes := fun cursor =>
  match checked_add cursor insert_size with
  | None => (fail InvalidData "delta insert range overflows", cursor)
  | Some insert_end =>
      match get_range delta cursor insert_end with
      | None => (fail InvalidData "delta insert range is truncated", cursor)
      | Some insert => (Ok insert, insert_end)
      end
  end.

(** The loop [while cursor < delta.len()]: every turn takes a byte. *)
Fixpoint apply_delta_loop (fuel : nat) (base : bytes) (max_object_bytes result_size : N)
  (out : bytes) : rd nat bytes :=
  match fuel with
  | 0 => rlift NoFuel
  | S fuel =>
      read <~ get_next;
      match read with
      | None => rret out
      | Some opcode =>
          let opcode := u8 opcode in
          part <~ (if negb (N.land opcode 128 =? 0)%N then
                     '(copy_offset, copy_size) <~ read_delta_copy opcode;
                     copy_end <~ rlift (ok_or (checked_addN copy_offset copy_size) InvalidData
                                          "delta copy range overflows");
                     rlift (ok_or (get_copy base copy_offset copy_end) InvalidData
                              "delta copy range is outside base")
                   else if negb (opcode =? 0)%N then read_insert (N.to_nat opcode)
                   else rlift (fail InvalidData "delta instruction opcode 0 is reserved"));
          next_len <~ rlift (checked_delta_result_len (length out) (length part) result_size);
          let out := out ++ part in
          _ <~ rlift (assert (length out =? next_len));
          _ <~ rlift (check (max_object_bytes <? N.of_nat (length out))%N InvalidData
                        "delta result exceeds configured size limit");
          apply_delta_loop fuel base max_object_bytes result_size out
      end
  end.

Definition apply_delta_run (base : bytes) (max_object_bytes : N) : rd nat bytes :=
  base_size <~ read_delta_size;
  _ <~ rlift (check (negb (base_size =? N.of_nat (length base))%N) InvalidData
                "delta base size mismatch");
  result_size <~ read_delta_size;
  _ <~ rlift (check (max_object_bytes <? result_size)%N InvalidData
                "delta result exceeds configured size limit");
  _ <~ rlift (delta_result_initial_capacity max_object_bytes result_size);
  out <~ apply_delta_loop (S (length delta)) base max_object_bytes result_size [];
  _ <~ rlift (check (negb (N.of_nat (length out) =? result_size)%N) InvalidData
                "delta result size mismatch");
  rret out.

Definition apply_delta (base : bytes) (max_object_bytes : N) : outcome bytes :=
  (apply_delta_run base max_object_bytes 0).1.
End in_memory.

(** ** The semantics of delta programs: a run over the bytes that are left *)

Definition next_byte : rd bytes (option byte) := fun b => (Ok (head b), tail b).

Definition take_bytes (n : nat) : rd bytes bytes := fun b =>
  if n <=? length b then (Ok (take n b), drop n b)
  else (fail InvalidData "delta is truncated", b).

Fixpoint size_sem (fuel : nat) (size shift : N) : rd bytes N :=
  match fuel with
  | 0 => rlift NoFuel
  | S fuel =>
      read <~ next_byte;
      byte <~ rlift (ok_or read InvalidData "delta size is truncated");
      let size := N.lor size (shl64 (N.land (u8 byte) 127) shift) in
      if (N.land (u8 byte) 128 =? 0)%N then rret size else
      let shift := (shift + 7)%N in
      if (63 <? shift)%N then rlift (fail InvalidData "delta size overflows u64")
      else size_sem fuel size shift
  end.

Fixpoint operands_sem (opcode base : N) (idxs : list N) (value : N) : rd bytes N :=
  match idxs with
  | [] => rret value
  | idx :: idxs =>
      if has_bit opcode (base + idx) then
        read <~ next_byte;
        byte <~ rlift (ok_or read InvalidData "delta instruction is truncated");
        operands_sem opcode base idxs (N.lor value (N.shiftl (u8 byte) (idx * 8)))
      else operands_sem opcode base idxs value
  end.

Definition copy_sem (opcode : N) : rd bytes (N * N) :=
  offset <~ operands_sem opcode 0 [0; 1; 2; 3]%N 0;
  size <~ operands_sem opcode 4 [0; 1; 2]%N 0;
  rret (offset, if (size =? 0)%N then 65536%N else size).

Definition instruction_sem (base : bytes) (opcode : N) : rd bytes bytes :=
  if negb (N.land opcode 128 =? 0)%N then
    '(copy_offset, copy_size) <~ copy_sem opcode;
    copy_end <~ rlift (ok_or (checked_addN copy_offset copy_size) InvalidData
                         "delta copy range overflows");
    rlift (ok_or (get_copy base copy_offset copy_end) InvalidData
             "delta copy range is outside base")
  else if negb (opcode =? 0)%N then take_bytes (N.to_nat opcode)
  else rlift (fail InvalidData "delta instruction opcode 0 is reserved").

(** The bounds on the result are checked after every instruction. *)
Definition append_sem (max result_size : N) (out part : bytes) : outcome bytes :=
  _ ← checked_delta_result_len (length out) (length part) result_size;
  _ ← check (max <? N.of_nat (length (out ++ part)))%N InvalidData
        "delta result exceeds configured size limit";
  Ok (out ++ part).

Fixpoint program_sem (fuel : nat) (base : bytes) (max result_size : N) (out : bytes)
  : rd bytes bytes :=
  match fuel with
  | 0 => rlift NoFuel
  | S fuel =>
      read <~ next_byte;
      match read with
      | None => rret out
      | Some opcode =>
          part <~ instruction_sem base (u8 opcode);
          out <~ rlift (append_sem max result_size out part);
          program_sem fuel base max result_size out
      end
  end.

Definition delta_run (fuel : nat) (base : bytes) (max : N) : rd bytes bytes :=
  base_size <~ size_sem 10 0 0;
  _ <~ rlift (check (negb (base_size =? N.of_nat (length base))%N) InvalidData
                "delta base size mismatch");
  result_size <~ size_sem 10 0 0;
  _ <~ rlift (check (max <? result_size)%N InvalidData
                "delta result exceeds configured size limit");
  out <~ program_sem fuel base max result_size [];
  _ <~ rlift (check (negb (N.of_nat (length out) =? result_size)%N) InvalidData
                "delta result size mismatch");
  rret out.

Definition delta_sem (base : bytes) (max : N) (delta : bytes) : outcome bytes :=
  (delta_run (S (length delta)) base max delta).1.

(** ** A logic of runs: [m] refines [s] when it takes the same bytes to the same result *)

Section refines.
Context {St : Type} (view : St -> bytes) (Inv : St -> Prop) (tot : Prop).

(** When [m] fails, so does [s], if [tot] holds. *)
Definition refines_at {A} (st : St) (m : rd St A) (s : rd bytes A) : Prop :=
  match m st with
  | (Ok a, st') =>
      Inv st' /\ length (view st') <= length (view st) /\ s (view st) = (Ok a, view st')
  | (Err _, _) => tot -> exists e t, s (view st) = (Err e, t)
  | (Panic, _) | (NoFuel, _) => False
  end.

Lemma refines_bind {A B} st (m : rd St A) s (f g : _ -> _ B) :
  refines_at st m s ->
  (forall a st', m st = (Ok a, st') -> Inv st' -> length (view st') <= length (view st) ->
     refines_at st' (f a) (g a)) ->
  refines_at st (rbind m f) (rbind s g).
Proof.
  unfold refines_at, rbind. destruct (m st) as [[a|e| |] st'] eqn:E; [| |done..].
  - intros (Hi & Hl & Es) Hf. rewrite Es. specialize (Hf a st' eq_refl Hi Hl).
    destruct (f a st') as [[b|?| |] st'']; [|done..]. destruct Hf as (? & ? & ?).
    split; [done|]. split; [lia|done].
  - intros He _ Ht. destruct (He Ht) as (e' & t & ->). eauto.
Qed.

Lemma refines_ret {A} st (a : A) : Inv st -> refines_at st (rret a) (rret a).
Proof. done. Qed.

Lemma refines_lift {A} st (o : outcome A) : Inv st -> safe o -> refines_at st (rlift o) (rlift o).
Proof. unfold refines_at, rlift. destruct o; try done. eauto. Qed.

Lemma refines_fail {A} st e e' :
  refines_at (A := A) st (rlift (Err e)) (rlift (Err e')).
Proof. unfold refines_at, rlift. eauto. Qed.

Lemma refines_lifted {A B} st (o : outcome A) a (f : A -> rd St B) g :
  o = Ok a -> refines_at st (f a) (g a) -> refines_at st (rbind (rlift o) f) (rbind (rlift o) g).
Proof. intros ->. done. Qed.

(** A step of [m] without effect. *)
Lemma refines_skip {A B} st (o : outcome A) a (f : A -> rd St B) s :
  o = Ok a -> refines_at st (f a) s -> refines_at st (rbind (rlift o) f) s.
Proof. intros ->. done. Qed.
End refines.

(** Two semantics that differ in their errors only. *)
Definition same_runs {A} (s s' : rd bytes A) : Prop :=
  forall b, (exists a t, s b = (Ok a, t) /\ s' b = (Ok a, t)) \/
            (exists e t e' t', s b = (Err e, t) /\ s' b = (Err e', t')).

Lemma refines_same {St A} (view : St -> bytes) Inv tot st (m : rd St A) s s' :
  same_runs s s' -> refines_at view Inv tot st m s -> refines_at view Inv tot st m s'.
Proof.
  intros Hs. unfold refines_at. destruct (m st) as [[a|e| |] st']; [| |done..].
  - intros (? & ? & E). destruct (Hs (view st)) as [(?&?&E1&E2)|(?&?&?&?&E1&E2)];
      rewrite E in E1; [|done]. rewrite E2. by injection E1 as <- <-.
  - intros He Ht. destruct (He Ht) as (e1 & t & E).
    destruct (Hs (view st)) as [(?&?&E1&E2)|(?&?&?&?&E1&E2)]; rewrite E in E1; [done|eauto].
Qed.

(** ** Operands *)

Lemma count_operands_acc opcode base idxs len :
  count_operands opcode base idxs len = len + count_operands opcode base idxs 0.
Proof.
  revert len. induction idxs as [|idx idxs IH]; intros len; cbn [count_operands]; [lia|].
  rewrite IH, (IH (if has_bit opcode (base + idx) then 0 + 1 else 0)).
  destruct (has_bit _ _); lia.
Qed.

Lemma count_operands_le opcode base idxs : count_operands opcode base idxs 0 <= length idxs.
Proof.
  induction idxs as [|idx idxs IH]; cbn [count_operands length]; [lia|].
  rewrite count_operands_acc. destruct (has_bit _ _); lia.
Qed.

Lemma operands_ok opcode base idxs v bs :
  length bs = count_operands opcode base idxs 0 ->
  exists v', (forall t, take_operands opcode base idxs v (bs ++ t) = Ok (v', t)) /\
             (forall t, operands_sem opcode base idxs v (bs ++ t) = (Ok v', t)).
Proof.
  revert v bs. induction idxs as [|idx idxs IH]; intros v bs Hl; cbn [count_operands] in Hl.
  - destruct bs; [|done]. by exists v.
  - rewrite count_operands_acc in Hl. cbn [take_operands operands_sem].
    destruct (has_bit opcode (base + idx)).
    + destruct bs as [|b bs]; [done|]. cbn [length] in Hl.
      destruct (IH (N.lor v (N.shiftl (u8 b) (idx * 8))) bs) as (v' & H1 & H2); [lia|].
      exists v'. split; [exact H1|]. intros t. by rewrite <- (H2 t).
    + apply IH. lia.
Qed.

Lemma operands_short opcode base idxs v bs :
  length bs < count_operands opcode base idxs 0 ->
  exists e t, operands_sem opcode base idxs v bs = (Err e, t).
Proof.
  revert v bs. induction idxs as [|idx idxs IH]; intros v bs Hl; cbn [count_operands] in Hl; [lia|].
  rewrite count_operands_acc in Hl. cbn [operands_sem]. destruct (has_bit opcode (base + idx)).
  - destruct bs as [|b bs]; [by eexists _, _|]. cbn [length] in Hl.
    apply (IH (N.lor v (N.shiftl (u8 b) (idx * 8))) bs). lia.
  - apply IH. lia.
Qed.

(** Reading all operand bytes of a copy at once, as the streaming decoders do. *)
Definition copy_at_once (opcode : N) : rd bytes (N * N) :=
  bs <~ take_bytes (count_operands opcode 0 [0; 1; 2; 3]%N 0 + count_operands opcode 4 [0; 1; 2]%N 0);
  '(offset, bs) <~ rlift (take_operands opcode 0 [0; 1; 2; 3]%N 0 bs);
  '(size, _) <~ rlift (take_operands opcode 4 [0; 1; 2]%N 0 bs);
  rret (offset, if (size =? 0)%N then 65536%N else size).

Lemma copy_at_once_same opcode : same_runs (copy_at_once opcode) (copy_sem opcode).
Proof.
  intros b. unfold copy_at_once, copy_sem, take_bytes.
  set (c1 := count_operands opcode 0 [0; 1; 2; 3]%N 0). set (c2 := count_operands opcode 4 [0; 1; 2]%N 0).
  unfold rbind, rlift, rret. destruct (Nat.leb_spec (c1 + c2) (length b)) as [Hl|Hl].
  - left. destruct (operands_ok opcode 0 [0; 1; 2; 3]%N 0 (take c1 b)) as (v1 & T1 & S1);
      [rewrite length_take; lia|].
    destruct (operands_ok opcode 4 [0; 1; 2]%N 0 (take c2 (drop c1 b))) as (v2 & T2 & S2);
      [rewrite length_take, length_drop; lia|].
    assert (Eb : b = take c1 b ++ take c2 (drop c1 b) ++ drop (c1 + c2) b).
    { rewrite <- (take_drop c1 b) at 1. f_equal. rewrite <- (take_drop c2 (drop c1 b)) at 1.
      by rewrite drop_drop. }
    specialize (S1 (take c2 (drop c1 b) ++ drop (c1 + c2) b)). rewrite <- Eb in S1.
    specialize (S2 (drop (c1 + c2) b)).
    eexists _, _. rewrite S1, S2. split; [|done].
    assert (Et : take (c1 + c2) b = take c1 b ++ take c2 (drop c1 b)) by (by rewrite take_take_drop).
    rewrite Et, T1. specialize (T2 []). rewrite app_nil_r in T2. by rewrite T2.
  - right. assert (He : exists e t, copy_sem opcode b = (Err e, t)).
    { unfold copy_sem, rbind. destruct (Nat.le_gt_cases c1 (length b)) as [Hc|Hc].
      - destruct (operands_ok opcode 0 [0; 1; 2; 3]%N 0 (take c1 b)) as (v1 & _ & S1);
          [rewrite length_take; lia|].
        specialize (S1 (drop c1 b)). rewrite take_drop in S1. rewrite S1.
        destruct (operands_short opcode 4 [0; 1; 2]%N 0 (drop c1 b)) as (e & t & ->);
          [rewrite length_drop; lia|]. by eexists _, _.
      - destruct (operands_short opcode 0 [0; 1; 2; 3]%N 0 b Hc) as (e & t & ->). by eexists _, _. }
    destruct He as (e & t & He). unfold copy_sem, rbind, rret in He. rewrite He. by eexists _, _, _, _.
Qed.

(** ** The bounds on the result *)

Lemma checked_delta_result_len_Ok a b expected' n :
  checked_delta_result_len a b expected' = Ok n -> n = a + b /\ (N.of_nat n <= expected')%N.
Proof.
  unfold checked_delta_result_len. intros E. inv_ok. breflect. by apply checked_add_Some in E0 as [_ ->].
Qed.

Lemma safe_checked_delta_result_len a b expected' : safe (checked_delta_result_len a b expected').
Proof. unfold checked_delta_result_len. solve_safe. Qed.

(** What both programs do after an instruction. *)
Lemma append_sem_eq max result_size out part :
  append_sem max result_size out part
  = (next_len ← checked_delta_result_len (length out) (length part) result_size;
     _ ← assert (length (out ++ part) =? next_len);
     _ ← check (max <? N.of_nat (length (out ++ part)))%N InvalidData
           "delta result exceeds configured size limit";
     Ok (out ++ part)).
Proof.
  unfold append_sem. destruct (checked_delta_result_len _ _ _) as [n|e| |] eqn:E; [|done..].
  apply checked_delta_result_len_Ok in E as [-> _]. rewrite bind_Ok, bind_Ok, length_app.
  by rewrite Nat.eqb_refl.
Qed.

Lemma safe_append_sem max result_size out part : safe (append_sem max result_size out part).
Proof. unfold append_sem. apply safe_bind; [apply safe_checked_delta_result_len|].
  intros ? _. solve_safe.
Qed.

(** Both programs check the bounds of the result after an instruction. *)
Lemma refines_append {St A} (view : St -> bytes) Inv tot st max result_size out part
  (f : bytes -> rd St A) (g : bytes -> rd bytes A) :
  refines_at view Inv tot st (f (out ++ part)) (g (out ++ part)) ->
  refines_at view Inv tot st
    (next_len <~ rlift (checked_delta_result_len (length out) (length part) result_size);
     _ <~ rlift (assert (length (out ++ part) =? next_len));
     _ <~ rlift (check (max <? N.of_nat (length (out ++ part)))%N InvalidData
                   "delta result exceeds configured size limit");
     f (out ++ part))
    (out <~ rlift (append_sem max result_size out part); g out).
Proof.
  intros Hf. pose proof (append_sem_eq max result_size out part) as Ea.
  pose proof (safe_append_sem max result_size out part) as Hsafe. rewrite Ea in *. clear Ea.
  destruct (checked_delta_result_len (length out) (length part) result_size) as [n|e| |] eqn:En;
    [|apply refines_fail|done..].
  rewrite bind_Ok in *. eapply refines_skip; [done|].
  destruct (length (out ++ part) =? n); [|done]. eapply refines_skip; [done|]. cbn [assert] in *.
  rewrite bind_Ok in *. destruct (max <? N.of_nat (length (out ++ part)))%N; [apply refines_fail|].
  eapply refines_skip; [done|]. exact Hf.
Qed.

(** ** The streaming decoder refines the semantics *)

Lemma rbind_eq {R A B} (m : rd R A) (f g : A -> rd R B) r :
  (forall a r', m r = (Ok a, r') -> f a r' = g a r') -> rbind m f r = rbind m g r.
Proof. unfold rbind. destruct (m r) as [[a|e| |] r']; auto. Qed.

Section streaming.
Context `{ReaderLaws R rest} (expected total : N) (Hexp : (expected < 2 ^ 64)%N) (T : Prop).

(** [inflated] counts the bytes read of [total], and stays within [expected]; if [T] holds, the
    reader does not fail. *)
Let Inv (st : counted R) : Prop :=
  (st.2 + N.of_nat (length (rest st.1)) = total)%N /\ (st.2 <= expected)%N /\
  (T -> total_from st.1).
Let view (st : counted R) : bytes := rest st.1.

(** The reader does not fail and the delta has the expected size. *)
Let tot : Prop := T /\ total = expected.

Local Abbreviation refines st m s := (refines_at view Inv tot st m s).

Lemma count_byte_eq r i :
  count_byte (R := R) expected (r, i)
  = (check (expected <? i + 1)%N InvalidData "packed object inflated size mismatch", (r, (i + 1)%N))
  \/ (expected <= i)%N.
Proof.
  unfold count_byte, checked_addN. destruct (N.ltb_spec (i + 1) usize_limit) as [Hl|Hl]; [by left|].
  right. unfold usize_limit in Hl. lia.
Qed.

(** A byte that is read and counted. *)
Lemma refines_next {A} st (f : option byte -> rd (counted R) A) (g : option byte -> rd bytes A) :
  Inv st ->
  (forall st', Inv st' -> view st' = [] -> refines st' (f None) (g None)) ->
  (forall st' b, Inv st' -> length (view st') < length (view st) -> refines st' (f (Some b)) (g (Some b))) ->
  refines st (read <~ try_read_byte;
              match read with
              | None => f None
              | Some b => _ <~ count_byte expected; f (Some b)
              end) (read <~ next_byte; g read).
Proof.
  intros (Hi & Hx & HT) Hnone Hsome. destruct st as [r i]. cbn [fst snd] in *.
  unfold refines_at, try_read_byte.
  change ((read <~ next_byte; g read) (view (r, i))) with (g (head (rest r)) (tail (rest r))).
  unfold rbind at 1.
  pose proof (read_safe r 1) as Hs. pose proof (fun t : T => total_from_read r 1 (HT t)) as Ht.
  destruct (reader_read r 1) as [[bs|e| |] r1] eqn:E; cbn [fst snd is_ok safe] in Hs, Ht; try done.
  2:{ intros [t _]. by destruct (Ht t). }
  apply read_takes in E as (Er & Hl & Hz). change (head <$> Ok bs) with (Ok (head bs)).
  cbv iota beta. destruct bs as [|b [|??]]; [| |cbn in Hl; lia].
  - destruct Hz as [?|Hz]; [done|lia|]. assert (Hr1 : rest r1 = []) by (by rewrite Hz in Er).
    rewrite Hz in Hi |- *. specialize (Hnone (r1, i)). unfold refines_at, view in Hnone |- *.
    cbn [fst snd] in Hnone |- *. rewrite Hr1 in Hnone. rewrite Hz. cbn [head tail].
    apply Hnone; [|done]. unfold Inv. cbn [fst snd]. rewrite Hr1.
    split; [done|]. split; [done|]. intros t. by apply Ht.
  - assert (Hgo : (i + 1 <= expected)%N -> refines (r1, (i + 1)%N) (f (Some b)) (g (Some b))).
    { intros Hle. rewrite Er in Hi. cbn [app length] in Hi.
      apply Hsome; [split; [|split; [|intros t; by apply Ht]]|unfold view]; cbn [fst snd];
        rewrite ?Er; cbn [app length]; lia. }
    unfold refines_at, view in Hgo |- *. cbn [fst] in Hgo |- *.
    rewrite Er in Hi |- *. cbn [head tail app length] in Hi |- *. unfold rbind at 1.
    destruct (N.ltb_spec expected (i + 1)) as [Hlt|Hle].
    + assert (Hc : exists e st', count_byte expected (r1, i) = (Err e, st')).
      { destruct (count_byte_eq r1 i) as [->|_]; [rewrite (proj2 (N.ltb_lt _ _) Hlt); by eexists _, _|].
        unfold count_byte. destruct (checked_addN i 1) as [n|] eqn:En; [|by eexists _, _].
        unfold checked_addN in En. destruct (N.ltb_spec (i + 1) usize_limit); [|done].
        injection En as <-. rewrite (proj2 (N.ltb_lt _ _) Hlt). by eexists _, _. }
      destruct Hc as (e & st' & ->). intros [_ Htot]. lia.
    + destruct (count_byte_eq r1 i) as [->|?]; [|lia]. rewrite (proj2 (N.ltb_ge _ _) Hle).
      cbn [check]. specialize (Hgo Hle).
      destruct (f (Some b) (r1, (i + 1)%N)) as [[a|?| |] st']; [|done..].
      destruct Hgo as (? & ? & ?). split; [done|]. split; [lia|done].
Qed.

Lemma refines_counted_byte {A} st (f : option byte -> rd (counted R) A) (g : option byte -> rd bytes A) :
  Inv st ->
  (forall st', Inv st' -> view st' = [] -> refines st' (f None) (g None)) ->
  (forall st' b, Inv st' -> length (view st') < length (view st) -> refines st' (f (Some b)) (g (Some b))) ->
  refines st (read <~ read_counted_delta_byte expected; f read) (read <~ next_byte; g read).
Proof.
  intros Hi Hnone Hsome. pose proof (refines_next st f g Hi Hnone Hsome) as Hr.
  unfold refines_at in *.
  replace ((read <~ read_counted_delta_byte expected; f read) st) with
    ((read <~ try_read_byte;
      match read with
      | None => f None
      | Some b => _ <~ count_byte expected; f (Some b)
      end) st); [exact Hr|].
  unfold read_counted_delta_byte, rbind. destruct (try_read_byte st) as [[[b|]|e| |] st']; try done.
  destruct (count_byte expected st') as [[[]|e| |] st'']; done.
Qed.

Lemma refines_size fuel st size shift :
  Inv st -> (63 < shift + 7 * N.of_nat fuel)%N -> 0 < fuel ->
  refines st (delta_size_loop fuel expected size shift) (size_sem fuel size shift).
Proof.
  revert st size shift. induction fuel as [|fuel IH]; intros st size shift Hi Hf Hpos; [lia|].
  cbn [delta_size_loop size_sem].
  set (k := fun byte : byte => let size := N.lor size (shl64 (N.land (u8 byte) 127) shift) in
      if (N.land (u8 byte) 128 =? 0)%N then rret size else
      let shift := (shift + 7)%N in
      if (63 <? shift)%N then rlift (fail InvalidData "delta size overflows u64")
      else delta_size_loop fuel expected size shift).
  pose proof (refines_next st
    (fun read => byte <~ rlift (ok_or read InvalidData "delta size is truncated"); k byte)
    (fun read => byte <~ rlift (ok_or read InvalidData "delta size is truncated");
       let size := N.lor size (shl64 (N.land (u8 byte) 127) shift) in
       if (N.land (u8 byte) 128 =? 0)%N then rret size else
       let shift := (shift + 7)%N in
       if (63 <? shift)%N then rlift (fail InvalidData "delta size overflows u64")
       else size_sem fuel size shift) Hi) as Hn.
  premise Hn; [intros; apply refines_fail|].
  premise Hn.
  { intros st' b Hi' _. eapply refines_lifted; [done|]. subst k. cbv beta zeta.
    destruct (N.land (u8 b) 128 =? 0)%N; [by apply refines_ret|].
    destruct (N.ltb_spec 63 (shift + 7)); [by apply refines_fail|].
    apply IH; [done|lia|]. destruct fuel; [lia|lia]. }
  unfold refines_at in *.
  replace ((read <~ try_read_byte; byte <~ rlift (ok_or read InvalidData "delta size is truncated");
            _ <~ count_byte expected; k byte) st) with
   ((read <~ try_read_byte;
     match read with
     | None => byte <~ rlift (ok_or None InvalidData "delta size is truncated"); k byte
     | Some b => _ <~ count_byte expected;
         byte <~ rlift (ok_or (Some b) InvalidData "delta size is truncated"); k byte
     end) st); [exact Hn|].
  apply rbind_eq. intros [b|] st' _; done.
Qed.

Lemma refines_bytes st n msg :
  Inv st -> refines st (read_counted_delta_bytes expected n msg) (take_bytes n).
Proof.
  intros (Hi & Hx & HT). destruct st as [r i]. cbn [fst snd] in *.
  unfold refines_at, read_counted_delta_bytes, take_bytes. cbn [view fst].
  change (view (r, i)) with (rest r).
  destruct (Nat.eqb_spec n 0) as [->|Hn]; [split; [done|]; by rewrite drop_0|].
  assert (Hshort : total = expected -> (expected < i + N.of_nat n)%N ->
    (n <=? length (rest r)) = false) by (intros; apply Nat.leb_gt; lia).
  unfold checked_addN. destruct (N.ltb_spec (i + N.of_nat n) usize_limit) as [Hu|Hu].
  2:{ intros [_ Ht]. rewrite Hshort by (unfold usize_limit in Hu; lia). by eexists _, _. }
  destruct (N.ltb_spec expected (i + N.of_nat n)) as [Hlt|Hle].
  { intros [_ Ht]. rewrite Hshort by lia. by eexists _, _. }
  pose proof (safe_read_exact n r) as Hs.
  destruct (read_exact n r) as [[bs|e| |] r1] eqn:E; try done.
  - pose proof (read_exact_total _ _ _ _ E) as Ht. apply read_exact_Ok in E as [Hl Er]. change (view (r1, (i + N.of_nat n)%N)) with (rest r1).
    assert (Hlen : length (rest r) = n + length (rest r1)) by (rewrite Er, length_app; lia).
    split; [split; cbn [fst snd]; [lia|]; split; [lia|auto]|]. split; [lia|].
    rewrite (proj2 (Nat.leb_le _ _)) by lia. rewrite Er, <- Hl.
    by rewrite take_app_length, drop_app_length.
  - intros [Ht _]. destruct (Nat.leb_spec n (length (rest r))) as [Hlen|_]; [|by eexists _, _].
    destruct (read_exact_from r (take n (rest r)) (drop n (rest r)) (HT Ht)) as (r' & E' & _);
      [by rewrite take_drop|]. rewrite length_take_le in E' by done. by rewrite E in E'.
Qed.

Lemma counted_bytes_length st n msg bs st' :
  Inv st -> read_counted_delta_bytes expected n msg st = (Ok bs, st') -> length bs = n.
Proof.
  intros Hi E. pose proof (refines_bytes st n msg Hi) as Hr. unfold refines_at in Hr. rewrite E in Hr.
  destruct Hr as (_ & _ & Hr). unfold take_bytes in Hr.
  destruct (Nat.leb_spec n (length (view st))) as [Hle|]; [|done].
  assert (bs = take n (view st)) as -> by congruence. by rewrite length_take_le.
Qed.

Lemma refines_copy st opcode :
  Inv st -> refines st (read_delta_copy_from_reader expected opcode) (copy_sem opcode).
Proof.
  intros Hi. apply (refines_same _ _ _ _ _ _ _ (copy_at_once_same opcode)).
  unfold read_delta_copy_from_reader. cbv zeta.
  rewrite (count_operands_acc opcode 4).
  pose proof (count_operands_le opcode 0 [0; 1; 2; 3]%N) as H1.
  pose proof (count_operands_le opcode 4 [0; 1; 2]%N) as H2. cbn [length] in H1, H2.
  eapply refines_skip; [by rewrite (proj2 (Nat.leb_le _ 7)) by lia|].
  unfold copy_at_once. eapply refines_bind; [by apply refines_bytes|]. intros bs st1 E1 Hi1 _.
  apply counted_bytes_length in E1 as Hb; [|done].
  set (c1 := count_operands opcode 0 [0; 1; 2; 3]%N 0) in *.
  destruct (operands_ok opcode 0 [0; 1; 2; 3]%N 0 (take c1 bs)) as (v1 & T1 & _);
    [rewrite length_take; lia|].
  destruct (operands_ok opcode 4 [0; 1; 2]%N 0 (drop c1 bs)) as (v2 & T2 & _);
    [rewrite length_drop; lia|].
  specialize (T1 (drop c1 bs)). rewrite take_drop in T1. specialize (T2 []). rewrite app_nil_r in T2.
  eapply refines_lifted; [exact T1|]. cbv beta iota. eapply refines_lifted; [exact T2|].
  by apply refines_ret.
Qed.

Lemma refines_instruction base st b :
  Inv st -> refines st (read_instruction base expected (u8 b)) (instruction_sem base (u8 b)).
Proof.
  intros Hi. unfold read_instruction, instruction_sem. pose proof (u8_lt b) as Hb.
  destruct (N.land (u8 b) 128 =? 0)%N eqn:Ef; cbn [negb].
  - destruct (u8 b =? 0)%N; cbn [negb]; [apply refines_fail|].
    rewrite flag_bit in Ef by done. apply N.ltb_lt in Ef.
    eapply refines_skip; [by rewrite (proj2 (N.leb_le _ 127)) by lia|]. by apply refines_bytes.
  - eapply refines_bind; [by apply refines_copy|]. intros [offset size] st1 _ Hi1 _.
    eapply refines_bind; [apply refines_lift; [done|apply safe_ok_or]|]. intros stop st2 _ Hi2 _.
    apply refines_lift; [done|apply safe_ok_or].
Qed.

Lemma refines_program base max result_size fuel fuel' st out :
  Inv st -> (expected - st.2 < N.of_nat fuel)%N -> length (view st) < fuel' ->
  refines st (apply_counted_loop fuel base expected max result_size out)
             (program_sem fuel' base max result_size out).
Proof.
  revert fuel' st out. induction fuel as [|fuel IH]; intros fuel' st out Hi Hf Hf'; [lia|].
  destruct fuel' as [|fuel']; [lia|]. cbn [apply_counted_loop program_sem].
  apply (refines_counted_byte st
    (fun opcode => match opcode with None => rret out | Some opcode => _ end)
    (fun read => match read with None => rret out | Some opcode => _ end) Hi);
    [intros; by apply refines_ret|].
  intros st1 b Hi1 Hl1. eapply refines_bind; [by apply refines_instruction|]. intros part st2 _ Hi2 Hl2.
  apply (refines_append view Inv tot st2 max result_size out part
    (apply_counted_loop fuel base expected max result_size)
    (program_sem fuel' base max result_size)).
  apply IH; [done| |lia].
  destruct Hi as (Hi & Hx & _), Hi2 as (Hi2 & Hx2 & _). unfold view in Hl1, Hl2. lia.
Qed.

Lemma program_sem_end base max result_size fuel out b out' t :
  program_sem fuel base max result_size out b = (Ok out', t) -> t = [].
Proof.
  revert out b. induction fuel as [|fuel IH]; intros out b; cbn [program_sem]; [done|].
  unfold rbind at 1, next_byte. destruct b as [|c b]; cbn [head tail].
  { unfold rret. congruence. }
  unfold rbind. destruct (instruction_sem base (u8 c) b) as [[part|e| |] t1]; try done.
  unfold rlift. destruct (append_sem max result_size out part) as [o|e| |]; try done. apply IH.
Qed.

Lemma safe_size st : Inv st -> refines st (read_delta_size_from_reader expected) (size_sem 10 0 0).
Proof. intros Hi. apply refines_size; [done|lia|lia]. Qed.

(** The decoder without its final conversion. *)
Lemma refines_apply base max st fuel :
  Inv st -> length (view st) < fuel ->
  refines st (apply_delta_counted base expected max) (delta_run fuel base max).
Proof.
  intros Hi Hf. unfold apply_delta_counted, delta_run.
  eapply refines_bind; [by apply safe_size|]. intros base_size st1 _ Hi1 Hl1.
  eapply refines_bind; [apply refines_lift; [done|apply safe_check]|]. intros [] st2 E2 Hi2 Hl2.
  eapply refines_bind; [by apply safe_size|]. intros result_size st3 _ Hi3 Hl3.
  destruct (max <? result_size)%N eqn:Em; [apply refines_fail|]. eapply refines_lifted; [done|].
  eapply refines_skip; [unfold delta_result_initial_capacity; by rewrite Em|].
  pose proof (refines_program base max result_size (S (N.to_nat expected)) fuel st3 [] Hi3) as Hp.
  premise Hp; [lia|]. premise Hp; [lia|].
  eapply refines_bind; [exact Hp|]. intros out st4 E4 Hi4 _.
  assert (Hend : view st4 = []).
  { unfold refines_at in Hp. rewrite E4 in Hp. destruct Hp as (_ & _ & Hp).
    by apply program_sem_end in Hp. }
  change (refines st4 (_ <~ rlift (validate_packed_inflated_size expected st4.2);
      _ <~ rlift (check (negb (N.of_nat (length out) =? result_size)%N) InvalidData
                   "delta result size mismatch"); rret out)
     (_ <~ rlift (check (negb (N.of_nat (length out) =? result_size)%N) InvalidData
                  "delta result size mismatch"); rret out)).
  unfold validate_packed_inflated_size. destruct (N.eqb_spec expected st4.2) as [Ee|Ee].
  - eapply refines_skip; [done|]. eapply refines_bind; [apply refines_lift; [done|apply safe_check]|].
    intros [] st5 _ Hi5 _. by apply refines_ret.
  - intros [_ Ht]. destruct Hi4 as [Hi4 _]. unfold view in Hend. rewrite Hend in Hi4.
    cbn [length] in Hi4. lia.
Qed.
End streaming.

Lemma applied_all `{Reader R} base expected max (st : counted R) result st' :
  apply_delta_counted base expected max st = (Ok result, st') ->
  st'.2 = expected /\ (N.of_nat (length result) <= max)%N.
Proof.
  unfold apply_delta_counted. intros E. inv_rd. unfold inflated_bytes in *. simplify_eq.
  unfold validate_packed_inflated_size in *. inv_ok. breflect. split; [done|lia].
Qed.

Lemma delta_run_end fuel base max b out t : delta_run fuel base max b = (Ok out, t) -> t = [].
Proof.
  unfold delta_run. intros E. inv_rd.
  match goal with H : program_sem _ _ _ _ _ _ = _ |- _ => by apply program_sem_end in H end.
Qed.

(** A property of readers that reading keeps is kept by the whole run, which ends with the read
    that found the end. *)
Section ends.
Context {R : Type} `{Reader R} (P : R -> Prop) (HP : forall r n, P r -> P (reader_read r n).2).

Local Abbreviation keeps m := (kept (fun st : counted R => P st.1) m).

Lemma keeps_try : keeps try_read_byte.
Proof. intros [r i] Hr. unfold try_read_byte. specialize (HP r 1 Hr). by destruct (reader_read r 1). Qed.

Lemma keeps_count expected : keeps (count_byte expected).
Proof. intros [r i] Hr. unfold count_byte. by destruct (checked_addN i 1). Qed.

Lemma keeps_bytes expected n msg : keeps (read_counted_delta_bytes expected n msg).
Proof.
  intros [r i] Hr. unfold read_counted_delta_bytes. destruct (n =? 0); [done|].
  destruct (checked_addN i _) as [next|]; [|done]. destruct (expected <? next)%N; [done|].
  pose proof (kept_read_exact P HP n r Hr) as Hk. by destruct (read_exact n r) as [[bs|e| |] r'].
Qed.

Lemma keeps_byte expected : keeps (read_counted_delta_byte expected).
Proof.
  apply kept_bind; [apply keeps_try|]. intros [b|]; [|apply kept_ret].
  apply kept_bind; [apply keeps_count|intros ?; apply kept_ret].
Qed.

Lemma keeps_size expected : keeps (read_delta_size_from_reader expected).
Proof.
  unfold read_delta_size_from_reader. generalize 0%N at 2. generalize 0%N. generalize 10.
  intros fuel. induction fuel as [|fuel IH]; intros size shift; cbn [delta_size_loop]; [apply kept_lift|].
  apply kept_bind; [apply keeps_try|]. intros o. apply kept_bind; [apply kept_lift|]. intros b.
  apply kept_bind; [apply keeps_count|]. intros []. cbv zeta.
  destruct (N.land (u8 b) 128 =? 0)%N; [apply kept_ret|].
  destruct (63 <? shift + 7)%N; [apply kept_lift|apply IH].
Qed.

Lemma keeps_instruction base expected opcode : keeps (read_instruction base expected opcode).
Proof.
  unfold read_instruction. destruct (negb (N.land opcode 128 =? 0)%N).
  - unfold read_delta_copy_from_reader. cbv zeta.
    apply kept_bind; [|intros [o z]; apply kept_bind; [apply kept_lift|intros ?; apply kept_lift]].
    apply kept_bind; [apply kept_lift|]. intros _. apply kept_bind; [apply keeps_bytes|]. intros bs.
    apply kept_bind; [apply kept_lift|]. intros [o t]. apply kept_bind; [apply kept_lift|].
    intros [z u]. apply kept_ret.
  - destruct (negb (opcode =? 0)%N); [|apply kept_lift].
    apply kept_bind; [apply kept_lift|]. intros _. apply keeps_bytes.
Qed.

Lemma counted_byte_end expected (st st' : counted R) :
  read_counted_delta_byte expected st = (Ok None, st') ->
  reader_read st.1 1 = (Ok [], st'.1).
Proof.
  intros E. apply rbind_Ok_inv in E as ([b|] & st1 & E1 & E).
  { apply rbind_Ok_inv in E as (u & st2 & _ & E). discriminate E. }
  injection E as <-. unfold try_read_byte in E1. destruct st as [r i]. cbn [fst] in *.
  destruct (reader_read r 1) as [[[|b bs]|e| |] r']; try discriminate E1. by injection E1 as <-.
Qed.

Lemma apply_counted_loop_end fuel base expected max result_size out (st : counted R) out' st' :
  apply_counted_loop fuel base expected max result_size out st = (Ok out', st') -> P st.1 ->
  exists r0, P r0 /\ reader_read r0 1 = (Ok [], st'.1).
Proof.
  revert out st. induction fuel as [|fuel IH]; intros out st E Hst; cbn [apply_counted_loop] in E; [done|].
  apply rbind_Ok_inv in E as ([b|] & st1 & E1 & E).
  - pose proof (keeps_byte expected st Hst) as H1. rewrite E1 in H1. cbn [snd] in H1.
    apply rbind_Ok_inv in E as (part & st2 & E2 & E).
    pose proof (keeps_instruction base expected (u8 b) st1 H1) as H2. rewrite E2 in H2. cbn [snd] in H2.
    cbv zeta in E. inv_rd. by eapply IH.
  - apply counted_byte_end in E1. exists st.1. split; [done|]. rewrite E1. by injection E as _ <-.
Qed.

Lemma apply_delta_counted_end base expected max (st : counted R) out st' :
  apply_delta_counted base expected max st = (Ok out, st') -> P st.1 ->
  exists r0, P r0 /\ reader_read r0 1 = (Ok [], st'.1).
Proof.
  unfold apply_delta_counted. intros E Hst.
  apply rbind_Ok_inv in E as (bs & st1 & E1 & E).
  pose proof (keeps_size expected st Hst) as H1. rewrite E1 in H1. cbn [snd] in H1.
  apply rbind_Ok_inv in E as (u & st2 & E2 & E). apply rlift_Ok_inv in E2 as [_ ->].
  apply rbind_Ok_inv in E as (rs & st3 & E3 & E).
  pose proof (keeps_size expected st1 H1) as H3. rewrite E3 in H3. cbn [snd] in H3.
  apply rbind_Ok_inv in E as (u4 & st4 & E4 & E). apply rlift_Ok_inv in E4 as [_ ->].
  apply rbind_Ok_inv in E as (u5 & st5 & E5 & E). apply rlift_Ok_inv in E5 as [_ ->].
  apply rbind_Ok_inv in E as (o & st6 & E6 & E). apply apply_counted_loop_end in E6; [|done].
  inv_rd. unfold inflated_bytes in *. by simplify_eq.
Qed.
End ends.

Section streaming_result.
Context `{ReaderLaws R rest}.

Lemma apply_streaming base expected max r :
  (expected < 2 ^ 64)%N ->
  match (apply_delta_from_counted_reader base expected max r).1 with
  | Ok out => expected = N.of_nat (length (rest r)) /\ (N.of_nat (length out) <= max)%N /\
              delta_sem base max (rest r) = Ok out
  | Err _ => total_from r -> expected = N.of_nat (length (rest r)) ->
             exists e, delta_sem base max (rest r) = Err e
  | _ => False
  end.
Proof.
  intros Hx.
  pose proof (refines_apply expected (N.of_nat (length (rest r))) Hx (total_from r) base max (r, 0%N)
    (S (length (rest r)))) as Hr.
  premise Hr; [split; cbn [fst snd]; [lia|]; split; [lia|done]|]. premise Hr; [cbn [fst]; lia|]. unfold refines_at in Hr. cbn [fst] in Hr.
  unfold apply_delta_from_counted_reader, uncounted, delta_sem.
  destruct (apply_delta_counted base expected max (r, 0%N)) as [[out|e| |] [r' i']] eqn:E;
    cbn [fst snd] in *; [|intros Ht Ee|done..].
  - apply applied_all in E as [Ei Hm]. destruct Hr as ((Hi & Hle & _) & _ & Es). cbn [fst snd] in *.
    rewrite Es. apply delta_run_end in Es. rewrite Es in Hi. cbn [length] in Hi. split; [lia|done].
  - destruct Hr as (e' & t & ->); [done|]. by exists e'.
Qed.
End streaming_result.

(** ** The decoder of the tests refines the semantics too *)

Section in_memory_refines.
Context (delta : bytes) (Hlen : (N.of_nat (length delta) < usize_limit)%N).

Let view (cursor : nat) : bytes := drop cursor delta.
Let Inv (cursor : nat) : Prop := cursor <= length delta.
Local Abbreviation refines st m s := (refines_at view Inv True st m s).

Lemma refines_get_next cursor : Inv cursor -> refines cursor (get_next delta) next_byte.
Proof.
  intros Hi. unfold refines_at, get_next, next_byte, view, Inv in *.
  destruct (delta !! cursor) as [b|] eqn:E.
  - pose proof (lookup_lt_Some _ _ _ E). rewrite Nat.add_1_r, (drop_S _ _ _ E). cbn [length].
    split; [lia|]. split; [lia|done].
  - apply lookup_ge_None in E. by rewrite drop_ge.
Qed.

Lemma get_next_less cursor b cursor' :
  get_next delta cursor = (Ok (Some b), cursor') -> length (view cursor') < length (view cursor).
Proof.
  unfold get_next, view. destruct (delta !! cursor) as [c|] eqn:E; [|done]. intros [= -> <-].
  apply lookup_lt_Some in E. rewrite !length_drop. lia.
Qed.

Lemma refines_size_in_memory fuel cursor size shift :
  Inv cursor -> (63 < shift + 7 * N.of_nat fuel)%N -> 0 < fuel ->
  refines cursor (read_delta_size_loop delta fuel size shift) (size_sem fuel size shift).
Proof.
  revert cursor size shift. induction fuel as [|fuel IH]; intros cursor size shift Hi Hf Hpos; [lia|].
  cbn [read_delta_size_loop size_sem].
  eapply refines_bind; [by apply refines_get_next|]. intros read c1 _ Hi1 _.
  eapply refines_bind; [apply refines_lift; [done|apply safe_ok_or]|]. intros b c2 _ Hi2 _. cbv zeta.
  destruct (N.land (u8 b) 128 =? 0)%N; [by apply refines_ret|].
  destruct (N.ltb_spec 63 (shift + 7)); [by apply refines_fail|].
  apply IH; [done|lia|]. destruct fuel; lia.
Qed.

Lemma refines_operands opcode base idxs v cursor :
  Inv cursor ->
  refines cursor (read_operands delta opcode base idxs v) (operands_sem opcode base idxs v).
Proof.
  revert v cursor. induction idxs as [|idx idxs IH]; intros v cursor Hi;
    cbn [read_operands operands_sem]; [by apply refines_ret|].
  destruct (has_bit opcode (base + idx)); [|by apply IH].
  pose proof (refines_get_next cursor Hi) as Hn. unfold refines_at in Hn |- *.
  unfold read_delta_byte, rbind, rlift, rret. destruct (get_next delta cursor) as [[read|?| |] c1]; [| |done..].
  - destruct Hn as (Hi1 & Hl & ->). destruct read as [b|]; cbn [ok_or fail]; [|by eexists _, _].
    specialize (IH (N.lor v (N.shiftl (u8 b) (idx * 8))) c1 Hi1). unfold refines_at in IH.
    destruct (read_operands _ _ _ _ _ _) as [[a|?| |] c2]; [|done..]. destruct IH as (? & ? & ?).
    split; [done|]. split; [lia|done].
  - intros Ht. destruct (Hn Ht) as (e' & t & ->). by eexists _, _.
Qed.

Lemma refines_insert cursor n : Inv cursor -> refines cursor (read_insert delta n) (take_bytes n).
Proof.
  intros Hi. unfold refines_at, read_insert, take_bytes, view, Inv in *. rewrite length_drop.
  destruct (checked_add cursor n) as [stop|] eqn:Ec.
  - apply checked_add_Some in Ec as [_ ->]. destruct (Nat.leb_spec n (length delta - cursor)) as [Hle|Hgt].
    + assert (Eg : get_range delta cursor (cursor + n) = Some (take n (drop cursor delta))).
      { apply get_range_Some. split; [lia|]. split; [lia|]. by replace (cursor + n - cursor) with n by lia. }
      rewrite Eg,  length_drop, drop_drop. split; [lia|]. split; [lia|done].
    + unfold get_range. rewrite bool_decide_false by lia. by eexists _, _.
  - intros _. rewrite (proj2 (Nat.leb_gt _ _)); [by eexists _, _|].
    unfold checked_add in Ec. destruct (N.ltb_spec (N.of_nat cursor + N.of_nat n) usize_limit); [done|lia].
Qed.

Lemma refines_loop_in_memory base max result_size fuel cursor out :
  Inv cursor -> length (view cursor) < fuel ->
  refines cursor (apply_delta_loop delta fuel base max result_size out)
                 (program_sem fuel base max result_size out).
Proof.
  revert cursor out. induction fuel as [|fuel IH]; intros cursor out Hi Hf; [lia|].
  cbn [apply_delta_loop program_sem].
  eapply refines_bind; [by apply refines_get_next|]. intros [b|] c1 E1 Hi1 _; [|by apply refines_ret].
  apply get_next_less in E1. cbv zeta. unfold instruction_sem.
  apply (refines_bind _ _ _ c1 _ _ _ (fun part => out <~ rlift (append_sem max result_size out part);
                                      program_sem fuel base max result_size out)).
  { destruct (N.land (u8 b) 128 =? 0)%N; cbn [negb].
    - destruct (u8 b =? 0)%N; cbn [negb]; [apply refines_fail|by apply refines_insert].
    - unfold read_delta_copy, copy_sem.
      eapply refines_bind.
      + eapply refines_bind; [by apply refines_operands|]. intros offset c2 _ Hi2 _.
        eapply refines_bind; [by apply refines_operands|]. intros size c3 _ Hi3 _. by apply refines_ret.
      + intros [offset size] c4 _ Hi4 _.
        eapply refines_bind; [apply refines_lift; [done|apply safe_ok_or]|]. intros stop c5 _ Hi5 _.
        apply refines_lift; [done|apply safe_ok_or]. }
  intros part c2 _ Hi2 Hl2.
  apply (refines_append view Inv True c2 max result_size out part
    (apply_delta_loop delta fuel base max result_size) (program_sem fuel base max result_size)).
  apply IH; [done|lia].
Qed.

Lemma apply_delta_refines base max :
  match apply_delta delta base max with
  | Ok out => delta_sem base max delta = Ok out
  | Err _ => exists e, delta_sem base max delta = Err e
  | _ => False
  end.
Proof.
  assert (Hr : refines 0 (apply_delta_run delta base max) (delta_run (S (length delta)) base max)).
  { unfold apply_delta_run, delta_run, read_delta_size.
    eapply refines_bind; [apply refines_size_in_memory; unfold Inv; lia|]. intros base_size c1 _ Hi1 _.
    eapply refines_bind; [apply refines_lift; [done|apply safe_check]|]. intros [] c2 _ Hi2 _.
    eapply refines_bind; [apply refines_size_in_memory; [done|lia|lia]|]. intros result_size c3 _ Hi3 Hl3.
    destruct (max <? result_size)%N eqn:Em; [apply refines_fail|]. eapply refines_lifted; [done|].
    eapply refines_skip; [unfold delta_result_initial_capacity; by rewrite Em|].
    eapply refines_bind; [apply refines_loop_in_memory; [done|unfold view; rewrite length_drop; lia]|].
    intros out c4 _ Hi4 _.
    eapply refines_bind; [apply refines_lift; [done|apply safe_check]|]. intros [] c5 _ Hi5 _.
    by apply refines_ret. }
  unfold refines_at in Hr. unfold apply_delta, delta_sem. change (view 0) with (drop 0 delta) in Hr.
  rewrite drop_0 in Hr. destruct (apply_delta_run delta base max 0) as [[out|e| |] c]; [..|done|done].
  - by destruct Hr as (_ & _ & ->).
  - destruct (Hr I) as (e' & t & ->). by exists e'.
Qed.
End in_memory_refines.

(** ** The hashing decoder hashes what the other one returns *)

(** A run followed by a computation on its value. *)
Definition map_run {S A B} (f : A -> outcome B) (m : outcome A * S) : outcome B * S :=
  (m.1 ≫= f, m.2).

Lemma hash_update_app h a b : hash_update (hash_update h a) b = hash_update h (a ++ b).
Proof. unfold hash_update. cbn. by rewrite app_assoc. Qed.

Section hashing_decoder.
Context {R : Type} `{Reader R} `{ShaLaws}.

Lemma hashing_loop fuel base expected max result_size h out (st : counted R) :
  apply_hashing_loop fuel base expected max result_size (hash_update h out) (length out) st
  = map_run (fun out => Ok (hash_update h out, length out))
      (apply_counted_loop fuel base expected max result_size out st).
Proof.
  revert out st. induction fuel as [|fuel IH]; intros out st; [done|].
  cbn [apply_hashing_loop apply_counted_loop]. unfold rbind.
  destruct (read_counted_delta_byte expected st) as [[[b|]|e| |] st1]; [|done..].
  destruct (read_instruction base expected (u8 b) st1) as [[part|e| |] st2]; [|done..].
  unfold rlift.
  destruct (checked_delta_result_len (length out) (length part) result_size) as [n|e| |] eqn:En; [|done..].
  apply checked_delta_result_len_Ok in En as [-> _]. cbv zeta. rewrite length_app, Nat.eqb_refl.
  cbn [assert]. destruct (check _ _ _) as [[]|e| |]; [|done..].
  rewrite hash_update_app, <- length_app. apply IH.
Qed.

Lemma hashing_agrees_run alg kind base expected max r :
  (max < usize_limit)%N ->
  apply_delta_hashing alg kind base expected max r
  = map_run (fun out => id ← hash_object alg kind out; Ok (id, length out))
      (apply_delta_from_counted_reader (R := R) base expected max r).
Proof.
  intros Hm. unfold apply_delta_hashing, apply_delta_from_counted_reader, apply_delta_counted, uncounted, rbind.
  destruct (read_delta_size_from_reader expected (r, 0%N)) as [[bs|e| |] st1]; [|by destruct st1..].
  unfold rlift. destruct (check (negb (bs =? _)%N) _ _) as [[]|e| |]; [|by destruct st1..].
  destruct (read_delta_size_from_reader expected st1) as [[rs|e| |] st2]; [|by destruct st2..].
  destruct (max <? rs)%N eqn:Er; cbn [check]; [by destruct st2|]. breflect.
  assert (Hcap : exists n, delta_result_initial_capacity max rs = Ok n).
  { unfold delta_result_initial_capacity. rewrite (proj2 (N.ltb_ge _ _)) by done. by eexists. }
  destruct Hcap as [cap ->].
  destruct (decimal_spec_exists rs) as [ds Hds].
  assert (Hh : forall h, update_header h kind (N.to_nat rs) = Ok (MkHash (hash_algorithm h)
    (hash_absorbed h ++ kind_as_bytes kind ++ " "%byte :: ds ++ [Byte.x00]))).
  { intros h. apply update_header_frame; rewrite N2Nat.id; [lia|done]. }
  rewrite Hh. set (h := MkHash _ _).
  pose proof (hashing_loop (S (N.to_nat expected)) base expected max rs h [] st2) as Hloop.
  assert (Hnil : hash_update h [] = h).
  { unfold hash_update, h. cbn [hash_algorithm hash_absorbed]. by rewrite app_nil_r. }
  rewrite Hnil in Hloop. cbn [length] in Hloop. rewrite Hloop. clear Hloop. unfold map_run at 1.
  destruct (apply_counted_loop _ _ _ _ _ _ _) as [[out|e| |] st3]; cbn [fst snd]; [|by destruct st3..].
  rewrite bind_Ok. unfold inflated_bytes.
  destruct (validate_packed_inflated_size expected st3.2) as [[]|e| |]; [|by destruct st3..].
  destruct (N.eqb_spec (N.of_nat (length out)) rs) as [Ee|Ee]; cbn [negb check]; [|by destruct st3].
  unfold map_run, rret. destruct st3 as [r3 i3]. cbn [fst snd]. rewrite bind_Ok.
  unfold hash_object. specialize (Hh (hash_new alg)). rewrite <- Ee, Nat2N.id in Hh. rewrite Hh, bind_Ok.
  fold h. rewrite hash_finalize_ok. done.
Qed.
End hashing_decoder.

(** The stream of a delta at a cursor. *)
Lemma apply_zlib_delta_from_cursor_whole {D} `{ZlibLaws D zlib_source inflated_rest} base max pre d t out :
  (N.of_nat (length d) <= max)%N -> (max < 2 ^ 64)%N -> delta_sem base max d = Ok out ->
  apply_zlib_delta_from_cursor (D := D) base (N.of_nat (length d)) max
    (MkCursor (pre ++ zlib_compress d ++ t) (N.of_nat (length pre)))
  = (Ok out, MkCursor (pre ++ zlib_compress d ++ t) (N.of_nat (length (pre ++ zlib_compress d)))).
Proof.
  intros Hd Hm Hsem. unfold apply_zlib_delta_from_cursor, zlib_content_capacity.
  rewrite (proj2 (N.ltb_ge max _)) by done. cbn [check]. rewrite bind_Ok.
  change (rbind (rlift (Ok ?a)) ?f ?x) with (f a x). cbv beta. apply decode_cursor_whole.
  pose proof (apply_streaming base (N.of_nat (length d)) max (zlib_new (zlib_compress d ++ t) : D)) as Ha.
  premise Ha; [lia|]. rewrite (zlib_inflates d t) in Ha.
  unfold apply_delta_from_counted_reader, uncounted in *.
  destruct (apply_delta_counted _ _ _ _) as [[out'|e| |] [d' i']] eqn:E; cbn [fst] in Ha; try done.
  - destruct Ha as (_ & _ & Ha). assert (out' = out) as -> by congruence. exists d'. split; [done|].
    apply (apply_delta_counted_end (fun d0 => zlib_source d0 = zlib_compress d ++ t)) in E as (r0 & Hs & E).
    + cbn [fst] in E. apply (zlib_consumed d t r0 1); [done|lia|done].
    + intros r n Hr. by rewrite zlib_source_read.
    + apply zlib_source_new.
  - destruct (Ha (zlib_total d t) eq_refl) as [e' Ha']. congruence.
Qed.

(** The two decoders over a cursor. *)
Lemma hashing_from_cursor_agrees {D} `{ZlibDecoder bytes D} `{ShaLaws} alg kind base expected max c :
  (max < usize_limit)%N ->
  apply_zlib_delta_hashing_from_cursor (D := D) alg kind base expected max c
  = map_run (fun out => id ← hash_object alg kind out; Ok (id, length out))
      (apply_zlib_delta_from_cursor (D := D) base expected max c).
Proof.
  intros Hm. unfold apply_zlib_delta_hashing_from_cursor, apply_zlib_delta_from_cursor, rbind, rlift.
  destruct (zlib_content_capacity max expected) as [cap|e| |] eqn:Ec; [|done..].
  unfold decode_cursor, map_run at 1. destruct (cursor_remaining c) as [left|e| |]; [|done..].
  rewrite hashing_agrees_run by done.
  pose proof (fun r : D => applied_all base expected max (r, 0%N)) as Hall.
  unfold apply_delta_from_counted_reader, uncounted in *.
  specialize (Hall (zlib_new left)).
  destruct (apply_delta_counted base expected max (zlib_new left, 0%N)) as [[out|e| |] [d i]]; [|done..].
  destruct (Hall out (d, i) eq_refl) as [_ Hout]. unfold map_run. cbn [fst snd]. rewrite !bind_Ok.
  destruct (hash_object_ok alg kind out) as (id & E & _); [lia|]. rewrite E. done.
Qed.

(** ** Properties *)

(** C32: the streaming decoder, over any reader, terminates without a panic; a result means that the
    reader held exactly the announced number of bytes, that the result respects the size limit, and
    that the reference decoder of the tests computes the same result from those bytes; and when
    the reader does not fail and holds what was announced, every result of the reference decoder is
    found. *)
Theorem apply_delta_streaming_agrees `{ReaderLaws R rest} base expected max r :
  (expected < 2 ^ 64)%N ->
  safe (apply_delta_from_counted_reader base expected max r).1 /\
  (forall out, (apply_delta_from_counted_reader base expected max r).1 = Ok out ->
     expected = N.of_nat (length (rest r)) /\ (N.of_nat (length out) <= max)%N /\
     apply_delta (rest r) base max = Ok out) /\
  (forall out, total_from r -> expected = N.of_nat (length (rest r)) ->
     apply_delta (rest r) base max = Ok out ->
     (apply_delta_from_counted_reader base expected max r).1 = Ok out).
Proof.
  intros Hx. pose proof (apply_streaming base expected max r Hx) as Hs.
  assert (Href : expected = N.of_nat (length (rest r)) ->
    match apply_delta (rest r) base max with
    | Ok out => delta_sem base max (rest r) = Ok out
    | Err _ => exists e, delta_sem base max (rest r) = Err e
    | _ => False
    end) by (intros ->; by apply apply_delta_refines).
  destruct (apply_delta_from_counted_reader base expected max r).1 as [out|e| |]; [| |done..].
  - destruct Hs as (Ee & Hm & Es). specialize (Href Ee). rewrite Es in Href.
    destruct (apply_delta (rest r) base max) as [out'|e'| |] eqn:Er; [|by destruct Href|done..].
    injection Href as <-. split; [done|]. split; [by intros ? [= <-]|]. by intros ? _ _ [= <-].
  - split; [done|]. split; [done|]. intros out Ht Ee Ea. destruct (Hs Ht Ee) as [e' Es].
    specialize (Href Ee). rewrite Ea, Es in Href. done.
Qed.

(** Hashing a delta's result while it is decoded gives the identifier and the length of the
    result that the other decoder materialises, with the same errors and the same movement of the
    cursor, whatever the decompressor does. *)
Theorem hashing_decoder_agrees {D} `{ZlibDecoder bytes D} `{ShaLaws} alg kind base expected max c :
  (max < usize_limit)%N ->
  apply_zlib_delta_hashing_from_cursor (D := D) alg kind base expected max c
  = map_run (fun out => id ← hash_object alg kind out; Ok (id, length out))
      (apply_zlib_delta_from_cursor (D := D) base expected max c).
Proof. apply hashing_from_cursor_agrees. Qed.

(** ** Witnesses *)

#[local] Existing Instances sample_sha sample_sha_laws.
#[local] Existing Instance marked_encoder.

(** Sizes 10 and 8; copy four bytes from 6; insert "!"; copy three bytes from 0. *)
Definition sample_delta : bytes :=
  [Byte.x0a; Byte.x08; Byte.x91; Byte.x06; Byte.x04; Byte.x01; "!"%byte; Byte.x90; Byte.x03].

Example sample_delta_applied :
  apply_delta sample_delta (bstr "0123456789") 1000 = Ok (bstr "6789!012").
Proof. vm_compute. reflexivity. Qed.

Lemma apply_delta_streaming_agrees_witness :
  (apply_delta_from_counted_reader (bstr "0123456789") 9 1000 (sample_delta : short_reader)).1
  = Ok (bstr "6789!012").
Proof.
  destruct (apply_delta_streaming_agrees (rest := fun r : short_reader => r) (bstr "0123456789") 9
    1000 sample_delta) as (_ & _ & Hok); [vm_compute; reflexivity|].
  apply Hok; [apply total_reader_from, short_reader_total|vm_compute; reflexivity|vm_compute; reflexivity].
Defined.

Lemma hashing_decoder_agrees_witness :
  apply_zlib_delta_hashing_from_cursor (D := MarkedDecoder) Sha1 Blob (bstr "0123456789") 9 1000
    (MkCursor (bstr "pack" ++ zlib_compress sample_delta ++ bstr "more") 4)
  = (id ← hash_object Sha1 Blob (bstr "6789!012"); Ok (id, 8),
     MkCursor (bstr "pack" ++ zlib_compress sample_delta ++ bstr "more") 23).
Proof.
  rewrite (hashing_decoder_agrees (D := MarkedDecoder)); [vm_compute; reflexivity|vm_compute; reflexivity].
Defined.
