(* ===== verification/DeltaWrite.v ===== *)
(** * Building deltas (zmin-git-core/src/pack.rs): common prefix and suffix copied, the middle
      inserted; the choice of a base for a packed object *)
From S2P Require Import Prelude Object Reader PackHeader DeltaRead.

(** ** Encoding *)

(** The loop of [write_delta_size]: a [u64] has at most ten groups of seven bits. *)
Fixpoint write_delta_size_loop (fuel : nat) (out : bytes) (size : N) : outcome bytes :=
  match fuel with
  | 0 => NoFuel
  | S fuel =>
      let byte := N.land size 127 in
      let size := N.shiftr size 7 in
      let byte := if negb (size =? 0)%N then N.lor byte 128 else byte in
      let out := out ++ [byte_of_N byte] in
      if (size =? 0)%N then Ok out else write_delta_size_loop fuel out size
  end.

Definition write_delta_size (out : bytes) (size : N) : outcome bytes :=
  write_delta_size_loop 10 out size.

(** The loops [for idx in ..] of [write_delta_copy]: the bytes of [value] that are not zero, in an
    array of seven, with their bits in the opcode. *)
Fixpoint copy_params (base : N) (idxs : list N) (value opcode : N) (params : bytes)
  : outcome (N * bytes) :=
  match idxs with
  | [] => Ok (opcode, params)
  | idx :: idxs =>
      let byte := N.land (N.shiftr value (idx * 8)) 255 in
      if negb (byte =? 0)%N then
        params ← push_array 7 params byte;
        copy_params base idxs value (N.lor opcode (N.shiftl 1 (base + idx))) params
      else copy_params base idxs value opcode params
  end.

(** The opcode and the operands of one chunk. *)
Definition chunk_opcode (offset chunk : N) : outcome (N * bytes) :=
  '(opcode, params) ← copy_params 0 [0; 1; 2; 3]%N offset 128 [];
  if negb (chunk =? 65536)%N then copy_params 4 [0; 1; 2]%N chunk opcode params
  else Ok (opcode, params).

Fixpoint write_delta_copy_loop (fuel : nat) (out : bytes) (offset size : N) : outcome bytes :=
  if (size =? 0)%N then Ok out else
  match fuel with
  | 0 => NoFuel
  | S fuel =>
      let chunk_size := N.min size 65536 in
      '(opcode, params) ← chunk_opcode offset chunk_size;
      offset ← unwrap (checked_addN offset chunk_size);
      write_delta_copy_loop fuel (out ++ byte_of_N opcode :: params) offset (size - chunk_size)%N
  end.

Definition write_delta_copy (out : bytes) (offset size : N) : outcome bytes :=
  write_delta_copy_loop (S (N.to_nat (size / 65536))) out offset size.

Fixpoint write_delta_insert_loop (fuel : nat) (out content : bytes) : outcome bytes :=
  match content with
  | [] => Ok out
  | _ =>
      match fuel with
      | 0 => NoFuel
      | S fuel =>
          let chunk_size := Nat.min (length content) 127 in
          write_delta_insert_loop fuel
            (out ++ byte_of_N (N.of_nat chunk_size) :: take chunk_size content)
            (drop chunk_size content)
      end
  end.

Definition write_delta_insert (out content : bytes) : outcome bytes :=
  write_delta_insert_loop (length content) out content.

(** ** Lengths *)

Fixpoint delta_size_len_loop (fuel : nat) (len size : N) : outcome N :=
  if (size <? 128)%N then Ok len else
  match fuel with
  | 0 => NoFuel
  | S fuel => delta_size_len_loop fuel (len + 1)%N (N.shiftr size 7)
  end.

Definition delta_size_len (size : N) : outcome N := delta_size_len_loop 9 1 size.

(** [len += usize::from((value >> (idx * 8)) & 0xff != 0)] for the bytes [idxs]. *)
Fixpoint count_params (idxs : list N) (value len : N) : N :=
  match idxs with
  | [] => len
  | idx :: idxs =>
      count_params idxs value
        (len + if (N.land (N.shiftr value (idx * 8)) 255 =? 0)%N then 0 else 1)%N
  end.

Fixpoint delta_copy_len_loop (fuel : nat) (len offset size : N) : outcome N :=
  if (size =? 0)%N then Ok len else
  match fuel with
  | 0 => NoFuel
  | S fuel =>
      let chunk_size := N.min size 65536 in
      let len := (len + 1)%N in
      let len := count_params [0; 1; 2; 3]%N offset len in
      let len := if negb (chunk_size =? 65536)%N then count_params [0; 1; 2]%N chunk_size len
                 else len in
      offset ← unwrap (checked_addN offset chunk_size);
      delta_copy_len_loop fuel len offset (size - chunk_size)%N
  end.

Definition delta_copy_len (offset size : N) : outcome N :=
  delta_copy_len_loop (S (N.to_nat (size / 65536))) 0 offset size.

(** [insert_len.div_ceil(127)] *)
Definition delta_insert_len (insert_len : N) : N :=
  if (insert_len =? 0)%N then 0 else insert_len + (insert_len + 126) / 127.

Definition replacement_delta_encoded_len (base_len replacement_len prefix suffix : N) : outcome N :=
  rest ← unwrap (checked_subN replacement_len suffix);
  insert_len ← unwrap (checked_subN rest prefix);
  offset ← unwrap (checked_subN base_len suffix);
  a ← delta_size_len base_len;
  b ← delta_size_len replacement_len;
  c ← delta_copy_len 0 prefix;
  d ← delta_copy_len offset suffix;
  Ok (a + b + c + delta_insert_len insert_len + d)%N.

(** ** The plan *)

Fixpoint common_prefix_len (l r : bytes) : nat :=
  match l, r with
  | a :: l, b :: r => if Byte.eqb a b then S (common_prefix_len l r) else 0
  | _, _ => 0
  end.

Definition common_suffix_len (l r : bytes) : nat := common_prefix_len (rev l) (rev r).

Record ReplacementDeltaPlan : Set := MkPlan {
  plan_prefix : nat;
  plan_suffix : nat;
  plan_insert_end : nat;
  plan_delta_len : N
}.

Definition replacement_delta_plan_if_better (base replacement : bytes) (max_delta_len : N)
  : outcome (option ReplacementDeltaPlan) :=
  let prefix := common_prefix_len base replacement in
  b ← slice base prefix (length base);
  r ← slice replacement prefix (length replacement);
  let suffix := common_suffix_len b r in
  insert_end ← unwrap (checked_subN (N.of_nat (length replacement)) (N.of_nat suffix));
  delta_len ← replacement_delta_encoded_len (N.of_nat (length base)) (N.of_nat (length replacement))
                (N.of_nat prefix) (N.of_nat suffix);
  if (max_delta_len <=? delta_len)%N then Ok None
  else Ok (Some (MkPlan prefix suffix (N.to_nat insert_end) delta_len)).

Definition build_replacement_delta (base replacement : bytes) (plan : ReplacementDeltaPlan)
  : outcome bytes :=
  delta ← write_delta_size [] (N.of_nat (length base));
  delta ← write_delta_size delta (N.of_nat (length replacement));
  delta ← (if 0 <? plan_prefix plan then write_delta_copy delta 0 (N.of_nat (plan_prefix plan))
           else Ok delta);
  middle ← slice replacement (plan_prefix plan) (plan_insert_end plan);
  delta ← write_delta_insert delta middle;
  if 0 <? plan_suffix plan then
    offset ← unwrap (checked_subN (N.of_nat (length base)) (N.of_nat (plan_suffix plan)));
    write_delta_copy delta offset (N.of_nat (plan_suffix plan))
  else Ok delta.

Definition build_replacement_delta_if_smaller (base replacement : bytes)
  : outcome (option bytes) :=
  plan ← replacement_delta_plan_if_better base replacement (N.of_nat (length replacement));
  match plan with
  | None => Ok None
  | Some plan => delta ← build_replacement_delta base replacement plan; Ok (Some delta)
  end.

(** ** Sizes *)

Lemma write_delta_size_loop_Ok fuel out n :
  (n < 2 ^ (7 * N.of_nat fuel))%N -> 0 < fuel ->
  write_delta_size_loop fuel out n = Ok (out ++ leb fuel n).
Proof.
  revert out n. induction fuel as [|fuel IH]; intros out n Hn Hf; [lia|].
  cbn [write_delta_size_loop leb]. rewrite land_127, shiftr_7, div_128_zero.
  destruct (N.ltb_spec n 128) as [Hlt|Hge]; cbn [negb].
  - by rewrite N.mod_small.
  - rewrite lor_128 by (by apply N.mod_lt). rewrite IH; [by rewrite <- app_assoc| |].
    + apply N.Div0.div_lt_upper_bound.
      replace (7 * N.of_nat (S fuel))%N with (7 + 7 * N.of_nat fuel)%N in Hn by lia.
      by rewrite N.pow_add_r in Hn.
    + destruct fuel; [|lia]. cbn in Hn. lia.
Qed.

Lemma delta_size_len_Ok fuel len n :
  (n < 2 ^ (7 * N.of_nat (S fuel)))%N ->
  delta_size_len_loop fuel (len + 1) n = Ok (len + N.of_nat (length (leb (S fuel) n)))%N.
Proof.
  revert len n. induction fuel as [|fuel IH]; intros len n Hn; cbn [delta_size_len_loop].
  - change (n < 128)%N in Hn. cbn [leb]. rewrite (proj2 (N.ltb_lt n 128) Hn). done.
  - remember (S fuel) as f. cbn [leb]. subst f. destruct (N.ltb_spec n 128) as [Hlt|Hge]; [done|].
    rewrite shiftr_7, IH; [cbn [length]; f_equal; lia|]. apply N.Div0.div_lt_upper_bound.
    replace (7 * N.of_nat (S (S fuel)))%N with (7 + 7 * N.of_nat (S fuel))%N in Hn by lia.
    by rewrite N.pow_add_r in Hn.
Qed.

(** The semantics reads back a size. *)
Lemma size_sem_leb fuel n size shift t :
  (n < 2 ^ (7 * N.of_nat fuel))%N -> (shift + 7 * N.of_nat fuel <= 70)%N -> 0 < fuel ->
  (size < 2 ^ shift)%N -> (size + n * 2 ^ shift < 2 ^ 64)%N ->
  size_sem fuel size shift (leb fuel n ++ t) = (Ok (size + n * 2 ^ shift)%N, t).
Proof.
  revert n size shift. induction fuel as [|fuel IH]; intros n size shift Hn Hsh Hf Hs Hv; [lia|].
  cbn [size_sem leb]. destruct (add_group size n shift Hs Hv) as (E1 & E2 & E3).
  destruct (N.ltb_spec n 128) as [Hlt|Hge]; cbn [app];
    unfold rbind, rlift, next_byte; cbn [head tail ok_or]; cbv zeta.
  - rewrite u8_leb_last by done. rewrite flag_bit by lia. rewrite (proj2 (N.ltb_lt _ _) Hlt).
    rewrite land_127, E1. unfold rret. do 2 f_equal. by rewrite N.mod_small.
  - rewrite u8_leb_more, payload_more, E1. pose proof (N.mod_lt n 128).
    rewrite flag_bit by lia. rewrite (proj2 (N.ltb_ge _ 128)) by lia.
    destruct (N.ltb_spec 63 (shift + 7)) as [Hb|Hb].
    { exfalso. assert (2 ^ 57 <= 2 ^ shift)%N by (apply N.pow_le_mono_r; lia).
      change (2 ^ 57)%N with 144115188075855872%N in *. change (2 ^ 64)%N with 18446744073709551616%N in *. nia. }
    rewrite IH; [by rewrite E3| |lia| |done|lia].
    + apply N.Div0.div_lt_upper_bound.
      replace (7 * N.of_nat (S fuel))%N with (7 + 7 * N.of_nat fuel)%N in Hn by lia.
      by rewrite N.pow_add_r in Hn.
    + destruct fuel; [|lia]. cbn in Hn. lia.
Qed.

Lemma size_sem_size n t : (n < 2 ^ 64)%N -> size_sem 10 0 0 (leb 10 n ++ t) = (Ok n, t).
Proof.
  intros Hn. rewrite size_sem_leb; [by rewrite N.pow_0_r, N.mul_1_r| |done|lia|done|].
  - eapply N.lt_trans; [exact Hn|done].
  - by rewrite N.pow_0_r, N.mul_1_r.
Qed.

(** ** Opcodes of copies *)

Lemma has_bit_testbit opcode idx : has_bit opcode idx = N.testbit opcode idx.
Proof.
  unfold has_bit. destruct (N.testbit opcode idx) eqn:E.
  - apply negb_true_iff, N.eqb_neq. intros Hz. apply (f_equal (fun n => N.testbit n idx)) in Hz.
    rewrite N.land_spec, E, N.shiftl_spec_high, N.sub_diag, N.bits_0 in Hz by lia. done.
  - apply negb_false_iff, N.eqb_eq, N.bits_inj. intros n. rewrite N.land_spec, N.bits_0.
    destruct (decide (n = idx)) as [->|Hne]; [by rewrite E|]. apply andb_false_iff. right.
    rewrite N.shiftl_1_l. by apply N.pow2_bits_false.
Qed.

Lemma lor_lt_pow2 a b n : (a < 2 ^ n -> b < 2 ^ n -> N.lor a b < 2 ^ n)%N.
Proof.
  intros Ha Hb. destruct (N.eq_dec (N.lor a b) 0%N) as [->|Hz]; [lia|].
  apply N.log2_lt_pow2; [lia|]. rewrite N.log2_lor. apply N.max_lub_lt.
  - destruct (N.eq_dec a 0%N) as [->|]; [|apply N.log2_lt_pow2; lia].
    cbn. destruct (N.eq_dec n 0%N) as [->|]; [|lia]. change (2 ^ 0)%N with 1%N in *.
    assert (b = 0)%N as -> by lia. done.
  - destruct (N.eq_dec b 0%N) as [->|]; [|apply N.log2_lt_pow2; lia].
    cbn. destruct (N.eq_dec n 0%N) as [->|]; [|lia]. change (2 ^ 0)%N with 1%N in *.
    assert (a = 0)%N as -> by lia. by rewrite N.lor_0_r in Hz.
Qed.

(** The byte [idx] of a value. *)
Definition byte_at (value idx : N) : N := N.land (N.shiftr value (idx * 8)) 255.

Definition join_bytes (idxs : list N) (value acc : N) : N :=
  fold_left (fun acc idx => N.lor acc (N.shiftl (byte_at value idx) (idx * 8))) idxs acc.

Lemma byte_at_lt value idx : (byte_at value idx < 256)%N.
Proof. unfold byte_at. rewrite (N.land_ones _ 8). by apply N.mod_lt. Qed.

(** What [copy_params] writes: the bit of a byte is set exactly when the byte is written, and the
    operands read back. *)
Lemma copy_params_Ok base idxs value opcode params :
  length params + length idxs <= 7 -> NoDup idxs ->
  exists opcode' ps,
    copy_params base idxs value opcode params = Ok (opcode', params ++ ps) /\
    N.of_nat (length ps) = count_params idxs value 0 /\
    (forall i, N.testbit opcode' i
               = N.testbit opcode i || existsb (fun idx => (base + idx =? i) && negb (byte_at value idx =? 0))%N idxs) /\
    (forall op acc t,
       Forall (fun idx => has_bit op (base + idx) = negb (byte_at value idx =? 0)%N) idxs ->
       operands_sem op base idxs acc (ps ++ t) = (Ok (join_bytes idxs value acc), t)).
Proof.
  revert opcode params. induction idxs as [|idx idxs IH]; intros opcode params Hl Hnd.
  { exists opcode, []. cbn. rewrite app_nil_r. split; [done|]. split; [done|].
    split; [intros i; by rewrite orb_false_r|done]. }
  cbn [copy_params count_params length] in *. apply NoDup_cons in Hnd as [Hni Hnd].
  change (N.land (N.shiftr value (idx * 8)) 255) with (byte_at value idx).
  assert (Hcount : forall k len, count_params k value len = (len + count_params k value 0)%N).
  { clear. intros k. induction k as [|i k IH]; intros len; cbn [count_params]; [lia|].
    rewrite IH, (IH (0 + _)%N). lia. }
  destruct (N.eqb_spec (byte_at value idx) 0) as [Ez|Ez]; cbn [negb].
  - destruct (IH opcode params) as (op' & ps & E & Hlen & Hbits & Hread); [lia|done|].
    exists op', ps. split; [done|]. split; [by rewrite Hcount|]. split.
    + intros i. rewrite Hbits. cbn [existsb]. by rewrite Ez, andb_false_r.
    + intros op acc t [Hop1 Hop]%Forall_cons. cbn [operands_sem]. rewrite Hop1, Ez. cbn [N.eqb negb].
      rewrite Hread by done. unfold join_bytes. cbn [fold_left].
      by rewrite Ez, N.shiftl_0_l, N.lor_0_r.
  - unfold push_array. rewrite (proj2 (Nat.ltb_lt _ _)) by lia. rewrite bind_Ok.
    destruct (IH (N.lor opcode (N.shiftl 1 (base + idx))) (params ++ [byte_of_N (byte_at value idx)]))
      as (op' & ps & E & Hlen & Hbits & Hread); [rewrite length_app; cbn [length]; lia|done|].
    exists op', (byte_of_N (byte_at value idx) :: ps). rewrite E, <- app_assoc. split; [done|].
    split; [rewrite Hcount; cbn [length]; lia|]. split.
    + intros i. rewrite Hbits, N.lor_spec, N.shiftl_1_l, N.pow2_bits_eqb. cbn [existsb].
      rewrite (proj2 (N.eqb_neq _ _) Ez). cbn [negb]. rewrite andb_true_r. by rewrite orb_assoc.
    + intros op acc t [Hop1 Hop]%Forall_cons. cbn [operands_sem]. rewrite Hop1.
      rewrite (proj2 (N.eqb_neq _ _) Ez). cbn [negb app]. unfold rbind, rlift, next_byte.
      cbn [head tail ok_or]. rewrite Hread by done.
      rewrite u8_byte_of_N, N.mod_small by apply byte_at_lt. done.
Qed.

Lemma join_step value acc idx :
  acc = (value mod 2 ^ (idx * 8))%N ->
  N.lor acc (N.shiftl (byte_at value idx) (idx * 8)) = (value mod 2 ^ ((idx + 1) * 8))%N.
Proof.
  intros ->. rewrite lor_high by (by apply N.mod_lt, N.pow_nonzero).
  replace ((idx + 1) * 8)%N with (idx * 8 + 8)%N by lia. rewrite N.pow_add_r, N.Div0.mod_mul_r.
  unfold byte_at. rewrite (N.land_ones _ 8), N.shiftr_div_pow2. lia.
Qed.

Lemma join_offset value : (value < 2 ^ 32)%N -> join_bytes [0; 1; 2; 3]%N value 0 = value.
Proof.
  intros Hv. unfold join_bytes. cbn [fold_left].
  rewrite (join_step value 0 0), (join_step value _ 1), (join_step value _ 2), (join_step value _ 3);
    [by apply N.mod_small|done..|]. by rewrite N.mod_1_r.
Qed.

Lemma join_size value : (value < 2 ^ 24)%N -> join_bytes [0; 1; 2]%N value 0 = value.
Proof.
  intros Hv. unfold join_bytes. cbn [fold_left].
  rewrite (join_step value 0 0), (join_step value _ 1), (join_step value _ 2);
    [by apply N.mod_small|done..|]. by rewrite N.mod_1_r.
Qed.

Lemma count_params_acc idxs value len :
  count_params idxs value len = (len + count_params idxs value 0)%N.
Proof.
  revert len. induction idxs as [|i k IH]; intros len; cbn [count_params]; [lia|].
  rewrite IH, (IH (0 + _)%N). lia.
Qed.

(** How many operands a chunk has. *)
Definition chunk_params (offset chunk : N) : N :=
  let len := count_params [0; 1; 2; 3]%N offset 0 in
  if negb (chunk =? 65536)%N then count_params [0; 1; 2]%N chunk len else len.

(** The operand bytes of the size: none for the largest chunk. *)
Lemma size_params chunk op1 ps1 :
  (0 < chunk <= 65536)%N -> length ps1 <= 4 ->
  (forall i, (4 <= i)%N -> N.testbit op1 i = (i =? 7)%N) ->
  exists op ps2,
    (if negb (chunk =? 65536)%N then copy_params 4 [0; 1; 2]%N chunk op1 ps1 else Ok (op1, ps1))
    = Ok (op, ps1 ++ ps2) /\
    N.of_nat (length ps2) = (if negb (chunk =? 65536)%N then count_params [0; 1; 2]%N chunk 0 else 0)%N /\
    (forall i, (i < 4 \/ 7 <= i)%N -> N.testbit op i = N.testbit op1 i) /\
    forall t, exists size, operands_sem op 4 [0; 1; 2]%N 0 (ps2 ++ t) = (Ok size, t) /\
      (if (size =? 0)%N then 65536%N else size) = chunk.
Proof.
  intros Hc Hl Hop1. destruct (N.eqb_spec chunk 65536) as [->|Hne]; cbn [negb].
  - exists op1, []. rewrite app_nil_r. split; [done|]. split; [done|]. split; [done|].
    intros t. exists 0%N. split; [|done]. cbn [operands_sem app].
    rewrite !has_bit_testbit, !Hop1 by lia. done.
  - destruct (copy_params_Ok 4 [0; 1; 2]%N chunk op1 ps1) as (op2 & ps2 & E2 & L2 & B2 & R2);
      [cbn [length]; lia|apply (bool_decide_unpack _); vm_compute; exact I|].
    exists op2, ps2. split; [done|]. split; [done|]. split.
    + intros i Hi. rewrite B2. cbn [existsb]. rewrite !(proj2 (N.eqb_neq _ i)) by lia.
      by rewrite orb_false_r.
    + intros t. exists chunk. split; [|by rewrite (proj2 (N.eqb_neq chunk 0)) by lia].
      rewrite R2; [by rewrite join_size by (cbn; lia)|].
      repeat apply Forall_cons_2; [..|apply Forall_nil_2]; rewrite has_bit_testbit, B2, Hop1 by lia;
        cbn; by repeat destruct (_ =? 0)%N.
Qed.

(** The operands of one copy, and what they do. *)
Lemma copy_chunk base offset chunk :
  (offset < 2 ^ 32)%N -> (0 < chunk <= 65536)%N -> (offset + chunk <= N.of_nat (length base))%N ->
  exists opcode ps,
    chunk_opcode offset chunk = Ok (opcode, ps) /\
    N.of_nat (length ps) = chunk_params offset chunk /\
    forall t, instruction_sem base (u8 (byte_of_N opcode)) (ps ++ t)
              = (Ok (take (N.to_nat chunk) (drop (N.to_nat offset) base)), t).
Proof.
  intros Ho Hc Hb. unfold chunk_opcode, chunk_params. cbv zeta.
  destruct (copy_params_Ok 0 [0; 1; 2; 3]%N offset 128 []) as (op1 & ps1 & E1 & L1 & B1 & R1);
    [cbn; lia|apply (bool_decide_unpack _); vm_compute; exact I|].
  rewrite E1, bind_Ok. cbn [app] in *.
  assert (Hlen1 : length ps1 <= 4).
  { assert (Hle : (count_params [0; 1; 2; 3]%N offset 0 <= 4)%N); [|lia].
    cbn [count_params]. repeat destruct (_ =? 0)%N; done. }
  destruct (size_params chunk op1 ps1 Hc Hlen1) as (op & ps2 & E2 & L2 & B2 & R2).
  { intros i Hi. rewrite B1, (N.pow2_bits_eqb 7), (N.eqb_sym 7). cbn [existsb].
    rewrite !(proj2 (N.eqb_neq _ i)) by lia. by rewrite orb_false_r. }
  exists op, (ps1 ++ ps2). split; [done|]. split.
  { rewrite length_app, Nat2N.inj_add, L1, L2. destruct (chunk =? 65536)%N; cbn [negb]; [lia|].
    by rewrite (count_params_acc [0; 1; 2]%N chunk (count_params [0; 1; 2; 3]%N offset 0)). }
  intros t. assert (Hlt : (op < 256)%N).
  { destruct (N.lt_ge_cases op 256) as [|Hge]; [done|]. exfalso.
    assert (Hlog : (8 <= N.log2 op)%N) by (apply N.log2_le_pow2; [lia|done]).
    pose proof (N.bit_log2 op) as Hbit. rewrite B2, B1, (N.pow2_bits_eqb 7) in Hbit by lia.
    cbn [existsb] in Hbit. rewrite !(proj2 (N.eqb_neq _ (N.log2 op))) in Hbit by lia.
    cbn in Hbit. specialize (Hbit ltac:(lia)). done. }
  rewrite u8_byte_of_N, N.mod_small by done. unfold instruction_sem.
  assert (Hflag : negb (N.land op 128 =? 0)%N = true).
  { change (negb (N.land op 128 =? 0)%N) with (has_bit op 7). by rewrite has_bit_testbit, B2, B1 by lia. }
  rewrite Hflag. unfold copy_sem. destruct (R2 t) as (size & Es & Ec).
  assert (Ho1 : operands_sem op 0 [0; 1; 2; 3]%N 0 ((ps1 ++ ps2) ++ t) = (Ok offset, ps2 ++ t)).
  { rewrite <- app_assoc, R1; [by rewrite join_offset|].
    repeat apply Forall_cons_2; [..|apply Forall_nil_2]; rewrite has_bit_testbit, B2, B1 by lia;
      cbn; by repeat destruct (_ =? 0)%N. }
  unfold rbind at 1. unfold rbind at 1. rewrite Ho1. unfold rbind at 1. rewrite Es. unfold rret at 1.
  rewrite Ec. unfold rbind, rlift, checked_addN.
  rewrite (proj2 (N.ltb_lt _ _)) by (unfold usize_limit; cbn; lia). cbn [ok_or].
  unfold get_copy, get_range. rewrite bool_decide_true by lia. cbn [ok_or]. do 3 f_equal. lia.
Qed.

(** ** What the written instructions do *)

(** The bytes [enc] append [part] to the result, whatever follows. *)
Definition emits (base enc part : bytes) : Prop :=
  exists n, n <= length enc /\ forall fuel max result_size out t,
    (N.of_nat (length out + length part) <= result_size)%N -> (result_size <= max)%N ->
    (result_size < usize_limit)%N ->
    program_sem (n + fuel) base max result_size out (enc ++ t)
    = program_sem fuel base max result_size (out ++ part) t.

Lemma emits_nil base : emits base [] [].
Proof. exists 0. split; [done|]. intros. by rewrite app_nil_r. Qed.

Lemma emits_app base e1 p1 e2 p2 :
  emits base e1 p1 -> emits base e2 p2 -> emits base (e1 ++ e2) (p1 ++ p2).
Proof.
  intros (n1 & L1 & H1) (n2 & L2 & H2). exists (n1 + n2). rewrite length_app. split; [lia|].
  intros fuel max result_size out t Hr Hm Hl. rewrite length_app in Hr.
  rewrite <- Nat.add_assoc, <- app_assoc, H1, H2, <- app_assoc; [done|..]; try done; try lia.
  rewrite length_app. lia.
Qed.

(** One instruction. *)
Lemma emits_one base opcode enc part :
  (forall t, instruction_sem base (u8 opcode) (enc ++ t) = (Ok part, t)) ->
  emits base (opcode :: enc) part.
Proof.
  intros Hi. exists 1. cbn [length]. split; [lia|]. intros fuel max result_size out t Hr Hm Hl.
  cbn [Nat.add program_sem app]. unfold rbind at 1, next_byte. cbn [head tail].
  unfold rbind at 1. rewrite Hi. unfold rbind at 1, rlift, append_sem, checked_delta_result_len.
  rewrite checked_add_fits by lia. cbn [ok_or]. rewrite bind_Ok, length_app.
  rewrite (proj2 (N.ltb_ge result_size _)) by lia. cbn [check]. rewrite !bind_Ok.
  rewrite (proj2 (N.ltb_ge max _)) by lia. done.
Qed.

(** The semantics of a whole program. *)
Lemma delta_sem_emits base enc result max :
  (N.of_nat (length base) < 2 ^ 64)%N -> (N.of_nat (length result) < 2 ^ 64)%N ->
  (N.of_nat (length result) <= max)%N -> emits base enc result ->
  delta_sem base max (leb 10 (N.of_nat (length base)) ++ leb 10 (N.of_nat (length result)) ++ enc)
  = Ok result.
Proof.
  intros Hb Hr Hm (n & Hn & He). unfold delta_sem, delta_run.
  set (k := length (_ ++ _)).
  assert (Hk : length enc <= k) by (unfold k; rewrite !length_app; lia). clearbody k.
  rewrite (rbind_Ok _ _ _ _ _ (size_sem_size _ _ Hb)), N.eqb_refl.
  rewrite (rbind_Ok (rlift _) _ _ tt (leb 10 (N.of_nat (length result)) ++ enc)) by done.
  rewrite (rbind_Ok _ _ _ _ _ (size_sem_size _ _ Hr)), (proj2 (N.ltb_ge max _)) by lia.
  rewrite (rbind_Ok (rlift _) _ _ tt enc) by done.
  assert (Hp : program_sem (S k) base max (N.of_nat (length result)) [] enc = (Ok result, [])).
  { replace (S k) with (n + S (k - n)) by lia. rewrite <- (app_nil_r enc).
    rewrite He; [done|cbn [length]; lia|lia|done]. }
  rewrite (rbind_Ok _ _ _ _ _ Hp), N.eqb_refl. done.
Qed.

Lemma write_delta_copy_loop_Ok base fuel out len offset size :
  (offset + size <= 2 ^ 32)%N -> (offset + size <= N.of_nat (length base))%N ->
  (size <= 65536 * N.of_nat fuel)%N ->
  exists enc,
    write_delta_copy_loop fuel out offset size = Ok (out ++ enc) /\
    delta_copy_len_loop fuel len offset size = Ok (len + N.of_nat (length enc))%N /\
    emits base enc (take (N.to_nat size) (drop (N.to_nat offset) base)).
Proof.
  revert out len offset size. induction fuel as [|fuel IH]; intros out len offset size Ho Hb Hf;
    cbn [write_delta_copy_loop delta_copy_len_loop]; (destruct (N.eqb_spec size 0) as [->|Hz]; [|try lia]).
  1-2: exists []; rewrite app_nil_r; split; [done|]; split; [cbn [length]; f_equal; lia|]; apply emits_nil.
  set (chunk := N.min size 65536).
  destruct (copy_chunk base offset chunk) as (op & ps & E & L & Hi); [lia..|].
  rewrite E, bind_Ok. unfold checked_addN.
  rewrite (proj2 (N.ltb_lt (offset + chunk) _)) by (unfold usize_limit; lia). cbn [unwrap]. rewrite !bind_Ok.
  destruct (IH (out ++ byte_of_N op :: ps)
    (if negb (chunk =? 65536)%N
     then count_params [0; 1; 2]%N chunk (count_params [0; 1; 2; 3]%N offset (len + 1)%N)
     else count_params [0; 1; 2; 3]%N offset (len + 1)%N)
    (offset + chunk)%N (size - chunk)%N) as (enc & E1 & E2 & He); [lia..|].
  exists (byte_of_N op :: ps ++ enc). rewrite E1, E2. split; [by rewrite <- app_assoc|]. split.
  { f_equal. cbn [length]. rewrite length_app. unfold chunk_params in L. destruct (negb (chunk =? 65536)%N).
    - rewrite (count_params_acc [0; 1; 2]%N chunk (count_params [0; 1; 2; 3]%N offset 0)) in L.
      rewrite (count_params_acc [0; 1; 2]%N chunk (count_params [0; 1; 2; 3]%N offset (len + 1))).
      rewrite (count_params_acc _ offset (len + 1)). lia.
    - rewrite (count_params_acc _ offset (len + 1)). lia. }
  replace (take (N.to_nat size) (drop (N.to_nat offset) base)) with
    (take (N.to_nat chunk) (drop (N.to_nat offset) base) ++
     take (N.to_nat (size - chunk)) (drop (N.to_nat (offset + chunk)) base)).
  { apply (emits_app base (byte_of_N op :: ps) _ enc); [by apply emits_one|exact He]. }
  rewrite N2Nat.inj_add, <- drop_drop, take_take_drop. f_equal. lia.
Qed.

Lemma write_delta_insert_loop_Ok base fuel out content :
  length content <= fuel ->
  exists enc, write_delta_insert_loop fuel out content = Ok (out ++ enc) /\
    N.of_nat (length enc) = delta_insert_len (N.of_nat (length content)) /\
    emits base enc content.
Proof.
  revert out content. induction fuel as [|fuel IH]; intros out content Hf.
  { destruct content; [|cbn in Hf; lia]. exists []. rewrite app_nil_r. split; [done|]. split; [done|]. apply emits_nil. }
  cbn [write_delta_insert_loop]. destruct content as [|c content'] eqn:Ec.
  { exists []. rewrite app_nil_r. split; [done|]. split; [done|]. apply emits_nil. }
  rewrite <- Ec in *. set (n := Nat.min (length content) 127).
  assert (Hpos : 0 < length content) by (rewrite Ec; cbn; lia).
  destruct (IH (out ++ byte_of_N (N.of_nat n) :: take n content) (drop n content)) as (enc & E & L & He);
    [rewrite length_drop; lia|].
  exists (byte_of_N (N.of_nat n) :: take n content ++ enc). rewrite E. split; [by rewrite <- app_assoc|].
  split.
  - cbn [length]. rewrite length_app, length_take_le, Nat2N.inj_succ, Nat2N.inj_add, L, length_drop by lia.
    unfold delta_insert_len. rewrite (proj2 (N.eqb_neq (N.of_nat (length content)) 0)) by lia.
    destruct (N.eqb_spec (N.of_nat (length content - n)) 0); lia_mod.
  - rewrite <- (take_drop n content) at 2.
    apply (emits_app base (_ :: take n content) _ enc); [|exact He]. apply emits_one. intros t.
    rewrite u8_byte_of_N, N.mod_small by lia. unfold instruction_sem.
    rewrite flag_bit, (proj2 (N.ltb_lt _ 128)) by lia. cbn [negb].
    rewrite (proj2 (N.eqb_neq _ 0)) by lia. cbn [negb]. unfold take_bytes. rewrite Nat2N.id.
    assert (Hl : length (take n content) = n) by (rewrite length_take; lia).
    rewrite (proj2 (Nat.leb_le _ _)) by (rewrite length_app; lia).
    rewrite <- Hl at 1 3. by rewrite take_app_length, drop_app_length.
Qed.

(** ** The plan *)

Lemma common_prefix_len_spec l r :
  common_prefix_len l r <= length l /\ common_prefix_len l r <= length r /\
  take (common_prefix_len l r) l = take (common_prefix_len l r) r.
Proof.
  revert r. induction l as [|a l IH]; intros [|b r]; cbn [common_prefix_len length take]; try (split; [lia|]; split; [lia|done]).
  destruct (byte_eqb_spec a b) as [->|]; [|split; [lia|]; split; [lia|done]].
  destruct (IH r) as (? & ? & E). split; [lia|]. split; [lia|]. cbn [take]. by rewrite E.
Qed.

Lemma common_suffix_len_spec l r :
  common_suffix_len l r <= length l /\ common_suffix_len l r <= length r /\
  drop (length l - common_suffix_len l r) l = drop (length r - common_suffix_len l r) r.
Proof.
  unfold common_suffix_len. destruct (common_prefix_len_spec (rev l) (rev r)) as (Hl & Hr & E).
  rewrite !length_rev in *. split; [done|]. split; [done|].
  apply (f_equal (@rev byte)) in E. rewrite !firstn_rev, !rev_involutive in E. exact E.
Qed.

(** Prefix, inserted middle and suffix of the replacement, found in the base. *)
Lemma plan_split base replacement :
  let p := common_prefix_len base replacement in
  let s := common_suffix_len (drop p base) (drop p replacement) in
  p + s <= length base /\ p + s <= length replacement /\
  replacement = take p base ++ take (length replacement - s - p) (drop p replacement)
                ++ drop (length base - s) base.
Proof.
  intros p s. destruct (common_prefix_len_spec base replacement) as (Hl & Hr & E). fold p in Hl, Hr, E.
  destruct (common_suffix_len_spec (drop p base) (drop p replacement)) as (Sl & Sr & Es).
  fold s in Sl, Sr, Es. rewrite !length_drop in *. split; [lia|]. split; [lia|].
  rewrite !drop_drop in Es.
  replace (p + (length base - p - s)) with (length base - s) in Es by lia. rewrite Es, E.
  rewrite <- (take_drop p replacement) at 1. f_equal.
  rewrite <- (take_drop (length replacement - s - p) (drop p replacement)) at 1. f_equal.
  rewrite drop_drop. f_equal. lia.
Qed.

Section plan.
Context (base replacement : bytes).
Context (Hb : (N.of_nat (length base) <= 2 ^ 32)%N) (Hr : (N.of_nat (length replacement) < 2 ^ 64)%N).

Let p : nat := common_prefix_len base replacement.
Let s : nat := common_suffix_len (drop p base) (drop p replacement).

(** The plan, its length, and the delta it is for. *)
Lemma plan_delta :
  exists len delta,
    (forall m, replacement_delta_plan_if_better base replacement m
      = Ok (if (m <=? len)%N then None else Some (MkPlan p s (length replacement - s) len))) /\
    build_replacement_delta base replacement (MkPlan p s (length replacement - s) len) = Ok delta /\
    N.of_nat (length delta) = len /\
    forall max, (N.of_nat (length replacement) <= max)%N -> delta_sem base max delta = Ok replacement.
Proof.
  destruct (plan_split base replacement) as (Hpb & Hpr & Hsplit). fold p in Hpb, Hpr, Hsplit.
  fold s in Hpb, Hpr, Hsplit.
  destruct (write_delta_copy_loop_Ok base (S (N.to_nat (N.of_nat p / 65536)))
    (leb 10 (N.of_nat (length base)) ++ leb 10 (N.of_nat (length replacement))) 0 0 (N.of_nat p))
    as (e1 & W1 & C1 & M1); [lia|lia|lia_mod|].
  rewrite Nat2N.id, N2Nat.inj_0, drop_0 in M1.
  set (middle := take (length replacement - s - p) (drop p replacement)) in *.
  destruct (write_delta_insert_loop_Ok base (length middle)
    ((leb 10 (N.of_nat (length base)) ++ leb 10 (N.of_nat (length replacement))) ++ e1) middle)
    as (e2 & W2 & C2 & M2); [done|].
  destruct (write_delta_copy_loop_Ok base (S (N.to_nat (N.of_nat s / 65536)))
    (((leb 10 (N.of_nat (length base)) ++ leb 10 (N.of_nat (length replacement))) ++ e1) ++ e2) 0
    (N.of_nat (length base) - N.of_nat s) (N.of_nat s)) as (e3 & W3 & C3 & M3); [lia|lia|lia_mod|].
  rewrite Nat2N.id in M3. replace (N.to_nat (N.of_nat (length base) - N.of_nat s)) with (length base - s) in M3 by lia.
  rewrite (take_ge (drop _ base)) in M3 by (rewrite length_drop; lia).
  pose proof (emits_app _ _ _ _ _ M1 (emits_app _ _ _ _ _ M2 M3)) as M. rewrite <- Hsplit in M.
  assert (Hmid : length middle = length replacement - s - p) by (unfold middle; rewrite length_take, length_drop; lia).
  set (delta := (((leb 10 (N.of_nat (length base)) ++ leb 10 (N.of_nat (length replacement))) ++ e1) ++ e2) ++ e3).
  assert (Hdelta : N.of_nat (length delta)
    = (0 + N.of_nat (length (leb 10 (N.of_nat (length base))))
       + (0 + N.of_nat (length (leb 10 (N.of_nat (length replacement)))))
       + (0 + N.of_nat (length e1)) + delta_insert_len (N.of_nat (length middle))
       + (0 + N.of_nat (length e3)))%N)
    by (unfold delta; rewrite !length_app, !Nat2N.inj_add, C2; lia).
  exists (N.of_nat (length delta)), delta. split; [|split; [|split]].
  - intros m. unfold replacement_delta_plan_if_better. cbv zeta. fold p.
    rewrite !slice_from by lia. rewrite !bind_Ok. fold s. unfold checked_subN at 1.
    rewrite (proj2 (N.leb_le (N.of_nat s) _)) by lia. cbn [unwrap]. rewrite bind_Ok.
    unfold replacement_delta_encoded_len, checked_subN, delta_size_len, delta_copy_len.
    rewrite (proj2 (N.leb_le (N.of_nat s) (N.of_nat (length replacement)))) by lia. cbn [unwrap]. rewrite bind_Ok.
    rewrite (proj2 (N.leb_le (N.of_nat p) _)) by lia. cbn [unwrap]. rewrite bind_Ok.
    rewrite (proj2 (N.leb_le (N.of_nat s) (N.of_nat (length base)))) by lia. cbn [unwrap]. rewrite bind_Ok.
    change (delta_size_len_loop 9 1) with (delta_size_len_loop 9 (0 + 1)%N).
    rewrite (delta_size_len_Ok 9 0 (N.of_nat (length base))) by (cbn; lia).
    rewrite (delta_size_len_Ok 9 0 (N.of_nat (length replacement))) by (eapply N.lt_trans; [exact Hr|done]).
    rewrite !bind_Ok, C1, bind_Ok, C3, !bind_Ok.
    replace (N.to_nat (N.of_nat (length replacement) - N.of_nat s)) with (length replacement - s) by lia.
    replace (N.of_nat (length replacement) - N.of_nat s - N.of_nat p)%N with (N.of_nat (length middle)) by lia.
    rewrite <- Hdelta. destruct (m <=? _)%N; reflexivity.
  - unfold build_replacement_delta, write_delta_size, write_delta_copy, write_delta_insert.
    cbn [plan_prefix plan_suffix plan_insert_end].
    assert (Hb70 : (N.of_nat (length base) < 2 ^ (7 * N.of_nat 10))%N) by (cbn; lia).
    assert (Hr70 : (N.of_nat (length replacement) < 2 ^ (7 * N.of_nat 10))%N) by (cbn in *; lia).
    rewrite (write_delta_size_loop_Ok 10 [] _ Hb70), bind_Ok by lia. cbn [app].
    rewrite (write_delta_size_loop_Ok 10 _ _ Hr70), bind_Ok by lia.
    assert (E1 : (if 0 <? p then write_delta_copy_loop (S (N.to_nat (N.of_nat p / 65536)))
        (leb 10 (N.of_nat (length base)) ++ leb 10 (N.of_nat (length replacement))) 0 (N.of_nat p)
      else Ok (leb 10 (N.of_nat (length base)) ++ leb 10 (N.of_nat (length replacement))))
      = Ok ((leb 10 (N.of_nat (length base)) ++ leb 10 (N.of_nat (length replacement))) ++ e1)).
    { destruct (Nat.ltb_spec 0 p); [exact W1|]. assert (Hp0 : p = 0) by lia. rewrite Hp0 in W1. exact W1. }
    rewrite E1, bind_Ok. rewrite slice_eq by lia. rewrite bind_Ok.
    fold middle. rewrite W2, bind_Ok. unfold checked_subN.
    rewrite (proj2 (N.leb_le (N.of_nat s) (N.of_nat (length base)))) by lia. cbn [unwrap].
    destruct (Nat.ltb_spec 0 s) as [_|Hs0]; [rewrite bind_Ok; exact W3|].
    assert (Hs : s = 0) by lia. rewrite Hs in W3. exact W3.
  - done.
  - intros max Hmax. unfold delta. rewrite <- !app_assoc. apply delta_sem_emits; [lia|done|done|].
    exact M.
Qed.
End plan.

(** ** Properties *)

(** Planning never panics, and a plan exists exactly when the encoded delta is shorter than the
    limit; the delta built from the plan has exactly the planned length, and from it the streaming
    decoder, over any reader that does not fail, recovers the replacement. *)
Theorem replacement_delta_roundtrip base replacement limit :
  (N.of_nat (length base) <= 2 ^ 32)%N -> (N.of_nat (length replacement) < 2 ^ 64)%N ->
  exists plan delta,
    (forall m, replacement_delta_plan_if_better base replacement m
               = Ok (if (m <=? N.of_nat (length delta))%N then None else Some plan)) /\
    build_replacement_delta base replacement plan = Ok delta /\
    plan_delta_len plan = N.of_nat (length delta) /\
    ((N.of_nat (length replacement) <= limit)%N -> (N.of_nat (length delta) < 2 ^ 64)%N ->
     apply_delta delta base limit = Ok replacement /\
     forall R (HR : Reader R) (rest : R -> bytes) (r : R),
       ReaderLaws R rest -> total_from r -> rest r = delta ->
       (apply_delta_from_counted_reader base (N.of_nat (length delta)) limit r).1 = Ok replacement).
Proof.
  intros Hb Hr. destruct (plan_delta base replacement Hb Hr) as (len & delta & Hplan & Hbuild & Hlen & Hsem).
  eexists _, delta. rewrite Hlen. split; [exact Hplan|]. split; [exact Hbuild|]. split; [done|].
  intros Hm Hd. specialize (Hsem limit Hm). split.
  - pose proof (apply_delta_refines delta) as Ha. premise Ha; [by rewrite Hlen|]. specialize (Ha base limit).
    destruct (apply_delta delta base limit) as [out|e| |]; [congruence| |done..].
    destruct Ha as [e' Ha]. congruence.
  - intros R HR rest r HL Ht Er. pose proof (apply_streaming base len limit r) as Ha.
    premise Ha; [lia|]. rewrite Er, Hlen in Ha.
    destruct (apply_delta_from_counted_reader base len limit r).1 as [out|e| |]; [| |done..].
    + destruct Ha as (_ & _ & Ha). congruence.
    + destruct (Ha Ht eq_refl) as [e' Ha']. congruence.
Qed.

Lemma replacement_delta_roundtrip_witness :
  exists plan delta,
    replacement_delta_plan_if_better (bstr "one two three") (bstr "one 2 three") 20 = Ok (Some plan) /\
    build_replacement_delta (bstr "one two three") (bstr "one 2 three") plan = Ok delta /\
    (apply_delta_from_counted_reader (bstr "one two three") (N.of_nat (length delta)) 100
       (delta : short_reader)).1 = Ok (bstr "one 2 three").
Proof.
  destruct (replacement_delta_roundtrip (bstr "one two three") (bstr "one 2 three") 100)
    as (plan & delta & Hp & Hb & Hl & Hd); [vm_compute; discriminate|vm_compute; reflexivity|].
  assert (Hc : replacement_delta_plan_if_better (bstr "one two three") (bstr "one 2 three") 20
    = Ok (Some (MkPlan 4 6 5 9))) by (vm_compute; reflexivity).
  assert (El : N.of_nat (length delta) = 9%N).
  { rewrite <- Hl. rewrite Hp in Hc. destruct (20 <=? N.of_nat (length delta))%N; [discriminate Hc|].
    injection Hc as ->. reflexivity. }
  exists plan, delta. split; [rewrite Hp, El; reflexivity|]. split; [exact Hb|].
  destruct Hd as [_ Hd]; [vm_compute; discriminate|rewrite El; vm_compute; reflexivity|].
  exact (Hd short_reader _ _ delta short_reader_laws (total_reader_from _ short_reader_total) eq_refl).
Defined.
