(* ===== verification/PackWrite.v ===== *)
(** * Writing packs (zmin-git-core/src/pack.rs): the choice of delta bases, the window of candidate
      bases and the encoder of a whole pack *)
From S2P Require Import Prelude Object Store Reader PackHeader Zlib DeltaRead DeltaWrite.

(** ** Constants and data *)

Definition PACK_MAGIC : bytes := bstr "PACK".
Definition PACK_VERSION_2 : N := 2.

(** The budget outside of the tests. *)
Definition PACK_DELTA_WINDOW_CONTENT_BUDGET : N := 64 * 1024 * 1024.

Record PackEncodeOptions : Set := MkPackOptions { opt_window : nat; opt_depth : nat }.

Record EncodedPackObject : Set := MkEncoded {
  enc_id : ObjectId;
  enc_kind : GitObjectKind;
  enc_content : bytes;
  enc_offset : N;
  enc_depth : nat
}.

Record CandidateDelta : Set := MkCandidate {
  cand_base_offset : N;
  cand_base_depth : nat;
  cand_delta : bytes;
  cand_packed_len : N
}.

(** [usize::saturating_add]. *)
Definition saturating_add (a b : N) : N := N.min (a + b) (usize_limit - 1).

Definition pack_encode_options_allows_delta (options : PackEncodeOptions) : bool :=
  negb (opt_window options =? 0) && negb (opt_depth options =? 0).

Definition pack_object_count_u32 (count : nat) : outcome N :=
  _ ← check (negb (N.of_nat count <? 2 ^ 32)%N) InvalidInput "pack object count exceeds pack v2 limit";
  Ok (N.of_nat count).

Section encoder.
Context `{ZlibEncoder}.

(** ** Entries *)

Definition append_packed_base_object (out : bytes) (kind : GitObjectKind) (content : bytes)
  : outcome bytes :=
  out ← write_pack_object_header out kind (N.of_nat (length content));
  Ok (out ++ zlib_compress content).

Definition write_ofs_delta_header (out : bytes) (object_offset base_offset size : N)
  : outcome bytes :=
  header ← ofs_delta_header_bytes object_offset base_offset size;
  Ok (out ++ header).

Definition write_ofs_delta_object (out : bytes) (object_offset base_offset : N) (delta : bytes)
  : outcome bytes :=
  out ← write_ofs_delta_header out object_offset base_offset (N.of_nat (length delta));
  Ok (out ++ zlib_compress delta).

(** What [CountWriter] counts: the header, then the compressed bytes. *)
Definition count_written (header compressed : bytes) : N :=
  saturating_add (saturating_add 0 (N.of_nat (length header))) (N.of_nat (length compressed)).

Definition packed_base_object_len (kind : GitObjectKind) (content : bytes) : outcome N :=
  header ← pack_object_header_bytes kind (N.of_nat (length content));
  Ok (count_written header (zlib_compress content)).

Definition packed_delta_object_len (base_offset : N) (delta : bytes) : outcome N :=
  object_offset ← ok_or (checked_addN base_offset 1) InvalidInput "pack offset overflow";
  header ← ofs_delta_header_bytes object_offset base_offset (N.of_nat (length delta));
  Ok (count_written header (zlib_compress delta)).

(** ** The best delta *)

(** The body of the loop of [best_pack_delta] for one base. *)
Definition try_base (object : LooseObject) (options : PackEncodeOptions)
  (object_packed_len max_delta_len : N) (best : option CandidateDelta) (base : EncodedPackObject)
  : outcome (option CandidateDelta) :=
  let object_len := N.of_nat (length (lo_content object)) in
  let base_len := N.of_nat (length (enc_content base)) in
  if negb (bool_decide (enc_kind base = lo_kind object)) || (opt_depth options <=? enc_depth base)
     || bool_decide (enc_id base = lo_id object) then Ok best else
  let sizediff := if (base_len <? object_len)%N then (object_len - base_len)%N else 0%N in
  if (max_delta_len <=? sizediff)%N || (object_len <? base_len / 32)%N then Ok best else
  delta_plan ← replacement_delta_plan_if_better (enc_content base) (lo_content object) max_delta_len;
  match delta_plan with
  | None => Ok best
  | Some delta_plan =>
      delta ← build_replacement_delta (enc_content base) (lo_content object) delta_plan;
      packed_len ← packed_delta_object_len (enc_offset base) delta;
      let best_packed_len := match best with
                             | None => object_packed_len
                             | Some candidate => cand_packed_len candidate
                             end in
      if (best_packed_len <=? packed_len)%N then Ok best
      else Ok (Some (MkCandidate (enc_offset base) (enc_depth base) delta packed_len))
  end.

Fixpoint best_delta_loop (object : LooseObject) (options : PackEncodeOptions)
  (object_packed_len max_delta_len : N) (bases : list EncodedPackObject)
  (best : option CandidateDelta) : outcome (option CandidateDelta) :=
  match bases with
  | [] => Ok best
  | base :: bases =>
      best ← try_base object options object_packed_len max_delta_len best base;
      best_delta_loop object options object_packed_len max_delta_len bases best
  end.

(** The window holds its newest object last. *)
Definition best_pack_delta (object : LooseObject) (encoded : list EncodedPackObject)
  (options : PackEncodeOptions) : outcome (option CandidateDelta) :=
  if (opt_window options =? 0) || (opt_depth options =? 0) || (length (lo_content object) =? 0)
  then Ok None else
  object_packed_len ← packed_base_object_len (lo_kind object) (lo_content object);
  let half := (N.of_nat (length (lo_content object)) / 2)%N in
  let max_delta_len :=
    default 0%N (checked_subN half (N.of_nat (digest_len (algorithm (lo_id object))))) in
  if (max_delta_len =? 0)%N then Ok None else
  best_delta_loop object options object_packed_len max_delta_len
    (take (opt_window options) (rev encoded)) None.

(** ** The window *)

(** The eviction loop of [push_encoded_pack_object]: every turn removes an object. *)
Fixpoint evict_loop (window : nat) (object_bytes : N) (encoded : list EncodedPackObject)
  (content_bytes : N) : list EncodedPackObject * N :=
  if (length encoded =? window)
     || (PACK_DELTA_WINDOW_CONTENT_BUDGET <? saturating_add content_bytes object_bytes)%N then
    match encoded with
    | evicted :: encoded =>
        evict_loop window object_bytes encoded
          (content_bytes - N.of_nat (length (enc_content evicted)))%N
    | [] => (encoded, content_bytes)
    end
  else (encoded, content_bytes).

Definition push_encoded_pack_object (encoded : list EncodedPackObject) (content_bytes : N)
  (object : EncodedPackObject) (options : PackEncodeOptions) : list EncodedPackObject * N :=
  if (opt_window options =? 0) || (opt_depth options =? 0) then (encoded, content_bytes) else
  let object_bytes := N.of_nat (length (enc_content object)) in
  if (PACK_DELTA_WINDOW_CONTENT_BUDGET <? object_bytes)%N then (encoded, content_bytes) else
  let '(encoded, content_bytes) := evict_loop (opt_window options) object_bytes encoded content_bytes in
  (encoded ++ [object], saturating_add content_bytes object_bytes).

(** ** Whole packs *)

Definition check_algorithm (alg : GitHashAlgorithm) (id : ObjectId) : outcome unit :=
  check (negb (bool_decide (algorithm id = alg))) InvalidInput
    "object id algorithm does not match pack algorithm".

Section store.
Context {St : Type} `{GitObjectStore St}.

(** One object appended to the pack, and to the window. *)
Definition encode_pack_step (store : St) (alg : GitHashAlgorithm) (options : PackEncodeOptions)
  (id : ObjectId) (pack : bytes) (encoded : list EncodedPackObject) (content_bytes : N)
  : outcome (bytes * list EncodedPackObject * N) :=
  _ ← check_algorithm alg id;
  object ← read_object store id;
  let offset := N.of_nat (length pack) in
  best ← best_pack_delta object encoded options;
  match best with
  | Some delta =>
      pack ← write_ofs_delta_object pack offset (cand_base_offset delta) (cand_delta delta);
      let '(encoded, content_bytes) :=
        push_encoded_pack_object encoded content_bytes
          (MkEncoded (lo_id object) (lo_kind object) (lo_content object) offset
             (cand_base_depth delta + 1)) options in
      Ok (pack, encoded, content_bytes)
  | None =>
      pack ← append_packed_base_object pack (lo_kind object) (lo_content object);
      let '(encoded, content_bytes) :=
        push_encoded_pack_object encoded content_bytes
          (MkEncoded (lo_id object) (lo_kind object) (lo_content object) offset 0) options in
      Ok (pack, encoded, content_bytes)
  end.

Fixpoint encode_pack_loop (store : St) (alg : GitHashAlgorithm) (options : PackEncodeOptions)
  (ids : list ObjectId) (pack : bytes) (encoded : list EncodedPackObject) (content_bytes : N)
  : outcome bytes :=
  match ids with
  | [] => Ok pack
  | id :: ids =>
      '(pack, encoded, content_bytes) ←
        encode_pack_step store alg options id pack encoded content_bytes;
      encode_pack_loop store alg options ids pack encoded content_bytes
  end.

Fixpoint encode_undeltified_loop (store : St) (alg : GitHashAlgorithm) (ids : list ObjectId)
  (pack : bytes) : outcome bytes :=
  match ids with
  | [] => Ok pack
  | id :: ids =>
      _ ← check_algorithm alg id;
      object ← read_object store id;
      pack ← append_packed_base_object pack (lo_kind object) (lo_content object);
      encode_undeltified_loop store alg ids pack
  end.

(** Magic, version and object count. *)
Definition pack_preamble (count : N) : bytes := PACK_MAGIC ++ to_be 4 PACK_VERSION_2 ++ to_be 4 count.

(** The digest of everything before it. *)
Definition append_pack_checksum `{Sha} (alg : GitHashAlgorithm) (pack : bytes) : outcome bytes :=
  id ← hash_finalize (hash_update (hash_new alg) pack);
  Ok (pack ++ as_bytes id).

Definition encode_undeltified_pack_from_store `{Sha} (store : St) (alg : GitHashAlgorithm)
  (ids : list ObjectId) : outcome bytes :=
  count ← pack_object_count_u32 (length ids);
  pack ← encode_undeltified_loop store alg ids (pack_preamble count);
  append_pack_checksum alg pack.

Definition encode_pack_from_store `{Sha} (store : St) (alg : GitHashAlgorithm)
  (ids : list ObjectId) : outcome bytes :=
  encode_undeltified_pack_from_store store alg ids.

Definition encode_pack_from_store_with_options `{Sha} (store : St) (alg : GitHashAlgorithm)
  (ids : list ObjectId) (options : PackEncodeOptions) : outcome bytes :=
  if negb (pack_encode_options_allows_delta options)
  then encode_undeltified_pack_from_store store alg ids else
  count ← pack_object_count_u32 (length ids);
  pack ← encode_pack_loop store alg options ids (pack_preamble count) [] 0;
  append_pack_checksum alg pack.
End store.
End encoder.

(** ** Entries are written *)

Section entries.
Context `{ZlibEncoder}.

(** [x] is the entry of a base object. *)
Definition base_entry (kind : GitObjectKind) (content x : bytes) : Prop :=
  exists h, pack_object_header_bytes kind (N.of_nat (length content)) = Ok h /\ length h <= 10 /\
            x = h ++ zlib_compress content.

Definition delta_entry (object_offset base_offset : N) (delta x : bytes) : Prop :=
  exists h, ofs_delta_header_bytes object_offset base_offset (N.of_nat (length delta)) = Ok h /\
            length h <= 20 /\ x = h ++ zlib_compress delta.

Lemma append_base_entry out kind content :
  (N.of_nat (length content) < 2 ^ 60)%N ->
  exists x, append_packed_base_object out kind content = Ok (out ++ x) /\ base_entry kind content x.
Proof.
  intros Hc. destruct (object_header_roundtrip short_reader_total kind (N.of_nat (length content)))
    as (h & E & Hl & _); [lia|].
  exists (h ++ zlib_compress content). split; [|by exists h].
  unfold append_packed_base_object, write_pack_object_header. rewrite E, bind_Ok, bind_Ok.
  by rewrite <- app_assoc.
Qed.

Lemma append_delta_entry out object_offset base_offset delta :
  (base_offset <= object_offset)%N -> (object_offset < 2 ^ 64)%N ->
  (N.of_nat (length delta) < 2 ^ 60)%N ->
  exists x, write_ofs_delta_object out object_offset base_offset delta = Ok (out ++ x) /\
            delta_entry object_offset base_offset delta x.
Proof.
  intros Hb Ho Hd.
  destruct (ofs_header_roundtrip short_reader_total object_offset base_offset (N.of_nat (length delta)))
    as (h & E & Hl & _); [done..|].
  exists (h ++ zlib_compress delta). split; [|by exists h].
  unfold write_ofs_delta_object, write_ofs_delta_header. rewrite E, bind_Ok, bind_Ok.
  by rewrite <- app_assoc.
Qed.

(** ** The best delta *)

(** What the encoder relies on for the objects of its window. *)
Definition window_object (e : EncodedPackObject) : Prop :=
  (N.of_nat (length (enc_content e)) <= PACK_DELTA_WINDOW_CONTENT_BUDGET)%N /\
  (enc_offset e < 2 ^ 63)%N.

(** A candidate is a delta on one of the bases that decodes to the object and is worth it. *)
Definition cand_sound (object : LooseObject) (options : PackEncodeOptions) (object_packed_len : N)
  (bases : list EncodedPackObject) (c : CandidateDelta) : Prop :=
  (cand_packed_len c < object_packed_len)%N /\
  (length (cand_delta c) < length (lo_content object)) /\
  exists base, base ∈ bases /\ cand_base_offset c = enc_offset base /\
    cand_base_depth c = enc_depth base /\ enc_depth base < opt_depth options /\
    enc_kind base = lo_kind object /\ enc_id base <> lo_id object /\
    forall limit, (N.of_nat (length (lo_content object)) <= limit)%N ->
      delta_sem (enc_content base) limit (cand_delta c) = Ok (lo_content object).

Definition best_sound (object : LooseObject) (options : PackEncodeOptions) (object_packed_len : N)
  (bases : list EncodedPackObject) (best : option CandidateDelta) : Prop :=
  match best with
  | None => True
  | Some c => cand_sound object options object_packed_len bases c
  end.

Lemma packed_delta_object_len_Ok base_offset delta :
  (base_offset < 2 ^ 63)%N -> (N.of_nat (length delta) < 2 ^ 60)%N ->
  exists n, packed_delta_object_len base_offset delta = Ok n.
Proof.
  intros Hb Hd. unfold packed_delta_object_len, checked_addN.
  rewrite (proj2 (N.ltb_lt _ _)) by (unfold usize_limit; lia). cbn [ok_or]. rewrite bind_Ok.
  destruct (ofs_header_roundtrip short_reader_total (base_offset + 1) base_offset (N.of_nat (length delta)))
    as (h & -> & _); [lia|lia|done|]. by eexists.
Qed.

Lemma try_base_Ok object options object_packed_len max_delta_len bases best base :
  (N.of_nat (length (lo_content object)) < 2 ^ 59)%N ->
  (max_delta_len <= N.of_nat (length (lo_content object)))%N ->
  base ∈ bases -> window_object base ->
  best_sound object options object_packed_len bases best ->
  exists best', try_base object options object_packed_len max_delta_len best base = Ok best' /\
                best_sound object options object_packed_len bases best'.
Proof.
  intros Hc Hm Hin [Hw Ho] Hbest. unfold try_base. cbv zeta.
  destruct (bool_decide (enc_kind base = lo_kind object)) eqn:Ek; cbn [negb orb]; [|by eexists].
  destruct (opt_depth options <=? enc_depth base) eqn:Ed; cbn [orb]; [by eexists|].
  destruct (bool_decide (enc_id base = lo_id object)) eqn:Ei; [by eexists|].
  destruct ((max_delta_len <=? _)%N || _)%bool; [by eexists|]. breflect.
  unfold PACK_DELTA_WINDOW_CONTENT_BUDGET in Hw.
  destruct (plan_delta (enc_content base) (lo_content object)) as (len & delta & Hplan & Hbuild & Hlen & Hsem);
    [lia|lia|].
  rewrite Hplan, bind_Ok. destruct (max_delta_len <=? len)%N eqn:El; [by eexists|]. breflect.
  rewrite Hbuild, bind_Ok. destruct (packed_delta_object_len_Ok (enc_offset base) delta) as [n ->]; [done|lia|].
  rewrite bind_Ok.
  destruct best as [c|]; cbn [best_sound] in Hbest |- *;
    (destruct (_ <=? n)%N eqn:En; [by eexists|]); breflect; eexists; (split; [done|]);
    (split; [cbn; destruct_and?; try (destruct Hbest as [Hb _]); lia|]); (split; [cbn; lia|]);
    exists base; cbn; done.
Qed.

Lemma best_delta_loop_Ok object options object_packed_len max_delta_len bases0 bases best :
  (N.of_nat (length (lo_content object)) < 2 ^ 59)%N ->
  (max_delta_len <= N.of_nat (length (lo_content object)))%N ->
  bases ⊆ bases0 -> Forall window_object bases ->
  best_sound object options object_packed_len bases0 best ->
  exists best', best_delta_loop object options object_packed_len max_delta_len bases best = Ok best' /\
                best_sound object options object_packed_len bases0 best'.
Proof.
  intros Hc Hm. revert best. induction bases as [|base bases IH]; intros best Hsub Hw Hb; [by eexists|].
  cbn [best_delta_loop]. apply Forall_cons in Hw as [Hw1 Hw].
  destruct (try_base_Ok object options object_packed_len max_delta_len bases0 best base) as (b & -> & Hb');
    [done|done|apply Hsub; by left|done|done|]. rewrite bind_Ok.
  apply IH; [|done|done]. intros x Hx. apply Hsub. by right.
Qed.

(** The choice succeeds, and is sound. *)
Lemma best_pack_delta_Ok object options encoded :
  (N.of_nat (length (lo_content object)) < 2 ^ 59)%N -> Forall window_object encoded ->
  exists n best, packed_base_object_len (lo_kind object) (lo_content object) = Ok n /\
    best_pack_delta object encoded options = Ok best /\
    best_sound object options n (take (opt_window options) (rev encoded)) best.
Proof.
  intros Hc Hw. unfold best_pack_delta.
  assert (Hn : exists n, packed_base_object_len (lo_kind object) (lo_content object) = Ok n).
  { unfold packed_base_object_len.
    destruct (object_header_roundtrip short_reader_total (lo_kind object) (N.of_nat (length (lo_content object))))
      as (h & -> & _); [lia|]. by eexists. }
  destruct Hn as [n Hn]. exists n.
  destruct ((opt_window options =? 0) || (opt_depth options =? 0) || (length (lo_content object) =? 0)).
  { by exists None. }
  rewrite Hn, bind_Ok. cbv zeta. set (m := default 0%N _).
  assert (Hm : (m <= N.of_nat (length (lo_content object)))%N).
  { unfold m, checked_subN. destruct (_ <=? _)%N; cbn; lia_mod. }
  destruct (m =? 0)%N; [by exists None|].
  destruct (best_delta_loop_Ok object options n m (take (opt_window options) (rev encoded))
    (take (opt_window options) (rev encoded)) None) as (best & E & Hb); [done|done|done| |done|].
  { apply Forall_take, Forall_rev, Hw. }
  by exists best.
Qed.
End entries.

(** ** The window *)

Definition window_bytes (encoded : list EncodedPackObject) : N :=
  N.of_nat (sum_list (map (fun e => length (enc_content e)) encoded)).

(** At most [window] objects, of bounded total size, which the counter counts, on chains of bounded
    depth. *)
Record window_inv (options : PackEncodeOptions) (encoded : list EncodedPackObject)
  (content_bytes : N) : Prop := {
  win_length : length encoded <= opt_window options;
  win_bytes : content_bytes = window_bytes encoded;
  win_budget : (content_bytes <= PACK_DELTA_WINDOW_CONTENT_BUDGET)%N;
  win_depth : Forall (fun e => enc_depth e <= opt_depth options) encoded
}.

Lemma window_bytes_cons e l :
  window_bytes (e :: l) = (N.of_nat (length (enc_content e)) + window_bytes l)%N.
Proof. unfold window_bytes. cbn. lia. Qed.

Lemma window_bytes_app l1 l2 : window_bytes (l1 ++ l2) = (window_bytes l1 + window_bytes l2)%N.
Proof.
  induction l1 as [|e l1 IH]; [done|]. cbn [app]. rewrite !window_bytes_cons, IH. lia.
Qed.

Lemma saturating_add_small a b : (a + b < usize_limit)%N -> saturating_add a b = (a + b)%N.
Proof. unfold saturating_add, usize_limit. lia. Qed.

Lemma evict_loop_spec options object_bytes encoded content_bytes encoded' content_bytes' :
  window_inv options encoded content_bytes -> 0 < opt_window options ->
  (object_bytes <= PACK_DELTA_WINDOW_CONTENT_BUDGET)%N ->
  evict_loop (opt_window options) object_bytes encoded content_bytes = (encoded', content_bytes') ->
  window_inv options encoded' content_bytes' /\ length encoded' < opt_window options /\
  (content_bytes' + object_bytes <= PACK_DELTA_WINDOW_CONTENT_BUDGET)%N /\
  exists evicted, encoded = evicted ++ encoded'.
Proof.
  intros Hinv Hw Ho. revert content_bytes Hinv.
  induction encoded as [|e encoded IH]; intros content_bytes [Hl Hb Hm Hd] E; cbn [evict_loop] in E.
  - assert (content_bytes = 0%N) as -> by (by rewrite Hb).
    destruct (_ || _)%bool; injection E as <- <-; (split; [by split|]); (split; [cbn; lia|]);
      (split; [lia|]); by exists [].
  - rewrite window_bytes_cons in Hb. apply Forall_cons in Hd as [Hd1 Hd]. cbn [length] in Hl.
    destruct ((length (e :: encoded) =? opt_window options) || _)%bool eqn:Ec.
    + destruct (IH (content_bytes - N.of_nat (length (enc_content e)))%N) as (H1 & H2 & H3 & ev & H4);
        [split; [lia|lia|lia|done]|done|]. split; [done|]. split; [done|]. split; [done|].
      exists (e :: ev). by rewrite H4.
    + injection E as <- <-. apply orb_false_iff in Ec as [Ec1 Ec2]. breflect. cbn [length] in Ec1.
      unfold saturating_add, usize_limit, PACK_DELTA_WINDOW_CONTENT_BUDGET in *.
      split; [split; [cbn; lia|by rewrite window_bytes_cons|unfold PACK_DELTA_WINDOW_CONTENT_BUDGET; lia|by apply Forall_cons]|].
      split; [cbn; lia|]. split; [lia|]. by exists [].
Qed.

(** What a push leaves in the window: a suffix of it, and perhaps the object. *)
Lemma push_encoded_spec options encoded content_bytes object encoded' content_bytes' :
  window_inv options encoded content_bytes -> enc_depth object <= opt_depth options ->
  push_encoded_pack_object encoded content_bytes object options = (encoded', content_bytes') ->
  window_inv options encoded' content_bytes' /\
  (encoded' = encoded \/
   (N.of_nat (length (enc_content object)) <= PACK_DELTA_WINDOW_CONTENT_BUDGET)%N /\
   exists evicted kept, encoded = evicted ++ kept /\ encoded' = kept ++ [object]).
Proof.
  intros Hinv Hd E. unfold push_encoded_pack_object in E.
  destruct ((opt_window options =? 0) || (opt_depth options =? 0)) eqn:Ez.
  { injection E as <- <-. split; [done|]. by left. }
  apply orb_false_iff in Ez as [Ez1 Ez2]. breflect.
  destruct (PACK_DELTA_WINDOW_CONTENT_BUDGET <? N.of_nat (length (enc_content object)))%N eqn:Eb;
    [injection E as <- <-; split; [done|by left]|]. breflect.
  destruct (evict_loop (opt_window options) _ encoded content_bytes) as [kept bytes] eqn:El.
  apply (evict_loop_spec options) in El as ([Kl Kb Km Kd] & Hlt & Hsum & ev & Hsplit); [|done|lia|done].
  injection E as <- <-.
  assert (Hs : saturating_add bytes (N.of_nat (length (enc_content object)))
    = (bytes + N.of_nat (length (enc_content object)))%N).
  { apply saturating_add_small. unfold usize_limit, PACK_DELTA_WINDOW_CONTENT_BUDGET in *. lia. }
  rewrite Hs. split.
  - split; [rewrite length_app; cbn; lia| |done|apply Forall_app; split; [done|by apply Forall_singleton]].
    rewrite window_bytes_app, window_bytes_cons. unfold window_bytes at 2. cbn. lia.
  - right. split; [done|]. by exists ev, kept.
Qed.

(** The window of candidate bases keeps within its number of objects and its content budget,
    its byte counter is exact, and no delta chain is deeper than allowed, from one encoded object
    to the next. *)
Theorem encode_pack_step_window `{ZlibEncoder, GitObjectStore St} (store : St) alg options id pack
  encoded content_bytes pack' encoded' content_bytes' :
  window_inv options encoded content_bytes ->
  Forall window_object encoded ->
  (forall o, read_object store id = Ok o -> (N.of_nat (length (lo_content o)) < 2 ^ 59)%N) ->
  encode_pack_step store alg options id pack encoded content_bytes
  = Ok (pack', encoded', content_bytes') ->
  window_inv options encoded' content_bytes'.
Proof.
  intros Hinv Hwin Hsize E. unfold encode_pack_step in E. inv_ok.
  match goal with H : read_object store id = Ok ?o |- _ => rename o into object; pose proof (Hsize _ H) as Hc end.
  destruct (best_pack_delta_Ok object options encoded Hc Hwin) as (n & best & _ & E' & Hb).
  match goal with H : best_pack_delta object encoded options = Ok ?b |- _ =>
    rewrite H in E'; injection E' as ->; clear H end.
  destruct best as [c|]; inv_ok; destruct (push_encoded_pack_object _ _ _ _) as [l b] eqn:Ep;
    inv_ok; apply push_encoded_spec in Ep as [Hw _]; try done; [|cbn; lia].
  destruct Hb as (_ & _ & base & _ & _ & Hcd & Hlt & _). cbn. rewrite Hcd. lia.
Qed.

(** ** Witnesses *)

#[local] Existing Instances sample_sha sample_sha_laws.
#[local] Existing Instance marked_encoder.

(** Two versions of a text, in a store. *)
Definition sample_version (word : bytes) : bytes :=
  bstr "Packs hold every object once, and later ones as differences to their " ++ word
  ++ bstr " predecessors where that makes them smaller.".

Definition sample_pack_store : InMemoryObjectStore :=
  match in_memory_write_object sample_store Blob (sample_version (bstr "older")) with
  | Ok (s, _) => match in_memory_write_object s Blob (sample_version (bstr "newer")) with
                 | Ok (s, _) => s
                 | _ => s
                 end
  | _ => sample_store
  end.

Definition sample_objects : list LooseObject := map snd (mem_objects sample_pack_store).

Lemma encode_pack_step_window_witness :
  exists id pack encoded bytes,
    encode_pack_step sample_pack_store Sha1 (MkPackOptions 10 50) id [] [] 0 = Ok (pack, encoded, bytes) /\
    length encoded = 1 /\ window_inv (MkPackOptions 10 50) encoded bytes.
Proof.
  destruct sample_objects as [|o os] eqn:Eo; [vm_compute in Eo; discriminate|].
  destruct (encode_pack_step sample_pack_store Sha1 (MkPackOptions 10 50) (lo_id o) [] [] 0)
    as [[[pack encoded] bytes]|e| |] eqn:E; vm_compute in Eo; injection Eo as <- <-;
    vm_compute in E; [|discriminate..].
  exists (lo_id (nth 0 sample_objects (MkLooseObject (sample_id Sha1 0) Blob []))), pack, encoded, bytes.
  split; [vm_compute; exact E|]. split; [injection E as _ <- _; reflexivity|].
  eapply (encode_pack_step_window sample_pack_store Sha1 (MkPackOptions 10 50)
    (lo_id (nth 0 sample_objects (MkLooseObject (sample_id Sha1 0) Blob []))) [] [] 0);
    [split; [cbn; lia|reflexivity|discriminate|constructor]|constructor| |vm_compute; exact E].
  intros o' Ho'. vm_compute in Ho'. injection Ho' as <-. vm_compute. reflexivity.
Defined.
