(* ===== verification/PackParse.v ===== *)
(** * Parsing packs (zmin-git-core/src/pack.rs): header and checksum, entries with their deltas
      resolved, and the plan that says which contents later deltas still need *)
From S2P Require Import Prelude Order Object Store Reader PackHeader Zlib DeltaRead DeltaWrite PackWrite.

(** [crc32fast::hash]. *)
Class Crc32 : Type := crc32_hash : bytes -> N.

(** Its result is a [u32]. *)
Class Crc32Laws `{Crc32} : Prop := crc32_bound : forall bs, (crc32_hash bs < 2 ^ 32)%N.

(** ** Constants and data *)

Definition PACK_VERSION_3 : N := 3.
Definition PACK_REF_DELTA_LINEAR_LOOKUP_LIMIT : nat := 8.
Definition PACK_OBJECT_CONTENT_SLOT_MASK : N := 1073741823.
Definition PACK_OBJECT_CONTENT_NOT_RETAINED : N := PACK_OBJECT_CONTENT_SLOT_MASK.

(** The limit [512 * 1024 * 1024] the parser passes to its decoders. *)
Definition PARSE_LIMIT : N := 512 * 1024 * 1024.

Record PackIndexEntry : Set := MkPackEntry {
  pe_offset : N;
  pe_object_id : ObjectId;
  pe_crc32 : N
}.

Record PackObjectData : Set := MkPackData {
  pd_id : ObjectId;
  pd_kind : GitObjectKind;
  pd_content : bytes
}.

Inductive PackObjectRef : Set :=
| Internal (index : nat)
| External (index : nat).

Record PackResolvedBase : Set := MkResolved {
  rb_kind : GitObjectKind;
  rb_content : bytes;
  rb_internal_index : option nat
}.

Record ParsedPackObject : Set := MkParsed {
  pp_id : ObjectId;
  pp_kind : GitObjectKind;
  pp_content : bytes;
  pp_size : nat
}.

Record PackRetentionPlan : Type := MkRetention {
  rt_offsets : gmap N nat;
  rt_ids : gmap ObjectId nat
}.

Record ValidatedPackHeader : Set := MkValidated {
  vh_pack_id : ObjectId;
  vh_object_count : nat;
  vh_trailer_start : nat
}.

Record ParsedPack : Set := MkParsedPack {
  pk_pack_id : ObjectId;
  pk_data_len : nat;
  pk_entries : list PackIndexEntry;
  pk_objects : list PackObjectData;
  pk_metadata : list N;
  pk_external_bases : list LooseObject
}.

(** [value as u32] of an index. *)
Definition as_u32 (n : nat) : nat := N.to_nat (N.of_nat n mod 2 ^ 32).

(** ** Kinds and content slots packed into 32 bits *)

Definition pack_object_kind_bits (kind : GitObjectKind) : N :=
  match kind with
  | Blob => 0
  | Tree => 1
  | Commit => 2
  | Tag => 3
  end.

Definition pack_object_kind_from_bits (bits : N) : GitObjectKind :=
  match bits with
  | 0%N => Blob
  | 1%N => Tree
  | 2%N => Commit
  | _ => Tag
  end.

(** [value << 30] on [u32]. *)
Definition shl30 (value : N) : N := (N.shiftl value 30 mod 2 ^ 32)%N.

Definition object_data_new (kind : GitObjectKind) (content_slot : option nat) : outcome N :=
  content_slot ←
    match content_slot with
    | Some slot =>
        _ ← check (negb (N.of_nat slot <? 2 ^ 32)%N) InvalidData
              "pack retained object content count exceeds u30";
        _ ← check (PACK_OBJECT_CONTENT_NOT_RETAINED <=? N.of_nat slot)%N InvalidData
              "pack retained object content count exceeds u30";
        Ok (N.of_nat slot)
    | None => Ok PACK_OBJECT_CONTENT_NOT_RETAINED
    end;
  Ok (N.lor (shl30 (pack_object_kind_bits kind)) content_slot).

Definition object_data_kind (d : N) : GitObjectKind := pack_object_kind_from_bits (N.shiftr d 30).

Definition object_data_slot (d : N) : option nat :=
  let slot := N.land d PACK_OBJECT_CONTENT_SLOT_MASK in
  if (slot =? PACK_OBJECT_CONTENT_NOT_RETAINED)%N then None else Some (N.to_nat slot).

Definition object_data_content (d : N) (retained_contents : list bytes) : bytes :=
  match object_data_slot d with
  | None => []
  | Some slot => default [] (retained_contents !! slot)
  end.

Definition object_data_has_content (d : N) : bool := bool_decide (is_Some (object_data_slot d)).

(** The packed object, and the contents, after the release. *)
Definition release_content (d : N) (retained_contents : list bytes) : N * list bytes :=
  match object_data_slot d with
  | None => (d, retained_contents)
  | Some slot =>
      (N.lor (N.ldiff d PACK_OBJECT_CONTENT_SLOT_MASK) PACK_OBJECT_CONTENT_NOT_RETAINED,
       <[slot := []]> retained_contents)
  end.

Definition pack_object_size_metadata (size : nat) : outcome N :=
  _ ← check (negb (N.of_nat size <? 2 ^ 32)%N) InvalidData "packed object size metadata overflows u32";
  Ok (N.of_nat size).

Definition object_metadata_new (kind : GitObjectKind) (size : nat) : outcome N :=
  size ← pack_object_size_metadata size;
  Ok (N.lor (shl30 (pack_object_kind_bits kind)) size).

(** ** The retention plan *)

Definition retention_empty : PackRetentionPlan := MkRetention ∅ ∅.

Definition insert_offset (r : PackRetentionPlan) (offset : N) : PackRetentionPlan :=
  MkRetention (<[offset := default 0 (rt_offsets r !! offset) + 1]> (rt_offsets r)) (rt_ids r).

Definition insert_id (r : PackRetentionPlan) (id : ObjectId) : PackRetentionPlan :=
  MkRetention (rt_offsets r) (<[id := default 0 (rt_ids r !! id) + 1]> (rt_ids r)).

Definition decrement_pack_retention_count `{Countable K} (counts : gmap K nat) (key : K) : gmap K nat :=
  match counts !! key with
  | None => counts
  | Some count =>
      let count := count - 1 in
      if count =? 0 then delete key counts else <[key := count]> counts
  end.

Definition consume_offset (r : PackRetentionPlan) (offset : N) : PackRetentionPlan :=
  MkRetention (decrement_pack_retention_count (rt_offsets r) offset) (rt_ids r).

Definition consume_id (r : PackRetentionPlan) (id : ObjectId) : PackRetentionPlan :=
  MkRetention (rt_offsets r) (decrement_pack_retention_count (rt_ids r) id).

Definition map_contains `{Countable K} (m : gmap K nat) (k : K) : bool := bool_decide (is_Some (m !! k)).

Definition pack_should_retain_offset (r : PackRetentionPlan) (offset : N) : bool :=
  negb (bool_decide (rt_offsets r = ∅)) && map_contains (rt_offsets r) offset.

Definition pack_should_retain_content (retain_all : bool) (r : PackRetentionPlan) (offset : N)
  (id : ObjectId) : bool :=
  retain_all || pack_should_retain_offset r offset
  || (negb (bool_decide (rt_ids r = ∅)) && map_contains (rt_ids r) id).

Definition pack_can_stream_hash_content (retain_all : bool) (r : PackRetentionPlan) (offset : N)
  : bool := negb retain_all && negb (pack_should_retain_offset r offset).

Definition pack_ref_delta_uses_linear_lookup (retain_all : bool) (base_ids : nat) : bool :=
  negb retain_all && (base_ids <=? PACK_REF_DELTA_LINEAR_LOOKUP_LIMIT).

(** ** Header and checksum *)

Definition parse_pack_header_bytes (header : bytes) : outcome N :=
  _ ← check (negb (length header =? 12)) InvalidData "pack header has the wrong length";
  magic ← slice header 0 4;
  _ ← check (negb (bool_decide (magic = PACK_MAGIC))) InvalidData "pack file signature mismatch";
  version ← slice header 4 8;
  let version := from_be version in
  _ ← check (negb (version =? PACK_VERSION_2)%N && negb (version =? PACK_VERSION_3)%N) InvalidData
        "unsupported pack file version";
  count ← slice header 8 12;
  Ok (from_be count).

Section parser.
Context `{Sha, ZlibEncoder, Crc32} {D : Type} `{ZlibDecoder bytes D}.

Definition validate_pack_checksum (alg : GitHashAlgorithm) (payload trailer : bytes) : outcome unit :=
  actual ← hash_finalize (hash_update (hash_new alg) payload);
  check (negb (bool_decide (as_bytes actual = trailer))) InvalidData "pack checksum mismatch".

Definition validate_pack_header_and_checksum (alg : GitHashAlgorithm) (pack : bytes)
  : outcome ValidatedPackHeader :=
  let digest_len := digest_len alg in
  _ ← check (length pack <? 12 + digest_len) InvalidData "pack stream is too short";
  let trailer_start := length pack - digest_len in
  payload ← slice pack 0 trailer_start;
  trailer ← slice pack trailer_start (length pack);
  _ ← validate_pack_checksum alg payload trailer;
  pack_id ← ObjectId_new alg trailer;
  header ← slice pack 0 12;
  count ← parse_pack_header_bytes header;
  Ok (MkValidated pack_id (N.to_nat count) trailer_start).

(** [&bytes[..trailer_start]] under a cursor after the header. *)
Definition entries_cursor (pack : bytes) (trailer_start : nat) : outcome Cursor :=
  data ← slice pack 0 trailer_start;
  Ok (MkCursor data 12).

Definition position : rd Cursor N := fun c => (Ok (cursor_position c), c).

Definition seek (offset : N) : rd Cursor unit := fun c => (Ok tt, set_position c offset).

(** The id of a reference delta's base. *)
Definition read_base_id (alg : GitHashAlgorithm) : rd Cursor ObjectId :=
  base <~ read_exact (digest_len alg);
  rlift (ObjectId_new alg base).

(** A distance takes no more bytes than the pack has. *)
Definition read_base_offset (offset : N) : rd Cursor N := fun c =>
  read_delta_base_offset (S (length (cursor_bytes c))) offset c.

(** ** The first pass: how often each base is needed *)

Definition collect_step (alg : GitHashAlgorithm) (retention : PackRetentionPlan)
  : rd Cursor PackRetentionPlan :=
  offset <~ position;
  header <~ read_pack_object_header;
  '(size, retention) <~
    match header with
    | Base _ size => rret (size, retention)
    | OfsDelta size =>
        base_offset <~ read_base_offset offset;
        rret (size, insert_offset retention base_offset)
    | RefDelta size =>
        id <~ read_base_id alg;
        rret (size, insert_id retention id)
    end;
  _ <~ skip_zlib_content_from_cursor (D := D) PARSE_LIMIT size;
  rret retention.

Fixpoint collect_references_loop (alg : GitHashAlgorithm) (count : nat)
  (retention : PackRetentionPlan) : rd Cursor PackRetentionPlan :=
  match count with
  | 0 => rret retention
  | S count =>
      retention <~ collect_step alg retention;
      collect_references_loop alg count retention
  end.

Definition check_trailing (trailer_start : nat) : rd Cursor unit :=
  p <~ position;
  rlift (check (negb (p =? N.of_nat trailer_start)%N) InvalidData
           "pack stream has trailing data before checksum").

Definition collect_pack_delta_base_references (alg : GitHashAlgorithm) (pack : bytes)
  (object_count trailer_start : nat) : outcome PackRetentionPlan :=
  c ← entries_cursor pack trailer_start;
  ((retention <~ collect_references_loop alg object_count retention_empty;
    _ <~ check_trailing trailer_start;
    rret retention) c).1.

(** ** Contents *)

(** A base object: hashed while it is inflated when its content is not known to be needed, and
    inflated again if its id turns out to be. *)
Definition parse_base_object (alg : GitHashAlgorithm) (retain_all : bool)
  (retention : PackRetentionPlan) (offset : N) (kind : GitObjectKind) (size : N)
  : rd Cursor ParsedPackObject :=
  if pack_can_stream_hash_content retain_all retention offset then
    content_start <~ position;
    hasher <~ rlift (update_header (hash_new alg) kind (N.to_nat size));
    '(hasher, object_size) <~ read_zlib_content_hashing (D := D) hasher PARSE_LIMIT size;
    _ <~ rlift (validate_packed_inflated_size size (N.of_nat object_size));
    id <~ rlift (hash_finalize hasher);
    content <~
      (if pack_should_retain_content retain_all retention offset id then
         _ <~ seek content_start;
         content <~ read_zlib_content_from_cursor (D := D) PARSE_LIMIT size;
         _ <~ rlift (validate_packed_inflated_size size (N.of_nat (length content)));
         rret content
       else rret []);
    rret (MkParsed id kind content object_size)
  else
    content <~ read_zlib_content_from_cursor (D := D) PARSE_LIMIT size;
    _ <~ rlift (validate_packed_inflated_size size (N.of_nat (length content)));
    id <~ rlift (hash_object alg kind content);
    rret (MkParsed id kind content (length content)).

(** A delta on a base: the same, with the decoders of deltas. *)
Definition parse_delta_object (alg : GitHashAlgorithm) (retain_all : bool)
  (retention : PackRetentionPlan) (offset : N) (kind : GitObjectKind) (base_content : bytes)
  (size : N) : rd Cursor ParsedPackObject :=
  if pack_can_stream_hash_content retain_all retention offset then
    delta_start <~ position;
    '(id, result_size) <~
      apply_zlib_delta_hashing_from_cursor (D := D) alg kind base_content size PARSE_LIMIT;
    content <~
      (if pack_should_retain_content retain_all retention offset id then
         _ <~ seek delta_start;
         apply_zlib_delta_from_cursor (D := D) base_content size PARSE_LIMIT
       else rret []);
    rret (MkParsed id kind content result_size)
  else
    content <~ apply_zlib_delta_from_cursor (D := D) base_content size PARSE_LIMIT;
    id <~ rlift (hash_object alg kind content);
    rret (MkParsed id kind content (length content)).

(** ** Bases *)

(** The binary search by offset; the entries are in pack order. *)
Definition pack_object_offset_index (entries : list PackIndexEntry) (offset : N)
  : outcome (option nat) :=
  found ← binary_search_by (fun entry => (pe_offset entry ?= offset)%N) entries;
  Ok (match found with
      | inl index => Some (as_u32 index)
      | inr _ => None
      end).

Definition pack_object_id_index (entries : list PackIndexEntry) (id : ObjectId) : option nat :=
  as_u32 <$> Prelude.position (fun entry => bool_decide (as_bytes (pe_object_id entry) = as_bytes id)) entries.

Definition pack_external_base_index (objects : list LooseObject) (id : ObjectId) : option nat :=
  as_u32 <$> Prelude.position (fun object => bool_decide (as_bytes (lo_id object) = as_bytes id)) objects.

Definition id_map : Type := gmap ObjectId (GitObjectKind * PackObjectRef).

(** The loop of [pack_object_id_map] over the objects and their indices. *)
Fixpoint id_map_loop (entries : list PackIndexEntry) (retention : PackRetentionPlan)
  (retain_all : bool) (index : nat) (objects : list N) (by_id : id_map) : outcome id_map :=
  match objects with
  | [] => Ok by_id
  | object :: objects =>
      entry ← index_at entries index;
      let by_id :=
        if retain_all || map_contains (rt_ids retention) (pe_object_id entry)
        then <[pe_object_id entry := (object_data_kind object, Internal (as_u32 index))]> by_id
        else by_id in
      id_map_loop entries retention retain_all (index + 1) objects by_id
  end.

Definition pack_object_id_map (entries : list PackIndexEntry) (objects : list N)
  (retention : PackRetentionPlan) (retain_all : bool) : outcome id_map :=
  id_map_loop entries retention retain_all 0 objects ∅.

(** The store of a thin pack, if there is one. *)
Definition external_lookup : Type := option (ObjectId -> outcome LooseObject).

(** An object of the pack as a base. *)
Definition internal_base (objects : list N) (retained_contents : list bytes) (retain_all : bool)
  (kind : N -> GitObjectKind) (index : nat) : outcome PackResolvedBase :=
  object ← index_at objects index;
  _ ← check (negb retain_all && negb (object_data_has_content object)) InvalidData
        "ref-delta base object content was not retained";
  Ok (MkResolved (kind object) (object_data_content object retained_contents) (Some index)).

(** An object of the store as a base: it joins the external bases. *)
Definition load_external (base_id : ObjectId) (external_store : external_lookup)
  : outcome LooseObject :=
  store ← ok_or external_store InvalidData "ref-delta base object not found";
  store base_id.

Definition pack_ref_delta_base_linear (base_id : ObjectId) (entries : list PackIndexEntry)
  (objects : list N) (retained_contents : list bytes) (retain_all : bool)
  (external_bases : list LooseObject) (external_store : external_lookup)
  : outcome (PackResolvedBase * list LooseObject) :=
  match pack_object_id_index entries base_id with
  | Some index =>
      base ← internal_base objects retained_contents retain_all object_data_kind index;
      Ok (base, external_bases)
  | None =>
      match pack_external_base_index external_bases base_id with
      | Some index =>
          object ← index_at external_bases index;
          Ok (MkResolved (lo_kind object) (lo_content object) None, external_bases)
      | None =>
          object ← load_external base_id external_store;
          Ok (MkResolved (lo_kind object) (lo_content object) None, external_bases ++ [object])
      end
  end.

Definition pack_ref_delta_base_mapped (base_id : ObjectId) (by_id : id_map) (objects : list N)
  (retained_contents : list bytes) (retain_all : bool) (external_bases : list LooseObject)
  (external_store : external_lookup) : outcome (PackResolvedBase * id_map * list LooseObject) :=
  match by_id !! base_id with
  | Some (kind, Internal index) =>
      base ← internal_base objects retained_contents retain_all (fun _ => kind) index;
      Ok (base, by_id, external_bases)
  | Some (kind, External index) =>
      object ← index_at external_bases index;
      Ok (MkResolved kind (lo_content object) None, by_id, external_bases)
  | None =>
      object ← load_external base_id external_store;
      let index := as_u32 (length external_bases) in
      Ok (MkResolved (lo_kind object) (lo_content object) None,
          <[base_id := (lo_kind object, External index)]> by_id, external_bases ++ [object])
  end.

(** The objects and the contents after a base was used. *)
Definition pack_release_internal_base_if_unused (objects : list N) (entries : list PackIndexEntry)
  (retain_all : bool) (retention : PackRetentionPlan) (index : nat) (offset : N)
  (retained_contents : list bytes) : outcome (list N * list bytes) :=
  if retain_all then Ok (objects, retained_contents) else
  match objects !! index with
  | None => Ok (objects, retained_contents)
  | Some object =>
      entry ← index_at entries index;
      if pack_should_retain_content false retention offset (pe_object_id entry)
      then Ok (objects, retained_contents)
      else
        let '(object, retained_contents) := release_content object retained_contents in
        Ok (<[index := object]> objects, retained_contents)
  end.

(** ** The main pass *)

(** What the loop carries from entry to entry. *)
Record ParseState : Type := MkParseState {
  ps_retention : PackRetentionPlan;
  ps_by_id : option id_map;
  ps_external_bases : list LooseObject;
  ps_entries : list PackIndexEntry;
  ps_objects : list N;
  ps_contents : list bytes;
  ps_metadata : list N
}.

(** An offset delta. *)
Definition parse_ofs_delta (alg : GitHashAlgorithm) (retain_all : bool) (s : ParseState) (offset size : N)
  : rd Cursor (ParsedPackObject * ParseState) :=
  base_offset <~ read_base_offset offset;
  found <~ rlift (pack_object_offset_index (ps_entries s) base_offset);
  base_index <~ rlift (ok_or found InvalidData "ofs-delta base object not found");
  base_object <~ rlift (index_at (ps_objects s) base_index);
  let kind := object_data_kind base_object in
  _ <~ rlift (check (negb (object_data_has_content base_object)) InvalidData
                "ofs-delta base object content was not retained");
  let base_content := object_data_content base_object (ps_contents s) in
  parsed <~ parse_delta_object alg retain_all (ps_retention s) offset kind base_content size;
  let retention := consume_offset (ps_retention s) base_offset in
  '(objects, contents) <~
    rlift (pack_release_internal_base_if_unused (ps_objects s) (ps_entries s) retain_all retention
             base_index base_offset (ps_contents s));
  rret (parsed, MkParseState retention (ps_by_id s) (ps_external_bases s) (ps_entries s) objects
                  contents (ps_metadata s)).

(** The base of a reference delta, by either lookup. *)
Definition resolve_ref_base (base_id : ObjectId) (retain_all linear : bool)
  (external_store : external_lookup) (s : ParseState)
  : outcome (PackResolvedBase * option id_map * list LooseObject) :=
  if linear then
    '(base, external) ←
      pack_ref_delta_base_linear base_id (ps_entries s) (ps_objects s) (ps_contents s) retain_all
        (ps_external_bases s) external_store;
    Ok (base, ps_by_id s, external)
  else
    by_id ← match ps_by_id s with
            | Some by_id => Ok by_id
            | None => pack_object_id_map (ps_entries s) (ps_objects s) (ps_retention s) retain_all
            end;
    '(base, by_id, external) ←
      pack_ref_delta_base_mapped base_id by_id (ps_objects s) (ps_contents s) retain_all
        (ps_external_bases s) external_store;
    Ok (base, Some by_id, external).

(** A reference delta. *)
Definition parse_ref_delta (alg : GitHashAlgorithm) (retain_all linear : bool)
  (external_store : external_lookup) (s : ParseState) (offset size : N)
  : rd Cursor (ParsedPackObject * ParseState) :=
  base_id <~ read_base_id alg;
  '(base, by_id, external) <~ rlift (resolve_ref_base base_id retain_all linear external_store s);
  parsed <~ parse_delta_object alg retain_all (ps_retention s) offset (rb_kind base) (rb_content base) size;
  let retention := consume_id (ps_retention s) base_id in
  let by_id := if negb linear && negb (map_contains (rt_ids retention) base_id)
               then delete base_id <$> by_id else by_id in
  '(objects, contents) <~
    match rb_internal_index base with
    | None => rret (ps_objects s, ps_contents s)
    | Some base_index =>
        entry <~ rlift (index_at (ps_entries s) base_index);
        rlift (pack_release_internal_base_if_unused (ps_objects s) (ps_entries s) retain_all retention
                 base_index (pe_offset entry) (ps_contents s))
    end;
  rret (parsed, MkParseState retention by_id external (ps_entries s) objects contents (ps_metadata s)).

(** What the loop does with a parsed object: entry, id map, metadata and content slot. *)
Definition record_object (collect_sizes retain_all linear : bool) (offset crc32 : N)
  (parsed : ParsedPackObject) (s : ParseState) : outcome ParseState :=
  let entries := ps_entries s ++ [MkPackEntry offset (pp_id parsed) crc32] in
  let retain_content := pack_should_retain_content retain_all (ps_retention s) offset (pp_id parsed) in
  let object_index := length (ps_objects s) in
  let by_id :=
    if negb linear && (retain_all || map_contains (rt_ids (ps_retention s)) (pp_id parsed))
    then <[pp_id parsed := (pp_kind parsed, Internal (as_u32 object_index))]> <$> ps_by_id s
    else ps_by_id s in
  metadata ← (if collect_sizes
              then m ← object_metadata_new (pp_kind parsed) (pp_size parsed); Ok (ps_metadata s ++ [m])
              else Ok (ps_metadata s));
  let '(contents, content_slot) :=
    if retain_content || (pp_size parsed =? 0)
    then (ps_contents s ++ [pp_content parsed], Some (length (ps_contents s)))
    else (ps_contents s, None) in
  object ← object_data_new (pp_kind parsed) content_slot;
  Ok (MkParseState (ps_retention s) by_id (ps_external_bases s) entries (ps_objects s ++ [object])
        contents metadata).

(** One turn of the loop of [parse_pack_entries_validated]. *)
Definition parse_entry (alg : GitHashAlgorithm) (pack : bytes) (collect_sizes retain_all linear : bool)
  (external_store : external_lookup) (s : ParseState) : rd Cursor ParseState :=
  offset <~ position;
  header <~ read_pack_object_header;
  '(parsed, s) <~
    match header with
    | Base kind size =>
        parsed <~ parse_base_object alg retain_all (ps_retention s) offset kind size;
        rret (parsed, s)
    | OfsDelta size => parse_ofs_delta alg retain_all s offset size
    | RefDelta size => parse_ref_delta alg retain_all linear external_store s offset size
    end;
  crc_end <~ position;
  crc_bytes <~ rlift (slice pack (N.to_nat offset) (N.to_nat crc_end));
  rlift (record_object collect_sizes retain_all linear offset (crc32_hash crc_bytes) parsed s).

Fixpoint parse_entries_loop (count : nat) (alg : GitHashAlgorithm) (pack : bytes)
  (collect_sizes retain_all linear : bool) (external_store : external_lookup) (s : ParseState)
  : rd Cursor ParseState :=
  match count with
  | 0 => rret s
  | S count =>
      s <~ parse_entry alg pack collect_sizes retain_all linear external_store s;
      parse_entries_loop count alg pack collect_sizes retain_all linear external_store s
  end.

(** Contents are taken from their slots, which are left empty. *)
Definition pack_take_retained_content (retained_contents : list bytes) (content_slot : option nat)
  : bytes * list bytes :=
  match content_slot with
  | None => ([], retained_contents)
  | Some slot =>
      match retained_contents !! slot with
      | None => ([], retained_contents)
      | Some content => (content, <[slot := []]> retained_contents)
      end
  end.

Fixpoint pack_return_parsed_objects (entries : list PackIndexEntry) (objects : list N)
  (retained_contents : list bytes) : list PackObjectData :=
  match entries, objects with
  | entry :: entries, object :: objects =>
      let '(content, retained_contents) :=
        pack_take_retained_content retained_contents (object_data_slot object) in
      MkPackData (pe_object_id entry) (object_data_kind object) content
        :: pack_return_parsed_objects entries objects retained_contents
  | _, _ => []
  end.

Definition parse_pack_entries_validated (alg : GitHashAlgorithm) (pack : bytes)
  (external_store : external_lookup) (collect_sizes retain_all : bool)
  (retention : option PackRetentionPlan) (validated : ValidatedPackHeader) : outcome ParsedPack :=
  let '(MkValidated pack_id object_count trailer_start) := validated in
  _ ← assert (12 + digest_len alg <=? length pack);
  _ ← assert (trailer_start + digest_len alg =? length pack);
  retention ←
    (if retain_all then Ok retention_empty else
     match retention with
     | Some retention => Ok retention
     | None => collect_pack_delta_base_references alg pack object_count trailer_start
     end);
  c ← entries_cursor pack trailer_start;
  let linear := pack_ref_delta_uses_linear_lookup retain_all (size (rt_ids retention)) in
  s ← ((s <~ parse_entries_loop object_count alg pack collect_sizes retain_all linear external_store
               (MkParseState retention None [] [] [] [] []);
        _ <~ check_trailing trailer_start;
        rret s) c).1;
  Ok (MkParsedPack pack_id trailer_start (ps_entries s)
        (if retain_all then pack_return_parsed_objects (ps_entries s) (ps_objects s) (ps_contents s)
         else [])
        (ps_metadata s) (ps_external_bases s)).

Definition parse_pack_entries (alg : GitHashAlgorithm) (pack : bytes)
  (external_store : external_lookup) (collect_sizes retain_all : bool)
  (retention : option PackRetentionPlan) : outcome ParsedPack :=
  validated ← validate_pack_header_and_checksum alg pack;
  parse_pack_entries_validated alg pack external_store collect_sizes retain_all retention validated.

(** ** The callers *)

Definition decode_pack_objects (alg : GitHashAlgorithm) (pack : bytes) : outcome (list PackObjectData) :=
  parsed ← parse_pack_entries alg pack None false true None;
  Ok (pk_objects parsed).

Definition decode_pack_objects_with_store `{GitObjectStore St} (alg : GitHashAlgorithm) (pack : bytes)
  (external_store : St) : outcome (list PackObjectData) :=
  parsed ← parse_pack_entries alg pack (Some (read_object external_store)) false true None;
  Ok (pk_objects parsed).
End parser.
Arguments parse_pack_entries {_ _} D {_} alg pack external_store collect_sizes retain_all retention.
Arguments decode_pack_objects {_ _} D {_} alg pack.
