(* ===== verification/PackIndex.v ===== *)
(** * Pack indexes (zmin-git-core/src/pack.rs): the encoders of versions 1 and 2 and of the reverse
      index, the validated layout, lookups by id and by prefix, and the walks over entries *)
From S2P Require Import Prelude Order Object Store PackParse.

(** ** Constants and data *)

Definition IDX_MAGIC : bytes := [Byte.xff; "t"%byte; "O"%byte; "c"%byte].
Definition RIDX_MAGIC : bytes := bstr "RIDX".
Definition IDX_VERSION : N := 2.
Definition RIDX_VERSION : N := 1.

Inductive PackIndexVersion : Set := V1 | V2.

#[export] Instance PackIndexVersion_eq_dec : EqDecision PackIndexVersion.
Proof. solve_decision. Defined.

Record IndexedPack : Set := MkIndexed {
  ip_pack_id : ObjectId;
  ip_index : bytes;
  ip_reverse_index : bytes;
  ip_objects : nat
}.

(** Where the entries stand in the index. *)
Inductive PackIndexPositions : Set :=
| Identity (len : nat)
| Sorted (positions : list nat).

Record PackIndexLayout : Set := MkLayout {
  names_start : nat;
  v2_crc_start : nat;
  v2_offsets_start : nat;
  v2_large_offsets_start : nat
}.

Record PackIndex : Set := MkPackIndex {
  pi_bytes : bytes;
  pi_fanout : list N;
  pi_count : nat;
  pi_algorithm : GitHashAlgorithm;
  pi_version : PackIndexVersion;
  pi_layout : PackIndexLayout
}.

(** [usize::checked_mul] on lengths. *)
Definition checked_mul (a b : nat) : option nat :=
  if (N.of_nat a * N.of_nat b <? usize_limit)%N then Some (a * b) else None.

(** [ok_or_else(pack_index_capacity_overflow)]. *)
Definition or_overflow {A} (o : option A) : outcome A := ok_or o InvalidData "pack index is too large".

(** ** Sizes and layout *)

Definition pack_index_fanout_start (version : PackIndexVersion) : nat :=
  match version with
  | V1 => 0
  | V2 => 8
  end.

Definition pack_index_v1_capacity (alg : GitHashAlgorithm) (entries : nat) : outcome nat :=
  entry_bytes ← or_overflow (checked_add 4 (digest_len alg));
  or_overflow (fanout ← checked_mul 256 4;
               body ← checked_mul entries entry_bytes;
               len ← checked_add fanout body;
               checked_add len (digest_len alg * 2)).

Definition pack_index_v2_capacity (alg : GitHashAlgorithm) (entries : nat) : outcome nat :=
  let digest_len := digest_len alg in
  per_entry ← or_overflow (len ← checked_add digest_len 4; checked_add len 4);
  or_overflow (header ← checked_add 8 (256 * 4);
               body ← checked_mul entries per_entry;
               len ← checked_add header body;
               checked_add len (digest_len * 2)).

Definition pack_large_offset_table_capacity (large_offsets : N) : outcome nat :=
  or_overflow (checked_mul (N.to_nat large_offsets) 8).

Definition pack_reverse_index_capacity (alg : GitHashAlgorithm) (entries : nat) : outcome nat :=
  or_overflow (body ← checked_mul entries 4;
               len ← checked_add 12 body;
               checked_add len (digest_len alg * 2)).

Definition pack_index_min_len (version : PackIndexVersion) (entries digest_len records_start : nat)
  : outcome nat :=
  checksum_bytes ← or_overflow (checked_mul digest_len 2);
  per_entry ← or_overflow
    match version with
    | V1 => checked_add 4 digest_len
    | V2 => len ← checked_add digest_len 4; checked_add len 4
    end;
  or_overflow (body ← checked_mul entries per_entry;
               len ← checked_add records_start body;
               checked_add len checksum_bytes).

Definition pack_index_layout (version : PackIndexVersion) (entries digest_len : nat)
  : outcome PackIndexLayout :=
  names_start ← or_overflow (checked_add (pack_index_fanout_start version) (256 * 4));
  if decide (version = V1) then Ok (MkLayout names_start names_start names_start names_start) else
  names_bytes ← or_overflow (checked_mul entries digest_len);
  table_bytes ← or_overflow (checked_mul entries 4);
  v2_crc_start ← or_overflow (checked_add names_start names_bytes);
  v2_offsets_start ← or_overflow (checked_add v2_crc_start table_bytes);
  v2_large_offsets_start ← or_overflow (checked_add v2_offsets_start table_bytes);
  Ok (MkLayout names_start v2_crc_start v2_offsets_start v2_large_offsets_start).

(** ** Reading integers *)

Definition read_u32 (bs : bytes) (offset : nat) : outcome N :=
  slice ← ok_or (get_range bs offset (offset + 4)) InvalidData "u32 is truncated";
  Ok (from_be slice).

Definition read_u64 (bs : bytes) (offset : nat) : outcome N :=
  slice ← ok_or (get_range bs offset (offset + 8)) InvalidData "u64 is truncated";
  Ok (from_be slice).

(** ** Positions *)

Definition positions_len (p : PackIndexPositions) : nat :=
  match p with
  | Identity len => len
  | Sorted positions => length positions
  end.

(** What [PackIndexPositionIter] yields: [position_at] of every index in turn. *)
Definition positions_iter (p : PackIndexPositions) : list nat :=
  match p with
  | Identity len => map as_u32 (seq 0 len)
  | Sorted positions => positions
  end.

Definition pack_index_entries_are_sorted (entries : list PackIndexEntry) : bool :=
  windows2_all (fun x y => bool_decide
    (cmp_bytes (as_bytes (pe_object_id x)) (as_bytes (pe_object_id y)) <> Gt)) entries.

(** The id under a position, which is in range. *)
Definition id_at (entries : list PackIndexEntry) (position : nat) : bytes :=
  match entries !! position with
  | Some entry => as_bytes (pe_object_id entry)
  | None => []
  end.

Definition sorted_pack_index_positions `{UnstableSort} (entries : list PackIndexEntry)
  : outcome PackIndexPositions :=
  _ ← check (2 ^ 32 - 1 <? N.of_nat (length entries))%N InvalidData "pack index has too many objects";
  if pack_index_entries_are_sorted entries then Ok (Identity (length entries)) else
  Ok (Sorted (sort_unstable_by nat (by_key (id_at entries) cmp_bytes) (seq 0 (length entries)))).

(** ** Encoding *)

(** The loop [while] of one fanout bucket, over the positions from [next] on. *)
Fixpoint bucket_loop (entries : list PackIndexEntry) (bucket : N) (positions : list nat) (count : N)
  : outcome (list nat * N) :=
  match positions with
  | [] => Ok (positions, count)
  | position :: rest =>
      entry ← index_at entries position;
      first ← index_at (as_bytes (pe_object_id entry)) 0;
      if (u8 first <=? bucket)%N then
        count ← ok_or (if (count + 1 <? 2 ^ 32)%N then Some (count + 1)%N else None) InvalidData
                  "pack index has too many objects";
        bucket_loop entries bucket rest count
      else Ok (positions, count)
  end.

(** The loop [for bucket in 0..=255]. *)
Fixpoint fanout_loop (entries : list PackIndexEntry) (buckets : nat) (bucket : N)
  (positions : list nat) (count : N) (out : bytes) : outcome bytes :=
  match buckets with
  | 0 => Ok out
  | S buckets =>
      '(positions, count) ← bucket_loop entries bucket positions count;
      fanout_loop entries buckets (bucket + 1) positions count (out ++ to_be 4 count)
  end.

(** A loop [for position in sorted_positions.iter()] that appends to the output. *)
Fixpoint each_entry {S} (f : PackIndexEntry -> S -> outcome S) (entries : list PackIndexEntry)
  (positions : list nat) (s : S) : outcome S :=
  match positions with
  | [] => Ok s
  | position :: positions =>
      entry ← index_at entries position;
      s ← f entry s;
      each_entry f entries positions s
  end.

(** The pack's checksum and the checksum of the index. *)
Definition append_trailer `{Sha} (alg : GitHashAlgorithm) (pack_id : ObjectId) (out : bytes)
  : outcome bytes :=
  _ ← check (negb (bool_decide (algorithm pack_id = alg))) InvalidInput "pack checksum algorithm mismatch";
  let out := out ++ as_bytes pack_id in
  id ← hash_finalize (hash_update (hash_new alg) out);
  Ok (out ++ as_bytes id).

Definition v1_record (entry : PackIndexEntry) (out : bytes) : outcome bytes :=
  _ ← check (2 ^ 32 - 1 <? pe_offset entry)%N InvalidData
        "pack index v1 cannot represent offsets above 4GiB";
  Ok (out ++ to_be 4 (pe_offset entry) ++ as_bytes (pe_object_id entry)).

Definition encode_pack_index_v1 `{Sha} (alg : GitHashAlgorithm) (pack_id : ObjectId)
  (entries : list PackIndexEntry) (sorted_positions : PackIndexPositions) : outcome bytes :=
  _ ← check (2 ^ 32 - 1 <? N.of_nat (length entries))%N InvalidData "pack index has too many objects";
  _ ← pack_index_v1_capacity alg (length entries);
  let positions := positions_iter sorted_positions in
  out ← fanout_loop entries 256 0 positions 0 [];
  out ← each_entry v1_record entries positions out;
  append_trailer alg pack_id out.

(** The slot of an offset: itself, or the number of its large offset. *)
Definition v2_offset (entry : PackIndexEntry) (s : bytes * N) : outcome (bytes * N) :=
  let '(out, large_offsets) := s in
  if (pe_offset entry <=? 2147483647)%N then Ok (out ++ to_be 4 (pe_offset entry), large_offsets) else
  next ← ok_or (if (large_offsets + 1 <? 2 ^ 32)%N then Some (large_offsets + 1)%N else None) InvalidData
           "too many large pack offsets";
  Ok (out ++ to_be 4 (N.lor 2147483648 large_offsets), next).

Definition v2_large_offset (entry : PackIndexEntry) (out : bytes) : outcome bytes :=
  Ok (if (2147483647 <? pe_offset entry)%N then out ++ to_be 8 (pe_offset entry) else out).

Definition encode_pack_index_v2 `{Sha} (alg : GitHashAlgorithm) (pack_id : ObjectId)
  (entries : list PackIndexEntry) (sorted_positions : PackIndexPositions) : outcome bytes :=
  _ ← pack_index_v2_capacity alg (length entries);
  let positions := positions_iter sorted_positions in
  out ← fanout_loop entries 256 0 positions 0 (IDX_MAGIC ++ to_be 4 IDX_VERSION);
  out ← each_entry (fun entry out => Ok (out ++ as_bytes (pe_object_id entry))) entries positions out;
  out ← each_entry (fun entry out => Ok (out ++ to_be 4 (pe_crc32 entry))) entries positions out;
  '(out, large_offsets) ← each_entry v2_offset entries positions (out, 0%N);
  out ←
    (if (0 <? large_offsets)%N then
       _ ← pack_large_offset_table_capacity large_offsets;
       each_entry v2_large_offset entries positions out
     else Ok out);
  append_trailer alg pack_id out.

Definition encode_pack_index_with_positions_version `{Sha} (alg : GitHashAlgorithm)
  (pack_id : ObjectId) (entries : list PackIndexEntry) (sorted_positions : PackIndexPositions)
  (version : PackIndexVersion) : outcome bytes :=
  _ ← check (negb (length entries =? positions_len sorted_positions)) InvalidData
        "pack index entry count mismatch";
  match version with
  | V1 => encode_pack_index_v1 alg pack_id entries sorted_positions
  | V2 => encode_pack_index_v2 alg pack_id entries sorted_positions
  end.

Definition encode_pack_index_from_owned_entries `{Sha, UnstableSort} (alg : GitHashAlgorithm)
  (pack_id : ObjectId) (entries : list PackIndexEntry) (version : PackIndexVersion) : outcome bytes :=
  let entries :=
    if negb (pack_index_entries_are_sorted entries)
    then sort_unstable_by PackIndexEntry (by_key (fun e => as_bytes (pe_object_id e)) cmp_bytes) entries
    else entries in
  encode_pack_index_with_positions_version alg pack_id entries (Identity (length entries)) version.

(** ** The reverse index *)

Definition reverse_index_hash_version (alg : GitHashAlgorithm) : N :=
  match alg with
  | Sha1 => 1
  | Sha256 => 2
  end.

(** The loop that inverts the positions. *)
Fixpoint invert_loop (len index_position : nat) (positions by_pack : list nat) : outcome (list nat) :=
  match positions with
  | [] => Ok by_pack
  | pack_position :: positions =>
      _ ← check (len <=? pack_position) InvalidData "pack reverse index position out of range";
      _ ← check (negb (N.of_nat index_position <? 2 ^ 32)%N) InvalidData
            "pack reverse index has too many objects";
      by_pack ← set_at by_pack pack_position index_position;
      invert_loop len (index_position + 1) positions by_pack
  end.

Definition encode_pack_reverse_index_from_positions `{Sha} (alg : GitHashAlgorithm)
  (pack_id : ObjectId) (entries : list PackIndexEntry) (sorted_positions : PackIndexPositions)
  : outcome bytes :=
  _ ← check (negb (bool_decide (algorithm pack_id = alg))) InvalidInput "pack checksum algorithm mismatch";
  _ ← check (2 ^ 32 - 1 <? N.of_nat (length entries))%N InvalidData
        "pack reverse index has too many objects";
  _ ← check (negb (length entries =? positions_len sorted_positions)) InvalidData
        "pack reverse index entry count mismatch";
  _ ← pack_reverse_index_capacity alg (length entries);
  let out := RIDX_MAGIC ++ to_be 4 RIDX_VERSION ++ to_be 4 (reverse_index_hash_version alg) in
  index_positions ←
    match sorted_positions with
    | Identity len => Ok (seq 0 len)
    | Sorted positions => invert_loop (length entries) 0 positions (replicate (length entries) 0)
    end;
  let out := out ++ concat (map (fun p => to_be 4 (N.of_nat p)) index_positions) in
  append_trailer alg pack_id out.

(** Index and reverse index of a pack's entries. *)
Definition index_pack_from_entries `{Sha, UnstableSort} (alg : GitHashAlgorithm) (pack_id : ObjectId)
  (entries : list PackIndexEntry) (version : PackIndexVersion) : outcome IndexedPack :=
  sorted_positions ← sorted_pack_index_positions entries;
  index ← encode_pack_index_with_positions_version alg pack_id entries sorted_positions version;
  reverse_index ← encode_pack_reverse_index_from_positions alg pack_id entries sorted_positions;
  Ok (MkIndexed pack_id index reverse_index (length entries)).

(** ** Reading: the validated layout *)

Definition pack_index_version (bs : bytes) : outcome PackIndexVersion :=
  _ ← check (length bs <? 4) InvalidData "pack index is too short";
  magic ← slice bs 0 4;
  Ok (if bool_decide (magic = IDX_MAGIC) then V2 else V1).

(** The 256 words from [start] on. *)
Fixpoint read_fanout (bs : bytes) (start words : nat) : outcome (list N) :=
  match words with
  | 0 => Ok []
  | S words =>
      value ← read_u32 bs start;
      fanout ← read_fanout bs (start + 4) words;
      Ok (value :: fanout)
  end.

Definition check_idx_version (version : PackIndexVersion) (bs : bytes) : outcome unit :=
  if decide (version = V2) then
    raw_version ← read_u32 bs 4;
    check (negb (raw_version =? IDX_VERSION)%N) InvalidData "unsupported pack index version"
  else Ok tt.

Definition validate_pack_index_checksum `{Sha} (alg : GitHashAlgorithm) (bs : bytes) : outcome unit :=
  let digest_len := digest_len alg in
  _ ← check (length bs <? digest_len) InvalidData "pack index checksum is truncated";
  let checksum_start := length bs - digest_len in
  payload ← slice bs 0 checksum_start;
  id ← hash_finalize (hash_update (hash_new alg) payload);
  checksum ← slice bs checksum_start (length bs);
  check (negb (bool_decide (as_bytes id = checksum))) InvalidData "pack index checksum mismatch".

Definition validate_pack_index_layout `{Sha} (alg : GitHashAlgorithm) (bs : bytes)
  : outcome (list N * nat * PackIndexVersion * PackIndexLayout) :=
  _ ← check (length bs <? 8 + 256 * 4) InvalidData "pack index is too short";
  version ← pack_index_version bs;
  _ ← check_idx_version version bs;
  fanout ← read_fanout bs (pack_index_fanout_start version) 256;
  _ ← check (negb (windows2_all (fun a b => negb (b <? a)%N) fanout)) InvalidData
        "pack index fanout is not sorted";
  last ← index_at fanout 255;
  let count := N.to_nat last in
  let digest_len := digest_len alg in
  layout ← pack_index_layout version count digest_len;
  min_len ← pack_index_min_len version count digest_len (names_start layout);
  _ ← check (length bs <? min_len) InvalidData "pack index is truncated";
  _ ← validate_pack_index_checksum alg bs;
  Ok (fanout, count, version, layout).

Definition validate_pack_index_bytes `{Sha} (alg : GitHashAlgorithm) (bs : bytes) : outcome unit :=
  _ ← validate_pack_index_layout alg bs;
  Ok tt.

Definition read_bytes `{Sha} (bs : bytes) (alg : GitHashAlgorithm) : outcome PackIndex :=
  '(fanout, count, version, layout) ← validate_pack_index_layout alg bs;
  Ok (MkPackIndex bs fanout count alg version layout).

(** The count from the header alone, with the fanout checked on the way. *)
Fixpoint header_count_loop (header : bytes) (start words : nat) (previous : N) : outcome N :=
  match words with
  | 0 => Ok previous
  | S words =>
      value ← read_u32 header start;
      _ ← check (value <? previous)%N InvalidData "pack index fanout is not sorted";
      header_count_loop header (start + 4) words value
  end.

Definition pack_index_object_count_from_header (header : bytes) : outcome nat :=
  _ ← check (length header <? 8 + 256 * 4) InvalidData "pack index is too short";
  version ← pack_index_version header;
  _ ← check_idx_version version header;
  previous ← header_count_loop header (pack_index_fanout_start version) 256 0;
  Ok (N.to_nat previous).

Definition validate_pack_reverse_index `{Sha} (alg : GitHashAlgorithm) (bs : bytes) (objects : nat)
  : outcome unit :=
  let expected_len := 12 + objects * 4 + digest_len alg * 2 in
  _ ← check (negb (length bs =? expected_len)) InvalidData "pack reverse index has the wrong length";
  magic ← slice bs 0 4;
  _ ← check (negb (bool_decide (magic = RIDX_MAGIC))) InvalidData
        "unsupported pack reverse index signature";
  version ← read_u32 bs 4;
  _ ← check (negb (version =? RIDX_VERSION)%N) InvalidData "unsupported pack reverse index version";
  hash_version ← read_u32 bs 8;
  _ ← check (negb (hash_version =? reverse_index_hash_version alg)%N) InvalidData
        "pack reverse index hash version mismatch";
  validate_pack_index_checksum alg bs.

(** ** Reading: one entry *)

Definition pi_names_start (pi : PackIndex) : nat := names_start (pi_layout pi).

Definition object_bytes_at_with_layout (pi : PackIndex) (idx digest_len names_start : nat)
  : outcome bytes :=
  let start := match pi_version pi with
               | V1 => names_start + idx * (4 + digest_len) + 4
               | V2 => names_start + idx * digest_len
               end in
  slice (pi_bytes pi) start (start + digest_len).

Definition object_bytes_at (pi : PackIndex) (idx : nat) : outcome bytes :=
  object_bytes_at_with_layout pi idx (digest_len (pi_algorithm pi)) (pi_names_start pi).

Definition v2_offset_at (pi : PackIndex) (idx offsets_start large_offsets_start : nat) : outcome N :=
  offset ← read_u32 (pi_bytes pi) (offsets_start + idx * 4);
  if (N.land offset 2147483648 =? 0)%N then Ok offset else
  let large_idx := N.to_nat (N.land offset 2147483647) in
  large_start ← or_overflow (offset ← checked_mul large_idx 8; checked_add large_offsets_start offset);
  read_u64 (pi_bytes pi) large_start.

(** The offset in a record of version 1. *)
Definition v1_offset (pi : PackIndex) (start : nat) : outcome N :=
  offset ← read_u32 (pi_bytes pi) start;
  _ ← check (negb (N.land offset 2147483648 =? 0)%N) InvalidData
        "pack index v1 uses only 32-bit offsets";
  Ok offset.

Definition offset_at (pi : PackIndex) (idx : nat) : outcome N :=
  if decide (pi_version pi = V1) then
    v1_offset pi (pi_names_start pi + idx * (4 + digest_len (pi_algorithm pi)))
  else v2_offset_at pi idx (v2_offsets_start (pi_layout pi)) (v2_large_offsets_start (pi_layout pi)).

Definition crc_at (pi : PackIndex) (idx : nat) : outcome N :=
  if decide (pi_version pi = V1) then Ok 0%N
  else read_u32 (pi_bytes pi) (v2_crc_start (pi_layout pi) + idx * 4).

Definition pack_checksum (pi : PackIndex) : outcome ObjectId :=
  let digest_len := digest_len (pi_algorithm pi) in
  let start := length (pi_bytes pi) - digest_len * 2 in
  bs ← slice (pi_bytes pi) start (start + digest_len);
  ObjectId_new (pi_algorithm pi) bs.

(** ** Lookups *)

(** A binary search of a half-open range by an index; every turn shrinks it. *)
Fixpoint search_loop (mid_of : nat -> nat -> nat) (probe : nat -> outcome comparison)
  (fuel left right : nat) : outcome (option nat) :=
  if left <? right then
    match fuel with
    | 0 => NoFuel
    | S fuel =>
        let mid := mid_of left right in
        c ← probe mid;
        match c with
        | Lt => search_loop mid_of probe fuel (mid + 1) right
        | Gt => search_loop mid_of probe fuel left mid
        | Eq => Ok (Some mid)
        end
    end
  else Ok None.

Definition binary_search_object_name (names : bytes) (digest_len start stop : nat) (needle : bytes)
  : outcome (option nat) :=
  search_loop (fun left right => left + (right - left) / 2)
    (fun mid => name ← slice names (mid * digest_len) ((mid + 1) * digest_len);
                Ok (cmp_bytes name needle))
    (stop - start) start stop.

Definition offset_for (pi : PackIndex) (id : ObjectId) : outcome (option N) :=
  first ← index_at (as_bytes id) 0;
  let first := N.to_nat (u8 first) in
  start ← (if first =? 0 then Ok 0%N else index_at (pi_fanout pi) (first - 1));
  stop ← index_at (pi_fanout pi) first;
  let start := N.to_nat start in
  let stop := N.to_nat stop in
  let needle := as_bytes id in
  let digest_len := digest_len (pi_algorithm pi) in
  found ←
    match pi_version pi with
    | V1 =>
        search_loop (fun lo hi => (lo + hi) / 2)
          (fun mid => name ← object_bytes_at_with_layout pi mid digest_len (pi_names_start pi);
                      Ok (cmp_bytes name needle))
          (stop - start) start stop
    | V2 =>
        names ← slice (pi_bytes pi) (pi_names_start pi) (pi_names_start pi + pi_count pi * digest_len);
        binary_search_object_name names digest_len start stop needle
    end;
  match found with
  | Some idx => offset ← offset_at pi idx; Ok (Some offset)
  | None => Ok None
  end.

(** ** Walks *)

(** A loop [for idx in idx..idx + count] over a state. *)
Fixpoint for_indices {S} (f : nat -> S -> outcome S) (count idx : nat) (s : S) : outcome S :=
  match count with
  | 0 => Ok s
  | Datatypes.S count =>
      s ← f idx s;
      for_indices f count (idx + 1) s
  end.

(** The same, stopped when the callback says so. *)
Fixpoint for_indices_until {S} (f : nat -> S -> outcome (bool * S)) (count idx : nat) (s : S)
  : outcome S :=
  match count with
  | 0 => Ok s
  | Datatypes.S count =>
      '(more, s) ← f idx s;
      if negb more then Ok s else for_indices_until f count (idx + 1) s
  end.

(** The entry at an index, as the two loops of [for_each_entry] read it. *)
Definition entry_at (pi : PackIndex) (idx : nat) : outcome PackIndexEntry :=
  let digest_len := digest_len (pi_algorithm pi) in
  let names_start := pi_names_start pi in
  match pi_version pi with
  | V1 =>
      let record_start := names_start + idx * (4 + digest_len) in
      offset ← v1_offset pi record_start;
      name ← slice (pi_bytes pi) (record_start + 4) (record_start + 4 + digest_len);
      id ← ObjectId_new (pi_algorithm pi) name;
      Ok (MkPackEntry offset id 0)
  | V2 =>
      offset ← v2_offset_at pi idx (v2_offsets_start (pi_layout pi)) (v2_large_offsets_start (pi_layout pi));
      name ← slice (pi_bytes pi) (names_start + idx * digest_len) (names_start + (idx + 1) * digest_len);
      id ← ObjectId_new (pi_algorithm pi) name;
      crc32 ← read_u32 (pi_bytes pi) (v2_crc_start (pi_layout pi) + idx * 4);
      Ok (MkPackEntry offset id crc32)
  end.

Definition for_each_entry {S} (pi : PackIndex) (for_each : PackIndexEntry -> S -> outcome S) (s : S)
  : outcome S :=
  for_indices (fun idx s => entry ← entry_at pi idx; for_each entry s) (pi_count pi) 0 s.

Definition pi_entries (pi : PackIndex) : outcome (list PackIndexEntry) :=
  for_each_entry pi (fun entry entries => Ok (entries ++ [entry])) [].

Definition decode_pack_index `{Sha} (alg : GitHashAlgorithm) (bs : bytes)
  : outcome (list PackIndexEntry) :=
  pi ← read_bytes bs alg;
  pi_entries pi.

Definition object_ids (pi : PackIndex) : outcome (list ObjectId) :=
  for_indices (fun idx ids =>
      bs ← object_bytes_at_with_layout pi idx (digest_len (pi_algorithm pi)) (pi_names_start pi);
      id ← ObjectId_new (pi_algorithm pi) bs;
      Ok (ids ++ [id]))
    (pi_count pi) 0 [].

Definition decode_pack_index_object_ids `{Sha} (alg : GitHashAlgorithm) (bs : bytes)
  : outcome (list ObjectId) :=
  pi ← read_bytes bs alg;
  object_ids pi.

Definition for_each_object_id_bytes {S} (pi : PackIndex) (for_each : bytes -> S -> outcome (bool * S))
  (s : S) : outcome S :=
  for_indices_until (fun idx s =>
      bs ← object_bytes_at_with_layout pi idx (digest_len (pi_algorithm pi)) (pi_names_start pi);
      for_each bs s)
    (pi_count pi) 0 s.

Definition object_ids_all (pi : PackIndex) (predicate : ObjectId -> outcome bool) : outcome bool :=
  for_each_object_id_bytes pi (fun bs all =>
      id ← ObjectId_new (pi_algorithm pi) bs;
      holds ← predicate id;
      if negb holds then Ok (false, false) else Ok (true, all))
    true.

(** Both name tables walked once; every turn moves in the second. *)
Fixpoint subset_loop (needle haystack : PackIndex) (fuel needle_idx haystack_idx : nat) : outcome bool :=
  if needle_idx <? pi_count needle then
    if haystack_idx =? pi_count haystack then Ok false else
    match fuel with
    | 0 => NoFuel
    | S fuel =>
        n ← object_bytes_at_with_layout needle needle_idx (digest_len (pi_algorithm needle))
              (pi_names_start needle);
        h ← object_bytes_at_with_layout haystack haystack_idx (digest_len (pi_algorithm haystack))
              (pi_names_start haystack);
        match cmp_bytes n h with
        | Lt => Ok false
        | Eq => subset_loop needle haystack fuel (needle_idx + 1) (haystack_idx + 1)
        | Gt => subset_loop needle haystack fuel needle_idx (haystack_idx + 1)
        end
    end
  else Ok true.

Definition object_ids_are_subset_of (needle haystack : PackIndex) : outcome bool :=
  subset_loop needle haystack (pi_count haystack) 0 0.

Definition index_object_id_for_offset (pi : PackIndex) (offset : N) : outcome (option ObjectId) :=
  for_each_entry pi (fun entry found =>
      Ok (if (pe_offset entry =? offset)%N then Some (pe_object_id entry) else found)) None.

Definition index_next_offset_after (pi : PackIndex) (offset : N) : outcome (option N) :=
  for_each_entry pi (fun entry next =>
      Ok (if (offset <? pe_offset entry)%N &&
             match next with None => true | Some current => (pe_offset entry <? current)%N end
          then Some (pe_offset entry) else next)) None.

(** Whether an index lists exactly the entries of a pack, in its order. *)
Fixpoint matches_loop (pi : PackIndex) (entries : list PackIndexEntry) (positions : list nat)
  (sorted_idx : nat) : outcome bool :=
  match positions with
  | [] => Ok true
  | position :: positions =>
      entry ← index_at entries position;
      name ← object_bytes_at pi sorted_idx;
      if negb (bool_decide (name = as_bytes (pe_object_id entry))) then Ok false else
      offset ← offset_at pi sorted_idx;
      if negb (offset =? pe_offset entry)%N then Ok false else
      crc_differs ←
        (if decide (pi_version pi = V2) then
           crc32 ← crc_at pi sorted_idx;
           Ok (negb (crc32 =? pe_crc32 entry)%N)
         else Ok false);
      if crc_differs : bool then Ok false else matches_loop pi entries positions (sorted_idx + 1)
  end.

Definition pack_index_matches_entries `{UnstableSort} (pi : PackIndex)
  (expected_version : PackIndexVersion) (pack_id : ObjectId) (entries : list PackIndexEntry)
  : outcome bool :=
  if negb (bool_decide (pi_version pi = expected_version)) then Ok false else
  if negb (pi_count pi =? length entries) then Ok false else
  checksum ← pack_checksum pi;
  if negb (bool_decide (as_bytes checksum = as_bytes pack_id)) then Ok false else
  sorted_positions ← sorted_pack_index_positions entries;
  matches_loop pi entries (positions_iter sorted_positions) 0.

(** ** Prefixes *)

Definition record_prefix_candidate (resolved : option ObjectId) (candidate : ObjectId)
  : outcome (option ObjectId) :=
  match resolved with
  | Some existing =>
      if negb (bool_decide (existing = candidate))
      then fail InvalidInput "short git object id is ambiguous"
      else Ok resolved
  | None => Ok (Some candidate)
  end.

Definition prefix_nibble (b : byte) : outcome N :=
  let n := u8 b in
  if ((48 <=? n) && (n <=? 57))%N then Ok (n - 48)%N
  else if ((97 <=? n) && (n <=? 102))%N then Ok (n - 97 + 10)%N
  else if ((65 <=? n) && (n <=? 70))%N then Ok (n - 65 + 10)%N
  else fail InvalidInput "git object id prefix contains non-hex characters".

Definition write_bound_nibble (bs : bytes) (idx : nat) (nibble : N) : outcome bytes :=
  b ← index_at bs (idx / 2);
  set_at bs (idx / 2)
    (byte_of_N (N.lor (u8 b) (if idx mod 2 =? 0 then N.shiftl nibble 4 else nibble))).

(** The loop over the prefix: the lower bound, and the last nibble that can be incremented. *)
Fixpoint lower_bound_loop (hex_prefix : bytes) (idx : nat) (lower : bytes)
  (upper_increment : option (nat * N)) : outcome (bytes * option (nat * N)) :=
  match hex_prefix with
  | [] => Ok (lower, upper_increment)
  | b :: hex_prefix =>
      nibble ← prefix_nibble b;
      lower ← write_bound_nibble lower idx nibble;
      lower_bound_loop hex_prefix (idx + 1) lower
        (if (nibble <? 15)%N then Some (idx, (nibble + 1)%N) else upper_increment)
  end.

Fixpoint upper_bound_loop (hex_prefix : bytes) (idx : nat) (upper : bytes) : outcome bytes :=
  match hex_prefix with
  | [] => Ok upper
  | b :: hex_prefix =>
      nibble ← prefix_nibble b;
      upper ← write_bound_nibble upper idx nibble;
      upper_bound_loop hex_prefix (idx + 1) upper
  end.

Definition hex_prefix_search_bounds (hex_prefix : bytes) (alg : GitHashAlgorithm)
  : outcome (bytes * option bytes) :=
  '(lower, upper_increment) ←
    lower_bound_loop hex_prefix 0 (replicate (digest_len alg) Byte.x00) None;
  match upper_increment with
  | Some (increment_idx, increment_nibble) =>
      upper ← upper_bound_loop (take increment_idx hex_prefix) 0 (replicate (digest_len alg) Byte.x00);
      upper ← write_bound_nibble upper increment_idx increment_nibble;
      Ok (lower, Some upper)
  | None => Ok (lower, None)
  end.

Fixpoint match_prefix_loop (bs hex_prefix : bytes) (idx : nat) : outcome bool :=
  match hex_prefix with
  | [] => Ok true
  | expected :: hex_prefix =>
      b ← index_at bs (idx / 2);
      let nibble := if idx mod 2 =? 0 then N.shiftr (u8 b) 4 else N.land (u8 b) 15 in
      expected ← prefix_nibble expected;
      if negb (nibble =? expected)%N then Ok false else match_prefix_loop bs hex_prefix (idx + 1)
  end.

Definition object_bytes_match_hex_prefix (bs hex_prefix : bytes) : outcome bool :=
  match_prefix_loop bs hex_prefix 0.

(** The first index whose name is not below the needle. *)
Fixpoint lower_bound_search (pi : PackIndex) (needle : bytes) (fuel left right : nat) : outcome nat :=
  if left <? right then
    match fuel with
    | 0 => NoFuel
    | S fuel =>
        let mid := left + (right - left) / 2 in
        name ← object_bytes_at_with_layout pi mid (digest_len (pi_algorithm pi)) (pi_names_start pi);
        if bool_decide (cmp_bytes name needle = Lt)
        then lower_bound_search pi needle fuel (mid + 1) right
        else lower_bound_search pi needle fuel left mid
    end
  else Ok left.

Definition object_id_lower_bound_with_layout (pi : PackIndex) (needle : bytes) : outcome nat :=
  lower_bound_search pi needle (pi_count pi) 0 (pi_count pi).

Definition collect_prefix (pi : PackIndex) (hex_prefix : bytes) (resolved : option ObjectId)
  : outcome (option ObjectId) :=
  '(lower, upper) ← hex_prefix_search_bounds hex_prefix (pi_algorithm pi);
  start ← object_id_lower_bound_with_layout pi lower;
  stop ← match upper with
         | None => Ok (pi_count pi)
         | Some upper => object_id_lower_bound_with_layout pi upper
         end;
  for_indices (fun idx resolved =>
      bs ← object_bytes_at_with_layout pi idx (digest_len (pi_algorithm pi)) (pi_names_start pi);
      matching ← object_bytes_match_hex_prefix bs hex_prefix;
      _ ← assert matching;
      id ← ObjectId_new (pi_algorithm pi) bs;
      record_prefix_candidate resolved id)
    (stop - start) start resolved.
