(* ===== verification/PackIndexSpec.v ===== *)
(** * Pack indexes: what an encoded index lists, and what readers find in it *)
From S2P Require Import Prelude Order Object Store PackParse PackIndex.

(** ** Entries picked by positions *)

Abbreviation entry_key := (fun e : PackIndexEntry => as_bytes (pe_object_id e)).

(** [l] is what the positions select. *)
Definition picks (entries : list PackIndexEntry) (positions : list nat) (l : list PackIndexEntry) : Prop :=
  Forall2 (fun p e => entries !! p = Some e) positions l.

(** The monadic fold behind [each_entry]. *)
Fixpoint fold_out {S} (f : PackIndexEntry -> S -> outcome S) (l : list PackIndexEntry) (s : S) : outcome S :=
  match l with
  | [] => Ok s
  | e :: l => s ← f e s; fold_out f l s
  end.

Lemma each_entry_picks {S} (f : PackIndexEntry -> S -> outcome S) entries positions l :
  picks entries positions l -> forall s, each_entry f entries positions s = fold_out f l s.
Proof.
  induction 1 as [|p e positions l Hp _ IH]; intros s; [done|]. cbn [each_entry fold_out].
  unfold index_at. rewrite Hp. cbn [unwrap]. rewrite bind_Ok.
  destruct (f e s) as [s'| | |]; [by rewrite !bind_Ok, IH|done..].
Qed.

Lemma fold_out_append (g : PackIndexEntry -> bytes) l : forall out,
  fold_out (fun e out => Ok (out ++ g e)) l out = Ok (out ++ concat (map g l)).
Proof.
  induction l as [|e l IH]; intros out; cbn [fold_out map concat]; [by rewrite app_nil_r|].
  by rewrite bind_Ok, IH, app_assoc.
Qed.

Lemma picks_identity (entries : list PackIndexEntry) :
  (N.of_nat (length entries) < 2 ^ 32)%N -> picks entries (positions_iter (Identity (length entries))) entries.
Proof.
  intros Hl. apply Forall2_same_length_lookup_2; [cbn [positions_iter]; by rewrite length_map, length_seq|].
  intros i p e Hp He. cbn [positions_iter] in Hp. change (map as_u32 ?l) with (as_u32 <$> l) in Hp.
  rewrite list_lookup_fmap in Hp. pose proof (lookup_lt_Some _ _ _ He).
  rewrite lookup_seq_lt in Hp by done. injection Hp as <-. unfold as_u32.
  by rewrite N.mod_small, Nat2N.id by lia.
Qed.

Lemma picks_app_inv entries positions l1 l2 :
  picks entries positions (l1 ++ l2) ->
  exists p1 p2, positions = p1 ++ p2 /\ picks entries p1 l1 /\ picks entries p2 l2.
Proof. intros (p1 & p2 & H1 & H2 & ->)%Forall2_app_inv_r. by exists p1, p2. Qed.

(** ** The fanout *)

(** The first byte of an entry's id. *)
Definition first_byte (e : PackIndexEntry) : N := from_option u8 0%N (as_bytes (pe_object_id e) !! 0).

(** How many entries have a first byte of at most [b]. *)
Definition below (b : N) (l : list PackIndexEntry) : nat := length (filter (fun e => first_byte e <= b)%N l).

Definition fan (l : list PackIndexEntry) : list N :=
  map (fun b => N.of_nat (below (N.of_nat b) l)) (seq 0 256).

Definition entry_ok (alg : GitHashAlgorithm) (e : PackIndexEntry) : Prop :=
  ObjectId_wf (pe_object_id e) /\ algorithm (pe_object_id e) = alg /\
  (pe_offset e < 2 ^ 64)%N /\ (pe_crc32 e < 2 ^ 32)%N.

Lemma entry_key_length alg e : entry_ok alg e -> length (entry_key e) = digest_len alg.
Proof. intros (Hwf & <- & _). by apply length_as_bytes. Qed.

Lemma entry_first alg e : entry_ok alg e -> exists b, as_bytes (pe_object_id e) !! 0 = Some b /\ first_byte e = u8 b.
Proof.
  intros He. pose proof (entry_key_length alg e He) as Hl. pose proof (digest_len_pos alg).
  unfold first_byte. destruct (as_bytes (pe_object_id e)) as [|b bs]; [cbn in Hl; lia|]. by exists b.
Qed.

Lemma first_byte_le e : (first_byte e <= 255)%N.
Proof.
  unfold first_byte. destruct (as_bytes (pe_object_id e) !! 0) as [b|]; cbn; [|lia].
  pose proof (u8_lt b). lia.
Qed.

(** Sorting by id sorts by first byte. *)
Lemma key_first_le alg x y :
  entry_ok alg x -> entry_ok alg y -> cmp_bytes (entry_key x) (entry_key y) <> Gt ->
  (first_byte x <= first_byte y)%N.
Proof.
  intros Hx Hy. destruct (entry_first alg x Hx) as (a & Ha & ->), (entry_first alg y Hy) as (b & Hb & ->).
  destruct (as_bytes (pe_object_id x)) as [|a' xs]; [done|]. injection Ha as ->.
  destruct (as_bytes (pe_object_id y)) as [|b' ys]; [done|]. injection Hb as ->.
  cbn [cmp_bytes]. destruct (N.compare_spec (u8 a) (u8 b)); cbn [then_cmp]; [lia|lia|done].
Qed.

Lemma below_split b l1 l2 :
  Forall (fun e => first_byte e <= b)%N l1 -> Forall (fun e => b < first_byte e)%N l2 ->
  below b (l1 ++ l2) = length l1.
Proof.
  intros H1 H2. unfold below. rewrite filter_app, filter_all by done.
  assert (E : filter (fun e => first_byte e <= b)%N l2 = []).
  { apply filter_none. eapply Forall_impl; [exact H2|]. intros e He. cbv beta in *. lia. }
  by rewrite E, app_nil_r.
Qed.

Section fanout.
Context (entries : list PackIndexEntry) (alg : GitHashAlgorithm).

Lemma bucket_loop_spec bucket rest : forall positions count,
  picks entries positions rest -> Forall (entry_ok alg) rest ->
  (count + N.of_nat (length rest) < 2 ^ 32)%N ->
  exists l1 l2 positions', rest = l1 ++ l2 /\
    bucket_loop entries bucket positions count = Ok (positions', (count + N.of_nat (length l1))%N) /\
    picks entries positions' l2 /\ Forall (fun e => first_byte e <= bucket)%N l1 /\
    match l2 with [] => True | e :: _ => (bucket < first_byte e)%N end.
Proof.
  induction rest as [|e rest IH]; intros positions count Hp Hok Hc.
  - apply Forall2_nil_inv_r in Hp as ->. exists [], [], []. cbn. rewrite N.add_0_r.
    repeat split; constructor.
  - apply Forall2_cons_inv_r in Hp as (p & positions0 & He & Hp' & ->). apply Forall_cons in Hok as [Hok1 Hok].
    cbn [length] in Hc. cbn [bucket_loop]. rewrite (index_at_lookup _ _ _ He), bind_Ok.
    destruct (entry_first alg e Hok1) as (b & Hb & Hf). rewrite (index_at_lookup _ _ _ Hb), bind_Ok.
    destruct (N.leb_spec (u8 b) bucket) as [Hle|Hgt].
    + rewrite (proj2 (N.ltb_lt (count + 1) _)) by lia. cbn [ok_or]. rewrite bind_Ok.
      destruct (IH positions0 (count + 1)%N Hp' Hok) as (l1 & l2 & positions' & -> & -> & Hp2 & H1 & H2); [lia|].
      exists (e :: l1), l2, positions'. split; [done|]. split; [cbn [length]; do 2 f_equal; lia|].
      split; [done|]. split; [|done]. constructor; [lia|done].
    + exists [], (e :: rest), (p :: positions0). cbn. rewrite N.add_0_r.
      split; [done|]. split; [done|]. split; [by constructor|]. split; [constructor|]. rewrite Hf. lia.
Qed.

Lemma fanout_loop_spec l buckets : forall bucket pre rest positions out,
  l = pre ++ rest -> picks entries positions rest -> weakly_sorted entry_key cmp_bytes l ->
  Forall (entry_ok alg) l -> (N.of_nat (length l) < 2 ^ 32)%N ->
  Forall (fun e => first_byte e < N.of_nat bucket)%N pre ->
  fanout_loop entries buckets (N.of_nat bucket) positions (N.of_nat (length pre)) out
  = Ok (out ++ concat (map (fun b => to_be 4 (N.of_nat (below (N.of_nat b) l))) (seq bucket buckets))).
Proof.
  induction buckets as [|buckets IH]; intros bucket pre rest positions out Hl Hp Hs Hok Hn Hpre;
    cbn [fanout_loop seq map concat]; [by rewrite app_nil_r|]. subst l.
  pose proof Hok as [Hokp Hokr]%Forall_app. rewrite length_app in Hn.
  destruct (bucket_loop_spec (N.of_nat bucket) rest positions (N.of_nat (length pre)) Hp Hokr)
    as (l1 & l2 & positions' & -> & -> & Hp2 & H1 & H2); [lia|]. rewrite bind_Ok.
  assert (Hpre' : Forall (fun e => first_byte e <= N.of_nat bucket)%N (pre ++ l1)).
  { apply Forall_app. split; [|done]. eapply Forall_impl; [exact Hpre|]. intros e He. cbv beta in *. lia. }
  assert (Hl2 : Forall (fun e => N.of_nat bucket < first_byte e)%N l2).
  { destruct l2 as [|e l2]; [constructor|]. rewrite app_assoc in Hs. apply StronglySorted_app in Hs as (_ & _ & Hs).
    apply StronglySorted_cons in Hs as [Hs _]. apply Forall_app in Hokr as [_ Hok2].
    apply Forall_cons in Hok2 as [Hoke Hok2]. constructor; [done|].
    rewrite Forall_forall in Hs, Hok2 |- *. intros x Hx.
    pose proof (key_first_le alg e x Hoke (Hok2 x Hx) (Hs x Hx)). lia. }
  replace (N.of_nat bucket + 1)%N with (N.of_nat (S bucket)) by lia.
  replace (N.of_nat (length pre) + N.of_nat (length l1))%N with (N.of_nat (length (pre ++ l1)))
    by (rewrite length_app; lia).
  rewrite (IH (S bucket) (pre ++ l1) l2 positions'); [|by rewrite app_assoc|done|done|done| |].
  2: { rewrite !length_app in *. lia. }
  2: { eapply Forall_impl; [exact Hpre'|]. intros e He. cbv beta in *. lia. }
  rewrite <- app_assoc. do 4 f_equal. rewrite app_assoc. by rewrite (below_split _ (pre ++ l1) l2).
Qed.
End fanout.

(** ** The texts of the two versions *)

Definition fan_text (l : list PackIndexEntry) : bytes := concat (map (to_be 4) (fan l)).

Definition large (e : PackIndexEntry) : Prop := (2147483647 < pe_offset e)%N.

#[export] Instance large_dec e : Decision (large e).
Proof. unfold large. apply _. Defined.

(** The 32-bit slots of the offsets, after [k] large ones. *)
Fixpoint slots (k : N) (l : list PackIndexEntry) : list N :=
  match l with
  | [] => []
  | e :: l =>
      if decide (large e) then N.lor 2147483648 k :: slots (k + 1) l else pe_offset e :: slots k l
  end.

Definition v1_entry (e : PackIndexEntry) : bytes := to_be 4 (pe_offset e) ++ entry_key e.

Definition v1_body (l : list PackIndexEntry) : bytes := fan_text l ++ concat (map v1_entry l).

Definition v2_body (l : list PackIndexEntry) : bytes :=
  (IDX_MAGIC ++ to_be 4 IDX_VERSION) ++ fan_text l ++ concat (map entry_key l)
  ++ concat (map (fun e => to_be 4 (pe_crc32 e)) l) ++ concat (map (to_be 4) (slots 0 l))
  ++ concat (map (fun e => to_be 8 (pe_offset e)) (filter large l)).

Definition index_body (version : PackIndexVersion) (l : list PackIndexEntry) : bytes :=
  match version with
  | V1 => v1_body l
  | V2 => v2_body l
  end.

(** [bs] is the index of [l]: its body, the pack's checksum and its own. *)
Definition index_text `{Sha} (alg : GitHashAlgorithm) (version : PackIndexVersion) (pack_id : ObjectId)
  (l : list PackIndexEntry) (bs : bytes) : Prop :=
  exists id, hash_finalize (hash_update (hash_new alg) (index_body version l ++ as_bytes pack_id)) = Ok id /\
    ObjectId_wf id /\ algorithm id = alg /\ bs = index_body version l ++ as_bytes pack_id ++ as_bytes id.

(** ** Sizes *)

Lemma length_tables {A} (g : A -> bytes) k (l : list A) :
  Forall (fun e => length (g e) = k) l -> length (concat (map g l)) = length l * k.
Proof.
  induction 1 as [|e l He _ IH]; [done|]. cbn [map concat length]. rewrite length_app, He, IH. lia.
Qed.

Lemma length_u32_words {A} (g : A -> N) (k : nat) (l : list A) :
  length (concat (map (fun e => to_be k (g e)) l)) = length l * k.
Proof. apply length_tables, Forall_forall. intros e _. apply length_to_be. Qed.

Lemma length_fan_text l : length (fan_text l) = 1024.
Proof.
  unfold fan_text. rewrite (length_tables (to_be 4) 4) by (apply Forall_forall; intros; apply length_to_be).
  unfold fan. by rewrite length_map, length_seq.
Qed.

Lemma length_slots k l : length (slots k l) = length l.
Proof. revert k. induction l as [|e l IH]; intros k; cbn; [done|]. case_decide; cbn; by rewrite IH. Qed.

(** An item of a table: [g] of the element, between what precedes and what follows. *)
Lemma table_split {A} (pre post : bytes) (g : A -> bytes) k (l : list A) i e :
  Forall (fun e => length (g e) = k) l -> l !! i = Some e ->
  exists l1 l3, pre ++ concat (map g l) ++ post = l1 ++ g e ++ l3 /\ length l1 = length pre + i * k.
Proof.
  intros Hg Hi. exists (pre ++ concat (map g (take i l))), (concat (map g (drop (S i) l)) ++ post). split.
  - rewrite <- (take_drop_middle l i e Hi) at 1. rewrite map_app, concat_app. cbn [map concat].
    by rewrite <- !app_assoc.
  - rewrite length_app, (length_tables g k) by (by apply Forall_take). rewrite length_take.
    apply lookup_lt_Some in Hi. by rewrite Nat.min_l by lia.
Qed.

(** ** Encoding *)

Lemma or_overflow_Ok {A} (o : option A) : is_Some o -> exists n, or_overflow o = Ok n.
Proof. intros [n ->]. by exists n. Qed.

Lemma checked_mul_Some a b : (N.of_nat a * N.of_nat b < usize_limit)%N -> checked_mul a b = Some (a * b).
Proof. intros Hab. unfold checked_mul. by rewrite (proj2 (N.ltb_lt _ _) Hab). Qed.

Lemma checked_add_Some' a b : (N.of_nat a + N.of_nat b < usize_limit)%N -> checked_add a b = Some (a + b).
Proof. intros Hab. unfold checked_add. by rewrite (proj2 (N.ltb_lt _ _) Hab). Qed.

(** Sums and products of sizes below the limit. *)
Ltac sizes :=
  repeat first
    [ rewrite checked_mul_Some by (unfold usize_limit; lia)
    | rewrite checked_add_Some' by (unfold usize_limit; lia)
    | progress cbn [mbind option_bind or_overflow ok_or]
    | rewrite bind_Ok ].

Lemma capacities_Ok alg n :
  (N.of_nat n < 2 ^ 32)%N ->
  (exists c, pack_index_v1_capacity alg n = Ok c) /\ (exists c, pack_index_v2_capacity alg n = Ok c) /\
  (exists c, pack_reverse_index_capacity alg n = Ok c).
Proof.
  intros Hn. pose proof (digest_len_le alg).
  unfold pack_index_v1_capacity, pack_index_v2_capacity, pack_reverse_index_capacity. cbv zeta.
  assert (N.of_nat n * N.of_nat (digest_len alg) < 2 ^ 37)%N by (cbn; nia).
  split_and!; sizes; by eexists.
Qed.

Lemma v1_records_Ok l : forall out,
  Forall (fun e => pe_offset e < 2 ^ 32)%N l ->
  fold_out v1_record l out = Ok (out ++ concat (map v1_entry l)).
Proof.
  induction l as [|e l IH]; intros out Hl; cbn [fold_out map concat]; [by rewrite app_nil_r|].
  apply Forall_cons in Hl as [He Hl]. unfold v1_record.
  rewrite (proj2 (N.ltb_ge (2 ^ 32 - 1) (pe_offset e))) by lia. cbn [check]. rewrite !bind_Ok, IH by done.
  unfold v1_entry. by rewrite <- !app_assoc.
Qed.

Lemma v2_offsets_Ok l : forall out k,
  (k + N.of_nat (length l) < 2 ^ 32)%N ->
  fold_out v2_offset l (out, k)
  = Ok (out ++ concat (map (to_be 4) (slots k l)), (k + N.of_nat (length (filter large l)))%N).
Proof.
  induction l as [|e l IH]; intros out k Hk; cbn [fold_out slots]; cbn [length] in Hk.
  { rewrite app_nil_r. cbn. by rewrite N.add_0_r. }
  assert (Hstep : v2_offset e (out, k)
    = Ok (if decide (large e) then (out ++ to_be 4 (N.lor 2147483648 k), (k + 1)%N)
          else (out ++ to_be 4 (pe_offset e), k))).
  { unfold v2_offset. destruct (N.leb_spec (pe_offset e) 2147483647) as [Hle|Hgt].
    - by rewrite decide_False by (unfold large; lia).
    - rewrite (proj2 (N.ltb_lt (k + 1) _)) by lia. cbn [ok_or]. by rewrite bind_Ok, decide_True. }
  rewrite Hstep, bind_Ok, filter_cons. destruct (decide (large e)); cbn [map concat length].
  - rewrite IH, <- app_assoc by lia. do 2 f_equal. lia.
  - by rewrite IH, <- app_assoc by lia.
Qed.

Lemma v2_large_Ok l : forall out,
  fold_out v2_large_offset l out
  = Ok (out ++ concat (map (fun e => to_be 8 (pe_offset e)) (filter large l))).
Proof.
  induction l as [|e l IH]; intros out; cbn [fold_out]; [by rewrite app_nil_r|].
  assert (Hstep : v2_large_offset e out = Ok (if decide (large e) then out ++ to_be 8 (pe_offset e) else out)).
  { unfold v2_large_offset. destruct (N.ltb_spec 2147483647 (pe_offset e)); [by rewrite decide_True|].
    by rewrite decide_False by (unfold large; lia). }
  rewrite Hstep, bind_Ok, IH, filter_cons. destruct (decide (large e)); [|done].
  cbn [map concat]. by rewrite <- app_assoc.
Qed.

Section encoded.
Context `{ShaLaws}.

Lemma append_trailer_Ok alg pack_id version l :
  algorithm pack_id = alg ->
  exists bs, append_trailer alg pack_id (index_body version l) = Ok bs /\ index_text alg version pack_id l bs.
Proof.
  intros Ha. unfold append_trailer. rewrite bool_decide_true by done. cbn [negb check]. rewrite bind_Ok.
  rewrite hash_finalize_ok, bind_Ok. eexists. split; [done|]. unfold index_text.
  eexists. split; [apply hash_finalize_ok|]. cbn [hash_algorithm hash_new hash_update].
  split; [apply mk_id_wf, length_sha_digest|]. split; [done|]. by rewrite <- app_assoc.
Qed.

Lemma encode_index_Ok alg version pack_id entries p l :
  picks entries (positions_iter p) l -> length entries = length l -> positions_len p = length l ->
  weakly_sorted entry_key cmp_bytes l -> Forall (entry_ok alg) l -> algorithm pack_id = alg ->
  (N.of_nat (length l) < 2 ^ 32)%N -> (version = V1 -> Forall (fun e => pe_offset e < 2 ^ 32)%N l) ->
  exists bs, encode_pack_index_with_positions_version alg pack_id entries p version = Ok bs /\
             index_text alg version pack_id l bs.
Proof.
  intros Hp Hle Hlp Hs Hok Ha Hn H1.
  destruct (capacities_Ok alg (length l) Hn) as ([c1 Hc1] & [c2 Hc2] & _).
  unfold encode_pack_index_with_positions_version. rewrite Hle, Hlp, Nat.eqb_refl. cbn [negb check].
  rewrite bind_Ok.
  assert (Hfan : forall out, fanout_loop entries 256 0 (positions_iter p) 0 out = Ok (out ++ fan_text l)).
  { intros out. pose proof (fanout_loop_spec entries alg l 256 0 [] l (positions_iter p) out) as E.
    cbn [length] in E. change (N.of_nat 0) with 0%N in E. rewrite E by (done || constructor). unfold fan_text, fan. by rewrite map_map. }
  destruct (append_trailer_Ok alg pack_id version l Ha) as (bs & Et & Htext). exists bs. split; [|done].
  destruct version; unfold encode_pack_index_v1, encode_pack_index_v2; cbv zeta; rewrite Hle.
  - rewrite (proj2 (N.ltb_ge (2 ^ 32 - 1) _)) by lia. cbn [check]. rewrite bind_Ok, Hc1, bind_Ok, Hfan, bind_Ok.
    rewrite (each_entry_picks _ _ _ _ Hp), v1_records_Ok, bind_Ok by auto. exact Et.
  - rewrite Hc2, bind_Ok, Hfan, bind_Ok, !(each_entry_picks _ _ _ _ Hp), fold_out_append, bind_Ok.
    rewrite (each_entry_picks _ _ _ _ Hp), fold_out_append, bind_Ok.
    rewrite (each_entry_picks _ _ _ _ Hp), v2_offsets_Ok, bind_Ok by lia.
    change (index_body V2 l) with (v2_body l) in Et. unfold v2_body in Et. rewrite !app_assoc in Et.
    destruct (N.ltb_spec 0 (0 + N.of_nat (length (filter large l)))) as [Hpos|Hzero].
    + unfold pack_large_offset_table_capacity. rewrite N.add_0_l, Nat2N.id.
      pose proof (length_filter large l) as Hf.
      rewrite checked_mul_Some by (unfold usize_limit; lia). cbn [or_overflow ok_or]. rewrite bind_Ok.
      rewrite (each_entry_picks _ _ _ _ Hp), v2_large_Ok, bind_Ok. exact Et.
    + rewrite bind_Ok. destruct (filter large l); [|cbn in Hzero; lia]. cbn [map concat] in Et.
      by rewrite app_nil_r in Et.
Qed.
End encoded.

(** ** Reading words *)

Lemma read_be_u32_at bs l1 n l3 offset :
  bs = l1 ++ to_be 4 n ++ l3 -> offset = length l1 -> (n < 2 ^ 32)%N -> read_u32 bs offset = Ok n.
Proof.
  intros -> -> Hn. unfold read_u32.
  rewrite (get_range_app l1 (to_be 4 n) l3) by (rewrite ?length_to_be; done).
  cbn [ok_or]. by rewrite bind_Ok, from_be_to_be.
Qed.

Lemma read_u64_at bs l1 n l3 offset :
  bs = l1 ++ to_be 8 n ++ l3 -> offset = length l1 -> (n < 2 ^ 64)%N -> read_u64 bs offset = Ok n.
Proof.
  intros -> -> Hn. unfold read_u64.
  rewrite (get_range_app l1 (to_be 8 n) l3) by (rewrite ?length_to_be; done).
  cbn [ok_or]. by rewrite bind_Ok, from_be_to_be.
Qed.

(** A word of a table. *)
Lemma read_table_u32 {A} (g : A -> N) bs pre post (l : list A) i e :
  bs = pre ++ concat (map (fun e => to_be 4 (g e)) l) ++ post -> l !! i = Some e -> (g e < 2 ^ 32)%N ->
  read_u32 bs (length pre + i * 4) = Ok (g e).
Proof.
  intros -> Hi Hn.
  destruct (table_split pre post (fun e => to_be 4 (g e)) 4 l i e) as (l1 & l3 & -> & Hl1);
    [apply Forall_forall; intros; apply length_to_be|done|]. by apply (read_be_u32_at _ l1 _ l3).
Qed.

Lemma read_fanout_words ws : forall bs pre post,
  bs = pre ++ concat (map (to_be 4) ws) ++ post -> Forall (fun w => w < 2 ^ 32)%N ws ->
  read_fanout bs (length pre) (length ws) = Ok ws.
Proof.
  induction ws as [|w ws IH]; intros bs pre post -> Hw; [done|]. apply Forall_cons in Hw as [Hw1 Hw].
  cbn [length read_fanout map concat].
  rewrite (read_be_u32_at _ pre w (concat (map (to_be 4) ws) ++ post)), bind_Ok by (rewrite <- ?app_assoc; done).
  replace (length pre + 4) with (length (pre ++ to_be 4 w)) by (rewrite length_app, length_to_be; done).
  rewrite (IH _ (pre ++ to_be 4 w) post), bind_Ok; [done| |done]. by rewrite <- !app_assoc.
Qed.

Lemma windows2_lookup {A} (p : A -> A -> bool) (l : list A) :
  (forall i x y, l !! i = Some x -> l !! S i = Some y -> p x y = true) -> windows2_all p l = true.
Proof.
  induction l as [|x l IH]; intros Hp; [done|]. destruct l as [|y l]; [done|].
  change (p x y && windows2_all p (y :: l) = true). rewrite (Hp 0 x y eq_refl eq_refl). cbn [andb].
  apply IH. intros i a b Ha Hb. by apply (Hp (S i)).
Qed.

(** ** The fanout of a list *)

Lemma below_mono l a b : (a <= b)%N -> below a l <= below b l.
Proof.
  intros Hab. unfold below. induction l as [|e l IH]; [done|]. rewrite !filter_cons.
  repeat case_decide; cbn [length]; lia.
Qed.

Lemma below_all l : below 255 l = length l.
Proof. unfold below. rewrite filter_all; [done|]. apply Forall_forall. intros e _. apply first_byte_le. Qed.

Lemma fan_lookup l b : b < 256 -> fan l !! b = Some (N.of_nat (below (N.of_nat b) l)).
Proof.
  intros Hb. unfold fan.
  change (map ?f (seq 0 256)) with (f <$> seq 0 256). by rewrite list_lookup_fmap, lookup_seq_lt.
Qed.

Lemma fan_words l : (N.of_nat (length l) < 2 ^ 32)%N -> Forall (fun w => w < 2 ^ 32)%N (fan l).
Proof.
  intros Hl. unfold fan. apply Forall_map, Forall_forall. intros b _.
  pose proof (length_filter (fun e => first_byte e <= N.of_nat b)%N l). unfold compose, below. lia.
Qed.

Lemma fan_sorted l : windows2_all (fun a b => negb (b <? a)%N) (fan l) = true.
Proof.
  apply windows2_lookup. intros i x y Hx Hy.
  assert (Hi : S i < 256). { apply lookup_lt_Some in Hy. unfold fan in Hy. by rewrite length_map, length_seq in Hy. }
  rewrite fan_lookup in Hx by lia. rewrite fan_lookup in Hy by lia. injection Hx as <-. injection Hy as <-.
  pose proof (below_mono l (N.of_nat i) (N.of_nat (S i))). rewrite (proj2 (N.ltb_ge _ _)) by lia. done.
Qed.

(** ** Offset slots *)

Lemma slots_lookup l : forall k i e, l !! i = Some e ->
  slots k l !! i = Some (if decide (large e) then N.lor 2147483648 (k + N.of_nat (length (filter large (take i l))))
                         else pe_offset e).
Proof.
  induction l as [|x l IH]; intros k [|i] e Hi; try done; cbn [slots take].
  - injection Hi as ->. case_decide; [|done]. cbn. by rewrite N.add_0_r.
  - rewrite filter_cons. case_decide; cbn [lookup list_lookup length]; rewrite (IH _ i e Hi); [|done].
    case_decide; [|done]. do 2 f_equal. lia.
Qed.

Lemma large_lookup l : forall i e, l !! i = Some e -> large e ->
  filter large l !! length (filter large (take i l)) = Some e.
Proof.
  induction l as [|x l IH]; intros [|i] e Hi He; try done; cbn [take].
  - injection Hi as ->. by rewrite filter_cons_True.
  - rewrite !filter_cons. case_decide; cbn [length lookup list_lookup]; by apply IH.
Qed.

Lemma land_high_small n : (n < 2147483648)%N -> N.land n 2147483648 = 0%N.
Proof.
  intros Hn. change 2147483648%N with (2 ^ 31)%N in *. apply N.bits_inj_0. intros m.
  rewrite N.land_spec, N.pow2_bits_eqb. destruct (N.eqb_spec 31 m) as [<-|]; [|by rewrite andb_false_r].
  rewrite andb_true_r. destruct (N.eq_dec n 0%N) as [->|Hz]; [done|]. apply N.bits_above_log2.
  apply N.log2_lt_pow2; lia.
Qed.

Lemma slot_large k :
  (k < 2147483648)%N ->
  N.land (N.lor 2147483648 k) 2147483648 <> 0%N /\ N.land (N.lor 2147483648 k) 2147483647 = k /\
  (N.lor 2147483648 k < 2 ^ 32)%N.
Proof.
  intros Hk. rewrite !N.land_lor_distr_l, (land_high_small k) by done.
  change 2147483647%N with (N.ones 31). rewrite !N.land_ones.
  change (2 ^ 31)%N with 2147483648%N. rewrite (N.mod_small k) by done.
  split; [done|]. split; [done|]. change 2147483648%N with (2 ^ 31)%N in *.
  apply N.log2_lt_cancel. rewrite N.log2_lor, N.log2_pow2, N.log2_pow2 by lia.
  destruct (N.eq_dec k 0%N) as [->|Hz]; [cbn; lia|]. apply N.log2_lt_pow2 in Hk; lia.
Qed.

(** ** What an index lists *)

(** The entry a reader of the version sees: version 1 has no checksums. *)
Definition seen (version : PackIndexVersion) (e : PackIndexEntry) : PackIndexEntry :=
  match version with
  | V1 => MkPackEntry (pe_offset e) (pe_object_id e) 0
  | V2 => e
  end.

Record lists (pi : PackIndex) (version : PackIndexVersion) (pack_id : ObjectId)
  (l : list PackIndexEntry) : Prop := {
  ls_version : pi_version pi = version;
  ls_count : pi_count pi = length l;
  ls_ok : Forall (entry_ok (pi_algorithm pi)) l;
  ls_fanout : forall b, b < 256 -> pi_fanout pi !! b = Some (N.of_nat (below (N.of_nat b) l));
  ls_name : forall i e, l !! i = Some e -> object_bytes_at pi i = Ok (entry_key e);
  ls_names : version = V2 ->
    slice (pi_bytes pi) (pi_names_start pi) (pi_names_start pi + pi_count pi * digest_len (pi_algorithm pi))
    = Ok (concat (map entry_key l));
  ls_offset : forall i e, l !! i = Some e -> offset_at pi i = Ok (pe_offset e);
  ls_entry : forall i e, l !! i = Some e -> entry_at pi i = Ok (seen version e);
  ls_crc : forall i e, l !! i = Some e -> crc_at pi i = Ok (pe_crc32 (seen version e));
  ls_checksum : pack_checksum pi = Ok pack_id
}.

Lemma entry_id_new alg e : entry_ok alg e -> ObjectId_new alg (entry_key e) = Ok (pe_object_id e).
Proof. intros (Hwf & <- & _). by apply ObjectId_new_as_bytes. Qed.

Section reading.
Context `{Sha} (alg : GitHashAlgorithm) (l : list PackIndexEntry) (pack_id : ObjectId).
Hypothesis Hok : Forall (entry_ok alg) l.
Hypothesis Hn : (N.of_nat (length l) < 2 ^ 31)%N.
Hypothesis Hpid : ObjectId_wf pack_id.
Hypothesis Hpa : algorithm pack_id = alg.

Lemma keys_length : Forall (fun e => length (entry_key e) = digest_len alg) l.
Proof. eapply Forall_impl; [exact Hok|]. intros e He. by apply (entry_key_length alg). Qed.

Lemma ok_at i e : l !! i = Some e -> entry_ok alg e.
Proof. intros Hi. rewrite Forall_lookup in Hok. by apply (Hok i). Qed.

(** The two checksums at the end of an index. *)
Lemma trailer_checks body id bs :
  hash_finalize (hash_update (hash_new alg) (body ++ as_bytes pack_id)) = Ok id ->
  ObjectId_wf id -> algorithm id = alg -> bs = body ++ as_bytes pack_id ++ as_bytes id ->
  validate_pack_index_checksum alg bs = Ok tt /\
  slice bs (length bs - digest_len alg * 2) (length bs - digest_len alg * 2 + digest_len alg)
  = Ok (as_bytes pack_id) /\ length bs = length body + digest_len alg * 2.
Proof.
  intros Eh Hwf Ha ->. pose proof (length_as_bytes id Hwf) as Hl. rewrite Ha in Hl.
  pose proof (length_as_bytes pack_id Hpid) as Hlp. rewrite Hpa in Hlp.
  assert (Hlen : length (body ++ as_bytes pack_id ++ as_bytes id) = length body + digest_len alg * 2)
    by (rewrite !length_app; lia).
  split; [|split; [|done]].
  - unfold validate_pack_index_checksum. cbv zeta. rewrite (proj2 (Nat.ltb_ge _ _)) by lia. cbn [check].
    rewrite bind_Ok, Hlen.
    replace (length body + digest_len alg * 2 - digest_len alg) with (length (body ++ as_bytes pack_id))
      by (rewrite length_app; lia).
    rewrite app_assoc.
    rewrite (slice_split [] (body ++ as_bytes pack_id) (as_bytes id) _ 0) by reflexivity.
    rewrite bind_Ok, Eh, bind_Ok.
    rewrite (slice_tail (body ++ as_bytes pack_id) (as_bytes id) _ (length (body ++ as_bytes pack_id)));
      [|reflexivity|reflexivity|rewrite !length_app; lia].
    by rewrite bind_Ok, bool_decide_true.
  - rewrite Hlen. apply (slice_split body (as_bytes pack_id) (as_bytes id)); [done|lia|lia].
Qed.

Lemma min_len_Ok version :
  exists layout n, pack_index_layout version (length l) (digest_len alg) = Ok layout /\
    names_start layout = pack_index_fanout_start version + 1024 /\
    (version = V2 ->
       v2_crc_start layout = 1032 + length l * digest_len alg /\
       v2_offsets_start layout = 1032 + length l * digest_len alg + length l * 4 /\
       v2_large_offsets_start layout = 1032 + length l * digest_len alg + length l * 4 + length l * 4) /\
    pack_index_min_len version (length l) (digest_len alg) (names_start layout) = Ok n /\
    n = names_start layout + length l * (digest_len alg + match version with V1 => 4 | V2 => 8 end)
        + digest_len alg * 2.
Proof.
  pose proof (digest_len_le alg) as Hd.
  assert (Hnd : (N.of_nat (length l) * N.of_nat (digest_len alg) < 2 ^ 37)%N) by (cbn; nia).
  unfold pack_index_layout, pack_index_min_len.
  destruct version; cbn [pack_index_fanout_start]; sizes.
  - rewrite decide_True by done. eexists _, _. split; [done|]. cbn [names_start]. split; [done|].
    split; [done|]. sizes. split; [done|]. lia.
  - rewrite decide_False by done. sizes. eexists _, _. split; [done|].
    cbn [names_start v2_crc_start v2_offsets_start v2_large_offsets_start]. split; [done|].
    split; [intros _; lia|]. sizes. split; [done|]. lia.
Qed.

(** The validated layout, once the body begins with its fanout. *)
Lemma read_layout version pre rest id bs layout n :
  index_body version l = pre ++ fan_text l ++ rest -> length pre = pack_index_fanout_start version ->
  length rest >= length l * (digest_len alg + match version with V1 => 4 | V2 => 8 end) ->
  hash_finalize (hash_update (hash_new alg) (index_body version l ++ as_bytes pack_id)) = Ok id ->
  ObjectId_wf id -> algorithm id = alg -> bs = index_body version l ++ as_bytes pack_id ++ as_bytes id ->
  pack_index_version bs = Ok version -> check_idx_version version bs = Ok tt ->
  pack_index_layout version (length l) (digest_len alg) = Ok layout ->
  pack_index_min_len version (length l) (digest_len alg) (names_start layout) = Ok n ->
  names_start layout = pack_index_fanout_start version + 1024 ->
  n = names_start layout + length l * (digest_len alg + match version with V1 => 4 | V2 => 8 end)
      + digest_len alg * 2 ->
  read_bytes bs alg = Ok (MkPackIndex bs (fan l) (length l) alg version layout).
Proof.
  intros Hbody Hpre Hrest Eh Hwf Ha Hbs Hv Hcv Hlay Hmin Hns Hnn.
  destruct (trailer_checks _ _ _ Eh Hwf Ha Hbs) as (Hsum & _ & Hlen).
  pose proof (f_equal length Hbody) as Hlb. rewrite !length_app, length_fan_text, Hpre in Hlb.
  pose proof (digest_len_pos alg).
  unfold read_bytes, validate_pack_index_layout. cbv zeta.
  assert (Hbig : length bs >= 8 + 256 * 4).
  { rewrite Hlen, Hlb. destruct version; cbn [pack_index_fanout_start]; [|lia]. destruct alg; cbn in *; lia. }
  rewrite (proj2 (Nat.ltb_ge _ _)) by lia. cbn [check]. rewrite bind_Ok, Hv, bind_Ok, Hcv, bind_Ok.
  assert (Hf : read_fanout bs (pack_index_fanout_start version) 256 = Ok (fan l)).
  { rewrite <- Hpre. apply (read_fanout_words (fan l) bs pre (rest ++ as_bytes pack_id ++ as_bytes id)).
    - rewrite Hbs, Hbody. by rewrite <- !app_assoc.
    - apply fan_words. lia. }
  rewrite Hf, bind_Ok, fan_sorted. cbn [negb check]. rewrite bind_Ok.
  rewrite (index_at_lookup _ _ _ (fan_lookup l 255 ltac:(lia))), bind_Ok.
  change (N.of_nat 255) with 255%N. rewrite below_all, Nat2N.id, Hlay, bind_Ok, Hmin, bind_Ok.
  rewrite (proj2 (Nat.ltb_ge _ _)) by lia. cbn [check]. by rewrite !bind_Ok, Hsum, bind_Ok.
Qed.
End reading.

Section listed.
Context `{Sha} (alg : GitHashAlgorithm) (l : list PackIndexEntry) (pack_id : ObjectId).
Hypothesis Hok : Forall (entry_ok alg) l.
Hypothesis Hn : (N.of_nat (length l) < 2 ^ 31)%N.
Hypothesis Hpid : ObjectId_wf pack_id.
Hypothesis Hpa : algorithm pack_id = alg.

Lemma v1_entry_length : Forall (fun e => length (v1_entry e) = 4 + digest_len alg) l.
Proof.
  eapply Forall_impl; [exact (keys_length alg l Hok)|]. intros e He. unfold v1_entry.
  by rewrite length_app, length_to_be, He.
Qed.

(** Version 1 begins with a count below 2^31, so never with the magic number. *)
Lemma v1_not_magic rest : pack_index_version (fan_text l ++ rest) = Ok V1.
Proof.
  unfold pack_index_version. rewrite (proj2 (Nat.ltb_ge _ _)) by (rewrite length_app, length_fan_text; lia).
  cbn [check]. rewrite bind_Ok.
  set (c := N.of_nat (below (N.of_nat 0) l)).
  assert (Hfan : exists t, fan_text l = to_be 4 c ++ t).
  { eexists. unfold fan_text, fan. change (seq 0 256) with (0 :: seq 1 255). cbn [map concat]. done. }
  destruct Hfan as [t ->]. rewrite <- app_assoc.
  rewrite (slice_split [] (to_be 4 c) (t ++ rest) _ 0 4) by (rewrite ?length_to_be; reflexivity).
  rewrite bind_Ok, bool_decide_false; [done|]. intros E. apply (f_equal from_be) in E.
  assert (Hc : (c < 2 ^ 31)%N).
  { unfold c, below. pose proof (length_filter (fun e => first_byte e <= N.of_nat 0)%N l). lia. }
  rewrite from_be_to_be in E by (cbn; lia). rewrite E in Hc. vm_compute in Hc. discriminate.
Qed.

Lemma small_offset n : (n < 2 ^ 31)%N -> (N.land n 2147483648 =? 0)%N = true.
Proof. intros Hs. by rewrite land_high_small. Qed.

(** Version 1 is read, with its records where they were written. *)
Lemma read_v1_layout bs :
  index_text alg V1 pack_id l bs ->
  exists layout, read_bytes bs alg = Ok (MkPackIndex bs (fan l) (length l) alg V1 layout) /\
    names_start layout = 1024 /\
    slice bs (length bs - digest_len alg * 2) (length bs - digest_len alg * 2 + digest_len alg)
    = Ok (as_bytes pack_id) /\
    forall i e, l !! i = Some e ->
      ((pe_offset e < 2 ^ 32)%N -> read_u32 bs (1024 + i * (4 + digest_len alg)) = Ok (pe_offset e)) /\
      slice bs (1024 + i * (4 + digest_len alg) + 4) (1024 + i * (4 + digest_len alg) + 4 + digest_len alg)
      = Ok (entry_key e).
Proof.
  intros (id & Eh & Hwf & Ha & Hbs). pose proof v1_entry_length as Hlen1.
  destruct (min_len_Ok alg l Hn V1) as (layout & n & Hlay & Hns & _ & Hmin & Hnn).
  assert (Hbody : index_body V1 l = [] ++ fan_text l ++ concat (map v1_entry l)) by done.
  destruct (trailer_checks alg l pack_id Hn Hpid Hpa _ _ _ Eh Hwf Ha Hbs) as (_ & Hcs & _).
  exists layout. split; [eapply (read_layout alg l pack_id Hok Hn Hpid Hpa V1); try done|].
  { rewrite (length_tables v1_entry (4 + digest_len alg)) by done. lia. }
  { rewrite Hbs. cbn [index_body]. unfold v1_body. rewrite <- !app_assoc. apply v1_not_magic. }
  split; [done|]. split; [done|]. intros i e Hi. rewrite Hbs. cbn [index_body]. unfold v1_body.
  rewrite <- app_assoc.
  destruct (table_split (fan_text l) (as_bytes pack_id ++ as_bytes id) v1_entry _ l i e Hlen1 Hi)
    as (l1 & l3 & -> & E1). rewrite length_fan_text in E1. rewrite <- E1. unfold v1_entry.
  rewrite <- app_assoc. split.
  - intros Ho. by apply (read_be_u32_at _ l1 _ (entry_key e ++ l3)).
  - pose proof (entry_key_length alg e (ok_at alg l Hok i e Hi)) as Hk. cbv beta in Hk.
    apply (slice_split (l1 ++ to_be 4 (pe_offset e)) (entry_key e) l3);
      [by rewrite <- app_assoc|by rewrite length_app, length_to_be|].
    by rewrite length_app, length_to_be, Hk.
Qed.

Lemma read_v1 bs :
  index_text alg V1 pack_id l bs -> Forall (fun e => pe_offset e < 2 ^ 31)%N l ->
  exists pi, read_bytes bs alg = Ok pi /\ pi_algorithm pi = alg /\ lists pi V1 pack_id l.
Proof.
  intros Ht Hoff. destruct (read_v1_layout bs Ht) as (layout & Hread & Hns & Hcs & Hrec).
  eexists. split; [exact Hread|]. split; [done|].
  assert (Hoffset : forall i e, l !! i = Some e ->
    read_u32 bs (1024 + i * (4 + digest_len alg)) = Ok (pe_offset e) /\
    (N.land (pe_offset e) 2147483648 =? 0)%N = true).
  { intros i e Hi. rewrite Forall_lookup in Hoff. pose proof (Hoff i e Hi) as Ho.
    split; [apply (Hrec i e Hi); lia|by apply small_offset]. }
  assert (Hname := fun i e Hi => proj2 (Hrec i e Hi)).
  split; cbn [pi_version pi_count pi_algorithm pi_fanout pi_bytes pi_layout]; try done.
  - intros b Hb. by apply fan_lookup.
  - intros i e Hi. unfold object_bytes_at, object_bytes_at_with_layout, pi_names_start.
    cbn [pi_version pi_bytes pi_algorithm pi_layout]. rewrite Hns. by apply Hname.
  - intros i e Hi. unfold offset_at, v1_offset, pi_names_start. cbn [pi_version pi_bytes pi_algorithm pi_layout].
    rewrite decide_True by done. rewrite Hns. destruct (Hoffset i e Hi) as [-> Hz]. rewrite bind_Ok, Hz. done.
  - intros i e Hi. unfold entry_at, v1_offset, pi_names_start. cbv zeta.
    cbn [pi_version pi_bytes pi_algorithm pi_layout]. rewrite Hns.
    destruct (Hoffset i e Hi) as [-> Hz]. rewrite bind_Ok, Hz. cbn [negb check]. rewrite !bind_Ok, (Hname i e Hi).
    by rewrite bind_Ok, (entry_id_new alg e (ok_at alg l Hok i e Hi)), bind_Ok.
  - unfold pack_checksum. cbn [pi_algorithm pi_bytes]. cbv zeta. rewrite Hcs, bind_Ok.
    rewrite <- Hpa. by apply ObjectId_new_as_bytes.
Qed.

(** The tables of version 2 and where they start. *)
Lemma v2_tables bs id :
  bs = index_body V2 l ++ as_bytes pack_id ++ as_bytes id ->
  exists p1 p2 p3 p4 t1 t2 t3 t4,
    bs = p1 ++ concat (map entry_key l) ++ t1 /\ length p1 = 1032 /\
    bs = p2 ++ concat (map (fun e => to_be 4 (pe_crc32 e)) l) ++ t2 /\
    length p2 = 1032 + length l * digest_len alg /\
    bs = p3 ++ concat (map (to_be 4) (slots 0 l)) ++ t3 /\
    length p3 = 1032 + length l * digest_len alg + length l * 4 /\
    bs = p4 ++ concat (map (fun e => to_be 8 (pe_offset e)) (filter large l)) ++ t4 /\
    length p4 = 1032 + length l * digest_len alg + length l * 4 + length l * 4.
Proof.
  intros ->. cbn [index_body]. unfold v2_body.
  set (hdr := IDX_MAGIC ++ to_be 4 IDX_VERSION). set (f := fan_text l). set (names := concat (map entry_key l)).
  set (crcs := concat (map (fun e => to_be 4 (pe_crc32 e)) l)). set (offs := concat (map (to_be 4) (slots 0 l))).
  set (larges := concat (map (fun e => to_be 8 (pe_offset e)) (filter large l))).
  set (tail := as_bytes pack_id ++ as_bytes id).
  assert (Hh : length hdr = 8) by done. pose proof (length_fan_text l) as Hf. fold f in Hf.
  pose proof (length_tables entry_key (digest_len alg) l (keys_length alg l Hok)) as Hnames. fold names in Hnames.
  pose proof (length_u32_words pe_crc32 4 l) as Hcrcs. fold crcs in Hcrcs.
  pose proof (length_u32_words (fun n => n) 4 (slots 0 l)) as Hoffs. rewrite length_slots in Hoffs.
  change (length offs = length l * 4) in Hoffs.
  exists (hdr ++ f), (hdr ++ f ++ names), (hdr ++ f ++ names ++ crcs), (hdr ++ f ++ names ++ crcs ++ offs).
  exists (crcs ++ offs ++ larges ++ tail), (offs ++ larges ++ tail), (larges ++ tail), tail.
  rewrite !length_app, Hh, Hf, Hnames, Hcrcs, Hoffs.
  split_and!; first [lia | by rewrite <- !app_assoc].
Qed.

Lemma v2_slot bs p3 t3 p4 t4 layout fan_words version :
  bs = p3 ++ concat (map (to_be 4) (slots 0 l)) ++ t3 ->
  bs = p4 ++ concat (map (fun e => to_be 8 (pe_offset e)) (filter large l)) ++ t4 ->
  length p4 = length p3 + length l * 4 -> length p3 <= 1032 + length l * 32 + length l * 4 ->
  forall i e, l !! i = Some e ->
    v2_offset_at (MkPackIndex bs fan_words (length l) alg version layout) i (length p3) (length p4)
    = Ok (pe_offset e).
Proof.
  intros H3 H4 Hp4 Hp3 i e Hi. unfold v2_offset_at. cbn [pi_bytes].
  pose proof (slots_lookup l 0 i e Hi) as Hs. rewrite N.add_0_l in Hs.
  pose proof (ok_at alg l Hok i e Hi) as (_ & _ & Ho & _).
  set (k := length (filter large (take i l))) in *.
  assert (Hk : (N.of_nat k < 2147483648)%N).
  { unfold k. pose proof (length_filter large (take i l)) as Hlf. rewrite length_take in Hlf. lia. }
  destruct (slot_large (N.of_nat k) Hk) as (Hflag & Hidx & Hlt).
  destruct (decide (large e)) as [Hlarge|Hsmall].
  - rewrite (read_table_u32 (fun n => n) bs p3 t3 _ i _ H3 Hs), bind_Ok by done.
    rewrite (proj2 (N.eqb_neq _ _)) by done. rewrite Hidx, Nat2N.id.
    rewrite checked_mul_Some by (unfold usize_limit; lia). cbn [mbind option_bind].
    rewrite checked_add_Some' by (unfold usize_limit; lia). cbn [or_overflow ok_or]. rewrite bind_Ok.
    destruct (table_split p4 t4 (fun e => to_be 8 (pe_offset e)) 8 (filter large l) k e) as (l1 & l3 & E & E1).
    { apply Forall_forall. intros x _. apply length_to_be. }
    { by apply large_lookup. }
    apply (read_u64_at bs l1 _ l3); [by rewrite H4, E|by rewrite E1|done].
  - unfold large in Hsmall.
    rewrite (read_table_u32 (fun n => n) bs p3 t3 _ i _ H3 Hs), bind_Ok by (cbn; lia).
    rewrite small_offset by (cbn; lia). done.
Qed.

Lemma read_v2 bs :
  index_text alg V2 pack_id l bs ->
  exists pi, read_bytes bs alg = Ok pi /\ pi_algorithm pi = alg /\ lists pi V2 pack_id l.
Proof.
  intros (id & Eh & Hwf & Ha & Hbs).
  destruct (min_len_Ok alg l Hn V2) as (layout & n & Hlay & Hns & Hstarts & Hmin & Hnn).
  destruct (Hstarts eq_refl) as (Hcrc & Hoffs & Hlarge). clear Hstarts.
  destruct (trailer_checks alg l pack_id Hn Hpid Hpa _ _ _ Eh Hwf Ha Hbs) as (_ & Hcs & _).
  destruct (v2_tables bs id Hbs) as (p1 & p2 & p3 & p4 & t1 & t2 & t3 & t4 & E1 & L1 & E2 & L2 & E3 & L3 & E4 & L4).
  pose proof (digest_len_le alg) as Hd. change (names_start layout = 1032) in Hns.
  assert (Hread : read_bytes bs alg = Ok (MkPackIndex bs (fan l) (length l) alg V2 layout)).
  { eapply (read_layout alg l pack_id Hok Hn Hpid Hpa V2 (IDX_MAGIC ++ to_be 4 IDX_VERSION)); try done.
    - rewrite !length_app.
      rewrite (length_tables entry_key (digest_len alg)) by (by apply keys_length).
      rewrite (length_u32_words pe_crc32 4 l).
      pose proof (length_u32_words (fun n => n) 4 (slots 0 l)) as Hw. rewrite length_slots in Hw.
      change (length (concat (map (to_be 4) (slots 0 l))) = length l * 4) in Hw. rewrite Hw. lia.
    - rewrite Hbs. cbn [index_body]. unfold v2_body, pack_index_version. rewrite <- !app_assoc.
      rewrite (proj2 (Nat.ltb_ge _ _)) by (rewrite length_app; cbn; lia). cbn [check]. rewrite bind_Ok.
      rewrite (slice_split [] IDX_MAGIC _ _ 0 4) by reflexivity. by rewrite bind_Ok, bool_decide_true.
    - rewrite Hbs. cbn [index_body]. unfold v2_body, check_idx_version. rewrite <- !app_assoc, decide_True by done.
      by rewrite (read_be_u32_at _ IDX_MAGIC IDX_VERSION _ 4 eq_refl), bind_Ok by done. }
  eexists. split; [exact Hread|]. split; [done|].
  assert (Hslot := v2_slot bs p3 t3 p4 t4 layout (fan l) V2 E3 E4 ltac:(lia) ltac:(nia)).
  rewrite L3, <- Hoffs in Hslot. rewrite L4, <- Hlarge in Hslot.
  assert (Hname : forall i e, l !! i = Some e ->
    slice bs (1032 + i * digest_len alg) (1032 + i * digest_len alg + digest_len alg) = Ok (entry_key e)).
  { intros i e Hi. destruct (table_split p1 t1 entry_key _ l i e (keys_length alg l Hok) Hi) as (l1 & l3 & E & El).
    rewrite L1 in El. pose proof (entry_key_length alg e (ok_at alg l Hok i e Hi)) as Hk. cbv beta in Hk.
    apply (slice_split l1 (entry_key e) l3); [by rewrite E1, E|by rewrite El|by rewrite El, Hk]. }
  assert (Hc : forall i e, l !! i = Some e -> read_u32 bs (v2_crc_start layout + i * 4) = Ok (pe_crc32 e)).
  { intros i e Hi. rewrite Hcrc, <- L2. apply (read_table_u32 pe_crc32 bs p2 t2 l i e E2 Hi).
    apply (ok_at alg l Hok i e Hi). }
  split; cbn [pi_version pi_count pi_algorithm pi_fanout pi_bytes pi_layout]; try done.
  - intros b Hb. by apply fan_lookup.
  - intros i e Hi. unfold object_bytes_at, object_bytes_at_with_layout, pi_names_start.
    cbn [pi_version pi_bytes pi_algorithm pi_layout]. rewrite Hns. by apply Hname.
  - intros _. unfold pi_names_start. cbn [pi_layout]. rewrite Hns.
    apply (slice_split p1 (concat (map entry_key l)) t1); [done|done|].
    by rewrite L1, (length_tables entry_key (digest_len alg) l (keys_length alg l Hok)).
  - intros i e Hi. unfold entry_at, pi_names_start. cbv zeta. cbn [pi_version pi_bytes pi_algorithm pi_layout].
    rewrite (Hslot i e Hi), bind_Ok, Hns.
    replace ((i + 1) * digest_len alg) with (i * digest_len alg + digest_len alg) by lia.
    rewrite Nat.add_assoc, (Hname i e Hi), bind_Ok, (entry_id_new alg e (ok_at alg l Hok i e Hi)), bind_Ok.
    rewrite (Hc i e Hi), bind_Ok. by destruct e.
  - unfold pack_checksum. cbn [pi_algorithm pi_bytes]. cbv zeta. rewrite Hcs, bind_Ok.
    rewrite <- Hpa. by apply ObjectId_new_as_bytes.
Qed.
End listed.
