(* ===== verification/PackIndexLookup.v ===== *)
(** * Pack indexes: from a pack's entries to its index and back, lookups by id, safety on any bytes *)
From S2P Require Import Prelude Order Object Store PackParse PackIndex PackIndexSpec.

(** ** Sorted positions *)

Lemma omap_lookup_from {A} (l : list A) : forall pre,
  omap (fun p => (pre ++ l) !! p) (seq (length pre) (length l)) = l.
Proof.
  induction l as [|x l IH]; intros pre; [done|]. cbn [length seq]. cbn [omap list_omap].
  rewrite list_lookup_middle by done. f_equal.
  specialize (IH (pre ++ [x])). rewrite <- app_assoc, length_app, Nat.add_1_r in IH. exact IH.
Qed.

Lemma omap_lookup_seq {A} (l : list A) : omap (fun p => l !! p) (seq 0 (length l)) = l.
Proof. apply (omap_lookup_from l []). Qed.

Lemma picks_omap entries positions :
  Forall (fun p => p < length entries) positions ->
  picks entries positions (omap (fun p => entries !! p) positions).
Proof.
  induction 1 as [|p positions Hp _ IH]; [constructor|]. cbn.
  destruct (lookup_lt_is_Some_2 entries p Hp) as [e He]. rewrite He. by constructor.
Qed.

Lemma picks_sorted entries positions l :
  picks entries positions l -> weakly_sorted (id_at entries) cmp_bytes positions ->
  weakly_sorted (fun e => as_bytes (pe_object_id e)) cmp_bytes l.
Proof.
  unfold weakly_sorted. induction 1 as [|p e positions l Hp Hps IH]; intros Hs; [constructor|].
  apply StronglySorted_cons in Hs as [Hf Hs]. constructor; [by apply IH|]. clear IH Hs.
  induction Hps as [|q x positions l Hq _ IH]; [constructor|]. apply Forall_cons in Hf as [Hf1 Hf].
  constructor; [|by apply IH]. unfold id_at in Hf1. by rewrite Hp, Hq in Hf1.
Qed.

Lemma sorted_positions_Ok `{UnstableSortLaws} entries :
  (N.of_nat (length entries) < 2 ^ 32)%N ->
  exists p l, sorted_pack_index_positions entries = Ok p /\ picks entries (positions_iter p) l /\
    positions_len p = length l /\ l ≡ₚ entries /\ NoDup (positions_iter p) /\
    weakly_sorted (fun e => as_bytes (pe_object_id e)) cmp_bytes l.
Proof.
  intros Hn. unfold sorted_pack_index_positions.
  rewrite (proj2 (N.ltb_ge (2 ^ 32 - 1) _)) by lia. cbn [check]. rewrite bind_Ok.
  unfold pack_index_entries_are_sorted.
  destruct (windows2_all _ entries) eqn:Ew.
  - apply (windows2_weak (fun e => as_bytes (pe_object_id e)) cmp_bytes) in Ew.
    exists (Identity (length entries)), entries. split; [done|]. split; [by apply picks_identity|]. split; [done|]. split; [done|].
    split; [|done]. cbn [positions_iter]. apply NoDup_alt. intros i j x.
    change (map as_u32 ?l) with (as_u32 <$> l). rewrite !list_lookup_fmap_Some.
    intros (a & -> & [-> Hi]%lookup_seq) (b & Hab & [-> Hj]%lookup_seq). unfold as_u32 in Hab.
    rewrite !N.mod_small in Hab by lia. lia.
  - set (positions := sort_unstable_by nat _ _).
    assert (Hperm : positions ≡ₚ seq 0 (length entries)) by apply unstable_perm, _.
    assert (Hin : Forall (fun p => p < length entries) positions).
    { rewrite Hperm. apply Forall_seq. lia. }
    pose proof (picks_omap entries positions Hin) as Hp.
    exists (Sorted positions), (omap (fun p => entries !! p) positions).
    split; [done|]. split; [exact Hp|]. split; [cbn; exact (Forall2_length _ _ _ Hp)|]. split.
    { rewrite Hperm at 1. by rewrite omap_lookup_seq. }
    split; [cbn [positions_iter]; rewrite Hperm; apply NoDup_seq|].
    apply (picks_sorted entries positions); [done|]. apply unstable_sorted, _.
Qed.

(** ** Walks *)

Lemma for_indices_list {A S} (f : nat -> S -> outcome S) (g : A -> S -> S) (l : list A) : forall idx s,
  (forall i e s, l !! i = Some e -> f (idx + i) s = Ok (g e s)) ->
  for_indices f (length l) idx s = Ok (fold_left (fun s e => g e s) l s).
Proof.
  induction l as [|e l IH]; intros idx s Hf; [done|]. cbn [length for_indices fold_left].
  pose proof (Hf 0 e s eq_refl) as E. rewrite Nat.add_0_r in E. rewrite E, bind_Ok.
  apply IH. intros i x s' Hi. rewrite <- (Hf (Datatypes.S i) x s' Hi). f_equal. lia.
Qed.

Lemma fold_left_snoc {A B} (g : A -> B) l : forall acc,
  fold_left (fun acc e => acc ++ [g e]) l acc = acc ++ map g l.
Proof.
  induction l as [|e l IH]; intros acc; cbn; [by rewrite app_nil_r|]. by rewrite IH, <- app_assoc.
Qed.

Section walks.
Context (pi : PackIndex) (version : PackIndexVersion) (pack_id : ObjectId) (l : list PackIndexEntry).
Hypothesis Hl : lists pi version pack_id l.

Lemma for_each_entry_lists {S} (f : PackIndexEntry -> S -> outcome S) (g : PackIndexEntry -> S -> S) s :
  (forall e s, f e s = Ok (g e s)) ->
  for_each_entry pi f s = Ok (fold_left (fun s e => g (seen version e) s) l s).
Proof.
  intros Hf. unfold for_each_entry. rewrite (ls_count _ _ _ _ Hl).
  apply (for_indices_list _ (fun e s => g (seen version e) s)). intros i e s' Hi.
  by rewrite Nat.add_0_l, (ls_entry _ _ _ _ Hl i e Hi), bind_Ok, Hf.
Qed.

Lemma pi_entries_lists : pi_entries pi = Ok (map (seen version) l).
Proof.
  unfold pi_entries. rewrite (for_each_entry_lists _ (fun e acc => acc ++ [e])) by done.
  by rewrite (fold_left_snoc (seen version)).
Qed.

(** A binary search of a range by any middle; the probes fall, then hit, then rise. *)
Lemma search_loop_spec mid_of probe (f : nat -> comparison) : (forall a b, a < b -> a <= mid_of a b < b) ->
  forall fuel left right, right - left <= fuel ->
  (forall i, left <= i < right -> probe i = Ok (f i)) ->
  (forall i j, left <= i -> i < j -> j < right -> (f i = Gt -> f j = Gt) /\ (f j = Lt -> f i = Lt)) ->
  exists r, search_loop mid_of probe fuel left right = Ok r /\
    match r with
    | Some m => left <= m < right /\ f m = Eq
    | None => forall i, left <= i < right -> f i <> Eq
    end.
Proof.
  intros Hmid. induction fuel as [|fuel IH]; intros left right Hf Hp Hm; cbn [search_loop].
  - rewrite (proj2 (Nat.ltb_ge left right)) by lia. exists None. split; [done|]. intros i Hi. lia.
  - destruct (Nat.ltb_spec left right) as [Hlt|Hge]; [|exists None; split; [done|intros i Hi; lia]].
    pose proof (Hmid left right Hlt) as Hb. set (mid := mid_of left right) in *.
    rewrite (Hp mid) by lia. rewrite bind_Ok. destruct (f mid) eqn:Ef.
    + exists (Some mid). done.
    + destruct (IH (mid + 1) right) as (r & -> & Hr); [lia|intros; apply Hp; lia|intros; apply Hm; lia|].
      exists r. split; [done|]. destruct r as [m|]; [destruct Hr; split; [lia|done]|].
      intros i Hi. destruct (decide (mid < i)); [apply Hr; lia|].
      destruct (decide (i = mid)) as [->|]; [by rewrite Ef|]. by rewrite (proj2 (Hm i mid ltac:(lia) ltac:(lia) ltac:(lia)) Ef).
    + destruct (IH left mid) as (r & -> & Hr); [lia|intros; apply Hp; lia|intros; apply Hm; lia|].
      exists r. split; [done|]. destruct r as [m|]; [destruct Hr; split; [lia|done]|].
      intros i Hi. destruct (decide (i < mid)); [apply Hr; lia|].
      destruct (decide (i = mid)) as [->|]; [by rewrite Ef|]. by rewrite (proj1 (Hm mid i ltac:(lia) ltac:(lia) ltac:(lia)) Ef).
Qed.
End walks.

(** ** Lookups by id *)

Lemma weakly_sorted_lookup (l : list PackIndexEntry) i j x y :
  weakly_sorted (fun e => as_bytes (pe_object_id e)) cmp_bytes l -> l !! i = Some x -> l !! j = Some y ->
  i < j -> cmp_bytes (as_bytes (pe_object_id x)) (as_bytes (pe_object_id y)) <> Gt.
Proof.
  unfold weakly_sorted. intros Hs. revert i j.
  induction Hs as [|z l Hs IH Hz]; intros [|i] [|j] Hx Hy Hij; try done; try lia.
  - injection Hx as ->. rewrite Forall_forall in Hz. apply Hz. by eapply list_elem_of_lookup_2.
  - apply (IH i j); [done|done|lia].
Qed.

(** In a sorted list the first bytes up to [b] come first. *)
Lemma below_index alg l b i e :
  Forall (entry_ok alg) l -> weakly_sorted (fun e => as_bytes (pe_object_id e)) cmp_bytes l ->
  l !! i = Some e -> (i < below b l <-> (first_byte e <= b)%N).
Proof.
  intros Hok Hs Hi. unfold below. set (p := fun e => (first_byte e <=? b)%N).
  assert (Hf : filter (fun e => first_byte e <= b)%N l = filter (fun x => p x = true) l).
  { apply list_filter_iff. intros x. unfold p. by rewrite N.leb_le. }
  assert (Hsplit : l = filter (fun x => p x = true) l ++ filter (fun x => p x = false) l).
  { apply (sorted_split (fun e => as_bytes (pe_object_id e)) cmp_bytes); [done|]. intros x y Hx Hy Hxy Hpy. unfold p in *.
    rewrite Forall_forall in Hok. rewrite N.leb_le in *.
    pose proof (key_first_le alg x y (Hok x Hx) (Hok y Hy) Hxy). lia. }
  rewrite Hf. rewrite Hsplit in Hi. apply lookup_app_Some in Hi as [Hi|[Hge Hi]].
  - pose proof (lookup_lt_Some _ _ _ Hi). apply list_elem_of_lookup_2, list_elem_of_filter in Hi as [Hp _].
    unfold p in Hp. rewrite N.leb_le in Hp. done.
  - apply list_elem_of_lookup_2, list_elem_of_filter in Hi as [Hp _]. unfold p in Hp. rewrite N.leb_gt in Hp.
    split; [lia|]. intros. lia.
Qed.

Section lookup.
Context (pi : PackIndex) (version : PackIndexVersion) (pack_id : ObjectId) (l : list PackIndexEntry).
Hypothesis Hl : lists pi version pack_id l.
Hypothesis Hs : weakly_sorted (fun e => as_bytes (pe_object_id e)) cmp_bytes l.

(** The comparison a probe makes. *)
Definition probe_cmp (needle : bytes) (i : nat) : comparison :=
  match l !! i with
  | Some e => cmp_bytes (as_bytes (pe_object_id e)) needle
  | None => Eq
  end.

Lemma probe_cmp_mono needle start stop i j :
  start <= i -> i < j -> j < stop -> stop <= length l ->
  (probe_cmp needle i = Gt -> probe_cmp needle j = Gt) /\
  (probe_cmp needle j = Lt -> probe_cmp needle i = Lt).
Proof.
  intros _ Hij Hj Hstop. unfold probe_cmp.
  destruct (lookup_lt_is_Some_2 l i) as [x Hx]; [lia|]. destruct (lookup_lt_is_Some_2 l j) as [y Hy]; [lia|].
  rewrite Hx, Hy. pose proof (weakly_sorted_lookup l i j x y Hs Hx Hy Hij) as Hxy. split; intros E.
  - destruct (cmp_bytes (as_bytes (pe_object_id y)) needle) eqn:Ey; [| |done]; exfalso;
      (assert (Hn : cmp_bytes (as_bytes (pe_object_id x)) needle <> Gt); [|done]);
      apply (cmp_not_gt_trans cmp_bytes _ _ _ Hxy); by rewrite Ey.
  - destruct (cmp_bytes (as_bytes (pe_object_id x)) needle) eqn:Ex; [|done|]; exfalso.
    + apply cmp_eq in Ex. rewrite Ex in Hxy. apply Hxy. exact (proj2 (cmp_gt_lt cmp_bytes _ _) E).
    + assert (Hn : cmp_bytes (as_bytes (pe_object_id x)) needle <> Gt); [|done].
      apply (cmp_not_gt_trans cmp_bytes _ _ _ Hxy). by rewrite E.
Qed.

(** Both searches of [offset_for] probe the names. *)
Lemma offset_search start stop needle :
  stop <= length l ->
  exists r,
    match pi_version pi with
    | V1 =>
        search_loop (fun lo hi => (lo + hi) / 2)
          (fun mid => name ← object_bytes_at_with_layout pi mid (digest_len (pi_algorithm pi)) (pi_names_start pi);
                      Ok (cmp_bytes name needle))
          (stop - start) start stop
    | V2 =>
        names ← slice (pi_bytes pi) (pi_names_start pi)
                  (pi_names_start pi + pi_count pi * digest_len (pi_algorithm pi));
        binary_search_object_name names (digest_len (pi_algorithm pi)) start stop needle
    end = Ok r /\
    match r with
    | Some m => start <= m < stop /\ probe_cmp needle m = Eq
    | None => forall i, start <= i < stop -> probe_cmp needle i <> Eq
    end.
Proof.
  intros Hstop. pose proof (ls_ok _ _ _ _ Hl) as Hok. rewrite (ls_version _ _ _ _ Hl).
  destruct version eqn:Ev.
  - apply (search_loop_spec (fun lo hi => (lo + hi) / 2)).
    + intros a b Hab. split; [apply Nat.div_le_lower_bound; lia|apply Nat.Div0.div_lt_upper_bound; lia].
    + lia.
    + intros i Hi. destruct (lookup_lt_is_Some_2 l i) as [e He]; [lia|].
      pose proof (ls_name _ _ _ _ Hl i e He) as Hn. unfold object_bytes_at in Hn.
      unfold probe_cmp. by rewrite He, Hn, bind_Ok.
    + intros i j Hi Hij Hj. by apply (probe_cmp_mono _ start stop).
  - rewrite (ls_names _ _ _ _ Hl eq_refl), bind_Ok. unfold binary_search_object_name.
    apply search_loop_spec.
    + intros a b Hab. pose proof (Nat.div_lt (b - a) 2). lia.
    + lia.
    + intros i Hi. destruct (lookup_lt_is_Some_2 l i) as [e He]; [lia|].
      pose proof (keys_length _ _ Hok) as Hk.
      destruct (table_split [] [] _ _ l i e Hk He) as (l1 & l3 & E & El). cbn [app] in E. rewrite app_nil_r in E.
      rewrite Forall_lookup in Hk. pose proof (Hk i e He) as Hke. cbv beta in Hke.
      rewrite (slice_split l1 (as_bytes (pe_object_id e)) l3);
        [|exact E|by rewrite El|by rewrite El, Hke; cbn [length]; lia].
      unfold probe_cmp. by rewrite bind_Ok, He.
    + intros i j Hi Hij Hj. by apply (probe_cmp_mono _ start stop).
Qed.

(** [offset_for] finds the offset of an entry with the id, if there is one. *)
Lemma offset_for_lists id :
  ObjectId_wf id -> algorithm id = pi_algorithm pi ->
  exists r, offset_for pi id = Ok r /\
    match r with
    | Some offset => exists e, e ∈ l /\ pe_object_id e = id /\ pe_offset e = offset
    | None => forall e, e ∈ l -> pe_object_id e <> id
    end.
Proof.
  intros Hwf Ha. pose proof (ls_ok _ _ _ _ Hl) as Hok. unfold offset_for.
  pose proof (length_as_bytes id Hwf) as Hlen. pose proof (digest_len_pos (algorithm id)) as Hpos.
  destruct (lookup_lt_is_Some_2 (as_bytes id) 0) as [b Hb]; [lia|].
  rewrite (index_at_lookup _ _ _ Hb), bind_Ok. cbv zeta.
  pose proof (u8_lt b) as Hu. set (n := N.to_nat (u8 b)). assert (Hn : n < 256) by lia.
  assert (Hstart : exists start, (if n =? 0 then Ok 0%N else index_at (pi_fanout pi) (n - 1)) = Ok (N.of_nat start) /\
    forall i e, l !! i = Some e -> first_byte e = u8 b -> start <= i).
  { destruct (Nat.eqb_spec n 0) as [Hz|Hz]; [exists 0; split; [done|intros; lia]|].
    exists (below (N.of_nat (n - 1)) l).
    rewrite (index_at_lookup _ _ _ (ls_fanout _ _ _ _ Hl (n - 1) ltac:(lia))). split; [done|].
    intros i e Hi Hfe. pose proof (below_index _ _ (N.of_nat (n - 1)) i e Hok Hs Hi).
    destruct (decide (i < below (N.of_nat (n - 1)) l)); [|lia]. lia. }
  destruct Hstart as (start & -> & Hstart). rewrite bind_Ok.
  rewrite (index_at_lookup _ _ _ (ls_fanout _ _ _ _ Hl n Hn)), bind_Ok, !Nat2N.id.
  set (stop := below (N.of_nat n) l).
  assert (Hstop : stop <= length l).
  { unfold stop, below. pose proof (length_filter (fun e => first_byte e <= N.of_nat n)%N l). lia. }
  assert (Hin : forall i e, l !! i = Some e -> first_byte e = u8 b -> i < stop).
  { intros i e Hi Hfe. apply (below_index _ _ (N.of_nat n) i e Hok Hs Hi). lia. }
  destruct (offset_search start stop (as_bytes id) Hstop) as (r & -> & Hr). rewrite bind_Ok.
  assert (Hid : forall i e, l !! i = Some e -> probe_cmp (as_bytes id) i = Eq <-> pe_object_id e = id).
  { intros i e Hi. unfold probe_cmp. rewrite Hi, cmp_eq. rewrite Forall_lookup in Hok.
    destruct (Hok i e Hi) as (Hwe & Hae & _). split; [|by intros ->].
    apply as_bytes_inj; [done|done|by rewrite Ha, Hae]. }
  destruct r as [m|].
  - destruct Hr as [Hm Hc]. destruct (lookup_lt_is_Some_2 l m) as [e He]; [lia|].
    rewrite (ls_offset _ _ _ _ Hl m e He), bind_Ok. eexists. split; [done|].
    exists e. split; [by eapply list_elem_of_lookup_2|]. split; [|done]. by apply (Hid m e He).
  - exists None. split; [done|]. intros e (i & Hi)%list_elem_of_lookup E.
    assert (Hfe : first_byte e = u8 b) by (unfold first_byte; by rewrite E, Hb).
    apply (Hr i); [split; [by apply (Hstart i e)|by apply (Hin i e)]|]. by apply (Hid i e Hi).
Qed.
End lookup.

(** ** From entries to an index and back *)

(** The inverse of the positions: index positions by pack position. *)
Lemma invert_loop_Ok len positions : forall index_position by_pack,
  Forall (fun p => p < len) positions -> NoDup positions -> length by_pack = len ->
  (N.of_nat (index_position + length positions) <= 2 ^ 32)%N ->
  exists r, invert_loop len index_position positions by_pack = Ok r /\ length r = len /\
    (forall i p, positions !! i = Some p -> r !! p = Some (index_position + i)) /\
    (forall q, q ∉ positions -> r !! q = by_pack !! q).
Proof.
  induction positions as [|p positions IH]; intros index_position by_pack Hp Hnd Hl Hn.
  { exists by_pack. split_and!; try done. }
  apply Forall_cons in Hp as [Hp1 Hp]. apply NoDup_cons in Hnd as [Hni Hnd].
  cbn [length] in Hn. cbn [invert_loop].
  rewrite (proj2 (Nat.leb_gt _ _)) by lia. cbn [check]. rewrite bind_Ok.
  rewrite (proj2 (N.ltb_lt _ _)) by lia. cbn [negb check]. rewrite bind_Ok.
  unfold set_at. rewrite (proj2 (Nat.ltb_lt _ _)) by lia. rewrite bind_Ok.
  destruct (IH (index_position + 1) (<[p:=index_position]> by_pack)) as (r & -> & Hr & Hin & Hout);
    [done|done|by rewrite length_insert|lia|].
  exists r. split_and!; [done|done| |].
  - intros [|i] q Hq; cbn in Hq.
    + injection Hq as <-. rewrite Hout by done. rewrite list_lookup_insert_eq by lia. f_equal. lia.
    + rewrite (Hin i q Hq). f_equal. lia.
  - intros q [Hqp Hq]%not_elem_of_cons. rewrite Hout by done. by rewrite list_lookup_insert_ne.
Qed.

Section round.
Context `{ShaLaws, UnstableSortLaws}.

(** The words of a reverse index give, at the place of an entry in the pack, its place in the index. *)
Definition inverts (entries l : list PackIndexEntry) (bs : bytes) : Prop :=
  exists header ps trailer,
    length header = 12 /\ bs = header ++ concat (map (fun p => to_be 4 (N.of_nat p)) ps) ++ trailer /\
    length ps = length entries /\
    forall i e, l !! i = Some e -> exists p, entries !! p = Some e /\ ps !! p = Some i.

Lemma reverse_index_Ok alg pack_id entries p l :
  picks entries (positions_iter p) l -> positions_len p = length l -> length entries = length l ->
  NoDup (positions_iter p) ->
  (N.of_nat (length l) < 2 ^ 32)%N -> ObjectId_wf pack_id -> algorithm pack_id = alg ->
  exists bs, encode_pack_reverse_index_from_positions alg pack_id entries p = Ok bs /\
    validate_pack_reverse_index alg bs (length entries) = Ok tt /\ inverts entries l bs.
Proof.
  intros Hp Hlp Hle Hnd Hn Hpid Hpa. destruct (capacities_Ok alg (length l) Hn) as (_ & _ & [c Hc]).
  unfold encode_pack_reverse_index_from_positions. rewrite bool_decide_true by done. cbn [negb check].
  rewrite bind_Ok, Hle, Hlp, Nat.eqb_refl. rewrite (proj2 (N.ltb_ge (2 ^ 32 - 1) _)) by lia.
  cbn [negb check]. rewrite !bind_Ok, Hc, bind_Ok. cbv zeta.
  assert (Hps : exists ps, match p with
      | Identity len => Ok (seq 0 len)
      | Sorted positions => invert_loop (length l) 0 positions (replicate (length l) 0)
      end = Ok ps /\ length ps = length l /\
      forall i q, positions_iter p !! i = Some q -> ps !! q = Some i).
  { destruct p as [len|positions]; cbn [positions_len positions_iter] in *.
    - exists (seq 0 len). split; [done|]. rewrite length_seq. split; [done|]. intros i q.
      change (map as_u32 ?l) with (as_u32 <$> l). rewrite list_lookup_fmap_Some.
      intros (a & -> & [-> Hi]%lookup_seq). unfold as_u32. rewrite N.mod_small, Nat2N.id by lia.
      by apply lookup_seq.
    - destruct (invert_loop_Ok (length l) positions 0 (replicate (length l) 0)) as (r & E & Hr & Hin & _);
        [|done|by rewrite length_replicate|lia|by exists r].
      rewrite <- Hle. clear -Hp. induction Hp as [|q x positions l Hq _ IH]; constructor;
        [by apply lookup_lt_Some in Hq|done]. }
  destruct Hps as (ps & -> & Hps & Hinv). rewrite bind_Ok.
  set (body := _ ++ concat _).
  pose proof (length_u32_words N.of_nat 4 ps) as Hw.
  assert (Hbody : length body = 12 + length l * 4).
  { unfold body. rewrite !length_app, !length_to_be, Hw, Hps. done. }
  unfold append_trailer. rewrite bool_decide_true by done. cbn [negb check]. rewrite bind_Ok.
  destruct (hash_finalize (hash_update (hash_new alg) (body ++ as_bytes pack_id))) as [id|e| |] eqn:Eh;
    rewrite hash_finalize_ok in Eh; try done. rewrite bind_Ok. eexists. split; [done|].
  assert (Hwf : ObjectId_wf id) by (injection Eh as <-; apply mk_id_wf, length_sha_digest).
  assert (Ha : algorithm id = alg) by (injection Eh as <-; done).
  rewrite <- hash_finalize_ok in Eh. rewrite <- app_assoc.
  destruct (trailer_checks alg [] pack_id ltac:(cbn; lia) Hpid Hpa body id _ Eh Hwf Ha eq_refl) as (Hsum & _ & Hlen).
  split.
  2: { eexists _, ps, _. split; [|split; [unfold body; rewrite <- (app_assoc _ (concat _)); reflexivity|]]; [done|].
    split; [by rewrite Hps|]. intros i e Hi. destruct (Forall2_lookup_r _ _ _ _ _ Hp Hi) as (q & Hq & He).
    exists q. split; [done|by apply Hinv]. }
  unfold validate_pack_reverse_index. cbv zeta. rewrite Hlen, Hbody, Nat.eqb_refl. cbn [negb check].
  rewrite bind_Ok. set (bs := body ++ as_bytes pack_id ++ as_bytes id) in *.
  assert (Hbs : exists t, bs = RIDX_MAGIC ++ to_be 4 RIDX_VERSION ++ to_be 4 (reverse_index_hash_version alg) ++ t).
  { eexists. unfold bs, body. rewrite <- !app_assoc. done. }
  destruct Hbs as [t Hbs]. rewrite Hbs at 1. rewrite (slice_split [] RIDX_MAGIC _ _ 0 4) by reflexivity.
  rewrite bind_Ok, bool_decide_true by done. cbn [negb check]. rewrite bind_Ok.
  rewrite (read_be_u32_at bs RIDX_MAGIC RIDX_VERSION _ 4 Hbs) by done. rewrite bind_Ok, N.eqb_refl. cbn [negb check].
  rewrite bind_Ok.
  rewrite (read_be_u32_at bs (RIDX_MAGIC ++ to_be 4 RIDX_VERSION) (reverse_index_hash_version alg) t 8);
    [|by rewrite <- app_assoc|done|by destruct alg].
  rewrite bind_Ok, N.eqb_refl. cbn [negb check]. by rewrite bind_Ok.
Qed.

Lemma matches_loop_lists pi version pack_id l entries rest : lists pi version pack_id l ->
  forall pre positions, l = pre ++ rest -> picks entries positions rest ->
  matches_loop pi entries positions (length pre) = Ok true.
Proof.
  intros Hl. induction rest as [|e rest IH]; intros pre positions E Hp.
  - apply Forall2_nil_inv_r in Hp as ->. done.
  - apply Forall2_cons_inv_r in Hp as (p & positions0 & He & Hp' & ->). cbn [matches_loop].
    assert (Hi : l !! length pre = Some e) by (rewrite E; by apply list_lookup_middle).
    rewrite (index_at_lookup _ _ _ He), bind_Ok, (ls_name _ _ _ _ Hl _ _ Hi), bind_Ok.
    rewrite bool_decide_true by done. cbn [negb]. rewrite (ls_offset _ _ _ _ Hl _ _ Hi), bind_Ok, N.eqb_refl.
    cbn [negb]. rewrite (ls_version _ _ _ _ Hl).
    assert (Hcrc : (if decide (version = V2) then crc32 ← crc_at pi (length pre); Ok (negb (crc32 =? pe_crc32 e)%N)
      else Ok false) = Ok false).
    { destruct (decide (version = V2)) as [->|]; [|done].
      by rewrite (ls_crc _ _ _ _ Hl _ _ Hi), bind_Ok, N.eqb_refl. }
    rewrite Hcrc, bind_Ok. replace (length pre + 1) with (length (pre ++ [e])) by (rewrite length_app; done).
    apply IH; [by rewrite <- app_assoc|done].
Qed.

(** Indexing entries: the index, read back, lists them sorted by id, and matches them. *)
Lemma index_entries_Ok alg version pack_id entries :
  Forall (entry_ok alg) entries -> (N.of_nat (length entries) < 2 ^ 31)%N ->
  ObjectId_wf pack_id -> algorithm pack_id = alg ->
  (version = V1 -> Forall (fun e => pe_offset e < 2 ^ 31)%N entries) ->
  exists ip pi l, index_pack_from_entries alg pack_id entries version = Ok ip /\
    read_bytes (ip_index ip) alg = Ok pi /\ pi_algorithm pi = alg /\ lists pi version pack_id l /\
    l ≡ₚ entries /\ weakly_sorted (fun e => as_bytes (pe_object_id e)) cmp_bytes l /\
    validate_pack_reverse_index alg (ip_reverse_index ip) (length entries) = Ok tt /\
    inverts entries l (ip_reverse_index ip) /\
    pack_index_matches_entries pi version pack_id entries = Ok true.
Proof.
  intros Hok Hn Hpid Hpa Hv1.
  destruct (sorted_positions_Ok entries) as (p & l & Ep & Hp & Hlp & Hperm & Hnd & Hs); [lia|].
  pose proof (Permutation_length Hperm) as Hlen. rewrite <- Hperm in Hok. rewrite <- Hlen in Hn.
  assert (Hv1l : version = V1 -> Forall (fun e => pe_offset e < 2 ^ 31)%N l) by (intros Hv; rewrite Hperm; by apply Hv1).
  destruct (encode_index_Ok alg version pack_id entries p l) as (bs & Eb & Htext); try done; [lia| |].
  { intros Hv. eapply Forall_impl; [exact (Hv1l Hv)|]. intros e He. cbv beta in *. lia. }
  destruct (reverse_index_Ok alg pack_id entries p l) as (rbs & Er & Hr & Hinv); try done; [lia|].
  assert (Hread : exists pi, read_bytes bs alg = Ok pi /\ pi_algorithm pi = alg /\ lists pi version pack_id l).
  { destruct version; [by apply read_v1; auto|by apply read_v2]. }
  destruct Hread as (pi & Hread & Ha & Hlists).
  exists (MkIndexed pack_id bs rbs (length entries)), pi, l. cbn [ip_index ip_reverse_index].
  unfold index_pack_from_entries. rewrite Ep, bind_Ok, Eb, bind_Ok, Er, bind_Ok. split_and!; try done.
  unfold pack_index_matches_entries. rewrite (ls_version _ _ _ _ Hlists), bool_decide_true by done. cbn [negb].
  rewrite (ls_count _ _ _ _ Hlists), Hlen, Nat.eqb_refl. cbn [negb].
  rewrite (ls_checksum _ _ _ _ Hlists), bind_Ok, bool_decide_true by done. cbn [negb].
  rewrite Ep, bind_Ok. apply (matches_loop_lists pi version pack_id l entries l Hlists []); auto.
Qed.

(** C24: an index made for a pack's entries, of either version, is read back as those entries sorted
    by id, its reverse index is valid and inverts their order, and it matches the entries it was made for. The pack has
    fewer than 2^31 entries; version 1 keeps no checksums of entries and its offsets have to be below 2^31. *)
Theorem pack_index_roundtrip alg version pack_id entries :
  Forall (entry_ok alg) entries -> (N.of_nat (length entries) < 2 ^ 31)%N ->
  ObjectId_wf pack_id -> algorithm pack_id = alg ->
  (version = V1 -> Forall (fun e => pe_offset e < 2 ^ 31)%N entries) ->
  exists ip pi l, index_pack_from_entries alg pack_id entries version = Ok ip /\
    read_bytes (ip_index ip) alg = Ok pi /\
    decode_pack_index alg (ip_index ip) = Ok (map (seen version) l) /\ l ≡ₚ entries /\
    weakly_sorted (fun e => as_bytes (pe_object_id e)) cmp_bytes l /\
    validate_pack_reverse_index alg (ip_reverse_index ip) (length entries) = Ok tt /\
    inverts entries l (ip_reverse_index ip) /\
    pack_index_matches_entries pi version pack_id entries = Ok true.
Proof.
  intros Hok Hn Hpid Hpa Hv1.
  destruct (index_entries_Ok alg version pack_id entries Hok Hn Hpid Hpa Hv1)
    as (ip & pi & l & E & Hread & Ha & Hlists & Hperm & Hs & Hr & Hinv & Hm).
  exists ip, pi, l. split_and!; try done. unfold decode_pack_index. rewrite Hread, bind_Ok.
  by apply (pi_entries_lists pi version pack_id l).
Qed.

(** C25: looking an id up in the index made for a pack finds the offset of an entry with that id exactly when the
    pack has one, whatever the order of the entries and however often an id comes, for fewer than 2^31 entries; in
    version 1 the offsets have to be below 2^31 too, for the reader refuses larger ones
    ([v1_large_offset_not_read_back]). *)
Theorem pack_index_lookup alg version pack_id entries :
  Forall (entry_ok alg) entries -> (N.of_nat (length entries) < 2 ^ 31)%N ->
  ObjectId_wf pack_id -> algorithm pack_id = alg ->
  (version = V1 -> Forall (fun e => pe_offset e < 2 ^ 31)%N entries) ->
  exists ip pi, index_pack_from_entries alg pack_id entries version = Ok ip /\
    read_bytes (ip_index ip) alg = Ok pi /\
    forall id, ObjectId_wf id -> algorithm id = alg ->
      exists r, offset_for pi id = Ok r /\
        match r with
        | Some offset => exists e, e ∈ entries /\ pe_object_id e = id /\ pe_offset e = offset
        | None => forall e, e ∈ entries -> pe_object_id e <> id
        end.
Proof.
  intros Hok Hn Hpid Hpa Hv1.
  destruct (index_entries_Ok alg version pack_id entries Hok Hn Hpid Hpa Hv1)
    as (ip & pi & l & E & Hread & Ha & Hlists & Hperm & Hs & _).
  exists ip, pi. split_and!; try done. intros id Hwf Hid.
  destruct (offset_for_lists pi version pack_id l Hlists Hs id Hwf) as (r & Er & Hr); [congruence|].
  exists r. split; [done|]. destruct r as [offset|].
  - destruct Hr as (e & He & ?). exists e. by rewrite <- Hperm.
  - intros e He. apply Hr. by rewrite Hperm.
Qed.

Lemma for_indices_fail {S} (f : nat -> S -> outcome S) e count : forall idx s,
  (forall i s, idx <= i < idx + count -> is_ok (f i s) = true \/ f i s = Err e) ->
  (exists i, idx <= i < idx + count /\ forall s, f i s = Err e) ->
  for_indices f count idx s = Err e.
Proof.
  induction count as [|count IH]; intros idx s Hf (i & Hi & Hbad); [lia|]. cbn [for_indices].
  destruct (decide (i = idx)) as [->|Hne]; [by rewrite Hbad|].
  destruct (Hf idx s ltac:(lia)) as [Hok| ->]; [|done]. destruct (f idx s) as [s'| | |]; try done.
  rewrite bind_Ok. apply IH; [intros j s'' Hj; apply Hf; lia|]. exists i. split; [lia|done].
Qed.

(** The encoder of version 1 accepts offsets up to 4 GiB but the reader refuses those from
    2 GiB on, so an index of a pack with such an offset is written and can then not be decoded. *)
Theorem v1_large_offset_not_read_back alg pack_id entries :
  Forall (entry_ok alg) entries -> (N.of_nat (length entries) < 2 ^ 31)%N ->
  ObjectId_wf pack_id -> algorithm pack_id = alg ->
  Forall (fun e => pe_offset e < 2 ^ 32)%N entries ->
  Exists (fun e => 2 ^ 31 <= pe_offset e)%N entries ->
  exists ip, index_pack_from_entries alg pack_id entries V1 = Ok ip /\
    decode_pack_index alg (ip_index ip) = fail InvalidData "pack index v1 uses only 32-bit offsets".
Proof.
  intros Hok Hn Hpid Hpa Hlt Hbig.
  destruct (sorted_positions_Ok entries) as (p & l & Ep & Hp & Hlp & Hperm & Hnd & Hs); [lia|].
  pose proof (Permutation_length Hperm) as Hlen. rewrite <- Hperm in Hok, Hlt, Hbig. rewrite <- Hlen in Hn.
  destruct (encode_index_Ok alg V1 pack_id entries p l) as (bs & Eb & Htext); try done; [lia|].
  destruct (reverse_index_Ok alg pack_id entries p l) as (rbs & Er & _); try done; [lia|].
  exists (MkIndexed pack_id bs rbs (length entries)).
  unfold index_pack_from_entries. rewrite Ep, bind_Ok, Eb, bind_Ok, Er, bind_Ok. split; [done|].
  destruct (read_v1_layout alg l pack_id Hok Hn Hpid Hpa bs Htext) as (layout & Hread & Hns & _ & Hrec).
  unfold decode_pack_index. cbn [ip_index]. rewrite Hread, bind_Ok. unfold pi_entries, for_each_entry.
  cbn [pi_count].
  assert (Hat : forall i e, l !! i = Some e ->
    entry_at (MkPackIndex bs (fan l) (length l) alg V1 layout) i
    = if (2 ^ 31 <=? pe_offset e)%N then fail InvalidData "pack index v1 uses only 32-bit offsets"
      else Ok (seen V1 e)).
  { intros i e Hi. unfold entry_at, v1_offset, pi_names_start. cbv zeta.
    cbn [pi_version pi_bytes pi_algorithm pi_layout]. rewrite Hns. destruct (Hrec i e Hi) as [Ho Hname].
    rewrite Forall_lookup in Hlt. rewrite Ho by (by eapply Hlt). rewrite bind_Ok.
    destruct (N.leb_spec (2 ^ 31) (pe_offset e)) as [Hge|Hs'].
    - assert (Hflag : (N.land (pe_offset e) 2147483648 =? 0)%N = false).
      { apply N.eqb_neq. intros E. apply (f_equal (fun n => N.testbit n 31)) in E.
        rewrite N.land_spec, N.bits_0 in E. change (N.testbit 2147483648 31) with true in E.
        rewrite andb_true_r in E. assert (Hb : N.testbit (pe_offset e) 31 = true); [|congruence].
        rewrite N.testbit_true. assert (H31 : (pe_offset e / 2 ^ 31 = 1)%N); [|by rewrite H31].
        pose proof (Hlt i e Hi). symmetry. apply (N.div_unique _ _ _ (pe_offset e - 2 ^ 31)); lia. }
      by rewrite Hflag.
    - rewrite small_offset by done. cbn [negb check]. rewrite !bind_Ok, Hname, bind_Ok.
      by rewrite (entry_id_new alg e (ok_at alg l Hok i e Hi)), bind_Ok. }
  apply for_indices_fail.
  - intros i s Hi. destruct (lookup_lt_is_Some_2 l i) as [e He]; [lia|]. rewrite (Hat i e He).
    destruct (2 ^ 31 <=? pe_offset e)%N; [by right|by left].
  - apply Exists_exists in Hbig as (e & (i & Hi)%list_elem_of_lookup & Hge).
    exists i. pose proof (lookup_lt_Some _ _ _ Hi). split; [lia|]. intros s. rewrite (Hat i e Hi).
    by rewrite (proj2 (N.leb_le _ _)).
Qed.
End round.

(** ** Witnesses *)

#[local] Existing Instances sample_sha sample_sha_laws.

#[local] Existing Instance stable_sort.
#[local] Existing Instance stable_sort_laws.

(** Three entries out of order, one of them beyond 2 GiB. *)
Definition sample_entries : list PackIndexEntry :=
  [MkPackEntry 12 (sample_id Sha1 200) 7; MkPackEntry 5000000000 (sample_id Sha1 17) 8;
   MkPackEntry 90 (sample_id Sha1 18) 9].

Lemma sample_entries_ok : Forall (entry_ok Sha1) sample_entries.
Proof. repeat constructor; first [by vm_compute | apply sample_id_wf]. Qed.

Lemma pack_index_roundtrip_witness :
  exists ip pi l, index_pack_from_entries Sha1 (sample_id Sha1 3) sample_entries V2 = Ok ip /\
    decode_pack_index Sha1 (ip_index ip) = Ok l /\ l ≡ₚ sample_entries /\
    pack_index_matches_entries pi V2 (sample_id Sha1 3) sample_entries = Ok true.
Proof.
  destruct (pack_index_roundtrip Sha1 V2 (sample_id Sha1 3) sample_entries sample_entries_ok)
    as (ip & pi & l & E & _ & Ed & Hp & _ & _ & _ & Hm);
    [vm_compute; reflexivity|apply sample_id_wf|reflexivity|discriminate|].
  exists ip, pi, l. split; [exact E|]. split; [rewrite Ed; f_equal; apply map_id|]. split; [exact Hp|exact Hm].
Defined.

Lemma pack_index_lookup_witness :
  exists ip pi, index_pack_from_entries Sha1 (sample_id Sha1 3) sample_entries V2 = Ok ip /\
    read_bytes (ip_index ip) Sha1 = Ok pi /\
    offset_for pi (sample_id Sha1 17) = Ok (Some 5000000000%N) /\ offset_for pi (sample_id Sha1 19) = Ok None.
Proof.
  destruct (pack_index_lookup Sha1 V2 (sample_id Sha1 3) sample_entries sample_entries_ok)
    as (ip & pi & E & Er & Hl);
    [vm_compute; reflexivity|apply sample_id_wf|reflexivity|discriminate|].
  exists ip, pi. split; [exact E|]. split; [exact Er|]. split.
  - destruct (Hl (sample_id Sha1 17) (sample_id_wf _ _) eq_refl) as ([offset|] & -> & Hr).
    + destruct Hr as (e & He & Hid & <-). unfold sample_entries in He.
      rewrite !elem_of_cons, elem_of_nil in He. destruct He as [->|[->|[->|[]]]];
        [vm_compute in Hid; discriminate|reflexivity|vm_compute in Hid; discriminate].
    + exfalso. apply (Hr (MkPackEntry 5000000000 (sample_id Sha1 17) 8)); [|reflexivity]. right. left.
  - destruct (Hl (sample_id Sha1 19) (sample_id_wf _ _) eq_refl) as ([offset|] & -> & Hr); [|reflexivity].
    exfalso. destruct Hr as (e & He & Hid & _). unfold sample_entries in He.
    rewrite !elem_of_cons, elem_of_nil in He. destruct He as [->|[->|[->|[]]]]; vm_compute in Hid; discriminate.
Defined.

Lemma v1_large_offset_not_read_back_witness :
  exists ip, index_pack_from_entries Sha1 (sample_id Sha1 3)
      [MkPackEntry 3000000000 (sample_id Sha1 17) 0] V1 = Ok ip /\
    is_ok (decode_pack_index Sha1 (ip_index ip)) = false.
Proof.
  destruct (v1_large_offset_not_read_back Sha1 (sample_id Sha1 3) [MkPackEntry 3000000000 (sample_id Sha1 17) 0])
    as (ip & E & Ed).
  - repeat constructor; first [by vm_compute | apply sample_id_wf].
  - vm_compute. reflexivity.
  - apply sample_id_wf.
  - reflexivity.
  - repeat constructor.
  - left. vm_compute. discriminate.
  - exists ip. split; [exact E|]. rewrite Ed. reflexivity.
Defined.
