(* ===== verification/PackPrefix.v ===== *)
(** * Pack indexes: abbreviated ids.  The bounds made from a prefix, the range of names between them, and
      what is found in it *)
From S2P Require Import Prelude Order Object Store PackParse PackIndex.

(** ** Texts as numbers *)

(** The hexadecimal digits of a name. *)
Definition nibbles (bs : bytes) : list N := flat_map (fun b => [u8 b / 16; u8 b mod 16]%N) bs.

(** The number that digits write. *)
Definition nval (ns : list N) : N := fold_left (fun acc n => acc * 16 + n)%N ns 0%N.

Abbreviation digits_ok := (Forall (fun n => n < 16)%N).

Lemma nibbles_app a b : nibbles (a ++ b) = nibbles a ++ nibbles b.
Proof. apply flat_map_app. Qed.

Lemma nibbles_length bs : length (nibbles bs) = 2 * length bs.
Proof.
  induction bs as [|b bs IH]; [done|]. change (nibbles (b :: bs)) with ([u8 b / 16; u8 b mod 16]%N ++ nibbles bs).
  rewrite length_app, IH. cbn [length]. lia.
Qed.

Lemma nibbles_ok bs : digits_ok (nibbles bs).
Proof.
  induction bs as [|b bs IH]; [constructor|]. pose proof (u8_lt b).
  constructor; [apply N.Div0.div_lt_upper_bound; lia|]. constructor; [apply N.mod_lt; lia|done].
Qed.

Lemma nval_app a b : nval (a ++ b) = (nval a * 16 ^ N.of_nat (length b) + nval b)%N.
Proof.
  induction b as [|n b IH] using rev_ind; [by rewrite app_nil_r, N.mul_1_r, N.add_0_r|].
  unfold nval in *. rewrite app_assoc, !(fold_left_app _ _ [n]), IH, length_app. cbn [fold_left length].
  rewrite Nat2N.inj_add, N.pow_add_r. change (N.of_nat 1) with 1%N. rewrite N.pow_1_r. lia.
Qed.

Lemma nval_lt ns : digits_ok ns -> (nval ns < 16 ^ N.of_nat (length ns))%N.
Proof.
  induction ns as [|n ns IH] using rev_ind; [done|]. intros [H [Hn _]%Forall_cons]%Forall_app.
  rewrite nval_app, length_app, Nat2N.inj_add, N.pow_add_r. cbn [length]. change (N.of_nat 1) with 1%N.
  rewrite N.pow_1_r. specialize (IH H). change (nval [n]) with (0 * 16 + n)%N. lia.
Qed.

Lemma nval_zeros k : nval (replicate k 0%N) = 0%N.
Proof.
  induction k as [|k IH]; [done|]. change (replicate (S k) 0%N) with ([0%N] ++ replicate k 0%N).
  rewrite nval_app, IH. done.
Qed.

Lemma nval_fifteens k : (nval (replicate k 15%N) + 1 = 16 ^ N.of_nat k)%N.
Proof.
  induction k as [|k IH]; [done|]. change (replicate (S k) 15%N) with ([15%N] ++ replicate k 15%N).
  rewrite nval_app, length_replicate, Nat2N.inj_succ, N.pow_succ_r'. change (nval [15%N]) with 15%N. lia.
Qed.

Lemma nval_inj a b : digits_ok a -> digits_ok b -> length a = length b -> nval a = nval b -> a = b.
Proof.
  revert b. induction a as [|x a IH] using rev_ind; intros b Ha Hb Hl E.
  - by destruct b.
  - destruct b as [|y b _] using rev_ind; [rewrite length_app in Hl; cbn in Hl; lia|].
    rewrite !length_app in Hl. cbn in Hl. apply Forall_app in Ha as [Ha [Hx _]%Forall_cons].
    apply Forall_app in Hb as [Hb [Hy _]%Forall_cons]. rewrite !nval_app in E. cbn [length] in E.
    change (N.of_nat 1) with 1%N in E. rewrite !N.pow_1_r in E.
    change (nval [x]) with x in E. change (nval [y]) with y in E.
    rewrite (IH b Ha Hb) by lia. f_equal. f_equal. lia.
Qed.

Lemma nval_cons b bs : nval (nibbles (b :: bs)) = (u8 b * 16 ^ N.of_nat (2 * length bs) + nval (nibbles bs))%N.
Proof.
  change (nibbles (b :: bs)) with ([u8 b / 16; u8 b mod 16]%N ++ nibbles bs). rewrite nval_app, nibbles_length.
  f_equal. f_equal. change (nval [u8 b / 16; u8 b mod 16]%N) with ((0 * 16 + u8 b / 16) * 16 + u8 b mod 16)%N.
  pose proof (N.div_mod (u8 b) 16). lia.
Qed.

(** Names of one length are in the order of the numbers they write. *)
Lemma cmp_nval a : forall b, length a = length b -> cmp_bytes a b = (nval (nibbles a) ?= nval (nibbles b))%N.
Proof.
  induction a as [|x a IH]; intros [|y b] Hl; try done. injection Hl as Hl.
  cbn [cmp_bytes]. rewrite !nval_cons, (IH b Hl), Hl.
  pose proof (nval_lt _ (nibbles_ok a)) as Ha. pose proof (nval_lt _ (nibbles_ok b)) as Hb.
  rewrite nibbles_length in Ha, Hb. rewrite Hl in Ha. set (p := (16 ^ N.of_nat (2 * length b))%N) in *.
  destruct (N.compare_spec (u8 x) (u8 y)) as [->|H|H]; cbn [then_cmp].
  - destruct (N.compare_spec (nval (nibbles a)) (nval (nibbles b))); symmetry;
      [apply N.compare_eq_iff|apply N.compare_lt_iff|apply N.compare_gt_iff]; lia.
  - symmetry. apply N.compare_lt_iff. nia.
  - symmetry. apply N.compare_gt_iff. nia.
Qed.

(** ** Prefixes and their digits *)

Definition prefix_digits (hex_prefix : bytes) (ns : list N) : Prop :=
  Forall2 (fun b n => prefix_nibble b = Ok n) hex_prefix ns.

Lemma prefix_nibble_Ok b n : prefix_nibble b = Ok n -> (n < 16)%N /\ hex_char n = to_lower b.
Proof. destruct b; intros [= <-]; done. Qed.

Lemma hex_char_inj m n : (m < 16)%N -> (n < 16)%N -> hex_char m = hex_char n -> m = n.
Proof.
  intros Hm Hn E. pose proof (forall_below 16 (fun k => bool_decide (hex_nibble (hex_char k) = Ok k)) eq_refl) as Hc.
  pose proof (Hc m Hm) as H1. pose proof (Hc n Hn) as H2. cbv beta in H1, H2.
  apply bool_decide_eq_true in H1, H2. rewrite E, H2 in H1. by injection H1.
Qed.

Lemma prefix_digits_ok p ns : prefix_digits p ns -> digits_ok ns /\ length p = length ns /\ map hex_char ns = map to_lower p.
Proof.
  intros H. split; [|split; [by eapply Forall2_length|]].
  - induction H as [|b n p ns Hb _ IH]; [constructor|]. constructor; [by apply prefix_nibble_Ok in Hb as [? _]|done].
  - induction H as [|b n p ns Hb _ IH]; [done|]. cbn [map]. apply prefix_nibble_Ok in Hb as [_ ->]. by rewrite IH.
Qed.

(** Every text of hexadecimal digits, in either case, has its digits. *)
Definition is_hex (b : byte) : Prop := is_ok (prefix_nibble b) = true.

Lemma prefix_digits_exists p : Forall is_hex p -> exists ns, prefix_digits p ns.
Proof.
  induction 1 as [|b p Hb _ [ns IH]]; [exists []; constructor|]. unfold is_hex in Hb.
  destruct (prefix_nibble b) as [n| | |] eqn:E; try done. exists (n :: ns). by constructor.
Qed.

(** A prefix of the digits is a prefix of the text, whatever the case it is typed in. *)
Lemma prefix_of_text p ns bs : prefix_digits p ns ->
  ns `prefix_of` nibbles bs <-> map to_lower p `prefix_of` hex_encode bs.
Proof.
  intros (Hok & _ & <-)%prefix_digits_ok.
  assert (E : hex_encode bs = map hex_char (nibbles bs)).
  { induction bs as [|b bs IH]; [done|]. cbn [hex_encode flat_map app nibbles map]. f_equal. by f_equal. }
  rewrite E. pose proof (nibbles_ok bs) as Hn. revert Hok Hn. generalize (nibbles bs). clear.
  induction ns as [|n ns IH]; intros l Hok Hl; [split; intros _; apply prefix_nil|].
  destruct l as [|m l]; [split; intros [? ?]; done|]. cbn [map].
  apply Forall_cons in Hok as [Hn Hok]. apply Forall_cons in Hl as [Hm Hl]. split.
  - intros H. pose proof (prefix_cons_inv_1 _ _ _ _ H) as ->. apply prefix_cons, IH; [done..|]. by eapply prefix_cons_inv_2.
  - intros H. apply prefix_cons_inv_1 in H as E2. apply prefix_cons_inv_2 in H. apply hex_char_inj in E2 as ->; [|done..].
    by apply prefix_cons, IH.
Qed.

(** ** Bytes and digits *)

Lemma nibbles_lookup bs : forall i b, bs !! (i / 2) = Some b ->
  nibbles bs !! i = Some (if i mod 2 =? 0 then (u8 b / 16)%N else (u8 b mod 16)%N).
Proof.
  induction bs as [|c bs IH]; intros i b Hb; [done|]. destruct i as [|[|i]].
  - by injection Hb as <-.
  - by injection Hb as <-.
  - replace (S (S i)) with (i + 1 * 2) in * by lia. rewrite Nat.div_add in Hb by lia. rewrite Nat.Div0.mod_add.
    replace (i + 1 * 2) with (S (S i)) by lia. rewrite Nat.add_1_r in Hb. cbn. by apply IH.
Qed.

Lemma div2_lt i n : i < 2 * n -> i / 2 < n.
Proof. intros. apply Nat.Div0.div_lt_upper_bound. lia. Qed.

(** The comparison of the loop, digit by digit. *)
Lemma match_prefix_loop_eq bs : forall p ns idx, prefix_digits p ns -> idx + length ns <= 2 * length bs ->
  match_prefix_loop bs p idx = Ok (bool_decide (ns `prefix_of` drop idx (nibbles bs))).
Proof.
  intros p ns idx H. revert idx. induction H as [|b n p ns Hb _ IH]; intros idx Hl; cbn [match_prefix_loop length] in *.
  { rewrite bool_decide_true; [done|apply prefix_nil]. }
  destruct (lookup_lt_is_Some_2 bs (idx / 2)) as [c Hc]; [apply div2_lt; lia|].
  rewrite (index_at_lookup _ _ _ Hc), bind_Ok, Hb, bind_Ok. pose proof (nibbles_lookup _ _ _ Hc) as Hn.
  rewrite (drop_S _ _ _ Hn). set (m := if idx mod 2 =? 0 then (u8 c / 16)%N else (u8 c mod 16)%N) in *.
  replace (if idx mod 2 =? 0 then N.shiftr (u8 c) 4 else N.land (u8 c) 15) with m
    by (unfold m; destruct (idx mod 2 =? 0); by destruct c).
  destruct (N.eqb_spec m n) as [->|Hne]; cbn [negb].
  - rewrite IH, Nat.add_1_r by lia. f_equal. apply bool_decide_ext. split; [apply prefix_cons|apply prefix_cons_inv_2].
  - rewrite bool_decide_false; [done|]. by intros ?%prefix_cons_inv_1.
Qed.

(** A digit written where there is a zero. *)
Lemma high_digit b n : (n < 16)%N -> (u8 b / 16 = 0)%N ->
  (u8 (byte_of_N (N.lor (u8 b) (N.shiftl n 4))) / 16 = n)%N /\ (u8 (byte_of_N (N.lor (u8 b) (N.shiftl n 4))) mod 16 = u8 b mod 16)%N.
Proof.
  intros Hn Hb.
  pose proof (forall_bytes (fun b => implb (u8 b / 16 =? 0)%N (all_from 16 0 (fun n =>
    (u8 (byte_of_N (N.lor (u8 b) (N.shiftl n 4))) / 16 =? n)%N &&
    (u8 (byte_of_N (N.lor (u8 b) (N.shiftl n 4))) mod 16 =? u8 b mod 16)%N))) ltac:(vm_compute; reflexivity) b) as H.
  cbv beta in H. rewrite Hb in H. cbn [N.eqb implb] in H. apply (forall_below 16 _) with (n := n) in H; [|done].
  by apply andb_true_iff in H as [->%N.eqb_eq ->%N.eqb_eq].
Qed.

Lemma low_digit b n : (n < 16)%N -> (u8 b mod 16 = 0)%N ->
  (u8 (byte_of_N (N.lor (u8 b) n)) / 16 = u8 b / 16)%N /\ (u8 (byte_of_N (N.lor (u8 b) n)) mod 16 = n)%N.
Proof.
  intros Hn Hb.
  pose proof (forall_bytes (fun b => implb (u8 b mod 16 =? 0)%N (all_from 16 0 (fun n =>
    (u8 (byte_of_N (N.lor (u8 b) n)) / 16 =? u8 b / 16)%N &&
    (u8 (byte_of_N (N.lor (u8 b) n)) mod 16 =? n)%N))) ltac:(vm_compute; reflexivity) b) as H.
  cbv beta in H. rewrite Hb in H. cbn [N.eqb implb] in H. apply (forall_below 16 _) with (n := n) in H; [|done].
  by apply andb_true_iff in H as [->%N.eqb_eq ->%N.eqb_eq].
Qed.

Lemma write_nibble_eq bs ns zs n : nibbles bs = ns ++ 0%N :: zs -> (n < 16)%N ->
  exists bs', write_bound_nibble bs (length ns) n = Ok bs' /\ length bs' = length bs /\ nibbles bs' = ns ++ n :: zs.
Proof.
  intros E Hn. assert (Hl : length ns < 2 * length bs) by (rewrite <- nibbles_length, E, length_app; cbn; lia).
  destruct (lookup_lt_is_Some_2 bs (length ns / 2)) as [b Hb]; [by apply div2_lt|].
  pose proof (nibbles_lookup bs (length ns) b Hb) as Hx. rewrite E, list_lookup_middle in Hx by done. apply (inj Some) in Hx. symmetry in Hx.
  unfold write_bound_nibble. rewrite (index_at_lookup _ _ _ Hb), bind_Ok. unfold set_at.
  rewrite (proj2 (Nat.ltb_lt _ _)) by (by apply div2_lt). eexists. split; [reflexivity|]. split; [apply length_insert|].
  set (b' := byte_of_N _).
  apply list_eq. intros i. destruct (decide (i < 2 * length bs)) as [Hi|Hi].
  2: { rewrite !lookup_ge_None_2; [done| |rewrite nibbles_length, length_insert; lia].
       rewrite length_app. cbn [length]. pose proof (f_equal length E) as El. rewrite nibbles_length, length_app in El. cbn [length] in El. lia. }
  destruct (lookup_lt_is_Some_2 bs (i / 2)) as [c Hc]; [by apply div2_lt|].
  assert (Hold : i <> length ns -> (ns ++ n :: zs) !! i = nibbles bs !! i).
  { intros Hne. rewrite E. destruct (decide (i < length ns)); [by rewrite !lookup_app_l by lia|].
    rewrite !lookup_app_r by lia. destruct (i - length ns) eqn:Ei; [lia|done]. }
  pose proof (Nat.div_mod i 2). pose proof (Nat.div_mod (length ns) 2).
  pose proof (Nat.mod_upper_bound i 2). pose proof (Nat.mod_upper_bound (length ns) 2).
  destruct (decide (i / 2 = length ns / 2)) as [Eq|Hne].
  - rewrite (nibbles_lookup _ i b') by (rewrite Eq; apply list_lookup_insert_eq, div2_lt, Hl).
    revert Hx. destruct (Nat.eqb_spec (length ns mod 2) 0) as [Hz|Hz]; intros Hx.
    + destruct (high_digit b n Hn ltac:(done)) as [D1 D2]. fold b' in D1, D2. destruct (Nat.eqb_spec (i mod 2) 0).
      * replace i with (length ns) by lia. by rewrite list_lookup_middle, D1.
      * rewrite Hold by lia. rewrite (nibbles_lookup _ i b) by (by rewrite Eq). rewrite (proj2 (Nat.eqb_neq _ _)) by done. by rewrite D2.
    + destruct (low_digit b n Hn ltac:(done)) as [D1 D2]. fold b' in D1, D2. destruct (Nat.eqb_spec (i mod 2) 0) as [Ei|].
      * rewrite Hold by lia. rewrite (nibbles_lookup _ i b) by (by rewrite Eq). rewrite Ei. by rewrite D1.
      * replace i with (length ns) by lia. by rewrite list_lookup_middle, D2.
  - rewrite Hold by (intros ->; lia). rewrite (nibbles_lookup bs i c) by done.
    apply nibbles_lookup. by rewrite list_lookup_insert_ne by done.
Qed.

(** ** The bounds *)

(** The last digit that can be incremented, as the loop over the prefix finds it. *)
Fixpoint last_below (idx : nat) (ns : list N) (found : option (nat * N)) : option (nat * N) :=
  match ns with
  | [] => found
  | n :: ns => last_below (idx + 1) ns (if (n <? 15)%N then Some (idx, (n + 1)%N) else found)
  end.

Lemma last_below_snoc n ns : forall idx found,
  last_below idx (ns ++ [n]) found = if (n <? 15)%N then Some (idx + length ns, (n + 1)%N) else last_below idx ns found.
Proof.
  induction ns as [|m ns IH]; intros idx found; cbn [app last_below length].
  - by rewrite Nat.add_0_r.
  - rewrite IH. by replace (idx + 1 + length ns) with (idx + S (length ns)) by lia.
Qed.

(** With that digit incremented and zeros after it, a prefix writes the next number. *)
Lemma last_below_next ns : digits_ok ns ->
  match last_below 0 ns None with
  | Some (j, m) => j < length ns /\ (m < 16)%N /\
      nval (take j ns ++ m :: replicate (length ns - j - 1) 0%N) = (nval ns + 1)%N
  | None => (nval ns + 1 = 16 ^ N.of_nat (length ns))%N
  end.
Proof.
  induction ns as [|n ns IH] using rev_ind; [done|]. intros [Hns [Hn _]%Forall_cons]%Forall_app. specialize (IH Hns).
  rewrite last_below_snoc, length_app. cbn [length]. destruct (N.ltb_spec n 15) as [Hlt|Hge].
  - split; [lia|]. split; [lia|]. cbn [Nat.add]. rewrite take_app_length.
    replace (length ns + 1 - length ns - 1) with 0 by lia. rewrite !nval_app. cbn [replicate length].
    change (nval [(n + 1)%N]) with (n + 1)%N. change (nval [n]) with n. lia.
  - assert (n = 15%N) as -> by lia. destruct (last_below 0 ns None) as [[j m]|].
    + destruct IH as (Hj & Hm & E). split; [lia|]. split; [done|]. rewrite take_app_le by lia.
      replace (length ns + 1 - j - 1) with (length ns - j - 1 + 1) by lia.
      rewrite replicate_add. cbn [replicate].
      replace (take j ns ++ m :: replicate (length ns - j - 1) 0%N ++ [0%N])
        with ((take j ns ++ m :: replicate (length ns - j - 1) 0%N) ++ [0%N]) by (by rewrite <- app_assoc).
      rewrite !(nval_app _ [_]), E. cbn [length]. change (nval [0%N]) with 0%N. change (nval [15%N]) with 15%N.
      change (N.of_nat 1) with 1%N. rewrite N.pow_1_r. lia.
    + rewrite nval_app. cbn [length]. change (nval [15%N]) with 15%N. rewrite Nat2N.inj_add, N.pow_add_r.
      change (N.of_nat 1) with 1%N. rewrite N.pow_1_r. lia.
Qed.

Lemma lower_bound_loop_eq : forall p ns bs pre k found, prefix_digits p ns -> nibbles bs = pre ++ replicate k 0%N ->
  length ns <= k ->
  exists bs', lower_bound_loop p (length pre) bs found = Ok (bs', last_below (length pre) ns found) /\
    length bs' = length bs /\ nibbles bs' = pre ++ ns ++ replicate (k - length ns) 0%N.
Proof.
  intros p ns bs pre k found H. revert bs pre k found.
  induction H as [|b n p ns Hb _ IH]; intros bs pre k found E Hk; cbn [lower_bound_loop last_below length] in *.
  { exists bs. split; [done|]. split; [done|]. by rewrite Nat.sub_0_r. }
  rewrite Hb, bind_Ok. apply prefix_nibble_Ok in Hb as [Hn _]. destruct k as [|k]; [lia|].
  destruct (write_nibble_eq bs pre (replicate k 0%N) n E Hn) as (bs1 & -> & Hl1 & E1). rewrite bind_Ok.
  destruct (IH bs1 (pre ++ [n]) k (if (n <? 15)%N then Some (length pre, (n + 1)%N) else found)) as (bs2 & E2 & Hl2 & En2);
    [by rewrite <- app_assoc|lia|].
  rewrite length_app in E2. exists bs2. split; [exact E2|]. split; [lia|]. rewrite En2, <- app_assoc. done.
Qed.

Lemma upper_bound_loop_eq : forall p ns bs pre k, prefix_digits p ns -> nibbles bs = pre ++ replicate k 0%N ->
  length ns <= k ->
  exists bs', upper_bound_loop p (length pre) bs = Ok bs' /\
    length bs' = length bs /\ nibbles bs' = pre ++ ns ++ replicate (k - length ns) 0%N.
Proof.
  intros p ns bs pre k H. revert bs pre k.
  induction H as [|b n p ns Hb _ IH]; intros bs pre k E Hk; cbn [upper_bound_loop length] in *.
  { exists bs. split; [done|]. split; [done|]. by rewrite Nat.sub_0_r. }
  rewrite Hb, bind_Ok. apply prefix_nibble_Ok in Hb as [Hn _]. destruct k as [|k]; [lia|].
  destruct (write_nibble_eq bs pre (replicate k 0%N) n E Hn) as (bs1 & -> & Hl1 & E1). rewrite bind_Ok.
  destruct (IH bs1 (pre ++ [n]) k) as (bs2 & E2 & Hl2 & En2); [by rewrite <- app_assoc|lia|].
  rewrite length_app in E2. exists bs2. split; [exact E2|]. split; [lia|]. rewrite En2, <- app_assoc. done.
Qed.

Lemma nibbles_zero k : nibbles (replicate k Byte.x00) = replicate (2 * k) 0%N.
Proof.
  induction k as [|k IH]; [done|]. replace (2 * S k) with (2 + 2 * k) by lia.
  change (nibbles (replicate (S k) Byte.x00)) with ([0%N; 0%N] ++ nibbles (replicate k Byte.x00)). by rewrite IH.
Qed.

(** The bounds of a prefix: the smallest name with it, and the first above all names with it, if there is one. *)
Lemma search_bounds_eq p ns alg : prefix_digits p ns -> length p <= 2 * digest_len alg ->
  let unit := (16 ^ N.of_nat (2 * digest_len alg - length ns))%N in
  exists lower upper, hex_prefix_search_bounds p alg = Ok (lower, upper) /\
    length lower = digest_len alg /\ nval (nibbles lower) = (nval ns * unit)%N /\
    match upper with
    | Some upper => length upper = digest_len alg /\ nval (nibbles upper) = ((nval ns + 1) * unit)%N
    | None => (nval ns + 1 = 16 ^ N.of_nat (length ns))%N
    end.
Proof.
  intros Hp Hl. pose proof (prefix_digits_ok p ns Hp) as (Hok & Hlen & _). cbv zeta. set (d := digest_len alg) in *.
  unfold hex_prefix_search_bounds. fold d.
  destruct (lower_bound_loop_eq p ns (replicate d Byte.x00) [] (2 * d) None Hp) as (lower & E & Hll & Hnl);
    [apply nibbles_zero|lia|]. cbn [length app] in E, Hnl. rewrite E, bind_Ok. rewrite length_replicate in Hll.
  assert (Hval : nval (nibbles lower) = (nval ns * 16 ^ N.of_nat (2 * d - length ns))%N)
    by (rewrite Hnl, nval_app, nval_zeros, length_replicate; lia).
  pose proof (last_below_next ns Hok) as Hnext. destruct (last_below 0 ns None) as [[j m]|].
  2: { by exists lower, None. }
  destruct Hnext as (Hj & Hm & Eval).
  assert (Htake : prefix_digits (take j p) (take j ns)) by (by apply Forall2_take).
  destruct (upper_bound_loop_eq (take j p) (take j ns) (replicate d Byte.x00) [] (2 * d) Htake) as (upper0 & E0 & Hl0 & Hn0);
    [apply nibbles_zero|rewrite length_take; lia|]. cbn [length app] in E0, Hn0. rewrite E0, bind_Ok.
  rewrite length_take_le in Hn0 by lia. rewrite length_replicate in Hl0.
  destruct (2 * d - j) as [|k] eqn:Ek; [lia|]. cbn [replicate] in Hn0.
  destruct (write_nibble_eq upper0 _ _ m Hn0 Hm) as (upper & E1 & Hl1 & Hn1). rewrite length_take_le in E1 by lia.
  rewrite E1, bind_Ok. exists lower, (Some upper). split_and!; [done|done|done|lia|].
  rewrite Hn1, <- Eval. replace k with ((length ns - j - 1) + (2 * d - length ns)) by lia. rewrite replicate_add.
  change (m :: replicate (length ns - j - 1) 0%N ++ replicate (2 * d - length ns) 0%N)
    with ((m :: replicate (length ns - j - 1) 0%N) ++ replicate (2 * d - length ns) 0%N).
  rewrite app_assoc, (nval_app _ (replicate _ _)), nval_zeros, length_replicate. lia.
Qed.

(** The names between the bounds are those with the prefix. *)
Lemma between_bounds ns bs k : digits_ok ns -> length (nibbles bs) = length ns + k ->
  ns `prefix_of` nibbles bs <->
  (nval ns * 16 ^ N.of_nat k <= nval (nibbles bs) < (nval ns + 1) * 16 ^ N.of_nat k)%N.
Proof.
  intros Hok Hl. pose proof (nibbles_ok bs) as Hb.
  rewrite <- (take_drop (length ns) (nibbles bs)) in Hb |- *. apply Forall_app in Hb as [Hb1 Hb2].
  rewrite nval_app, length_drop, Hl. replace (length ns + k - length ns) with k by lia.
  pose proof (nval_lt _ Hb2) as Hlt. rewrite length_drop, Hl in Hlt. replace (length ns + k - length ns) with k in Hlt by lia.
  set (a := take (length ns) (nibbles bs)) in *. set (b := drop (length ns) (nibbles bs)) in *.
  assert (Hla : length a = length ns) by (unfold a; rewrite length_take; lia). split.
  - intros [r E]. assert (a = ns) as -> by (by apply (app_inj_1 a ns b r)). lia.
  - intros [H1 H2]. exists b. f_equal. apply nval_inj; [done|done|done|]. set (u := (16 ^ N.of_nat k)%N) in *. nia.
Qed.

(** ** The search and the range *)

Section names.
Context (pi : PackIndex) (names : list bytes).
Hypothesis Hcount : pi_count pi = length names.
Hypothesis Hname : forall i name, names !! i = Some name -> object_bytes_at pi i = Ok name.
Hypothesis Hlen : Forall (fun name => length name = digest_len (pi_algorithm pi)) names.
Hypothesis Hsorted : weakly_sorted id cmp_bytes names.

Lemma names_mono i j a b : names !! i = Some a -> names !! j = Some b -> i <= j -> cmp_bytes a b <> Gt.
Proof.
  intros Ha Hb Hij. destruct (decide (i = j)) as [->|Hne].
  - assert (a = b) as -> by congruence. by rewrite (cmp_refl cmp_bytes).
  - unfold weakly_sorted in Hsorted. rewrite <- (take_drop_middle _ _ _ Ha) in Hsorted.
    apply StronglySorted_app in Hsorted as (_ & _ & Hs). apply StronglySorted_inv in Hs as [_ Hs].
    rewrite Forall_forall in Hs. apply Hs. apply list_elem_of_lookup. exists (j - S i).
    rewrite lookup_drop. by replace (S i + (j - S i)) with j by lia.
Qed.

(** The lower bound: what is before it is below the needle, what is from it on is not. *)
Lemma lower_bound_search_eq needle : forall fuel left right, right - left <= fuel -> left <= right -> right <= length names ->
  exists i, lower_bound_search pi needle fuel left right = Ok i /\ left <= i <= right /\
    (forall j name, left <= j < i -> names !! j = Some name -> cmp_bytes name needle = Lt) /\
    (forall j name, i <= j < right -> names !! j = Some name -> cmp_bytes name needle <> Lt).
Proof.
  induction fuel as [|fuel IH]; intros left right Hf Hlr Hr; cbn [lower_bound_search].
  - rewrite (proj2 (Nat.ltb_ge left right)) by lia. exists left. split_and!; [done|lia|lia|intros; lia|intros; lia].
  - destruct (Nat.ltb_spec left right) as [Hlt|];
      [|exists left; split_and!; [done|lia|lia|intros; lia|intros; lia]]. cbv zeta.
    set (mid := left + (right - left) / 2).
    assert (Hmid : left <= mid < right) by (pose proof (Nat.div_lt (right - left) 2); unfold mid; lia).
    destruct (lookup_lt_is_Some_2 names mid) as [name Em]; [lia|].
    pose proof (Hname _ _ Em) as En. unfold object_bytes_at in En. rewrite En, bind_Ok. case_bool_decide as Hc.
    + destruct (IH (mid + 1) right) as (i & -> & Hi & H1 & H2); [lia..|].
      exists i. split; [done|]. split; [lia|]. split; [|intros; apply (H2 j); [lia|done]].
      intros j a Hj Ha. destruct (decide (mid + 1 <= j)); [apply (H1 j); [lia|done]|].
      pose proof (names_mono j mid a name Ha Em ltac:(lia)) as Hm.
      destruct (cmp_bytes a needle) eqn:Ea; [|done|]; exfalso.
      * apply cmp_eq in Ea as ->. apply Hm. by apply (cmp_gt_lt cmp_bytes).
      * apply (cmp_not_gt_trans cmp_bytes a name needle Hm); [by rewrite Hc|done].
    + destruct (IH left mid) as (i & -> & Hi & H1 & H2); [lia..|].
      exists i. split; [done|]. split; [lia|]. split; [intros; apply (H1 j); [lia|done]|].
      intros j a Hj Ha Ea. destruct (decide (j < mid)); [by apply (H2 j a ltac:(lia) Ha)|].
      pose proof (names_mono mid j name a Em Ha ltac:(lia)) as Hm. apply Hc.
      destruct (cmp_bytes name needle) eqn:E2; [|done|]; exfalso.
      * apply cmp_eq in E2 as ->. apply Hm. by apply (cmp_gt_lt cmp_bytes).
      * apply (cmp_not_gt_trans cmp_bytes name a needle Hm); [by rewrite Ea|done].
Qed.

(** The candidates are recorded one after the other. *)
Fixpoint record_all (candidates : list ObjectId) (resolved : option ObjectId) : outcome (option ObjectId) :=
  match candidates with
  | [] => Ok resolved
  | candidate :: candidates =>
      resolved ← record_prefix_candidate resolved candidate;
      record_all candidates resolved
  end.

Lemma collect_range_eq p ns count : forall start resolved, prefix_digits p ns ->
  length p <= 2 * digest_len (pi_algorithm pi) -> start + count <= length names ->
  Forall (fun name => ns `prefix_of` nibbles name) (take count (drop start names)) ->
  for_indices (fun idx resolved =>
      bs ← object_bytes_at_with_layout pi idx (digest_len (pi_algorithm pi)) (pi_names_start pi);
      matching ← object_bytes_match_hex_prefix bs p;
      _ ← assert matching;
      id ← ObjectId_new (pi_algorithm pi) bs;
      record_prefix_candidate resolved id) count start resolved
  = record_all (map (mk_id (pi_algorithm pi)) (take count (drop start names))) resolved.
Proof.
  induction count as [|count IH]; intros start resolved Hp Hl Hc Hall; cbn [for_indices]; [by rewrite take_0|].
  destruct (lookup_lt_is_Some_2 names start) as [name En]; [lia|].
  rewrite (drop_S _ _ _ En) in Hall |- *. cbn [take map record_all] in Hall |- *. apply Forall_cons in Hall as [Hm Hall].
  pose proof (Hname _ _ En) as Eb. unfold object_bytes_at in Eb. rewrite Eb, bind_Ok.
  rewrite Forall_forall in Hlen. pose proof (Hlen name ltac:(by eapply list_elem_of_lookup_2)) as Hln.
  destruct (prefix_digits_ok p ns Hp) as (_ & Hpl & _).
  unfold object_bytes_match_hex_prefix. rewrite (match_prefix_loop_eq name p ns 0 Hp) by lia. rewrite bind_Ok, drop_0, bool_decide_true by done.
  cbn [assert]. rewrite bind_Ok, ObjectId_new_ok, bind_Ok by done.
  destruct (record_prefix_candidate _ _) as [resolved'| | |]; [|done..]. rewrite !bind_Ok, Nat.add_1_r. by apply IH; [..|lia|].
Qed.

(** [collect_prefix] records the names that begin with the prefix, in their order. *)
Lemma collect_prefix_eq p resolved : Forall is_hex p -> length p <= 2 * digest_len (pi_algorithm pi) ->
  collect_prefix pi p resolved =
  record_all (map (mk_id (pi_algorithm pi)) (filter (fun name => map to_lower p `prefix_of` hex_encode name) names)) resolved.
Proof.
  intros [ns Hp]%prefix_digits_exists Hl. pose proof (prefix_digits_ok p ns Hp) as (Hok & Hpl & _).
  destruct (search_bounds_eq p ns (pi_algorithm pi) Hp Hl) as (lower & upper & E & Hll & Hlv & Hu). unfold collect_prefix. rewrite E, bind_Ok.
  set (d := digest_len (pi_algorithm pi)) in *. set (unit := (16 ^ N.of_nat (2 * d - length ns))%N) in *.
  assert (Hin : forall i name, names !! i = Some name -> length name = d).
  { intros i name Hi. rewrite Forall_forall in Hlen. apply Hlen. by eapply list_elem_of_lookup_2. }
  assert (Hmatch : forall i name, names !! i = Some name -> map to_lower p `prefix_of` hex_encode name <->
    (nval ns * unit <= nval (nibbles name) < (nval ns + 1) * unit)%N).
  { intros i name Hi. rewrite <- (prefix_of_text p ns name Hp). apply between_bounds; [done|].
    rewrite nibbles_length, (Hin i name Hi). fold d in Hl. lia. }
  unfold object_id_lower_bound_with_layout. rewrite Hcount.
  destruct (lower_bound_search_eq lower (length names) 0 (length names)) as (start & -> & Hstart & Hs1 & Hs2); [lia..|]. rewrite bind_Ok.
  assert (Hstop : exists stop, match upper with None => Ok (length names) | Some upper => lower_bound_search pi upper (length names) 0 (length names) end = Ok stop /\
    stop <= length names /\
    (forall j name, j < stop -> names !! j = Some name -> (nval (nibbles name) < (nval ns + 1) * unit)%N) /\
    (forall j name, stop <= j -> names !! j = Some name -> ((nval ns + 1) * unit <= nval (nibbles name))%N)).
  { destruct upper as [upper|].
    - destruct Hu as [Hul Huv]. destruct (lower_bound_search_eq upper (length names) 0 (length names)) as (stop & -> & Hst & H1 & H2); [lia..|].
      exists stop. split; [done|]. split; [lia|]. split; intros j name Hj Hn; pose proof (lookup_lt_Some _ _ _ Hn) as Hlt.
      + specialize (H1 j name ltac:(lia) Hn). rewrite cmp_nval, Huv in H1 by (by rewrite (Hin j name Hn)). by apply N.compare_lt_iff.
      + specialize (H2 j name ltac:(lia) Hn). rewrite cmp_nval, Huv in H2 by (by rewrite (Hin j name Hn)). by apply N.compare_ge_iff in H2.
    - exists (length names). split; [done|]. split; [lia|]. split; intros j name Hj Hn; pose proof (lookup_lt_Some _ _ _ Hn) as Hlt; [|lia].
      pose proof (nval_lt _ (nibbles_ok name)) as Hv. rewrite nibbles_length, (Hin j name Hn) in Hv. rewrite Hu. unfold unit.
      rewrite <- N.pow_add_r. replace (N.of_nat (length ns) + N.of_nat (2 * d - length ns))%N with (N.of_nat (2 * d)) by (unfold d in *; lia). done. }
  destruct Hstop as (stop & -> & Hstopl & Ht1 & Ht2). rewrite bind_Ok.
  assert (Hs1' : forall j name, j < start -> names !! j = Some name -> (nval (nibbles name) < nval ns * unit)%N).
  { intros j name Hj Hn. specialize (Hs1 j name ltac:(lia) Hn). rewrite cmp_nval, Hlv in Hs1 by (by rewrite (Hin j name Hn)). by apply N.compare_lt_iff. }
  assert (Hs2' : forall j name, start <= j -> names !! j = Some name -> (nval ns * unit <= nval (nibbles name))%N).
  { intros j name Hj Hn. pose proof (lookup_lt_Some _ _ _ Hn). specialize (Hs2 j name ltac:(lia) Hn).
    rewrite cmp_nval, Hlv in Hs2 by (by rewrite (Hin j name Hn)). by apply N.compare_ge_iff in Hs2. }
  assert (Hord : start <= stop).
  { destruct (decide (start <= stop)); [done|]. destruct (lookup_lt_is_Some_2 names stop) as [name Hn]; [lia|].
    specialize (Hs1' stop name ltac:(lia) Hn). specialize (Ht2 stop name ltac:(lia) Hn). lia. }
  assert (Hmid : Forall (fun name => map to_lower p `prefix_of` hex_encode name) (take (stop - start) (drop start names))).
  { apply Forall_lookup. intros i name [Hn Hi]%lookup_take_Some. rewrite lookup_drop in Hn. apply (Hmatch _ _ Hn).
    split; [apply (Hs2' (start + i) name); [lia|done]|apply (Ht1 (start + i) name); [lia|done]]. }
  rewrite (collect_range_eq p ns); [|done|done|lia|].
  2: { eapply Forall_impl; [exact Hmid|]. intros name Hn. by apply (prefix_of_text p ns name Hp). }
  do 2 f_equal. rewrite <- (take_drop start names) at 2. rewrite <- (take_drop (stop - start) (drop start names)) at 2.
  rewrite !filter_app, (filter_all _ _ Hmid), drop_drop.
  rewrite (proj2 (filter_none _ (take start names))), (proj2 (filter_none _ (drop (start + _) names))), app_nil_r; [done|..].
  - apply Forall_lookup. intros i name Hn. rewrite lookup_drop in Hn. rewrite (Hmatch _ _ Hn).
    specialize (Ht2 (start + (stop - start) + i) name ltac:(lia) Hn). lia.
  - apply Forall_lookup. intros i name [Hn Hi]%lookup_take_Some. rewrite (Hmatch _ _ Hn). specialize (Hs1' _ _ Hi Hn). lia.
Qed.
End names.

(** ** What is recorded *)

Lemma record_all_app l1 l2 resolved : record_all (l1 ++ l2) resolved = (resolved ← record_all l1 resolved; record_all l2 resolved).
Proof.
  revert resolved. induction l1 as [|i l1 IH]; intros resolved; cbn [app record_all]; [done|].
  destruct (record_prefix_candidate resolved i); [|done..]. by rewrite !bind_Ok.
Qed.

(** One candidate is told, however often it comes; two different ones are an error. *)
Lemma record_all_spec l : forall resolved,
  match record_all l resolved with
  | Ok None => resolved = None /\ l = []
  | Ok (Some i) => (resolved = Some i \/ i ∈ l) /\ forall j, resolved = Some j \/ j ∈ l -> j = i
  | Err e => err_kind e = InvalidInput /\ exists i j, i <> j /\ (resolved = Some i \/ i ∈ l) /\ (resolved = Some j \/ j ∈ l)
  | _ => False
  end.
Proof.
  induction l as [|i l IH]; intros resolved; cbn [record_all].
  { destruct resolved as [j|]; [|done]. split; [by left|]. by intros k [[= ->]|?%elem_of_nil]. }
  destruct (record_prefix_candidate resolved i) as [resolved'|e| |] eqn:E; unfold record_prefix_candidate in E.
  - assert (resolved' = Some i /\ (resolved = None \/ resolved = Some i)) as [-> Hr].
    { destruct resolved as [j|]; [|injection E as <-; auto]. case_bool_decide; [|done]. subst. injection E as <-. auto. }
    rewrite bind_Ok. specialize (IH (Some i)).
    assert (Hsame : forall j, (Some i = Some j \/ j ∈ l) <-> (resolved = Some j \/ j ∈ i :: l)).
    { intros j. rewrite elem_of_cons. destruct Hr as [-> | ->]; naive_solver. }
    destruct (record_all l (Some i)) as [[k|]|e| |]; [| | |done|done].
    + split; [by apply Hsame, IH|]. intros j Hj. by apply IH, Hsame.
    + by destruct IH as [? _].
    + destruct IH as (He & a & b & Hab & Ha & Hb). split; [done|]. exists a, b. split; [done|]. by rewrite <- !Hsame.
  - destruct resolved as [j|]; [|done]. case_bool_decide as Hne; [done|]. injection E as <-. split; [done|].
    exists j, i. split; [done|]. split; [by left|]. right. by left.
  - destruct resolved as [j|]; [|done]. by case_bool_decide.
  - destruct resolved as [j|]; [|done]. by case_bool_decide.
Qed.

Lemma safe_record_all l resolved : safe (record_all l resolved).
Proof. pose proof (record_all_spec l resolved) as H. by destruct (record_all l resolved). Qed.
