(* ===== verification/PackIndexSafe.v ===== *)
(** * Pack indexes from any bytes: the reader accepts or refuses, and what it accepts can be searched
      and walked without a panic *)
From S2P Require Import Prelude Order Object Store PackParse PackIndex PackIndexSpec PackIndexLookup PackPrefix.

(** ** The reader *)

Lemma safe_or_overflow {A} (o : option A) : safe (or_overflow o).
Proof. by destruct o. Qed.

Lemma safe_pack_u32 bs offset : safe (read_u32 bs offset).
Proof. unfold read_u32. by destruct (get_range bs offset (offset + 4)). Qed.

Lemma safe_pack_u64 bs offset : safe (read_u64 bs offset).
Proof. unfold read_u64. by destruct (get_range bs offset (offset + 8)). Qed.

Lemma safe_read_fanout bs words : forall start, safe (read_fanout bs start words).
Proof.
  induction words as [|words IH]; intros start; [done|]. cbn [read_fanout].
  apply safe_bind; [apply safe_pack_u32|intros v _]. apply safe_bind; [apply IH|done].
Qed.

Lemma read_fanout_length bs words : forall start fanout,
  read_fanout bs start words = Ok fanout -> length fanout = words.
Proof.
  induction words as [|words IH]; intros start fanout E; cbn [read_fanout] in E; [by injection E as <-|].
  inv_ok. cbn [length]. f_equal. by eapply IH.
Qed.
#[local] Hint Resolve safe_or_overflow safe_pack_u32 safe_pack_u64 safe_read_fanout : zmin.

(** What the reader checks of an index: tables within the bytes, a fanout within the count. *)
Record index_ok (pi : PackIndex) : Prop := {
  ok_fanout : length (pi_fanout pi) = 256;
  ok_bounded : Forall (fun w => N.to_nat w <= pi_count pi) (pi_fanout pi);
  ok_tables : pi_names_start pi
      + pi_count pi * (digest_len (pi_algorithm pi) + match pi_version pi with V1 => 4 | V2 => 8 end)
      + digest_len (pi_algorithm pi) * 2 <= length (pi_bytes pi)
}.

Lemma windows2_all_lookup {B} (p : B -> B -> bool) l :
  (forall i a b, l !! i = Some a -> l !! S i = Some b -> p a b = true) -> windows2_all p l = true.
Proof.
  induction l as [|x l IH]; intros Hp; [done|]. destruct l as [|y l]; [done|].
  change (windows2_all p (x :: y :: l)) with (p x y && windows2_all p (y :: l)).
  rewrite (Hp 0 x y) by done. apply IH. intros i a b Ha Hb. by apply (Hp (S i)).
Qed.

(** In a list whose neighbours rise, the last element bounds the others. *)
Lemma rising_bounded (l : list N) (w : N) :
  windows2_all (fun a b => negb (b <? a)%N) l = true -> last l = Some w -> Forall (fun v => v <= w)%N l.
Proof.
  induction l as [|x l IH]; intros Hw Hl; [constructor|]. destruct l as [|y l].
  - injection Hl as ->. repeat constructor. lia.
  - change (negb (y <? x)%N && windows2_all (fun a b => negb (b <? a)%N) (y :: l) = true) in Hw.
    apply andb_true_iff in Hw as [Hxy Hw]. apply negb_true_iff, N.ltb_ge in Hxy.
    specialize (IH Hw Hl). constructor; [|done]. apply Forall_inv in IH. lia.
Qed.

Lemma or_overflow_inv {A} (o : option A) a : or_overflow o = Ok a -> o = Some a.
Proof. destruct o; [by intros [= ->]|done]. Qed.

Lemma checked_mul_inv a b c : checked_mul a b = Some c -> c = a * b.
Proof. unfold checked_mul. destruct (_ <? _)%N; [by intros [= <-]|done]. Qed.

Lemma checked_add_inv a b c : checked_add a b = Some c -> c = a + b.
Proof. unfold checked_add. destruct (_ <? _)%N; [by intros [= <-]|done]. Qed.

Lemma min_len_inv version entries dl start n :
  pack_index_min_len version entries dl start = Ok n ->
  n = start + entries * (dl + match version with V1 => 4 | V2 => 8 end) + dl * 2.
Proof.
  unfold pack_index_min_len. intros E. inv_ok.
  repeat match goal with
  | H : or_overflow _ = Ok _ |- _ => apply or_overflow_inv in H
  | H : option_bind _ _ _ _ = Some _ |- _ => apply bind_Some in H as (? & ? & ?)
  | H : mbind _ _ = Some _ |- _ => apply bind_Some in H as (? & ? & ?)
  | H : checked_mul _ _ = Some _ |- _ => apply checked_mul_inv in H
  | H : checked_add _ _ = Some _ |- _ => apply checked_add_inv in H
  end.
  destruct version;
    repeat match goal with
    | H : mbind _ _ = Some _ |- _ => apply bind_Some in H as (? & ? & ?)
    | H : checked_add _ _ = Some _ |- _ => apply checked_add_inv in H
    end; subst; lia.
Qed.

Section reader.
Context `{ShaLaws}.

Lemma safe_index_checksum alg bs : safe (validate_pack_index_checksum alg bs).
Proof.
  unfold validate_pack_index_checksum. cbv zeta. destruct (Nat.ltb_spec (length bs) (digest_len alg)); [done|].
  cbn [check]. rewrite bind_Ok. apply safe_bind; [apply safe_slice; lia|intros payload _].
  rewrite hash_finalize_ok, bind_Ok. apply safe_bind; [apply safe_slice; lia|intros checksum _]. solve_safe.
Qed.

Lemma safe_check_idx_version version bs : safe (check_idx_version version bs).
Proof. unfold check_idx_version. case_decide; [|done]. solve_safe. Qed.

Lemma safe_pack_index_version bs : safe (pack_index_version bs).
Proof.
  unfold pack_index_version. destruct (Nat.ltb_spec (length bs) 4); [done|]. cbn [check]. rewrite bind_Ok.
  apply safe_bind; [apply safe_slice; lia|done].
Qed.

Lemma safe_layout version entries dl : safe (pack_index_layout version entries dl).
Proof. unfold pack_index_layout. solve_safe. Qed.

Lemma safe_min_len version entries dl start : safe (pack_index_min_len version entries dl start).
Proof. unfold pack_index_min_len. solve_safe. Qed.

(** The reader never panics, and what it accepts is in order. *)
Lemma read_bytes_ok bs alg :
  safe (read_bytes bs alg) /\
  forall pi, read_bytes bs alg = Ok pi -> index_ok pi /\ pi_algorithm pi = alg.
Proof.
  unfold read_bytes, validate_pack_index_layout. cbv zeta. split.
  - apply safe_bind; [|by intros [[[f c] v] la] _].
    destruct (Nat.ltb_spec (length bs) (8 + 256 * 4)); [done|]. cbn [check]. rewrite bind_Ok.
    apply safe_bind; [apply safe_pack_index_version|intros v _].
    apply safe_bind; [apply safe_check_idx_version|intros [] _].
    apply safe_bind; [apply safe_read_fanout|intros fanout Ef]. apply read_fanout_length in Ef.
    destruct (windows2_all _ fanout); [|done]. cbn [negb check]. rewrite bind_Ok.
    apply safe_bind; [apply safe_index_at; lia|intros w _].
    apply safe_bind; [apply safe_layout|intros la _]. apply safe_bind; [apply safe_min_len|intros n _].
    apply safe_bind; [apply safe_check|intros [] _].
    apply safe_bind; [apply safe_index_checksum|done].
  - intros pi E. inv_ok. split; [|done].
    match goal with E : read_fanout _ _ _ = Ok ?f, Ei : index_at ?f 255 = Ok ?w |- _ =>
      pose proof (read_fanout_length _ _ _ _ E) as Hlen; unfold index_at in Ei;
      apply unwrap_Ok in Ei; assert (Hlast : last f = Some w) by (by rewrite last_lookup, Hlen) end.
    breflect. match goal with E : pack_index_min_len _ _ _ _ = Ok _ |- _ => apply min_len_inv in E end.
    split; cbn [pi_fanout pi_count pi_bytes pi_algorithm pi_version pi_layout].
    + done.
    + eapply Forall_impl; [eapply rising_bounded; [|exact Hlast]|intros w Hw; cbv beta in Hw; lia].
      done.
    + unfold pi_names_start. cbn [pi_layout]. lia.
Qed.

(** ** Searches and walks *)

Lemma safe_search_loop mid_of probe : (forall a b, a < b -> a <= mid_of a b < b) ->
  forall fuel left right, right - left <= fuel ->
  (forall i, left <= i < right -> safe (probe i)) ->
  safe (search_loop mid_of probe fuel left right) /\
  forall m, search_loop mid_of probe fuel left right = Ok (Some m) -> left <= m < right.
Proof.
  intros Hmid. induction fuel as [|fuel IH]; intros left right Hf Hp; cbn [search_loop].
  - rewrite (proj2 (Nat.ltb_ge left right)) by lia. done.
  - destruct (Nat.ltb_spec left right) as [Hlt|]; [|done].
    pose proof (Hmid left right Hlt) as Hb. set (mid := mid_of left right) in *.
    pose proof (Hp mid ltac:(lia)) as Hpm. destruct (probe mid) as [c|e| |]; [|done..]. rewrite bind_Ok.
    destruct c.
    + split; [done|]. intros m [= <-]. lia.
    + destruct (IH (mid + 1) right) as [Hsafe Hm]; [lia|intros; apply Hp; lia|]. split; [done|].
      intros m Em. apply Hm in Em. lia.
    + destruct (IH left mid) as [Hsafe Hm]; [lia|intros; apply Hp; lia|]. split; [done|].
      intros m Em. apply Hm in Em. lia.
Qed.

Lemma safe_for_indices {S} (f : nat -> S -> outcome S) count : forall idx s,
  (forall i s, idx <= i < idx + count -> safe (f i s)) -> safe (for_indices f count idx s).
Proof.
  induction count as [|count IH]; intros idx s Hf; [done|]. cbn [for_indices].
  apply safe_bind; [apply Hf; lia|intros s' _]. apply IH. intros i s'' Hi. apply Hf. lia.
Qed.

Lemma safe_for_indices_until {S} (f : nat -> S -> outcome (bool * S)) count : forall idx s,
  (forall i s, idx <= i < idx + count -> safe (f i s)) -> safe (for_indices_until f count idx s).
Proof.
  induction count as [|count IH]; intros idx s Hf; [done|]. cbn [for_indices_until].
  apply safe_bind; [apply Hf; lia|intros [more s'] _]. destruct (negb more); [done|]. apply IH. intros i s'' Hi. apply Hf. lia.
Qed.

Section accepted.
Context (pi : PackIndex).
Hypothesis Hpi : index_ok pi.

Lemma safe_object_bytes i : i < pi_count pi ->
  exists name, object_bytes_at pi i = Ok name /\ length name = digest_len (pi_algorithm pi).
Proof.
  intros Hi. pose proof (ok_tables _ Hpi) as Ht. unfold object_bytes_at, object_bytes_at_with_layout.
  set (d := digest_len (pi_algorithm pi)) in *. set (start := match pi_version pi with V1 => _ | V2 => _ end).
  assert (Hb : start + d <= length (pi_bytes pi)).
  { unfold start. destruct (pi_version pi); [assert ((i + 1) * (d + 4) <= pi_count pi * (d + 4)) by nia|
      assert ((i + 1) * (d + 8) <= pi_count pi * (d + 8)) by nia]; nia. }
  eexists. split; [apply slice_eq; [lia|exact Hb]|]. rewrite length_take, length_drop. lia.
Qed.

Lemma safe_offset_at i : safe (offset_at pi i).
Proof. unfold offset_at, v1_offset, v2_offset_at. cbv zeta. case_decide; solve_safe. Qed.

(** Any id can be looked up in an accepted index. *)
Lemma safe_offset_for id : ObjectId_wf id -> safe (offset_for pi id).
Proof.
  intros Hwf. unfold offset_for.
  pose proof (length_as_bytes id Hwf) as Hlen. pose proof (digest_len_pos (algorithm id)) as Hpos.
  destruct (lookup_lt_is_Some_2 (as_bytes id) 0) as [b Hb]; [lia|].
  rewrite (index_at_lookup _ _ _ Hb), bind_Ok. cbv zeta. pose proof (u8_lt b) as Hu.
  pose proof (ok_fanout _ Hpi) as Hf. pose proof (ok_bounded _ Hpi) as Hbd. rewrite Forall_lookup in Hbd.
  apply safe_bind; [destruct (_ =? 0); [done|apply safe_index_at; lia]|intros start _].
  destruct (lookup_lt_is_Some_2 (pi_fanout pi) (N.to_nat (u8 b))) as [stop Hstop]; [lia|].
  rewrite (index_at_lookup _ _ _ Hstop), bind_Ok. pose proof (Hbd _ _ Hstop) as Hle.
  apply safe_bind; [|intros [m|] _; [|done]; apply safe_bind; [apply safe_offset_at|done]].
  destruct (pi_version pi) eqn:Ev.
  - apply safe_search_loop; [|lia|].
    + intros x y Hxy. split; [apply Nat.div_le_lower_bound; lia|apply Nat.Div0.div_lt_upper_bound; lia].
    + intros i Hi. destruct (safe_object_bytes i) as (name & En & _); [lia|]. unfold object_bytes_at in En.
      by rewrite En, bind_Ok.
  - pose proof (ok_tables _ Hpi) as Ht. rewrite Ev in Ht.
    apply safe_bind; [apply safe_slice; nia|intros names Enames]. apply slice_length in Enames.
    unfold binary_search_object_name. apply safe_search_loop; [|lia|].
    + intros x y Hxy. pose proof (Nat.div_lt (y - x) 2). lia.
    + intros i Hi. apply safe_bind; [apply safe_slice; nia|done].
Qed.

Lemma safe_entry_at i : i < pi_count pi -> safe (entry_at pi i).
Proof.
  intros Hi. unfold entry_at. cbv zeta. pose proof (ok_tables _ Hpi) as Ht.
  destruct (safe_object_bytes i Hi) as (name & En & Hl).
  unfold object_bytes_at, object_bytes_at_with_layout in En. destruct (pi_version pi).
  - apply safe_bind; [unfold v1_offset; solve_safe|intros offset _]. rewrite En, bind_Ok.
    apply safe_bind; [by apply safe_ObjectId_new|done].
  - apply safe_bind; [unfold v2_offset_at; cbv zeta; solve_safe|intros offset _].
    replace ((i + 1) * digest_len (pi_algorithm pi))
      with (i * digest_len (pi_algorithm pi) + digest_len (pi_algorithm pi)) by lia.
    rewrite Nat.add_assoc, En, bind_Ok. apply safe_bind; [by apply safe_ObjectId_new|intros id _].
    apply safe_bind; [apply safe_pack_u32|done].
Qed.

Lemma safe_walk {S} (f : PackIndexEntry -> S -> outcome S) s :
  (forall e s, safe (f e s)) -> safe (for_each_entry pi f s).
Proof.
  intros Hf. apply safe_for_indices. intros i s' Hi. apply safe_bind; [apply safe_entry_at; lia|auto].
Qed.

Lemma safe_object_ids : safe (object_ids pi).
Proof.
  apply safe_for_indices. intros i ids Hi. destruct (safe_object_bytes i) as (name & En & Hl); [lia|].
  unfold object_bytes_at in En. rewrite En, bind_Ok. apply safe_bind; [by apply safe_ObjectId_new|done].
Qed.

Lemma safe_object_ids_all predicate : (forall id, safe (predicate id)) -> safe (object_ids_all pi predicate).
Proof.
  intros Hp. unfold object_ids_all, for_each_object_id_bytes. apply safe_for_indices_until. intros i all Hi.
  destruct (safe_object_bytes i) as (name & En & Hl); [lia|]. unfold object_bytes_at in En. rewrite En, bind_Ok.
  apply safe_bind; [by apply safe_ObjectId_new|intros id _]. apply safe_bind; [done|intros holds _]. by destruct holds.
Qed.

Lemma safe_crc_at i : safe (crc_at pi i).
Proof. unfold crc_at. case_decide; [done|apply safe_pack_u32]. Qed.

Lemma safe_pack_checksum : safe (pack_checksum pi).
Proof.
  pose proof (ok_tables _ Hpi) as Ht. unfold pack_checksum. cbv zeta. apply safe_bind; [apply safe_slice; lia|].
  intros bs E. apply slice_length in E. apply safe_ObjectId_new. lia.
Qed.

(** The comparison with the entries of a pack. *)
Lemma safe_matches_loop entries positions : Forall (fun p => p < length entries) positions ->
  forall i, i + length positions <= pi_count pi -> safe (matches_loop pi entries positions i).
Proof.
  induction 1 as [|p positions Hp _ IH]; intros i Hi; cbn [matches_loop length] in *; [done|].
  apply safe_bind; [by apply safe_index_at|intros entry _].
  destruct (safe_object_bytes i) as (name & -> & _); [lia|]. rewrite bind_Ok. destruct (negb _); [done|].
  apply safe_bind; [apply safe_offset_at|intros offset _]. destruct (negb _); [done|].
  apply safe_bind; [case_decide; [apply safe_bind; [apply safe_crc_at|done]|done]|intros differs _].
  destruct differs; [done|]. apply IH. lia.
Qed.

Lemma safe_matches_entries `{UnstableSortLaws} version pack_id entries : safe (pack_index_matches_entries pi version pack_id entries).
Proof.
  unfold pack_index_matches_entries. destruct (negb _); [done|]. destruct (Nat.eqb_spec (pi_count pi) (length entries)) as [Hc|]; [|done].
  cbn [negb]. apply safe_bind; [apply safe_pack_checksum|intros checksum _]. destruct (negb _); [done|].
  destruct (N.ltb_spec (2 ^ 32 - 1) (N.of_nat (length entries))) as [Hlt|Hle].
  - unfold sorted_pack_index_positions. by rewrite (proj2 (N.ltb_lt _ _) Hlt).
  - destruct (sorted_positions_Ok entries) as (p & l & -> & Hp & _ & Hperm & _); [lia|]. rewrite bind_Ok.
    apply safe_matches_loop.
    + clear -Hp. induction Hp as [|q x positions l Hq _ IH]; constructor; [by apply lookup_lt_Some in Hq|done].
    + apply Forall2_length in Hp. rewrite Hp, (Permutation_length Hperm). lia.
Qed.

(** The names an accepted index lists. *)
Lemma accepted_names : exists names, pi_count pi = length names /\
  (forall i name, names !! i = Some name -> object_bytes_at pi i = Ok name) /\
  Forall (fun name => length name = digest_len (pi_algorithm pi)) names.
Proof.
  assert (Hn : forall n, n <= pi_count pi -> exists names, length names = n /\
    (forall i name, names !! i = Some name -> object_bytes_at pi i = Ok name) /\
    Forall (fun name => length name = digest_len (pi_algorithm pi)) names).
  { induction n as [|n IH]; intros Hn; [by exists []|]. destruct IH as (names & Hl & Hat & Hlen); [lia|].
    destruct (safe_object_bytes n) as (name & En & Hln); [lia|]. exists (names ++ [name]). split; [rewrite length_app; cbn; lia|]. split.
    - intros i x [Hx|[Hi Hx]]%lookup_app_Some; [by apply Hat|]. apply list_lookup_singleton_Some in Hx as [Hi0 <-].
      by replace i with n by lia.
    - apply Forall_app. split; [done|]. by constructor. }
  destruct (Hn (pi_count pi)) as (names & Hl & ?); [done|]. by exists names.
Qed.

(** The names of an index, in their order: what [collect_prefix] relies on and the reader does not check. *)
Definition names_in_order : Prop := forall i a b, object_bytes_at pi i = Ok a -> object_bytes_at pi (S i) = Ok b ->
  S i < pi_count pi -> cmp_bytes a b <> Gt.

Lemma safe_collect_prefix p resolved : names_in_order -> Forall is_hex p -> length p <= 2 * digest_len (pi_algorithm pi) ->
  safe (collect_prefix pi p resolved).
Proof.
  intros Hord Hp Hl. destruct accepted_names as (names & Hc & Hat & Hlen).
  assert (Hs : weakly_sorted id cmp_bytes names).
  { apply (windows2_weak id cmp_bytes), windows2_all_lookup. intros i a b Ha Hb.
    apply bool_decide_eq_true, (Hord i); [by apply Hat|by apply Hat|]. rewrite Hc. by apply lookup_lt_Some in Hb. }
  rewrite (collect_prefix_eq pi names Hc Hat Hlen Hs p resolved Hp Hl). apply safe_record_all.
Qed.

(** The lower-bound search stays within the table. *)
Lemma safe_lower_bound needle fuel : forall left right, right - left <= fuel -> left <= right ->
  right <= pi_count pi ->
  exists i, lower_bound_search pi needle fuel left right = Ok i /\ left <= i <= right.
Proof.
  induction fuel as [|fuel IH]; intros left right Hf Hlr Hr; cbn [lower_bound_search].
  - rewrite (proj2 (Nat.ltb_ge left right)) by lia. exists left. split; [done|lia].
  - destruct (Nat.ltb_spec left right) as [Hlt|]; [|exists left; split; [done|lia]]. cbv zeta.
    set (mid := left + (right - left) / 2).
    assert (Hmid : left <= mid < right) by (pose proof (Nat.div_lt (right - left) 2); unfold mid; lia).
    destruct (safe_object_bytes mid) as (name & En & _); [lia|]. unfold object_bytes_at in En. rewrite En, bind_Ok.
    case_bool_decide; [destruct (IH (mid + 1) right) as (i & -> & Hi)|destruct (IH left mid) as (i & -> & Hi)];
      try lia; exists i; (split; [done|lia]).
Qed.
End accepted.

(** The merge walk over two name tables ends. *)
Lemma safe_subset_loop needle haystack : index_ok needle -> index_ok haystack ->
  forall fuel i j, pi_count haystack - j <= fuel -> j <= pi_count haystack ->
  safe (subset_loop needle haystack fuel i j).
Proof.
  intros Hn Hh. induction fuel as [|fuel IH]; intros i j Hf Hj; cbn [subset_loop].
  - destruct (i <? pi_count needle); [|done]. by rewrite (proj2 (Nat.eqb_eq _ _)) by lia.
  - destruct (Nat.ltb_spec i (pi_count needle)); [|done].
    destruct (Nat.eqb_spec j (pi_count haystack)); [done|].
    destruct (safe_object_bytes needle Hn i) as (a & Ea & _); [lia|]. unfold object_bytes_at in Ea.
    destruct (safe_object_bytes haystack Hh j) as (b & Eb & _); [lia|]. unfold object_bytes_at in Eb.
    rewrite Ea, bind_Ok, Eb, bind_Ok. destruct (cmp_bytes a b); [|done|]; apply IH; lia.
Qed.

(** C26: reading an index never panics, whatever the bytes; and over an index it accepts, however its tables are filled,
    a lookup by id or by offset, the walks over the entries and the ids, the search for a lower bound and the comparisons with
    another index and with the entries of a pack all end without a panic. A search by prefix does when the names are in order,
    which the reader does not check: [collect_prefix] asserts that the names between its bounds have the prefix, and the
    assertion fails on an accepted index out of order ([unordered_index_panics]). *)
Theorem pack_index_total `{UnstableSortLaws} alg bs :
  safe (read_bytes bs alg) /\
  forall pi, read_bytes bs alg = Ok pi ->
    (forall id, ObjectId_wf id -> safe (offset_for pi id)) /\
    safe (pi_entries pi) /\ safe (object_ids pi) /\
    (forall predicate, (forall id, safe (predicate id)) -> safe (object_ids_all pi predicate)) /\
    (forall offset, safe (index_object_id_for_offset pi offset) /\ safe (index_next_offset_after pi offset)) /\
    (forall needle, safe (object_id_lower_bound_with_layout pi needle)) /\
    (forall alg' bs' haystack, read_bytes bs' alg' = Ok haystack -> safe (object_ids_are_subset_of pi haystack)) /\
    (forall version pack_id entries, safe (pack_index_matches_entries pi version pack_id entries)) /\
    (names_in_order pi -> forall p resolved, Forall is_hex p -> length p <= 2 * digest_len alg ->
      safe (collect_prefix pi p resolved)).
Proof.
  destruct (read_bytes_ok bs alg) as [Hsafe Hread]. split; [done|]. intros pi E.
  destruct (Hread pi E) as [Hpi Halg]. split_and!.
  - intros id. by apply safe_offset_for.
  - by apply safe_walk.
  - by apply safe_object_ids.
  - intros predicate. by apply safe_object_ids_all.
  - intros offset. split; by apply safe_walk.
  - intros needle. unfold object_id_lower_bound_with_layout.
    by destruct (safe_lower_bound pi Hpi needle (pi_count pi) 0 (pi_count pi)) as (i & -> & _); [lia..|].
  - intros alg' bs' haystack E'. destruct (read_bytes_ok bs' alg') as [_ Hread'].
    destruct (Hread' haystack E') as [Hh _]. apply safe_subset_loop; [done|done|lia|lia].
  - intros version pack_id entries. by apply safe_matches_entries.
  - intros Hord p resolved Hp Hl. apply safe_collect_prefix; [done|done|done|by rewrite Halg].
Qed.
End reader.

(** ** Witness *)

#[local] Existing Instances sample_sha sample_sha_laws.

#[local] Existing Instance stable_sort.
#[local] Existing Instance stable_sort_laws.

Lemma pack_index_total_witness :
  exists ip pi, index_pack_from_entries Sha1 (sample_id Sha1 3) sample_entries V1 = fail InvalidData
      "pack index v1 cannot represent offsets above 4GiB" /\
    index_pack_from_entries Sha1 (sample_id Sha1 3) sample_entries V2 = Ok ip /\
    read_bytes (ip_index ip) Sha1 = Ok pi /\ safe (pi_entries pi) /\
    safe (offset_for pi (sample_id Sha256 1)).
Proof.
  destruct (index_entries_Ok Sha1 V2 (sample_id Sha1 3) sample_entries sample_entries_ok)
    as (ip & pi & l & E & Er & _); [vm_compute; reflexivity|apply sample_id_wf|reflexivity|discriminate|].
  exists ip, pi. split; [vm_compute; reflexivity|]. split; [exact E|]. split; [exact Er|].
  destruct (pack_index_total Sha1 (ip_index ip)) as [_ Ht]. destruct (Ht pi Er) as (Hlook & Hent & _).
  split; [exact Hent|]. apply Hlook, sample_id_wf.
Defined.

(** An index the reader accepts whose names are out of order, and a prefix whose bounds enclose a name without it. *)
Definition unordered_entries : list PackIndexEntry :=
  map (fun second => MkPackEntry 12 (mk_id Sha1 (byte_of_N 17 :: byte_of_N second :: replicate 18 Byte.x00)) 7) [32; 5; 48]%N.

Lemma unordered_index_panics : exists bs pi,
  encode_pack_index_with_positions_version Sha1 (sample_id Sha1 3) unordered_entries (Identity 3) V2 = Ok bs /\
  read_bytes bs Sha1 = Ok pi /\ collect_prefix pi (bstr "1105") None = Panic.
Proof. eexists _, _. split; [vm_compute; reflexivity|]. split; vm_compute; reflexivity. Qed.
