(* ===== verification/PackIndexing.v ===== *)
(** * Packs indexed, verified, unpacked and completed (zmin-git-core/src/pack.rs): the pass that indexes
      packs without deltas, and the callers of the parser *)
From S2P Require Import Prelude Order Object Store Reader PackHeader Zlib DeltaRead PackWrite PackParse.
From S2P Require Import PackIndex.

(** ** Data *)

Inductive PackIndexOnlyResult : Type :=
| Fast (pack_id : ObjectId) (pack_data_len : nat) (entries : list PackIndexEntry) (object_metadata : list N)
| RequiresFullParse (retention : PackRetentionPlan) (validated : ValidatedPackHeader).

Record IndexedPackIndexOnly : Set := MkIndexedOnly {
  ixo_pack_id : ObjectId;
  ixo_index : bytes;
  ixo_objects : nat
}.

Record PackVerifyEntry : Set := MkVerifyEntry {
  pve_object_id : ObjectId;
  pve_kind : GitObjectKind;
  pve_object_size : N;
  pve_packed_size : nat;
  pve_offset : N
}.

Record VerifiedPack : Set := MkVerified {
  vp_objects : nat;
  vp_entries : list PackVerifyEntry;
  vp_index : bytes
}.

Record VerifiedPackIndexMatch : Set := MkVerifiedMatch {
  vm_objects : nat;
  vm_entries : list PackVerifyEntry
}.

Record ThinPackRepair : Set := MkRepair {
  tr_pack : bytes;
  tr_indexed : IndexedPack;
  tr_fixed_objects : nat
}.

(** ** Metadata of parsed objects: the kind over the size *)

Definition SIZE_MASK : N := 1073741823.

Definition object_metadata_kind (m : N) : GitObjectKind := pack_object_kind_from_bits (N.shiftr m 30).

Definition object_metadata_size (m : N) : N := N.land m SIZE_MASK.

Section indexing.
Context `{Sha, ZlibEncoder, Crc32, UnstableSort} {D : Type} `{ZlibDecoder bytes D}.

(** ** The pass over base objects *)

(** After the first delta, only the references are collected. *)
Definition collect_remaining_delta_base_references (alg : GitHashAlgorithm) (current_object_size : N)
  (remaining_objects : nat) (retention : PackRetentionPlan) : rd Cursor PackRetentionPlan :=
  _ <~ skip_zlib_content_from_cursor (D := D) PARSE_LIMIT current_object_size;
  collect_references_loop (D := D) alg remaining_objects retention.

(** A base object, hashed and checksummed while it is inflated. *)
Definition index_base_object (alg : GitHashAlgorithm) (pack : bytes) (collect_metadata : bool)
  (offset : N) (kind : GitObjectKind) (size : N) (entries : list PackIndexEntry) (metadata : list N)
  : rd Cursor (list PackIndexEntry * list N) :=
  hasher <~ rlift (update_header (hash_new alg) kind (N.to_nat size));
  content_start <~ position;
  header_bytes <~ rlift (slice pack (N.to_nat offset) (N.to_nat content_start));
  '(hasher, absorbed, packed_size) <~
    read_zlib_content_hashing_with_crc (D := D) hasher PARSE_LIMIT size (Some header_bytes);
  _ <~ rlift (validate_packed_inflated_size size (N.of_nat packed_size));
  metadata <~ rlift (if collect_metadata
                     then m ← object_metadata_new kind packed_size; Ok (metadata ++ [m])
                     else Ok metadata);
  id <~ rlift (hash_finalize hasher);
  rret (entries ++ [MkPackEntry offset id (crc32_hash (default [] absorbed))], metadata).

(** The loop of [parse_pack_entries_index_only_if_base], which ends early at the first delta. *)
Fixpoint index_only_loop (object_count : nat) (alg : GitHashAlgorithm) (pack : bytes)
  (collect_metadata : bool) (trailer_start : nat) (entries : list PackIndexEntry) (metadata : list N)
  : rd Cursor (list PackIndexEntry * list N + PackRetentionPlan) :=
  match object_count with
  | 0 => rret (inl (entries, metadata))
  | S object_count =>
      offset <~ position;
      header <~ read_pack_object_header;
      match header with
      | Base kind size =>
          '(entries, metadata) <~
            index_base_object alg pack collect_metadata offset kind size entries metadata;
          index_only_loop object_count alg pack collect_metadata trailer_start entries metadata
      | OfsDelta size =>
          base_offset <~ read_base_offset offset;
          retention <~ collect_remaining_delta_base_references alg size object_count
                         (insert_offset retention_empty base_offset);
          _ <~ check_trailing trailer_start;
          rret (inr retention)
      | RefDelta size =>
          base_id <~ read_base_id alg;
          retention <~ collect_remaining_delta_base_references alg size object_count
                         (insert_id retention_empty base_id);
          _ <~ check_trailing trailer_start;
          rret (inr retention)
      end
  end.

Definition parse_pack_entries_index_only_if_base (alg : GitHashAlgorithm) (pack : bytes)
  (collect_metadata : bool) : outcome PackIndexOnlyResult :=
  validated ← validate_pack_header_and_checksum alg pack;
  let '(MkValidated pack_id object_count trailer_start) := validated in
  c ← entries_cursor pack trailer_start;
  ((result <~ index_only_loop object_count alg pack collect_metadata trailer_start [] [];
    match result with
    | inl (entries, metadata) =>
        _ <~ check_trailing trailer_start;
        rret (Fast pack_id trailer_start entries metadata)
    | inr retention => rret (RequiresFullParse retention validated)
    end) c).1.

(** ** The callers *)

(** What the callers have in common: the id of the pack, its entries, the length of its data and the
    metadata, from the one pass or from the other. *)
Definition indexed_entries (alg : GitHashAlgorithm) (pack : bytes) (external_store : external_lookup)
  (collect_metadata : bool) : outcome (ObjectId * list PackIndexEntry * nat * list N) :=
  result ← parse_pack_entries_index_only_if_base alg pack collect_metadata;
  match result with
  | Fast pack_id pack_data_len entries metadata => Ok (pack_id, entries, pack_data_len, metadata)
  | RequiresFullParse retention validated =>
      parsed ← parse_pack_entries_validated (D := D) alg pack external_store collect_metadata false
                 (Some retention) validated;
      Ok (pk_pack_id parsed, pk_entries parsed, pk_data_len parsed, pk_metadata parsed)
  end.

Definition index_pack_bytes_with_version (alg : GitHashAlgorithm) (pack : bytes)
  (version : PackIndexVersion) : outcome IndexedPack :=
  '(pack_id, entries, _, _) ← indexed_entries alg pack None false;
  index_pack_from_entries alg pack_id entries version.

Definition index_pack_bytes (alg : GitHashAlgorithm) (pack : bytes) : outcome IndexedPack :=
  index_pack_bytes_with_version alg pack V2.

Definition index_pack_bytes_with_store_and_version `{GitObjectStore St} (alg : GitHashAlgorithm)
  (pack : bytes) (store : St) (version : PackIndexVersion) : outcome IndexedPack :=
  '(pack_id, entries, _, _) ← indexed_entries alg pack (Some (read_object store)) false;
  index_pack_from_entries alg pack_id entries version.

Definition index_pack_bytes_index_only_with_version (alg : GitHashAlgorithm) (pack : bytes)
  (version : PackIndexVersion) : outcome IndexedPackIndexOnly :=
  '(pack_id, entries, _, _) ← indexed_entries alg pack None false;
  index ← encode_pack_index_from_owned_entries alg pack_id entries version;
  Ok (MkIndexedOnly pack_id index (length entries)).

(** *** Verification *)

Definition pack_entry_packed_size (entries : list PackIndexEntry) (index pack_data_len : nat)
  : outcome nat :=
  entry ← index_at entries index;
  let stop := match entries !! (index + 1) with
              | Some entry => N.to_nat (pe_offset entry)
              | None => pack_data_len
              end in
  Ok (stop - N.to_nat (pe_offset entry)).

Fixpoint verify_entries_loop (count i : nat) (entries : list PackIndexEntry) (object_metadata : list N)
  (pack_data_len : nat) (verify_entries : list PackVerifyEntry) : outcome (list PackVerifyEntry) :=
  match count with
  | 0 => Ok verify_entries
  | S count =>
      pack_entry ← index_at entries i;
      metadata ← index_at object_metadata i;
      packed_size ← pack_entry_packed_size entries i pack_data_len;
      verify_entries_loop count (i + 1) entries object_metadata pack_data_len
        (verify_entries ++ [MkVerifyEntry (pe_object_id pack_entry) (object_metadata_kind metadata)
                              (object_metadata_size metadata) packed_size (pe_offset pack_entry)])
  end.

Definition pack_verify_entries_from_metadata (entries : list PackIndexEntry) (object_metadata : list N)
  (pack_data_len : nat) : outcome (list PackVerifyEntry) :=
  verify_entries_loop (length entries) 0 entries object_metadata pack_data_len [].

Definition included_entries (include_entries : bool) (entries : list PackIndexEntry)
  (object_metadata : list N) (pack_data_len : nat) : outcome (list PackVerifyEntry) :=
  if include_entries then pack_verify_entries_from_metadata entries object_metadata pack_data_len
  else Ok [].

Definition verify_pack_bytes_with_version (alg : GitHashAlgorithm) (pack : bytes)
  (index_version : PackIndexVersion) (include_entries : bool) : outcome VerifiedPack :=
  '(pack_id, entries, pack_data_len, metadata) ← indexed_entries alg pack None include_entries;
  verify_entries ← included_entries include_entries entries metadata pack_data_len;
  index ← encode_pack_index_from_owned_entries alg pack_id entries index_version;
  Ok (MkVerified (length entries) verify_entries index).

Definition verified_pack_index_match_from_entries (index : PackIndex) (expected_version : PackIndexVersion)
  (pack_id : ObjectId) (entries : list PackIndexEntry) (object_metadata : list N) (pack_data_len : nat)
  (include_entries : bool) : outcome VerifiedPackIndexMatch :=
  matching ← pack_index_matches_entries index expected_version pack_id entries;
  _ ← check (negb matching) InvalidData "pack index does not match pack";
  verify_entries ← included_entries include_entries entries object_metadata pack_data_len;
  Ok (MkVerifiedMatch (length entries) verify_entries).

(** [verify_pack_file_matches_index_with_version], on the bytes of the two files. *)
Definition verify_pack_matches_index_with_version (alg : GitHashAlgorithm) (pack idx : bytes)
  (index_version : PackIndexVersion) (include_entries : bool) : outcome VerifiedPackIndexMatch :=
  index ← read_bytes idx alg;
  '(pack_id, entries, pack_data_len, metadata) ← indexed_entries alg pack None include_entries;
  verified_pack_index_match_from_entries index index_version pack_id entries metadata pack_data_len
    include_entries.

(** *** Unpacking into a store *)

(** [for_each_pack_object]: the callback threads a state. *)
Definition for_each_pack_object {S} (alg : GitHashAlgorithm) (pack : bytes)
  (for_each : S -> PackObjectData -> outcome S) (s : S) : outcome S :=
  parsed ← parse_pack_entries D alg pack None false true None;
  fold_left (fun r object => s ← r; for_each s object) (pk_objects parsed) (Ok s).

Fixpoint write_objects `{GitObjectSink St} (store : St) (objects : list PackObjectData) : outcome St :=
  match objects with
  | [] => Ok store
  | entry :: objects =>
      '(store, _) ← write_object store (pd_kind entry) (pd_content entry);
      write_objects store objects
  end.

Definition unpack_pack_to_loose `{GitObjectStore St, GitObjectSink St} (store : St) (alg : GitHashAlgorithm)
  (pack : bytes) : outcome (St * nat) :=
  parsed ← parse_pack_entries D alg pack (Some (read_object store)) false true None;
  store ← write_objects store (pk_objects parsed);
  Ok (store, length (pk_entries parsed)).

(** *** Thin packs *)

(** The bases that are not in the pack, put in front of its entries. *)
Fixpoint append_external_bases (alg : GitHashAlgorithm) (external_bases : list LooseObject)
  (repaired : bytes) : outcome bytes :=
  match external_bases with
  | [] => Ok repaired
  | object :: external_bases =>
      _ ← check (negb (bool_decide (algorithm (lo_id object) = alg))) InvalidInput
            "thin pack base algorithm mismatch";
      id ← hash_object alg (lo_kind object) (lo_content object);
      _ ← check (negb (bool_decide (id = lo_id object))) InvalidData
            "thin pack base object hash mismatch";
      repaired ← append_packed_base_object repaired (lo_kind object) (lo_content object);
      append_external_bases alg external_bases repaired
  end.

Definition repaired_object_count (original_count : N) (external_bases : nat) : outcome N :=
  extra ← (if (N.of_nat external_bases <? 2 ^ 32)%N then Ok (N.of_nat external_bases)
           else fail InvalidData "thin pack has too many base objects");
  if (original_count + extra <? 2 ^ 32)%N then Ok (original_count + extra)%N
  else fail InvalidData "pack has too many objects".

Definition prepend_external_bases_to_pack (alg : GitHashAlgorithm) (pack : bytes)
  (external_bases : list LooseObject) : outcome bytes :=
  let digest_len := digest_len alg in
  _ ← check (length pack <? 12 + digest_len) InvalidData "pack stream is too short";
  let trailer_start := length pack - digest_len in
  header ← slice pack 0 12;
  original_count ← parse_pack_header_bytes header;
  repaired_count ← repaired_object_count original_count (length external_bases);
  magic_and_version ← slice pack 0 8;
  repaired ← append_external_bases alg external_bases (magic_and_version ++ to_be 4 repaired_count);
  body ← slice pack 12 trailer_start;
  append_pack_checksum alg (repaired ++ body).

Definition repair_thin_pack_bytes `{GitObjectStore St} (alg : GitHashAlgorithm) (pack : bytes)
  (external_store : St) : outcome ThinPackRepair :=
  parsed ← parse_pack_entries D alg pack (Some (read_object external_store)) false false None;
  if decide (pk_external_bases parsed = []) then
    indexed ← index_pack_from_entries alg (pk_pack_id parsed) (pk_entries parsed) V2;
    Ok (MkRepair pack indexed 0)
  else
    repaired_pack ← prepend_external_bases_to_pack alg pack (pk_external_bases parsed);
    indexed ← index_pack_bytes alg repaired_pack;
    Ok (MkRepair repaired_pack indexed (length (pk_external_bases parsed))).
End indexing.
