(* ===== verification/PackRoundtrip.v ===== *)
(** * Packs read back: what the encoder writes, the parser returns, object by object *)
From S2P Require Import Prelude Order Object Store Reader PackHeader Zlib DeltaRead DeltaWrite.
From S2P Require Import PackWrite PackParse.

(** ** Kinds and slots packed into 32 bits *)

Lemma object_data_new_Ok kind slot :
  (N.of_nat slot < PACK_OBJECT_CONTENT_NOT_RETAINED)%N ->
  exists d, object_data_new kind (Some slot) = Ok d /\ object_data_kind d = kind /\
            object_data_slot d = Some slot.
Proof.
  intros Hs. unfold object_data_new, PACK_OBJECT_CONTENT_NOT_RETAINED, PACK_OBJECT_CONTENT_SLOT_MASK in *.
  rewrite (proj2 (N.ltb_lt (N.of_nat slot) _)) by lia. cbn [negb check]. rewrite bind_Ok.
  rewrite (proj2 (N.leb_gt _ _)) by lia. cbn [check]. rewrite !bind_Ok.
  assert (Hshl : shl30 (pack_object_kind_bits kind) = N.shiftl (pack_object_kind_bits kind) 30)
    by (by destruct kind).
  assert (Hs30 : (N.of_nat slot < 2 ^ 30)%N) by (change (2 ^ 30)%N with 1073741824%N; lia).
  rewrite Hshl, lor_low by done. eexists. split; [done|].
  assert (Hbits : pack_object_kind_from_bits (pack_object_kind_bits kind) = kind) by (by destruct kind).
  unfold object_data_kind, object_data_slot, PACK_OBJECT_CONTENT_NOT_RETAINED, PACK_OBJECT_CONTENT_SLOT_MASK. split.
  - rewrite N.shiftr_div_pow2, N.div_add_l, N.div_small by done. by rewrite N.add_0_r.
  - change 1073741823%N with (N.ones 30). rewrite N.land_ones, N.add_comm, N.Div0.mod_add, N.mod_small by done.
    rewrite (proj2 (N.eqb_neq _ _)) by (change (N.ones 30) with 1073741823%N; lia). by rewrite Nat2N.id.
Qed.

(** ** Headers at a cursor *)

(** A run over the cursor of [pre ++ x ++ t] that keeps it on the data and leaves [t]. *)
Lemma cursor_after {A} (m : rd Cursor A) pre x t (a : A) c' :
  (forall data, kept (on_cursor data) m) ->
  m (MkCursor (pre ++ x ++ t) (N.of_nat (length pre))) = (Ok a, c') -> cursor_rest c' = t ->
  m (MkCursor (pre ++ x ++ t) (N.of_nat (length pre)))
  = (Ok a, MkCursor (pre ++ x ++ t) (N.of_nat (length (pre ++ x)))).
Proof.
  intros Hk E Hr. pose proof (Hk _ _ (on_cursor_at pre (x ++ t))) as Hc. rewrite E in Hc |- *.
  cbn [snd] in Hc. rewrite app_assoc in Hc |- *. by apply on_cursor_eq in Hc as ->.
Qed.

Lemma read_base_header pre kind size h t :
  (size < 2 ^ 60)%N -> pack_object_header_bytes kind size = Ok h ->
  read_pack_object_header (MkCursor (pre ++ h ++ t) (N.of_nat (length pre)))
  = (Ok (Base kind size), MkCursor (pre ++ h ++ t) (N.of_nat (length (pre ++ h)))).
Proof.
  intros Hs E. destruct (object_header_roundtrip cursor_total kind size) as (h' & E' & _ & Hr); [lia|].
  assert (h' = h) as -> by congruence.
  destruct (Hr (MkCursor (pre ++ h ++ t) (N.of_nat (length pre))) t) as [Hok _]; [apply cursor_rest_at|].
  destruct (Hok Hs) as (c' & Ec & Hc). eapply cursor_after; [|exact Ec|exact Hc].
  intros data. apply kept_read_pack_object_header. intros r n. apply on_cursor_read.
Qed.

(** The header of an offset delta, and the base offset after it. *)
Lemma read_ofs_header pre object_offset base_offset size h t :
  (base_offset <= object_offset)%N -> (object_offset < 2 ^ 64)%N -> (size < 2 ^ 60)%N ->
  12 <= length pre -> ofs_delta_header_bytes object_offset base_offset size = Ok h ->
  exists c1,
    read_pack_object_header (MkCursor (pre ++ h ++ t) (N.of_nat (length pre))) = (Ok (OfsDelta size), c1) /\
    read_base_offset object_offset c1
    = (Ok base_offset, MkCursor (pre ++ h ++ t) (N.of_nat (length (pre ++ h)))).
Proof.
  intros Hb Ho Hs Hp E.
  destruct (ofs_header_roundtrip cursor_total object_offset base_offset size) as (h' & E' & _ & Hr); [done..|].
  assert (h' = h) as -> by congruence.
  set (c0 := MkCursor (pre ++ h ++ t) (N.of_nat (length pre))).
  destruct (Hr c0 t (S (length (pre ++ h ++ t)))) as (c1 & c2 & E1 & E2 & Hr2 & _);
    [apply cursor_rest_at|rewrite length_app; lia|].
  exists c1. split; [done|].
  assert (Hc1 : on_cursor (pre ++ h ++ t) c1).
  { pose proof (kept_read_pack_object_header (on_cursor (pre ++ h ++ t))) as Hk.
    premise Hk; [intros r n; apply on_cursor_read|].
    specialize (Hk c0 (on_cursor_at pre (h ++ t))). by rewrite E1 in Hk. }
  unfold read_base_offset. destruct Hc1 as [Hd Hp1]. rewrite Hd, E2. f_equal.
  pose proof (kept_read_delta_base_offset (on_cursor (pre ++ h ++ t))) as Hk.
  premise Hk; [intros r n; apply on_cursor_read|].
  specialize (Hk (S (length (pre ++ h ++ t))) object_offset c1 (conj Hd Hp1)). rewrite E2 in Hk. cbn [snd] in Hk.
  rewrite app_assoc in Hk |- *. by apply on_cursor_eq.
Qed.

(** ** The encoder's bodies *)

Section codec.
Context `{ShaLaws, Crc32} {D : Type} `{ZlibLaws D zlib_source inflated_rest}.

(** An object under its own id, within the parser's limit. *)
Definition good_object (alg : GitHashAlgorithm) (o : LooseObject) : Prop :=
  hash_object alg (lo_kind o) (lo_content o) = Ok (lo_id o) /\
  (N.of_nat (length (lo_content o)) <= PARSE_LIMIT)%N.

(** [x] is an entry for [o] at [offset], after the objects [done] at their offsets: its content, or
    a delta on one of them. *)
Definition entry_of (done : list (N * LooseObject)) (offset : N) (o : LooseObject) (x : bytes) : Prop :=
  base_entry (lo_kind o) (lo_content o) x \/
  exists base_offset base delta,
    (base_offset, base) ∈ done /\ lo_kind base = lo_kind o /\ delta_entry offset base_offset delta x /\
    length delta < length (lo_content o) /\
    delta_sem (lo_content base) PARSE_LIMIT delta = Ok (lo_content o).

(** [body] continues [P] by entries for the objects [os]. *)
Inductive encodes (alg : GitHashAlgorithm) :
  list (N * LooseObject) -> bytes -> list LooseObject -> bytes -> Prop :=
| encodes_nil done P : encodes alg done P [] P
| encodes_cons done P o os x body :
    good_object alg o -> entry_of done (N.of_nat (length P)) o x ->
    encodes alg (done ++ [(N.of_nat (length P), o)]) (P ++ x) os body ->
    encodes alg done P (o :: os) body.

Lemma encodes_prefix alg done P os body : encodes alg done P os body -> exists t, body = P ++ t.
Proof.
  induction 1 as [|done P o os x body _ _ _ [t ->]]; [exists []; by rewrite app_nil_r|].
  exists (x ++ t). by rewrite app_assoc.
Qed.

(** The same with the base of every entry, the length of its delta chain and its text, and with all
    that was written in the end. *)
Definition entry_on (written : list (N * LooseObject * (nat * bytes))) (offset : N) (o : LooseObject) (x : bytes)
  (base_offset : option N) (depth : nat) : Prop :=
  match base_offset with
  | None => depth = 0 /\ base_entry (lo_kind o) (lo_content o) x
  | Some base_offset =>
      exists base base_depth base_text delta,
        (base_offset, base, (base_depth, base_text)) ∈ written /\ depth = S base_depth /\ lo_kind base = lo_kind o /\
        delta_entry offset base_offset delta x /\ length delta < length (lo_content o) /\
        delta_sem (lo_content base) PARSE_LIMIT delta = Ok (lo_content o)
  end.

Inductive writes (alg : GitHashAlgorithm) (limit : nat) :
  list (N * LooseObject * (nat * bytes)) -> bytes -> list LooseObject -> list (option N) -> bytes ->
  list (N * LooseObject * (nat * bytes)) -> Prop :=
| writes_nil written P : writes alg limit written P [] [] P written
| writes_cons written P o os x base bases depth body all :
    good_object alg o -> entry_on written (N.of_nat (length P)) o x base depth -> depth <= limit ->
    writes alg limit (written ++ [(N.of_nat (length P), o, (depth, x))]) (P ++ x) os bases body all ->
    writes alg limit written P (o :: os) (base :: bases) body all.

Lemma entry_on_of written offset o x base depth :
  entry_on written offset o x base depth -> entry_of (map fst written) offset o x.
Proof.
  destruct base as [boff|]; [|by intros [_ Hx]; left].
  intros (base & bd & bt & delta & Hin & _ & Hk & Hx & Hl & Hs). right. exists boff, base, delta.
  split; [|done]. change (map fst written) with (fst <$> written). apply list_elem_of_fmap.
  by exists (boff, base, (bd, bt)).
Qed.

Lemma writes_encodes alg limit written P os bases body all :
  writes alg limit written P os bases body all -> encodes alg (map fst written) P os body.
Proof.
  induction 1 as [|written P o os x base bases depth body all Hg Hx _ _ IH]; [constructor|].
  econstructor; [done|by eapply entry_on_of|]. by rewrite map_app in IH.
Qed.

(** ** The parser's state after the objects [done] *)

Record decoded (done : list (N * LooseObject)) (s : ParseState) : Prop := {
  dec_retention : ps_retention s = retention_empty;
  dec_by_id : ps_by_id s = None;
  dec_external : ps_external_bases s = [];
  dec_entries : Forall2 (fun '(offset, o) e => pe_offset e = offset /\ pe_object_id e = lo_id o)
                  done (ps_entries s);
  dec_contents : ps_contents s = map (fun d => lo_content d.2) done;
  dec_objects : length (ps_objects s) = length done /\
    forall i offset o, done !! i = Some (offset, o) -> exists d, ps_objects s !! i = Some d /\
      object_data_kind d = lo_kind o /\ object_data_slot d = Some i
}.

(** Offsets in pack order, below [P]. *)
Definition ordered (done : list (N * LooseObject)) (P : N) : Prop :=
  StronglySorted N.lt (map fst done) /\ Forall (fun offset => offset < P)%N (map fst done).

Lemma ordered_snoc done P o Q :
  ordered done P -> (P < Q)%N -> ordered (done ++ [(P, o)]) Q.
Proof.
  intros [Hs Hf] HQ. rewrite Forall_forall in Hf. unfold ordered. rewrite map_app. cbn [map fst]. split.
  - induction (map fst done) as [|x l IH]; cbn [app]; [by repeat constructor|].
    inversion Hs as [|? ? Hs' Hx]; subst. constructor.
    + apply IH; [done|]. intros y Hy. apply Hf. by right.
    + apply Forall_app. split; [done|]. apply Forall_singleton, Hf. by left.
  - apply Forall_app. split; [|by apply Forall_singleton]. apply Forall_forall. intros x Hx.
    specialize (Hf x Hx). lia.
Qed.

Lemma sorted_lookup (l : list N) i j x y :
  StronglySorted N.lt l -> l !! i = Some x -> l !! j = Some y -> i < j -> (x < y)%N.
Proof.
  intros Hs. revert i j. induction Hs as [|z l Hs IH Hz]; intros [|i] [|j] Hx Hy Hij; try done; try lia.
  - injection Hx as ->. rewrite Forall_forall in Hz. apply Hz. by eapply list_elem_of_lookup_2.
  - apply (IH i j); [done|done|lia].
Qed.

(** The binary search finds the entry of an offset. *)
Lemma offset_index_found done entries P offset o :
  Forall2 (fun '(offset, o) e => pe_offset e = offset /\ pe_object_id e = lo_id o) done entries -> ordered done P -> (N.of_nat (length done) < 2 ^ 32)%N -> (offset, o) ∈ done ->
  exists i, pack_object_offset_index (entries) offset = Ok (Some i) /\ done !! i = Some (offset, o).
Proof.
  intros He [Hs _] Hl (i & Hi)%list_elem_of_lookup.
  pose proof (Forall2_lookup_l _ _ _ _ _ He Hi) as (e & Hei & Heo & _).
  exists i. split; [|done].
  assert (Hk : map pe_offset (entries) = map fst done).
  { clear -He. induction He as [|[off x] e l k [H1 _] _ IH]; [done|]. cbn [map fst]. by rewrite H1, IH. }
  assert (Hoff : forall j x, entries !! j = Some x -> map fst done !! j = Some (pe_offset x)).
  { intros j x Hj. rewrite <- Hk. change (map pe_offset (entries)) with (pe_offset <$> entries).
    by rewrite list_lookup_fmap, Hj. }
  pose proof (Hoff i e Hei) as Hoi. rewrite Heo in Hoi.
  pose proof (lookup_lt_Some _ _ _ Hi) as Hil.
  unfold pack_object_offset_index.
  rewrite (binary_search_by_spec _ _ (take i (entries)) [e] (drop (S i) (entries))).
  - rewrite bind_Ok. do 2 f_equal. pose proof (lookup_lt_Some _ _ _ Hei).
    rewrite length_take_le by lia. cbn [length]. unfold as_u32. rewrite N.mod_small by lia. lia.
  - split; [|split; [|split]].
    + cbn [app]. symmetry. by apply take_drop_middle.
    + apply Forall_lookup. intros j x Hj. apply lookup_take_Some in Hj as [Hj Hlt].
      apply N.compare_lt_iff. eapply sorted_lookup; [exact Hs|by apply Hoff|exact Hoi|done].
    + apply Forall_singleton. by apply N.compare_eq_iff.
    + apply Forall_lookup. intros j x Hj. rewrite lookup_drop in Hj.
      apply N.compare_gt_iff. eapply sorted_lookup; [exact Hs|exact Hoi|by apply Hoff|lia].
Qed.

(** ** One entry *)

(** The record of a parsed object when all are retained. *)
Lemma record_object_Ok collect done s offset crc o :
  decoded done s -> (N.of_nat (length done) < PACK_OBJECT_CONTENT_NOT_RETAINED)%N ->
  (N.of_nat (length (lo_content o)) <= PARSE_LIMIT)%N ->
  exists s', record_object collect true false offset crc
      (MkParsed (lo_id o) (lo_kind o) (lo_content o) (length (lo_content o))) s = Ok s' /\
    decoded (done ++ [(offset, o)]) s'.
Proof.
  intros [Hr Hb Hx He Hc [Ho1 Ho2]] Hn Hsz. unfold record_object. cbn [pp_id pp_kind pp_content pp_size].
  unfold pack_should_retain_content. rewrite Hb. cbn [orb negb andb fmap option_fmap option_map].
  assert (Hm : exists md, (if collect
     then m ← object_metadata_new (lo_kind o) (length (lo_content o)); Ok (ps_metadata s ++ [m])
     else Ok (ps_metadata s)) = Ok md).
  { destruct collect; [|by eexists]. unfold object_metadata_new, pack_object_size_metadata.
    unfold PARSE_LIMIT in Hsz. rewrite (proj2 (N.ltb_lt _ _)) by lia. by eexists. }
  destruct Hm as [md ->]. rewrite bind_Ok, Hc, length_map.
  destruct (object_data_new_Ok (lo_kind o) (length done) Hn) as (d & -> & Hk & Hs). rewrite bind_Ok.
  eexists. split; [done|]. split; cbn; [done|done|done| | |].
  - apply Forall2_app; [done|]. by repeat constructor.
  - by rewrite map_app.
  - rewrite !length_app, Ho1. split; [done|]. intros i off x Hi.
    apply lookup_app_Some in Hi as [Hi|[Hl Hi]].
    + destruct (Ho2 i off x Hi) as (d' & Hd & ?). exists d'. split; [|done].
      by apply lookup_app_l_Some.
    + destruct (i - length done) as [|k] eqn:Ei; [|by destruct k]. injection Hi as <- <-.
      exists d. rewrite lookup_app_r by lia. assert (i = length done) as -> by lia.
      by rewrite Ho1, Nat.sub_diag.
Qed.

Lemma validate_same n : validate_packed_inflated_size n n = Ok tt.
Proof. unfold validate_packed_inflated_size. by rewrite N.eqb_refl. Qed.

(** The body of a base object at a cursor. *)
Lemma parse_base_object_Ok alg retention offset pre o t :
  good_object alg o ->
  parse_base_object (D := D) alg true retention offset (lo_kind o) (N.of_nat (length (lo_content o)))
    (MkCursor (pre ++ zlib_compress (lo_content o) ++ t) (N.of_nat (length pre)))
  = (Ok (MkParsed (lo_id o) (lo_kind o) (lo_content o) (length (lo_content o))),
     MkCursor (pre ++ zlib_compress (lo_content o) ++ t)
       (N.of_nat (length (pre ++ zlib_compress (lo_content o))))).
Proof.
  intros [Hid Hsz]. unfold parse_base_object, pack_can_stream_hash_content. cbn [negb andb].
  pose proof (read_zlib_content_from_cursor_whole (D := D) pre (lo_content o) t PARSE_LIMIT) as Hz.
  premise Hz; [done|]. premise Hz; [done|].
  rewrite (rbind_Ok _ _ _ _ _ Hz), validate_same. by rewrite Hid.
Qed.

(** An offset delta on a known base. *)
Lemma parse_ofs_delta_Ok alg done s pre offset boff base o delta t c1 :
  decoded done s -> ordered done offset -> (N.of_nat (length done) < 2 ^ 32)%N -> good_object alg o ->
  (boff, base) ∈ done -> lo_kind base = lo_kind o -> length delta < length (lo_content o) ->
  delta_sem (lo_content base) PARSE_LIMIT delta = Ok (lo_content o) ->
  read_base_offset offset c1
  = (Ok boff, MkCursor (pre ++ zlib_compress delta ++ t) (N.of_nat (length pre))) ->
  parse_ofs_delta (D := D) alg true s offset (N.of_nat (length delta)) c1
  = (Ok (MkParsed (lo_id o) (lo_kind o) (lo_content o) (length (lo_content o)), s),
     MkCursor (pre ++ zlib_compress delta ++ t) (N.of_nat (length (pre ++ zlib_compress delta)))).
Proof.
  intros Hd Hord Hn [Hid Hsz] Hin Hkind Hdl Hsem Eb. unfold parse_ofs_delta.
  rewrite (rbind_Ok _ _ _ _ _ Eb).
  destruct (offset_index_found done _ offset boff base (dec_entries _ _ Hd) Hord Hn Hin) as (i & Ei & Hi).
  pose proof Hd as [Hr _ _ _ Hc [_ Ho]]. destruct (Ho i boff base Hi) as (d & Hdi & Hdk & Hds).
  rewrite Ei. change (rbind (rlift (Ok ?a)) ?f ?x) with (f a x). cbv beta. cbn [ok_or].
  change (rbind (rlift (Ok ?a)) ?f ?x) with (f a x). cbv beta. unfold index_at at 1. rewrite Hdi. cbn [unwrap].
  change (rbind (rlift (Ok ?a)) ?f ?x) with (f a x). cbv beta.
  unfold object_data_has_content, object_data_content. rewrite Hds, bool_decide_true by done.
  cbn [negb check]. change (rbind (rlift (Ok ?a)) ?f ?x) with (f a x). cbv beta.
  rewrite Hdk, Hkind, Hc.
  change (map (fun d => lo_content d.2) done) with ((fun d => lo_content d.2) <$> done).
  rewrite list_lookup_fmap, Hi. cbn [fmap option_fmap option_map default from_option id snd].
  pose proof (apply_zlib_delta_from_cursor_whole (D := D) (lo_content base) PARSE_LIMIT pre delta t
    (lo_content o)) as Hz.
  premise Hz; [lia|]. premise Hz; [done|]. specialize (Hz Hsem).
  assert (Hpd : forall r, parse_delta_object (D := D) alg true r offset (lo_kind o) (lo_content base)
      (N.of_nat (length delta)) (MkCursor (pre ++ zlib_compress delta ++ t) (N.of_nat (length pre)))
    = (Ok (MkParsed (lo_id o) (lo_kind o) (lo_content o) (length (lo_content o))),
       MkCursor (pre ++ zlib_compress delta ++ t) (N.of_nat (length (pre ++ zlib_compress delta))))).
  { intros r. unfold parse_delta_object, pack_can_stream_hash_content. cbn [negb andb].
    rewrite (rbind_Ok _ _ _ _ _ Hz). by rewrite Hid. }
  rewrite (rbind_Ok _ _ _ _ _ (Hpd _)). cbv zeta.
  assert (Hret : consume_offset (ps_retention s) boff = ps_retention s).
  { rewrite Hr. unfold consume_offset, decrement_pack_retention_count. cbn [rt_offsets rt_ids retention_empty].
    by rewrite lookup_empty. }
  rewrite Hret. unfold pack_release_internal_base_if_unused.
  change (rbind (rlift (Ok ?a)) ?f ?x) with (f a x). cbv beta iota.
  destruct s. cbn in Hc. by subst.
Qed.

(** One turn of the loop: the entry is read, and its object recorded. *)
Lemma parse_entry_Ok collect alg pre x t trailer done s o :
  12 <= length pre -> (N.of_nat (length pre) < 2 ^ 63)%N ->
  good_object alg o -> entry_of done (N.of_nat (length pre)) o x ->
  decoded done s -> ordered done (N.of_nat (length pre)) ->
  (N.of_nat (length done) < PACK_OBJECT_CONTENT_NOT_RETAINED)%N ->
  exists s',
    parse_entry (D := D) alg ((pre ++ x ++ t) ++ trailer) collect true false None s
      (MkCursor (pre ++ x ++ t) (N.of_nat (length pre)))
    = (Ok s', MkCursor (pre ++ x ++ t) (N.of_nat (length (pre ++ x)))) /\
    decoded (done ++ [(N.of_nat (length pre), o)]) s'.
Proof.
  intros Hp Hlen Hgood He Hd Hord Hn. pose proof Hgood as [Hid Hsz].
  set (offset := N.of_nat (length pre)) in *. set (data := pre ++ x ++ t) in *.
  set (stop := N.of_nat (length (pre ++ x))).
  assert (Hslice : exists bs, slice (data ++ trailer) (N.to_nat offset) (N.to_nat stop) = Ok bs).
  { exists (take (length (pre ++ x) - length pre) (drop (length pre) (data ++ trailer))).
    unfold offset, stop. rewrite !Nat2N.id. apply slice_eq; unfold data; rewrite !length_app; lia. }
  destruct Hslice as [bs Hslice].
  destruct (record_object_Ok collect done s offset (crc32_hash bs) o Hd Hn Hsz) as (s' & Hrec & Hd').
  exists s'. split; [|done].
  set (result := MkParsed (lo_id o) (lo_kind o) (lo_content o) (length (lo_content o))) in *.
  assert (Hbody : (header <~ read_pack_object_header;
      match header with
      | Base kind size =>
          parsed <~ parse_base_object (D := D) alg true (ps_retention s) offset kind size;
          rret (parsed, s)
      | OfsDelta size => parse_ofs_delta (D := D) alg true s offset size
      | RefDelta size => parse_ref_delta (D := D) alg true false None s offset size
      end) (MkCursor data offset) = (Ok (result, s), MkCursor data stop)).
  { unfold PARSE_LIMIT in Hsz.
    destruct He as [(h & Eh & Hh & ->)|(boff & base & delta & Hin & Hkind & (h & Eh & Hh & ->) & Hdl & Hsem)].
    - assert (Hs60 : (N.of_nat (length (lo_content o)) < 2 ^ 60)%N) by (cbn; lia).
      unfold data, offset, stop. rewrite <- !app_assoc.
      rewrite (rbind_Ok _ _ _ _ _ (read_base_header pre (lo_kind o) _ h _ Hs60 Eh)).
      pose proof (parse_base_object_Ok alg (ps_retention s) (N.of_nat (length pre)) (pre ++ h) o t Hgood) as Hb.
      rewrite <- !app_assoc in Hb. by rewrite (rbind_Ok _ _ _ _ _ Hb).
    - assert (Hboff : (boff < offset)%N).
      { destruct Hord as [_ Hf]. rewrite Forall_forall in Hf. apply Hf.
        change (map fst done) with (fst <$> done). apply list_elem_of_fmap. by exists (boff, base). }
      unfold data, stop. rewrite <- !app_assoc.
      destruct (read_ofs_header pre offset boff (N.of_nat (length delta)) h (zlib_compress delta ++ t))
        as (c1 & E1 & E2); [lia|lia|cbn; lia|done|done|].
      rewrite (rbind_Ok _ _ _ _ _ E1).
      pose proof (parse_ofs_delta_Ok alg done s (pre ++ h) offset boff base o delta t c1) as Hp1.
      rewrite <- !app_assoc in Hp1. apply Hp1; try done.
      unfold PACK_OBJECT_CONTENT_NOT_RETAINED, PACK_OBJECT_CONTENT_SLOT_MASK in Hn. lia. }
  unfold parse_entry. rewrite (rbind_Ok position _ _ offset (MkCursor data offset)) by done.
  unfold rbind in Hbody |- *.
  destruct (read_pack_object_header (MkCursor data offset)) as [[header|e| |] c1]; [|done..].
  destruct header as [kind size|size|size]; rewrite Hbody; unfold position, rlift; cbn [cursor_position];
    by rewrite Hslice, Hrec.
Qed.

(** ** All entries *)

Lemma push_array_length cap out b out' : push_array cap out b = Ok out' -> length out' = S (length out).
Proof. unfold push_array. destruct (_ <? _); [|done]. intros [= <-]. rewrite length_app. cbn. lia. Qed.

Lemma size_bytes_loop_length cap fuel : forall size out h,
  size_bytes_loop fuel cap size out = Ok h -> length out <= length h.
Proof.
  induction fuel as [|fuel IH]; intros size out h E; cbn [size_bytes_loop] in E;
    (destruct (size =? 0)%N; [by injection E as <-|]); [done|]. inv_ok.
  match goal with E : push_array _ _ _ = Ok _ |- _ => apply push_array_length in E end.
  match goal with E : size_bytes_loop _ _ _ _ = Ok _ |- _ => apply IH in E end. lia.
Qed.

Lemma header_nonempty cap code size h : header_bytes cap code size = Ok h -> 0 < length h.
Proof.
  unfold header_bytes. cbv zeta. intros E. inv_ok.
  match goal with E : push_array _ _ _ = Ok _ |- _ => apply push_array_length in E end.
  match goal with E : size_bytes_loop _ _ _ _ = Ok _ |- _ => apply size_bytes_loop_length in E end. lia.
Qed.

Lemma entry_nonempty done offset o x : entry_of done offset o x -> 0 < length x.
Proof.
  intros [(h & Eh & _ & ->)|(boff & base & delta & _ & _ & (h & Eh & _ & ->) & _)]; rewrite length_app.
  - apply header_nonempty in Eh. lia.
  - unfold ofs_delta_header_bytes in Eh. inv_ok.
    match goal with E : pack_delta_object_header_bytes _ = Ok _ |- _ => apply header_nonempty in E end.
    rewrite length_app. lia.
Qed.

Lemma parse_entries_loop_Ok collect alg trailer done P os body s :
  encodes alg done P os body -> 12 <= length P -> (N.of_nat (length body) < 2 ^ 63)%N ->
  decoded done s -> ordered done (N.of_nat (length P)) ->
  (N.of_nat (length done + length os) <= PACK_OBJECT_CONTENT_NOT_RETAINED)%N ->
  exists s' all,
    parse_entries_loop (D := D) (length os) alg (body ++ trailer) collect true false None s
      (MkCursor body (N.of_nat (length P)))
    = (Ok s', MkCursor body (N.of_nat (length body))) /\
    decoded all s' /\ map snd all = map snd done ++ os.
Proof.
  intros He. revert s. induction He as [done P|done P o os x body Hgood Hx He IH]; intros s Hp Hb Hd Hord Hn.
  - exists s, done. cbn. by rewrite app_nil_r.
  - pose proof (encodes_prefix _ _ _ _ _ He) as [t Ht]. rewrite <- app_assoc in Ht. subst body.
    cbn [length] in Hn |- *. rewrite !length_app in Hb.
    destruct (parse_entry_Ok collect alg P x t trailer done s o) as (s1 & E1 & Hd1); [done|lia|done..|lia|].
    pose proof (entry_nonempty _ _ _ _ Hx) as Hlx.
    destruct (IH s1) as (s' & all & E & Hall & Hm); [rewrite length_app; lia|rewrite !length_app; lia|done|
      apply ordered_snoc; [done|rewrite length_app; lia]|rewrite length_app; cbn; lia|].
    exists s', all. split; [|split; [done|rewrite Hm, map_app, <- app_assoc; done]].
    cbn [parse_entries_loop]. by rewrite (rbind_Ok _ _ _ _ _ E1).
Qed.

(** ** The parsed objects are returned with their contents *)

Definition returned (o : LooseObject) : PackObjectData := MkPackData (lo_id o) (lo_kind o) (lo_content o).

Lemma pack_return_Ok (rest : list (N * LooseObject)) :
  forall i entries objects (contents : list bytes),
  Forall2 (fun '(offset, o) e => pe_offset e = offset /\ pe_object_id e = lo_id o) rest entries ->
  length objects = length rest ->
  (forall j offset o, rest !! j = Some (offset, o) ->
     contents !! (i + j) = Some (lo_content o) /\
     exists d, objects !! j = Some d /\ object_data_kind d = lo_kind o /\ object_data_slot d = Some (i + j)) ->
  pack_return_parsed_objects entries objects contents = map (fun d => returned d.2) rest.
Proof.
  induction rest as [|[offset o] rest IH]; intros i entries objects contents He Hl Ho.
  - by inversion He.
  - inversion He as [|? e ? entries' Hh He']; subst. destruct Hh as [_ Hid]. destruct objects as [|d objects]; [done|].
    destruct (Ho 0 offset o eq_refl) as (Hc & d' & [= <-] & Hk & Hs). rewrite Nat.add_0_r in Hc, Hs.
    cbn [pack_return_parsed_objects]. rewrite Hs. cbn [pack_take_retained_content]. rewrite Hc, Hid, Hk.
    cbn [map]. f_equal. apply (IH (S i)); [done|cbn in Hl; lia|].
    intros j off x Hj. destruct (Ho (S j) off x Hj) as (Hcj & Hd). rewrite Nat.add_succ_r in Hcj, Hd.
    split; [|done]. by rewrite list_lookup_insert_ne by lia.
Qed.

Lemma pack_return_decoded all s :
  decoded all s ->
  pack_return_parsed_objects (ps_entries s) (ps_objects s) (ps_contents s) = map returned (map snd all).
Proof.
  intros [_ _ _ He Hc [Hl Ho]]. rewrite map_map. apply (pack_return_Ok all 0); [done|done|].
  intros j offset o Hj. split; [|exact (Ho j offset o Hj)]. rewrite Hc.
  change (map (fun d => lo_content d.2) all) with ((fun d => lo_content d.2) <$> all).
  by rewrite list_lookup_fmap, Nat.add_0_l, Hj.
Qed.

(** ** Whole packs *)

Lemma hash_pack alg bs : exists id,
  hash_finalize (hash_update (hash_new alg) bs) = Ok id /\ ObjectId_wf id /\ algorithm id = alg.
Proof.
  eexists. split; [apply hash_finalize_ok|]. split; [|done]. apply mk_id_wf, length_sha_digest.
Qed.

Lemma length_preamble count : length (pack_preamble count) = 12.
Proof. unfold pack_preamble. by rewrite !length_app, !length_to_be. Qed.

Lemma parse_preamble count : (count < 2 ^ 32)%N -> parse_pack_header_bytes (pack_preamble count) = Ok count.
Proof.
  intros Hc. unfold parse_pack_header_bytes. rewrite length_preamble. cbn [Nat.eqb negb check]. rewrite bind_Ok.
  unfold pack_preamble.
  rewrite (slice_split [] PACK_MAGIC (to_be 4 PACK_VERSION_2 ++ to_be 4 count) _ 0 4) by reflexivity.
  rewrite bind_Ok, bool_decide_true by done. cbn [negb check]. rewrite bind_Ok.
  rewrite (slice_split PACK_MAGIC (to_be 4 PACK_VERSION_2) (to_be 4 count) _ 4 8) by reflexivity.
  rewrite bind_Ok, (from_be_to_be 4 PACK_VERSION_2) by done.
  cbn [negb andb N.eqb Pos.eqb PACK_VERSION_2 check]. rewrite bind_Ok.
  rewrite (slice_split (PACK_MAGIC ++ to_be 4 PACK_VERSION_2) (to_be 4 count) [] _ 8 12);
    [|by rewrite app_nil_r, <- app_assoc|reflexivity..].
  by rewrite !bind_Ok, from_be_to_be.
Qed.

(** The header and the checksum of an encoded pack. *)
Lemma validate_encoded alg count t id :
  (count < 2 ^ 32)%N -> hash_finalize (hash_update (hash_new alg) (pack_preamble count ++ t)) = Ok id ->
  ObjectId_wf id -> algorithm id = alg ->
  validate_pack_header_and_checksum alg ((pack_preamble count ++ t) ++ as_bytes id)
  = Ok (MkValidated id (N.to_nat count) (length (pack_preamble count ++ t))).
Proof.
  intros Hc Eh Hwf Halg. set (payload := pack_preamble count ++ t) in *.
  pose proof (length_preamble count) as Hlp.
  assert (Hl : length payload = 12 + length t) by (unfold payload; rewrite length_app; lia).
  pose proof (length_as_bytes id Hwf) as Hlen. rewrite Halg in Hlen.
  unfold validate_pack_header_and_checksum, validate_pack_checksum. cbv zeta. rewrite length_app, Hlen.
  rewrite (proj2 (Nat.ltb_ge _ _)) by lia. cbn [check]. rewrite bind_Ok.
  replace (length payload + digest_len alg - digest_len alg) with (length payload) by lia.
  rewrite (slice_split [] payload (as_bytes id) (payload ++ as_bytes id) 0 (length payload)) by reflexivity.
  rewrite bind_Ok.
  rewrite (slice_tail payload (as_bytes id) _ (length payload) (length payload + digest_len alg));
    [|reflexivity|reflexivity|by rewrite length_app, Hlen].
  rewrite bind_Ok.
  rewrite Eh, bind_Ok. rewrite bool_decide_true by done. cbn [negb check]. rewrite bind_Ok.
  rewrite <- Halg, ObjectId_new_as_bytes, bind_Ok by done.
  rewrite (slice_split [] (pack_preamble count) (t ++ as_bytes id) _ 0 12);
    [|by unfold payload; rewrite <- app_assoc|reflexivity|by rewrite Hlp].
  by rewrite bind_Ok, parse_preamble, bind_Ok.
Qed.

(** ** Whole packs parsed *)

Lemma pack_decodes alg count os body id :
  encodes alg [] (pack_preamble count) os body -> count = N.of_nat (length os) ->
  (count <= PACK_OBJECT_CONTENT_NOT_RETAINED)%N -> (N.of_nat (length body) < 2 ^ 63)%N ->
  hash_finalize (hash_update (hash_new alg) body) = Ok id -> ObjectId_wf id -> algorithm id = alg ->
  decode_pack_objects D alg (body ++ as_bytes id) = Ok (map returned os).
Proof.
  intros He Hcount Hn Hb Eh Hwf Halg. pose proof (encodes_prefix _ _ _ _ _ He) as [t Ht].
  unfold PACK_OBJECT_CONTENT_NOT_RETAINED, PACK_OBJECT_CONTENT_SLOT_MASK in Hn.
  unfold decode_pack_objects, parse_pack_entries.
  assert (Hv : validate_pack_header_and_checksum alg (body ++ as_bytes id)
    = Ok (MkValidated id (N.to_nat count) (length body))).
  { rewrite Ht in Eh |- *. apply validate_encoded; [lia|done..]. }
  rewrite Hv, bind_Ok. subst count. rewrite Nat2N.id.
  pose proof (length_preamble (N.of_nat (length os))) as Hp.
  pose proof (length_as_bytes id Hwf) as Hlen. rewrite Halg in Hlen.
  assert (Hbl : 12 <= length body) by (rewrite Ht, length_app; lia).
  unfold parse_pack_entries_validated. rewrite length_app, Hlen.
  unfold assert. rewrite (proj2 (Nat.leb_le _ _)), bind_Ok by lia.
  rewrite Nat.eqb_refl, !bind_Ok. unfold entries_cursor.
  rewrite (slice_split [] body (as_bytes id) _ 0 (length body)), !bind_Ok by reflexivity.
  change (pack_ref_delta_uses_linear_lookup true _) with false.
  destruct (parse_entries_loop_Ok false alg (as_bytes id) [] (pack_preamble (N.of_nat (length os))) os body
    (MkParseState retention_empty None [] [] [] [] [])) as (s & all & E & Hs & Hall);
    [done|lia|done| | |cbn; unfold PACK_OBJECT_CONTENT_NOT_RETAINED, PACK_OBJECT_CONTENT_SLOT_MASK; lia|].
  { split; [done|done|done|constructor|done|split; [done|by intros i offset o Hi]]. }
  { split; constructor. }
  rewrite Hp in E. change (N.of_nat 12) with 12%N in E. rewrite (rbind_Ok _ _ _ _ _ E).
  unfold check_trailing.
  rewrite (rbind_Ok (rbind position _) _ _ tt (MkCursor body (N.of_nat (length body)))).
  - cbn [fst rret]. unfold rret. cbn [fst]. rewrite !bind_Ok. cbn [pk_objects].
    by rewrite (pack_return_decoded all s Hs), Hall.
  - unfold rbind, position, rlift. cbn [cursor_position]. by rewrite N.eqb_refl.
Qed.

(** ** Sizes *)

Lemma entry_bound alg done offset o x :
  good_object alg o -> entry_of done offset o x -> (N.of_nat (length x) <= 2 ^ 31)%N.
Proof.
  intros [_ Hsz] He. unfold PARSE_LIMIT in Hsz. change (2 ^ 31)%N with 2147483648%N.
  destruct He as [(h & _ & Hh & ->)|(boff & base & delta & _ & _ & (h & _ & Hh & ->) & Hd & _)];
    rewrite length_app.
  - pose proof (zlib_bound (lo_content o)). lia.
  - pose proof (zlib_bound delta). lia.
Qed.

Lemma encodes_bound alg done P os body :
  encodes alg done P os body ->
  (N.of_nat (length body) <= N.of_nat (length P) + 2 ^ 31 * N.of_nat (length os))%N.
Proof.
  induction 1 as [|done P o os x body Hg Hx _ IH]; [cbn; lia|].
  pose proof (entry_bound _ _ _ _ _ Hg Hx). rewrite length_app in IH. cbn [length] in *. lia.
Qed.

(** ** The encoder writes such bodies *)

Section store.
Context {St : Type} `{GitObjectStore St} (store : St) (alg : GitHashAlgorithm).

(** The store has [o] under [id], an id of the pack's algorithm. *)
Definition stored_as (id : ObjectId) (o : LooseObject) : Prop :=
  algorithm id = alg /\ read_object store id = Ok o /\ good_object alg o.

Lemma check_algorithm_Ok id o : stored_as id o -> check_algorithm alg id = Ok tt.
Proof. intros [Ha _]. unfold check_algorithm. by rewrite bool_decide_true. Qed.

Lemma append_base_entry_of written P id o :
  stored_as id o ->
  exists x, append_packed_base_object P (lo_kind o) (lo_content o) = Ok (P ++ x) /\
            entry_on written (N.of_nat (length P)) o x None 0.
Proof.
  intros (_ & _ & _ & Hsz). unfold PARSE_LIMIT in Hsz.
  destruct (append_base_entry P (lo_kind o) (lo_content o)) as (x & E & Hx); [cbn; lia|].
  exists x. split; [done|by split].
Qed.

Lemma encode_undeltified_writes limit ids os : Forall2 stored_as ids os -> forall written P,
  exists bases body all, encode_undeltified_loop store alg ids P = Ok body /\
                         writes alg limit written P os bases body all.
Proof.
  induction 1 as [|id o ids os Ho _ IH]; intros written P; [exists [], P, written; split; [done|constructor]|].
  cbn [encode_undeltified_loop]. rewrite (check_algorithm_Ok id o Ho), bind_Ok.
  destruct (append_base_entry_of written P id o Ho) as (x & E & Hx). pose proof Ho as (_ & -> & Hg).
  rewrite bind_Ok, E, bind_Ok.
  destruct (IH (written ++ [(N.of_nat (length P), o, (0, x))]) (P ++ x)) as (bases & body & all & -> & Hbody).
  exists (None :: bases), body, all. split; [done|]. econstructor; [done..|lia|done].
Qed.

(** The objects of the window are among those already written. *)
Definition known (written : list (N * LooseObject * (nat * bytes))) (e : EncodedPackObject) : Prop :=
  window_object e /\
  exists o x, (enc_offset e, o, (enc_depth e, x)) ∈ written /\ enc_kind e = lo_kind o /\ enc_content e = lo_content o.

Lemma known_more written more e : known written e -> known (written ++ more) e.
Proof. intros [Hw (o & x & Hin & Hk)]. split; [done|]. exists o, x. split; [|done]. apply elem_of_app. by left. Qed.

Lemma push_known options written encoded content_bytes P o depth x encoded' content_bytes' :
  window_inv options encoded content_bytes -> Forall (known written) encoded -> depth <= opt_depth options ->
  (N.of_nat (length (P : bytes)) < 2 ^ 63)%N ->
  push_encoded_pack_object encoded content_bytes
    (MkEncoded (lo_id o) (lo_kind o) (lo_content o) (N.of_nat (length P)) depth) options
  = (encoded', content_bytes') ->
  window_inv options encoded' content_bytes' /\
  Forall (known (written ++ [(N.of_nat (length P), o, (depth, x))])) encoded'.
Proof.
  intros Hinv Hk Hd HP E. apply push_encoded_spec in E as [Hinv' Hsplit]; [|done|done]. split; [done|].
  assert (Hmore : Forall (known (written ++ [(N.of_nat (length P), o, (depth, x))])) encoded).
  { eapply Forall_impl; [exact Hk|]. intros e. apply known_more. }
  destruct Hsplit as [->|(Hsz & ev & kept & -> & ->)]; [done|].
  apply Forall_app in Hmore as [_ Hmore]. apply Forall_app. split; [done|]. apply Forall_singleton.
  split; [by split|]. exists o, x. split; [|done]. apply elem_of_app. right. by left.
Qed.

Lemma encode_pack_step_writes options id o written P encoded content_bytes :
  stored_as id o -> (N.of_nat (length P) < 2 ^ 63)%N -> ordered (map fst written) (N.of_nat (length P)) ->
  window_inv options encoded content_bytes -> Forall (known written) encoded ->
  exists x base depth encoded' content_bytes',
    encode_pack_step store alg options id P encoded content_bytes
    = Ok (P ++ x, encoded', content_bytes') /\
    entry_on written (N.of_nat (length P)) o x base depth /\ depth <= opt_depth options /\
    window_inv options encoded' content_bytes' /\
    Forall (known (written ++ [(N.of_nat (length P), o, (depth, x))])) encoded'.
Proof.
  intros Ho HP Hord Hinv Hk. unfold encode_pack_step. cbv zeta.
  rewrite (check_algorithm_Ok id o Ho), bind_Ok.
  pose proof (append_base_entry_of written P id o Ho) as (x0 & E0 & Hx0). pose proof Ho as (_ & -> & _ & Hsz).
  rewrite bind_Ok. unfold PARSE_LIMIT in Hsz.
  destruct (best_pack_delta_Ok o options encoded) as (n & best & _ & -> & Hbest);
    [cbn; lia|by eapply Forall_impl; [exact Hk|]; intros e [Hw _]|]. rewrite bind_Ok.
  destruct best as [c|].
  - destruct Hbest as (_ & Hcl & base & Hin & Hco & Hcd & Hdepth & Hkind & _ & Hsem).
    assert (Hin' : base ∈ encoded).
    { apply elem_of_take in Hin as (i & Hi & _). apply list_elem_of_lookup_2 in Hi.
      by apply list_elem_of_In, in_rev, list_elem_of_In. }
    rewrite Forall_forall in Hk. pose proof (Hk base Hin') as [_ (b & bx & Hb & Hbk & Hbc)].
    assert (Hoff : (cand_base_offset c < N.of_nat (length P))%N).
    { rewrite Hco. destruct Hord as [_ Hf]. rewrite Forall_forall in Hf. apply Hf.
      rewrite map_map. change (map (fun x => (fst x).1) written) with ((fun x => (fst x).1) <$> written).
      apply list_elem_of_fmap. by exists (enc_offset base, b, (enc_depth base, bx)). }
    destruct (append_delta_entry P (N.of_nat (length P)) (cand_base_offset c) (cand_delta c))
      as (x & -> & Hx); [lia|lia|cbn; lia|]. rewrite bind_Ok.
    destruct (push_encoded_pack_object _ _ _ _) as [encoded' bytes'] eqn:Ep.
    apply (push_known options written _ _ _ _ _ x) in Ep as [Hinv' Hk']; [|done|by apply Forall_forall|lia|done].
    exists x, (Some (cand_base_offset c)), (cand_base_depth c + 1), encoded', bytes'.
    split; [done|]. split; [|split; [lia|done]].
    exists b, (enc_depth base), bx, (cand_delta c). rewrite Hco in Hx |- *. rewrite <- Hbk, <- Hbc.
    split_and!; [done|lia|done..|]. apply Hsem. unfold PARSE_LIMIT. lia.
  - rewrite E0, bind_Ok. destruct (push_encoded_pack_object _ _ _ _) as [encoded' bytes'] eqn:Ep.
    apply (push_known options written _ _ _ _ _ x0) in Ep as [Hinv' Hk']; [|done|done|lia|done].
    exists x0, None, 0, encoded', bytes'. split_and!; [done..|lia|done|done].
Qed.

Lemma encode_pack_loop_writes options ids os : Forall2 stored_as ids os ->
  forall written P encoded content_bytes,
  (N.of_nat (length P) + 2 ^ 31 * N.of_nat (length os) < 2 ^ 63)%N ->
  ordered (map fst written) (N.of_nat (length P)) ->
  window_inv options encoded content_bytes -> Forall (known written) encoded ->
  exists bases body all, encode_pack_loop store alg options ids P encoded content_bytes = Ok body /\
                         writes alg (opt_depth options) written P os bases body all.
Proof.
  induction 1 as [|id o ids os Ho _ IH]; intros written P encoded content_bytes HP Hord Hinv Hk;
    [exists [], P, written; split; [done|constructor]|]. cbn [length] in HP.
  destruct (encode_pack_step_writes options id o written P encoded content_bytes)
    as (x & base & depth & encoded' & bytes' & E & Hx & Hd & Hinv' & Hk'); [done|lia|done..|].
  pose proof Ho as (_ & _ & Hg). pose proof (entry_bound _ _ _ _ _ Hg (entry_on_of _ _ _ _ _ _ Hx)) as Hxb.
  pose proof (entry_nonempty _ _ _ _ (entry_on_of _ _ _ _ _ _ Hx)) as Hxn.
  cbn [encode_pack_loop]. rewrite E, bind_Ok.
  destruct (IH (written ++ [(N.of_nat (length P), o, (depth, x))]) (P ++ x) encoded' bytes')
    as (bases & body & all & -> & Hbody);
    [rewrite length_app; lia| |done..|].
  { rewrite map_app. apply ordered_snoc; [done|rewrite length_app; lia]. }
  exists (base :: bases), body, all. split; [done|by econstructor].
Qed.

(** The body of a pack, by either loop. *)
Lemma encode_pack_writes ids os options :
  Forall2 stored_as ids os -> (N.of_nat (length ids) <= PACK_OBJECT_CONTENT_NOT_RETAINED)%N ->
  exists bases body all, writes alg (opt_depth options) [] (pack_preamble (N.of_nat (length os))) os bases body all /\
    encode_pack_from_store_with_options store alg ids options = append_pack_checksum alg body.
Proof.
  intros Ho Hn. pose proof (Forall2_length _ _ _ Ho) as Hl.
  unfold PACK_OBJECT_CONTENT_NOT_RETAINED, PACK_OBJECT_CONTENT_SLOT_MASK in Hn.
  set (P := pack_preamble (N.of_nat (length os))).
  assert (Hp : length P = 12) by (unfold P, pack_preamble; by rewrite !length_app, !length_to_be).
  assert (Hc : pack_object_count_u32 (length ids) = Ok (N.of_nat (length os))).
  { unfold pack_object_count_u32. rewrite (proj2 (N.ltb_lt _ _)) by lia. cbn. by rewrite Hl. }
  unfold encode_pack_from_store_with_options, encode_undeltified_pack_from_store. rewrite Hc, !bind_Ok. fold P.
  destruct (pack_encode_options_allows_delta options) eqn:Eo; cbn [negb].
  - destruct (encode_pack_loop_writes options ids os Ho [] P [] 0) as (bases & body & all & E & Hbody).
    + rewrite Hp, <- Hl. change (2 ^ 31)%N with 2147483648%N. lia.
    + split; constructor.
    + unfold PACK_DELTA_WINDOW_CONTENT_BUDGET. split; [cbn; lia|done|lia|constructor].
    + constructor.
    + exists bases, body, all. by rewrite E, bind_Ok.
  - destruct (encode_undeltified_writes (opt_depth options) ids os Ho [] P) as (bases & body & all & E & Hbody).
    exists bases, body, all. by rewrite E, bind_Ok.
Qed.
End store.

(** C6: a pack written for stored objects, with deltas or without, is decoded to exactly those
    objects in their order, with their ids, kinds and contents. *)
Theorem pack_roundtrip {St} `{GitObjectStore St} (store : St) alg options ids os :
  Forall2 (stored_as store alg) ids os ->
  (N.of_nat (length ids) <= PACK_OBJECT_CONTENT_NOT_RETAINED)%N ->
  exists pack, encode_pack_from_store_with_options store alg ids options = Ok pack /\
    decode_pack_objects D alg pack = Ok (map returned os).
Proof.
  intros Ho Hn. destruct (encode_pack_writes store alg ids os options Ho Hn) as (bases & body & all & Hw & E).
  pose proof (writes_encodes _ _ _ _ _ _ _ _ Hw) as Hbody. cbn [map] in Hbody.
  destruct (hash_pack alg body) as (id & Eh & Hwf & Halg). pose proof (Forall2_length _ _ _ Ho) as Hl.
  exists (body ++ as_bytes id). unfold append_pack_checksum in E. rewrite Eh in E. split; [exact E|].
  eapply pack_decodes; try done; [by rewrite <- Hl|].
  pose proof (encodes_bound _ _ _ _ _ Hbody) as Hb.
  pose proof (length_preamble (N.of_nat (length os))) as Hp.
  unfold PACK_OBJECT_CONTENT_NOT_RETAINED, PACK_OBJECT_CONTENT_SLOT_MASK in Hn.
  change (2 ^ 31)%N with 2147483648%N in Hb. lia.
Qed.
End codec.

(** ** Witness *)

#[local] Existing Instances sample_sha sample_sha_laws.
#[local] Existing Instance marked_encoder.

(** Every CRC is zero; the decoder does not check them. *)
#[local] Instance sample_crc : Crc32 := fun _ => 0%N.

Definition sample_object (i : nat) : LooseObject :=
  nth i sample_objects (MkLooseObject (sample_id Sha1 0) Blob []).

Lemma sample_stored : Forall2 (stored_as sample_pack_store Sha1) (map lo_id sample_objects) sample_objects.
Proof.
  assert (E : sample_objects = [sample_object 0; sample_object 1]) by (vm_compute; reflexivity).
  rewrite E. repeat constructor; (vm_compute; reflexivity) || (vm_compute; discriminate).
Qed.

(** The second object is written as a delta on the first. *)
Lemma pack_roundtrip_witness :
  exists pack,
    encode_pack_from_store_with_options sample_pack_store Sha1 (map lo_id sample_objects)
      (MkPackOptions 10 50) = Ok pack /\
    length pack <= 300 /\
    decode_pack_objects MarkedDecoder Sha1 pack = Ok (map returned sample_objects) /\
    length sample_objects = 2.
Proof.
  destruct (pack_roundtrip (D := MarkedDecoder) sample_pack_store Sha1 (MkPackOptions 10 50)
    (map lo_id sample_objects) sample_objects sample_stored) as (pack & E & Hd); [vm_compute; discriminate|].
  assert (Hl : match encode_pack_from_store_with_options sample_pack_store Sha1 (map lo_id sample_objects)
      (MkPackOptions 10 50) with Ok pack => length pack <=? 300 | _ => false end = true)
    by (vm_compute; reflexivity).
  rewrite E in Hl. apply Nat.leb_le in Hl.
  exists pack. split; [exact E|]. split; [exact Hl|]. split; [exact Hd|vm_compute; reflexivity].
Defined.
