(* ===== verification/PackIndexed.v ===== *)
(** * Encoded packs are indexed: both passes find every entry at its offset under its id, while the
      contents of bases are kept only as long as they are needed *)
From S2P Require Import Prelude Order Object Store Reader PackHeader Zlib DeltaRead DeltaWrite.
From S2P Require Import PackWrite PackParse PackIndex PackIndexing PackRoundtrip.

(** ** Retention plans that count the uses to come *)

(** The plan counts every base offset in [future], and no ids. *)
Definition plans (r : PackRetentionPlan) (future : list N) : Prop :=
  rt_ids r = ∅ /\
  forall offset, rt_offsets r !! offset =
    let n := count_occ N.eq_dec future offset in if n =? 0 then None else Some n.

Lemma plans_empty : plans retention_empty [].
Proof. split; [done|]. intros offset. apply lookup_empty. Qed.

Lemma plans_insert r future offset : plans r future -> plans (insert_offset r offset) (future ++ [offset]).
Proof.
  intros [Hi Ho]. split; [done|]. intros x. cbn [insert_offset rt_offsets]. rewrite count_occ_app. cbv zeta in *.
  cbn [count_occ]. destruct (N.eq_dec offset x) as [<-|Hne].
  - rewrite lookup_insert_eq, Ho. rewrite (proj2 (Nat.eqb_neq (_ + 1) 0)) by lia.
    destruct (Nat.eqb_spec (count_occ N.eq_dec future offset) 0) as [->|]; done.
  - by rewrite lookup_insert_ne, Ho, Nat.add_0_r.
Qed.

Lemma plans_consume r future offset : plans r (offset :: future) -> plans (consume_offset r offset) future.
Proof.
  intros [Hi Ho]. split; [done|]. intros x. pose proof (Ho x) as Hx. pose proof (Ho offset) as Hoff.
  cbn [consume_offset rt_offsets count_occ] in *. unfold decrement_pack_retention_count.
  destruct (N.eq_dec offset offset) as [_|]; [|done]. cbn [Nat.eqb] in Hoff. rewrite Hoff.
  destruct (N.eq_dec offset x) as [<-|Hne].
  - destruct (count_occ N.eq_dec future offset) as [|n]; cbn; [by rewrite lookup_delete_eq|].
    by rewrite lookup_insert_eq.
  - rewrite <- Hx. destruct (S _ - 1 =? 0); [by rewrite lookup_delete_ne|by rewrite lookup_insert_ne].
Qed.

Lemma plans_retain r future offset :
  plans r future -> pack_should_retain_offset r offset = bool_decide (offset ∈ future).
Proof.
  intros [_ Ho]. unfold pack_should_retain_offset, map_contains. rewrite Ho. cbv zeta.
  destruct (Nat.eqb_spec (count_occ N.eq_dec future offset) 0) as [E|E].
  - rewrite (bool_decide_false (is_Some None)) by (by intros [? ?]). rewrite andb_false_r, bool_decide_false; [done|].
    intros Hin%list_elem_of_In. by apply (count_occ_In N.eq_dec) in Hin; lia.
  - rewrite (bool_decide_true (is_Some _)) by done. rewrite bool_decide_false.
    + rewrite bool_decide_true; [done|]. apply list_elem_of_In, (count_occ_In N.eq_dec). lia.
    + intros Hem. specialize (Ho offset). rewrite Hem, lookup_empty in Ho. cbv zeta in Ho.
      by rewrite (proj2 (Nat.eqb_neq _ 0)) in Ho.
Qed.

(** The offsets are all there is to decide the retention. *)
Lemma plans_content r future offset id :
  plans r future -> pack_should_retain_content false r offset id = bool_decide (offset ∈ future).
Proof.
  intros Hp. unfold pack_should_retain_content. rewrite (plans_retain r future) by done.
  destruct Hp as [Hi _]. rewrite Hi. cbn [orb]. by rewrite (bool_decide_true (∅ = ∅)), orb_false_r.
Qed.

(** ** The first pass: references *)

Lemma position_step {B} (f : N -> rd Cursor B) data p :
  rbind position f (MkCursor data p) = f p (MkCursor data p).
Proof. done. Qed.

Section codec.
Context `{ShaLaws, Crc32} {D : Type} `{ZlibLaws D zlib_source inflated_rest}.

Definition insert_base (r : PackRetentionPlan) (base : option N) : PackRetentionPlan :=
  match base with
  | Some base => insert_offset r base
  | None => r
  end.

Lemma base_before (written : list (N * LooseObject * (nat * bytes))) P boff bo r :
  ordered (map fst written) P -> (boff, bo, r) ∈ written -> (boff < P)%N.
Proof.
  intros [_ Hf] Hin. rewrite Forall_forall in Hf. apply Hf. rewrite map_map.
  change (map (fun x => (fst x).1) written) with ((fun x => (fst x).1) <$> written).
  apply list_elem_of_fmap. by exists (boff, bo, r).
Qed.

(** What is read of a delta entry: the header, the offset of the base, and the stream of the delta. *)
Lemma delta_entry_reads pre x t o written boff depth :
  12 <= length pre -> (N.of_nat (length pre) < 2 ^ 63)%N -> (N.of_nat (length (lo_content o)) <= PARSE_LIMIT)%N ->
  entry_on written (N.of_nat (length pre)) o x (Some boff) depth ->
  ordered (map fst written) (N.of_nat (length pre)) ->
  exists bo bd bt delta h c1,
    (boff, bo, (bd, bt)) ∈ written /\ depth = S bd /\ lo_kind bo = lo_kind o /\ x = h ++ zlib_compress delta /\
    (N.of_nat (length delta) <= PARSE_LIMIT)%N /\ delta_sem (lo_content bo) PARSE_LIMIT delta = Ok (lo_content o) /\
    read_pack_object_header (MkCursor (pre ++ x ++ t) (N.of_nat (length pre)))
    = (Ok (OfsDelta (N.of_nat (length delta))), c1) /\
    read_base_offset (N.of_nat (length pre)) c1
    = (Ok boff, MkCursor (pre ++ x ++ t) (N.of_nat (length (pre ++ h)))).
Proof.
  intros Hp Hlen Hsz (bo & bd & bt & delta & Hin & Hd & Hk & (h & Eh & Hh & ->) & Hdl & Hsem) Hord.
  unfold PARSE_LIMIT in Hsz. pose proof (base_before _ _ _ _ _ Hord Hin) as Hboff.
  destruct (read_ofs_header pre (N.of_nat (length pre)) boff (N.of_nat (length delta)) h (zlib_compress delta ++ t))
    as (c1 & E1 & E2); [lia|lia|cbn; lia|done|done|].
  exists bo, bd, bt, delta, h, c1. rewrite <- app_assoc. unfold PARSE_LIMIT in *. split_and!; try done. all: lia.
Qed.

Lemma skip_delta pre h delta t :
  (N.of_nat (length delta) <= PARSE_LIMIT)%N ->
  skip_zlib_content_from_cursor (D := D) PARSE_LIMIT (N.of_nat (length delta))
    (MkCursor (pre ++ (h ++ zlib_compress delta) ++ t) (N.of_nat (length (pre ++ h))))
  = (Ok (length delta), MkCursor (pre ++ (h ++ zlib_compress delta) ++ t)
       (N.of_nat (length (pre ++ h ++ zlib_compress delta)))).
Proof.
  intros Hl. pose proof (skip_zlib_content_from_cursor_whole (D := D) (pre ++ h) delta t PARSE_LIMIT) as Hs.
  premise Hs; [done|]. premise Hs; [done|]. rewrite <- !app_assoc in Hs. by rewrite <- app_assoc.
Qed.

Lemma base_entry_reads pre x t o :
  (N.of_nat (length (lo_content o)) <= PARSE_LIMIT)%N -> base_entry (lo_kind o) (lo_content o) x ->
  exists h, x = h ++ zlib_compress (lo_content o) /\
    read_pack_object_header (MkCursor (pre ++ x ++ t) (N.of_nat (length pre)))
    = (Ok (Base (lo_kind o) (N.of_nat (length (lo_content o)))),
       MkCursor (pre ++ x ++ t) (N.of_nat (length (pre ++ h)))).
Proof.
  intros Hsz (h & Eh & Hh & ->). exists h. split; [done|]. rewrite <- app_assoc. unfold PARSE_LIMIT in Hsz.
  apply read_base_header; [cbn; lia|done].
Qed.

Lemma collect_step_Ok alg r pre x t o written base depth :
  12 <= length pre -> (N.of_nat (length pre) < 2 ^ 63)%N -> good_object alg o ->
  entry_on written (N.of_nat (length pre)) o x base depth ->
  ordered (map fst written) (N.of_nat (length pre)) ->
  collect_step (D := D) alg r (MkCursor (pre ++ x ++ t) (N.of_nat (length pre)))
  = (Ok (insert_base r base), MkCursor (pre ++ x ++ t) (N.of_nat (length (pre ++ x)))).
Proof.
  intros Hp Hlen [_ Hsz] He Hord. unfold collect_step. rewrite position_step. destruct base as [boff|].
  - destruct (delta_entry_reads pre x t o written boff depth) as (bo & bd & bt & delta & h & c1 & _ & _ & _ & -> & Hdl & _ & E1 & E2);
      [done..|].
    rewrite (rbind_Ok _ _ _ _ _ E1). unfold rbind at 1. unfold rbind at 1. rewrite E2. unfold rret at 1.
    by rewrite (rbind_Ok _ _ _ _ _ (skip_delta pre h delta t Hdl)).
  - destruct He as [_ He]. destruct (base_entry_reads pre x t o Hsz He) as (h & -> & E1).
    rewrite (rbind_Ok _ _ _ _ _ E1). unfold rbind at 1, rret at 1.
    by rewrite (rbind_Ok _ _ _ _ _ (skip_delta pre h (lo_content o) t Hsz)).
Qed.

Lemma writes_prefix alg limit written P os bases body all :
  writes alg limit written P os bases body all -> exists t, body = P ++ t.
Proof. intros Hw. by eapply encodes_prefix, writes_encodes. Qed.

Lemma writes_bases alg limit written P os bases body all :
  writes alg limit written P os bases body all -> length bases = length os.
Proof. induction 1; cbn; congruence. Qed.

Lemma ordered_next (written : list (N * LooseObject * (nat * bytes))) (P x : bytes) o depth :
  ordered (map fst written) (N.of_nat (length P)) -> 0 < length x ->
  ordered (map fst (written ++ [(N.of_nat (length P), o, (depth, x))])) (N.of_nat (length (P ++ x))).
Proof. intros Hord Hx. rewrite map_app. apply ordered_snoc; [done|rewrite length_app; lia]. Qed.

Lemma collect_references_Ok alg limit written P os bases body all :
  writes alg limit written P os bases body all -> forall r, 12 <= length P -> (N.of_nat (length body) < 2 ^ 63)%N ->
  ordered (map fst written) (N.of_nat (length P)) ->
  collect_references_loop (D := D) alg (length os) r (MkCursor body (N.of_nat (length P)))
  = (Ok (fold_left insert_base bases r), MkCursor body (N.of_nat (length body))).
Proof.
  induction 1 as [written P|written P o os x base bases depth body all Hg Hx _ Hw IH]; intros r Hp Hb Hord; [done|].
  destruct (writes_prefix _ _ _ _ _ _ _ _ Hw) as [t Ht]. rewrite <- app_assoc in Ht. subst body.
  rewrite !length_app in Hb. cbn [length collect_references_loop fold_left].
  rewrite (rbind_Ok _ _ _ _ _ (collect_step_Ok alg r P x t o written base depth Hp ltac:(lia) Hg Hx Hord)).
  apply IH; [rewrite length_app; lia|rewrite !length_app; lia|].
  apply ordered_next; [done|]. eapply entry_nonempty, entry_on_of, Hx.
Qed.

Lemma plans_insert_bases bases : forall r future,
  plans r future -> plans (fold_left insert_base bases r) (future ++ omap id bases).
Proof.
  induction bases as [|[base|] bases IH]; intros r future Hr; cbn [fold_left insert_base omap list_omap];
    [by rewrite app_nil_r| |by apply IH].
  unfold id at 1. replace (future ++ base :: omap id bases) with ((future ++ [base]) ++ omap id bases)
    by (by rewrite <- app_assoc). by apply IH, plans_insert.
Qed.

(** ** The pass over base objects *)

(** The entries of the index, one for each object written. *)
Definition entry_for (w : N * LooseObject * (nat * bytes)) : PackIndexEntry :=
  let '(offset, o, (_, x)) := w in MkPackEntry offset (lo_id o) (crc32_hash x).

(** The hash of a declared frame is the hash of the object. *)
Lemma frame_hash alg o :
  good_object alg o -> exists h, update_header (hash_new alg) (lo_kind o) (length (lo_content o)) = Ok h /\
    hash_finalize (hash_update h (lo_content o)) = Ok (lo_id o).
Proof.
  intros [Hid _]. unfold hash_object in Hid.
  destruct (update_header (hash_new alg) (lo_kind o) (length (lo_content o))) as [h|e| |] eqn:E; try done.
  exists h. by rewrite bind_Ok in Hid.
Qed.

Lemma metadata_Ok (collect : bool) kind size (metadata : list N) :
  (N.of_nat size <= PARSE_LIMIT)%N ->
  exists metadata', (if collect then m ← object_metadata_new kind size; Ok (metadata ++ [m]) else Ok metadata)
                    = Ok metadata'.
Proof.
  intros Hsz. destruct collect; [|by eexists]. unfold object_metadata_new, pack_object_size_metadata.
  unfold PARSE_LIMIT in Hsz. rewrite (proj2 (N.ltb_lt _ _)) by lia. by eexists.
Qed.

Lemma index_base_object_Ok collect alg pre h o t trailer entries metadata :
  good_object alg o ->
  exists metadata', index_base_object (D := D) alg ((pre ++ (h ++ zlib_compress (lo_content o)) ++ t) ++ trailer)
      collect (N.of_nat (length pre)) (lo_kind o) (N.of_nat (length (lo_content o))) entries metadata
      (MkCursor (pre ++ (h ++ zlib_compress (lo_content o)) ++ t) (N.of_nat (length (pre ++ h))))
    = (Ok (entries ++ [MkPackEntry (N.of_nat (length pre)) (lo_id o) (crc32_hash (h ++ zlib_compress (lo_content o)))],
           metadata'),
       MkCursor (pre ++ (h ++ zlib_compress (lo_content o)) ++ t)
         (N.of_nat (length (pre ++ h ++ zlib_compress (lo_content o))))).
Proof.
  intros Hg. pose proof Hg as [_ Hsz]. destruct (frame_hash alg o Hg) as (hasher & Eh & Ef).
  destruct (metadata_Ok collect (lo_kind o) (length (lo_content o)) metadata Hsz) as [md Em]. exists md.
  unfold index_base_object. rewrite Nat2N.id, Eh.
  change (rbind (rlift (Ok ?a)) ?f ?x) with (f a x). cbv beta.
  rewrite position_step.
  rewrite !Nat2N.id, <- !app_assoc. rewrite (slice_split pre h _ _ (length pre) (length (pre ++ h))) by
    (rewrite ?length_app; done).
  change (rbind (rlift (Ok ?a)) ?f ?x) with (f a x). cbv beta.
  pose proof (read_zlib_content_hashing_with_crc_whole (D := D) (pre ++ h) (lo_content o) t PARSE_LIMIT hasher (Some h)) as Hz.
  premise Hz; [done|]. premise Hz; [done|]. rewrite <- !app_assoc in Hz. rewrite (rbind_Ok _ _ _ _ _ Hz).
  rewrite validate_same, Em, Ef. done.
Qed.

Lemma index_only_loop_Ok collect alg limit written P os bases body all trailer :
  writes alg limit written P os bases body all -> forall entries metadata,
  12 <= length P -> (N.of_nat (length body) < 2 ^ 63)%N -> ordered (map fst written) (N.of_nat (length P)) ->
  entries = map entry_for written ->
  exists result, index_only_loop (D := D) (length os) alg (body ++ trailer) collect (length body) entries metadata
    (MkCursor body (N.of_nat (length P))) = (Ok result, MkCursor body (N.of_nat (length body))) /\
  match result with
  | inl (entries, _) => entries = map entry_for all
  | inr retention => plans retention (omap id bases)
  end.
Proof.
  induction 1 as [written P|written P o os x base bases depth body all Hg Hx Hdep Hw IH];
    intros entries metadata Hp Hb Hord ->; [by exists (inl (map entry_for written, metadata))|].
  destruct (writes_prefix _ _ _ _ _ _ _ _ Hw) as [t Ht]. rewrite <- app_assoc in Ht. subst body.
  rewrite !length_app in Hb. cbn [length index_only_loop].
  set (data := P ++ x ++ t) in *.
  rewrite position_step.
  assert (Hxn : 0 < length x) by (eapply entry_nonempty, entry_on_of, Hx).
  destruct base as [boff|].
  - pose proof Hg as [_ Hsz]. assert (Hnext : ordered _ _) by (exact (ordered_next written P x o depth Hord Hxn)).
    destruct (delta_entry_reads P x t o written boff depth) as (bo & bd & bt & delta & h & c1 & _ & _ & _ & Ex & Hdl & _ & E1 & E2);
      [done|lia|done..|].
    fold data in E1, E2. rewrite (rbind_Ok _ _ _ _ _ E1). rewrite (rbind_Ok _ _ _ _ _ E2).
    pose proof (skip_delta P h delta t Hdl) as Hs. rewrite <- Ex in Hs. fold data in Hs.
    assert (Hc : collect_remaining_delta_base_references (D := D) alg (N.of_nat (length delta)) (length os)
        (insert_offset retention_empty boff) (MkCursor data (N.of_nat (length (P ++ h))))
      = (Ok (fold_left insert_base bases (insert_offset retention_empty boff)), MkCursor data (N.of_nat (length data)))).
    { unfold collect_remaining_delta_base_references. rewrite (rbind_Ok _ _ _ _ _ Hs).
      eapply collect_references_Ok; [exact Hw|rewrite length_app; lia|unfold data; rewrite !length_app; lia|done]. }
    rewrite (rbind_Ok _ _ _ _ _ Hc). unfold check_trailing. rewrite (rbind_Ok (rbind position _) _ _ tt (MkCursor data (N.of_nat (length data)))).
    2:{ rewrite position_step. unfold rlift. by rewrite N.eqb_refl. }
    eexists (inr _). split; [done|]. cbn [omap list_omap]. unfold id at 1.
    apply (plans_insert_bases bases _ [boff]), (plans_insert _ []), plans_empty.
  - destruct Hx as [Hd0 Hx']. pose proof Hg as [_ Hsz]. destruct (base_entry_reads P x t o Hsz Hx') as (h & Ex & E1).
    fold data in E1. rewrite (rbind_Ok _ _ _ _ _ E1).
    destruct (index_base_object_Ok collect alg P h o t trailer (map entry_for written) metadata Hg) as [md Eb].
    rewrite <- Ex in Eb. fold data in Eb. rewrite (rbind_Ok _ _ _ _ _ Eb).
    apply IH; [rewrite length_app; lia|unfold data; rewrite !length_app; lia|by apply ordered_next|].
    by rewrite map_app.
Qed.

(** ** The pass over packs with deltas: contents are kept while they are needed *)

Lemma kind_bits_back kind : pack_object_kind_from_bits (pack_object_kind_bits kind) = kind.
Proof. by destruct kind. Qed.

Lemma object_data_new_None kind :
  exists d, object_data_new kind None = Ok d /\ object_data_kind d = kind /\ object_data_slot d = None.
Proof. by destruct kind; eexists. Qed.

Lemma mask_ones : PACK_OBJECT_CONTENT_SLOT_MASK = N.ones 30.
Proof. done. Qed.

Lemma released_object d :
  let d' := N.lor (N.ldiff d PACK_OBJECT_CONTENT_SLOT_MASK) PACK_OBJECT_CONTENT_NOT_RETAINED in
  object_data_kind d' = object_data_kind d /\ object_data_slot d' = None.
Proof.
  cbv zeta. unfold object_data_kind, object_data_slot, PACK_OBJECT_CONTENT_NOT_RETAINED. rewrite mask_ones. split.
  - f_equal. rewrite N.shiftr_lor. apply N.bits_inj. intros i.
    rewrite N.lor_spec, !N.shiftr_spec', N.ldiff_spec, (N.ones_spec_high 30 (i + 30)) by lia.
    by rewrite orb_false_r, andb_true_r.
  - assert (E : N.land (N.lor (N.ldiff d (N.ones 30)) (N.ones 30)) (N.ones 30) = N.ones 30).
    { apply N.bits_inj. intros i. rewrite N.land_spec, N.lor_spec, N.ldiff_spec.
      by destruct (N.testbit (N.ones 30) i); rewrite ?orb_true_r, ?andb_false_r. }
    by rewrite E, N.eqb_refl.
Qed.

(** The parser after the entries [written], with [future] the bases of the entries to come. *)
Record tracked (written : list (N * LooseObject * (nat * bytes))) (future : list N) (s : ParseState) : Prop := {
  tr_plan : plans (ps_retention s) future;
  tr_by_id : ps_by_id s = None;
  tr_external : ps_external_bases s = [];
  tr_entries : ps_entries s = map entry_for written;
  tr_length : length (ps_objects s) = length written;
  tr_objects : forall i offset o r, written !! i = Some (offset, o, r) ->
    exists d, ps_objects s !! i = Some d /\ object_data_kind d = lo_kind o /\
      (offset ∈ future -> exists slot, object_data_slot d = Some slot /\ ps_contents s !! slot = Some (lo_content o));
  tr_slots : forall i j d d' slot, ps_objects s !! i = Some d -> ps_objects s !! j = Some d' ->
    object_data_slot d = Some slot -> object_data_slot d' = Some slot -> i = j;
  tr_range : forall i d slot, ps_objects s !! i = Some d -> object_data_slot d = Some slot ->
    slot < length (ps_contents s);
  tr_contents : length (ps_contents s) <= length written
}.

Lemma tracked_found written future s boff o r P :
  tracked written future s -> ordered (map fst written) P -> (N.of_nat (length written) < 2 ^ 32)%N ->
  (boff, o, r) ∈ written ->
  exists i, pack_object_offset_index (ps_entries s) boff = Ok (Some i) /\ exists r', written !! i = Some (boff, o, r').
Proof.
  intros Hs Hord Hn Hin. destruct (offset_index_found (map fst written) (ps_entries s) P boff o) as (i & Ei & Hi).
  - rewrite (tr_entries _ _ _ Hs). clear. induction written as [|[[offset o] [d x]] written IH]; constructor; [done|done].
  - done.
  - by rewrite length_map.
  - change (map fst written) with (fst <$> written). apply list_elem_of_fmap. by exists (boff, o, r).
  - exists i. split; [done|]. change (map fst written) with (fst <$> written) in Hi.
    apply list_lookup_fmap_Some in Hi as ([[off' o'] r'] & E1 & E2).
    cbn in E1. simplify_eq. by exists r'.
Qed.

(** Recording an object keeps the state tracked. *)
Lemma record_tracked collect linear written future s offset o content depth x :
  tracked written future s -> (N.of_nat (length written) < PACK_OBJECT_CONTENT_NOT_RETAINED)%N ->
  (N.of_nat (length (lo_content o)) <= PARSE_LIMIT)%N ->
  content = (if bool_decide (offset ∈ future) then lo_content o else []) ->
  exists s', record_object collect false linear offset (crc32_hash x)
      (MkParsed (lo_id o) (lo_kind o) content (length (lo_content o))) s = Ok s' /\
    tracked (written ++ [(offset, o, (depth, x))]) future s'.
Proof.
  intros [Hpl Hb Hx He Hl Ho Hsl Hra Hco] Hn Hsz Hcont. unfold record_object.
  cbn [pp_id pp_kind pp_content pp_size]. rewrite (plans_content _ _ _ _ Hpl), Hb.
  destruct (metadata_Ok collect (lo_kind o) (length (lo_content o)) (ps_metadata s) Hsz) as [md ->]. rewrite bind_Ok.
  replace (if negb linear && _ then _ else None) with (@None id_map) by (by destruct (negb linear && _)).
  assert (Htracked : forall d contents,
      object_data_kind d = lo_kind o ->
      (offset ∈ future -> exists slot, object_data_slot d = Some slot /\ contents !! slot = Some (lo_content o)) ->
      (forall slot, object_data_slot d = Some slot -> slot = length (ps_contents s) /\ slot < length contents) ->
      (exists more, contents = ps_contents s ++ more /\ length more <= 1) ->
      tracked (written ++ [(offset, o, (depth, x))]) future
        (MkParseState (ps_retention s) None (ps_external_bases s)
           (ps_entries s ++ [MkPackEntry offset (lo_id o) (crc32_hash x)]) (ps_objects s ++ [d]) contents md)).
  { intros d contents Hk Hf Hs (more & -> & Hm). split; cbn; try done.
    - by rewrite map_app, He.
    - rewrite !length_app. cbn. lia.
    - intros i off o' r' Hi. apply lookup_app_Some in Hi as [Hi|[Hge Hi]].
      + destruct (Ho i off o' r' Hi) as (d' & Hd' & Hk' & Hf'). exists d'. split; [by apply lookup_app_l_Some|].
        split; [done|]. intros (slot & Es & Ec)%Hf'. exists slot. split; [done|]. by apply lookup_app_l_Some.
      + destruct (i - length written) as [|k] eqn:Ei; [|by destruct k]. injection Hi as <- <- <-. exists d.
        split; [|done]. assert (i = length (ps_objects s)) as -> by lia. by apply list_lookup_middle.
    - intros i j di dj slot Hi Hj Hsi Hsj.
      apply lookup_app_Some in Hi as [Hi|[Hgi Hi]]; apply lookup_app_Some in Hj as [Hj|[Hgj Hj]].
      + by eapply Hsl.
      + destruct (j - length (ps_objects s)) as [|k]; [|by destruct k]. injection Hj as <-.
        apply Hs in Hsj as [-> _]. pose proof (Hra _ _ _ Hi Hsi). lia.
      + destruct (i - length (ps_objects s)) as [|k]; [|by destruct k]. injection Hi as <-.
        apply Hs in Hsi as [-> _]. pose proof (Hra _ _ _ Hj Hsj). lia.
      + destruct (i - length (ps_objects s)) as [|k] eqn:E1; [|by destruct k].
        destruct (j - length (ps_objects s)) as [|k] eqn:E2; [|by destruct k]. lia.
    - intros i di slot Hi Hsi. apply lookup_app_Some in Hi as [Hi|[Hgi Hi]].
      + rewrite length_app. pose proof (Hra _ _ _ Hi Hsi). lia.
      + destruct (i - length (ps_objects s)) as [|k]; [|by destruct k]. injection Hi as <-. by apply Hs in Hsi as [_ ?].
    - rewrite !length_app. cbn. lia. }
  destruct (bool_decide (offset ∈ future) || (length (lo_content o) =? 0)) eqn:Er.
  - destruct (object_data_new_Ok (lo_kind o) (length (ps_contents s))) as (d & -> & Hk & Hs);
      [lia|]. rewrite bind_Ok. eexists. split; [done|]. apply Htracked; [done| | |].
    + intros Hin. exists (length (ps_contents s)). split; [done|]. rewrite Hcont, bool_decide_true by done.
      by apply list_lookup_middle.
    + intros slot. rewrite Hs. intros [= <-]. rewrite length_app. cbn. lia.
    + eexists. split; [done|cbn; lia].
  - destruct (object_data_new_None (lo_kind o)) as (d & -> & Hk & Hs). rewrite bind_Ok. eexists. split; [done|].
    apply orb_false_iff in Er as [Er%bool_decide_eq_false _]. apply Htracked; [done|done|by rewrite Hs|].
    exists []. split; [by rewrite app_nil_r|cbn; lia].
Qed.

(** The content of a base is released when no entry needs it any more. *)
Lemma release_tracked written boff future s i o r :
  tracked written (boff :: future) s -> written !! i = Some (boff, o, r) ->
  exists objects contents,
    pack_release_internal_base_if_unused (ps_objects s) (ps_entries s) false
      (consume_offset (ps_retention s) boff) i boff (ps_contents s) = Ok (objects, contents) /\
    tracked written future (MkParseState (consume_offset (ps_retention s) boff) (ps_by_id s)
      (ps_external_bases s) (ps_entries s) objects contents (ps_metadata s)).
Proof.
  intros [Hpl Hb Hx He Hl Ho Hsl Hra Hco] Hi. apply plans_consume in Hpl.
  unfold pack_release_internal_base_if_unused. destruct (Ho i boff o r Hi) as (d & Hd & Hk & Hf). rewrite Hd.
  assert (Hent : index_at (ps_entries s) i = Ok (entry_for (boff, o, r))).
  { apply index_at_lookup. rewrite He. change (map entry_for written) with (entry_for <$> written).
    by rewrite list_lookup_fmap, Hi. }
  rewrite Hent, bind_Ok, (plans_content _ _ _ _ Hpl).
  destruct (Hf ltac:(by left)) as (slot & Es & Ec). case_bool_decide as Hin.
  - do 2 eexists. split; [done|]. split; cbn; try done. intros j off o' r' Hj.
    destruct (Ho j off o' r' Hj) as (d' & Hd' & Hk' & Hf'). exists d'. split; [done|]. split; [done|].
    intros Hoff. apply Hf'. by right.
  - unfold release_content. rewrite Es. do 2 eexists. split; [done|].
    destruct (released_object d) as [Hk2 Hs2]. set (d2 := N.lor _ _) in *.
    assert (Hdi : forall j dj sj, <[i := d2]> (ps_objects s) !! j = Some dj -> object_data_slot dj = Some sj ->
        j <> i /\ ps_objects s !! j = Some dj).
    { intros j dj sj Hj Hsj. destruct (decide (j = i)) as [->|Hne]; [|by rewrite list_lookup_insert_ne in Hj].
      apply lookup_lt_Some in Hd. rewrite list_lookup_insert_eq in Hj by done. simplify_eq. }
    split; cbn; try done.
    + by rewrite length_insert.
    + intros j off o' r' Hj. destruct (Ho j off o' r' Hj) as (d' & Hd' & Hk' & Hf').
      destruct (decide (j = i)) as [->|Hne].
      * rewrite Hi in Hj. simplify_eq. exists d2. apply lookup_lt_Some in Hd.
        split; [by rewrite list_lookup_insert_eq|]. split; [congruence|done].
      * exists d'. split; [by rewrite list_lookup_insert_ne|]. split; [done|]. intros Hoff.
        destruct (Hf' ltac:(by right)) as (slot' & Es' & Ec'). exists slot'. split; [done|].
        rewrite list_lookup_insert_ne; [done|]. intros <-. apply Hne. symmetry. by eapply Hsl.
    + intros j k dj dk sl Hj Hk' Hsj Hsk. destruct (Hdi j dj sl Hj Hsj) as [_ Hj'].
      destruct (Hdi k dk sl Hk' Hsk) as [_ Hk'']. by eapply Hsl.
    + intros j dj sl Hj Hsj. destruct (Hdi j dj sl Hj Hsj) as [_ Hj']. rewrite length_insert. by eapply Hra.
    + by rewrite length_insert.
Qed.

(** What the parser keeps of an object: its content only if it is the base of an entry to come. *)
Definition kept_content (future : list N) (offset : N) (content : bytes) : bytes :=
  if bool_decide (offset ∈ future) then content else [].

Lemma parse_base_tracked alg retention future offset pre h o t :
  plans retention future -> good_object alg o ->
  parse_base_object (D := D) alg false retention offset (lo_kind o) (N.of_nat (length (lo_content o)))
    (MkCursor (pre ++ (h ++ zlib_compress (lo_content o)) ++ t) (N.of_nat (length (pre ++ h))))
  = (Ok (MkParsed (lo_id o) (lo_kind o) (kept_content future offset (lo_content o)) (length (lo_content o))),
     MkCursor (pre ++ (h ++ zlib_compress (lo_content o)) ++ t)
       (N.of_nat (length (pre ++ h ++ zlib_compress (lo_content o))))).
Proof.
  intros Hpl Hg. pose proof Hg as [Hid Hsz].
  replace (pre ++ (h ++ zlib_compress (lo_content o)) ++ t) with ((pre ++ h) ++ zlib_compress (lo_content o) ++ t) by solve_app.
  rewrite (app_assoc pre h (zlib_compress (lo_content o))).
  unfold parse_base_object, pack_can_stream_hash_content. rewrite (plans_retain _ _ _ Hpl). unfold kept_content.
  case_bool_decide as Hin; cbn [negb andb].
  - pose proof (read_zlib_content_from_cursor_whole (D := D) (pre ++ h) (lo_content o) t PARSE_LIMIT) as Hz.
    premise Hz; [done|]. premise Hz; [done|]. rewrite (rbind_Ok _ _ _ _ _ Hz), validate_same. by rewrite Hid.
  - destruct (frame_hash alg o Hg) as (hasher & Eh & Ef). rewrite position_step, Nat2N.id, Eh.
    change (rbind (rlift (Ok ?a)) ?f ?x) with (f a x). cbv beta.
    pose proof (read_zlib_content_hashing_whole (D := D) (pre ++ h) (lo_content o) t PARSE_LIMIT hasher) as Hz.
    premise Hz; [done|]. premise Hz; [done|]. rewrite (rbind_Ok _ _ _ _ _ Hz), validate_same, Ef.
    do 2 (change (rbind (rlift (Ok ?a)) ?f ?x) with (f a x); cbv beta).
    rewrite (plans_content _ _ _ _ Hpl), bool_decide_false by done. done.
Qed.

Lemma parse_delta_tracked alg retention future offset pre h base o delta t :
  plans retention future -> good_object alg o ->
  (N.of_nat (length delta) <= PARSE_LIMIT)%N -> delta_sem base PARSE_LIMIT delta = Ok (lo_content o) ->
  parse_delta_object (D := D) alg false retention offset (lo_kind o) base (N.of_nat (length delta))
    (MkCursor (pre ++ (h ++ zlib_compress delta) ++ t) (N.of_nat (length (pre ++ h))))
  = (Ok (MkParsed (lo_id o) (lo_kind o) (kept_content future offset (lo_content o)) (length (lo_content o))),
     MkCursor (pre ++ (h ++ zlib_compress delta) ++ t) (N.of_nat (length (pre ++ h ++ zlib_compress delta)))).
Proof.
  intros Hpl [Hid Hsz] Hdl Hsem.
  replace (pre ++ (h ++ zlib_compress delta) ++ t) with ((pre ++ h) ++ zlib_compress delta ++ t) by solve_app.
  rewrite (app_assoc pre h (zlib_compress delta)).
  pose proof (apply_zlib_delta_from_cursor_whole (D := D) base PARSE_LIMIT (pre ++ h) delta t (lo_content o)) as Hz.
  premise Hz; [done|]. premise Hz; [done|]. specialize (Hz Hsem).
  unfold parse_delta_object, pack_can_stream_hash_content. rewrite (plans_retain _ _ _ Hpl). unfold kept_content.
  case_bool_decide as Hin; cbn [negb andb].
  - rewrite (rbind_Ok _ _ _ _ _ Hz). by rewrite Hid.
  - rewrite position_step.
    assert (Hh : apply_zlib_delta_hashing_from_cursor (D := D) alg (lo_kind o) base (N.of_nat (length delta)) PARSE_LIMIT
        (MkCursor ((pre ++ h) ++ zlib_compress delta ++ t) (N.of_nat (length (pre ++ h))))
      = (Ok (lo_id o, length (lo_content o)),
         MkCursor ((pre ++ h) ++ zlib_compress delta ++ t) (N.of_nat (length ((pre ++ h) ++ zlib_compress delta))))).
    { rewrite hashing_from_cursor_agrees by done. unfold map_run. rewrite Hz. cbn [fst snd]. by rewrite bind_Ok, Hid. }
    rewrite (rbind_Ok _ _ _ _ _ Hh), (plans_content _ _ _ _ Hpl), bool_decide_false by done. done.
Qed.

(** An offset delta on a base whose content was kept. *)
Lemma parse_ofs_delta_tracked alg written future s pre boff bo bd o delta h t c1 :
  tracked written (boff :: future) s -> ordered (map fst written) (N.of_nat (length pre)) ->
  (N.of_nat (length written) < 2 ^ 32)%N -> good_object alg o -> (boff, bo, bd) ∈ written ->
  lo_kind bo = lo_kind o -> (N.of_nat (length delta) <= PARSE_LIMIT)%N ->
  delta_sem (lo_content bo) PARSE_LIMIT delta = Ok (lo_content o) ->
  read_base_offset (N.of_nat (length pre)) c1
  = (Ok boff, MkCursor (pre ++ (h ++ zlib_compress delta) ++ t) (N.of_nat (length (pre ++ h)))) ->
  exists s', parse_ofs_delta (D := D) alg false s (N.of_nat (length pre)) (N.of_nat (length delta)) c1
    = (Ok (MkParsed (lo_id o) (lo_kind o) (kept_content future (N.of_nat (length pre)) (lo_content o))
             (length (lo_content o)), s'),
       MkCursor (pre ++ (h ++ zlib_compress delta) ++ t) (N.of_nat (length (pre ++ h ++ zlib_compress delta)))) /\
    tracked written future s'.
Proof.
  intros Hs Hord Hn Hg Hin Hkind Hdl Hsem Eb. unfold parse_ofs_delta. rewrite (rbind_Ok _ _ _ _ _ Eb).
  destruct (tracked_found written _ s boff bo bd _ Hs Hord Hn Hin) as (i & Ei & r' & Hi). rewrite Ei.
  change (rbind (rlift (Ok ?a)) ?f ?x) with (f a x). cbv beta. cbn [ok_or].
  change (rbind (rlift (Ok ?a)) ?f ?x) with (f a x). cbv beta.
  destruct (tr_objects _ _ _ Hs i boff bo r' Hi) as (d & Hd & Hdk & Hds).
  destruct (Hds ltac:(by left)) as (slot & Es & Ec). unfold index_at at 1. rewrite Hd. cbn [unwrap].
  change (rbind (rlift (Ok ?a)) ?f ?x) with (f a x). cbv beta.
  unfold object_data_has_content, object_data_content. rewrite Es, bool_decide_true by done. cbn [negb check].
  change (rbind (rlift (Ok ?a)) ?f ?x) with (f a x). cbv beta. rewrite Hdk, Hkind, Ec. cbn [default from_option id].
  assert (Hneq : kept_content (boff :: future) (N.of_nat (length pre)) (lo_content o)
    = kept_content future (N.of_nat (length pre)) (lo_content o)).
  { unfold kept_content. pose proof (base_before _ _ _ _ _ Hord Hin) as Hlt.
    rewrite (bool_decide_ext (N.of_nat (length pre) ∈ boff :: future) (N.of_nat (length pre) ∈ future)); [done|].
    rewrite elem_of_cons. split; [intros [?|?]; [lia|done]|by right]. }
  rewrite (rbind_Ok _ _ _ _ _ (parse_delta_tracked alg _ (boff :: future) _ pre h _ o delta t (tr_plan _ _ _ Hs) Hg Hdl Hsem)).
  rewrite Hneq. destruct (release_tracked written boff future s i bo r' Hs Hi) as (objects & contents & -> & Hs').
  change (rbind (rlift (Ok ?a)) ?f ?x) with (f a x). cbv beta iota. eexists. by split.
Qed.

Definition base_list (base : option N) : list N :=
  match base with
  | Some base => [base]
  | None => []
  end.

Lemma parse_entry_tracked collect linear alg external pre x t trailer written future s o base depth :
  12 <= length pre -> (N.of_nat (length pre) < 2 ^ 63)%N -> good_object alg o ->
  entry_on written (N.of_nat (length pre)) o x base depth ->
  tracked written (base_list base ++ future) s -> ordered (map fst written) (N.of_nat (length pre)) ->
  (N.of_nat (length written) < PACK_OBJECT_CONTENT_NOT_RETAINED)%N ->
  exists s', parse_entry (D := D) alg ((pre ++ x ++ t) ++ trailer) collect false linear external s
      (MkCursor (pre ++ x ++ t) (N.of_nat (length pre)))
    = (Ok s', MkCursor (pre ++ x ++ t) (N.of_nat (length (pre ++ x)))) /\
    tracked (written ++ [(N.of_nat (length pre), o, (depth, x))]) future s'.
Proof.
  intros Hp Hlen Hg He Hs Hord Hn. pose proof Hg as [_ Hsz].
  set (data := pre ++ x ++ t) in *. set (stop := MkCursor data (N.of_nat (length (pre ++ x)))).
  set (parsed := MkParsed (lo_id o) (lo_kind o) (kept_content future (N.of_nat (length pre)) (lo_content o))
                   (length (lo_content o))).
  assert (Hbody : exists header c1 s1,
      read_pack_object_header (MkCursor data (N.of_nat (length pre))) = (Ok header, c1) /\
      match header with
      | Base kind size =>
          parsed <~ parse_base_object (D := D) alg false (ps_retention s) (N.of_nat (length pre)) kind size;
          rret (parsed, s)
      | OfsDelta size => parse_ofs_delta (D := D) alg false s (N.of_nat (length pre)) size
      | RefDelta size => parse_ref_delta (D := D) alg false linear external s (N.of_nat (length pre)) size
      end c1 = (Ok (parsed, s1), stop) /\ tracked written future s1).
  { destruct base as [boff|]; cbn [base_list app] in Hs.
    - destruct (delta_entry_reads pre x t o written boff depth)
        as (bo & bd & bt & delta & h & c1 & Hin & _ & Hk & -> & Hdl & Hsem & E1 & E2); [done..|].
      destruct (parse_ofs_delta_tracked alg written future s pre boff bo (bd, bt) o delta h t c1 Hs Hord) as (s1 & E & Hs1);
        [unfold PACK_OBJECT_CONTENT_NOT_RETAINED, PACK_OBJECT_CONTENT_SLOT_MASK in Hn; lia|try done..].
      exists (OfsDelta (N.of_nat (length delta))), c1, s1. done.
    - destruct He as [_ He]. destruct (base_entry_reads pre x t o Hsz He) as (h & -> & E1).
      exists (Base (lo_kind o) (N.of_nat (length (lo_content o)))),
        (MkCursor data (N.of_nat (length (pre ++ h)))), s. split; [exact E1|]. split; [|done].
      by rewrite (rbind_Ok _ _ _ _ _ (parse_base_tracked alg _ future _ pre h o t (tr_plan _ _ _ Hs) Hg)). }
  destruct Hbody as (header & c1 & s1 & E1 & E2 & Hs1).
  destruct (record_tracked collect linear written future s1 (N.of_nat (length pre)) o
    (kept_content future (N.of_nat (length pre)) (lo_content o)) depth x) as (s' & Er & Hs'); [done..|].
  exists s'. split; [|done]. unfold parse_entry. rewrite position_step, (rbind_Ok _ _ _ _ _ E1).
  rewrite (rbind_Ok _ _ _ _ _ E2). unfold stop. rewrite position_step, !Nat2N.id.
  assert (Hsl : slice (data ++ trailer) (length pre) (length (pre ++ x)) = Ok x).
  { unfold data. replace ((pre ++ x ++ t) ++ trailer) with (pre ++ x ++ (t ++ trailer)) by solve_app.
    rewrite (slice_split pre x (t ++ trailer)); [done|done|done|by rewrite length_app]. }
  unfold rbind, rlift. rewrite Hsl. unfold parsed. by rewrite Er.
Qed.

Lemma parse_entries_loop_tracked collect linear alg limit external trailer written P os bases body all :
  writes alg limit written P os bases body all -> forall s,
  12 <= length P -> (N.of_nat (length body) < 2 ^ 63)%N -> ordered (map fst written) (N.of_nat (length P)) ->
  tracked written (omap id bases) s ->
  (N.of_nat (length written + length os) <= PACK_OBJECT_CONTENT_NOT_RETAINED)%N ->
  exists s', parse_entries_loop (D := D) (length os) alg (body ++ trailer) collect false linear external s
      (MkCursor body (N.of_nat (length P)))
    = (Ok s', MkCursor body (N.of_nat (length body))) /\
    tracked all [] s'.
Proof.
  induction 1 as [written P|written P o os x base bases depth body all Hg Hx Hdep Hw IH];
    intros s Hp Hb Hord Hs Hn; [by exists s|].
  destruct (writes_prefix _ _ _ _ _ _ _ _ Hw) as [t Ht]. rewrite <- app_assoc in Ht. subst body.
  rewrite !length_app in Hb. cbn [length] in Hn |- *.
  assert (Hfut : omap id (base :: bases) = base_list base ++ omap id bases) by (by destruct base).
  rewrite Hfut in Hs.
  destruct (parse_entry_tracked collect linear alg external P x t trailer written (omap id bases) s o base depth)
    as (s1 & E1 & Hs1); [done|lia|done..|lia|].
  assert (Hxn : 0 < length x) by (eapply entry_nonempty, entry_on_of, Hx).
  destruct (IH s1) as (s' & E & Hs'); [rewrite length_app; lia|rewrite !length_app; lia|by apply ordered_next|done|
    rewrite length_app; cbn; lia|].
  exists s'. split; [|done]. cbn [parse_entries_loop]. by rewrite (rbind_Ok _ _ _ _ _ E1).
Qed.

(** ** Whole packs *)

Lemma check_trailing_end data :
  check_trailing (length data) (MkCursor data (N.of_nat (length data)))
  = (Ok tt, MkCursor data (N.of_nat (length data))).
Proof. unfold check_trailing. rewrite position_step. unfold rlift. by rewrite N.eqb_refl. Qed.

(** Either pass, through the header and up to the checksum: every entry is indexed at its offset, under
    its id and with the CRC of its text. *)
Lemma indexed_entries_Ok collect alg limit external os bases body all id :
  writes alg limit [] (pack_preamble (N.of_nat (length os))) os bases body all ->
  (N.of_nat (length os) <= PACK_OBJECT_CONTENT_NOT_RETAINED)%N -> (N.of_nat (length body) < 2 ^ 63)%N ->
  hash_finalize (hash_update (hash_new alg) body) = Ok id ->
  exists metadata, indexed_entries (D := D) alg (body ++ as_bytes id) external collect
                   = Ok (id, map entry_for all, length body, metadata).
Proof.
  intros Hw Hn Hb Eh. destruct (hash_pack alg body) as (id' & Eh' & Hwf & Halg). assert (id' = id) as -> by congruence.
  destruct (writes_prefix _ _ _ _ _ _ _ _ Hw) as [t Ht]. set (P := pack_preamble (N.of_nat (length os))) in *.
  assert (Hp : length P = 12) by (unfold P, pack_preamble; by rewrite !length_app, !length_to_be).
  unfold PACK_OBJECT_CONTENT_NOT_RETAINED, PACK_OBJECT_CONTENT_SLOT_MASK in Hn.
  assert (Hv : validate_pack_header_and_checksum alg (body ++ as_bytes id) = Ok (MkValidated id (length os) (length body))).
  { rewrite Ht in Eh |- *. pose proof (validate_encoded alg (N.of_nat (length os)) t id) as Hv.
    rewrite Nat2N.id in Hv. apply Hv; [lia|done|done|done]. }
  assert (Hc : entries_cursor (body ++ as_bytes id) (length body) = Ok (MkCursor body 12)).
  { unfold entries_cursor. by rewrite (slice_split [] body (as_bytes id) _ 0 (length body)) by reflexivity. }
  assert (Hord : ordered (map fst (@nil (N * LooseObject * (nat * bytes)))) (N.of_nat (length P))) by (split; constructor).
  unfold indexed_entries, parse_pack_entries_index_only_if_base. rewrite Hv, bind_Ok, Hc, bind_Ok.
  destruct (index_only_loop_Ok collect alg limit [] P os bases body all (as_bytes id) Hw [] []) as (result & E & Hres);
    [lia|done|done|done|]. rewrite Hp in E. change (N.of_nat 12) with 12%N in E. unfold rbind at 1. rewrite E.
  destruct result as [[entries metadata]|retention].
  - rewrite Hres. rewrite (rbind_Ok _ _ _ _ _ (check_trailing_end body)). cbn [fst rret]. unfold rret. cbn [fst].
    rewrite bind_Ok. by eexists.
  - unfold rret. cbn [fst]. rewrite bind_Ok. unfold parse_pack_entries_validated.
    pose proof (length_as_bytes id Hwf) as Hlen. rewrite Halg in Hlen.
    assert (Hbl : 12 <= length body) by (rewrite Ht, length_app; lia).
    rewrite length_app, Hlen. unfold assert. rewrite (proj2 (Nat.leb_le _ _)), bind_Ok by lia.
    rewrite Nat.eqb_refl, !bind_Ok, Hc, bind_Ok.
    destruct (parse_entries_loop_tracked collect (pack_ref_delta_uses_linear_lookup false (size (rt_ids retention)))
      alg limit external (as_bytes id) [] P os bases body all Hw (MkParseState retention None [] [] [] [] []))
      as (s' & E' & Hs'); [lia|done|done| |cbn; unfold PACK_OBJECT_CONTENT_NOT_RETAINED, PACK_OBJECT_CONTENT_SLOT_MASK; lia|].
    { split; cbn; try done; try lia. }
    rewrite Hp in E'. change (N.of_nat 12) with 12%N in E'. rewrite (rbind_Ok _ _ _ _ _ E').
    rewrite (rbind_Ok _ _ _ _ _ (check_trailing_end body)). unfold rret. cbn [fst]. rewrite bind_Ok. cbn [pk_pack_id pk_entries pk_data_len pk_metadata].
    rewrite (tr_entries _ _ _ Hs'). by eexists.
Qed.
End codec.
