(* ===== verification/PackStore.v ===== *)
(** * The store of a repository's packs (zmin-git-core/src/pack.rs, [PackedObjectStore]): its caches,
      lookups over the pack directory, and reads through delta chains *)
From S2P Require Import Prelude Order Text Object Store Reader PackHeader Zlib DeltaRead PackWrite PackParse.
From S2P Require Import PackIndex.

Definition MAX_DELTA_DEPTH : nat := 4095.
Definition PACK_INDEX_CACHE_ENTRY_LIMIT : nat := 256.
Definition PACK_INDEX_CACHE_BYTE_LIMIT : N := 64 * 1024 * 1024.
Definition PACK_OBJECT_READ_CACHE_ENTRY_LIMIT : nat := 4096.
Definition PACK_OBJECT_READ_CACHE_BYTE_LIMIT : N := 8 * 1024 * 1024.

(** ** Paths: the functions of [std::path] on paths made of a directory and a name *)

(** What follows the last separator, and what comes before it, with the separator. *)
Fixpoint split_last (sep : byte) (bs : bytes) : option (bytes * bytes) :=
  match bs with
  | [] => None
  | b :: bs =>
      match split_last sep bs with
      | Some (before, after) => Some (b :: before, after)
      | None => if decide (b = sep) then Some ([], bs) else None
      end
  end.

Definition file_name (path : bytes) : bytes :=
  match split_last Byte.x2f path with Some (_, name) => name | None => path end.

(** [Path::extension]: what follows the last dot of the name, unless the name begins with it. *)
Definition extension (path : bytes) : option bytes :=
  let name := file_name path in
  if decide (name = bstr "..") then None else
  match split_last Byte.x2e name with
  | Some ([], _) | None => None
  | Some (_, after) => Some after
  end.

(** [Path::with_extension]. *)
Definition with_extension (path ext : bytes) : bytes :=
  match extension path with
  | Some old => take (length path - length old) path ++ ext
  | None => path ++ Byte.x2e :: ext
  end.

Definition pack_index_path (path : bytes) : bytes :=
  if decide (extension path = Some (bstr "pack")) then with_extension path (bstr "idx") else path.

(** ** The file system below the objects directory: a file is its bytes and what [metadata] says *)

Record File : Set := MkFile { file_modified : option N; file_bytes : bytes }.

Definition file_len (f : File) : N := N.of_nat (length (file_bytes f)).

(** The pack directory: its metadata and the paths [read_dir] lists, in the order it lists them. *)
Record PackDir : Set := MkPackDir {
  pd_modified : option N;
  pd_len : N;
  pd_paths : list bytes
}.

Record ObjectsFs : Set := MkFs {
  fs_pack_dir : option PackDir;
  fs_files : gmap bytes File
}.

(** [fs::metadata] and [File::open] of a path. *)
Definition open (fs : ObjectsFs) (path : bytes) : outcome File :=
  ok_or (fs_files fs !! path) NotFound "No such file or directory".

(** ** The cache of objects read from packs *)

Module ReadCache.

Definition PackObjectReadCacheKey : Set := bytes * N.

Record CachedPackObjectRead : Set := MkCachedRead { cr_kind : GitObjectKind; cr_content : bytes }.

Record PackObjectReadCache : Type := MkReadCache {
  entries : gmap PackObjectReadCacheKey CachedPackObjectRead;
  order : list PackObjectReadCacheKey;
  bytes_held : N
}.

Definition empty : PackObjectReadCache := MkReadCache ∅ [] 0.

Definition cr_len (c : CachedPackObjectRead) : N := N.of_nat (length (cr_content c)).

(** [saturating_sub] is the subtraction of [N]. *)
Fixpoint evict_loop (entries : gmap PackObjectReadCacheKey CachedPackObjectRead)
  (order : list PackObjectReadCacheKey) (held : N) : PackObjectReadCache :=
  if (PACK_OBJECT_READ_CACHE_BYTE_LIMIT <? held)%N || (PACK_OBJECT_READ_CACHE_ENTRY_LIMIT <? size entries)
  then
    match order with
    | [] => MkReadCache entries [] held
    | key :: order =>
        match entries !! key with
        | None => evict_loop entries order held
        | Some entry => evict_loop (delete key entries) order (held - cr_len entry)%N
        end
    end
  else MkReadCache entries order held.

Definition evict_over_budget (c : PackObjectReadCache) : PackObjectReadCache :=
  evict_loop (entries c) (order c) (bytes_held c).

Definition insert (c : PackObjectReadCache) (key : PackObjectReadCacheKey) (kind : GitObjectKind)
  (content : bytes) : PackObjectReadCache :=
  let len := N.of_nat (length content) in
  if (PACK_OBJECT_READ_CACHE_BYTE_LIMIT <? len)%N then c else
  match entries c !! key with
  | Some existing =>
      let held := saturating_add (bytes_held c - cr_len existing) len in
      evict_over_budget
        (MkReadCache (<[key := MkCachedRead kind content]> (entries c)) (order c) held)
  | None =>
      evict_over_budget
        (MkReadCache (<[key := MkCachedRead kind content]> (entries c)) (order c ++ [key])
           (saturating_add (bytes_held c) len))
  end.

Definition get (c : PackObjectReadCache) (key : PackObjectReadCacheKey) : option (GitObjectKind * bytes) :=
  (fun entry => (cr_kind entry, cr_content entry)) <$> entries c !! key.
End ReadCache.
Export ReadCache (PackObjectReadCache, CachedPackObjectRead, MkCachedRead).

(** ** The cache of parsed indexes, shared by all stores of the process *)

Record CachedPackIndex : Set := MkCachedIndex {
  ci_modified : option N;
  ci_len : N;
  ci_index : PackIndex
}.

Abbreviation IndexCache := (gmap bytes CachedPackIndex).

(** The keys of a hash map, in its order, which is not specified. *)
Class HashKeys : Type := hash_keys : IndexCache -> list bytes.

(** Every key comes once. *)
Class HashKeysLaws `{HashKeys} : Prop :=
  hash_keys_spec : forall m : IndexCache, hash_keys m ≡ₚ (map_to_list m).*1.

Definition saturating_add_u64 (a b : N) : N := N.min (a + b) (2 ^ 64 - 1).

(** The values are summed in the order of the map as well. *)
Definition pack_index_cache_len_for_insert `{HashKeys} (cache : IndexCache) (inserting_len : N) : N :=
  fold_left (fun total key => match cache !! key with
                              | Some entry => saturating_add_u64 total (ci_len entry)
                              | None => total
                              end)
    (hash_keys cache) inserting_len.

(** Every turn removes an entry. *)
Fixpoint trim_loop `{HashKeys} (fuel : nat) (cache : IndexCache) (inserting_path : bytes)
  (inserting_len : N) : IndexCache :=
  if (PACK_INDEX_CACHE_ENTRY_LIMIT <=? size cache)
     || (PACK_INDEX_CACHE_BYTE_LIMIT <? pack_index_cache_len_for_insert cache inserting_len)%N
  then
    match fuel with
    | 0 => cache
    | S fuel =>
        match list_find (fun path => path <> inserting_path) (hash_keys cache) with
        | None => cache
        | Some (_, stale_path) => trim_loop fuel (delete stale_path cache) inserting_path inserting_len
        end
    end
  else cache.

Definition trim_pack_index_cache_for_insert `{HashKeys} (cache : IndexCache) (inserting_path : bytes)
  (inserting_len : N) : IndexCache :=
  let cache := delete inserting_path cache in
  trim_loop (size cache) cache inserting_path inserting_len.

Definition pack_index_cache_should_store (len : N) : bool := (len <=? PACK_INDEX_CACHE_BYTE_LIMIT)%N.

(** ** The store: its configuration and the caches it and the process hold *)

Record PackedObjectStore : Set := MkPackedStore {
  pos_algorithm : GitHashAlgorithm;
  pos_max_object_bytes : N
}.

Definition packed_new (alg : GitHashAlgorithm) : PackedObjectStore := MkPackedStore alg (512 * 1024 * 1024).

Definition with_max_object_bytes (s : PackedObjectStore) (max_object_bytes : N) : PackedObjectStore :=
  MkPackedStore (pos_algorithm s) max_object_bytes.

Record CachedPackIndexPaths : Set := MkCachedPaths {
  cp_modified : option N;
  cp_len : N;
  cp_paths : list bytes
}.

Record CachedLastPackIndexLookup : Set := MkLastLookup {
  ll_idx_path : bytes;
  ll_pack_path : bytes;
  ll_modified : option N;
  ll_len : N;
  ll_index : PackIndex
}.

(** An open file keeps the bytes it was opened on. *)
Record CachedLastPackFile : Set := MkLastFile {
  lf_pack_path : bytes;
  lf_modified : option N;
  lf_len : N;
  lf_file : Cursor
}.

Record Caches : Type := MkCaches {
  idx_paths_cache : option CachedPackIndexPaths;
  last_index_lookup : option CachedLastPackIndexLookup;
  last_pack_file : option CachedLastPackFile;
  object_read_cache : PackObjectReadCache;
  pack_index_cache : IndexCache
}.

Definition no_caches : Caches := MkCaches None None None ReadCache.empty ∅.

Definition set_idx_paths (p : option CachedPackIndexPaths) (s : Caches) : Caches :=
  MkCaches p (last_index_lookup s) (last_pack_file s) (object_read_cache s) (pack_index_cache s).

Definition set_last_lookup (l : option CachedLastPackIndexLookup) (s : Caches) : Caches :=
  MkCaches (idx_paths_cache s) l (last_pack_file s) (object_read_cache s) (pack_index_cache s).

Definition set_last_file (f : option CachedLastPackFile) (c : PackObjectReadCache) (s : Caches) : Caches :=
  MkCaches (idx_paths_cache s) (last_index_lookup s) f c (pack_index_cache s).

Definition set_read_cache (c : PackObjectReadCache) (s : Caches) : Caches :=
  set_last_file (last_pack_file s) c s.

Definition set_index_cache (m : IndexCache) (s : Caches) : Caches :=
  MkCaches (idx_paths_cache s) (last_index_lookup s) (last_pack_file s) (object_read_cache s) m.

Record PackIndexLookup : Set := MkLookup {
  lk_pack_path : bytes;
  lk_index : PackIndex;
  lk_offset : N
}.

Inductive ObjectStorageHint : Set := HintLoose | HintPacked | HintUnknown.

Section store.
Context `{Sha, HashKeys} {D : Type} `{ZlibDecoder bytes D}.

(** Where a decoder that reads a file through its buffer leaves the file: anywhere.  Every use of the
    file begins with a seek. *)
Context (left_at : Cursor -> N).

Definition decode_file {A} (f : bytes -> outcome A) : rd Cursor A := fun c =>
  (f (cursor_rest c), set_position c (left_at c)).

(** *** The indexes of the pack directory *)

Definition read_index (fs : ObjectsFs) (path : bytes) (alg : GitHashAlgorithm) : outcome PackIndex :=
  f ← open fs path;
  read_bytes (file_bytes f) alg.

Definition same_paths (dir : PackDir) (p : CachedPackIndexPaths) : bool :=
  bool_decide (cp_modified p = pd_modified dir) && (cp_len p =? pd_len dir)%N.

Definition idx_paths (fs : ObjectsFs) : rd Caches (list bytes) := fun s =>
  match fs_pack_dir fs with
  | None => (Ok [], s)
  | Some dir =>
      let listed :=
        let paths := sort_by cmp_bytes
          (filter (fun path => extension path = Some (bstr "idx")) (pd_paths dir)) in
        (Ok paths, set_idx_paths (Some (MkCachedPaths (pd_modified dir) (pd_len dir) paths)) s) in
      match idx_paths_cache s with
      | Some entry => if same_paths dir entry then (Ok (cp_paths entry), s) else listed
      | None => listed
      end
  end.

Definition read_cached_pack_index (fs : ObjectsFs) (path : bytes) (alg : GitHashAlgorithm)
  : rd Caches PackIndex := fun s =>
  match open fs path with
  | Ok f =>
      let read :=
        match read_index fs path alg with
        | Ok index =>
            let cache := pack_index_cache s in
            let cache :=
              if pack_index_cache_should_store (file_len f) then
                <[path := MkCachedIndex (file_modified f) (file_len f) index]>
                  (trim_pack_index_cache_for_insert cache path (file_len f))
              else delete path cache in
            (Ok index, set_index_cache cache s)
        | Err e => (Err e, s)
        | Panic => (Panic, s)
        | NoFuel => (NoFuel, s)
        end in
      match pack_index_cache s !! path with
      | Some entry =>
          if bool_decide (ci_modified entry = file_modified f) && (ci_len entry =? file_len f)%N
          then (Ok (ci_index entry), s) else read
      | None => read
      end
  | Err e => (Err e, s)
  | Panic => (Panic, s)
  | NoFuel => (NoFuel, s)
  end.

(** What the last index to have an object knows about another. *)
Definition lookup_in_last (lookup : CachedLastPackIndexLookup) (id : ObjectId)
  : outcome (option PackIndexLookup) :=
  offset ← offset_for (ll_index lookup) id;
  Ok (match offset with
      | Some offset => Some (MkLookup (ll_pack_path lookup) (ll_index lookup) offset)
      | None => None
      end).

(** The last index that had an object is asked first, unless its file changed: what it found, or the
    path that need not be asked again. *)
Definition ask_last_lookup (fs : ObjectsFs) (id : ObjectId)
  : rd Caches (option PackIndexLookup * option bytes) := fun s =>
  match last_index_lookup s with
  | None => (Ok (None, None), s)
  | Some lookup =>
      match open fs (ll_idx_path lookup) with
      | Ok f =>
          if bool_decide (ll_modified lookup = file_modified f) && (ll_len lookup =? file_len f)%N then
            (found <~ rlift (lookup_in_last lookup id); rret (found, Some (ll_idx_path lookup))) s
          else (Ok (None, None), set_last_lookup None s)
      | Err e =>
          if decide (err_kind e = NotFound) then (Ok (None, None), set_last_lookup None s) else (Err e, s)
      | Panic => (Panic, s)
      | NoFuel => (NoFuel, s)
      end
  end.

Fixpoint search_indexes (fs : ObjectsFs) (alg : GitHashAlgorithm) (id : ObjectId)
  (checked_last_idx_path : option bytes) (idx_paths : list bytes) : rd Caches (option PackIndexLookup) :=
  match idx_paths with
  | [] => rret None
  | idx_path :: idx_paths =>
      if decide (checked_last_idx_path = Some idx_path)
      then search_indexes fs alg id checked_last_idx_path idx_paths else fun s =>
      match read_cached_pack_index fs idx_path alg s with
      | (Ok index, s) =>
          (offset <~ rlift (offset_for index id);
           match offset with
           | None => search_indexes fs alg id checked_last_idx_path idx_paths
           | Some offset =>
               f <~ rlift (open fs idx_path);
               let pack_path := with_extension idx_path (bstr "pack") in
               fun s => (Ok (Some (MkLookup pack_path index offset)),
                         set_last_lookup
                           (Some (MkLastLookup idx_path pack_path (file_modified f) (file_len f) index)) s)
           end) s
      | (Err e, s) =>
          if decide (err_kind e = NotFound)
          then search_indexes fs alg id checked_last_idx_path idx_paths s else (Err e, s)
      | (Panic, s) => (Panic, s)
      | (NoFuel, s) => (NoFuel, s)
      end
  end.

Definition lookup_pack_index_for (st : PackedObjectStore) (fs : ObjectsFs) (id : ObjectId)
  : rd Caches (option PackIndexLookup) :=
  '(found, checked_last_idx_path) <~ ask_last_lookup fs id;
  match found with
  | Some lookup => rret (Some lookup)
  | None =>
      idx_paths <~ idx_paths fs;
      search_indexes fs (pos_algorithm st) id checked_last_idx_path idx_paths
  end.

(** *** Files and the state of a read: the cache of objects, and the open file *)

Definition validate_pack_header : rd Cursor unit :=
  _ <~ seek 0;
  header <~ read_exact 12;
  rlift (_ ← parse_pack_header_bytes header; Ok tt).

Definition ReadState : Type := PackObjectReadCache * Cursor.

Definition on_file {A} (m : rd Cursor A) : rd ReadState A := fun '(cache, file) =>
  let '(o, file) := m file in (o, (cache, file)).

Definition cached_pack_object (pack_path : bytes) (offset : N)
  : rd ReadState (option (GitObjectKind * bytes)) :=
  fun s => (Ok (ReadCache.get s.1 (pack_path, offset)), s).

Definition cache_pack_object (pack_path : bytes) (offset : N) (kind : GitObjectKind) (content : bytes)
  : rd ReadState unit :=
  fun s => (Ok tt, (ReadCache.insert s.1 (pack_path, offset) kind content, s.2)).

(** The open file is reused while the metadata of its path are those it was opened with. *)
Definition with_validated_pack_file {A} (fs : ObjectsFs) (pack_path : bytes) (read : N -> rd ReadState A)
  : rd Caches A := fun s =>
  match open fs pack_path with
  | Ok f =>
      let run file s :=
        let '(o, (cache, file)) := read (file_len f) (object_read_cache s, file) in
        (o, set_last_file (Some (MkLastFile pack_path (file_modified f) (file_len f) file)) cache s) in
      let reopen :=
        match validate_pack_header (MkCursor (file_bytes f) 0) with
        | (Ok _, file) => run file s
        | (Err e, _) => (Err e, s)
        | (Panic, _) => (Panic, s)
        | (NoFuel, _) => (NoFuel, s)
        end in
      match last_pack_file s with
      | Some cached =>
          if bool_decide (lf_pack_path cached = pack_path)
             && bool_decide (lf_modified cached = file_modified f) && (lf_len cached =? file_len f)%N
          then run (lf_file cached) s else reopen
      | None => reopen
      end
  | Err e => (Err e, s)
  | Panic => (Panic, s)
  | NoFuel => (NoFuel, s)
  end.

(** *** Reading an object through its delta chain *)

Definition ref_base_offset (index : PackIndex) (base_id : ObjectId) : outcome N :=
  base_offset ← offset_for index base_id;
  ok_or base_offset InvalidData "ref-delta base object not found".

(** The delta at the current position on the base that [read_base] reads. *)
Definition read_delta_on (max_object_bytes size : N) (read_base : rd ReadState (GitObjectKind * bytes))
  : rd ReadState (GitObjectKind * bytes) :=
  delta_start <~ on_file position;
  '(kind, base) <~ read_base;
  _ <~ on_file (seek delta_start);
  content <~ on_file (decode_file (fun rest => apply_zlib_delta_from_reader (D := D) rest base size max_object_bytes));
  rret (kind, content).

(** The entry at an offset, where [read_base] reads the base of a delta. *)
Definition decode_entry (st : PackedObjectStore) (index : PackIndex) (offset : N)
  (read_base : N -> rd ReadState (GitObjectKind * bytes)) : rd ReadState (GitObjectKind * bytes) :=
  _ <~ on_file (seek offset);
  header <~ on_file read_pack_object_header;
  match header with
  | Base kind size =>
      content <~ on_file (decode_file (fun rest =>
        read_zlib_content (D := D) rest (pos_max_object_bytes st) size));
      _ <~ rlift (validate_packed_inflated_size size (N.of_nat (length content)));
      rret (kind, content)
  | OfsDelta size =>
      base_offset <~ on_file (read_base_offset offset);
      read_delta_on (pos_max_object_bytes st) size (read_base base_offset)
  | RefDelta size =>
      base_id <~ on_file (read_base_id (pos_algorithm st));
      base_offset <~ rlift (ref_base_offset index base_id);
      read_delta_on (pos_max_object_bytes st) size (read_base base_offset)
  end.

(** The fuel is what the depth limit leaves: see [read_at]. *)
Fixpoint read_pack_object_at (fuel : nat) (st : PackedObjectStore) (pack_path : bytes) (index : PackIndex)
  (offset : N) (depth : nat) : rd ReadState (GitObjectKind * bytes) :=
  if MAX_DELTA_DEPTH <? depth then rlift (fail InvalidData "packed delta chain is too deep") else
  match fuel with
  | 0 => rlift NoFuel
  | S fuel =>
      cached <~ cached_pack_object pack_path offset;
      match cached with
      | Some cached => rret cached
      | None =>
          decoded <~ decode_entry st index offset
            (fun base_offset => read_pack_object_at fuel st pack_path index base_offset (depth + 1));
          _ <~ cache_pack_object pack_path offset decoded.1 decoded.2;
          rret decoded
      end
  end.

(** A chain visits the depths 0 to [MAX_DELTA_DEPTH]. *)
Definition read_at (st : PackedObjectStore) (pack_path : bytes) (index : PackIndex) (offset : N)
  : rd ReadState (GitObjectKind * bytes) :=
  read_pack_object_at (S MAX_DELTA_DEPTH) st pack_path index offset 0.

Definition check_packed_object (st : PackedObjectStore) (id : ObjectId) (kind : GitObjectKind)
  (content : bytes) : outcome LooseObject :=
  actual ← hash_object (pos_algorithm st) kind content;
  _ ← check (negb (bool_decide (actual = id))) InvalidData "packed git object hash mismatch";
  Ok (MkLooseObject id kind content).

Definition read_pack_object (st : PackedObjectStore) (fs : ObjectsFs) (pack_path : bytes)
  (index : PackIndex) (offset : N) (id : ObjectId) : rd Caches LooseObject := fun s =>
  match ReadCache.get (object_read_cache s) (pack_path, offset) with
  | Some (kind, content) => (check_packed_object st id kind content, s)
  | None =>
      ('(kind, content) <~ with_validated_pack_file fs pack_path (fun _ => read_at st pack_path index offset);
       fun s =>
         (check_packed_object st id kind content,
          set_read_cache (ReadCache.insert (object_read_cache s) (pack_path, offset) kind content) s)) s
  end.

Definition check_algorithm (st : PackedObjectStore) (id : ObjectId) : outcome unit :=
  check (negb (bool_decide (algorithm id = pos_algorithm st))) InvalidInput
    "object id algorithm does not match packed store".

Definition packed_read_object (st : PackedObjectStore) (fs : ObjectsFs) (id : ObjectId)
  : rd Caches LooseObject :=
  _ <~ rlift (check_algorithm st id);
  lookup <~ lookup_pack_index_for st fs id;
  match lookup with
  | Some lookup => read_pack_object st fs (lk_pack_path lookup) (lk_index lookup) (lk_offset lookup) id
  | None => rlift (fail NotFound "packed git object not found")
  end.

(** *** Prefixes of blobs *)

Definition read_pack_blob_prefix (st : PackedObjectStore) (fs : ObjectsFs) (pack_path : bytes)
  (offset max_bytes : N) : rd Caches (option bytes) :=
  with_validated_pack_file fs pack_path (fun _ =>
    _ <~ on_file (seek offset);
    header <~ on_file read_pack_object_header;
    match header with
    | Base Blob size =>
        content <~ on_file (decode_file (fun rest =>
          read_zlib_content_prefix (D := D) rest (pos_max_object_bytes st) size max_bytes));
        rret (Some content)
    | Base _ _ | OfsDelta _ | RefDelta _ => rret None
    end).

Definition packed_read_blob_prefix (st : PackedObjectStore) (fs : ObjectsFs) (id : ObjectId) (max_bytes : N)
  : rd Caches (option bytes) :=
  _ <~ rlift (check_algorithm st id);
  lookup <~ lookup_pack_index_for st fs id;
  match lookup with
  | Some lookup => read_pack_blob_prefix st fs (lk_pack_path lookup) (lk_offset lookup) max_bytes
  | None => rret None
  end.

(** *** Kinds and sizes without contents *)

Definition check_delta_hint (st : PackedObjectStore) (base : GitObjectKind * N)
  (delta_base_size result_size : N) : outcome (GitObjectKind * N) :=
  _ ← check (negb (delta_base_size =? base.2)%N) InvalidData "delta base size mismatch";
  _ ← check (pos_max_object_bytes st <? result_size)%N InvalidData
        "delta result exceeds configured size limit";
  Ok (base.1, result_size).

(** [read_pack_object_hint_at] and [read_delta_object_hint], which call each other.  A hint is always
    found here, so the option is [Some]. *)
Fixpoint read_pack_object_hint_at (fuel : nat) (st : PackedObjectStore) (index : PackIndex)
  (offset : N) (depth : nat) : rd Cursor (option (GitObjectKind * N)) :=
  if MAX_DELTA_DEPTH <? depth then rlift (fail InvalidData "packed delta chain is too deep") else
  match fuel with
  | 0 => rlift NoFuel
  | S fuel =>
      let read_delta_object_hint base_offset size :=
        '(delta_base_size, result_size) <~ decode_file (fun rest =>
           read_zlib_delta_base_and_result_size (D := D) rest (pos_max_object_bytes st) size);
        base <~ read_pack_object_hint_at fuel st index base_offset (depth + 1);
        match base with
        | None => rret None
        | Some base =>
            hint <~ rlift (check_delta_hint st base delta_base_size result_size);
            rret (Some hint)
        end in
      _ <~ seek offset;
      header <~ read_pack_object_header;
      match header with
      | Base kind size => rret (Some (kind, size))
      | OfsDelta size =>
          base_offset <~ read_base_offset offset;
          read_delta_object_hint base_offset size
      | RefDelta size =>
          base_id <~ read_base_id (pos_algorithm st);
          base_offset <~ rlift (ref_base_offset index base_id);
          read_delta_object_hint base_offset size
      end
  end.

Definition hint_at (st : PackedObjectStore) (index : PackIndex) (offset : N)
  : rd Cursor (option (GitObjectKind * N)) :=
  read_pack_object_hint_at (S MAX_DELTA_DEPTH) st index offset 0.

Definition packed_object_hint (st : PackedObjectStore) (fs : ObjectsFs) (pack_path : bytes)
  (index : PackIndex) (offset : N) : rd Caches (option (GitObjectKind * N)) :=
  with_validated_pack_file fs pack_path (fun _ => on_file (hint_at st index offset)).

Definition base_object_hint (st : PackedObjectStore) (fs : ObjectsFs) (id : ObjectId)
  : rd Caches (option (GitObjectKind * N)) :=
  _ <~ rlift (check_algorithm st id);
  lookup <~ lookup_pack_index_for st fs id;
  match lookup with
  | Some lookup => packed_object_hint st fs (lk_pack_path lookup) (lk_index lookup) (lk_offset lookup)
  | None => rret None
  end.

(** [contains_object], [object_storage_hint] and the hints of the trait. *)
Definition packed_contains_object (st : PackedObjectStore) (fs : ObjectsFs) (id : ObjectId)
  : rd Caches bool :=
  _ <~ rlift (check_algorithm st id);
  lookup <~ lookup_pack_index_for st fs id;
  rret (bool_decide (is_Some lookup)).

Definition packed_object_storage_hint (st : PackedObjectStore) (fs : ObjectsFs) (id : ObjectId)
  : rd Caches ObjectStorageHint :=
  contained <~ packed_contains_object st fs id;
  rret (if contained : bool then HintPacked else HintUnknown).

(** An object that is not there is no error. *)
Definition if_found {A B} (m : rd Caches A) (f : A -> option B) : rd Caches (option B) := fun s =>
  match m s with
  | (Ok a, s) => (Ok (f a), s)
  | (Err e, s) => if decide (err_kind e = NotFound) then (Ok None, s) else (Err e, s)
  | (Panic, s) => (Panic, s)
  | (NoFuel, s) => (NoFuel, s)
  end.

Definition packed_object_kind_hint (st : PackedObjectStore) (fs : ObjectsFs) (id : ObjectId)
  : rd Caches (option GitObjectKind) :=
  hint <~ base_object_hint st fs id;
  match hint with
  | Some (kind, _) => rret (Some kind)
  | None => if_found (packed_read_object st fs id) (fun object => Some (lo_kind object))
  end.

Definition packed_blob_size_hint (st : PackedObjectStore) (fs : ObjectsFs) (id : ObjectId)
  : rd Caches (option N) :=
  hint <~ base_object_hint st fs id;
  match hint with
  | Some (Blob, size) => rret (Some size)
  | Some _ => rret None
  | None =>
      if_found (packed_read_object st fs id) (fun object =>
        if decide (lo_kind object = Blob) then Some (N.of_nat (length (lo_content object))) else None)
  end.

Definition delta_base_hint (st : PackedObjectStore) (fs : ObjectsFs) (id : ObjectId)
  : rd Caches (option ObjectId) :=
  _ <~ rlift (check_algorithm st id);
  lookup <~ lookup_pack_index_for st fs id;
  match lookup with
  | None => rret None
  | Some lookup =>
      with_validated_pack_file fs (lk_pack_path lookup) (fun _ => on_file (
        _ <~ seek (lk_offset lookup);
        header <~ read_pack_object_header;
        match header with
        | Base _ _ => rret None
        | OfsDelta _ =>
            base_offset <~ read_base_offset (lk_offset lookup);
            rlift (index_object_id_for_offset (lk_index lookup) base_offset)
        | RefDelta _ =>
            base_id <~ read_base_id (pos_algorithm st);
            rret (Some base_id)
        end))
  end.

Definition object_disk_size_hint (st : PackedObjectStore) (fs : ObjectsFs) (id : ObjectId)
  : rd Caches (option N) :=
  _ <~ rlift (check_algorithm st id);
  lookup <~ lookup_pack_index_for st fs id;
  match lookup with
  | None => rret None
  | Some lookup => rlift (
      f ← open fs (lk_pack_path lookup);
      pack_payload_end ← ok_or (checked_subN (file_len f) (N.of_nat (digest_len (pos_algorithm st))))
                           InvalidData "pack file is too short";
      next_offset ← index_next_offset_after (lk_index lookup) (lk_offset lookup);
      let next_offset := default pack_payload_end next_offset in
      _ ← check (next_offset <? lk_offset lookup)%N InvalidData
            "pack index object offsets are not ordered";
      Ok (Some (next_offset - lk_offset lookup)%N))
  end.

(** *** Entries copied out of a pack: the content is hashed first, or while it is written *)

(** The loop of [verify_or_write_packed_base_object_content], with what it has written: every turn but
    the last inflates a byte, and one beyond the declared size is an error. *)
Fixpoint verify_content_loop (fuel : nat) (size : N) (inflated : N) (h : GitObjectHash) (out : bytes)
  : rd D (N * GitObjectHash * bytes) :=
  match fuel with
  | 0 => rlift NoFuel
  | S fuel =>
      read_limit <~ rlift (zlib_expected_remaining_read_limit (N.to_nat inflated) size);
      let read_len := N.min read_limit PACK_ZLIB_STREAM_BUFFER_CAPACITY in
      read <~ (fun decoder => reader_read decoder (N.to_nat read_len));
      match read with
      | [] => rret (inflated, h, out)
      | _ =>
          inflated <~ rlift (ok_or (checked_addN inflated (N.of_nat (length read))) InvalidData
                               "packed object size overflows u64");
          _ <~ rlift (check (size <? inflated)%N InvalidData "packed object inflated beyond declared size");
          verify_content_loop fuel size inflated (hash_update h read) (out ++ read)
      end
  end.

(** The compressed length, and what a writer was given. *)
Definition verify_or_write_packed_base_object_content (source : bytes) (max_compressed_len : N)
  (alg : GitHashAlgorithm) (kind : GitObjectKind) (size : N) (expected : ObjectId) : outcome (N * bytes) :=
  h ← update_header (hash_new alg) kind (N.to_nat size);
  match verify_content_loop (N.to_nat size + 2) size 0 h []
          (zlib_new (take (N.to_nat max_compressed_len) source)) with
  | (Ok (inflated, h, out), decoder) =>
      _ ← check (negb (inflated =? size)%N) InvalidData "packed object inflated size mismatch";
      id ← hash_finalize h;
      _ ← check (negb (bool_decide (id = expected))) InvalidData "packed git object hash mismatch";
      Ok (total_in decoder, out)
  | (Err e, _) => Err e
  | (Panic, _) => Panic
  | (NoFuel, _) => NoFuel
  end.

Definition pack_data_end_from_len (pack_len : N) (alg : GitHashAlgorithm) : outcome N :=
  ok_or (checked_subN pack_len (N.of_nat (digest_len alg))) InvalidData
    "pack file is shorter than its checksum".

Definition PACK_REUSABLE_ENTRY_COPY_BUFFER_CAPACITY : N := 64 * 1024.

(** Copies [len] bytes through the buffer: what a writer is given. *)
Fixpoint copy_loop (fuel : nat) (buffer_len remaining : N) (out : bytes) : rd Cursor bytes :=
  if (remaining =? 0)%N then rret out else
  match fuel with
  | 0 => rlift NoFuel
  | S fuel => fun file =>
      let read_len := N.min remaining buffer_len in
      match read_exact (N.to_nat read_len) file with
      | (Ok bs, file) => copy_loop fuel buffer_len (remaining - read_len)%N (out ++ bs) file
      | (Err e, file) =>
          (Err (if decide (err_kind e = UnexpectedEof)
                then IoError UnexpectedEof "packed object entry ended before expected length" else e), file)
      | (Panic, file) => (Panic, file)
      | (NoFuel, file) => (NoFuel, file)
      end
  end.

Definition copy_pack_entry_exact_with_buffer (len buffer_len : N) : rd Cursor bytes :=
  copy_loop (N.to_nat len) buffer_len len [].

(** The position of a base entry's content, or nothing if the entry is a delta. *)
Definition base_content_start (st : PackedObjectStore) (pack_data_end offset : N)
  (wanted : GitObjectKind -> bool) : rd Cursor (option (GitObjectKind * N * N)) :=
  _ <~ seek offset;
  header <~ read_pack_object_header;
  match header with
  | Base kind size =>
      if negb (wanted kind) then rret None else
      _ <~ rlift (check (pos_max_object_bytes st <? size)%N InvalidData
                    "packed git object exceeds configured size limit");
      content_start <~ position;
      _ <~ rlift (check (pack_data_end <=? content_start)%N InvalidData
                    "packed object entry is truncated");
      rret (Some (kind, size, content_start))
  | OfsDelta _ | RefDelta _ => rret None
  end.

(** [try_write_reusable_pack_object_inner_with_buffer]: the entry, when it is a base object. *)
Definition reusable_pack_entry (st : PackedObjectStore) (lookup : PackIndexLookup) (id : ObjectId)
  (buffer_len pack_len : N) : rd Cursor (option bytes) :=
  pack_data_end <~ rlift (pack_data_end_from_len pack_len (pos_algorithm st));
  found <~ base_content_start st pack_data_end (lk_offset lookup) (fun _ => true);
  match found with
  | None => rret None
  | Some (kind, size, content_start) =>
      '(compressed_len, _) <~ decode_file (fun rest =>
         verify_or_write_packed_base_object_content rest (pack_data_end - content_start)
           (pos_algorithm st) kind size id);
      entry_end <~ rlift (ok_or (checked_addN content_start compressed_len) InvalidData
                            "packed object entry range is invalid");
      _ <~ rlift (check (pack_data_end <? entry_end)%N InvalidData
                    "packed object entry extends beyond pack data");
      _ <~ seek (lk_offset lookup);
      entry_len <~ rlift (ok_or (checked_subN entry_end (lk_offset lookup)) InvalidData
                            "packed object entry range is invalid");
      out <~ copy_pack_entry_exact_with_buffer entry_len buffer_len;
      rret (Some out)
  end.

Definition try_write_reusable_pack_object (st : PackedObjectStore) (fs : ObjectsFs) (id : ObjectId)
  : rd Caches (option bytes) :=
  _ <~ rlift (check_algorithm st id);
  lookup <~ lookup_pack_index_for st fs id;
  match lookup with
  | None => rret None
  | Some lookup =>
      with_validated_pack_file fs (lk_pack_path lookup) (fun pack_len => on_file
        (reusable_pack_entry st lookup id PACK_REUSABLE_ENTRY_COPY_BUFFER_CAPACITY pack_len))
  end.

(** [try_write_blob_inner]: the content of a blob that is stored as a base object. *)
Definition try_write_blob (st : PackedObjectStore) (fs : ObjectsFs) (id : ObjectId)
  : rd Caches (option bytes) :=
  _ <~ rlift (check_algorithm st id);
  lookup <~ lookup_pack_index_for st fs id;
  match lookup with
  | None => rret None
  | Some lookup =>
      with_validated_pack_file fs (lk_pack_path lookup) (fun pack_len => on_file (
        pack_data_end <~ rlift (pack_data_end_from_len pack_len (pos_algorithm st));
        found <~ base_content_start st pack_data_end (lk_offset lookup)
                   (fun kind => bool_decide (kind = Blob));
        match found with
        | None => rret None
        | Some (kind, size, content_start) =>
            '(_, out) <~ decode_file (fun rest =>
               verify_or_write_packed_base_object_content rest (pack_data_end - content_start)
                 (pos_algorithm st) kind size id);
            rret (Some out)
        end))
  end.

(** *** Prefixes of ids *)

Definition is_ascii_hexdigit (b : byte) : bool :=
  let n := u8 b in
  ((48 <=? n) && (n <=? 57) || (97 <=? n) && (n <=? 102) || (65 <=? n) && (n <=? 70))%N.

Definition validate_hex_prefix (hex_prefix : bytes) (alg : GitHashAlgorithm) : outcome unit :=
  let max := digest_len alg * 2 in
  _ ← check ((length hex_prefix <? 4) || (max <? length hex_prefix)) InvalidInput
        "git object id prefix has the wrong length";
  check (negb (forallb is_ascii_hexdigit hex_prefix)) InvalidInput
    "git object id prefix contains non-hex characters".

Fixpoint collect_prefix_loop (fs : ObjectsFs) (alg : GitHashAlgorithm) (hex_prefix : bytes)
  (idx_paths : list bytes) (resolved : option ObjectId) : rd Caches (option ObjectId) :=
  match idx_paths with
  | [] => rret resolved
  | idx_path :: idx_paths =>
      index <~ read_cached_pack_index fs idx_path alg;
      resolved <~ rlift (collect_prefix index hex_prefix resolved);
      collect_prefix_loop fs alg hex_prefix idx_paths resolved
  end.

Definition packed_collect_prefix (st : PackedObjectStore) (fs : ObjectsFs) (hex_prefix : bytes)
  (resolved : option ObjectId) : rd Caches (option ObjectId) :=
  _ <~ rlift (validate_hex_prefix hex_prefix (pos_algorithm st));
  idx_paths <~ idx_paths fs;
  collect_prefix_loop fs (pos_algorithm st) hex_prefix idx_paths resolved.

Definition packed_resolve_prefix (st : PackedObjectStore) (fs : ObjectsFs) (hex_prefix : bytes)
  : rd Caches ObjectId :=
  _ <~ rlift (validate_hex_prefix hex_prefix (pos_algorithm st));
  if length hex_prefix =? digest_len (pos_algorithm st) * 2
  then rlift (from_hex_bytes (pos_algorithm st) hex_prefix)
  else
    resolved <~ packed_collect_prefix st fs hex_prefix None;
    rlift (ok_or resolved NotFound "packed git object not found").

(** *** Counts and names *)

(** The header of an index, read without the rest. *)
Definition pack_index_object_count (fs : ObjectsFs) (path : bytes) : outcome nat :=
  f ← open fs (pack_index_path path);
  header ← (read_exact (8 + 256 * 4) (MkCursor (file_bytes f) 0)).1;
  pack_index_object_count_from_header header.

Fixpoint has_object_ids_loop (fs : ObjectsFs) (idx_paths : list bytes) : outcome bool :=
  match idx_paths with
  | [] => Ok false
  | idx_path :: idx_paths =>
      count ← pack_index_object_count fs idx_path;
      if 0 <? count then Ok true else has_object_ids_loop fs idx_paths
  end.

Definition has_object_ids (fs : ObjectsFs) : rd Caches bool :=
  idx_paths <~ idx_paths fs;
  rlift (has_object_ids_loop fs idx_paths).

(** The names of the packs that have an index; a name that is not UTF-8 is left out. *)
Definition pack_names (fs : ObjectsFs) : rd Caches (list bytes) :=
  idx_paths <~ idx_paths fs;
  rret (filter (fun name => utf8_valid name = true)
    (map file_name
       (filter (fun path => is_Some (fs_files fs !! path))
          (map (fun idx_path => with_extension idx_path (bstr "pack")) idx_paths)))).
End store.
