(* ===== verification/PackStoreRead.v ===== *)
(** * Reading from packs: what the caches keep, and that a read returns the object its delta chain
      stands for *)
From S2P Require Import Prelude Order Object Store Reader PackHeader Zlib DeltaRead PackWrite PackParse.
From S2P Require Import PackIndex PackStore.

(** ** The cache of objects stays within its budget *)

Module ReadCacheSpec.
Import ReadCache.

Definition held (m : gmap PackObjectReadCacheKey CachedPackObjectRead) : N :=
  map_fold (fun _ entry total => cr_len entry + total)%N 0%N m.

(** The queue holds every key once, and the counter is the number of bytes held. *)
Definition consistent (c : PackObjectReadCache) : Prop :=
  NoDup (order c) /\ (forall k, k ∈ order c <-> is_Some (entries c !! k)) /\ bytes_held c = held (entries c).

Definition within_budget (c : PackObjectReadCache) : Prop :=
  (bytes_held c <= PACK_OBJECT_READ_CACHE_BYTE_LIMIT)%N /\
  size (entries c) <= PACK_OBJECT_READ_CACHE_ENTRY_LIMIT.

Definition cache_wf (c : PackObjectReadCache) : Prop := consistent c /\ within_budget c.

Lemma held_insert m k e : m !! k = None -> held (<[k := e]> m) = (cr_len e + held m)%N.
Proof. intros Hk. unfold held. rewrite map_fold_insert_L; [done| |done]. intros. lia. Qed.

Lemma held_delete m k e : m !! k = Some e -> held m = (cr_len e + held (delete k m))%N.
Proof.
  intros Hk. rewrite <- (insert_delete_id m k e) at 1 by done. apply held_insert, lookup_delete_eq.
Qed.

Lemma held_replace m k e e' :
  m !! k = Some e -> held (<[k := e']> m) = (held m - cr_len e + cr_len e')%N.
Proof.
  intros Hk. rewrite (held_delete m k e Hk), <- insert_delete_eq, held_insert by apply lookup_delete_eq. lia.
Qed.

(** Evicting from the front of the queue ends within the budget, with some of the entries. *)
Lemma read_cache_evict_spec q : forall m held_now,
  consistent (MkReadCache m q held_now) ->
  cache_wf (evict_loop m q held_now) /\ entries (evict_loop m q held_now) ⊆ m /\
  exists n, order (evict_loop m q held_now) = drop n q.
Proof.
  induction q as [|k q IH]; intros m held_now Hc; cbn [evict_loop];
    destruct ((_ <? held_now)%N || _) eqn:Eb;
    try (apply orb_false_iff in Eb as [Eb1%N.ltb_ge Eb2%Nat.ltb_ge];
         split; [by split|]; split; [done|by exists 0]).
  - destruct Hc as (_ & Hd & Hh). cbn in Hd, Hh.
    assert (m = ∅) as ->.
    { apply map_empty. intros k. apply eq_None_not_Some. intros Hk%Hd. by apply not_elem_of_nil in Hk. }
    unfold held in Hh. rewrite map_fold_empty in Hh. subst. by vm_compute in Eb.
  - destruct Hc as (Hn & Hd & Hh). cbn in Hn, Hd, Hh. apply NoDup_cons in Hn as [Hk Hn].
    destruct (proj1 (Hd k)) as [e He]; [by left|]. rewrite He.
    destruct (IH (delete k m) (held_now - cr_len e)%N) as (H1 & H2 & n & H3).
    + split; [done|]. split; cbn.
      * intros k'. rewrite lookup_delete_is_Some. rewrite <- Hd, elem_of_cons. naive_solver.
      * rewrite Hh, (held_delete m k e He). lia.
    + split; [done|]. split; [etrans; [exact H2|apply delete_subseteq]|]. by exists (S n).
Qed.

Lemma within_limit_add a b :
  (a <= PACK_OBJECT_READ_CACHE_BYTE_LIMIT)%N -> (b <= PACK_OBJECT_READ_CACHE_BYTE_LIMIT)%N ->
  saturating_add a b = (a + b)%N.
Proof.
  unfold saturating_add, PACK_OBJECT_READ_CACHE_BYTE_LIMIT. change usize_limit with 18446744073709551616%N. lia.
Qed.

(** A new entry, before eviction. *)
Lemma consistent_push c key kind content :
  cache_wf c -> (N.of_nat (length content) <= PACK_OBJECT_READ_CACHE_BYTE_LIMIT)%N -> entries c !! key = None ->
  consistent (MkReadCache (<[key := MkCachedRead kind content]> (entries c)) (order c ++ [key])
                (saturating_add (bytes_held c) (N.of_nat (length content)))).
Proof.
  intros [[Hn [Hd Hh]] [Hb _]] Hl Ek. rewrite within_limit_add by done. split; [|split]; cbn.
  - apply NoDup_app. split; [done|]. split; [|by apply NoDup_singleton].
    intros k Hk ->%list_elem_of_singleton. apply Hd in Hk as [? Hk]. by rewrite Ek in Hk.
  - intros k. rewrite elem_of_app, Hd, list_elem_of_singleton.
    destruct (decide (k = key)) as [->|Hk]; [rewrite lookup_insert_eq; naive_solver|].
    rewrite lookup_insert_ne by done. naive_solver.
  - rewrite held_insert, Hh by done. unfold cr_len. cbn [cr_content]. lia.
Qed.

Lemma insert_wf_spec c key kind content :
  cache_wf c ->
  cache_wf (insert c key kind content) /\
  entries (insert c key kind content) ⊆ <[key := MkCachedRead kind content]> (entries c) \/
  insert c key kind content = c.
Proof.
  intros Hwf. pose proof Hwf as [[Hn [Hd Hh]] [Hb _]]. unfold insert. cbv zeta.
  destruct (_ <? N.of_nat (length content))%N eqn:El; [by right|]. left. apply N.ltb_ge in El.
  set (e := MkCachedRead kind content). assert (He : cr_len e = N.of_nat (length content)) by done.
  destruct (entries c !! key) as [old|] eqn:Ek.
  - rewrite within_limit_add by lia. destruct (read_cache_evict_spec (order c) (<[key := e]> (entries c))
      (bytes_held c - cr_len old + N.of_nat (length content))%N) as (H1 & H2 & _); [|done].
    split; [done|]. split; cbn.
    + intros k. rewrite Hd. destruct (decide (k = key)) as [->|Hk];
        [by rewrite lookup_insert_eq, Ek|by rewrite lookup_insert_ne].
    + by rewrite (held_replace _ _ old) by done; rewrite Hh, He.
  - destruct (read_cache_evict_spec (order c ++ [key]) (<[key := e]> (entries c))
      (saturating_add (bytes_held c) (N.of_nat (length content)))) as (H1 & H2 & _); [|done].
    by apply consistent_push.
Qed.

(** What a lookup finds after an insertion was there before, or is what was inserted. *)
Lemma get_insert c key kind content k v :
  cache_wf c -> get (insert c key kind content) k = Some v ->
  (k = key /\ v = (kind, content)) \/ get c k = Some v.
Proof.
  intros Hwf. unfold get. destruct (insert_wf_spec c key kind content Hwf) as [[_ Hsub]| ->]; [|by right].
  destruct (entries (insert c key kind content) !! k) as [e|] eqn:Ee; [|done]. cbn. intros [= <-].
  pose proof (lookup_weaken _ _ _ _ Ee Hsub) as E. destruct (decide (k = key)) as [->|Hk].
  - rewrite lookup_insert_eq in E. injection E as <-. by left.
  - rewrite lookup_insert_ne in E by done. right. by rewrite E.
Qed.

Lemma insert_wf c key kind content : cache_wf c -> cache_wf (insert c key kind content).
Proof. intros Hwf. by destruct (insert_wf_spec c key kind content Hwf) as [[? _]| ->]. Qed.

(** An entry at the end of the queue that fits on its own outlives an eviction. *)
Lemma evict_keeps_newest q key e : forall m held_now,
  consistent (MkReadCache m (q ++ [key]) held_now) -> m !! key = Some e ->
  (cr_len e <= PACK_OBJECT_READ_CACHE_BYTE_LIMIT)%N ->
  entries (evict_loop m (q ++ [key]) held_now) !! key = Some e.
Proof.
  induction q as [|k q IH]; intros m held_now Hc He Hl; cbn [evict_loop app];
    destruct ((_ <? held_now)%N || _) eqn:Eb; try done; destruct Hc as (Hn & Hd & Hh); cbn in Hn, Hd, Hh.
  - assert (Hm : m = {[key := e]}).
    { apply map_eq. intros k. destruct (decide (k = key)) as [->|Hk]; [by rewrite lookup_singleton_eq|].
      rewrite lookup_singleton_ne by done. apply eq_None_not_Some.
      by intros ->%Hd%list_elem_of_singleton. }
    exfalso. subst m held_now. unfold held in Eb. rewrite map_fold_singleton, N.add_0_r, map_size_singleton in Eb.
    apply orb_true_iff in Eb as [Eb%N.ltb_lt|Eb%Nat.ltb_lt]; [lia|by vm_compute in Eb; lia].
  - apply NoDup_cons in Hn as [Hk Hn]. destruct (proj1 (Hd k)) as [e' He']; [by left|]. rewrite He'.
    assert (Hne : k <> key).
    { intros ->. apply Hk, elem_of_app. right. by apply list_elem_of_singleton. }
    apply IH; [|by rewrite lookup_delete_ne|done]. split; [done|]. split; cbn.
    + intros k'. rewrite lookup_delete_is_Some, <- Hd, elem_of_cons. naive_solver.
    + rewrite Hh, (held_delete m k e' He'). lia.
Qed.

Lemma get_inserted c key kind content :
  cache_wf c -> (N.of_nat (length content) <= PACK_OBJECT_READ_CACHE_BYTE_LIMIT)%N -> get c key = None ->
  get (insert c key kind content) key = Some (kind, content).
Proof.
  intros Hwf Hl Hg. unfold get in Hg. destruct (entries c !! key) as [old|] eqn:Ek; [done|].
  unfold insert, evict_over_budget, get. cbv zeta. rewrite (proj2 (N.ltb_ge _ _)), Ek by done.
  cbn [entries order bytes_held]. rewrite (evict_keeps_newest (order c) key (MkCachedRead kind content)); [done| |
    apply lookup_insert_eq|done]. by apply consistent_push.
Qed.

Lemma empty_wf : cache_wf empty.
Proof.
  split; [split; [constructor|]; split; cbn|split; cbn; [done|vm_compute; lia]].
  - intros k. rewrite lookup_empty, is_Some_alt. split; [intros Hk; by inversion Hk|done].
  - unfold held. by rewrite map_fold_empty.
Qed.
End ReadCacheSpec.
Export ReadCacheSpec (cache_wf, get_insert, get_inserted, insert_wf, empty_wf).

(** ** What a delta chain stands for *)

Section chains.
Context `{Sha, HashKeys} {D : Type} `{ZlibDecoder bytes D} (left_at : Cursor -> N) (st : PackedObjectStore).

(** The entry at an offset of a pack, without caches and without a bound: a chain of [n] deltas on a
    base object, which gives an object of the kind and the content. *)
Inductive chain (pack : bytes) (index : PackIndex) : N -> nat -> GitObjectKind -> bytes -> Prop :=
| chain_base offset kind content c :
    read_pack_object_header (MkCursor pack offset) = (Ok (Base kind (N.of_nat (length content))), c) ->
    read_zlib_content (D := D) (cursor_rest c) (pos_max_object_bytes st) (N.of_nat (length content))
    = Ok content ->
    chain pack index offset 0 kind content
| chain_ofs offset n kind base content size base_offset c1 c2 :
    read_pack_object_header (MkCursor pack offset) = (Ok (OfsDelta size), c1) ->
    read_base_offset offset c1 = (Ok base_offset, c2) ->
    chain pack index base_offset n kind base ->
    apply_zlib_delta_from_reader (D := D) (cursor_rest c2) base size (pos_max_object_bytes st) = Ok content ->
    chain pack index offset (S n) kind content
| chain_ref offset n kind base content size base_id base_offset c1 c2 :
    read_pack_object_header (MkCursor pack offset) = (Ok (RefDelta size), c1) ->
    read_base_id (pos_algorithm st) c1 = (Ok base_id, c2) ->
    ref_base_offset index base_id = Ok base_offset ->
    chain pack index base_offset n kind base ->
    apply_zlib_delta_from_reader (D := D) (cursor_rest c2) base size (pos_max_object_bytes st) = Ok content ->
    chain pack index offset (S n) kind content.

Lemma chain_det pack index offset n kind content n' kind' content' :
  chain pack index offset n kind content -> chain pack index offset n' kind' content' ->
  n' = n /\ kind' = kind /\ content' = content.
Proof.
  intros Hc. revert n' kind' content'.
  induction Hc; intros n' kind' content' Hc'; inversion Hc'; subst;
    repeat match goal with
    | E1 : ?run = (Ok _, _), E2 : ?run = (Ok _, _) |- _ => rewrite E1 in E2; simplify_eq
    | E1 : ?run = Ok _, E2 : ?run = Ok _ |- _ => rewrite E1 in E2; simplify_eq
    end; try done.
  - split; [done|]. split; [done|]. congruence.
  - match goal with Hb : chain _ _ _ _ _ _ |- _ => apply IHHc in Hb as (-> & -> & ->) end.
    split; [done|]. split; congruence.
  - match goal with Hb : chain _ _ _ _ _ _ |- _ => apply IHHc in Hb as (-> & -> & ->) end.
    split; [done|]. split; congruence.
Qed.

(** *** Runs over an open file keep its bytes *)

Definition over (pack : bytes) (c : Cursor) : Prop := cursor_bytes c = pack.

Lemma over_eq pack c : over pack c -> c = MkCursor pack (cursor_position c).
Proof. destruct c. unfold over. cbn. by intros ->. Qed.

Lemma over_read pack c n : over pack c -> over pack (reader_read c n).2.
Proof. done. Qed.

Lemma kept_over_header pack : kept (over pack) read_pack_object_header.
Proof. apply kept_read_pack_object_header. intros c n. apply over_read. Qed.

Lemma kept_over_base_offset pack offset : kept (over pack) (read_base_offset offset).
Proof.
  intros c Hc. unfold read_base_offset. apply kept_read_delta_base_offset; [|done].
  intros r n. apply over_read.
Qed.

Lemma kept_over_base_id pack : kept (over pack) (read_base_id (pos_algorithm st)).
Proof.
  apply kept_bind; [|intros; apply kept_lift]. apply kept_read_exact. intros c n. apply over_read.
Qed.

Lemma kept_over_decode {A} pack (f : bytes -> outcome A) : kept (over pack) (decode_file left_at f).
Proof. by intros c Hc. Qed.

Lemma kept_over_seek pack offset : kept (over pack) (seek offset).
Proof. by intros c Hc. Qed.

Lemma kept_over_position pack : kept (over pack) position.
Proof. by intros c Hc. Qed.

(** *** Reads through the cache *)

(** The packs of the store, with their indexes. *)
Context (packs : bytes -> option (bytes * PackIndex)).

(** Every cached object is what its entry stands for. *)
Definition coherent (c : PackObjectReadCache) : Prop :=
  forall path offset kind content, ReadCache.get c (path, offset) = Some (kind, content) ->
    exists pack index n, packs path = Some (pack, index) /\ chain pack index offset n kind content.

Lemma coherent_insert c path offset kind content pack index n :
  cache_wf c -> coherent c -> packs path = Some (pack, index) -> chain pack index offset n kind content ->
  coherent (ReadCache.insert c (path, offset) kind content).
Proof.
  intros Hwf Hc Hp Hch path' offset' kind' content' Hg. apply get_insert in Hg as [[E1 E2]|Hg]; [|by apply Hc|done].
  simplify_eq. eauto.
Qed.

Section one_pack.
Context (path pack : bytes) (index : PackIndex) (Hpack : packs path = Some (pack, index)).

(** The state of a read: an open file on the pack, and a cache that tells the truth. *)
Definition read_inv (s : ReadState) : Prop := cache_wf s.1 /\ coherent s.1 /\ over pack s.2.

Lemma runs_file {A} (m : rd Cursor A) s :
  kept (over pack) m -> read_inv s -> runs read_inv (on_file m) s (fun a s' => s'.1 = s.1 /\ m s.2 = (Ok a, s'.2)).
Proof.
  intros Hm. destruct s as [c f]. intros (Hwf & Hc & Hf). specialize (Hm f Hf). cbn in Hf. unfold runs, on_file.
  cbn [fst snd]. destruct (m f) as [o f']. cbn [fst snd] in *.
  split; [split; [done|]; by split|]. intros a ->. by split.
Qed.

(** The delta at the position of the file, on a base that is read in between. *)
Lemma runs_delta_on max size (m : rd ReadState (GitObjectKind * bytes)) (P : GitObjectKind -> bytes -> Prop) s :
  read_inv s -> (forall s, read_inv s -> runs read_inv m s (fun r _ => P r.1 r.2)) ->
  runs read_inv (read_delta_on (D := D) left_at max size m) s (fun r _ => exists base, P r.1 base /\
    apply_zlib_delta_from_reader (D := D) (cursor_rest s.2) base size max = Ok r.2).
Proof.
  intros Hs Hm. unfold read_delta_on.
  eapply runs_bind; [by apply runs_file; [apply kept_over_position|]|]. intros p s1 Hs1 [_ E1].
  assert (p = cursor_position s.2) as -> by (unfold position in E1; congruence).
  eapply runs_bind; [by apply Hm|]. intros [kind base] s2 Hs2 Hp.
  eapply runs_bind; [by apply runs_file; [apply kept_over_seek|]|]. intros [] s3 Hs3 [_ E3].
  eapply runs_bind; [by apply runs_file; [apply kept_over_decode|]|]. intros content s4 Hs4 [_ E4].
  unfold seek in E3. unfold decode_file in E4. injection E3 as E3. injection E4 as E4 _.
  apply runs_ret; [done|]. exists base. split; [done|].
  destruct Hs as (_ & _ & Hf), Hs2 as (_ & _ & Hf2). rewrite <- E3 in E4. unfold cursor_rest in *.
  cbn in E4. by rewrite Hf2, <- Hf in E4.
Qed.

Lemma runs_decode offset (read_base : N -> rd ReadState (GitObjectKind * bytes)) s :
  read_inv s ->
  (forall boff s, read_inv s -> runs read_inv (read_base boff) s (fun r _ => exists n, chain pack index boff n r.1 r.2)) ->
  runs read_inv (decode_entry (D := D) left_at st index offset read_base) s
    (fun r _ => exists n, chain pack index offset n r.1 r.2).
Proof.
  intros Hs IH. unfold decode_entry.
  eapply runs_bind; [by apply runs_file; [apply kept_over_seek|]|]. intros [] s1 Hs1 [_ E1].
  unfold seek in E1. injection E1 as E1.
  assert (E : s1.2 = MkCursor pack offset) by (destruct Hs as (_ & _ & Hf); rewrite <- E1; by rewrite (over_eq _ _ Hf)).
  eapply runs_bind; [by apply runs_file; [apply kept_over_header|]|]. intros header s2 Hs2 [_ E2]. rewrite E in E2.
  destruct header as [kind size|size|size].
  - eapply runs_bind; [by apply runs_file; [apply kept_over_decode|]|]. intros content s3 Hs3 [_ E3].
    unfold decode_file in E3. injection E3 as E3 _.
    eapply runs_bind; [by apply runs_lift|]. intros [] s4 Hs4 [-> Ev]. apply runs_ret; [done|].
    unfold validate_packed_inflated_size in Ev. destruct (N.eqb_spec size (N.of_nat (length content))) as [->|]; [|done].
    exists 0. by econstructor.
  - eapply runs_bind; [by apply runs_file; [apply kept_over_base_offset|]|]. intros boff s3 Hs3 [_ E3].
    eapply runs_weaken; [by apply (runs_delta_on _ _ _ (fun kind base => exists n, chain pack index boff n kind base));
      [|intros; apply IH]|].
    intros [kind content] _ (base & [n Hch] & Ea). exists (S n). by econstructor.
  - eapply runs_bind; [by apply runs_file; [apply kept_over_base_id|]|]. intros id s3 Hs3 [_ E3].
    eapply runs_bind; [by apply runs_lift|]. intros boff s4 Hs4 [-> Eo].
    eapply runs_weaken; [by apply (runs_delta_on _ _ _ (fun kind base => exists n, chain pack index boff n kind base));
      [|intros; apply IH]|].
    intros [kind content] _ (base & [n Hch] & Ea). exists (S n). by econstructor.
Qed.

Lemma runs_read fuel : forall offset depth s, read_inv s ->
  runs read_inv (read_pack_object_at (D := D) left_at fuel st path index offset depth) s
    (fun r _ => exists n, chain pack index offset n r.1 r.2).
Proof.
  induction fuel as [|fuel IH]; intros offset depth s Hs; cbn [read_pack_object_at];
    (destruct (MAX_DELTA_DEPTH <? depth); [by split|]); [by split|].
  eapply runs_bind with (Q := fun r s' => s' = s /\ r = ReadCache.get s.1 (path, offset));
    [split; [done|by intros a [= <-]]|]. intros r s' _ [-> ->].
  destruct (ReadCache.get s.1 (path, offset)) as [[kind content]|] eqn:Ec.
  { apply runs_ret; [done|]. destruct Hs as (_ & Hc & _). apply Hc in Ec as (pack' & index' & n & Hp & Hch).
    rewrite Hpack in Hp. simplify_eq. by exists n. }
  eapply runs_bind; [by apply runs_decode; [|intros; apply IH]|].
  intros [kind content] s3 Hs3 [n Hch]. eapply runs_bind with (Q := fun _ _ => True).
  - split; [|done]. destruct Hs3 as (Hwf & Hc & Hf). cbn. split; [by apply insert_wf|]. split; [|done].
    by eapply coherent_insert.
  - intros _ s4 Hs4 _. apply runs_ret; [done|]. by exists n.
Qed.

(** Stepping a run that is known to succeed. *)
Lemma on_file_step {A B} (m : rd Cursor A) (f : A -> rd ReadState B) c file a file' :
  m file = (Ok a, file') -> rbind (on_file m) f (c, file) = f a (c, file').
Proof. intros E. unfold rbind, on_file. by rewrite E. Qed.

Lemma delta_on_Ok max size (m : rd ReadState (GitObjectKind * bytes)) c file kind base content c1 file1 :
  over pack file -> m (c, file) = (Ok (kind, base), (c1, file1)) -> over pack file1 ->
  apply_zlib_delta_from_reader (D := D) (cursor_rest file) base size max = Ok content ->
  exists s', read_delta_on (D := D) left_at max size m (c, file) = (Ok (kind, content), s').
Proof.
  intros Hf Em Hf1 Ea. unfold read_delta_on.
  rewrite (on_file_step position _ c file (cursor_position file) file) by done.
  unfold rbind at 1. rewrite Em.
  rewrite (on_file_step (seek _) _ c1 file1 tt _ eq_refl).
  eexists. erewrite on_file_step; [reflexivity|]. unfold decode_file. f_equal. rewrite <- Ea. f_equal.
  unfold cursor_rest. cbn. by rewrite Hf, Hf1.
Qed.

Lemma read_step fuel offset depth s :
  depth <= MAX_DELTA_DEPTH ->
  read_pack_object_at (D := D) left_at (S fuel) st path index offset depth s =
  match ReadCache.get s.1 (path, offset) with
  | Some r => (Ok r, s)
  | None =>
      (decoded <~ decode_entry (D := D) left_at st index offset
         (fun base_offset => read_pack_object_at (D := D) left_at fuel st path index base_offset (depth + 1));
       _ <~ cache_pack_object path offset decoded.1 decoded.2;
       rret decoded) s
  end.
Proof.
  intros Hd. cbn [read_pack_object_at]. rewrite (proj2 (Nat.ltb_ge _ _)) by lia.
  unfold cached_pack_object. unfold rbind at 1. by destruct (ReadCache.get s.1 (path, offset)).
Qed.

Lemma read_from_decode fuel offset depth s r :
  depth <= MAX_DELTA_DEPTH -> ReadCache.get s.1 (path, offset) = None ->
  (exists s', decode_entry (D := D) left_at st index offset
    (fun base_offset => read_pack_object_at (D := D) left_at fuel st path index base_offset (depth + 1)) s
  = (Ok r, s')) ->
  exists s', read_pack_object_at (D := D) left_at (S fuel) st path index offset depth s = (Ok r, s').
Proof. intros Hd Hg [s' E]. rewrite read_step, Hg by done. unfold rbind at 1. rewrite E. by eexists. Qed.

Lemma delta_on_chain fuel depth c file size boff kind base content :
  cache_wf c -> coherent c -> over pack file ->
  (forall s, read_inv s -> exists s',
     read_pack_object_at (D := D) left_at fuel st path index boff depth s = (Ok (kind, base), s')) ->
  apply_zlib_delta_from_reader (D := D) (cursor_rest file) base size (pos_max_object_bytes st) = Ok content ->
  exists s', read_delta_on (D := D) left_at (pos_max_object_bytes st) size
    (read_pack_object_at (D := D) left_at fuel st path index boff depth) (c, file) = (Ok (kind, content), s').
Proof.
  intros Hwf Hc Hf Hr Ea. assert (Hs : read_inv (c, file)) by done.
  destruct (Hr _ Hs) as [[c1 file1] E]. pose proof (runs_read fuel boff depth _ Hs) as [(_ & _ & Hf1) _].
  rewrite E in Hf1. by eapply delta_on_Ok.
Qed.

(** A chain within the depth limit is read, whatever the cache holds. *)
Lemma read_complete offset n kind content : chain pack index offset n kind content ->
  forall fuel depth s, n < fuel -> depth + n <= MAX_DELTA_DEPTH -> read_inv s ->
  exists s', read_pack_object_at (D := D) left_at fuel st path index offset depth s = (Ok (kind, content), s').
Proof.
  intros Hch. pose proof Hch as Hall. induction Hch; intros [|fuel] depth s Hn Hd Hs; try lia;
    (destruct (ReadCache.get s.1 (path, offset)) as [[kind' content']|] eqn:Ec;
     [rewrite read_step, Ec by lia; destruct Hs as (_ & Hc & _); apply Hc in Ec as (pack' & index' & n' & Hp & Hc');
      rewrite Hpack in Hp; simplify_eq; destruct (chain_det _ _ _ _ _ _ _ _ _ Hall Hc') as (-> & -> & ->);
      by eexists|]);
    destruct s as [c0 file]; pose proof Hs as (Hwf & Hc & Hf); cbn [fst snd] in Hwf, Hc, Hf;
    (eapply read_from_decode; [lia|done|]); unfold decode_entry;
    rewrite (on_file_step (seek offset) _ c0 file tt _ eq_refl);
    (assert (Ef : set_position file offset = MkCursor pack offset) by (by rewrite (over_eq _ _ Hf)); rewrite Ef);
    (erewrite on_file_step by done); cbv beta iota.
  - erewrite on_file_step by (unfold decode_file; by f_equal).
    unfold validate_packed_inflated_size. rewrite N.eqb_refl. by eexists.
  - erewrite on_file_step by done. assert (Hf2 : over pack c2).
    { pose proof (kept_over_base_offset pack offset c1) as Hk. rewrite H3 in Hk. apply Hk.
      pose proof (kept_over_header pack (MkCursor pack offset) eq_refl) as Hk1. by rewrite H2 in Hk1. }
    apply (delta_on_chain fuel (depth + 1) _ _ _ base_offset kind base); try done.
    intros s Hs'. apply IHHch; [done|lia|lia|done].
  - erewrite on_file_step by done. assert (Hf2 : over pack c2).
    { pose proof (kept_over_base_id pack c1) as Hk. rewrite H3 in Hk. apply Hk.
      pose proof (kept_over_header pack (MkCursor pack offset) eq_refl) as Hk1. by rewrite H2 in Hk1. }
    unfold rbind at 1, rlift at 1. rewrite H4.
    apply (delta_on_chain fuel (depth + 1) _ _ _ base_offset kind base); try done.
    intros s Hs'. apply IHHch; [done|lia|lia|done].
Qed.
End one_pack.
End chains.

(** The cache of objects keeps its invariant: the queue holds every key once, the counter is the
    number of bytes held, and neither passes its limit.  What is found after an insertion was
    inserted or found before, and a new object that fits is found. *)
Theorem read_cache_insert c key kind content :
  cache_wf c ->
  let c' := ReadCache.insert c key kind content in
  cache_wf c' /\
  (forall k v, ReadCache.get c' k = Some v -> (k = key /\ v = (kind, content)) \/ ReadCache.get c k = Some v) /\
  ((N.of_nat (length content) <= PACK_OBJECT_READ_CACHE_BYTE_LIMIT)%N -> ReadCache.get c key = None ->
     ReadCache.get c' key = Some (kind, content)).
Proof.
  intros Hwf. cbv zeta. split; [by apply insert_wf|]. split; [intros k v; by apply get_insert|].
  by apply get_inserted.
Qed.

Lemma read_cache_insert_witness :
  let c := ReadCache.insert ReadCache.empty (bstr "a.pack", 12%N) Blob (bstr "one") in
  let c' := ReadCache.insert c (bstr "a.pack", 40%N) Tree (bstr "two") in
  cache_wf c' /\ ReadCache.bytes_held c' = 6%N /\ ReadCache.get c' (bstr "a.pack", 40%N) = Some (Tree, bstr "two").
Proof.
  cbv zeta. destruct (read_cache_insert ReadCache.empty (bstr "a.pack", 12%N) Blob (bstr "one") empty_wf)
    as (Hc & _ & _).
  destruct (read_cache_insert _ (bstr "a.pack", 40%N) Tree (bstr "two") Hc) as (Hc' & _ & Hg).
  split; [exact Hc'|]. split; [vm_compute; reflexivity|].
  apply Hg; [vm_compute; discriminate|vm_compute; reflexivity].
Defined.
