(* ===== verification/PackStoreLookup.v ===== *)
(** * The store of packs over its directory: coherent caches, lookups and whole reads *)
From S2P Require Import Prelude Order Object Store Reader PackHeader Zlib DeltaRead PackWrite PackParse.
From S2P Require Import PackIndex PackStore PackStoreRead.

(** ** Paths *)

Lemma split_last_None sep bs : split_last sep bs = None -> sep ∉ bs.
Proof.
  induction bs as [|b bs IH]; cbn [split_last]; [by intros _ ?%elem_of_nil|].
  destruct (split_last sep bs) as [[x y]|]; [done|]. case_decide as Hb; [done|].
  intros _ [->|Hin]%elem_of_cons; [done|by apply IH].
Qed.

Lemma split_last_Some sep bs a b : split_last sep bs = Some (a, b) -> bs = a ++ sep :: b /\ sep ∉ b.
Proof.
  revert a. induction bs as [|c bs IH]; intros a; cbn [split_last]; [done|].
  destruct (split_last sep bs) as [[x y]|] eqn:E.
  - intros [= <- <-]. destruct (IH x eq_refl) as [-> ?]. done.
  - case_decide as Hb; [|done]. intros [= <- <-]. subst. split; [done|by apply split_last_None].
Qed.

Lemma split_last_app sep a b : sep ∉ b -> split_last sep (a ++ sep :: b) = Some (a, b).
Proof.
  intros Hb. assert (E : split_last sep b = None).
  { destruct (split_last sep b) as [[x y]|] eqn:E; [|done]. apply split_last_Some in E as [-> _].
    exfalso. apply Hb. apply elem_of_app. right. by left. }
  induction a as [|c a IH]; cbn [app split_last]; [by rewrite E, decide_True|by rewrite IH].
Qed.

Lemma file_name_split path : exists pre, path = pre ++ file_name path /\ (Byte.x2f ∉ file_name path) /\
  (forall name, Byte.x2f ∉ name -> file_name (pre ++ name) = name).
Proof.
  unfold file_name. destruct (split_last Byte.x2f path) as [[a b]|] eqn:E.
  - apply split_last_Some in E as [-> Hb]. exists (a ++ [Byte.x2f]). rewrite <- app_assoc. split; [done|].
    split; [done|]. intros name Hn. rewrite <- app_assoc. cbn [app]. by rewrite split_last_app.
  - exists []. split; [done|]. apply split_last_None in E. split; [done|]. intros name Hn. cbn [app].
    destruct (split_last Byte.x2f name) as [[a b]|] eqn:E'; [|done]. apply split_last_Some in E' as [-> _].
    exfalso. apply Hn, elem_of_app. right. by left.
Qed.

(** An extension is put in the place of another, and back. *)
Lemma with_extension_spec path old ext :
  extension path = Some old -> Byte.x2e ∉ ext -> Byte.x2f ∉ ext -> ext <> [] ->
  extension (with_extension path ext) = Some ext /\ with_extension (with_extension path ext) old = path.
Proof.
  intros E Hd Hs Hne. destruct (file_name_split path) as (pre & Ep & Hn & Hf).
  pose proof E as E'. unfold extension in E'. case_decide as Hdot; [done|].
  destruct (split_last Byte.x2e (file_name path)) as [[before after]|] eqn:En; [|done].
  destruct before as [|x before]; [done|]. injection E' as ->. apply split_last_Some in En as [En Ho].
  set (before' := x :: before) in *.
  assert (Hw : forall e q, extension q = Some e -> with_extension q ext = take (length q - length e) q ++ ext)
    by (intros e q Hq; unfold with_extension; by rewrite Hq).
  assert (Ew : with_extension path ext = pre ++ before' ++ Byte.x2e :: ext).
  { rewrite (Hw old) by done. rewrite Ep at 1 2. rewrite En.
    replace (pre ++ before' ++ Byte.x2e :: old) with ((pre ++ before' ++ [Byte.x2e]) ++ old) by solve_app.
    rewrite length_app. replace (length (pre ++ before' ++ [Byte.x2e]) + length old - length old)
      with (length (pre ++ before' ++ [Byte.x2e])) by lia.
    rewrite take_app_length. solve_app. }
  assert (Eext : extension (with_extension path ext) = Some ext).
  { rewrite Ew. unfold extension. rewrite Hf.
    - rewrite split_last_app by done. case_decide as Hc; [|done]. apply (f_equal length) in Hc.
      unfold before' in Hc. cbn in Hc. rewrite length_app in Hc. cbn in Hc. destruct ext; [done|cbn in Hc; lia].
    - rewrite En in Hn. intros [Hi|[Hi|Hi]%elem_of_cons]%elem_of_app; [|done|done].
      apply Hn, elem_of_app. by left. }
  split; [done|]. unfold with_extension at 1. rewrite Eext, Ew.
  replace (pre ++ before' ++ Byte.x2e :: ext) with ((pre ++ before' ++ [Byte.x2e]) ++ ext) by solve_app.
  rewrite length_app. replace (length (pre ++ before' ++ [Byte.x2e]) + length ext - length ext)
    with (length (pre ++ before' ++ [Byte.x2e])) by lia.
  rewrite take_app_length, Ep, En. solve_app.
Qed.

Lemma pack_path_back idx_path :
  extension idx_path = Some (bstr "idx") ->
  with_extension (with_extension idx_path (bstr "pack")) (bstr "idx") = idx_path.
Proof.
  intros E. apply with_extension_spec; [done|..]; try done;
    apply (bool_decide_unpack _); vm_compute; exact I.
Qed.

(** ** The cache of indexes stays within its limits *)

Section index_cache.
Context `{HashKeysLaws}.

Definition add_len (path : bytes) (e : CachedPackIndex) (total : N) : N := (ci_len e + total)%N.

Definition index_bytes (m : IndexCache) : N := map_fold add_len 0%N m.

Lemma index_bytes_insert (m : IndexCache) path e :
  m !! path = None -> index_bytes (<[path := e]> m) = (ci_len e + index_bytes m)%N.
Proof. intros Hp. unfold index_bytes. rewrite map_fold_insert_L; [done| |done]. unfold add_len. lia. Qed.

(** The saturated sum, in any order. *)
Lemma sum_lens (m : IndexCache) l (Hl : forall k e, (k, e) ∈ l -> m !! k = Some e) : forall acc,
  (acc <= 2 ^ 64 - 1)%N ->
  fold_left (fun total key => match m !! key with
                              | Some entry => saturating_add_u64 total (ci_len entry)
                              | None => total
                              end) l.*1 acc
  = N.min (acc + foldr (uncurry add_len) 0%N l) (2 ^ 64 - 1).
Proof.
  induction l as [|[k e] l IH]; intros acc Ha; cbn [fmap list_fmap fold_left foldr fst uncurry]; [lia|].
  rewrite (Hl k e) by by left. unfold add_len at 1. rewrite IH; [unfold saturating_add_u64; lia| |unfold saturating_add_u64; lia].
  intros k' e' Hin. apply Hl. by right.
Qed.

Lemma sum_perm (l l' : list (bytes * CachedPackIndex)) : l ≡ₚ l' ->
  foldr (uncurry add_len) 0%N l = foldr (uncurry add_len) 0%N l'.
Proof. induction 1 as [|[k e] l l' _ IH|[k e] [k' e'] l|l l' l'' _ IH _ IH']; cbn; unfold add_len in *; lia. Qed.

Lemma len_for_insert_spec (m : IndexCache) len :
  (len <= 2 ^ 64 - 1)%N -> pack_index_cache_len_for_insert m len = N.min (len + index_bytes m) (2 ^ 64 - 1).
Proof.
  intros Hl. unfold pack_index_cache_len_for_insert.
  destruct (Permutation_map_inv _ _ (hash_keys_spec m)) as (l & E & Hp).
  change (hash_keys m = l.*1) in E. rewrite E, sum_lens; [|intros k e Hin; apply elem_of_map_to_list; by rewrite Hp|done].
  by rewrite <- (sum_perm _ _ Hp), <- map_fold_foldr.
Qed.

(** What is left after trimming has room for the new index. *)
Lemma trim_loop_room fuel path len : forall m : IndexCache,
  size m <= fuel -> m !! path = None -> (len <= PACK_INDEX_CACHE_BYTE_LIMIT)%N ->
  let m' := trim_loop fuel m path len in
  size m' < PACK_INDEX_CACHE_ENTRY_LIMIT /\ (len + index_bytes m' <= PACK_INDEX_CACHE_BYTE_LIMIT)%N /\
  m' !! path = None.
Proof.
  assert (Hstop : forall m : IndexCache, m !! path = None -> (len <= PACK_INDEX_CACHE_BYTE_LIMIT)%N ->
    (PACK_INDEX_CACHE_ENTRY_LIMIT <=? size m)
      || (PACK_INDEX_CACHE_BYTE_LIMIT <? pack_index_cache_len_for_insert m len)%N = false ->
    size m < PACK_INDEX_CACHE_ENTRY_LIMIT /\ (len + index_bytes m <= PACK_INDEX_CACHE_BYTE_LIMIT)%N /\ m !! path = None).
  { intros m Hp Hl [E1%Nat.leb_gt E2%N.ltb_ge]%orb_false_iff. split; [done|]. split; [|done].
    unfold PACK_INDEX_CACHE_BYTE_LIMIT in *. rewrite len_for_insert_spec in E2; lia. }
  assert (Hempty : forall m : IndexCache, hash_keys m = [] -> (len <= PACK_INDEX_CACHE_BYTE_LIMIT)%N ->
    (PACK_INDEX_CACHE_ENTRY_LIMIT <=? size m)
      || (PACK_INDEX_CACHE_BYTE_LIMIT <? pack_index_cache_len_for_insert m len)%N = false).
  { intros m Hk Hl. pose proof (hash_keys_spec m) as Hp. rewrite Hk in Hp.
    apply Permutation_nil_l in Hp. symmetry in Hp. apply fmap_nil_inv, map_to_list_empty_iff in Hp as ->.
    revert Hl. unfold PACK_INDEX_CACHE_BYTE_LIMIT. intros Hl. rewrite len_for_insert_spec by lia.
    unfold index_bytes. rewrite map_fold_empty. apply N.ltb_ge. lia. }
  induction fuel as [|fuel IH]; intros m Hs Hp Hl; cbv zeta; cbn [trim_loop];
    (destruct (_ || _) eqn:Eb; [|by apply Hstop]).
  - assert (m = ∅) as -> by (apply map_size_empty_inv; lia).
    rewrite Hempty in Eb; [done| |done]. pose proof (hash_keys_spec ∅) as Hk. rewrite map_to_list_empty in Hk.
    by apply Permutation_nil_r in Hk.
  - destruct (list_find (fun k => k <> path) (hash_keys m)) as [[i k]|] eqn:Ek.
    + apply list_find_Some in Ek as (Hi & Hne & _).
      assert (Hin : is_Some (m !! k)).
      { apply list_elem_of_lookup_2 in Hi. rewrite (hash_keys_spec m) in Hi.
        apply list_elem_of_fmap in Hi as ([k' e] & -> & Hin%elem_of_map_to_list). by exists e. }
      apply IH; [|rewrite lookup_delete_ne; done|done]. rewrite map_size_delete.
      destruct Hin as [e ->]. lia.
    + apply list_find_None in Ek. rewrite Hempty in Eb; [done| |done].
      destruct (hash_keys m) as [|k ks] eqn:Hk; [done|]. exfalso.
      apply Forall_cons in Ek as [Ek _]. assert (k = path) as -> by (destruct (decide (k = path)); [done|tauto]).
      assert (Hin : path ∈ (map_to_list m).*1) by (rewrite <- hash_keys_spec, Hk; by left).
      apply list_elem_of_fmap in Hin as ([k' e] & E & Hin%elem_of_map_to_list). cbn in E. subst. congruence.
Qed.

Definition index_cache_bounded (m : IndexCache) : Prop :=
  size m <= PACK_INDEX_CACHE_ENTRY_LIMIT /\ (index_bytes m <= PACK_INDEX_CACHE_BYTE_LIMIT)%N.

Lemma bounded_delete m path : index_cache_bounded m -> index_cache_bounded (delete path m).
Proof.
  intros [Hs Hb]. destruct (m !! path) as [e|] eqn:Ep; [|by rewrite delete_id].
  pose proof Hb as Hb'. rewrite <- (insert_delete_id m path e Ep), index_bytes_insert in Hb' by apply lookup_delete_eq.
  split; [|lia]. rewrite map_size_delete, Ep. lia.
Qed.

Lemma bounded_insert m path e :
  (ci_len e <= PACK_INDEX_CACHE_BYTE_LIMIT)%N ->
  index_cache_bounded (<[path := e]> (trim_pack_index_cache_for_insert m path (ci_len e))).
Proof.
  intros Hl. unfold trim_pack_index_cache_for_insert.
  destruct (trim_loop_room (size (delete path m)) path (ci_len e) (delete path m)) as (Hs & Hb & Hp);
    [done|apply lookup_delete_eq|done|].
  split; [rewrite map_size_insert_None by done; lia|by rewrite index_bytes_insert].
Qed.

Lemma read_cached_bounded `{Sha} fs path alg s :
  index_cache_bounded (pack_index_cache s) ->
  index_cache_bounded (pack_index_cache (read_cached_pack_index fs path alg s).2).
Proof.
  intros Hb. unfold read_cached_pack_index, read_index. destruct (open fs path) as [f|e| |]; [|done..].
  rewrite bind_Ok. cbv zeta.
  assert (Hread : index_cache_bounded (pack_index_cache
      (match read_bytes (file_bytes f) alg with
       | Ok index =>
           (Ok index, set_index_cache
              (if pack_index_cache_should_store (file_len f) then
                 <[path := MkCachedIndex (file_modified f) (file_len f) index]>
                   (trim_pack_index_cache_for_insert (pack_index_cache s) path (file_len f))
               else delete path (pack_index_cache s)) s)
       | Err e => (Err e, s) | Panic => (Panic, s) | NoFuel => (NoFuel, s)
       end).2)).
  { destruct (read_bytes (file_bytes f) alg) as [index|e| |]; [|done..]. cbn [snd pack_index_cache set_index_cache].
    destruct (pack_index_cache_should_store (file_len f)) eqn:Es; [|by apply bounded_delete].
    apply N.leb_le in Es.
    by apply (bounded_insert (pack_index_cache s) path (MkCachedIndex (file_modified f) (file_len f) index)). }
  destruct (pack_index_cache s !! path) as [entry|]; [|done]. by destruct (_ && _).
Qed.
End index_cache.

(** ** Coherent caches *)

Section directory.
Context `{Sha, HashKeys} {D : Type} `{ZlibDecoder bytes D} (left_at : Cursor -> N).
Context (st : PackedObjectStore) (fs : ObjectsFs).

#[local] Abbreviation alg := (pos_algorithm st).

(** The indexes of the pack directory, in the order they are searched. *)
Definition listing : list bytes :=
  match fs_pack_dir fs with
  | None => []
  | Some dir => sort_by cmp_bytes (filter (fun path => extension path = Some (bstr "idx")) (pd_paths dir))
  end.

(** A pack file and the index next to it. *)
Definition pack_with_index (pack_path : bytes) : option (bytes * PackIndex) :=
  match open fs pack_path, read_index fs (with_extension pack_path (bstr "idx")) alg with
  | Ok f, Ok index => Some (file_bytes f, index)
  | _, _ => None
  end.

(** What is cached is what the files hold, as long as their metadata are those that were seen. *)
Record caches_ok (s : Caches) : Prop := {
  co_paths : forall dir p, fs_pack_dir fs = Some dir -> idx_paths_cache s = Some p ->
    same_paths dir p = true -> cp_paths p = listing;
  co_last : forall l f, last_index_lookup s = Some l -> open fs (ll_idx_path l) = Ok f ->
    ll_modified l = file_modified f -> ll_len l = file_len f ->
    ll_idx_path l ∈ listing /\ read_index fs (ll_idx_path l) alg = Ok (ll_index l) /\
    ll_pack_path l = with_extension (ll_idx_path l) (bstr "pack");
  co_file : forall l f, last_pack_file s = Some l -> open fs (lf_pack_path l) = Ok f ->
    lf_modified l = file_modified f -> lf_len l = file_len f -> cursor_bytes (lf_file l) = file_bytes f;
  co_read : cache_wf (object_read_cache s);
  co_coherent : coherent (D := D) st pack_with_index (object_read_cache s);
  co_index : forall path e f, pack_index_cache s !! path = Some e -> open fs path = Ok f ->
    ci_modified e = file_modified f -> ci_len e = file_len f -> read_index fs path alg = Ok (ci_index e)
}.

Lemma no_caches_ok : caches_ok no_caches.
Proof. split; try done. apply empty_wf. Qed.

#[local] Abbreviation keeps := (runs caches_ok).

Lemma idx_paths_runs s : caches_ok s -> keeps (idx_paths fs) s (fun paths _ => paths = listing).
Proof.
  intros Hs. unfold runs, idx_paths, listing. destruct (fs_pack_dir fs) as [dir|] eqn:Ed.
  2:{ split; [done|]. by intros a [= <-]. }
  assert (Hl : forall paths, paths = listing ->
    caches_ok (set_idx_paths (Some (MkCachedPaths (pd_modified dir) (pd_len dir) paths)) s)).
  { intros paths ->. destruct Hs. split; try done. cbn. by intros dir' p _ [= <-] _. }
  unfold listing in Hl. rewrite Ed in Hl.
  destruct (idx_paths_cache s) as [p|] eqn:Ep; [destruct (same_paths dir p) eqn:E|]; cbn; try (split; [by apply Hl|];
    by intros a [= <-]).
  split; [done|]. intros a [= <-]. rewrite (co_paths s Hs dir p) by done. unfold listing. by rewrite Ed.
Qed.

Lemma idx_paths_Ok s : exists paths s', idx_paths fs s = (Ok paths, s').
Proof.
  unfold idx_paths. destruct (fs_pack_dir fs) as [dir|]; [|by eauto].
  destruct (idx_paths_cache s) as [p|]; [destruct (same_paths dir p)|]; eauto.
Qed.

(** *** The cache of indexes *)

Lemma trim_loop_sub fuel cache path len : trim_loop fuel cache path len ⊆ cache.
Proof.
  revert cache. induction fuel as [|fuel IH]; intros cache; cbn [trim_loop]; destruct (_ || _); try done.
  destruct (list_find _ _) as [[i stale]|]; [|done]. etrans; [apply IH|apply delete_subseteq].
Qed.

Lemma trim_sub cache path len : trim_pack_index_cache_for_insert cache path len ⊆ delete path cache.
Proof. apply trim_loop_sub. Qed.

Lemma read_cached_runs path s :
  caches_ok s -> keeps (read_cached_pack_index fs path alg) s (fun index _ => read_index fs path alg = Ok index).
Proof.
  intros Hs. unfold runs, read_cached_pack_index.
  destruct (open fs path) as [f|e| |] eqn:Ef; [|done..]. cbv zeta.
  set (read := match read_index fs path alg with Ok _ => _ | Err _ => _ | Panic => _ | NoFuel => _ end).
  assert (Hread : caches_ok read.2 /\ forall index, read.1 = Ok index -> read_index fs path alg = Ok index).
  { unfold read. destruct (read_index fs path alg) as [index|e| |] eqn:Ei; [|done..]. cbn [fst snd].
    split; [|done]. destruct Hs as [Hp Hl Hf Hr Hc Hi]. split; try done. cbn [pack_index_cache set_index_cache].
    assert (Hsub : forall m, m ⊆ delete path (pack_index_cache s) -> forall q e g, m !! q = Some e ->
        open fs q = Ok g -> ci_modified e = file_modified g -> ci_len e = file_len g ->
        read_index fs q alg = Ok (ci_index e)).
    { intros m Hm q e g Hq Hg Hmo Hle. pose proof (lookup_weaken _ _ _ _ Hq Hm) as Hq'.
      apply lookup_delete_Some in Hq' as [_ Hq']. by eapply Hi. }
    destruct (pack_index_cache_should_store (file_len f)); [|by apply Hsub].
    intros q e g Hq. destruct (decide (q = path)) as [->|Hne].
    - rewrite lookup_insert_eq in Hq. by injection Hq as <-.
    - rewrite lookup_insert_ne in Hq by done. by apply (Hsub _ (trim_sub _ path (file_len f)) q e g). }
  destruct (pack_index_cache s !! path) as [entry|] eqn:Ec; [|done].
  destruct (bool_decide (ci_modified entry = file_modified f) && (ci_len entry =? file_len f)%N) eqn:Eb; [|done].
  apply andb_true_iff in Eb as [Em%bool_decide_eq_true El%N.eqb_eq]. split; [done|].
  intros index [= <-]. by eapply co_index.
Qed.

Lemma read_cached_Ok path s index :
  caches_ok s -> read_index fs path alg = Ok index ->
  exists s', read_cached_pack_index fs path alg s = (Ok index, s').
Proof.
  intros Hs E. pose proof (read_cached_runs path s Hs) as [_ Hr].
  assert (Hok : is_ok (read_cached_pack_index fs path alg s).1 = true).
  { unfold read_cached_pack_index. pose proof E as E'. unfold read_index in E'.
    destruct (open fs path) as [f|e| |]; [|done..]. rewrite E.
    destruct (pack_index_cache s !! path) as [entry|]; [|done]. by destruct (_ && _). }
  destruct (read_cached_pack_index fs path alg s) as [[index'|e| |] s']; try done.
  specialize (Hr index' eq_refl). exists s'. congruence.
Qed.

(** *** The index that has an object *)

Lemma runs_eq {A} (m m' : rd Caches A) s s' Q : m s = m' s' -> keeps m' s' Q -> keeps m s Q.
Proof. unfold runs. by intros ->. Qed.

(** An index that does not have an id, or is not there any more. *)
Definition absent (id : ObjectId) (idx_path : bytes) : Prop :=
  (exists index, read_index fs idx_path alg = Ok index /\ offset_for index id = Ok None) \/
  (exists e, read_index fs idx_path alg = Err e /\ err_kind e = NotFound).

(** What a search of the indexes may find for an id. *)
Definition finds (id : ObjectId) (r : option PackIndexLookup) : Prop :=
  match r with
  | Some (MkLookup pack_path index offset) =>
      exists idx_path, idx_path ∈ listing /\ read_index fs idx_path alg = Ok index /\
        pack_path = with_extension idx_path (bstr "pack") /\ offset_for index id = Ok (Some offset)
  | None => forall idx_path, idx_path ∈ listing -> absent id idx_path
  end.

(** An index that need not be asked: it was the last one, and does not have the id. *)
Definition asked (id : ObjectId) (checked : option bytes) : Prop :=
  forall idx_path, checked = Some idx_path ->
    exists index, read_index fs idx_path alg = Ok index /\ offset_for index id = Ok None.

Lemma ask_last_runs id s :
  caches_ok s -> keeps (ask_last_lookup fs id) s (fun '(found, checked) _ =>
    match found with Some lookup => finds id (Some lookup) | None => asked id checked end).
Proof.
  intros Hs. unfold runs, ask_last_lookup.
  destruct (last_index_lookup s) as [l|] eqn:El; [|by split; [|intros a [= <-] p]].
  assert (Hforget : caches_ok (set_last_lookup None s)) by (by destruct Hs; split).
  destruct (open fs (ll_idx_path l)) as [f|e| |] eqn:Ef; [|..|done|done].
  2:{ case_decide; [|done]. split; [done|]. by intros a [= <-] p. }
  destruct (_ && _) eqn:Eb; [|by split; [|intros a [= <-] p]].
  apply andb_true_iff in Eb as [Em%bool_decide_eq_true El'%N.eqb_eq].
  destruct (co_last s Hs l f El Ef Em El') as (Hin & Hi & Hp).
  unfold lookup_in_last, rbind, rlift. destruct (offset_for (ll_index l) id) as [[offset|]|e| |] eqn:Eo; try done; cbn.
  - split; [done|]. intros a [= <-]. by exists (ll_idx_path l).
  - split; [done|]. intros a [= <-] p [= <-]. by exists (ll_index l).
Qed.

Lemma read_cached_Err path s e s' :
  read_cached_pack_index fs path alg s = (Err e, s') -> read_index fs path alg = Err e.
Proof.
  unfold read_cached_pack_index, read_index. destruct (open fs path) as [f|e'| |]; try done.
  - rewrite bind_Ok. destruct (pack_index_cache s !! path) as [entry|]; [destruct (_ && _); [done|]|];
      by destruct (read_bytes (file_bytes f) alg) as [index|e'| |]; try done; intros [= -> _].
  - by intros [= -> _].
Qed.

Lemma search_runs id checked paths : forall s,
  asked id checked -> (forall p, p ∈ paths -> p ∈ listing) -> caches_ok s ->
  keeps (search_indexes fs alg id checked paths) s (fun r _ =>
    match r with
    | Some lookup => finds id (Some lookup)
    | None => forall p, p ∈ paths -> absent id p
    end).
Proof.
  induction paths as [|p paths IH]; intros s Hch Hin Hs; cbn [search_indexes].
  { apply runs_ret; [done|]. by intros p ?%elem_of_nil. }
  assert (Hin' : forall q, q ∈ paths -> q ∈ listing) by (intros q Hq; apply Hin; by right).
  assert (Hnext : forall s', caches_ok s' -> absent id p ->
    keeps (search_indexes fs alg id checked paths) s' (fun r _ =>
      match r with Some lookup => finds id (Some lookup) | None => forall q, q ∈ p :: paths -> absent id q end)).
  { intros s' Hs' Ha. eapply runs_weaken; [by apply IH|]. intros [r|] _ Hr; [done|].
    intros q [->|Hq]%elem_of_cons; [done|by apply Hr]. }
  case_decide as Hlast; [apply Hnext; [done|left; by apply Hch]|].
  pose proof (read_cached_runs p s Hs) as [Hs' Hr].
  destruct (read_cached_pack_index fs p alg s) as [[index|e| |] s'] eqn:Er; cbn [fst snd] in *;
    [| |by unfold runs; rewrite Er..].
  - specialize (Hr index eq_refl). eapply (runs_eq _ _ s s'); [rewrite Er; reflexivity|].
    eapply runs_bind; [by apply runs_lift|]. intros [offset|] s'' Hs'' [-> Eo]; [|apply Hnext; [done|left; by exists index]].
    eapply runs_bind; [by apply runs_lift|]. intros f s'' _ [-> Ef]. unfold runs. cbn [fst snd].
    assert (Hp : p ∈ listing) by (apply Hin; by left). split; [|by intros a [= <-]; exists p].
    destruct Hs'. split; try done. cbn. intros l g [= <-]. done.
  - eapply (runs_eq _ (fun s => if decide (err_kind e = NotFound) then search_indexes fs alg id checked paths s
      else (Err e, s)) s s'); [by rewrite Er|].
    apply read_cached_Err in Er. case_decide; [|done]. apply Hnext; [done|]. right. by exists e.
Qed.

Lemma lookup_runs id s : caches_ok s -> keeps (lookup_pack_index_for st fs id) s (fun r _ => finds id r).
Proof.
  intros Hs. unfold lookup_pack_index_for. eapply runs_bind; [by apply ask_last_runs|].
  intros [[l|] checked] s1 Hs1 Hf; [by apply runs_ret|].
  eapply runs_bind; [by apply idx_paths_runs|]. intros paths s2 Hs2 ->.
  eapply runs_weaken; [by apply search_runs|]. by intros [l|] _.
Qed.

(** When every listed index can be read and asked, the lookup answers. *)
Definition readable (id : ObjectId) : Prop := forall idx_path, idx_path ∈ listing ->
  exists index r, read_index fs idx_path alg = Ok index /\ offset_for index id = Ok r.

Lemma search_Ok id checked paths : forall s,
  readable id -> (forall p, p ∈ paths -> p ∈ listing) -> caches_ok s ->
  is_ok (search_indexes fs alg id checked paths s).1 = true.
Proof.
  induction paths as [|p paths IH]; intros s Hr Hin Hs; cbn [search_indexes]; [done|].
  assert (Hin' : forall q, q ∈ paths -> q ∈ listing) by (intros q Hq; apply Hin; by right).
  case_decide; [by apply IH|]. destruct (Hr p) as (index & r & Ei & Eo); [apply Hin; by left|].
  destruct (read_cached_Ok p s index Hs Ei) as [s' E]. pose proof (read_cached_runs p s Hs) as [Hs' _].
  rewrite E in Hs' |- *. unfold rbind at 1, rlift at 1. rewrite Eo. destruct r as [offset|]; [|by apply IH].
  unfold read_index in Ei. unfold rbind, rlift. by destruct (open fs p).
Qed.

Lemma ask_last_Ok id s : readable id -> caches_ok s -> is_ok (ask_last_lookup fs id s).1 = true.
Proof.
  intros Hr Hs. unfold ask_last_lookup. destruct (last_index_lookup s) as [l|] eqn:El; [|done].
  destruct (open fs (ll_idx_path l)) as [f|e| |] eqn:Ef; unfold open in Ef.
  2:{ destruct (fs_files fs !! ll_idx_path l); [done|]. injection Ef as <-. by rewrite decide_True. }
  - destruct (_ && _) eqn:Eb; [|done]. apply andb_true_iff in Eb as [Em%bool_decide_eq_true El'%N.eqb_eq].
    destruct (co_last s Hs l f El Ef Em El') as (Hin & Hi & _). destruct (Hr _ Hin) as (index & r & Ei & Eo).
    assert (index = ll_index l) as -> by congruence. unfold lookup_in_last, rbind, rlift. by rewrite Eo.
  - by destruct (fs_files fs !! ll_idx_path l).
  - by destruct (fs_files fs !! ll_idx_path l).
Qed.

Lemma lookup_Ok id s : readable id -> caches_ok s -> exists r s', lookup_pack_index_for st fs id s = (Ok r, s').
Proof.
  intros Hr Hs. unfold lookup_pack_index_for.
  pose proof (ask_last_Ok id s Hr Hs) as Ha. pose proof (ask_last_runs id s Hs) as [Hs1 _]. unfold rbind at 1.
  destruct (ask_last_lookup fs id s) as [[[[l|] checked]|e| |] s1]; try done; [by eexists _, _|]. cbn [fst snd] in *.
  destruct (idx_paths_Ok s1) as (paths & s2 & Ep). pose proof (idx_paths_runs s1 Hs1) as [Hs2 Hp].
  unfold rbind at 1. rewrite Ep in Hs2, Hp |- *. rewrite (Hp paths eq_refl) in *.
  pose proof (search_Ok id checked listing s2 Hr (fun p H => H) Hs2) as Hok. cbn [snd] in *.
  destruct (search_indexes fs alg id checked listing s2) as [[r|e| |] s3]; try done. by eexists _, _.
Qed.

(** *** Whole reads *)

Lemma validate_header_over bytes : over bytes (validate_pack_header (MkCursor bytes 0)).2.
Proof.
  assert (Hk : kept (over bytes) validate_pack_header); [|by apply Hk].
  apply kept_bind; [apply kept_over_seek|intros _]. apply kept_bind; [|intros; apply kept_lift].
  apply kept_read_exact. intros c n. apply over_read.
Qed.

Section one_file.
Context (pack_path : bytes) (f : File) (index : PackIndex).
Context (Hopen : open fs pack_path = Ok f) (Hpack : pack_with_index pack_path = Some (file_bytes f, index)).

#[local] Abbreviation inv := (read_inv (D := D) st pack_with_index (file_bytes f)).

Lemma run_on_file {A} (read : N -> rd ReadState A) (Q : A -> Prop) file s :
  (forall rs, inv rs -> runs inv (read (file_len f)) rs (fun a _ => Q a)) -> caches_ok s -> over (file_bytes f) file ->
  let '(o, (cache, file)) := read (file_len f) (object_read_cache s, file) in
  caches_ok (set_last_file (Some (MkLastFile pack_path (file_modified f) (file_len f) file)) cache s) /\
  (forall a, o = Ok a -> Q a).
Proof.
  intros Hr Hs Hf. destruct (Hr (object_read_cache s, file)) as [Hi Hq]; [by destruct Hs|].
  destruct (read (file_len f) (object_read_cache s, file)) as [o [cache file']]. destruct Hi as (Hwf & Hc & Hf').
  split; [|done]. destruct Hs. split; try done. cbn. intros l g [= <-]. cbn [lf_pack_path lf_file]. rewrite Hopen.
  by intros [= <-].
Qed.

Lemma validated_runs {A} (read : N -> rd ReadState A) (Q : A -> Prop) s :
  (forall rs, inv rs -> runs inv (read (file_len f)) rs (fun a _ => Q a)) -> caches_ok s ->
  keeps (with_validated_pack_file fs pack_path read) s (fun a _ => Q a).
Proof.
  intros Hr Hs. unfold runs, with_validated_pack_file. rewrite Hopen. cbv zeta.
  pose proof (validate_header_over (file_bytes f)) as Hv.
  set (reopen := match validate_pack_header _ with (Ok _, _) => _ | (Err _, _) => _ | (Panic, _) => _ | (NoFuel, _) => _ end).
  assert (Hreopen : caches_ok reopen.2 /\ forall a, reopen.1 = Ok a -> Q a).
  { unfold reopen. destruct (validate_pack_header (MkCursor (file_bytes f) 0)) as [[[]|e| |] file]; try done.
    pose proof (run_on_file read Q file s Hr Hs Hv) as Hrun.
    by destruct (read (file_len f) (object_read_cache s, file)) as [o [cache file']]. }
  destruct (last_pack_file s) as [l|] eqn:El; [|done]. destruct (_ && _) eqn:Eb; [|done].
  apply andb_true_iff in Eb as [[Ep%bool_decide_eq_true Em%bool_decide_eq_true]%andb_true_iff Elen%N.eqb_eq].
  assert (Hf : over (file_bytes f) (lf_file l)) by (apply (co_file s Hs l f); by rewrite ?Ep).
  pose proof (run_on_file read Q (lf_file l) s Hr Hs Hf) as Hrun.
  by destruct (read (file_len f) (object_read_cache s, lf_file l)) as [o [cache file']].
Qed.

Lemma validated_Ok {A} (read : N -> rd ReadState A) a s c :
  (forall rs, inv rs -> exists rs', read (file_len f) rs = (Ok a, rs')) -> caches_ok s ->
  validate_pack_header (MkCursor (file_bytes f) 0) = (Ok tt, c) ->
  exists s', with_validated_pack_file fs pack_path read s = (Ok a, s').
Proof.
  intros Hr Hs Hv. unfold with_validated_pack_file. rewrite Hopen, Hv.
  pose proof (validate_header_over (file_bytes f)) as Ho. rewrite Hv in Ho. cbv zeta.
  assert (Hrun : forall file, over (file_bytes f) file -> exists s', (let '(o, (cache, file)) :=
      read (file_len f) (object_read_cache s, file) in
      (o, set_last_file (Some (MkLastFile pack_path (file_modified f) (file_len f) file)) cache s)) = (Ok a, s')).
  { intros file Hf. destruct (Hr (object_read_cache s, file)) as [[cache file'] ->]; [by destruct Hs|]. by eexists. }
  destruct (last_pack_file s) as [l|] eqn:El; [|by apply Hrun]. destruct (_ && _) eqn:Eb; [|by apply Hrun].
  apply andb_true_iff in Eb as [[Ep%bool_decide_eq_true Em%bool_decide_eq_true]%andb_true_iff Elen%N.eqb_eq].
  apply Hrun. apply (co_file s Hs l f); by rewrite ?Ep.
Qed.

Lemma set_read_cache_ok s offset n kind content :
  caches_ok s -> chain (D := D) st (file_bytes f) index offset n kind content ->
  caches_ok (set_read_cache (ReadCache.insert (object_read_cache s) (pack_path, offset) kind content) s).
Proof.
  intros Hs Hc. destruct Hs as [Hp Hl Hf Hr Hco Hi]. split; try done; cbn; [by apply insert_wf|].
  by eapply coherent_insert.
Qed.

(** An object read from a pack is what its chain stands for, under the id that was asked for. *)
Lemma read_pack_object_runs offset id s :
  caches_ok s -> keeps (read_pack_object (D := D) left_at st fs pack_path index offset id) s (fun o _ =>
    lo_id o = id /\ hash_object alg (lo_kind o) (lo_content o) = Ok id /\
    exists n, chain (D := D) st (file_bytes f) index offset n (lo_kind o) (lo_content o)).
Proof.
  intros Hs. assert (Hcheck : forall s kind content n, caches_ok s ->
      chain (D := D) st (file_bytes f) index offset n kind content ->
      keeps (fun s => (check_packed_object st id kind content, s)) s (fun o _ =>
        lo_id o = id /\ hash_object alg (lo_kind o) (lo_content o) = Ok id /\
        exists n, chain (D := D) st (file_bytes f) index offset n (lo_kind o) (lo_content o))).
  { clear s Hs. intros s kind content n Hs Hc. split; [done|]. cbn [fst]. unfold check_packed_object.
    intros o. destruct (hash_object alg kind content) as [actual|e| |] eqn:Eh; try done. rewrite bind_Ok.
    case_bool_decide; [|done]. subst actual. cbn [negb check]. rewrite bind_Ok. intros [= <-]. cbn.
    split; [done|]. split; [done|]. by exists n. }
  destruct (ReadCache.get (object_read_cache s) (pack_path, offset)) as [[kind content]|] eqn:Eg.
  - eapply (runs_eq _ (fun s => (check_packed_object st id kind content, s)) s s);
      [by unfold read_pack_object; rewrite Eg|].
    apply (co_coherent s Hs) in Eg as (pack' & index' & n & Hp & Hc). rewrite Hpack in Hp. simplify_eq.
    by apply (Hcheck s kind content n).
  - eapply (runs_eq _ (rbind _ _) s s); [unfold read_pack_object; rewrite Eg; reflexivity|].
    eapply runs_bind; [apply (validated_runs (fun _ => read_at (D := D) left_at st pack_path index offset) (fun r => exists n, chain (D := D) st (file_bytes f) index offset n r.1 r.2));
      [|done]|].
    + intros rs Hrs. apply (runs_read (D := D)); [done|done].
    + intros [kind content] s1 Hs1 [n Hc]. cbn in Hc.
      eapply (runs_eq _ (fun s => (check_packed_object st id kind content, s)) s1); [reflexivity|].
      apply (Hcheck _ kind content n); [|done]. by eapply set_read_cache_ok.
Qed.

Lemma read_pack_object_Ok offset id n kind content s c :
  caches_ok s -> validate_pack_header (MkCursor (file_bytes f) 0) = (Ok tt, c) ->
  chain (D := D) st (file_bytes f) index offset n kind content -> n <= MAX_DELTA_DEPTH ->
  hash_object alg kind content = Ok id ->
  exists s', read_pack_object (D := D) left_at st fs pack_path index offset id s
             = (Ok (MkLooseObject id kind content), s').
Proof.
  intros Hs Hv Hc Hn Hh.
  assert (Hcheck : check_packed_object st id kind content = Ok (MkLooseObject id kind content)).
  { unfold check_packed_object. rewrite Hh, bind_Ok, bool_decide_true by done. done. }
  unfold read_pack_object. destruct (ReadCache.get (object_read_cache s) (pack_path, offset)) as [[kind' content']|] eqn:Eg.
  - apply (co_coherent s Hs) in Eg as (pack' & index' & n' & Hp & Hc'). rewrite Hpack in Hp. simplify_eq.
    destruct (chain_det _ _ _ _ _ _ _ _ _ _ Hc Hc') as (-> & -> & ->). rewrite Hcheck. by eexists.
  - destruct (validated_Ok (fun _ => read_at (D := D) left_at st pack_path index offset) (kind, content) s c)
      as [s' E]; [|done|done|].
    + intros rs Hrs. eapply (read_complete (D := D)); [done|done|lia|lia|done].
    + unfold rbind. rewrite E, Hcheck. by eexists.
Qed.
End one_file.

(** *** Objects the store has *)

Lemma listing_idx idx_path : idx_path ∈ listing -> extension idx_path = Some (bstr "idx").
Proof.
  unfold listing. destruct (fs_pack_dir fs) as [dir|]; [|by intros ?%elem_of_nil].
  rewrite (sort_by_perm id cmp_bytes). by intros [Hi _]%list_elem_of_filter.
Qed.

(** A listed index that can be read, and the pack next to it. *)
Lemma listed_pack idx_path f index :
  idx_path ∈ listing -> read_index fs idx_path alg = Ok index ->
  open fs (with_extension idx_path (bstr "pack")) = Ok f ->
  pack_with_index (with_extension idx_path (bstr "pack")) = Some (file_bytes f, index).
Proof.
  intros Hin Hi Ho. unfold pack_with_index. by rewrite Ho, pack_path_back, Hi by by apply listing_idx.
Qed.

(** The entry for an id in a listed pack stands for an object. *)
Definition served (id : ObjectId) (o : LooseObject) (n : nat) : Prop :=
  lo_id o = id /\ hash_object alg (lo_kind o) (lo_content o) = Ok id /\
  exists idx_path index offset f, idx_path ∈ listing /\ read_index fs idx_path alg = Ok index /\
    offset_for index id = Ok (Some offset) /\ open fs (with_extension idx_path (bstr "pack")) = Ok f /\
    chain (D := D) st (file_bytes f) index offset n (lo_kind o) (lo_content o).

(** No index can be read and has the id. *)
Definition absent_everywhere (id : ObjectId) : Prop := forall idx_path, idx_path ∈ listing -> absent id idx_path.

Lemma packed_read_runs id s :
  caches_ok s -> keeps (packed_read_object (D := D) left_at st fs id) s (fun o _ => exists n, served id o n).
Proof.
  intros Hs. unfold packed_read_object. eapply runs_bind; [by apply runs_lift|]. intros _ s1 _ [-> _].
  eapply runs_bind; [by apply lookup_runs|]. intros [[pack_path index offset]|] s1 Hs1 Hf; [|by split].
  destruct Hf as (idx_path & Hin & Hi & -> & Ho). cbn [lk_pack_path lk_index lk_offset].
  destruct (open fs (with_extension idx_path (bstr "pack"))) as [f|e| |] eqn:Ef.
  - eapply runs_weaken; [apply (read_pack_object_runs _ f index Ef); [by apply listed_pack|done]|].
    intros o _ (Hid & Hh & n & Hc). exists n. split; [done|]. split; [done|]. eauto 10.
  - assert (Hn : ReadCache.get (object_read_cache s1) (with_extension idx_path (bstr "pack"), offset) = None).
    { destruct (ReadCache.get _ _) as [[kind content]|] eqn:Eg; [|done].
      apply (co_coherent s1 Hs1) in Eg as (pack' & index' & n & Hp & _). unfold pack_with_index in Hp. by rewrite Ef in Hp. }
    unfold runs, read_pack_object. rewrite Hn. unfold rbind, with_validated_pack_file. by rewrite Ef.
  - unfold open in Ef. by destruct (fs_files fs !! _).
  - unfold open in Ef. by destruct (fs_files fs !! _).
Qed.

(** What a listed entry must be for the store to return its object. *)
Definition sound_entry (id : ObjectId) (idx_path : bytes) : Prop := forall index offset,
  read_index fs idx_path alg = Ok index -> offset_for index id = Ok (Some offset) ->
  exists f c n kind content, open fs (with_extension idx_path (bstr "pack")) = Ok f /\
    validate_pack_header (MkCursor (file_bytes f) 0) = (Ok tt, c) /\
    chain (D := D) st (file_bytes f) index offset n kind content /\ n <= MAX_DELTA_DEPTH /\
    hash_object alg kind content = Ok id.

Lemma packed_read_Ok id s :
  caches_ok s -> algorithm id = alg -> readable id -> (forall idx_path, idx_path ∈ listing -> sound_entry id idx_path) ->
  exists s', (absent_everywhere id /\
              packed_read_object (D := D) left_at st fs id s = (fail NotFound "packed git object not found", s')) \/
             (exists o n, served id o n /\ n <= MAX_DELTA_DEPTH /\
              packed_read_object (D := D) left_at st fs id s = (Ok o, s')).
Proof.
  intros Hs Ha Hr He. unfold packed_read_object, check_algorithm. rewrite bool_decide_true by done. cbn [negb check].
  change (rbind (rlift (Ok ?a)) ?f ?x) with (f a x). cbv beta.
  destruct (lookup_Ok id s Hr Hs) as (r & s1 & E). pose proof (lookup_runs id s Hs) as [Hs1 Hf].
  rewrite E in Hs1, Hf. rewrite (rbind_Ok _ _ _ _ _ E). specialize (Hf r eq_refl). cbn [snd] in Hs1.
  destruct r as [[pack_path index offset]|]; [|by exists s1; left].
  destruct Hf as (idx_path & Hin & Hi & -> & Ho).
  destruct (He idx_path Hin index offset Hi Ho) as (f & c & n & kind & content & Ef & Ev & Hc & Hn & Hh).
  destruct (read_pack_object_Ok _ f index Ef (listed_pack idx_path f index Hin Hi Ef) offset id n kind content s1 c)
    as (s' & E'); [done..|]. exists s'. right. exists (MkLooseObject id kind content), n.
  split; [|done]. split; [done|]. split; [done|]. eauto 10.
Qed.
End directory.
