(* ===== verification/PackServe.v ===== *)
(** * Packs served: what the encoder writes and the indexer indexes, the store of packs reads back *)
From S2P Require Import Prelude Order Object Store Reader PackHeader Zlib DeltaRead DeltaWrite PackWrite PackParse.
From S2P Require Import PackIndex PackIndexSpec PackIndexLookup PackIndexing PackRoundtrip PackIndexed.
From S2P Require Import PackStore PackStoreRead PackStoreLookup.

(** ** The entries of an encoded pack are chains of its store *)

Section codec.
Context `{ShaLaws, Crc32Laws} {D : Type} `{ZlibLaws D zlib_source inflated_rest} `{HashKeys}.
Context (alg : GitHashAlgorithm) (index : PackIndex).

#[local] Abbreviation st := (packed_new alg).

Lemma read_zlib_content_whole c t :
  (N.of_nat (length c) <= PARSE_LIMIT)%N ->
  read_zlib_content (D := D) (zlib_compress c ++ t) PARSE_LIMIT (N.of_nat (length c)) = Ok c.
Proof.
  intros Hm. unfold read_zlib_content, read_zlib_decoder_content. rewrite read_limit_Ok by done.
  change (rbind (rlift (Ok ?a)) ?f ?x) with (f a x). cbv beta.
  unfold read_zlib_decoder_content_with_limit, zlib_content_capacity.
  rewrite (proj2 (N.ltb_ge PARSE_LIMIT _)) by done. cbn [check]. rewrite bind_Ok.
  change (rbind (rlift (Ok ?a)) ?f ?x) with (f a x). cbv beta.
  match goal with |- (read_zlib_loop ?fuel _ _ _ _).1 = _ =>
    destruct (read_zlib_loop_whole (D := D) c t fuel (zlib_new (zlib_compress c ++ t)) c PARSE_LIMIT
      (N.of_nat (length c) + 1)%N []) as (d' & E & _);
      [apply inflating_new|lia|lia|cbn [length]; lia|by rewrite E]
  end.
Qed.

Lemma apply_from_reader_whole base delta t out :
  (N.of_nat (length delta) <= PARSE_LIMIT)%N -> delta_sem base PARSE_LIMIT delta = Ok out ->
  apply_zlib_delta_from_reader (D := D) (zlib_compress delta ++ t) base (N.of_nat (length delta)) PARSE_LIMIT = Ok out.
Proof.
  intros Hd Hsem. pose proof (apply_zlib_delta_from_cursor_whole (D := D) base PARSE_LIMIT [] delta t out) as E.
  premise E; [done|]. premise E; [done|]. specialize (E Hsem).
  unfold apply_zlib_delta_from_cursor, decode_cursor, cursor_remaining in E. unfold apply_zlib_delta_from_reader.
  unfold zlib_content_capacity in *. rewrite (proj2 (N.ltb_ge PARSE_LIMIT _)) in * by done.
  cbn [check] in *. rewrite bind_Ok in *. unfold rbind, rlift in E. cbn [cursor_bytes cursor_position] in E.
  rewrite slice_from, drop_0 in E by (cbn; lia). cbn [app length N.of_nat N.to_nat] in E.
  by destruct (apply_delta_from_counted_reader _ _ _ _) as [[o|e| |] d]; simplify_eq.
Qed.

(** An entry on bases that are chains is a chain. *)
Lemma chain_of_entry written P o x base depth t :
  12 <= length P -> (N.of_nat (length P) < 2 ^ 63)%N -> good_object alg o ->
  entry_on written (N.of_nat (length P)) o x base depth -> ordered (map fst written) (N.of_nat (length P)) ->
  (forall offset' o' depth' x', (offset', o', (depth', x')) ∈ written ->
     chain (D := D) st (P ++ x ++ t) index offset' depth' (lo_kind o') (lo_content o')) ->
  chain (D := D) st (P ++ x ++ t) index (N.of_nat (length P)) depth (lo_kind o) (lo_content o).
Proof.
  intros HP Hlen Hgood He Hord Hch. pose proof Hgood as [_ Hsz]. pose proof Hsz as Hsz'. unfold PARSE_LIMIT in Hsz'.
  destruct base as [boff|].
  - destruct He as (b & bd & bx & delta & Hin & -> & Hk & (h & Eh & _ & ->) & Hdl & Hsem).
    assert (Hboff : (boff < N.of_nat (length P))%N).
    { destruct Hord as [_ Hf]. rewrite Forall_forall in Hf. apply Hf.
      rewrite map_map. change (map (fun x => (fst x).1) written) with ((fun x => (fst x).1) <$> written).
      apply list_elem_of_fmap. by exists (boff, b, (bd, bx)). }
    specialize (Hch _ _ _ _ Hin). rewrite <- app_assoc in Hch |- *.
    destruct (read_ofs_header P (N.of_nat (length P)) boff (N.of_nat (length delta)) h (zlib_compress delta ++ t))
      as (c1 & E1 & E2); [lia|lia|cbn; lia|done|done|].
    rewrite <- Hk. eapply chain_ofs; [exact E1|exact E2|exact Hch|].
    rewrite app_assoc, cursor_rest_at. by apply apply_from_reader_whole; [lia|].
  - destruct He as [-> (h & Eh & _ & ->)]. rewrite <- app_assoc.
    eapply chain_base; [apply read_base_header; [cbn; lia|exact Eh]|].
    rewrite app_assoc, cursor_rest_at. by apply read_zlib_content_whole.
Qed.

Lemma writes_good limit written P os bases body all :
  writes alg limit written P os bases body all -> (N.of_nat (length body) < 2 ^ 63)%N ->
  Forall (fun '(offset, o, (depth, _)) => depth <= limit /\ good_object alg o /\ (offset < 2 ^ 63)%N) written ->
  Forall (fun '(offset, o, (depth, _)) => depth <= limit /\ good_object alg o /\ (offset < 2 ^ 63)%N) all.
Proof.
  induction 1 as [|written P o os x base bases depth body all Hg Hx Hd Hw IH]; intros Hb Hall; [done|].
  destruct (writes_prefix _ _ _ _ _ _ _ _ Hw) as [t Ht]. apply IH; [done|].
  apply Forall_app. split; [done|]. apply Forall_singleton. split_and!; [done..|].
  rewrite Ht, !length_app in Hb. lia.
Qed.

Lemma writes_chains limit written P os bases body all trailer :
  writes alg limit written P os bases body all ->
  12 <= length P -> (N.of_nat (length body) < 2 ^ 63)%N -> ordered (map fst written) (N.of_nat (length P)) ->
  Forall (fun '(offset, o, (depth, _)) =>
            chain (D := D) st (body ++ trailer) index offset depth (lo_kind o) (lo_content o)) written ->
  Forall (fun '(offset, o, (depth, _)) =>
            chain (D := D) st (body ++ trailer) index offset depth (lo_kind o) (lo_content o)) all.
Proof.
  induction 1 as [|written P o os x base bases depth body all Hg Hx Hd Hw IH]; intros HP Hb Hord Hall; [done|].
  pose proof (entry_nonempty _ _ _ _ (entry_on_of _ _ _ _ _ _ Hx)) as Hxn.
  destruct (writes_prefix _ _ _ _ _ _ _ _ Hw) as [t Ht].
  assert (HbP : (N.of_nat (length P) < 2 ^ 63)%N) by (rewrite Ht, !length_app in Hb; lia).
  apply IH; [rewrite length_app; lia|done|by apply ordered_next|].
  apply Forall_app. split; [done|]. apply Forall_singleton.
  assert (Et : body ++ trailer = P ++ x ++ (t ++ trailer)) by (rewrite Ht; solve_app).
  rewrite Et in Hall |- *. eapply chain_of_entry; try done.
  intros offset' o' depth' x' Hin. rewrite Forall_forall in Hall. by apply Hall in Hin.
Qed.

(** The index entries of texts that follow each other. *)
Fixpoint entries_at (offset : N) (ids : list ObjectId) (texts : list bytes) : list PackIndexEntry :=
  match ids, texts with
  | id :: ids, x :: texts =>
      MkPackEntry offset id (crc32_hash x) :: entries_at (offset + N.of_nat (length x)) ids texts
  | _, _ => []
  end.

Lemma writes_layout limit written P os bases body all :
  writes alg limit written P os bases body all -> exists texts, length texts = length os /\
    body = P ++ concat texts /\
    map entry_for all = map entry_for written ++ entries_at (N.of_nat (length P)) (map lo_id os) texts.
Proof.
  induction 1 as [|written P o os x base bases depth body all _ _ _ _ (texts & Hl & -> & Ha)].
  - exists []. by rewrite !app_nil_r.
  - exists (x :: texts). split; [cbn; lia|]. split; [cbn [concat]; solve_app|].
    rewrite Ha, map_app, length_app, Nat2N.inj_add. cbn [map entries_at entry_for]. by rewrite <- app_assoc.
Qed.

Lemma writes_objects limit written P os bases body all :
  writes alg limit written P os bases body all -> map (fun w => w.1.2) all = map (fun w => w.1.2) written ++ os.
Proof.
  induction 1 as [|written P o os x base bases depth body all _ _ _ _ IH]; [by rewrite app_nil_r|].
  by rewrite IH, map_app, <- app_assoc.
Qed.
End codec.

(** ** An encoded pack and its index *)

Section encoded.
Context `{ShaLaws, Crc32Laws, UnstableSortLaws} {D : Type} `{ZlibLaws D zlib_source inflated_rest} `{HashKeys}.
Context {St : Type} `{GitObjectStore St} (store : St) (alg : GitHashAlgorithm).

Lemma validate_preamble count t : (count < 2 ^ 32)%N ->
  exists c, validate_pack_header (MkCursor (pack_preamble count ++ t) 0) = (Ok tt, c).
Proof.
  intros Hc. unfold validate_pack_header.
  rewrite (rbind_Ok (seek 0) _ _ tt (MkCursor (pack_preamble count ++ t) 0)) by done.
  destruct (read_exact_app (MkCursor (pack_preamble count ++ t) 0) (pack_preamble count) t cursor_total)
    as (c & E & _); [done|]. rewrite length_preamble in E. rewrite (rbind_Ok _ _ _ _ _ E).
  unfold rlift. rewrite parse_preamble, bind_Ok by done. by eexists.
Qed.

(** An encoded pack, the entries its index is made of, and what a search of the index finds. *)
Lemma encoded_indexed options ids os :
  Forall2 (stored_as store alg) ids os -> (N.of_nat (length ids) <= PACK_OBJECT_CONTENT_NOT_RETAINED)%N ->
  exists body pack_id all ip pi l,
    encode_pack_from_store_with_options store alg ids options = Ok (body ++ as_bytes pack_id) /\
    (exists bases, writes alg (opt_depth options) [] (pack_preamble (N.of_nat (length os))) os bases body all) /\
    (N.of_nat (length body) < 2 ^ 63)%N /\
    (forall external collect, exists metadata, indexed_entries (D := D) alg (body ++ as_bytes pack_id) external collect
       = Ok (pack_id, map entry_for all, length body, metadata)) /\
    index_pack_from_entries alg pack_id (map entry_for all) V2 = Ok ip /\
    read_bytes (ip_index ip) alg = Ok pi /\ pi_algorithm pi = alg /\ lists pi V2 pack_id l /\ l ≡ₚ map entry_for all /\
    weakly_sorted (fun e => as_bytes (pe_object_id e)) cmp_bytes l /\
    pack_index_matches_entries pi V2 pack_id (map entry_for all) = Ok true.
Proof.
  intros Ho Hn. destruct (encode_pack_writes store alg ids os options Ho Hn) as (bases & body & all & Hw & E).
  pose proof (Forall2_length _ _ _ Ho) as Hl. rewrite Hl in Hn.
  pose proof (encodes_bound _ _ _ _ _ (writes_encodes _ _ _ _ _ _ _ _ Hw)) as Hb.
  pose proof (length_preamble (N.of_nat (length os))) as Hp. pose proof Hn as Hn'.
  unfold PACK_OBJECT_CONTENT_NOT_RETAINED, PACK_OBJECT_CONTENT_SLOT_MASK in Hn'.
  rewrite Hp in Hb. change (2 ^ 31)%N with 2147483648%N in Hb.
  destruct (hash_pack alg body) as (pack_id & Eh & Hwf & Halg).
  assert (Hbody : (N.of_nat (length body) < 2 ^ 63)%N) by lia.
  assert (Hall : Forall (entry_ok alg) (map entry_for all)).
  { pose proof (writes_good alg _ _ _ _ _ _ _ Hw Hbody (Forall_nil_2 _)) as Hc.
    apply Forall_map. eapply Forall_impl; [exact Hc|]. intros [[offset o] [depth x]] (_ & [Hid _] & Hoff).
    apply hash_object_wf in Hid as [Hw1 Hw2]. split_and!; cbn; [done|done|lia|apply crc32_bound]. }
  assert (Hlen : length (map entry_for all) = length os).
  { pose proof (writes_objects _ _ _ _ _ _ _ _ Hw) as Hobj. cbn [map app] in Hobj.
    apply (f_equal length) in Hobj. rewrite length_map in Hobj |- *. done. }
  destruct (index_entries_Ok alg V2 pack_id (map entry_for all)) as (ip & pi & l & E1 & E2 & Hpa & Hli & Hpe & Hs & _ & _ & Hm);
    [done|lia|done|done|done|].
  exists body, pack_id, all, ip, pi, l. unfold append_pack_checksum in E. rewrite Eh in E.
  split; [exact E|]. split; [by exists bases|]. split; [done|]. split; [|done].
  intros external collect. by apply (indexed_entries_Ok collect alg (opt_depth options) external os bases).
Qed.

(** A pack written for stored objects, with deltas or without, is indexed as it is laid out: every
    object under its id, at the offset where its text begins, with the checksum of its text; the
    index lists the entries by id, and verification finds that it matches the pack. *)
Theorem encoded_pack_indexed options ids os :
  Forall2 (stored_as store alg) ids os -> (N.of_nat (length ids) <= PACK_OBJECT_CONTENT_NOT_RETAINED)%N ->
  exists pack pack_id texts ip l,
    encode_pack_from_store_with_options store alg ids options = Ok pack /\
    pack = pack_preamble (N.of_nat (length os)) ++ concat texts ++ as_bytes pack_id /\ length texts = length os /\
    index_pack_bytes (D := D) alg pack = Ok ip /\ ip_pack_id ip = pack_id /\ ip_objects ip = length os /\
    decode_pack_index alg (ip_index ip) = Ok l /\ l ≡ₚ entries_at 12 (map lo_id os) texts /\
    weakly_sorted (fun e => as_bytes (pe_object_id e)) cmp_bytes l /\
    verify_pack_matches_index_with_version (D := D) alg pack (ip_index ip) V2 false = Ok (MkVerifiedMatch (length os) []).
Proof.
  intros Ho Hn. destruct (encoded_indexed options ids os Ho Hn)
    as (body & pack_id & all & ip & pi & l & E & (bases & Hw) & _ & Hie & Ei & Er & _ & Hli & Hpe & Hs & Hm).
  destruct (writes_layout _ _ _ _ _ _ _ _ Hw) as (texts & Hl & Eb & Ea). cbn [map app] in Ea.
  rewrite length_preamble in Ea. change (N.of_nat 12) with 12%N in Ea. pose proof (f_equal length (writes_objects _ _ _ _ _ _ _ _ Hw)) as Hlen.
  rewrite length_map in Hlen. cbn [map app] in Hlen.
  assert (Hip : ip_pack_id ip = pack_id /\ ip_objects ip = length os).
  { unfold index_pack_from_entries in Ei. inv_ok. cbn. by rewrite length_map. }
  exists (body ++ as_bytes pack_id), pack_id, texts, ip, l. rewrite <- Ea.
  destruct (Hie None false) as [metadata Hie'].
  split_and!; try done; [by rewrite Eb, <- app_assoc|..|by apply Hip|by apply Hip| |].
  - unfold index_pack_bytes, index_pack_bytes_with_version. by rewrite Hie', bind_Ok.
  - unfold decode_pack_index. rewrite Er, bind_Ok. by rewrite (pi_entries_lists pi V2 pack_id l Hli), map_id.
  - unfold verify_pack_matches_index_with_version, verified_pack_index_match_from_entries.
    rewrite Er, bind_Ok, Hie', bind_Ok, Hm, bind_Ok. cbn. by rewrite length_map, Hlen.
Qed.

(** A directory with one pack: the encoded pack and the index made for it. *)
Record serves (fs : ObjectsFs) (idx_path pack idx : bytes) : Prop := {
  sv_listing : listing fs = [idx_path];
  sv_idx : exists f, fs_files fs !! idx_path = Some f /\ file_bytes f = idx;
  sv_pack : exists f, fs_files fs !! with_extension idx_path (bstr "pack") = Some f /\ file_bytes f = pack
}.

Lemma written_objects index options os bases body all pack_id :
  writes alg (opt_depth options) [] (pack_preamble (N.of_nat (length os))) os bases body all ->
  (N.of_nat (length body) < 2 ^ 63)%N ->
  (forall offset o depth x, (offset, o, (depth, x)) ∈ all -> o ∈ os /\ depth <= opt_depth options /\
     hash_object alg (lo_kind o) (lo_content o) = Ok (lo_id o) /\
     chain (D := D) (packed_new alg) (body ++ as_bytes pack_id) index offset depth (lo_kind o) (lo_content o)) /\
  (forall o, o ∈ os -> exists offset depth x, (offset, o, (depth, x)) ∈ all).
Proof.
  intros Hw Hb. pose proof (writes_objects _ _ _ _ _ _ _ _ Hw) as Hos. cbn [map app] in Hos.
  pose proof (writes_chains (D := D) alg index _ _ _ _ _ _ _ (as_bytes pack_id) Hw) as Hch.
  premise Hch; [by rewrite length_preamble|]. premise Hch; [done|]. premise Hch; [split; constructor|].
  premise Hch; [constructor|]. pose proof (writes_good alg _ _ _ _ _ _ _ Hw Hb (Forall_nil_2 _)) as Hgood.
  rewrite Forall_forall in Hch, Hgood. change (map (fun w => w.1.2) all) with ((fun w => w.1.2) <$> all) in Hos. split.
  - intros offset o depth x Hin. destruct (Hgood _ Hin) as (Hdep & [Hh _] & _). split_and!; [|done|done|exact (Hch _ Hin)].
    rewrite <- Hos. apply list_elem_of_fmap. by exists (offset, o, (depth, x)).
  - intros o Ho. rewrite <- Hos in Ho. apply list_elem_of_fmap in Ho as ([[offset o'] [depth x]] & -> & Hin).
    by exists offset, depth, x.
Qed.

(** Stored objects with the same id are the same. *)
Lemma stored_unique os o o' :
  Forall2 (stored_as store alg) (map lo_id os) os -> o ∈ os -> o' ∈ os -> lo_id o' = lo_id o -> o' = o.
Proof.
  intros Ho (i & Hi)%list_elem_of_lookup (j & Hj)%list_elem_of_lookup Hid.
  assert (Hread : forall k x, os !! k = Some x -> read_object store (lo_id x) = Ok x).
  { intros k x Hk. pose proof (Forall2_lookup_r _ _ _ _ _ Ho Hk) as (id & Hidk & _ & Hr & _).
    change (map lo_id os) with (lo_id <$> os) in Hidk. rewrite list_lookup_fmap, Hk in Hidk. by injection Hidk as <-. }
  pose proof (Hread _ _ Hi) as E. pose proof (Hread _ _ Hj) as E'. rewrite Hid in E'. congruence.
Qed.

Lemma served_index fs idx_path pack idx pi :
  serves fs idx_path pack idx -> read_bytes idx alg = Ok pi ->
  read_index fs idx_path alg = Ok pi /\
  exists f, open fs (with_extension idx_path (bstr "pack")) = Ok f /\ file_bytes f = pack.
Proof.
  intros [_ (fi & Hfi & <-) (fp & Hfp & <-)] Er. unfold read_index, open. rewrite Hfi, Hfp. cbn [ok_or].
  rewrite bind_Ok. split; [done|]. by exists fp.
Qed.

(** What the index says of an id, in terms of what was written. *)
Lemma entry_found pi pack_id l (all : list (N * LooseObject * (nat * bytes))) id :
  lists pi V2 pack_id l -> (l ≡ₚ map entry_for all) -> weakly_sorted (fun e => as_bytes (pe_object_id e)) cmp_bytes l ->
  ObjectId_wf id -> algorithm id = pi_algorithm pi ->
  exists r, offset_for pi id = Ok r /\
    match r with
    | Some offset => exists o depth x, (offset, o, (depth, x)) ∈ all /\ lo_id o = id
    | None => forall offset o depth x, (offset, o, (depth, x)) ∈ all -> lo_id o <> id
    end.
Proof.
  intros Hli Hpe Hs Hwf Ha. destruct (offset_for_lists pi V2 pack_id l Hli Hs id Hwf Ha) as (r & E & Hr).
  exists r. split; [done|].
  assert (Hin : forall e, e ∈ l <-> e ∈ entry_for <$> all) by (intros e; by rewrite Hpe).
  destruct r as [offset|].
  - destruct Hr as (e & He & Hid & <-). apply Hin, list_elem_of_fmap in He as ([[offset o] [depth x]] & -> & Hw).
    cbn in Hid |- *. eauto.
  - intros offset o depth x Hw Hid. apply (Hr (MkPackEntry offset (lo_id o) (crc32_hash x))); [|done].
    apply Hin, list_elem_of_fmap. by exists (offset, o, (depth, x)).
Qed.

Lemma loose_object_eq (o o' : LooseObject) :
  lo_id o = lo_id o' -> lo_kind o' = lo_kind o -> lo_content o' = lo_content o -> o = o'.
Proof. destruct o, o'. cbn. congruence. Qed.

(** The reads of a directory with one pack, from what its index finds and its entries stand for. *)
Lemma served_reads fs idx_path s id f c pi r (objects : list LooseObject) left_at :
  listing fs = [idx_path] -> read_index fs idx_path alg = Ok pi ->
  open fs (with_extension idx_path (bstr "pack")) = Ok f ->
  validate_pack_header (MkCursor (file_bytes f) 0) = (Ok tt, c) ->
  caches_ok (D := D) (packed_new alg) fs s -> algorithm id = alg -> offset_for pi id = Ok r ->
  match r with
  | Some offset => exists o n, o ∈ objects /\ lo_id o = id /\ n <= MAX_DELTA_DEPTH /\
      hash_object alg (lo_kind o) (lo_content o) = Ok id /\
      chain (D := D) (packed_new alg) (file_bytes f) pi offset n (lo_kind o) (lo_content o)
  | None => id ∉ map lo_id objects
  end ->
  exists s', ((id ∉ map lo_id objects) /\
      packed_read_object (D := D) left_at (packed_new alg) fs id s = (fail NotFound "packed git object not found", s')) \/
    (exists o, o ∈ objects /\ lo_id o = id /\
      packed_read_object (D := D) left_at (packed_new alg) fs id s = (Ok o, s')).
Proof.
  intros Hl Hi Ho Hv Hs Ha Eo Hr.
  destruct (packed_read_Ok (D := D) left_at (packed_new alg) fs id s Hs Ha) as (s' & [[Habs Hread]|(o & n & Hsv & _ & Hread)]).
  - intros p. rewrite Hl. intros ->%list_elem_of_singleton. by exists pi, r.
  - intros p. rewrite Hl. intros ->%list_elem_of_singleton. intros index offset Hi' Eo'. simplify_eq.
    cbn in Hi', Eo'. assert (index = pi) as -> by congruence. assert (r = Some offset) as -> by congruence.
    destruct Hr as (o & n & _ & _ & Hn & Hh & Hch). exists f, c, n, (lo_kind o), (lo_content o).
    split; [exact Ho|]. split; [exact Hv|]. split; [exact Hch|]. split; [exact Hn|exact Hh].
  - exists s'. left. split; [|done]. destruct (Habs idx_path) as [(index & Hi' & Eo')|(e & Hi' & _)];
      [rewrite Hl; by left| |cbn in Hi'; congruence].
    cbn in Hi'. assert (index = pi) as -> by congruence. by assert (r = None) as -> by congruence.
  - exists s'. right. exists o. destruct Hsv as (Hid & _ & p & index & offset & f' & Hp & Hi' & Eo' & Ho' & Hch).
    rewrite Hl in Hp. apply list_elem_of_singleton in Hp as ->. cbn in Hi'.
    assert (index = pi) as -> by congruence. assert (r = Some offset) as -> by congruence.
    assert (f' = f) as -> by congruence. destruct Hr as (o' & n' & Hin & Hid' & _ & _ & Hch').
    destruct (chain_det _ _ _ _ _ _ _ _ _ _ Hch Hch') as (_ & Hk & Hco).
    split; [rewrite (loose_object_eq o o'); [exact Hin|congruence|exact Hk|exact Hco]|]. split; [exact Hid|exact Hread].
Qed.

(** C5: from encoding to reading: when the pack written for stored objects and the index made for it
    are put in the pack directory, the store returns each of the objects under its id, whatever its
    caches hold as long as they are coherent, and they stay so; any other id is not found. *)
Theorem encoded_pack_served options os (left_at : Cursor -> N) :
  Forall2 (stored_as store alg) (map lo_id os) os ->
  (N.of_nat (length os) <= PACK_OBJECT_CONTENT_NOT_RETAINED)%N -> opt_depth options <= MAX_DELTA_DEPTH ->
  exists pack ip, encode_pack_from_store_with_options store alg (map lo_id os) options = Ok pack /\
    index_pack_bytes (D := D) alg pack = Ok ip /\
    forall fs idx_path s id, serves fs idx_path pack (ip_index ip) ->
      caches_ok (D := D) (packed_new alg) fs s -> ObjectId_wf id -> algorithm id = alg ->
      exists r s', packed_read_object (D := D) left_at (packed_new alg) fs id s = (r, s') /\
        caches_ok (D := D) (packed_new alg) fs s' /\
        (forall o, o ∈ os -> lo_id o = id -> r = Ok o) /\
        (id ∉ map lo_id os -> r = fail NotFound "packed git object not found").
Proof.
  intros Ho Hn Hd. destruct (encoded_indexed options (map lo_id os) os Ho)
    as (body & pack_id & all & ip & pi & l & E & (bases & Hw) & Hb & Hie & Ei & Er & Hpa & Hli & Hpe & Hs & _);
    [by rewrite length_map|].
  exists (body ++ as_bytes pack_id), ip. split; [done|]. destruct (Hie None false) as [metadata Hie'].
  split; [unfold index_pack_bytes, index_pack_bytes_with_version; by rewrite Hie', bind_Ok|].
  intros fs idx_path s id Hsv Hc Hwf Ha.
  destruct (served_index fs idx_path _ _ pi Hsv Er) as (Hpi & f & Hopen & Hf).
  destruct (entry_found pi pack_id l all id) as (r & Eo & Hr); [done..|congruence|].
  pose proof (written_objects pi options os bases body all pack_id Hw Hb) as Hall. rewrite <- Hf in Hall.
  destruct (writes_prefix _ _ _ _ _ _ _ _ Hw) as [t Ht].
  destruct (validate_preamble (N.of_nat (length os)) (t ++ as_bytes pack_id)) as [c Hv].
  { unfold PACK_OBJECT_CONTENT_NOT_RETAINED, PACK_OBJECT_CONTENT_SLOT_MASK in Hn. lia. }
  rewrite app_assoc, <- Ht, <- Hf in Hv.
  destruct (served_reads fs idx_path s id f c pi r os left_at) as (s' & Hread); [by apply Hsv|done..| |].
  { destruct r as [offset|].
    - destruct Hr as (o & depth & x & Hin & Hid). destruct (proj1 Hall _ _ _ _ Hin) as (Hos & Hdep & Hh & Hch).
      exists o, depth. rewrite <- Hid. split_and!; [done|done|lia|done|done].
    - rewrite list_elem_of_fmap. intros (o & Hid & Hin). destruct (proj2 Hall o Hin) as (offset & depth & x & Hw').
      by apply (Hr offset o depth x). }
  pose proof (packed_read_runs (D := D) left_at (packed_new alg) fs id s Hc) as [Hc' _].
  destruct Hread as [[Hnot E']|(o & Hin & Hid & E')]; eexists _, s'; (split; [exact E'|]);
    rewrite E' in Hc'; (split; [exact Hc'|]).
  - split; [|done]. intros o Hin Hid. exfalso. apply Hnot, list_elem_of_fmap. by exists o.
  - split; [|intros Hnot; exfalso; apply Hnot, list_elem_of_fmap; by exists o].
    intros o' Hin' Hid'. f_equal. apply (stored_unique os); [exact Ho|exact Hin'|exact Hin|congruence].
Qed.
End encoded.

(** ** Any directory *)

Section reads.
Context `{Sha, HashKeys} {D : Type} `{ZlibDecoder bytes D} (left_at : Cursor -> N).
Context (st : PackedObjectStore) (fs : ObjectsFs).

(** C8: whatever the pack directory holds, a read keeps the caches coherent in every outcome, and an
    object it returns has the id that was asked for, hashes to it, and is what the entry that a
    listed index gives for the id stands for: its base object with the deltas of its chain applied. *)
Theorem packed_read_sound id s :
  caches_ok (D := D) st fs s ->
  let '(r, s') := packed_read_object (D := D) left_at st fs id s in
  caches_ok (D := D) st fs s' /\ (forall o, r = Ok o -> exists n, served (D := D) st fs id o n).
Proof.
  intros Hs. pose proof (packed_read_runs (D := D) left_at st fs id s Hs) as [Hc Hr].
  destruct (packed_read_object (D := D) left_at st fs id s) as [r s']. by split.
Qed.

(** C9: when every listed index can be searched, and what it gives for the id is the offset of a chain of
    at most 4095 deltas, the read succeeds, from any coherent caches; when no index gives an offset
    the object is not found. *)
Theorem packed_read_complete id s :
  caches_ok (D := D) st fs s -> algorithm id = pos_algorithm st -> readable st fs id ->
  (forall idx_path, idx_path ∈ listing fs -> sound_entry (D := D) st fs id idx_path) ->
  exists s', (absent_everywhere st fs id /\
              packed_read_object (D := D) left_at st fs id s = (fail NotFound "packed git object not found", s')) \/
             (exists o n, served (D := D) st fs id o n /\ n <= MAX_DELTA_DEPTH /\
              packed_read_object (D := D) left_at st fs id s = (Ok o, s')).
Proof. intros Hs Ha Hr He. by apply packed_read_Ok. Qed.
End reads.

(** ** The cache of indexes *)

(** Reading an index through the cache keeps the cache within 256 indexes and 64 MiB, whatever is
    read and in whatever order the hash map lists its keys; and an index that fits is found there
    afterwards, as it was read. *)
Theorem index_cache_keeps_bounds `{Sha, HashKeysLaws} fs path alg s :
  index_cache_bounded (pack_index_cache s) ->
  let '(r, s') := read_cached_pack_index fs path alg s in
  index_cache_bounded (pack_index_cache s') /\
  (forall index f, r = Ok index -> open fs path = Ok f -> (file_len f <= PACK_INDEX_CACHE_BYTE_LIMIT)%N ->
     pack_index_cache s' !! path = Some (MkCachedIndex (file_modified f) (file_len f) index)).
Proof.
  intros Hb. pose proof (read_cached_bounded fs path alg s Hb) as Hb'.
  destruct (read_cached_pack_index fs path alg s) as [r s'] eqn:E. split; [done|]. intros index f -> Ef Hl.
  unfold read_cached_pack_index in E. rewrite Ef in E. cbv zeta in E. apply N.leb_le in Hl.
  assert (Hread : match read_index fs path alg with
       | Ok index =>
           (Ok index, set_index_cache
              (if pack_index_cache_should_store (file_len f) then
                 <[path := MkCachedIndex (file_modified f) (file_len f) index]>
                   (trim_pack_index_cache_for_insert (pack_index_cache s) path (file_len f))
               else delete path (pack_index_cache s)) s)
       | Err e => (Err e, s) | Panic => (Panic, s) | NoFuel => (NoFuel, s)
       end = (Ok index, s') ->
    pack_index_cache s' !! path = Some (MkCachedIndex (file_modified f) (file_len f) index)).
  { destruct (read_index fs path alg) as [index'|e| |]; try done. unfold pack_index_cache_should_store.
    rewrite Hl. intros [= -> <-]. cbn [pack_index_cache set_index_cache]. apply lookup_insert_eq. }
  destruct (pack_index_cache s !! path) as [entry|] eqn:Ep; [|by apply Hread].
  destruct (_ && _) eqn:Eb; [|by apply Hread]. injection E as <- <-.
  apply andb_true_iff in Eb as [Em%bool_decide_eq_true El%N.eqb_eq]. rewrite Ep. f_equal. destruct entry. cbn in *. by subst.
Qed.

(** ** Witnesses *)

#[local] Existing Instances sample_sha sample_sha_laws marked_encoder stable_sort stable_sort_laws.

#[local] Instance sample_crc : Crc32 := fun bs => (N.of_nat (length bs) mod 2 ^ 32)%N.

#[local] Instance sample_crc_laws : Crc32Laws.
Proof. intros bs. by apply N.mod_lt. Qed.

#[local] Instance sample_keys : HashKeys := fun m => (map_to_list m).*1.

#[local] Instance sample_keys_laws : HashKeysLaws.
Proof. intros m. reflexivity. Qed.

Definition sample_idx_path : bytes := bstr "o/pack/p.idx".

Definition sample_fs (pack idx : bytes) : ObjectsFs :=
  MkFs (Some (MkPackDir (Some 7%N) 4096 [bstr "o/pack/p.pack"; sample_idx_path]))
    (<[sample_idx_path := MkFile (Some 8%N) idx]> {[bstr "o/pack/p.pack" := MkFile (Some 9%N) pack]}).

Lemma sample_serves pack idx : serves (sample_fs pack idx) sample_idx_path pack idx.
Proof.
  split; [vm_compute; reflexivity| |]; eexists; (split; [vm_compute; reflexivity|reflexivity]).
Qed.

Lemma encoded_pack_indexed_witness :
  exists pack ip, encode_pack_from_store_with_options sample_pack_store Sha1 (map lo_id sample_objects)
      (MkPackOptions 10 50) = Ok pack /\
    index_pack_bytes (D := MarkedDecoder) Sha1 pack = Ok ip /\ ip_objects ip = 2.
Proof.
  destruct (encoded_pack_indexed (D := MarkedDecoder) sample_pack_store Sha1 (MkPackOptions 10 50)
    (map lo_id sample_objects) sample_objects sample_stored)
    as (pack & pack_id & texts & ip & l & E & _ & _ & Ei & _ & Hn & _); [vm_compute; discriminate|].
  exists pack, ip. split; [exact E|]. split; [exact Ei|]. rewrite Hn. vm_compute. reflexivity.
Defined.

Lemma encoded_pack_served_witness :
  exists pack ip s, encode_pack_from_store_with_options sample_pack_store Sha1 (map lo_id sample_objects)
      (MkPackOptions 10 50) = Ok pack /\ index_pack_bytes (D := MarkedDecoder) Sha1 pack = Ok ip /\
    packed_read_object (D := MarkedDecoder) (fun _ => 0%N) (packed_new Sha1) (sample_fs pack (ip_index ip))
      (lo_id (sample_object 1)) no_caches = (Ok (sample_object 1), s).
Proof.
  destruct (encoded_pack_served (D := MarkedDecoder) sample_pack_store Sha1 (MkPackOptions 10 50) sample_objects
    (fun _ => 0%N) sample_stored) as (pack & ip & E & Ei & Hserved); [vm_compute; discriminate|vm_compute; lia|].
  destruct (Hserved (sample_fs pack (ip_index ip)) sample_idx_path no_caches (lo_id (sample_object 1))
    (sample_serves _ _) (no_caches_ok _ _)) as (r & s & Er & _ & Hr & _).
  { apply (hash_object_wf Sha1 (lo_kind (sample_object 1)) (lo_content (sample_object 1))). vm_compute. reflexivity. }
  { vm_compute. reflexivity. }
  exists pack, ip, s. split; [exact E|]. split; [exact Ei|]. rewrite Er, (Hr (sample_object 1)); [reflexivity| |reflexivity].
  assert (Hs : sample_objects = [sample_object 0; sample_object 1]) by (vm_compute; reflexivity).
  rewrite Hs. right. left.
Defined.

(** Some pack, its index, and the index read back. *)
Definition sample_pack : bytes := Eval vm_compute in
  match encode_pack_from_store_with_options sample_pack_store Sha1 (map lo_id sample_objects) (MkPackOptions 10 50) with
  | Ok pack => pack
  | _ => []
  end.

Definition sample_idx : bytes := Eval vm_compute in
  match index_pack_bytes (D := MarkedDecoder) Sha1 sample_pack with Ok ip => ip_index ip | _ => [] end.

Definition sample_index : PackIndex := Eval vm_compute in
  match read_bytes sample_idx Sha1 with
  | Ok index => index
  | _ => MkPackIndex [] [] 0 Sha1 V2 (MkLayout 0 0 0 0)
  end.

Abbreviation sample_files := (sample_fs sample_pack sample_idx).

Lemma sample_index_bytes : read_bytes sample_idx Sha1 = Ok sample_index.
Proof. vm_compute. reflexivity. Qed.

Lemma sample_index_read : read_index sample_files sample_idx_path Sha1 = Ok sample_index.
Proof.
  assert (E : open sample_files sample_idx_path = Ok (MkFile (Some 8%N) sample_idx)) by (vm_compute; reflexivity).
  unfold read_index. rewrite E, bind_Ok. apply sample_index_bytes.
Qed.

Lemma sample_read_cached : (read_cached_pack_index sample_files sample_idx_path Sha1 no_caches).1 = Ok sample_index.
Proof.
  assert (E : open sample_files sample_idx_path = Ok (MkFile (Some 8%N) sample_idx)) by (vm_compute; reflexivity).
  unfold read_cached_pack_index. rewrite E, sample_index_read. reflexivity.
Qed.

Lemma sample_offset : offset_for sample_index (lo_id (sample_object 0)) = Ok (Some 12%N).
Proof. vm_compute. reflexivity. Qed.

Lemma sample_listing : listing sample_files = [sample_idx_path].
Proof. vm_compute. reflexivity. Qed.

Lemma sample_chain :
  chain (D := MarkedDecoder) (packed_new Sha1) sample_pack sample_index 12 0 Blob (lo_content (sample_object 0)).
Proof. eapply chain_base; [vm_compute; reflexivity|]. vm_compute. reflexivity. Qed.

Lemma sample_sound_entry idx_path : idx_path ∈ listing sample_files ->
  sound_entry (D := MarkedDecoder) (packed_new Sha1) sample_files (lo_id (sample_object 0)) idx_path.
Proof.
  rewrite sample_listing. intros ->%list_elem_of_singleton index offset Hi Ho.
  change (pos_algorithm (packed_new Sha1)) with Sha1 in *. rewrite sample_index_read in Hi.
  assert (sample_index = index) as <- by congruence. rewrite sample_offset in Ho.
  assert (12%N = offset) as <- by congruence.
  exists (MkFile (Some 9%N) sample_pack).
  destruct (validate_pack_header (MkCursor sample_pack 0)) as [[[]|e| |] c] eqn:Ev; [|exfalso; vm_compute in Ev; discriminate..].
  exists c, 0, Blob, (lo_content (sample_object 0)).
  split; [reflexivity|]. split; [exact Ev|]. split; [exact sample_chain|].
  split; [apply Nat.le_0_l|vm_compute; reflexivity].
Qed.

Lemma sample_readable : readable (packed_new Sha1) sample_files (lo_id (sample_object 0)).
Proof.
  intros p. rewrite sample_listing. intros ->%list_elem_of_singleton.
  exists sample_index, (Some 12%N). split; [exact sample_index_read|exact sample_offset].
Qed.

Lemma sample_not_absent : ~ absent_everywhere (packed_new Sha1) sample_files (lo_id (sample_object 0)).
Proof.
  intros Ha. change (pos_algorithm (packed_new Sha1)) with Sha1 in Ha. destruct (Ha sample_idx_path) as [(index & Hi & Ho)|(e & Hi & _)].
  - rewrite sample_listing. left.
  - change (pos_algorithm (packed_new Sha1)) with Sha1 in Hi. rewrite sample_index_read in Hi.
    assert (sample_index = index) as <- by congruence. rewrite sample_offset in Ho. discriminate Ho.
  - change (pos_algorithm (packed_new Sha1)) with Sha1 in Hi. rewrite sample_index_read in Hi. discriminate Hi.
Qed.

Abbreviation sample_read := (packed_read_object (D := MarkedDecoder) (fun _ => 0%N) (packed_new Sha1) sample_files
  (lo_id (sample_object 0)) no_caches).

Lemma packed_read_sound_witness :
  exists o s n, sample_read = (Ok o, s) /\ caches_ok (D := MarkedDecoder) (packed_new Sha1) sample_files s /\
    served (D := MarkedDecoder) (packed_new Sha1) sample_files (lo_id (sample_object 0)) o n.
Proof.
  pose proof (packed_read_sound (D := MarkedDecoder) (fun _ => 0%N) (packed_new Sha1) sample_files
    (lo_id (sample_object 0)) no_caches (no_caches_ok _ _)) as Hsound.
  destruct (packed_read_Ok (D := MarkedDecoder) (fun _ => 0%N) (packed_new Sha1) sample_files
    (lo_id (sample_object 0)) no_caches (no_caches_ok _ _) eq_refl sample_readable sample_sound_entry)
    as (s & [[Ha _]|(o & n & _ & _ & E)]); [destruct (sample_not_absent Ha)|].
  rewrite E in Hsound. destruct Hsound as [Hs Hserved]. destruct (Hserved o eq_refl) as [n' Hn].
  exists o, s, n'. split; [exact E|]. split; [exact Hs|exact Hn].
Defined.

Lemma packed_read_complete_witness :
  exists o n s, served (D := MarkedDecoder) (packed_new Sha1) sample_files (lo_id (sample_object 0)) o n /\
    sample_read = (Ok o, s).
Proof.
  destruct (packed_read_complete (D := MarkedDecoder) (fun _ => 0%N) (packed_new Sha1) sample_files
    (lo_id (sample_object 0)) no_caches (no_caches_ok _ _) eq_refl sample_readable sample_sound_entry)
    as (s & [[Ha _]|(o & n & Hn & _ & E)]); [destruct (sample_not_absent Ha)|].
  exists o, n, s. split; [exact Hn|exact E].
Defined.

Lemma index_cache_keeps_bounds_witness :
  let s := (read_cached_pack_index sample_files sample_idx_path Sha1 no_caches).2 in
  index_cache_bounded (pack_index_cache s) /\
  pack_index_cache s !! sample_idx_path
  = Some (MkCachedIndex (file_modified (MkFile (Some 8%N) sample_idx)) (file_len (MkFile (Some 8%N) sample_idx)) sample_index).
Proof.
  cbv zeta. pose proof (index_cache_keeps_bounds sample_files sample_idx_path Sha1 no_caches) as Hb.
  destruct (read_cached_pack_index sample_files sample_idx_path Sha1 no_caches) as [r s] eqn:E.
  destruct Hb as [Hb Hin].
  - split; vm_compute; [lia|discriminate].
  - split; [exact Hb|]. apply (Hin sample_index (MkFile (Some 8%N) sample_idx)).
    + apply (f_equal fst) in E. rewrite sample_read_cached in E. symmetry. exact E.
    + reflexivity.
    + vm_compute. discriminate.
Defined.
