(* ===== verification/PackMerge.v ===== *)
(** * Ids of several packs: the merge of pack indexes (zmin-git-core/src/pack.rs) *)
From S2P Require Import Prelude Order Object PackIndex PackStore Reader.

(** ** Definitions *)

Record PackIndexScanLayout : Set := MkScanLayout { sl_digest_len : nat; sl_names_start : nat }.

Record PackIndexCursor : Set := MkIndexCursor {
  pc_id : bytes;
  pc_index : nat;
  pc_position : nat;
  pc_layout : PackIndexScanLayout
}.

(** [Ord::cmp], in which the smallest id is the greatest cursor. *)
Definition cursor_cmp (self other : PackIndexCursor) : comparison :=
  then_cmp (cmp_bytes (pc_id other) (pc_id self))
    (then_cmp (Nat.compare (pc_index other) (pc_index self)) (Nat.compare (pc_position other) (pc_position self))).

(** *** The binary heap of the standard library: its greatest element comes first *)

Abbreviation heap_of_cursors := (list PackIndexCursor).

Definition heap_push (cursor : PackIndexCursor) (heap : heap_of_cursors) : heap_of_cursors :=
  insert_by (fun x y => cursor_cmp y x) cursor heap.

Definition heap_pop (heap : heap_of_cursors) : option (PackIndexCursor * heap_of_cursors) :=
  match heap with
  | [] => None
  | cursor :: heap => Some (cursor, heap)
  end.

Definition heap_peek (heap : heap_of_cursors) : option PackIndexCursor := head heap.

(** *** Cursors *)

Definition scan_layout (pi : PackIndex) : PackIndexScanLayout :=
  MkScanLayout (digest_len (pi_algorithm pi)) (pi_names_start pi).

Definition push_pack_index_cursor_with_layout (pi : PackIndex) (index position : nat) (layout : PackIndexScanLayout)
  (heap : heap_of_cursors) : outcome heap_of_cursors :=
  if position <? pi_count pi then
    id ← object_bytes_at_with_layout pi position (sl_digest_len layout) (sl_names_start layout);
    Ok (heap_push (MkIndexCursor id index position layout) heap)
  else Ok heap.

Definition push_pack_index_cursor (indexes : list PackIndex) (index position : nat) (heap : heap_of_cursors)
  : outcome heap_of_cursors :=
  pi ← index_at indexes index;
  push_pack_index_cursor_with_layout pi index position (scan_layout pi) heap.

(** The loop that passes the entries with the current id. *)
Fixpoint advance_loop (fuel : nat) (pi : PackIndex) (layout : PackIndexScanLayout) (current_id : bytes) (position : nat)
  : outcome nat :=
  match fuel with
  | 0 => NoFuel
  | S fuel =>
      if position <? pi_count pi then
        id ← object_bytes_at_with_layout pi position (sl_digest_len layout) (sl_names_start layout);
        if bool_decide (id = current_id) then advance_loop fuel pi layout current_id (position + 1) else Ok position
      else Ok position
  end.

Definition advance_pack_index_cursor (indexes : list PackIndex) (cursor : PackIndexCursor) (current_id : bytes)
  (heap : heap_of_cursors) : outcome heap_of_cursors :=
  pi ← index_at indexes (pc_index cursor);
  position ← advance_loop (S (pi_count pi)) pi (pc_layout cursor) current_id (pc_position cursor);
  push_pack_index_cursor_with_layout pi (pc_index cursor) position (pc_layout cursor) heap.

(** *** The merge *)

(** The loop over the other cursors that stand on the id. *)
Fixpoint same_id_loop (fuel : nat) (indexes : list PackIndex) (min_id : bytes) (heap : heap_of_cursors)
  : outcome heap_of_cursors :=
  match fuel with
  | 0 => NoFuel
  | S fuel =>
      match heap_peek heap with
      | Some entry =>
          if bool_decide (pc_id entry = min_id) then
            match heap_pop heap with
            | Some (entry, heap) =>
                heap ← advance_pack_index_cursor indexes entry min_id heap;
                same_id_loop fuel indexes min_id heap
            | None => Panic
            end
          else Ok heap
      | None => Ok heap
      end
  end.

Fixpoint merge_loop {St} (fuel : nat) (indexes : list PackIndex) (visit : bytes -> St -> outcome St)
  (heap : heap_of_cursors) (s : St) : outcome St :=
  match fuel with
  | 0 => NoFuel
  | S fuel =>
      match heap_pop heap with
      | None => Ok s
      | Some (entry, heap) =>
          let min_id := pc_id entry in
          s ← visit min_id s;
          heap ← advance_pack_index_cursor indexes entry min_id heap;
          heap ← same_id_loop (S (length heap)) indexes min_id heap;
          merge_loop fuel indexes visit heap s
      end
  end.

(** Every turn takes an entry of an index. *)
Definition merge_fuel (indexes : list PackIndex) : nat := S (sum_list_with pi_count indexes).

Definition for_each_unique_sorted_pack_index_id {St} (indexes : list PackIndex) (visit : bytes -> St -> outcome St) (s : St)
  : outcome St :=
  heap ← for_indices (fun index heap => push_pack_index_cursor indexes index 0 heap) (length indexes) 0 [];
  merge_loop (merge_fuel indexes) indexes visit heap s.

Definition count_overflows : string := "packed object count overflows usize".

Definition count_unique_sorted_pack_index_ids (indexes : list PackIndex) : outcome nat :=
  for_each_unique_sorted_pack_index_id indexes
    (fun _ count => ok_or (checked_add count 1) InvalidData count_overflows) 0.

Definition append_unique_sorted_pack_index_ids (indexes : list PackIndex) (ids : list ObjectId) : outcome (list ObjectId) :=
  match head indexes with
  | None => Ok ids
  | Some first_index =>
      for_each_unique_sorted_pack_index_id indexes
        (fun bs ids => id ← ObjectId_new (pi_algorithm first_index) bs; Ok (ids ++ [id])) ids
  end.

Definition for_each_unique_sorted_pack_index_object_id {St} (indexes : list PackIndex) (alg : GitHashAlgorithm)
  (for_each : ObjectId -> St -> outcome St) (s : St) : outcome St :=
  if bool_decide (indexes = []) then Ok s else
  for_each_unique_sorted_pack_index_id indexes (fun bs s => id ← ObjectId_new alg bs; for_each id s) s.

(** [PackIndex::for_each_object_id]. *)
Definition index_for_each_object_id {St} (pi : PackIndex) (for_each : ObjectId -> St -> outcome St) (s : St) : outcome St :=
  for_each_object_id_bytes pi (fun bs s =>
    id ← ObjectId_new (pi_algorithm pi) bs;
    s ← for_each id s;
    Ok (true, s)) s.

(** [Vec::dedup_by] on the bytes of ids: an id goes when the one kept last is equal. *)
Fixpoint dedup_from (kept : ObjectId) (ids : list ObjectId) : list ObjectId :=
  match ids with
  | [] => []
  | id :: ids => if bool_decide (as_bytes id = as_bytes kept) then dedup_from kept ids else id :: dedup_from id ids
  end.

Definition dedup_ids (ids : list ObjectId) : list ObjectId :=
  match ids with
  | [] => []
  | id :: ids => id :: dedup_from id ids
  end.

(** *** The store *)

Section store.
Context `{Sha, HashKeys} (st : PackedObjectStore) (fs : ObjectsFs).

#[local] Abbreviation alg := (pos_algorithm st).

(** The loops that open every index. *)
Fixpoint read_indexes (paths : list bytes) : rd Caches (list PackIndex) :=
  match paths with
  | [] => rret []
  | idx_path :: paths =>
      index <~ read_cached_pack_index fs idx_path alg;
      indexes <~ read_indexes paths;
      rret (index :: indexes)
  end.

Definition count_packed_object_ids (paths : list bytes) : rd Caches nat :=
  if length paths <=? 1 then
    rlift (match head paths with Some idx_path => pack_index_object_count fs idx_path | None => Ok 0 end)
  else
    indexes <~ read_indexes paths;
    rlift (count_unique_sorted_pack_index_ids indexes).

Definition packed_object_count : rd Caches nat :=
  paths <~ idx_paths fs;
  count_packed_object_ids paths.

(** The loop over the indexes, one after the other. *)
Fixpoint visit_indexes {St} (for_each : ObjectId -> St -> outcome St) (paths : list bytes) (s : St) : rd Caches St :=
  match paths with
  | [] => rret s
  | idx_path :: paths =>
      index <~ read_cached_pack_index fs idx_path alg;
      s <~ rlift (index_for_each_object_id index for_each s);
      visit_indexes for_each paths s
  end.

Definition packed_for_each_object_id {St} (for_each : ObjectId -> St -> outcome St) (s : St) : rd Caches St :=
  paths <~ idx_paths fs;
  if 1 <? length paths then
    indexes <~ read_indexes paths;
    rlift (for_each_unique_sorted_pack_index_object_id indexes alg for_each s)
  else visit_indexes for_each paths s.

(** The loop that opens the indexes and adds up their counts. *)
Fixpoint read_indexes_hint (paths : list bytes) (object_hint : nat) : rd Caches (list PackIndex) :=
  match paths with
  | [] => rret []
  | idx_path :: paths =>
      index <~ read_cached_pack_index fs idx_path alg;
      object_hint <~ rlift (ok_or (checked_add object_hint (pi_count index)) InvalidData count_overflows);
      indexes <~ read_indexes_hint paths object_hint;
      rret (index :: indexes)
  end.

Definition push_id (id : ObjectId) (ids : list ObjectId) : outcome (list ObjectId) := Ok (ids ++ [id]).

Definition append_object_ids (ids : list ObjectId) : rd Caches (list ObjectId) :=
  paths <~ idx_paths fs;
  if bool_decide (ids = []) && (length paths =? 1) then visit_indexes push_id paths ids
  else if bool_decide (ids = []) && (1 <? length paths) then
    indexes <~ read_indexes_hint paths 0;
    rlift (append_unique_sorted_pack_index_ids indexes ids)
  else
    ids <~ visit_indexes push_id paths ids;
    rret (if bool_decide (ids = []) then ids else dedup_ids (sort_by (by_key as_bytes cmp_bytes) ids)).

Definition packed_object_ids : rd Caches (list ObjectId) := append_object_ids [].
End store.

(** ** The merge *)

(** The names an index lists. *)
Record named (pi : PackIndex) (names : list bytes) : Prop := {
  nm_count : pi_count pi = length names;
  nm_at : forall i name, names !! i = Some name -> object_bytes_at pi i = Ok name;
  nm_length : Forall (fun name => length name = digest_len (pi_algorithm pi)) names
}.

Fixpoint visit_all {A St} (visit : A -> St -> outcome St) (l : list A) (s : St) : outcome St :=
  match l with
  | [] => Ok s
  | x :: l => s ← visit x s; visit_all visit l s
  end.

#[export] Instance nat_compare_total : TotalOrder Nat.compare.
Proof.
  split.
  - apply Nat.compare_eq_iff.
  - intros a b. by rewrite Nat.compare_antisym.
  - intros a b c. rewrite !Nat.compare_lt_iff. lia.
Qed.

Lemma cmp_lt_not_gt_trans {K} (cmp : K -> K -> comparison) `{!TotalOrder cmp} a b c : cmp a b = Lt -> cmp b c <> Gt -> cmp a c = Lt.
Proof.
  intros Hab Hbc. destruct (cmp b c) eqn:E; [|by eapply cmp_lt_trans|done]. apply (cmp_eq (cmp := cmp)) in E. by subst.
Qed.

Definition cursor_key (c : PackIndexCursor) : bytes * (nat * nat) := (pc_id c, (pc_index c, pc_position c)).

Definition key_cmp : bytes * (nat * nat) -> bytes * (nat * nat) -> comparison :=
  cmp_pair cmp_bytes (cmp_pair Nat.compare Nat.compare).

Definition heap_sorted (heap : heap_of_cursors) : Prop := weakly_sorted cursor_key key_cmp heap.

Lemma heap_push_key c heap : heap_push c heap = insert_by (by_key cursor_key key_cmp) c heap.
Proof. reflexivity. Qed.

Lemma heap_push_sorted c heap : heap_sorted heap -> heap_sorted (heap_push c heap).
Proof. rewrite heap_push_key. apply insert_by_sorted. apply _. Qed.

Lemma heap_push_perm c heap : heap_push c heap ≡ₚ c :: heap.
Proof. rewrite heap_push_key. apply insert_by_perm. Qed.

Lemma heap_first c heap : heap_sorted (c :: heap) ->
  heap_sorted heap /\ Forall (fun c' => cmp_bytes (pc_id c) (pc_id c') <> Gt) heap.
Proof.
  intros [Hc Hs]%StronglySorted_cons. split; [done|]. eapply Forall_impl; [exact Hc|]. intros c' Hk E. apply Hk.
  unfold key_cmp, cmp_pair. cbn. by rewrite E.
Qed.

Lemma sum_counts indexes tables : Forall2 named indexes tables -> sum_list_with pi_count indexes = sum_list_with length tables.
Proof. induction 1 as [|pi names ? ? Hn _ IH]; [done|]. cbn [sum_list_with]. by rewrite (nm_count _ _ Hn), IH. Qed.

Section merge.
Context (indexes : list PackIndex) (tables : list (list bytes)).
Hypothesis Hnamed : Forall2 named indexes tables.
Hypothesis Hsorted : Forall (weakly_sorted id cmp_bytes) tables.

(** What a cursor still has to give. *)
Definition rest_of (c : PackIndexCursor) : list bytes := drop (pc_position c) (default [] (tables !! pc_index c)).

Definition cursor_ok (c : PackIndexCursor) : Prop :=
  exists pi names, indexes !! pc_index c = Some pi /\ tables !! pc_index c = Some names /\
    pc_layout c = scan_layout pi /\ names !! pc_position c = Some (pc_id c).

Definition reached (heap : heap_of_cursors) (x : bytes) : Prop := Exists (fun c => x ∈ rest_of c) heap.

Definition heap_size (heap : heap_of_cursors) : nat := sum_list_with (fun c => length (rest_of c)) heap.

Lemma named_at index pi names : indexes !! index = Some pi -> tables !! index = Some names ->
  named pi names /\ weakly_sorted id cmp_bytes names.
Proof.
  intros Hi Ht. split; [by eapply Forall2_lookup_lr|]. rewrite Forall_lookup in Hsorted. by eapply Hsorted.
Qed.

(** The cursor at a position, if the index has it. *)
Definition standing (pi : PackIndex) (names : list bytes) (index position : nat) : heap_of_cursors :=
  match names !! position with
  | Some id => [MkIndexCursor id index position (scan_layout pi)]
  | None => []
  end.

Lemma standing_ok pi names index position : indexes !! index = Some pi -> tables !! index = Some names ->
  Forall cursor_ok (standing pi names index position) /\
  (forall x, reached (standing pi names index position) x <-> x ∈ drop position names) /\
  heap_size (standing pi names index position) = length (drop position names).
Proof.
  intros Hi Ht. unfold standing, reached, heap_size. destruct (names !! position) as [id|] eqn:E.
  - split; [constructor; [by exists pi, names|constructor]|]. split.
    + intros x. rewrite Exists_cons, Exists_nil. unfold rest_of. cbn. rewrite Ht. cbn. tauto.
    + cbn. unfold rest_of. cbn. rewrite Ht. cbn. lia.
  - apply lookup_ge_None in E. rewrite drop_ge by done. split; [constructor|]. split; [|done]. intros x.
    by rewrite Exists_nil, elem_of_nil.
Qed.

Lemma push_layout_eq pi names index position heap : named pi names ->
  push_pack_index_cursor_with_layout pi index position (scan_layout pi) heap = Ok (foldr heap_push heap (standing pi names index position)).
Proof.
  intros [Hc Ha _]. unfold push_pack_index_cursor_with_layout, standing. rewrite Hc. destruct (names !! position) as [id|] eqn:E.
  - pose proof (lookup_lt_Some _ _ _ E) as Hl. apply Nat.ltb_lt in Hl as ->. apply Ha in E. unfold object_bytes_at in E. cbn [scan_layout sl_digest_len sl_names_start].
    by rewrite E, bind_Ok.
  - apply lookup_ge_None, Nat.ltb_ge in E as ->. done.
Qed.

Lemma standing_push_perm new : forall heap, foldr heap_push heap new ≡ₚ new ++ heap.
Proof. induction new as [|c new IH]; intros heap; cbn [foldr app]; [done|]. by rewrite heap_push_perm, IH. Qed.

Lemma standing_push_sorted new : forall heap, heap_sorted heap -> heap_sorted (foldr heap_push heap new).
Proof. induction new as [|c new IH]; intros heap Hh; cbn [foldr]; [done|]. by apply heap_push_sorted, IH. Qed.

Lemma advance_loop_spec pi names current fuel : named pi names -> forall position, length names - position < fuel ->
  exists p, advance_loop fuel pi (scan_layout pi) current position = Ok p /\
    drop position names = replicate (p - position) current ++ drop p names /\ names !! p <> Some current /\ position <= p.
Proof.
  intros [Hc Ha _]. induction fuel as [|fuel IH]; intros position Hf; [lia|]. cbn [advance_loop]. rewrite Hc.
  destruct (names !! position) as [name|] eqn:E.
  - pose proof (lookup_lt_Some _ _ _ E) as Hl. pose proof Hl as Hl'. apply Nat.ltb_lt in Hl' as ->. pose proof E as E'. apply Ha in E'.
    unfold object_bytes_at in E'. cbn [scan_layout sl_digest_len sl_names_start] in *. rewrite E', bind_Ok.
    case_bool_decide as Hn.
    + destruct (IH (position + 1)) as (p & Ep & Hd & Hp & Hle); [lia|]. exists p. split; [done|]. split; [|by split; [|lia]].
      rewrite (drop_S _ _ _ E), Hn. replace (p - position) with (S (p - (position + 1))) by lia. cbn [replicate app].
      f_equal. by rewrite <- Hd, Nat.add_1_r.
    + exists position. rewrite Nat.sub_diag. split; [done|]. split; [done|]. split; [congruence|lia].
  - pose proof E as E'. apply lookup_ge_None, Nat.ltb_ge in E' as ->. exists position. rewrite Nat.sub_diag. split; [done|]. split; [done|].
    split; [congruence|lia].
Qed.

Lemma reached_app h1 h2 x : reached (h1 ++ h2) x <-> reached h1 x \/ reached h2 x.
Proof. apply Exists_app. Qed.

Lemma reached_perm h1 h2 x : h1 ≡ₚ h2 -> reached h1 x <-> reached h2 x.
Proof. intros Hp. unfold reached. by rewrite Hp. Qed.

Lemma size_app h1 h2 : heap_size (h1 ++ h2) = heap_size h1 + heap_size h2.
Proof. apply sum_list_with_app. Qed.

Lemma size_perm h1 h2 : h1 ≡ₚ h2 -> heap_size h1 = heap_size h2.
Proof. unfold heap_size. induction 1; cbn; lia. Qed.

(** A cursor that stands after others is put on the heap. *)
Lemma push_standing pi names index position heap : indexes !! index = Some pi -> tables !! index = Some names ->
  heap_sorted heap -> Forall cursor_ok heap ->
  exists heap', push_pack_index_cursor_with_layout pi index position (scan_layout pi) heap = Ok heap' /\ heap_sorted heap' /\
    Forall cursor_ok heap' /\ heap' ≡ₚ standing pi names index position ++ heap.
Proof.
  intros Hi Ht Hh Hok. destruct (named_at index pi names Hi Ht) as [Hn _]. eexists. split; [by apply push_layout_eq|].
  assert (Hp := standing_push_perm (standing pi names index position) heap). split; [by apply standing_push_sorted|]. split; [|done].
  rewrite Hp. apply Forall_app. split; [|done]. by apply standing_ok.
Qed.

Lemma head_le names position id : weakly_sorted (fun n : bytes => n) cmp_bytes names -> names !! position = Some id ->
  Forall (fun name => cmp_bytes id name <> Gt) (drop position names).
Proof.
  intros Hs E. rewrite (drop_S _ _ _ E). constructor; [by rewrite (cmp_refl cmp_bytes)|].
  rewrite <- (take_drop position names), (drop_S _ _ _ E) in Hs. apply StronglySorted_app in Hs as (_ & _ & Hs).
  by apply StronglySorted_cons in Hs as [Hs _].
Qed.

(** Moving a cursor past its id: what it gives after is greater. *)
Lemma advance_spec c heap : cursor_ok c -> heap_sorted heap -> Forall cursor_ok heap ->
  exists new heap', advance_pack_index_cursor indexes c (pc_id c) heap = Ok heap' /\ heap_sorted heap' /\ Forall cursor_ok heap' /\
    heap' ≡ₚ new ++ heap /\ Forall (fun c' => cmp_bytes (pc_id c) (pc_id c') = Lt) new /\
    (forall x, x ∈ rest_of c <-> x = pc_id c \/ reached new x) /\ heap_size new < length (rest_of c).
Proof.
  intros (pi & names & Hi & Ht & Hl & Hid) Hh Hok. destruct (named_at _ pi names Hi Ht) as [Hn Hs].
  unfold advance_pack_index_cursor. rewrite (index_at_lookup _ _ _ Hi), bind_Ok, Hl.
  destruct (advance_loop_spec pi names (pc_id c) (S (pi_count pi)) Hn (pc_position c)) as (p & -> & Hd & Hp & Hle); [rewrite (nm_count _ _ Hn); lia|].
  rewrite bind_Ok. destruct (push_standing pi names (pc_index c) p heap Hi Ht Hh Hok) as (heap' & -> & Hh' & Hok' & Hperm).
  destruct (standing_ok pi names (pc_index c) p Hi Ht) as (_ & Hr & Hz). exists (standing pi names (pc_index c) p), heap'.
  assert (Hlt : pc_position c < p). { destruct (decide (p = pc_position c)) as [->|]; [done|lia]. }
  assert (Erest : rest_of c = drop (pc_position c) names) by (unfold rest_of; by rewrite Ht).
  rewrite Erest. do 4 (split; [done|]). split; [|split].
  - pose proof (head_le names _ _ Hs Hid) as Hge. rewrite Hd in Hge. apply Forall_app in Hge as [_ Hge].
    unfold standing. destruct (names !! p) as [id'|] eqn:E; [|constructor]. constructor; [|constructor]. cbn.
    rewrite (drop_S _ _ _ E) in Hge. apply Forall_inv in Hge. destruct (cmp_bytes (pc_id c) id') eqn:Ec; [|done..].
    apply (cmp_eq (cmp := cmp_bytes)) in Ec. congruence.
  - intros x. rewrite Hr, Hd, elem_of_app, elem_of_replicate. split; [intros [[-> _]|?]; tauto|]. intros [->|?]; [left; split; [done|lia]|by right].
  - rewrite Hz, Hd, length_app, length_replicate. lia.
Qed.

(** The cursors on the id that was taken are moved past it. *)
Lemma same_id_spec m fuel : forall heap, heap_sorted heap -> Forall cursor_ok heap -> Forall (fun c => cmp_bytes m (pc_id c) <> Gt) heap ->
  length (filter (fun c => pc_id c = m) heap) < fuel ->
  exists heap', same_id_loop fuel indexes m heap = Ok heap' /\ heap_sorted heap' /\ Forall cursor_ok heap' /\
    Forall (fun c => cmp_bytes m (pc_id c) = Lt) heap' /\ (forall x, x = m \/ reached heap x <-> x = m \/ reached heap' x) /\
    heap_size heap' <= heap_size heap.
Proof.
  induction fuel as [|fuel IH]; intros heap Hh Hok Hge Hf; [lia|]. cbn [same_id_loop]. unfold heap_peek, heap_pop.
  destruct heap as [|c heap]; [exists []; by split_and!|]. cbn [head]. case_bool_decide as Hc.
  - subst m. apply Forall_cons in Hok as [Hcok Hok]. destruct (heap_first _ _ Hh) as [Hh' _].
    destruct (advance_spec c heap Hcok Hh' Hok) as (new & heap1 & -> & Hh1 & Hok1 & Hp & Hnew & Hr & Hz). rewrite bind_Ok.
    rewrite filter_cons_True in Hf by done. cbn [length] in Hf. apply Forall_cons in Hge as [_ Hge].
    destruct (IH heap1) as (heap2 & -> & Hh2 & Hok2 & Hlt & Hr2 & Hz2); [done|done| | |].
    + rewrite Hp. apply Forall_app. split; [|done]. eapply Forall_impl; [exact Hnew|]. intros c' ->. done.
    + rewrite Hp, filter_app, length_app. enough (filter (fun c0 => pc_id c0 = pc_id c) new = []) as -> by (cbn; lia).
      apply filter_none. eapply Forall_impl; [exact Hnew|]. intros c' E Ec. cbv beta in E, Ec. rewrite Ec in E. by apply (cmp_lt_irrefl cmp_bytes) in E.
    + exists heap2. split; [done|]. do 3 (split; [done|]). split.
      * intros x. rewrite <- Hr2, (reached_perm _ _ x Hp), reached_app. unfold reached at 1. rewrite Exists_cons, Hr. unfold reached. tauto.
      * rewrite (size_perm _ _ Hp), size_app in Hz2. cbn [heap_size sum_list_with]. unfold heap_size in *. cbn. lia.
  - exists (c :: heap). do 3 (split; [done|]). split; [|by split].
    assert (Hlt : cmp_bytes m (pc_id c) = Lt). { apply Forall_inv in Hge. destruct (cmp_bytes m (pc_id c)) eqn:E; [|done..].
      apply (cmp_eq (cmp := cmp_bytes)) in E. congruence. }
    constructor; [done|]. destruct (heap_first _ _ Hh) as [_ Hle]. eapply Forall_impl; [exact Hle|]. intros c' Hc'.
    by eapply (cmp_lt_not_gt_trans cmp_bytes).
Qed.

(** What the loop visits does not depend on the visitor. *)
Lemma merge_loop_spec fuel : forall heap, heap_sorted heap -> Forall cursor_ok heap -> heap_size heap < fuel ->
  exists ids, strictly_sorted (fun n : bytes => n) cmp_bytes ids /\ (forall x, x ∈ ids <-> reached heap x) /\
    forall St (visit : bytes -> St -> outcome St) s, merge_loop fuel indexes visit heap s = visit_all visit ids s.
Proof.
  induction fuel as [|fuel IH]; intros heap Hh Hok Hf; [lia|]. destruct heap as [|c heap].
  - exists []. split; [constructor|]. split; [|done]. intros x. unfold reached. by rewrite Exists_nil, elem_of_nil.
  - apply Forall_cons in Hok as [Hcok Hok]. destruct (heap_first _ _ Hh) as [Hh' Hle].
    destruct (advance_spec c heap Hcok Hh' Hok) as (new & heap1 & E1 & Hh1 & Hok1 & Hp & Hnew & Hr & Hz).
    destruct (same_id_spec (pc_id c) (S (length heap1)) heap1) as (heap2 & E2 & Hh2 & Hok2 & Hlt & Hr2 & Hz2); [done|done| | |].
    { rewrite Hp. apply Forall_app. split; [|done]. eapply Forall_impl; [exact Hnew|]. by intros c' ->. }
    { pose proof (length_filter (fun c0 => pc_id c0 = pc_id c) heap1). lia. }
    assert (Hz' : heap_size heap2 < fuel).
    { rewrite (size_perm _ _ Hp), size_app in Hz2. unfold heap_size in *. cbn in Hf. lia. }
    destruct (IH heap2 Hh2 Hok2 Hz') as (ids & Hs & Hel & Hv).
    assert (Hgt : Forall (fun x => cmp_bytes (pc_id c) x = Lt) ids).
    { apply Forall_forall. intros x Hx. apply Hel in Hx. unfold reached in Hx. apply Exists_exists in Hx as (c' & Hc' & Hx).
      rewrite Forall_forall in Hlt, Hok2. specialize (Hlt c' Hc'). destruct (Hok2 c' Hc') as (pi & names & Hi & Ht & _ & Hid).
      eapply (cmp_lt_not_gt_trans cmp_bytes); [exact Hlt|]. pose proof (head_le names _ _ (proj2 (named_at _ _ _ Hi Ht)) Hid) as Hge.
      rewrite Forall_forall in Hge. apply Hge. unfold rest_of in Hx. by rewrite Ht in Hx. }
    exists (pc_id c :: ids). split; [by constructor|]. split.
    + intros x. rewrite elem_of_cons, Hel, <- Hr2, (reached_perm _ _ x Hp), reached_app. unfold reached at 3. rewrite Exists_cons, Hr.
      unfold reached. tauto.
    + intros St visit s. cbn [merge_loop heap_pop visit_all]. cbv zeta. destruct (visit (pc_id c) s) as [s'|e| |]; [|done..].
      by rewrite !bind_Ok, E1, bind_Ok, E2, bind_Ok.
Qed.

(** The heap the merge begins with. *)
Lemma first_heap_spec count : forall index heap, index + count = length indexes -> heap_sorted heap -> Forall cursor_ok heap ->
  exists heap', for_indices (fun index heap => push_pack_index_cursor indexes index 0 heap) count index heap = Ok heap' /\
    heap_sorted heap' /\ Forall cursor_ok heap' /\
    (forall x, reached heap' x <-> reached heap x \/ exists names, names ∈ drop index tables /\ x ∈ names) /\
    heap_size heap' = heap_size heap + sum_list_with length (drop index tables).
Proof.
  assert (Hlen : length indexes = length tables) by (by eapply Forall2_length).
  induction count as [|count IH]; intros index heap Hc Hh Hok; cbn [for_indices].
  - exists heap. split; [done|]. split; [done|]. split; [done|]. rewrite drop_ge by lia. cbn. split; [|lia]. intros x. split; [by left|].
    intros [?|(names & ?%elem_of_nil & _)]; [done|]. destruct H.
  - destruct (lookup_lt_is_Some_2 indexes index) as [pi Hi]; [lia|]. destruct (lookup_lt_is_Some_2 tables index) as [names Ht]; [lia|].
    unfold push_pack_index_cursor. rewrite (index_at_lookup _ _ _ Hi), bind_Ok.
    destruct (push_standing pi names index 0 heap Hi Ht Hh Hok) as (heap1 & -> & Hh1 & Hok1 & Hp). rewrite bind_Ok.
    destruct (IH (index + 1) heap1) as (heap2 & E & Hh2 & Hok2 & Hr2 & Hz2); [lia|done|done|]. exists heap2. split; [exact E|].
    split; [done|]. split; [done|]. destruct (standing_ok pi names index 0 Hi Ht) as (_ & Hr & Hz). rewrite (drop_S _ _ _ Ht), <- Nat.add_1_r.
    split.
    + intros x. rewrite Hr2, (reached_perm _ _ x Hp), reached_app, Hr. setoid_rewrite elem_of_cons. naive_solver.
    + rewrite Hz2, (size_perm _ _ Hp), size_app, Hz, drop_0. cbn [sum_list_with]. lia.
Qed.

(** The merge visits the names of all the tables in order, each once. *)
Lemma merge_spec : exists ids, strictly_sorted (fun n : bytes => n) cmp_bytes ids /\
  (forall x, x ∈ ids <-> exists names, names ∈ tables /\ x ∈ names) /\ length ids <= sum_list_with length tables /\
  forall St (visit : bytes -> St -> outcome St) s, for_each_unique_sorted_pack_index_id indexes visit s = visit_all visit ids s.
Proof.
  destruct (first_heap_spec (length indexes) 0 []) as (heap & E & Hh & Hok & Hr & Hz); [lia|constructor|constructor|].
  assert (Hsum := sum_counts indexes tables Hnamed).

  rewrite drop_0 in Hr, Hz. cbn [heap_size sum_list_with] in Hz. destruct (merge_loop_spec (merge_fuel indexes) heap Hh Hok) as (ids & Hs & Hel & Hv).
  { unfold merge_fuel. rewrite Hz, Hsum. cbn. lia. }
  assert (Hin : forall x, x ∈ ids <-> exists names, names ∈ tables /\ x ∈ names).
  { intros x. rewrite Hel, Hr. unfold reached. rewrite Exists_nil. tauto. }
  exists ids. split; [done|]. split; [done|]. split.
  - assert (Hc : length (concat tables) = sum_list_with length tables).
    { clear. induction tables as [|t ts IH]; cbn; [done|]. by rewrite length_app, IH. }
    rewrite <- Hc. apply NoDup_incl_length.
    + apply NoDup_ListNoDup. rewrite <- (list_fmap_id ids). by apply (strictly_sorted_NoDup (fun n : bytes => n) cmp_bytes).
    + intros x Hx%list_elem_of_In. apply Hin in Hx as (names & Hn & Hx). apply in_concat. exists names. by rewrite <- !list_elem_of_In.
  - intros St visit s. unfold for_each_unique_sorted_pack_index_id. by rewrite E, bind_Ok.
Qed.
End merge.
