(* ===== verification/PackIds.v ===== *)
(** * The ids of a store of packs: however they are asked for, they are the same *)
From S2P Require Import Prelude Order Object Reader Zlib PackHeader PackParse PackIndex PackIndexSpec PackIndexLookup PackIndexSafe PackStore PackStoreRead PackStoreLookup PackMerge.

(** ** The count in the header of an index *)

Lemma get_range_take {A} (l : list A) k a b : b <= k -> k <= length l -> get_range (take k l) a b = get_range l a b.
Proof.
  intros Hb Hk. destruct (get_range l a b) as [r|] eqn:E.
  - apply get_range_Some in E as (? & ? & ->). apply get_range_Some. rewrite length_take. split; [done|]. split; [lia|].
    rewrite skipn_firstn_comm, take_take. f_equal. lia.
  - destruct (get_range (take k l) a b) as [r|] eqn:E'; [|done]. apply get_range_Some in E' as (? & ? & _). rewrite length_take in *.
    unfold get_range in E. case_bool_decide as Hd; [done|]. lia.
Qed.

Lemma read_u32_take bs k offset : offset + 4 <= k -> k <= length bs -> read_u32 (take k bs) offset = read_u32 bs offset.
Proof. intros Ho Hk. unfold read_u32. by rewrite get_range_take. Qed.

Lemma header_loop_Ok header bs words : length header <= length bs -> header = take (length header) bs -> forall start previous fanout,
  start + 4 * words <= length header -> read_fanout bs start words = Ok fanout ->
  windows2_all (fun a b => negb (b <? a)%N) (previous :: fanout) = true ->
  header_count_loop header start words previous = Ok (default previous (last fanout)).
Proof.
  intros Hlen Hh. induction words as [|words IH]; intros start previous fanout Hs Ef Hw; cbn [read_fanout header_count_loop] in *; [by injection Ef as <-|].
  inv_ok. match goal with E : read_u32 _ _ = Ok ?v, E' : read_fanout _ _ _ = Ok ?f |- _ => rename v into value, f into rest, E into Ev, E' into Er end.
  change (negb (value <? previous)%N && windows2_all (fun a b => negb (b <? a)%N) (value :: rest) = true) in Hw.
  apply andb_true_iff in Hw as [Hv Hw]. apply negb_true_iff in Hv.
  rewrite Hh, read_u32_take, Ev, bind_Ok, Hv by lia. cbn [check]. rewrite bind_Ok, <- Hh, (IH _ _ rest) by (done || lia).
  rewrite last_cons. by destruct (last rest).
Qed.

Lemma header_count `{Sha} bs alg pi : read_bytes bs alg = Ok pi ->
  8 + 256 * 4 <= length bs /\ pack_index_object_count_from_header (take (8 + 256 * 4) bs) = Ok (pi_count pi).
Proof.
  intros E. unfold read_bytes, validate_pack_index_layout in E. cbv zeta in E. inv_ok. cbn [pi_count].
  breflect. set (header := take (8 + 256 * 4) bs).
  assert (Hlen : length header = 8 + 256 * 4) by (unfold header; rewrite length_take; lia).
  split; [lia|]. unfold pack_index_object_count_from_header. rewrite Hlen, Nat.ltb_irrefl. cbn [check]. rewrite bind_Ok.
  match goal with E : pack_index_version bs = Ok ?v |- _ => rename v into version, E into Ev end.
  assert (Ev' : pack_index_version header = Ok version).
  { rewrite <- Ev. unfold pack_index_version. rewrite Hlen. replace (length bs <? 4) with false by (symmetry; apply Nat.ltb_ge; lia).
    cbn [Nat.ltb Nat.leb Nat.add check]. rewrite !bind_Ok, !slice_take by lia. unfold header. rewrite take_take. done. }
  rewrite Ev', bind_Ok.
  match goal with E : check_idx_version version bs = Ok ?u |- _ => rename E into Ec; destruct u end.
  assert (Ec' : check_idx_version version header = Ok tt).
  { rewrite <- Ec. unfold check_idx_version, header. by rewrite read_u32_take by lia. }
  rewrite Ec', bind_Ok.
  match goal with E : read_fanout bs _ _ = Ok ?f, Ei : index_at ?f 255 = Ok ?w |- _ => rename f into fanout, w into lastw, E into Ef, Ei into El end.
  rewrite (header_loop_Ok header bs 256) with (fanout := fanout).
  - apply unwrap_Ok in El. pose proof (read_fanout_length _ _ _ _ Ef) as Hf.
    assert (Hl : last fanout = Some lastw) by (by rewrite last_lookup, Hf). by rewrite Hl.
  - lia.
  - unfold header at 1. by rewrite Hlen.
  - rewrite Hlen. unfold pack_index_fanout_start. destruct version; lia.
  - done.
  - destruct fanout as [|x fanout]; [done|]. apply andb_true_iff. split; [|done]. by destruct (x <? 0)%N eqn:Ex; [apply N.ltb_lt in Ex; lia|].
Qed.

(** ** Walks over one index *)

Lemma names_walk {St} (f : bytes -> St -> outcome (bool * St)) (g : bytes -> St -> outcome St) pi names : named pi names ->
  (forall name s, f name s = (s ← g name s; Ok (true, s))) -> forall s, for_each_object_id_bytes pi f s = visit_all g names s.
Proof.
  intros Hn Hf s. unfold for_each_object_id_bytes. rewrite (nm_count _ _ Hn).
  assert (Hgo : forall post pre s, names = pre ++ post -> for_indices_until (fun idx s =>
      bs ← object_bytes_at_with_layout pi idx (digest_len (pi_algorithm pi)) (pi_names_start pi); f bs s)
    (length post) (length pre) s = visit_all g post s).
  { induction post as [|name post IH]; intros pre s' E; [done|]. cbn [length for_indices_until visit_all].
    assert (Hi : names !! length pre = Some name) by (by rewrite E, lookup_app_r, Nat.sub_diag by lia).
    apply (nm_at _ _ Hn) in Hi. unfold object_bytes_at in Hi. rewrite Hi, bind_Ok, Hf. destruct (g name s') as [s''|e| |]; [|done..].
    rewrite !bind_Ok. cbn [negb]. replace (length pre + 1) with (length (pre ++ [name])) by (rewrite length_app; done).
    apply IH. by rewrite <- app_assoc. }
  by apply (Hgo names []).
Qed.

Lemma visit_ids {St} alg (for_each : ObjectId -> St -> outcome St) names : Forall (fun name => length name = digest_len alg) names ->
  forall s, visit_all (fun bs s => id ← ObjectId_new alg bs; for_each id s) names s = visit_all for_each (map (mk_id alg) names) s.
Proof.
  induction 1 as [|name names Hl _ IH]; intros s; cbn [visit_all map]; [done|]. rewrite ObjectId_new_ok, bind_Ok by done.
  destruct (for_each _ s) as [s'|e| |]; [|done..]. rewrite !bind_Ok. apply IH.
Qed.

Lemma index_walk {St} (for_each : ObjectId -> St -> outcome St) pi names s : named pi names ->
  index_for_each_object_id pi for_each s = visit_all for_each (map (mk_id (pi_algorithm pi)) names) s.
Proof.
  intros Hn. unfold index_for_each_object_id. rewrite (names_walk _ (fun bs s => id ← ObjectId_new (pi_algorithm pi) bs; for_each id s) pi names Hn).
  - apply visit_ids, (nm_length _ _ Hn).
  - intros name s'. destruct (ObjectId_new (pi_algorithm pi) name) as [id|e| |]; [by rewrite !bind_Ok|done..].
Qed.

(** Visits that build. *)
Lemma walk_app {A St} (visit : A -> St -> outcome St) l1 l2 : forall s,
  visit_all visit (l1 ++ l2) s = (s ← visit_all visit l1 s; visit_all visit l2 s).
Proof. induction l1 as [|x l1 IH]; intros s; cbn [app visit_all]; [done|]. destruct (visit x s) as [s'|e| |]; [|done..]. by rewrite !bind_Ok, IH. Qed.

Lemma walk_push l : forall ids, visit_all push_id l ids = Ok (ids ++ l).
Proof. induction l as [|x l IH]; intros ids; cbn [visit_all]; [by rewrite app_nil_r|]. change (push_id x ids) with (Ok (ids ++ [x])). rewrite bind_Ok, IH. by rewrite <- app_assoc. Qed.

Lemma visit_count {A} (l : list A) : forall count, (N.of_nat (count + length l) < usize_limit)%N ->
  visit_all (fun _ count => ok_or (checked_add count 1) InvalidData count_overflows) l count = Ok (count + length l).
Proof.
  induction l as [|x l IH]; intros count Hc; cbn [visit_all length] in *; [by rewrite Nat.add_0_r|].
  rewrite (checked_add_Some' count 1) by lia. cbn [ok_or]. rewrite bind_Ok, IH by lia. f_equal. lia.
Qed.

(** ** Removing what is repeated *)

Lemma dedup_from_spec l : forall kept, weakly_sorted as_bytes cmp_bytes (kept :: l) ->
  strictly_sorted as_bytes cmp_bytes (kept :: dedup_from kept l) /\
  (forall x, x ∈ dedup_from kept l -> x ∈ l) /\ (forall x, x ∈ l -> as_bytes x ∈ as_bytes <$> kept :: dedup_from kept l).
Proof.
  induction l as [|x l IH]; intros kept [Hk Hs]%StronglySorted_cons; cbn [dedup_from].
  - split; [by repeat constructor|]. split; [done|]. by intros x ?%elem_of_nil.
  - apply Forall_cons in Hk as [Hkx Hk]. case_bool_decide as Hx.
    + destruct (IH kept) as (Hd & Hin & Hall); [apply StronglySorted_cons; split; [done|by apply StronglySorted_cons in Hs as [_ Hs]]|].
      split; [done|]. split; [intros y Hy; right; by apply Hin|]. intros y [->|Hy]%elem_of_cons; [|by apply Hall].
      rewrite Hx. cbn. left.
    + destruct (IH x Hs) as (Hd & Hin & Hall). assert (Hlt : cmp_bytes (as_bytes kept) (as_bytes x) = Lt).
      { destruct (cmp_bytes (as_bytes kept) (as_bytes x)) eqn:E; [|done..]. apply (cmp_eq (cmp := cmp_bytes)) in E. congruence. }
      split; [|split].
      * apply StronglySorted_cons. split; [|done]. constructor; [done|]. apply StronglySorted_cons in Hd as [Hd _].
        eapply Forall_impl; [exact Hd|]. intros y Hy. by eapply (cmp_lt_trans (cmp := cmp_bytes)).
      * intros y [->|Hy]%elem_of_cons; [left|right; by apply Hin].
      * intros y [->|Hy]%elem_of_cons; cbn; [right; left|right; by apply Hall].
Qed.

Definition ids_of (a : GitHashAlgorithm) (ids : list ObjectId) : Prop := Forall (fun i => ObjectId_wf i /\ algorithm i = a) ids.

Lemma ids_of_inj a ids i j : ids_of a ids -> i ∈ ids -> j ∈ ids -> as_bytes i = as_bytes j -> i = j.
Proof.
  unfold ids_of. rewrite Forall_forall. intros Hids Hi Hj E. destruct (Hids i Hi) as [Hwi Hai]. destruct (Hids j Hj) as [Hwj Haj].
  rewrite <- (mk_id_as_bytes i), <- (mk_id_as_bytes j) by done. congruence.
Qed.

Lemma sorted_dedup a ids : ids_of a ids ->
  strictly_sorted as_bytes cmp_bytes (dedup_ids (sort_by (by_key as_bytes cmp_bytes) ids)) /\
  forall i, i ∈ dedup_ids (sort_by (by_key as_bytes cmp_bytes) ids) <-> i ∈ ids.
Proof.
  intros Hids. pose proof (sort_by_sorted as_bytes cmp_bytes ids) as Hs. pose proof (sort_by_perm as_bytes cmp_bytes ids) as Hp.
  assert (Hin : forall i, i ∈ sort_by (by_key as_bytes cmp_bytes) ids <-> i ∈ ids) by (intros i; by rewrite Hp).
  destruct (sort_by (by_key as_bytes cmp_bytes) ids) as [|kept l]; cbn [dedup_ids]; [split; [constructor|done]|].
  destruct (dedup_from_spec l kept Hs) as (Hd & Hsub & Hall). split; [done|]. intros i. rewrite <- Hin.
  assert (Hsub' : forall x, x ∈ kept :: dedup_from kept l -> x ∈ kept :: l).
  { intros x [->|Hx]%elem_of_cons; [left|right; by apply Hsub]. }
  split; [by apply Hsub'|]. intros Hi. assert (Hb : as_bytes i ∈ as_bytes <$> kept :: dedup_from kept l).
  { apply elem_of_cons in Hi as [->|Hi]; [cbn; left|by apply Hall]. }
  apply list_elem_of_fmap in Hb as (j & E & Hj). rewrite (ids_of_inj a ids i j); [done|done|by apply Hin|by apply Hin, Hsub'|done].
Qed.

(** ** The store *)

Section directory.
Context `{ShaLaws, HashKeys} {D : Type} `{ZlibDecoder bytes D} (st : PackedObjectStore) (fs : ObjectsFs).

#[local] Abbreviation alg := (pos_algorithm st).
#[local] Abbreviation caches_ok := (caches_ok (D := D) st fs).

(** A run with an outcome, which keeps the caches in order. *)
Definition gives {A} (m : rd Caches A) (s : Caches) (o : outcome A) : Prop := exists s', m s = (o, s') /\ caches_ok s'.

Lemma gives_bind {A B} (m : rd Caches A) (f : A -> rd Caches B) s a o :
  gives m s (Ok a) -> (forall s', caches_ok s' -> gives (f a) s' o) -> gives (rbind m f) s o.
Proof.
  intros (s' & E & Hs) Hf. destruct (Hf s' Hs) as (s2 & E2 & Hs2). exists s2. split; [|done]. by rewrite (rbind_Ok _ _ _ _ _ E).
Qed.

Lemma gives_ret {A} (a : A) s : caches_ok s -> gives (rret a) s (Ok a).
Proof. intros Hs. by exists s. Qed.

Lemma gives_lift {A} (o : outcome A) s : caches_ok s -> gives (rlift o) s o.
Proof. intros Hs. by exists s. Qed.

Lemma paths_given s : caches_ok s -> gives (idx_paths fs) s (Ok (listing fs)).
Proof.
  intros Hs. pose proof (idx_paths_runs st fs s Hs) as [Hk Hq]. destruct (idx_paths_Ok fs s) as (paths & s' & E). rewrite E in Hk, Hq.
  exists s'. split; [|done]. by rewrite E, (Hq paths eq_refl).
Qed.

(** An index that can be read, and the names it lists, each once. *)
Definition table_of (path : bytes) (names : list bytes) : Prop :=
  exists index, read_index fs path alg = Ok index /\ named index names /\ strictly_sorted (fun n : bytes => n) cmp_bytes names.

Lemma index_given path names s : caches_ok s -> table_of path names ->
  exists index, gives (read_cached_pack_index fs path alg) s (Ok index) /\ read_index fs path alg = Ok index /\ named index names /\
    pi_algorithm index = alg.
Proof.
  intros Hs (index & E & Hn & _). exists index. split_and!; [|done|done|].
  - destruct (read_cached_Ok st fs path s index Hs E) as [s' E']. exists s'. split; [done|].
    pose proof (read_cached_runs st fs path s Hs) as [Hk _]. by rewrite E' in Hk.
  - unfold read_index in E. inv_ok. by eapply read_bytes_ok.
Qed.

Lemma indexes_given paths tables : Forall2 table_of paths tables -> forall s, caches_ok s ->
  exists indexes, gives (read_indexes st fs paths) s (Ok indexes) /\ Forall2 named indexes tables /\
    Forall (fun index => pi_algorithm index = alg) indexes.
Proof.
  induction 1 as [|path names paths tables Ht _ IH]; intros s Hs; cbn [read_indexes].
  - exists []. split; [by apply gives_ret|]. by split.
  - destruct (index_given path names s Hs Ht) as (index & Hi & _ & Hn & Ha). destruct Hi as (s1 & E1 & Hs1).
    destruct (IH s1 Hs1) as (indexes & (s2 & E2 & Hs2) & Hns & Has). exists (index :: indexes).
    split; [|by split; constructor]. exists s2. split; [|done]. rewrite (rbind_Ok _ _ _ _ _ E1), (rbind_Ok _ _ _ _ _ E2). done.
Qed.

Lemma indexes_hint_given paths tables : Forall2 table_of paths tables -> forall hint s, caches_ok s ->
  (N.of_nat (hint + sum_list_with length tables) < usize_limit)%N ->
  exists indexes, gives (read_indexes_hint st fs paths hint) s (Ok indexes) /\ Forall2 named indexes tables /\
    Forall (fun index => pi_algorithm index = alg) indexes.
Proof.
  induction 1 as [|path names paths tables Ht _ IH]; intros hint s Hs Hlt; cbn [read_indexes_hint sum_list_with] in *.
  - exists []. split; [by apply gives_ret|]. by split.
  - destruct (index_given path names s Hs Ht) as (index & Hi & _ & Hn & Ha). destruct Hi as (s1 & E1 & Hs1).
    destruct (IH (hint + pi_count index) s1 Hs1) as (indexes & (s2 & E2 & Hs2) & Hns & Has); [rewrite (nm_count _ _ Hn); lia|].
    exists (index :: indexes). split; [|by split; constructor]. exists s2. split; [|done]. rewrite (rbind_Ok _ _ _ _ _ E1).
    rewrite (checked_add_Some' hint (pi_count index)) by (rewrite (nm_count _ _ Hn); lia). cbn [ok_or].
    rewrite (rbind_Ok (rlift (Ok (hint + pi_count index))) _ s1 _ s1 eq_refl), (rbind_Ok _ _ _ _ _ E2). done.
Qed.

Lemma visited_given {St} (for_each : ObjectId -> St -> outcome St) paths tables : Forall2 table_of paths tables -> forall s acc, caches_ok s ->
  gives (visit_indexes st fs for_each paths acc) s (visit_all for_each (map (mk_id alg) (concat tables)) acc).
Proof.
  induction 1 as [|path names paths tables Ht _ IH]; intros s acc Hs; cbn [visit_indexes concat]; [by apply gives_ret|].
  destruct (index_given path names s Hs Ht) as (index & Hi & _ & Hn & Ha). eapply gives_bind; [exact Hi|]. intros s1 Hs1.
  rewrite (index_walk for_each index names acc Hn), Ha, map_app, walk_app.
  destruct (visit_all for_each (map (mk_id alg) names) acc) as [acc'|e| |] eqn:E.
  - eapply gives_bind; [by apply gives_lift|]. intros s2 Hs2. by apply IH.
  - by exists s1.
  - by exists s1.
  - by exists s1.
Qed.

Lemma count_given path names : table_of path names -> extension path = Some (bstr "idx") ->
  pack_index_object_count fs path = Ok (length names).
Proof.
  intros (index & E & Hn & _) He. unfold read_index in E. apply bind_Ok_inv in E as (f & Ef & E).
  destruct (header_count _ _ _ E) as [Hl Hc]. unfold pack_index_object_count, pack_index_path. rewrite He, decide_False by done.
  rewrite Ef, bind_Ok.
  destruct (read_exact_app (MkCursor (file_bytes f) 0) (take (8 + 256 * 4) (file_bytes f)) (drop (8 + 256 * 4) (file_bytes f)))
    as (r' & Er & _); [apply cursor_total|by rewrite take_drop|].
  rewrite length_take, Nat.min_l in Er by done. rewrite Er. cbn [fst]. rewrite bind_Ok, Hc. f_equal. apply (nm_count _ _ Hn).
Qed.

(** *** The ids of all tables *)

(** The names of the tables, in order and each once. *)
Definition merged (tables : list (list bytes)) (names : list bytes) : Prop :=
  strictly_sorted (fun n : bytes => n) cmp_bytes names /\ forall x, x ∈ names <-> exists table, table ∈ tables /\ x ∈ table.

Lemma merged_unique tables names names' : merged tables names -> merged tables names' -> names = names'.
Proof.
  intros [Hs Hin] [Hs' Hin']. apply (strictly_sorted_ext (fun n : bytes => n) cmp_bytes); [done..|]. intros x. by rewrite Hin, Hin'.
Qed.

Lemma tables_sorted paths tables : Forall2 table_of paths tables -> Forall (strictly_sorted (fun n : bytes => n) cmp_bytes) tables.
Proof. induction 1 as [|path names paths tables (index & _ & _ & Hs) _ IH]; by constructor. Qed.

Lemma tables_length paths tables : Forall2 table_of paths tables -> Forall (Forall (fun name => length name = digest_len alg)) tables.
Proof.
  induction 1 as [|path names paths tables (index & E & Hn & _) _ IH]; constructor; [|done]. unfold read_index in E. inv_ok.
  match goal with E : read_bytes _ _ = Ok _ |- _ => apply read_bytes_ok in E as [_ <-] end. by apply nm_length.
Qed.

Lemma merged_visits indexes tables names : Forall2 named indexes tables -> Forall (strictly_sorted (fun n : bytes => n) cmp_bytes) tables ->
  merged tables names -> length names <= sum_list_with length tables /\
  forall St (visit : bytes -> St -> outcome St) s, for_each_unique_sorted_pack_index_id indexes visit s = visit_all visit names s.
Proof.
  intros Hn Hs Hm. destruct (merge_spec indexes tables Hn) as (names' & Hs' & Hin & Hl & Hv).
  { eapply Forall_impl; [exact Hs|]. intros t. apply (strictly_weakly_sorted (fun n : bytes => n) cmp_bytes). }
  by rewrite (merged_unique tables names names' Hm).
Qed.

Lemma merged_exists paths tables s : caches_ok s -> Forall2 table_of paths tables -> exists names, merged tables names.
Proof.
  intros Hs Ht. destruct (indexes_given paths tables Ht s Hs) as (indexes & _ & Hn & _). pose proof (tables_sorted _ _ Ht) as Hsorted.
  destruct (merge_spec indexes tables Hn) as (names & Hsn & Hin & _); [|by exists names].
  eapply Forall_impl; [exact Hsorted|]. intros t. apply (strictly_weakly_sorted (fun n : bytes => n) cmp_bytes).
Qed.

Lemma merged_length tables names a : merged tables names -> Forall (Forall (fun name => length name = digest_len a)) tables ->
  Forall (fun name => length name = digest_len a) names.
Proof.
  intros [_ Hin] Hl. apply Forall_forall. intros x Hx. apply Hin in Hx as (t & Ht & Hx). rewrite Forall_forall in Hl. specialize (Hl t Ht).
  rewrite Forall_forall in Hl. by apply Hl.
Qed.

Lemma merged_nil names : merged [] names -> names = [].
Proof. intros Hm. apply (merged_unique [] names []); [done|]. split; [constructor|]. intros x. split; [by intros ?%elem_of_nil|by intros (t & ?%elem_of_nil & _)]. Qed.

Lemma merged_one table names : strictly_sorted (fun n : bytes => n) cmp_bytes table -> merged [table] names -> names = table.
Proof.
  intros Hs Hm. apply (merged_unique [table] names table); [done|]. split; [done|]. intros x. split.
  - intros Hx. exists table. split; [left|done].
  - by intros (t & ->%list_elem_of_singleton & Hx).
Qed.

(** *** The three ways to ask *)

Section asked.
Context (tables : list (list bytes)) (names : list bytes).
Hypothesis Ht : Forall2 table_of (listing fs) tables.
Hypothesis Hm : merged tables names.
Hypothesis Hlt : (N.of_nat (sum_list_with length tables) < usize_limit)%N.

Lemma names_few : (N.of_nat (length names) < usize_limit)%N.
Proof.
  assert (Hsub : length names <= length (concat tables)).
  { apply NoDup_incl_length.
    - apply NoDup_ListNoDup. rewrite <- (list_fmap_id names). apply (strictly_sorted_NoDup (fun n : bytes => n) cmp_bytes), Hm.
    - intros x Hx%list_elem_of_In. apply Hm in Hx as (t & Hin & Hx). apply in_concat. exists t. by rewrite <- !list_elem_of_In. }
  assert (Hc : length (concat tables) = sum_list_with length tables).
  { clear. induction tables as [|t ts IH]; cbn; [done|]. by rewrite length_app, IH. }
  lia.
Qed.

Lemma names_length : Forall (fun name => length name = digest_len alg) names.
Proof. eapply merged_length; [exact Hm|]. by eapply tables_length. Qed.

Lemma counted s : caches_ok s -> gives (packed_object_count st fs) s (Ok (length names)).
Proof.
  intros Hs. unfold packed_object_count. eapply gives_bind; [by apply paths_given|]. intros s1 Hs1. unfold count_packed_object_ids.
  pose proof (tables_sorted _ _ Ht) as Hsorted. pose proof (fun p => listing_idx fs p) as Hidx. pose proof names_few as Hfew. clear Hlt. revert Hidx.
  destruct Ht as [|path table paths tables' Ht1 Ht2]; intros Hidx.
  - apply merged_nil in Hm as ->. by apply gives_lift.
  - destruct Ht2 as [|path2 table2 paths tables'' Ht2 Ht3].
    + apply merged_one in Hm as ->; [|by apply Forall_inv in Hsorted]. cbn [length Nat.leb head]. rewrite (count_given path table Ht1); [by apply gives_lift|].
      apply Hidx. left.
    + cbn [length Nat.leb]. destruct (indexes_given _ _ Ht s1 Hs1) as (indexes & Hi & Hn & _). eapply gives_bind; [exact Hi|]. intros s2 Hs2.
      destruct (merged_visits indexes _ names Hn Hsorted Hm) as [_ Hv]. unfold count_unique_sorted_pack_index_ids. rewrite Hv.
      rewrite visit_count by done. by apply gives_lift.
Qed.

Lemma walked {St} (for_each : ObjectId -> St -> outcome St) acc s : caches_ok s ->
  gives (packed_for_each_object_id st fs for_each acc) s (visit_all for_each (map (mk_id alg) names) acc).
Proof.
  intros Hs. unfold packed_for_each_object_id. eapply gives_bind; [by apply paths_given|]. intros s1 Hs1.
  pose proof (tables_sorted _ _ Ht) as Hsorted. pose proof names_length as Hlen. clear Hlt.
  destruct Ht as [|path table paths tables' Ht1 Ht2].
  - apply merged_nil in Hm as ->. by apply gives_ret.
  - destruct Ht2 as [|path2 table2 paths tables'' Ht2 Ht3].
    + apply merged_one in Hm as ->; [|by apply Forall_inv in Hsorted]. cbn [length Nat.ltb Nat.leb].
      pose proof (visited_given for_each _ _ Ht s1 acc Hs1) as Hv. cbn [concat] in Hv. by rewrite app_nil_r in Hv.
    + cbn [length Nat.ltb Nat.leb]. destruct (indexes_given _ _ Ht s1 Hs1) as (indexes & Hi & Hn & _). eapply gives_bind; [exact Hi|]. intros s2 Hs2.
      destruct (merged_visits indexes _ names Hn Hsorted Hm) as [_ Hv]. unfold for_each_unique_sorted_pack_index_object_id.
      rewrite bool_decide_false by (intros ->; by apply Forall2_nil_inv_l in Hn). rewrite Hv, visit_ids by done. by apply gives_lift.
Qed.

Lemma sorted_ids l : Forall (fun name => length name = digest_len alg) l -> strictly_sorted (fun n : bytes => n) cmp_bytes l ->
  strictly_sorted as_bytes cmp_bytes (map (mk_id alg) l).
Proof.
  intros Hl. induction 1 as [|name l Hs IH Hn]; cbn [map]; [constructor|]. apply Forall_cons in Hl as [Hname Hl]. constructor; [by apply IH|].
  apply Forall_map. rewrite Forall_forall in *. intros x Hx. rewrite !as_bytes_mk_id; [by apply Hn|by apply Hl|done].
Qed.

Lemma ids_ok l : Forall (fun name => length name = digest_len alg) l -> ids_of alg (map (mk_id alg) l).
Proof. intros Hl. apply Forall_map. eapply Forall_impl; [exact Hl|]. intros name Hname. split; [by apply mk_id_wf|done]. Qed.

(** Asked with none there, it takes the table of its only index, or merges. *)
Lemma appended_one s : caches_ok s -> length (listing fs) = 1 ->
  gives (visit_indexes st fs push_id (listing fs) []) s (Ok (map (mk_id alg) names)) /\
  strictly_sorted as_bytes cmp_bytes (map (mk_id alg) names).
Proof.
  intros Hs E. split; [|apply sorted_ids; [apply names_length|apply Hm]]. pose proof (visited_given push_id _ _ Ht s [] Hs) as Hv.
  rewrite walk_push in Hv. pose proof (tables_sorted _ _ Ht) as Hsorted. pose proof (Forall2_length _ _ _ Ht) as Hl. clear Hlt.
  destruct tables as [|table [|table2 tables']]; [cbn in Hl; lia| |cbn in Hl; lia].
  apply merged_one in Hm as ->; [|by apply Forall_inv in Hsorted]. cbn [concat] in Hv. by rewrite app_nil_r in Hv.
Qed.

Lemma appended_many s : caches_ok s -> 1 < length (listing fs) ->
  gives (indexes <~ read_indexes_hint st fs (listing fs) 0; rlift (append_unique_sorted_pack_index_ids indexes [])) s
    (Ok (map (mk_id alg) names)).
Proof.
  intros Hs E. destruct (indexes_hint_given _ _ Ht 0 s Hs Hlt) as (indexes & Hi & Hn & Ha). eapply gives_bind; [exact Hi|]. intros s2 Hs2.
  destruct (merged_visits indexes _ names Hn (tables_sorted _ _ Ht) Hm) as [_ Hv]. unfold append_unique_sorted_pack_index_ids.
  pose proof (Forall2_length _ _ _ Ht) as Hl1. pose proof (Forall2_length _ _ _ Hn) as Hl2. destruct indexes as [|first indexes]; [cbn in Hl2; lia|].
  cbn [head]. apply Forall_inv in Ha. rewrite Ha, Hv. change (fun bs ids => id ← ObjectId_new alg bs; Ok (ids ++ [id])) with
    (fun bs ids => id ← ObjectId_new alg bs; push_id id ids). rewrite (visit_ids alg push_id names names_length), walk_push. by apply gives_lift.
Qed.

(** Asked with ids already there, the store adds its own and sorts. *)
Lemma appended before s : caches_ok s -> ids_of alg before ->
  exists all, gives (append_object_ids st fs before) s (Ok all) /\ strictly_sorted as_bytes cmp_bytes all /\
    forall i, i ∈ all <-> i ∈ before \/ i ∈ map (mk_id alg) names.
Proof.
  intros Hs Hb. pose proof (tables_sorted _ _ Ht) as Hsorted. pose proof (tables_length _ _ Ht) as Hlens.
  assert (Hconcat : forall i, i ∈ map (mk_id alg) (concat tables) <-> i ∈ map (mk_id alg) names).
  { intros i. change (map (mk_id alg) ?l) with (mk_id alg <$> l). rewrite !list_elem_of_fmap. split; intros (x & -> & Hx); exists x; (split; [done|]).
    - apply list_elem_of_In, in_concat in Hx as (t & Hin & Hx). apply Hm. exists t. by rewrite !list_elem_of_In.
    - apply Hm in Hx as (t & Hin & Hx). apply list_elem_of_In, in_concat. exists t. by rewrite <- !list_elem_of_In. }
  assert (Hcat : Forall (fun name => length name = digest_len alg) (concat tables)).
  { apply Forall_concat. done. }
  assert (Hslow : forall s1, caches_ok s1 -> exists all, gives
    (ids <~ visit_indexes st fs push_id (listing fs) before;
     rret (if bool_decide (ids = []) then ids else dedup_ids (sort_by (by_key as_bytes cmp_bytes) ids))) s1 (Ok all) /\
    strictly_sorted as_bytes cmp_bytes all /\ forall i, i ∈ all <-> i ∈ before \/ i ∈ map (mk_id alg) names).
  { intros s1 Hs1. pose proof (visited_given push_id _ _ Ht s1 before Hs1) as Hv. rewrite walk_push in Hv.
    assert (Hall : ids_of alg (before ++ map (mk_id alg) (concat tables))) by (apply Forall_app; split; [done|by apply ids_ok]).
    destruct (sorted_dedup _ _ Hall) as [Hsd Hind]. set (ids := before ++ map (mk_id alg) (concat tables)) in *.
    exists (if bool_decide (ids = []) then ids else dedup_ids (sort_by (by_key as_bytes cmp_bytes) ids)).
    split; [eapply gives_bind; [exact Hv|]; intros s2 Hs2; by apply gives_ret|]. case_bool_decide as Hnil.
    - rewrite Hnil in *. split; [constructor|]. intros i. rewrite <- Hconcat, <- elem_of_app. unfold ids in Hnil. by rewrite Hnil.
    - split; [done|]. intros i. rewrite Hind. unfold ids. by rewrite elem_of_app, Hconcat. }
  destruct (idx_paths_Ok fs s) as (paths & s1 & E). destruct (paths_given s Hs) as (s1' & E' & Hs1). rewrite E in E'. injection E' as -> <-.
  enough (exists m all, append_object_ids st fs before s = m s1 /\ gives m s1 (Ok all) /\ strictly_sorted as_bytes cmp_bytes all /\
    forall i, i ∈ all <-> i ∈ before \/ i ∈ map (mk_id alg) names) as (m & all & Eq & (s2 & Em & Hs2) & Hr).
  { exists all. split; [|done]. exists s2. by rewrite Eq. }
  unfold append_object_ids. rewrite (rbind_Ok _ _ _ _ _ E). destruct (Hslow s1 Hs1) as (all & Hg & Hr). destruct (decide (before = [])) as [->|Hnil].
  2:{ rewrite bool_decide_false by done. cbn [andb]. by eexists _, all. }
  rewrite bool_decide_true by done. cbn [andb]. destruct (length (listing fs) =? 1) eqn:E1.
  - apply Nat.eqb_eq in E1. destruct (appended_one s1 Hs1 E1) as [Hg1 Hsi]. eexists _, _. split; [reflexivity|]. split; [exact Hg1|]. split; [done|].
    intros i. rewrite elem_of_nil. tauto.
  - destruct (1 <? length (listing fs)) eqn:E2; [|by eexists _, all].
    apply Nat.ltb_lt in E2. eexists _, _. split; [reflexivity|]. split; [by apply appended_many|]. split.
    + apply sorted_ids; [apply names_length|apply Hm].
    + intros i. rewrite elem_of_nil. tauto.
Qed.
End asked.

(** *** Indexes as the indexer makes them *)

(** An index that can be read, and the entries it lists, each id once. *)
Definition indexed (path : bytes) (entries : list PackIndexEntry) : Prop :=
  exists index version pack_id, read_index fs path alg = Ok index /\ lists index version pack_id entries /\
    strictly_sorted (fun e => as_bytes (pe_object_id e)) cmp_bytes entries.

Definition entry_ids (l : list PackIndexEntry) : list ObjectId := map pe_object_id l.

Lemma indexed_table path entries : indexed path entries -> table_of path (map entry_key entries).
Proof.
  intros (index & version & pack_id & E & Hl & Hs). exists index. split; [done|]. split.
  - split.
    + rewrite length_map. apply (ls_count _ _ _ _ Hl).
    + intros i name Hi. change (map entry_key entries) with (entry_key <$> entries) in Hi. apply list_lookup_fmap_Some in Hi as (e & -> & He).
      by apply (ls_name _ _ _ _ Hl).
    + apply Forall_map. eapply Forall_impl; [apply (ls_ok _ _ _ _ Hl)|]. intros e. apply entry_key_length.
  - clear -Hs. induction Hs as [|e l Hs IH He]; constructor; [done|]. by apply Forall_map.
Qed.

Lemma indexed_wf paths ls entries e : Forall2 indexed paths ls -> entries ∈ ls -> e ∈ entries ->
  ObjectId_wf (pe_object_id e) /\ algorithm (pe_object_id e) = alg.
Proof.
  intros Hl [k Hk]%list_elem_of_lookup He. destruct (Forall2_lookup_r _ _ _ _ _ Hl Hk) as (path & _ & index & version & pack_id & E & Hlists & _).
  pose proof (ls_ok _ _ _ _ Hlists) as Hok. rewrite Forall_forall in Hok. destruct (Hok e He) as (? & Ha & _). split; [done|].
  unfold read_index in E. inv_ok. match goal with E : read_bytes _ _ = Ok _ |- _ => apply read_bytes_ok in E as [_ E] end. congruence.
Qed.

(** The store finds an id exactly when an index lists it. *)
Lemma contained ls i s : Forall2 indexed (listing fs) ls -> caches_ok s -> ObjectId_wf i -> algorithm i = alg ->
  gives (packed_contains_object st fs i) s (Ok (bool_decide (i ∈ concat (map entry_ids ls)))).
Proof.
  intros Hl Hs Hwf Ha.
  assert (Hasked : forall k path entries, listing fs !! k = Some path -> ls !! k = Some entries ->
    exists index r, read_index fs path alg = Ok index /\ offset_for index i = Ok r /\ (is_Some r <-> i ∈ entry_ids entries)).
  { intros k path entries Hk Hent. destruct (Forall2_lookup_lr _ _ _ _ _ _ Hl Hk Hent) as (index & version & pack_id & E & Hlists & Hsort).
    assert (Hai : pi_algorithm index = alg).
    { pose proof E as E'. unfold read_index in E'. inv_ok. by eapply read_bytes_ok. }
    destruct (offset_for_lists index version pack_id entries Hlists (strictly_weakly_sorted _ _ _ Hsort) i Hwf) as (r & Er & Hr); [congruence|].
    exists index, r. split; [done|]. split; [done|].
    unfold entry_ids. change (map pe_object_id entries) with (pe_object_id <$> entries). rewrite list_elem_of_fmap. destruct r as [offset|].
    - destruct Hr as (e & He & Hid & _). split; [by exists e|done].
    - split; [by intros [? ?]|]. intros (e & -> & He). by destruct (Hr e He). }
  destruct (lookup_Ok st fs i s) as (r & s' & E); [|done|].
  { intros path [k Hk]%list_elem_of_lookup. destruct (Forall2_lookup_l _ _ _ _ _ Hl Hk) as (entries & Hent & _).
    destruct (Hasked k path entries Hk Hent) as (index & r & ? & ? & _). by exists index, r. }
  pose proof (lookup_runs st fs i s Hs) as [Hk Hq]. rewrite E in Hk, Hq. specialize (Hq r eq_refl). cbn [fst snd] in Hk, Hq.
  exists s'. split; [|done]. unfold packed_contains_object, check_algorithm. rewrite Ha, bool_decide_true by done. cbn [negb check].
  rewrite (rbind_Ok (rlift (Ok tt)) _ s tt s eq_refl), (rbind_Ok _ _ _ _ _ E). unfold rret. f_equal. f_equal. apply bool_decide_ext.
  rewrite list_elem_of_In, in_concat. destruct r as [[pack_path index offset]|].
  - destruct Hq as (path & [k Hp]%list_elem_of_lookup & Ei & _ & Eo). destruct (Forall2_lookup_l _ _ _ _ _ Hl Hp) as (entries & Hent & _).
    destruct (Hasked k path entries Hp Hent) as (index' & r & Ei' & Er & Hr). split; [intros _|done]. exists (entry_ids entries).
    rewrite Ei in Ei'. injection Ei' as <-. rewrite Eo in Er. injection Er as <-. split; [|by apply list_elem_of_In, Hr].
    apply list_elem_of_In, list_elem_of_fmap. exists entries. split; [done|by eapply list_elem_of_lookup_2].
  - split; [by intros [? ?]|]. intros (ids & Hin & Hi). apply list_elem_of_In, list_elem_of_fmap in Hin as (entries & -> & [k Hent]%list_elem_of_lookup).
    destruct (Forall2_lookup_r _ _ _ _ _ Hl Hent) as (path & Hp & _). destruct (Hasked k path entries Hp Hent) as (index' & r & Ei' & Er & Hr).
    apply list_elem_of_In, Hr in Hi as [offset ->]. destruct (Hq path) as [(index & Ei & Eo)|(e & Ee & _)]; [by eapply list_elem_of_lookup_2|congruence|congruence].
Qed.

(** However a store of packs is asked for its ids, it tells the same: when every listed index can be read and lists
    its names each once, in order, there is one sorted list, without repetition, of the ids all of them have; it is what the list of ids
    is, its length is the count, every visitor is taken through it in its order, up to its first error, and ids already
    there are added to it in place.  One index is walked, several are merged, and with ids already there all are sorted; the caches stay coherent. *)
Lemma packed_ids_gives s tables : caches_ok s -> Forall2 table_of (listing fs) tables ->
  (N.of_nat (sum_list_with length tables) < usize_limit)%N ->
  exists ids, strictly_sorted as_bytes cmp_bytes ids /\
    (forall i, i ∈ ids <-> ObjectId_wf i /\ algorithm i = alg /\ exists table, table ∈ tables /\ as_bytes i ∈ table) /\
    gives (packed_object_ids st fs) s (Ok ids) /\ gives (packed_object_count st fs) s (Ok (length ids)) /\
    (forall St (for_each : ObjectId -> St -> outcome St) acc,
      gives (packed_for_each_object_id st fs for_each acc) s (visit_all for_each ids acc)) /\
    (forall before, ids_of alg before -> exists all, gives (append_object_ids st fs before) s (Ok all) /\
      strictly_sorted as_bytes cmp_bytes all /\ forall i, i ∈ all <-> i ∈ before \/ i ∈ ids).
Proof.
  intros Hs Ht Hlt. destruct (merged_exists _ _ s Hs Ht) as [names Hm]. pose proof (names_length tables names Ht Hm) as Hlen.
  assert (Hsorted : strictly_sorted as_bytes cmp_bytes (map (mk_id alg) names)) by (apply sorted_ids; [done|apply Hm]).
  exists (map (mk_id alg) names). split; [done|]. split; [|split; [|split; [|split]]].
  - intros i. change (map (mk_id alg) names) with (mk_id alg <$> names). rewrite list_elem_of_fmap. split.
    + intros (name & -> & Hin). rewrite Forall_forall in Hlen. specialize (Hlen name Hin). split; [by apply mk_id_wf|]. split; [done|].
      rewrite as_bytes_mk_id by done. by apply Hm.
    + intros (Hwf & <- & Hin). exists (as_bytes i). split; [by rewrite mk_id_as_bytes|by apply Hm].
  - destruct (appended tables names Ht Hm Hlt [] s Hs) as (all & Hg & Hsa & Hin); [constructor|]. unfold packed_object_ids.
    enough (all = map (mk_id alg) names) as <- by done. apply (strictly_sorted_ext as_bytes cmp_bytes); [done..|]. intros i. rewrite Hin, elem_of_nil. tauto.
  - rewrite length_map. by eapply counted.
  - intros St for_each acc. by eapply walked.
  - intros before Hb. by eapply appended.
Qed.

(** C10: however a store of packs is asked for its ids, it tells the same: when every listed index can be read and lists
    each of its ids once, there is one sorted list, without repetition, of the ids the indexes have; it is what the list of
    ids is, its length is the count, every visitor is taken through it in its order, up to its first error, ids
    already there are merged with it, and the store contains an id exactly when it is in it.  One index is walked, several are merged by the heap, and with
    ids already there all are sorted; the caches stay coherent. *)
Theorem packed_ids_spec s ls : caches_ok s -> Forall2 indexed (listing fs) ls -> (N.of_nat (sum_list_with length ls) < usize_limit)%N ->
  exists ids, strictly_sorted as_bytes cmp_bytes ids /\ (forall i, i ∈ ids <-> exists entries, entries ∈ ls /\ i ∈ entry_ids entries) /\
    gives (packed_object_ids st fs) s (Ok ids) /\ gives (packed_object_count st fs) s (Ok (length ids)) /\
    (forall St (for_each : ObjectId -> St -> outcome St) acc,
      gives (packed_for_each_object_id st fs for_each acc) s (visit_all for_each ids acc)) /\
    (forall before, ids_of alg before -> exists all, gives (append_object_ids st fs before) s (Ok all) /\
      strictly_sorted as_bytes cmp_bytes all /\ forall i, i ∈ all <-> i ∈ before \/ i ∈ ids) /\
    (forall i, ObjectId_wf i -> algorithm i = alg -> gives (packed_contains_object st fs i) s (Ok (bool_decide (i ∈ ids)))).
Proof.
  intros Hs Hl Hlt. assert (Ht : Forall2 table_of (listing fs) (map (map entry_key) ls)).
  { apply Forall2_fmap_r. eapply Forall2_impl; [exact Hl|]. intros path entries. apply indexed_table. }
  destruct (packed_ids_gives s _ Hs Ht) as (ids & Hsorted & Hin & Hids & Hcount & Heach & Happend).
  { enough (sum_list_with length (map (map entry_key) ls) = sum_list_with length ls) as -> by done.
    clear. induction ls as [|l ls IH]; cbn; [done|]. by rewrite length_map, IH. }
  assert (Hmem : forall i, i ∈ ids <-> exists entries, entries ∈ ls /\ i ∈ entry_ids entries).
  { intros i. rewrite Hin. split.
    - intros (Hwf & Ha & table & (entries & -> & He)%list_elem_of_fmap & Hb). exists entries. split; [done|].
      apply list_elem_of_fmap in Hb as (e & Hk & Hin'). apply list_elem_of_fmap. exists e. split; [|done].
      destruct (indexed_wf _ _ _ _ Hl He Hin') as [Hwe Hae]. rewrite <- (mk_id_as_bytes i), <- (mk_id_as_bytes (pe_object_id e)) by done. congruence.
    - intros (entries & He & Hi). apply list_elem_of_fmap in Hi as (e & -> & Hin'). destruct (indexed_wf _ _ _ _ Hl He Hin') as [Hwe Hae].
      split; [done|]. split; [done|]. exists (map entry_key entries). split; apply list_elem_of_fmap; eauto. }
  exists ids. do 6 (split; [done|]). intros i Hwf Ha. rewrite (bool_decide_ext (i ∈ ids) (i ∈ concat (map entry_ids ls))).
  - by apply contained.
  - rewrite Hmem, list_elem_of_In, in_concat. split.
    + intros (entries & He & Hi). exists (entry_ids entries). rewrite <- !list_elem_of_In. split; [|done]. apply list_elem_of_fmap. eauto.
    + intros (l & Hlist & Hi). rewrite <- list_elem_of_In in Hlist. rewrite <- list_elem_of_In in Hi. apply list_elem_of_fmap in Hlist as (entries & -> & He). eauto.
Qed.
End directory.

(** ** Witness: two indexes that share ids *)

#[local] Existing Instances sample_sha sample_sha_laws stable_sort stable_sort_laws.

#[local] Instance sample_keys : HashKeys := fun m => (map_to_list m).*1.

Definition sample_listed (first : N) : list PackIndexEntry := [MkPackEntry 90 (sample_id Sha1 17) 8; MkPackEntry 12 (sample_id Sha1 first) 7].

Definition sample_dir (idx1 idx2 : bytes) : ObjectsFs :=
  MkFs (Some (MkPackDir (Some 7%N) 4096 [bstr "o/pack/b.idx"; bstr "o/pack/a.idx"]))
    (<[bstr "o/pack/a.idx" := MkFile (Some 8%N) idx1]> {[bstr "o/pack/b.idx" := MkFile (Some 9%N) idx2]}).

Lemma sample_indexed (first : N) : first ∈ [18%N; 19%N] ->
  exists idx index l, read_bytes idx Sha1 = Ok index /\ lists index V2 (sample_id Sha1 3) l /\ l ≡ₚ sample_listed first /\
    strictly_sorted (fun e => as_bytes (pe_object_id e)) cmp_bytes l.
Proof.
  intros Hf. destruct (index_entries_Ok Sha1 V2 (sample_id Sha1 3) (sample_listed first)) as (ip & pi & l & _ & E & _ & Hl & Hp & Hs & _).
  - repeat constructor; first [by vm_compute|apply sample_id_wf].
  - reflexivity.
  - apply sample_id_wf.
  - reflexivity.
  - discriminate.
  - exists (ip_index ip), pi, l. split; [done|]. split; [done|]. split; [done|]. apply weakly_sorted_strict; [apply _|done|].
    rewrite Hp. apply (bool_decide_unpack _). rewrite !elem_of_cons, elem_of_nil in Hf. destruct Hf as [->|[->|[]]]; vm_compute; exact I.
Qed.

Lemma packed_ids_spec_witness : exists idx1 idx2 s',
  packed_object_count (packed_new Sha1) (sample_dir idx1 idx2) no_caches = (Ok 3, s') /\
  exists s2, packed_contains_object (packed_new Sha1) (sample_dir idx1 idx2) (sample_id Sha1 18) no_caches = (Ok true, s2).
Proof.
  destruct (sample_indexed 18) as (idx1 & index1 & l1 & E1 & Hl1 & Hp1 & Hs1); [by left|].
  destruct (sample_indexed 19) as (idx2 & index2 & l2 & E2 & Hl2 & Hp2 & Hs2); [by right; left|].
  assert (Hl : listing (sample_dir idx1 idx2) = [bstr "o/pack/a.idx"; bstr "o/pack/b.idx"]) by (vm_compute; reflexivity).
  destruct (packed_ids_spec (D := MarkedDecoder) (packed_new Sha1) (sample_dir idx1 idx2) no_caches [l1; l2] (no_caches_ok _ _))
    as (ids & Hsorted & Hin & _ & (s1 & Ec & _) & _ & _ & Hcont).
  - rewrite Hl. constructor; [|constructor; [|constructor]].
    + exists index1, V2, (sample_id Sha1 3). split; [exact E1|]. split; [exact Hl1|exact Hs1].
    + exists index2, V2, (sample_id Sha1 3). split; [exact E2|]. split; [exact Hl2|exact Hs2].
  - cbn [sum_list_with]. rewrite (Permutation_length Hp1), (Permutation_length Hp2). vm_compute. reflexivity.
  - exists idx1, idx2, s1.
    assert (Eids : ids = [sample_id Sha1 17; sample_id Sha1 18; sample_id Sha1 19]).
    { apply (strictly_sorted_ext as_bytes cmp_bytes); [done|by apply (windows2_sorted as_bytes cmp_bytes); vm_compute|].
      intros i. rewrite Hin.
      assert (Hm1 : i ∈ entry_ids l1 <-> i ∈ entry_ids (sample_listed 18)) by (unfold entry_ids; by rewrite Hp1).
      assert (Hm2 : i ∈ entry_ids l2 <-> i ∈ entry_ids (sample_listed 19)) by (unfold entry_ids; by rewrite Hp2).
      cbn [entry_ids sample_listed map pe_object_id] in Hm1, Hm2. rewrite !elem_of_cons, elem_of_nil in Hm1, Hm2.
      rewrite !elem_of_cons, elem_of_nil. split.
      - intros (entries & He & Hi). rewrite !elem_of_cons, elem_of_nil in He. destruct He as [->|[->|[]]]; tauto.
      - intros [?|[?|[?|[]]]]; [exists l1|exists l1|exists l2]; (split; [by repeat constructor|tauto]). }
    rewrite Eids in Ec. split; [exact Ec|]. destruct (Hcont (sample_id Sha1 18) (sample_id_wf _ _) eq_refl) as (s2 & E & _).
    exists s2. rewrite E, Eids. rewrite bool_decide_true; [reflexivity|]. right. left.
Defined.
