(* ===== verification/PackShort.v ===== *)
(** * The object store of packs: abbreviated ids are resolved over all indexes *)
From S2P Require Import Prelude Order Object Reader Zlib PackHeader PackParse PackIndex PackIndexSpec PackIndexLookup PackIndexSafe PackPrefix PackStore PackStoreRead PackStoreLookup PackMerge PackIds.

(** A text, of hexadecimal digits in either case, that the text of an id begins with. *)
Definition abbreviates (p : bytes) (id : ObjectId) : Prop := map to_lower p `prefix_of` hex_encode (as_bytes id).

#[export] Instance abbreviates_dec p id : Decision (abbreviates p id).
Proof. unfold abbreviates. apply _. Defined.

Lemma filter_fmap {A B} (f : A -> B) (P : B -> Prop) (Q : A -> Prop) `{!forall b, Decision (P b)} `{!forall a, Decision (Q a)} (l : list A) :
  (forall a, a ∈ l -> P (f a) <-> Q a) -> filter P (f <$> l) = f <$> filter Q l.
Proof.
  induction l as [|a l IH]; intros Hf; [done|]. cbn [fmap list_fmap]. rewrite !filter_cons.
  rewrite IH by (intros b Hb; apply Hf; by right). pose proof (Hf a ltac:(by left)).
  destruct (decide (P (f a))), (decide (Q a)); tauto || done.
Qed.

(** An index of entries in order collects the ids that begin with the prefix. *)
Lemma collect_prefix_lists pi version pack_id entries p resolved : lists pi version pack_id entries ->
  weakly_sorted (fun e => as_bytes (pe_object_id e)) cmp_bytes entries -> Forall is_hex p ->
  length p <= 2 * digest_len (pi_algorithm pi) ->
  collect_prefix pi p resolved = record_all (filter (abbreviates p) (map pe_object_id entries)) resolved.
Proof.
  intros Hl Hs Hp Hlen. pose proof (ls_ok _ _ _ _ Hl) as Hok. rewrite Forall_forall in Hok.
  rewrite (collect_prefix_eq pi (map entry_key entries)) with (p := p); [| | | | |done|done].
  - f_equal. change (map entry_key entries) with (entry_key <$> entries). change (map pe_object_id entries) with (pe_object_id <$> entries).
    change (map (mk_id (pi_algorithm pi)) ?l) with (mk_id (pi_algorithm pi) <$> l).
    rewrite (filter_fmap entry_key _ (fun e => abbreviates p (pe_object_id e))) by done.
    rewrite (filter_fmap pe_object_id _ (fun e => abbreviates p (pe_object_id e))) by done.
    rewrite <- list_fmap_compose. apply list_fmap_ext. intros i e Hi. unfold compose.
    destruct (Hok e) as (Hwf & <- & _); [|by apply mk_id_as_bytes].
    apply list_elem_of_lookup_2 in Hi. by apply list_elem_of_filter in Hi as [_ ?].
  - rewrite length_map. apply (ls_count _ _ _ _ Hl).
  - intros i name Hi. change (map entry_key entries) with (entry_key <$> entries) in Hi.
    apply list_lookup_fmap_Some in Hi as (e & -> & He). by apply (ls_name _ _ _ _ Hl).
  - apply Forall_map. eapply Forall_impl; [apply (ls_ok _ _ _ _ Hl)|]. intros e. apply entry_key_length.
  - clear -Hs. induction Hs as [|e l Hs IH He]; constructor; [done|]. by apply Forall_map.
Qed.

(** A whole id, read from its text. *)
Lemma hex_decode_digits n : forall p, length p = n * 2 -> Forall is_hex p -> exists ds, hex_decode p = Ok ds.
Proof.
  assert (Hn : forall c, is_hex c -> exists k, hex_nibble c = Ok k) by (intros c; unfold is_hex; destruct c; intros [=]; by eexists).
  induction n as [|n IH]; intros [|c0 [|c1 p]] Hl Hp; cbn [length] in Hl; try lia; [by exists []|].
  apply Forall_cons in Hp as [[h Eh]%Hn [[l El]%Hn Hp]%Forall_cons]. destruct (IH p) as [ds E]; [lia|done|].
  cbn [hex_decode]. rewrite Eh, bind_Ok, El, bind_Ok, E, bind_Ok. by eexists.
Qed.

Lemma full_prefix a p : length p = 2 * digest_len a -> Forall is_hex p ->
  exists id, from_hex_bytes a p = Ok id /\ ObjectId_wf id /\ algorithm id = a /\ hex_encode (as_bytes id) = map to_lower p.
Proof.
  intros Hl Hp. destruct (hex_decode_digits (digest_len a) p) as [ds E]; [lia|done|].
  assert (Ei : from_hex_bytes a p = Ok (mk_id a ds)).
  { rewrite from_hex_bytes_spec, Hl, (Nat.mul_comm 2), Nat.eqb_refl. by rewrite E, bind_Ok. }
  exists (mk_id a ds). split; [done|]. apply from_hex_bytes_iff in Ei as (? & ? & ?). done.
Qed.

Section directory.
Context `{ShaLaws, HashKeys} {D : Type} `{ZlibDecoder bytes D} (st : PackedObjectStore) (fs : ObjectsFs).

#[local] Abbreviation alg := (pos_algorithm st).
#[local] Abbreviation caches_ok := (caches_ok (D := D) st fs).
#[local] Abbreviation gives := (gives (D := D) st fs).

(** An index that can be read, and the entries it lists, in the order of their ids. *)
Definition ordered (path : bytes) (entries : list PackIndexEntry) : Prop :=
  exists index version pack_id, read_index fs path alg = Ok index /\ lists index version pack_id entries /\
    weakly_sorted (fun e => as_bytes (pe_object_id e)) cmp_bytes entries.

Lemma ordered_given path entries s : caches_ok s -> ordered path entries ->
  exists index, gives (read_cached_pack_index fs path alg) s (Ok index) /\
    forall p resolved, Forall is_hex p -> length p <= 2 * digest_len alg ->
      collect_prefix index p resolved = record_all (filter (abbreviates p) (entry_ids entries)) resolved.
Proof.
  intros Hs (index & version & pack_id & E & Hl & Hsort). exists index. split.
  - destruct (read_cached_Ok st fs path s index Hs E) as [s' E']. exists s'. split; [done|].
    pose proof (read_cached_runs st fs path s Hs) as [Hk _]. by rewrite E' in Hk.
  - intros p resolved Hp Hlen. apply (collect_prefix_lists index version pack_id entries p resolved Hl Hsort Hp).
    assert (Ha : pi_algorithm index = alg); [|by rewrite Ha].
    unfold read_index in E. inv_ok. by eapply read_bytes_ok.
Qed.

(** The indexes are searched one after the other, in the order they are listed. *)
Lemma collect_loop_gives p paths ls : Forall is_hex p -> length p <= 2 * digest_len alg -> Forall2 ordered paths ls ->
  forall resolved s, caches_ok s ->
  gives (collect_prefix_loop fs alg p paths resolved) s (record_all (filter (abbreviates p) (concat (map entry_ids ls))) resolved).
Proof.
  intros Hp Hlen. induction 1 as [|path entries paths ls Ho _ IH]; intros resolved s Hs; cbn [collect_prefix_loop map concat].
  - by exists s.
  - destruct (ordered_given path entries s Hs Ho) as (index & Hi & Hc). apply (gives_bind _ _ _ _ _ _ _ Hi). intros s1 Hs1.
    rewrite filter_app, record_all_app, (Hc p resolved Hp Hlen). destruct (record_all _ resolved) as [resolved'|e| |].
    + rewrite bind_Ok. apply (gives_bind _ _ _ _ _ resolved'); [by exists s1|]. intros s2 Hs2. by apply IH.
    + by exists s1.
    + by exists s1.
    + by exists s1.
Qed.

(** The lengths and letters of a prefix that are accepted. *)
Lemma validate_hex_prefix_Ok p a u : validate_hex_prefix p a = Ok u <-> 4 <= length p <= 2 * digest_len a /\ Forall is_hex p.
Proof.
  unfold validate_hex_prefix. cbv zeta. rewrite bind_check_Ok, check_Ok, orb_false_iff, Nat.ltb_ge, Nat.ltb_ge, negb_false_iff, (Nat.mul_comm _ 2).
  assert (Hx : forallb is_ascii_hexdigit p = true <-> Forall is_hex p).
  { rewrite forallb_forall, Forall_forall. apply forall_proper. intros b. rewrite list_elem_of_In.
    assert (is_ascii_hexdigit b = true <-> is_hex b) as ->; [|done]. unfold is_hex. by destruct b. }
  rewrite Hx. destruct u. split; [intros [[? ?] [? _]]; split; [lia|done]|intros [? ?]; split; [lia|done]].
Qed.

Lemma validate_hex_prefix_Err p a : safe (validate_hex_prefix p a) /\ forall e, validate_hex_prefix p a = Err e -> err_kind e = InvalidInput.
Proof.
  unfold validate_hex_prefix. cbv zeta. destruct (_ || _); cbn [check]; [split; [done|by intros e [= <-]]|]. rewrite bind_Ok.
  destruct (negb _); cbn [check]; [split; [done|by intros e [= <-]]|done].
Qed.

(** C40: an abbreviated id is resolved over all the packs. When every listed index can be read and lists its ids in order,
    a text of 4 hexadecimal digits or more, in either case, and of fewer than an id has, gives the one id of the packs that
    begins with it, however many packs have that id; when there is none the object is not found, and when there are two or
    more the text is refused as ambiguous. A text as long as an id is that id, whether or not it is in a pack, and a text of
    another length or with another character is refused. The caches stay coherent. *)
Theorem packed_resolve_prefix_spec s ls p : caches_ok s -> Forall2 ordered (listing fs) ls ->
  let candidate id := exists entries, entries ∈ ls /\ id ∈ entry_ids entries /\ abbreviates p id in
  exists o, gives (packed_resolve_prefix st fs p) s o /\
    (4 <= length p < 2 * digest_len alg -> Forall is_hex p ->
      match o with
      | Ok id => candidate id /\ forall id', candidate id' -> id' = id
      | Err e => (err_kind e = NotFound /\ forall id, ~ candidate id) \/
          (err_kind e = InvalidInput /\ exists i j, i <> j /\ candidate i /\ candidate j)
      | _ => False
      end) /\
    (length p = 2 * digest_len alg -> Forall is_hex p ->
      exists id, o = Ok id /\ ObjectId_wf id /\ algorithm id = alg /\ hex_encode (as_bytes id) = map to_lower p) /\
    (~ (4 <= length p <= 2 * digest_len alg /\ Forall is_hex p) -> exists e, o = Err e /\ err_kind e = InvalidInput).
Proof.
  intros Hs Hl candidate. unfold packed_resolve_prefix. pose proof (validate_hex_prefix_Err p alg) as [Hsafe Herr].
  assert (Hd : 4 <= 2 * digest_len alg) by (destruct (pos_algorithm st); cbn; lia).
  destruct (validate_hex_prefix p alg) as [[]|e| |] eqn:Ev; [|clear Hsafe|done..].
  2: { assert (Hbad : ~ (4 <= length p <= 2 * digest_len alg /\ Forall is_hex p)) by (rewrite <- (validate_hex_prefix_Ok p alg tt), Ev; done).
       exists (Err e). split; [by exists s|]. split_and!; [intros ? ?; destruct Hbad; split; [lia|done]..|].
       intros _. exists e. split; [done|by apply Herr]. }
  pose proof (proj1 (validate_hex_prefix_Ok p alg tt) Ev) as [Hlen Hp].
  change (rbind (rlift (Ok tt)) ?f) with (f tt). cbv beta. rewrite (Nat.mul_comm _ 2).
  destruct (Nat.eqb_spec (length p) (2 * digest_len alg)) as [Heq|Hne].
  - destruct (full_prefix alg p Heq Hp) as (id & E & Hwf & Ha & Hx). exists (Ok id). rewrite E. split; [by exists s|].
    split; [intros; lia|]. split; [|intros Hn; by destruct Hn]. intros _ _. by exists id.
  - set (candidates := filter (abbreviates p) (concat (map entry_ids ls))).
    assert (Hc : forall id, candidate id <-> id ∈ candidates).
    { intros id. unfold candidates, candidate. rewrite list_elem_of_filter, list_elem_of_In, in_concat. setoid_rewrite in_map_iff. split.
      - intros (entries & He & Hi & Hab). split; [done|]. exists (entry_ids entries). rewrite <- list_elem_of_In. split; [|done].
        exists entries. by rewrite <- list_elem_of_In.
      - intros (Hab & ids & (entries & <- & He) & Hi). exists entries. rewrite !list_elem_of_In. done. }
    assert (Hg : gives (packed_collect_prefix st fs p None) s (record_all candidates None)).
    { unfold packed_collect_prefix. rewrite Ev. change (rbind (rlift (Ok tt)) ?f) with (f tt). cbv beta.
      apply (gives_bind _ _ _ _ _ (listing fs)); [by apply paths_given|]. intros s1 Hs1. apply collect_loop_gives; [done|lia|done|done]. }
    exists (r ← record_all candidates None; ok_or r NotFound "packed git object not found"). split.
    + destruct Hg as (s1 & E1 & Hs1). exists s1. split; [|done]. unfold rbind. rewrite E1. by destruct (record_all candidates None).
    + split; [intros _ _|split; [lia|intros Hn; destruct Hn; split; [lia|done]]].
      pose proof (record_all_spec candidates None) as Hr. destruct (record_all candidates None) as [[id|]|e| |]; [| | |done|done].
      * rewrite bind_Ok. cbn [ok_or]. destruct Hr as [[?|Hin] Hall]; [done|]. split; [by apply Hc|]. intros id' Hid%Hc. apply Hall. by right.
      * rewrite bind_Ok. cbn [ok_or fail]. left. destruct Hr as [_ ->]. split; [done|]. intros id Hid%Hc. by apply elem_of_nil in Hid.
      * right. destruct Hr as (He & i & j & Hij & [?|Hi] & [?|Hj]); try done. split; [done|]. exists i, j. by rewrite !Hc.
Qed.
End directory.

(** ** Witness: two indexes that share an id *)

#[local] Existing Instances sample_sha sample_sha_laws stable_sort stable_sort_laws sample_keys.

Lemma packed_resolve_prefix_spec_witness : exists idx1 idx2 s1 e s2,
  packed_resolve_prefix (packed_new Sha1) (sample_dir idx1 idx2) (bstr "11111") no_caches = (Ok (sample_id Sha1 17), s1) /\
  packed_resolve_prefix (packed_new Sha1) (sample_dir idx1 idx2) (bstr "121") no_caches = (Err e, s2) /\
  err_kind e = InvalidInput.
Proof.
  destruct (sample_indexed 18) as (idx1 & index1 & l1 & E1 & Hl1 & Hp1 & Hs1); [by left|].
  destruct (sample_indexed 19) as (idx2 & index2 & l2 & E2 & Hl2 & Hp2 & Hs2); [by right; left|].
  assert (Hl : Forall2 (ordered (packed_new Sha1) (sample_dir idx1 idx2)) (listing (sample_dir idx1 idx2)) [l1; l2]).
  { assert (Hl : listing (sample_dir idx1 idx2) = [bstr "o/pack/a.idx"; bstr "o/pack/b.idx"]) by (vm_compute; reflexivity).
    rewrite Hl. constructor; [|constructor; [|constructor]].
    - exists index1, V2, (sample_id Sha1 3). split; [exact E1|]. split; [exact Hl1|by apply strictly_weakly_sorted].
    - exists index2, V2, (sample_id Sha1 3). split; [exact E2|]. split; [exact Hl2|by apply strictly_weakly_sorted]. }
  destruct (packed_resolve_prefix_spec (D := MarkedDecoder) (packed_new Sha1) (sample_dir idx1 idx2) no_caches [l1; l2] (bstr "11111")
    (no_caches_ok _ _) Hl) as (o1 & (s1 & R1 & _) & Hshort & _).
  destruct (packed_resolve_prefix_spec (D := MarkedDecoder) (packed_new Sha1) (sample_dir idx1 idx2) no_caches [l1; l2] (bstr "121")
    (no_caches_ok _ _) Hl) as (o2 & (s2 & R2 & _) & _ & _ & Hbad).
  destruct Hbad as (e & -> & He); [cbn [length]; vm_compute; lia|]. exists idx1, idx2, s1, e, s2. split; [|split; [exact R2|exact He]].
  rewrite R1. f_equal.
  assert (Hin : exists entries, entries ∈ [l1; l2] /\ sample_id Sha1 17 ∈ entry_ids entries /\ abbreviates (bstr "11111") (sample_id Sha1 17)).
  { exists l1. split; [by left|]. split; [unfold entry_ids; rewrite Hp1; by left|]. by eexists; vm_compute. }
  assert (Hone : forall id, (exists entries, entries ∈ [l1; l2] /\ id ∈ entry_ids entries /\ abbreviates (bstr "11111") id) -> id = sample_id Sha1 17).
  { intros id (entries & He1 & Hid & Hab).
    assert (Hm : id = sample_id Sha1 17 \/ id = sample_id Sha1 18 \/ id = sample_id Sha1 19).
    { rewrite !elem_of_cons, elem_of_nil in He1. unfold entry_ids in Hid. destruct He1 as [->|[->|[]]]; rewrite ?Hp1, ?Hp2 in Hid;
        cbn [map sample_listed pe_object_id] in Hid; rewrite !elem_of_cons, elem_of_nil in Hid; tauto. }
    destruct Hm as [?|[->| ->]]; [done|destruct Hab as [k Hk]; discriminate Hk..]. }
  specialize (Hshort ltac:(cbn; lia) ltac:(repeat constructor)). destruct o1 as [id|e1| |]; [|exfalso|done|done].
  - f_equal. symmetry. by apply Hshort.
  - destruct Hshort as [[_ Hno]|(_ & i & j & Hij & Hi & Hj)]; [by apply (Hno _ Hin)|].
    apply Hij. by rewrite (Hone i Hi), (Hone j Hj).
Defined.
