(* ===== verification/PackReuse.v ===== *)
(** * Reuse of whole packs (zmin-git-core/src/pack.rs, [try_write_reusable_pack]) *)
From S2P Require Import Prelude Order Object Store Reader Zlib PackHeader PackWrite PackParse PackRoundtrip PackIndex PackIndexSpec PackIndexSafe PackStore PackStoreRead PackStoreLookup PackServe PackMerge PackIds.

(** ** Definitions *)

(** [PackIndex::object_ids_all] with a predicate that keeps state. *)
Definition object_ids_all_with {St} (pi : PackIndex) (predicate : ObjectId -> St -> outcome (bool * St)) (s : St) : outcome (bool * St) :=
  for_each_object_id_bytes pi (fun bs '(all, s) =>
      id ← ObjectId_new (pi_algorithm pi) bs;
      '(holds, s) ← predicate id s;
      if negb holds then Ok (false, (false, s)) else Ok (true, (all, s)))
    (true, s).

Definition pack_index_ids_match_sorted_ids (index : PackIndex) (sorted_ids : list ObjectId) : outcome bool :=
  '(matches, idx) ← object_ids_all_with index (fun id idx =>
      Ok (match sorted_ids !! idx with Some expected => bool_decide (as_bytes expected = as_bytes id) | None => false end, idx + 1)) 0;
  Ok (matches && (idx =? length sorted_ids)).

Section store.
Context `{Sha, HashKeys} (st : PackedObjectStore) (fs : ObjectsFs).

#[local] Abbreviation alg := (pos_algorithm st).

(** The file of a pack, when it is the one its index was made for. *)
Definition matching_pack (idx_path : bytes) (index : PackIndex) (count : nat) : outcome (option (bytes * ObjectId)) :=
  file ← open fs (with_extension idx_path (bstr "pack"));
  let bs := file_bytes file in
  validated ← validate_pack_header_and_checksum alg bs;
  if negb (vh_object_count validated =? count) then Ok None else
  checksum ← pack_checksum index;
  if negb (bool_decide (vh_pack_id validated = checksum)) then Ok None else Ok (Some (bs, vh_pack_id validated)).

(** The ids of an index, when all are asked for and none is covered. *)
Definition usable_ids (index : PackIndex) (requested covered : gset ObjectId) : outcome (bool * list ObjectId) :=
  object_ids_all_with index (fun id pack_ids =>
    if negb (bool_decide (id ∈ requested)) || bool_decide (id ∈ covered) then Ok (false, pack_ids)
    else Ok (true, pack_ids ++ [id])) [].

(** The loop over the indexes: the ids covered, and the packs selected for them. *)
Fixpoint select_loop (paths : list bytes) (wanted : nat) (requested covered : gset ObjectId) (selected : list bytes)
  : rd Caches (gset ObjectId * list bytes) :=
  match paths with
  | [] => rret (covered, selected)
  | idx_path :: paths =>
      index <~ read_cached_pack_index fs idx_path alg;
      if (pi_count index =? 0) || (wanted - size covered <? pi_count index) then
        select_loop paths wanted requested covered selected
      else
        '(usable, pack_ids) <~ rlift (usable_ids index requested covered);
        if negb usable || negb (length pack_ids =? pi_count index) then select_loop paths wanted requested covered selected
        else
          found <~ rlift (matching_pack idx_path index (pi_count index));
          match found with
          | None => select_loop paths wanted requested covered selected
          | Some (bs, _) =>
              let covered := covered ∪ list_to_set pack_ids in
              let selected := selected ++ [bs] in
              if size covered =? wanted then rret (covered, selected)
              else select_loop paths wanted requested covered selected
          end
  end.

(** The entries of the packs, without their headers and checksums. *)
Fixpoint parts_data (selected : list bytes) (out : bytes) : outcome bytes :=
  match selected with
  | [] => Ok out
  | bs :: selected =>
      _ ← check (length bs <? digest_len alg) InvalidData "pack stream is too short";
      data ← slice bs 12 (length bs - digest_len alg);
      parts_data selected (out ++ data)
  end.

Definition try_write_reusable_pack_from_full_pack_parts (idx_paths : list bytes) (ids : list ObjectId)
  : rd Caches (option (ObjectId * bytes)) :=
  let requested : gset ObjectId := list_to_set ids in
  if negb (size requested =? length ids) then rret None else
  '(covered, selected) <~ select_loop idx_paths (length ids) requested ∅ [];
  if bool_decide (selected = []) || negb (size covered =? length ids) then rret None else
  count <~ rlift (pack_object_count_u32 (length ids));
  out <~ rlift (parts_data selected (pack_preamble count));
  pack_id <~ rlift (hash_finalize (hash_update (hash_new alg) out));
  rret (Some (pack_id, out ++ as_bytes pack_id)).

(** The loop that looks for one pack with all the ids. *)
Fixpoint whole_pack_loop (paths : list bytes) (ids sorted_ids : list ObjectId) : rd Caches (option (ObjectId * bytes)) :=
  match paths with
  | [] => rret None
  | idx_path :: paths =>
      index <~ read_cached_pack_index fs idx_path alg;
      if negb (pi_count index =? length ids) then whole_pack_loop paths ids sorted_ids else
      matches <~ rlift (pack_index_ids_match_sorted_ids index sorted_ids);
      if negb matches then whole_pack_loop paths ids sorted_ids else
      found <~ rlift (matching_pack idx_path index (length ids));
      match found with
      | None => whole_pack_loop paths ids sorted_ids
      | Some (bs, pack_id) => rret (Some (pack_id, bs))
      end
  end.

Definition try_write_reusable_pack (algorithm : GitHashAlgorithm) (ids : list ObjectId) : rd Caches (option (ObjectId * bytes)) :=
  _ <~ rlift (check (negb (bool_decide (algorithm = alg))) InvalidInput "pack algorithm does not match packed store");
  if bool_decide (ids = []) then rret None else
  let sorted_ids := sort_by (by_key as_bytes cmp_bytes) ids in
  paths <~ idx_paths fs;
  whole <~ whole_pack_loop paths ids sorted_ids;
  match whole with
  | Some written => rret (Some written)
  | None => try_write_reusable_pack_from_full_pack_parts paths ids
  end.
End store.

(** ** What an index tells about ids *)

Lemma index_named pi : index_ok pi -> exists names, named pi names.
Proof.
  intros Hok. set (name i := match object_bytes_at pi i with Ok name => name | _ => [] end).
  assert (Hn : forall i, i < pi_count pi -> object_bytes_at pi i = Ok (name i) /\ length (name i) = digest_len (pi_algorithm pi)).
  { intros i Hi. destruct (safe_object_bytes pi Hok i Hi) as (bs & E & Hl). unfold name. by rewrite E. }
  exists (map name (seq 0 (pi_count pi))). split.
  - by rewrite length_map, length_seq.
  - intros i bs Hi. change (map name ?l) with (name <$> l) in Hi. apply list_lookup_fmap_Some in Hi as (k & -> & [Hk Hlt]%lookup_seq). cbn in Hk. subst k. by apply Hn.
  - apply Forall_map, Forall_forall. intros i [_ Hi]%elem_of_seq. by apply Hn.
Qed.

(** The walk that stops at the first refusal. *)
Fixpoint all_with {St} (predicate : ObjectId -> St -> outcome (bool * St)) (l : list ObjectId) (s : St) : outcome (bool * St) :=
  match l with
  | [] => Ok (true, s)
  | x :: l =>
      '(holds, s) ← predicate x s;
      if negb holds then Ok (false, s) else all_with predicate l s
  end.

Lemma all_walk {St} (predicate : ObjectId -> St -> outcome (bool * St)) pi names s : named pi names ->
  object_ids_all_with pi predicate s = all_with predicate (map (mk_id (pi_algorithm pi)) names) s.
Proof.
  intros Hn. unfold object_ids_all_with, for_each_object_id_bytes. rewrite (nm_count _ _ Hn).
  assert (Hgo : forall post pre s, names = pre ++ post -> for_indices_until (fun idx s =>
      bs ← object_bytes_at_with_layout pi idx (digest_len (pi_algorithm pi)) (pi_names_start pi);
      (fun bs '(all, s) => id ← ObjectId_new (pi_algorithm pi) bs; '(holds, s) ← predicate id s;
        if negb holds then Ok (false, (false, s)) else Ok (true, (all, s))) bs s)
    (length post) (length pre) (true, s) = all_with predicate (map (mk_id (pi_algorithm pi)) post) s).
  { induction post as [|name post IH]; intros pre s' E; [done|]. cbn [length for_indices_until map all_with].
    assert (Hi : names !! length pre = Some name) by (by rewrite E, lookup_app_r, Nat.sub_diag by lia).
    pose proof (nm_length _ _ Hn) as Hl. rewrite E in Hl. apply Forall_app in Hl as [_ Hl]. apply Forall_inv in Hl.
    apply (nm_at _ _ Hn) in Hi. unfold object_bytes_at in Hi. rewrite Hi, bind_Ok, ObjectId_new_ok, bind_Ok by done.
    destruct (predicate (mk_id (pi_algorithm pi) name) s') as [[[] s'']|e| |]; [|done..]. rewrite !bind_Ok. cbn [negb].
    rewrite bind_Ok. cbn [negb]. replace (length pre + 1) with (length (pre ++ [name])) by (rewrite length_app; done).
    apply IH. by rewrite <- app_assoc. }
  by apply (Hgo names [] s).
Qed.

(** The comparison with the sorted ids. *)
Lemma match_walk l : forall sorted idx, exists matches n, all_with (fun id idx =>
    Ok (match sorted !! idx with Some expected => bool_decide (as_bytes expected = as_bytes id) | None => false end, idx + 1)) l idx
  = Ok (matches, n) /\
  (matches && (n =? length sorted) = true /\ idx <= length sorted <-> map as_bytes l = map as_bytes (drop idx sorted) /\ idx <= length sorted).
Proof.
  induction l as [|x l IH]; intros sorted idx; cbn [all_with].
  - exists true, idx. split; [done|]. cbn [andb map]. rewrite Nat.eqb_eq. split.
    + intros [-> _]. split; [by rewrite drop_all|done].
    + intros [E Hle]. symmetry in E. apply map_eq_nil, (f_equal length) in E. rewrite length_drop in E. cbn in E. split; [lia|done].
  - rewrite bind_Ok. destruct (sorted !! idx) as [expected|] eqn:Ei.
    + pose proof (lookup_lt_Some _ _ _ Ei) as Hlt. rewrite (drop_S _ _ _ Ei). cbn [map]. case_bool_decide as He; cbn [negb].
      * destruct (IH sorted (idx + 1)) as (matches & n & E & Hiff). exists matches, n. split; [done|]. rewrite Nat.add_1_r in *. split.
        -- intros [Hm _]. split; [|lia]. f_equal; [done|]. apply Hiff. split; [done|lia].
        -- intros [[= _ Hm] _]. split; [|lia]. apply Hiff. split; [done|lia].
      * exists false, (idx + 1). split; [done|]. split; [by intros [? _]|]. intros [[= Hx _] _]. congruence.
    + exists false, (idx + 1). split; [done|]. split; [by intros [? _]|]. intros [E _]. apply lookup_ge_None in Ei. by rewrite drop_ge in E.
Qed.

Lemma as_bytes_ids a names : Forall (fun name => length name = digest_len a) names -> map as_bytes (map (mk_id a) names) = names.
Proof. induction 1 as [|name names Hl _ IH]; cbn [map]; [done|]. by rewrite as_bytes_mk_id, IH. Qed.

Lemma ids_as_bytes a ids : ids_of a ids -> map (mk_id a) (map as_bytes ids) = ids.
Proof. induction 1 as [|i ids [Hwf <-] _ IH]; cbn [map]; [done|]. by rewrite mk_id_as_bytes, IH. Qed.

Lemma match_ids index names sorted_ids : named index names ->
  exists b, pack_index_ids_match_sorted_ids index sorted_ids = Ok b /\ (b = true <-> names = map as_bytes sorted_ids).
Proof.
  intros Hn. unfold pack_index_ids_match_sorted_ids. rewrite (all_walk _ index names 0 Hn).
  destruct (match_walk (map (mk_id (pi_algorithm index)) names) sorted_ids 0) as (matches & n & -> & Hiff). rewrite bind_Ok.
  eexists. split; [reflexivity|]. rewrite drop_0, (as_bytes_ids _ _ (nm_length _ _ Hn)) in Hiff. split.
  - intros Hb. apply Hiff. split; [done|lia].
  - intros Hb. apply Hiff. split; [done|lia].
Qed.

Lemma usable_walk (requested covered : gset ObjectId) l : forall acc, exists usable out,
  all_with (fun id pack_ids =>
    if negb (bool_decide (id ∈ requested)) || bool_decide (id ∈ covered) then Ok (false, pack_ids)
    else Ok (true, pack_ids ++ [id])) l acc = Ok (usable, out) /\
  (usable = true -> out = acc ++ l /\ Forall (fun i => i ∈ requested /\ (i ∉ covered)) l).
Proof.
  induction l as [|x l IH]; intros acc; cbn [all_with]; [exists true, acc; split; [done|]; intros _; by rewrite app_nil_r|].
  case_bool_decide as Hr; cbn [negb orb]; [|by exists false, acc]. case_bool_decide as Hc; [by exists false, acc|]. rewrite bind_Ok. cbn [negb].
  destruct (IH (acc ++ [x])) as (usable & out & E & Hu). exists usable, out. split; [done|]. intros ->. destruct Hu as [-> Hf]; [done|].
  rewrite <- app_assoc. split; [done|by constructor].
Qed.

(** ** What is written *)

Section directory.
Context `{ShaLaws, HashKeys} {D : Type} `{ZlibDecoder bytes D} (st : PackedObjectStore) (fs : ObjectsFs).

#[local] Abbreviation alg := (pos_algorithm st).
#[local] Abbreviation caches_ok := (caches_ok (D := D) st fs).
#[local] Abbreviation keeps := (runs caches_ok).

(** A pack that is reused: a listed index, the ids it lists, and the file it was made for. *)
Record Part : Set := MkPart { pt_path : bytes; pt_index : PackIndex; pt_ids : list ObjectId; pt_bytes : bytes }.

Record part_ok (p : Part) : Prop := {
  po_listed : pt_path p ∈ listing fs;
  po_index : read_index fs (pt_path p) alg = Ok (pt_index p);
  po_ids : ids_of alg (pt_ids p);
  po_names : named (pt_index p) (map as_bytes (pt_ids p));
  po_file : exists f, open fs (with_extension (pt_path p) (bstr "pack")) = Ok f /\ file_bytes f = pt_bytes p;
  po_pack : exists pid trailer, validate_pack_header_and_checksum alg (pt_bytes p) = Ok (MkValidated pid (length (pt_ids p)) trailer) /\
    pack_checksum (pt_index p) = Ok pid
}.

(** The entries of a pack. *)
Definition data_of (bs : bytes) : bytes := take (length bs - digest_len alg - 12) (drop 12 bs).

Lemma data_of_app header data trailer : length header = 12 -> length trailer = digest_len alg -> data_of ((header ++ data) ++ trailer) = data.
Proof.
  intros Hh Ht. unfold data_of. rewrite <- app_assoc, (drop_app_length' header) by done. rewrite !length_app, Hh, Ht. apply take_app_length'. lia.
Qed.

(** A pack with the entries of some packs that together have the ids, each once. *)
Definition reused (ids : list ObjectId) (pack_id : ObjectId) (out : bytes) : Prop :=
  exists parts trailer, Forall part_ok parts /\ ids ≡ₚ concat (map pt_ids parts) /\
    validate_pack_header_and_checksum alg out = Ok (MkValidated pack_id (length ids) trailer) /\
    data_of out = concat (map (fun p => data_of (pt_bytes p)) parts).

Lemma matching_pack_Ok path index count bs pid : matching_pack st fs path index count = Ok (Some (bs, pid)) <->
  exists f trailer, open fs (with_extension path (bstr "pack")) = Ok f /\ file_bytes f = bs /\
    validate_pack_header_and_checksum alg bs = Ok (MkValidated pid count trailer) /\ pack_checksum index = Ok pid.
Proof.
  unfold matching_pack. split.
  - intros E. apply bind_Ok_inv in E as (f & Ef & E). cbv zeta in E. apply bind_Ok_inv in E as ([pid' count' trailer] & Ev & E).
    cbn [vh_object_count vh_pack_id] in E. destruct (Nat.eqb_spec count' count) as [->|]; cbn [negb] in E; [|done].
    apply bind_Ok_inv in E as (checksum & Ec & E). case_bool_decide as Hp; cbn [negb] in E; [|done]. injection E as <- <-. exists f, trailer. split_and!; [done|done|done|congruence].
  - intros (f & trailer & -> & <- & Ev & Ec). rewrite bind_Ok. cbv zeta. rewrite Ev, bind_Ok. cbn [vh_object_count vh_pack_id]. rewrite Nat.eqb_refl.
    cbn [negb]. by rewrite Ec, bind_Ok, bool_decide_true.
Qed.

Section reuse.
Hypothesis Hdist : forall path index names, path ∈ listing fs -> read_index fs path alg = Ok index -> named index names -> NoDup names.

(** An index that was read, and the ids it lists. *)
Lemma index_ids path index : path ∈ listing fs -> read_index fs path alg = Ok index -> exists ids, ids_of alg ids /\ named index (map as_bytes ids) /\
  NoDup ids /\ pi_algorithm index = alg.
Proof.
  intros Hp E. assert (Hok : index_ok index /\ pi_algorithm index = alg).
  { pose proof E as E'. unfold read_index in E'. inv_ok. by eapply read_bytes_ok. }
  destruct Hok as [Hok Ha]. destruct (index_named index Hok) as [names Hn]. pose proof (nm_length _ _ Hn) as Hl. rewrite Ha in Hl.
  exists (map (mk_id alg) names). split; [by apply ids_ok|]. rewrite as_bytes_ids by done. split; [done|]. split; [|done].
  apply (NoDup_fmap_1 as_bytes). change (as_bytes <$> map (mk_id alg) names) with (map as_bytes (map (mk_id alg) names)). rewrite as_bytes_ids by done.
  by eapply Hdist.
Qed.

Lemma named_ids index ids : named index (map as_bytes ids) -> ids_of alg ids -> pi_algorithm index = alg ->
  map (mk_id (pi_algorithm index)) (map as_bytes ids) = ids /\ pi_count index = length ids.
Proof. intros Hn Hids ->. split; [by apply ids_as_bytes|]. by rewrite (nm_count _ _ Hn), length_map. Qed.

(** One pack with all the ids. *)
Lemma whole_pack_runs ids paths : ids_of alg ids -> (forall p, p ∈ paths -> p ∈ listing fs) -> forall s, caches_ok s ->
  keeps (whole_pack_loop st fs paths ids (sort_by (by_key as_bytes cmp_bytes) ids)) s
    (fun r _ => match r with None => True | Some (pack_id, out) => reused ids pack_id out end).
Proof.
  intros Hids. induction paths as [|path paths IH]; intros Hin s Hs; cbn [whole_pack_loop]; [by apply runs_ret|].
  assert (Hnext : forall s', caches_ok s' -> keeps (whole_pack_loop st fs paths ids (sort_by (by_key as_bytes cmp_bytes) ids)) s'
    (fun r _ => match r with None => True | Some (pack_id, out) => reused ids pack_id out end)) by (intros; apply IH; [intros p Hp; apply Hin; by right|done]).
  eapply runs_bind; [by apply read_cached_runs|]. intros index s1 Hs1 Hi. cbv beta in Hi.
  assert (Hpath : path ∈ listing fs) by (apply Hin; left). destruct (index_ids path index Hpath Hi) as (pids & Hpids & Hn & Hnd & Ha).
  destruct (named_ids index pids Hn Hpids Ha) as [_ Hcount]. destruct (negb (pi_count index =? length ids)); [by apply Hnext|].
  eapply runs_bind; [by apply runs_lift|]. intros b s2 Hs2 [-> Eb]. destruct (match_ids index _ (sort_by (by_key as_bytes cmp_bytes) ids) Hn) as (b' & Eb' & Hb).
  rewrite Eb in Eb'. injection Eb' as <-. destruct b; cbn [negb]; [|by apply Hnext].
  eapply runs_bind; [by apply runs_lift|]. intros [[bs pid]|] s3 Hs3 [-> Em]; [|by apply Hnext].
  apply runs_ret; [done|]. apply matching_pack_Ok in Em as (f & trailer & Ef & Hf & Ev & Ec).
  assert (Hsort : pids = sort_by (by_key as_bytes cmp_bytes) ids).
  { rewrite <- (ids_as_bytes alg pids Hpids), (proj1 Hb eq_refl). apply ids_as_bytes. unfold ids_of. by rewrite (sort_by_perm as_bytes cmp_bytes ids). }
  assert (Hlen : length pids = length ids) by (rewrite Hsort; apply Permutation_length, sort_by_perm).
  exists [MkPart path index pids bs], trailer. split; [|split; [|split]].
  - constructor; [|constructor]. split; cbn; [done..|by exists f|]. exists pid, trailer. by rewrite Hlen.
  - cbn. rewrite app_nil_r, Hsort. symmetry. apply sort_by_perm.
  - done.
  - cbn. by rewrite app_nil_r.
Qed.

(** The packs selected so far cover what they list, each id once. *)
Definition selection (requested : gset ObjectId) (parts : list Part) (covered : gset ObjectId) (selected : list bytes) : Prop :=
  Forall part_ok parts /\ covered = list_to_set (concat (map pt_ids parts)) /\ NoDup (concat (map pt_ids parts)) /\
  (forall i, i ∈ concat (map pt_ids parts) -> i ∈ requested) /\ selected = map pt_bytes parts.

Lemma selection_snoc requested parts covered selected p : selection requested parts covered selected -> part_ok p -> NoDup (pt_ids p) ->
  Forall (fun i => i ∈ requested /\ (i ∉ covered)) (pt_ids p) ->
  selection requested (parts ++ [p]) (covered ∪ list_to_set (pt_ids p)) (selected ++ [pt_bytes p]).
Proof.
  intros (Hok & -> & Hnd & Hreq & ->) Hp Hndp Hf. unfold selection. rewrite !map_app, concat_app. cbn [map concat]. rewrite app_nil_r.
  rewrite Forall_forall in Hf. split; [apply Forall_app; split; [done|constructor; [done|constructor]]|]. split; [by rewrite list_to_set_app_L|]. split; [|split; [|done]].
  - apply NoDup_app. split; [done|]. split; [|done]. intros i Hi Hip. destruct (Hf i Hip) as [_ Hn]. apply Hn. by apply elem_of_list_to_set.
  - intros i [Hi|Hi]%elem_of_app; [by apply Hreq|by apply Hf].
Qed.

Lemma select_runs wanted requested paths : (forall p, p ∈ paths -> p ∈ listing fs) -> forall parts covered selected s, caches_ok s ->
  selection requested parts covered selected ->
  keeps (select_loop st fs paths wanted requested covered selected) s
    (fun r _ => exists parts', selection requested parts' r.1 r.2).
Proof.
  induction paths as [|path paths IH]; intros Hin parts covered selected s Hs Hsel; cbn [select_loop]; [apply runs_ret; [done|by exists parts]|].
  assert (Hnext : forall parts covered selected s', caches_ok s' -> selection requested parts covered selected ->
    keeps (select_loop st fs paths wanted requested covered selected) s' (fun r _ => exists parts', selection requested parts' r.1 r.2)).
  { intros ? ? ? ? ? ?. eapply IH; [|done|done]. intros p Hp. apply Hin. by right. }
  eapply runs_bind; [by apply read_cached_runs|]. intros index s1 Hs1 Hi. cbv beta in Hi.
  assert (Hpath : path ∈ listing fs) by (apply Hin; left). destruct (index_ids path index Hpath Hi) as (pids & Hpids & Hn & Hnd & Ha).
  destruct (named_ids index pids Hn Hpids Ha) as [Hids Hcount]. destruct (_ || _); [by eapply Hnext|].
  eapply runs_bind; [by apply runs_lift|]. intros [usable pack_ids] s2 Hs2 [-> Eu]. unfold usable_ids in Eu. rewrite (all_walk _ index _ _ Hn), Hids in Eu.
  destruct (usable_walk requested covered pids []) as (usable' & out & Eu' & Hu). rewrite Eu in Eu'. injection Eu' as <- <-.
  destruct usable; cbn [negb orb]; [|by eapply Hnext]. destruct (Hu eq_refl) as [-> Hf]. cbn [app]. rewrite Hcount, Nat.eqb_refl. cbn [negb].
  eapply runs_bind; [by apply runs_lift|]. intros [[bs pid]|] s3 Hs3 [-> Em]; [|by eapply Hnext].
  apply matching_pack_Ok in Em as (f & trailer & Ef & Hfb & Ev & Ec).
  assert (Hp : part_ok (MkPart path index pids bs)).
  { split; cbn; [done..|by exists f|]. by exists pid, trailer. }
  pose proof (selection_snoc requested parts covered selected (MkPart path index pids bs) Hsel Hp Hnd Hf) as Hsel'. cbn [pt_ids pt_bytes] in Hsel'.
  destruct (size _ =? wanted); [|by eapply Hnext]. apply runs_ret; [done|]. by exists (parts ++ [MkPart path index pids bs]).
Qed.

Lemma parts_data_Ok parts : Forall part_ok parts -> forall out, parts_data st (map pt_bytes parts) out = Ok (out ++ concat (map (fun p => data_of (pt_bytes p)) parts)).
Proof.
  induction 1 as [|p parts Hp _ IH]; intros out; cbn [map parts_data concat]; [by rewrite app_nil_r|].
  destruct (po_pack p Hp) as (pid & trailer & Ev & _). unfold validate_pack_header_and_checksum in Ev. cbv zeta in Ev.
  destruct (Nat.ltb_spec (length (pt_bytes p)) (12 + digest_len alg)) as [|Hlen]; [done|]. clear Ev.
  rewrite (proj2 (Nat.ltb_ge _ _)) by lia. cbn [check]. rewrite bind_Ok, slice_eq by lia. rewrite bind_Ok, IH, <- app_assoc. done.
Qed.

Lemma set_size_NoDup (l : list ObjectId) : size (list_to_set l : gset ObjectId) = length l -> NoDup l.
Proof.
  intros E. apply NoDup_ListNoDup. apply NoDup_incl_NoDup with (l := elements (list_to_set l : gset ObjectId)).
  - apply NoDup_ListNoDup, NoDup_elements.
  - unfold size, set_size in E. cbn in E. lia.
  - intros i Hi. apply list_elem_of_In, elem_of_elements, elem_of_list_to_set in Hi. by apply list_elem_of_In.
Qed.

(** Several packs with all the ids. *)
Lemma parts_runs ids paths : (forall p, p ∈ paths -> p ∈ listing fs) -> forall s, caches_ok s ->
  keeps (try_write_reusable_pack_from_full_pack_parts st fs paths ids) s
    (fun r _ => match r with None => True | Some (pack_id, out) => reused ids pack_id out end).
Proof.
  intros Hin s Hs. unfold try_write_reusable_pack_from_full_pack_parts. cbv zeta.
  destruct (Nat.eqb_spec (size (list_to_set ids : gset ObjectId)) (length ids)) as [Hsize|]; cbn [negb]; [|by apply runs_ret].
  eapply runs_bind; [apply (select_runs (length ids) (list_to_set ids) paths Hin [] ∅ [] s Hs)|].
  { split; [constructor|]. split; [done|]. split; [constructor|]. split; [|done]. by intros i ?%elem_of_nil. }
  intros [covered selected] s1 Hs1 (parts & Hok & Hcov & Hnd & Hreq & Hsel). cbn [fst snd] in *.
  destruct (bool_decide (selected = [])) eqn:En; cbn [orb]; [by apply runs_ret|].
  destruct (Nat.eqb_spec (size covered) (length ids)) as [Hcs|]; cbn [negb]; [|by apply runs_ret].
  eapply runs_bind; [by apply runs_lift|]. intros count s2 Hs2 [-> Ec].
  subst selected. rewrite (parts_data_Ok parts Hok). eapply runs_bind; [by apply runs_lift|]. intros out s3 Hs3 [-> Eo].
  assert (Hout : pack_preamble count ++ concat (map (fun p => data_of (pt_bytes p)) parts) = out) by congruence. subst out. clear Eo.
  eapply runs_bind; [by apply runs_lift|]. intros pack_id s4 Hs4 [-> Eh]. apply runs_ret; [done|].
  unfold pack_object_count_u32 in Ec. destruct (N.ltb_spec (N.of_nat (length ids)) (2 ^ 32)) as [Hlt|]; [|done]. injection Ec as <-.
  set (data := concat (map (fun p => data_of (pt_bytes p)) parts)) in *. assert (Hid : ObjectId_wf pack_id /\ algorithm pack_id = alg).
  { pose proof Eh as Eh'. rewrite hash_finalize_ok in Eh'. injection Eh' as <-. split; [apply mk_id_wf, length_sha_digest|done]. }
  destruct Hid as [Hwf Ha].
  exists parts, (length (pack_preamble (N.of_nat (length ids)) ++ data)). split; [done|]. split; [|split].
  - apply NoDup_Permutation; [by apply set_size_NoDup|done|]. intros i. split; [|intros Hi; apply Hreq in Hi; by apply elem_of_list_to_set in Hi].
    intros Hi. assert (Heq : covered = list_to_set ids).
    { apply set_subseteq_size_eq; [|lia]. intros j Hj. rewrite Hcov in Hj. apply elem_of_list_to_set in Hj. by apply Hreq. }
    apply (elem_of_list_to_set (C := gset ObjectId)). rewrite <- Hcov, Heq. by apply elem_of_list_to_set.
  - rewrite (validate_encoded alg (N.of_nat (length ids)) data pack_id) by done. by rewrite Nat2N.id.
  - apply data_of_app; [by rewrite length_preamble|]. by rewrite length_as_bytes, Ha.
Qed.
End reuse.

(** C14: a pack that is reused is what was asked for: when every index lists its ids once, what is written is a valid pack, under the
    id that is returned, with as many objects as ids; its entries are the entries of packs of the store, taken over whole,
    each the pack its index was made for, and these packs have together exactly the ids asked for, each once.  Nothing is written for another
    algorithm or for no ids, and when the only pack of the store has the ids, it is written as it is.  The caches stay coherent, whatever happens. *)
Theorem reusable_pack_spec ids s : caches_ok s -> ids_of alg ids ->
  (forall path index names, path ∈ listing fs -> read_index fs path alg = Ok index -> named index names -> NoDup names) ->
  keeps (try_write_reusable_pack st fs alg ids) s
    (fun r _ => match r with None => True | Some (pack_id, out) => ids <> [] /\ reused ids pack_id out end) /\
  (forall a, a <> alg -> (try_write_reusable_pack st fs a ids s).1 = fail InvalidInput "pack algorithm does not match packed store") /\
  (forall p, ids <> [] -> listing fs = [pt_path p] -> part_ok p -> pt_ids p = sort_by (by_key as_bytes cmp_bytes) ids ->
    exists pack_id, gives (D := D) st fs (try_write_reusable_pack st fs alg ids) s (Ok (Some (pack_id, pt_bytes p)))).
Proof.
  intros Hs Hids Hdist. unfold try_write_reusable_pack. split; [|split].
  - eapply runs_bind; [by apply runs_lift|]. intros [] s0 Hs0 _. case_bool_decide as Hnil; [by apply runs_ret|]. cbv zeta.
    eapply runs_bind; [by apply idx_paths_runs|]. intros paths s1 Hs1 ->.
    eapply runs_bind; [by apply whole_pack_runs|]. intros [[pack_id out]|] s2 Hs2 Hr; [by apply runs_ret|].
    eapply runs_weaken; [by apply parts_runs|]. intros [[pack_id out]|] s3; [by split|done].
  - intros a Hne. rewrite bool_decide_false by done. done.
  - intros p Hne Hl Hp Hpids. rewrite bool_decide_true by done. cbn [negb check].
    destruct (po_pack p Hp) as (pack_id & trailer & Ev & Ec). destruct (po_file p Hp) as (f & Ef & Hf). exists pack_id.
    assert (Hlen : length (pt_ids p) = length ids) by (rewrite Hpids; apply Permutation_length, sort_by_perm). rewrite Hlen in Ev.
    eapply gives_bind; [by apply gives_lift|]. intros s0 Hs0. rewrite bool_decide_false by done. cbv zeta.
    eapply gives_bind; [by apply paths_given|]. intros s1 Hs1. rewrite Hl. eapply (gives_bind _ _ _ _ _ (Some (pack_id, pt_bytes p))); [|intros s2 Hs2; by apply gives_ret].
    cbn [whole_pack_loop]. destruct (read_cached_Ok st fs (pt_path p) s1 (pt_index p) Hs1 (po_index p Hp)) as [s2 E].
    pose proof (read_cached_runs st fs (pt_path p) s1 Hs1) as [Hs2 _]. rewrite E in Hs2. cbn [snd] in Hs2.
    eapply gives_bind; [by exists s2|]. intros s3 Hs3. rewrite (nm_count _ _ (po_names p Hp)), length_map, Hlen, Nat.eqb_refl. cbn [negb].
    destruct (match_ids (pt_index p) _ (sort_by (by_key as_bytes cmp_bytes) ids) (po_names p Hp)) as (b & -> & Hb).
    rewrite (proj2 Hb) by (by rewrite Hpids). eapply gives_bind; [by apply gives_lift|]. intros s4 Hs4. cbn [negb].
    rewrite (proj2 (matching_pack_Ok (pt_path p) (pt_index p) (length ids) (pt_bytes p) pack_id)) by (exists f, trailer; done).
    eapply gives_bind; [by apply gives_lift|]. intros s5 Hs5. by apply gives_ret.
Qed.
End directory.

(** ** Witness: the pack of PackServe.v *)

#[local] Existing Instances sample_sha sample_sha_laws PackServe.sample_keys.

Definition sample_asked : list ObjectId := Eval vm_compute in map lo_id sample_objects.

Definition sample_ids : list ObjectId := Eval vm_compute in sort_by (by_key as_bytes cmp_bytes) sample_asked.

Definition sample_part : Part := MkPart sample_idx_path sample_index sample_ids sample_pack.

Lemma sample_named names : named sample_index names <-> names = map as_bytes sample_ids.
Proof.
  assert (E : exists a b, map as_bytes sample_ids = [a; b] /\ object_bytes_at sample_index 0 = Ok a /\ object_bytes_at sample_index 1 = Ok b /\
    length a = 20 /\ length b = 20) by (eexists _, _; vm_compute; split_and!; reflexivity).
  destruct E as (a & b & -> & Ea & Eb & Hla & Hlb). split.
  - intros [Hc Hat _]. change (pi_count sample_index) with 2 in Hc. destruct names as [|x [|y [|z names]]]; [done|done| |done].
    pose proof (Hat 0 x eq_refl) as Ex. pose proof (Hat 1 y eq_refl) as Ey. congruence.
  - intros ->. split; [vm_compute; reflexivity| |by repeat constructor]. intros [|[|i]] name Hi; [|injection Hi as <-; exact Eb|done].
    injection Hi as <-. exact Ea.
Qed.

Lemma sample_ids_of : ids_of Sha1 sample_asked /\ ids_of Sha1 sample_ids.
Proof.
  split; (constructor; [split; [split; reflexivity|reflexivity]|constructor; [split; [split; reflexivity|reflexivity]|constructor]]).
Qed.

Lemma reusable_pack_spec_witness : exists pack_id s,
  try_write_reusable_pack (packed_new Sha1) sample_files Sha1 sample_asked no_caches = (Ok (Some (pack_id, sample_pack)), s).
Proof.
  destruct (reusable_pack_spec (D := MarkedDecoder) (packed_new Sha1) sample_files sample_asked no_caches (no_caches_ok _ _))
    as (_ & _ & Hone).
  - apply sample_ids_of.
  - intros path index names Hp Hi Hn. rewrite sample_listing in Hp. apply list_elem_of_singleton in Hp as ->.
    change (pos_algorithm (packed_new Sha1)) with Sha1 in Hi. rewrite sample_index_read in Hi. injection Hi as <-. apply sample_named in Hn as ->.
    apply (bool_decide_unpack _). vm_compute. exact I.
  - assert (Hp : part_ok (packed_new Sha1) sample_files sample_part).
    { split.
      + rewrite sample_listing. left.
      + exact sample_index_read.
      + apply sample_ids_of.
      + by apply sample_named.
      + eexists. split; [vm_compute; reflexivity|reflexivity].
      + eexists _, _. split; [vm_compute; reflexivity|vm_compute; reflexivity]. }
    assert (Hne : sample_asked <> []) by discriminate.
    destruct (Hone sample_part Hne sample_listing Hp eq_refl) as (pack_id & s & E & _). exists pack_id, s. exact E.
Defined.
