(* ===== verification/Diff.v ===== *)
(** * Differences between indexes and between trees, with exact renames and copies
      (zmin-git-core/src/diff.rs) *)
From S2P Require Import Prelude Object Order TreeCodec Index Store TreeRead Reader.

(** ** Data *)

Inductive IndexDiffStatus : Set := Added | Copied | Deleted | Modified | Renamed.

#[export] Instance IndexDiffStatus_eq_dec : EqDecision IndexDiffStatus.
Proof. solve_decision. Defined.

Definition name_status (status : IndexDiffStatus) : string :=
  match status with
  | Added => "A"
  | Copied => "C100"
  | Deleted => "D"
  | Modified => "M"
  | Renamed => "R100"
  end.

Record IndexDiffEntry : Set := MkDiff {
  de_status : IndexDiffStatus;
  de_path : bytes;
  de_old_path : option bytes;
  de_similarity : option N
}.

Record TreeDiffFileEntry : Set := MkFileEntry {
  tdf_path : bytes;
  tdf_id : ObjectId;
  tdf_mode : IndexMode
}.

Record TreeDiffEntry : Set := MkTreeDiff {
  td_status : IndexDiffStatus;
  td_path : bytes;
  td_old_entry : option TreeDiffFileEntry;
  td_new_entry : option TreeDiffFileEntry
}.

(** ** Differences between indexes *)

Definition entry_identity (entry : IndexEntry) : IndexMode * ObjectId := (ie_mode entry, ie_id entry).

Fixpoint validate_diff_entries (entries : list IndexEntry) : outcome unit :=
  match entries with
  | [] => Ok tt
  | entry :: entries =>
      _ ← check (negb (ie_stage entry =? 0)%N) InvalidInput "cannot diff an index with unresolved conflicts";
      validate_diff_entries entries
  end.

Definition validate_diff_index (index : GitIndex) : outcome unit := validate_diff_entries (entries index).

Definition plain_diff (status : IndexDiffStatus) (entry : IndexEntry) : IndexDiffEntry :=
  MkDiff status (ie_path entry) None None.

(** The loop over the two entry lists, of which the indices leave the rest; each turn takes an entry
    off one of them. *)
Fixpoint diff_loop (fuel : nat) (old new : list IndexEntry) (diff : list IndexDiffEntry)
  : outcome (list IndexDiffEntry) :=
  match old, new with
  | [], [] => Ok diff
  | _, _ =>
      match fuel with
      | 0 => NoFuel
      | S fuel =>
          match old, new with
          | old_entry :: old', new_entry :: new' =>
              match cmp_bytes (ie_path old_entry) (ie_path new_entry) with
              | Lt => diff_loop fuel old' new (diff ++ [plain_diff Deleted old_entry])
              | Gt => diff_loop fuel old new' (diff ++ [plain_diff Added new_entry])
              | Eq =>
                  diff_loop fuel old' new'
                    (if bool_decide (entry_identity old_entry = entry_identity new_entry) then diff
                     else diff ++ [plain_diff Modified new_entry])
              end
          | old_entry :: old', [] => diff_loop fuel old' [] (diff ++ [plain_diff Deleted old_entry])
          | [], new_entry :: new' => diff_loop fuel [] new' (diff ++ [plain_diff Added new_entry])
          | [], [] => Ok diff
          end
      end
  end.

Definition diff_indexes (old new : GitIndex) : outcome (list IndexDiffEntry) :=
  _ ← validate_diff_index old;
  _ ← validate_diff_index new;
  diff_loop (length (entries old) + length (entries new)) (entries old) (entries new) [].

Definition diff_index_to_tree `{GitObjectStore St} (fuel : nat) (store : St) (tree_id : ObjectId)
  (index : GitIndex) : outcome (list IndexDiffEntry) :=
  tree_index ← read_tree_to_index fuel store tree_id;
  diff_indexes tree_index index.

(** *** Exact renames and copies *)

Abbreviation IdentityMap := (list (bytes * (IndexMode * ObjectId))).

Fixpoint index_map_loop (entries : list IndexEntry) (m : IdentityMap) : outcome IdentityMap :=
  match entries with
  | [] => Ok m
  | entry :: entries =>
      _ ← check (negb (ie_stage entry =? 0)%N) InvalidInput "cannot diff an index with unresolved conflicts";
      index_map_loop entries (bt_insert cmp_bytes (ie_path entry) (entry_identity entry) m)
  end.

Definition index_map (index : GitIndex) : outcome IdentityMap := index_map_loop (entries index) [].

Definition with_status (status : IndexDiffStatus) (diff : list IndexDiffEntry) : list IndexDiffEntry :=
  filter (fun entry => de_status entry = status) diff.

(** The loop over deleted entries: the pairs of old and new paths, in the order they are found. *)
Fixpoint rename_loop (old_map new_map : IdentityMap) (added deleted : list IndexDiffEntry)
  (renamed : list (bytes * bytes)) : list (bytes * bytes) :=
  match deleted with
  | [] => renamed
  | deleted_entry :: deleted =>
      let found :=
        match bt_get cmp_bytes (de_path deleted_entry) old_map with
        | Some deleted_identity =>
            match list_find (fun entry => (de_path entry ∉ renamed.*2) /\
                    bt_get cmp_bytes (de_path entry) new_map = Some deleted_identity) added with
            | Some (_, added_entry) => Some (de_path deleted_entry, de_path added_entry)
            | None => None
            end
        | None => None
        end in
      rename_loop old_map new_map added deleted
        (match found with Some paths => renamed ++ [paths] | None => renamed end)
  end.

Definition renamed_diff (paths : bytes * bytes) : IndexDiffEntry :=
  MkDiff Renamed paths.2 (Some paths.1) (Some 100%N).

Definition detect_exact_renames (old_map new_map : IdentityMap) (diff : list IndexDiffEntry)
  : list IndexDiffEntry :=
  let renamed := rename_loop old_map new_map (with_status Added diff) (with_status Deleted diff) [] in
  let kept := filter (fun entry =>
    ~ ((de_status entry = Deleted /\ de_path entry ∈ renamed.*1) \/
       (de_status entry = Added /\ de_path entry ∈ renamed.*2))) diff in
  sort_by (by_key de_path cmp_bytes) (kept ++ map renamed_diff renamed).

(** [iter_mut().find] and the update of what it finds. *)
Fixpoint mark_copied (added_path source_path : bytes) (diff : list IndexDiffEntry) : list IndexDiffEntry :=
  match diff with
  | [] => []
  | entry :: diff =>
      if decide (de_status entry = Added /\ de_path entry = added_path)
      then MkDiff Copied (de_path entry) (Some source_path) (Some 100%N) :: diff
      else entry :: mark_copied added_path source_path diff
  end.

Definition copy_source (old_map : IdentityMap) (changed_old_paths : list bytes) (find_copies_harder : bool)
  (identity : IndexMode * ObjectId) : option bytes :=
  match list_find (fun '(path, identity') =>
          identity' = identity /\ (find_copies_harder = true \/ path ∈ changed_old_paths)) old_map with
  | Some (_, (source_path, _)) => Some source_path
  | None => None
  end.

Fixpoint copy_loop (old_map new_map : IdentityMap) (changed_old_paths : list bytes) (find_copies_harder : bool)
  (added_paths : list bytes) (diff : list IndexDiffEntry) : list IndexDiffEntry :=
  match added_paths with
  | [] => diff
  | added_path :: added_paths =>
      let source :=
        match bt_get cmp_bytes added_path new_map with
        | Some added_identity => copy_source old_map changed_old_paths find_copies_harder added_identity
        | None => None
        end in
      copy_loop old_map new_map changed_old_paths find_copies_harder added_paths
        (match source with Some source_path => mark_copied added_path source_path diff | None => diff end)
  end.

Definition is_changed (status : IndexDiffStatus) : bool :=
  match status with Deleted | Modified => true | Added | Copied | Renamed => false end.

Definition detect_exact_copies (old_map new_map : IdentityMap) (diff : list IndexDiffEntry)
  (find_copies_harder : bool) : list IndexDiffEntry :=
  let added_paths := map de_path (with_status Added diff) in
  let changed_old_paths := map de_path (filter (fun entry => is_changed (de_status entry) = true) diff) in
  copy_loop old_map new_map changed_old_paths find_copies_harder added_paths diff.

Definition diff_indexes_with_exact_renames_and_copies (old new : GitIndex) (find_copies_harder : bool)
  : outcome (list IndexDiffEntry) :=
  old_map ← index_map old;
  new_map ← index_map new;
  diff ← diff_indexes old new;
  let diff := detect_exact_renames old_map new_map diff in
  Ok (detect_exact_copies old_map new_map diff find_copies_harder).

Definition diff_indexes_with_exact_renames (old new : GitIndex) : outcome (list IndexDiffEntry) :=
  diff_indexes_with_exact_renames_and_copies old new false.

(** ** Differences between trees *)

Definition compare_tree_entries (left right : TreeEntry) : outcome comparison :=
  compare_tree_names (te_name left) (is_tree left) (te_name right) (is_tree right).

Definition tree_diff_file_entry (path : bytes) (entry : TreeEntry) : outcome TreeDiffFileEntry :=
  mode ← index_mode_from_tree_mode (te_mode entry);
  Ok (MkFileEntry path (te_id entry) mode).

Section trees.
Context {C V : Type} (read : C -> ObjectId -> outcome (list TreeEntry) * C).
Context (visit : TreeDiffEntry -> rd V unit).

(** The cache of trees, the buffer of the path, and what the visitor keeps. *)
Record DiffState : Type := MkDiffState { ds_cache : C; ds_path : bytes; ds_visited : V }.

Definition diff_read_tree (id : ObjectId) : rd DiffState (list TreeEntry) := fun s =>
  let '(o, cache) := read (ds_cache s) id in (o, MkDiffState cache (ds_path s) (ds_visited s)).

Definition diff_visit (entry : TreeDiffEntry) : rd DiffState unit := fun s =>
  let '(o, visited) := visit entry (ds_visited s) in (o, MkDiffState (ds_cache s) (ds_path s) visited).

Definition get_path : rd DiffState bytes := fun s => (Ok (ds_path s), s).

Definition set_path (path : bytes) : rd DiffState unit := fun s =>
  (Ok tt, MkDiffState (ds_cache s) path (ds_visited s)).

(** The length to truncate to afterwards. *)
Definition push_tree_path (name : bytes) : rd DiffState nat :=
  path <~ get_path;
  _ <~ set_path (path ++ name ++ ["/"%byte]);
  rret (length path).

Definition truncate_path (path_len : nat) : rd DiffState unit :=
  path <~ get_path;
  set_path (take path_len path).

Fixpoint emit_tree_entries_with (emit : TreeEntry -> rd DiffState unit) (entries : list TreeEntry)
  : rd DiffState unit :=
  match entries with
  | [] => rret tt
  | entry :: entries =>
      _ <~ emit entry;
      emit_tree_entries_with emit entries
  end.

Definition emitted (status : IndexDiffStatus) (file_entry : TreeDiffFileEntry)
  : outcome (option TreeDiffFileEntry * option TreeDiffFileEntry) :=
  match status with
  | Added => Ok (None, Some file_entry)
  | Deleted => Ok (Some file_entry, None)
  | Modified | Renamed | Copied =>
      fail InvalidInput "tree entry emission only supports added or deleted statuses"
  end.

(** The fuel bounds the depth of the trees. *)
Fixpoint emit_tree_entry (fuel : nat) (status : IndexDiffStatus) (entry : TreeEntry) : rd DiffState unit :=
  match fuel with
  | 0 => rlift NoFuel
  | S fuel =>
      if is_tree entry then
        path_len <~ push_tree_path (te_name entry);
        entries <~ diff_read_tree (te_id entry);
        _ <~ emit_tree_entries_with (emit_tree_entry fuel status) entries;
        truncate_path path_len
      else
        path <~ get_path;
        let file_path := path ++ te_name entry in
        file_entry <~ rlift (tree_diff_file_entry file_path entry);
        '(old_entry, new_entry) <~ rlift (emitted status file_entry);
        diff_visit (MkTreeDiff status file_path old_entry new_entry)
  end.

Definition emit_tree_entries (fuel : nat) (status : IndexDiffStatus) (entries : list TreeEntry)
  : rd DiffState unit := emit_tree_entries_with (emit_tree_entry fuel status) entries.

(** [diff_matching_tree_entry], where [diff_below] compares two subtrees. *)
Definition diff_matching_tree_entry (emit : IndexDiffStatus -> TreeEntry -> rd DiffState unit)
  (diff_below : list TreeEntry -> list TreeEntry -> rd DiffState unit) (old_entry new_entry : TreeEntry)
  : rd DiffState unit :=
  if is_tree old_entry && is_tree new_entry then
    if bool_decide (te_id old_entry = te_id new_entry) then rret tt else
    path_len <~ push_tree_path (te_name old_entry);
    old_entries <~ diff_read_tree (te_id old_entry);
    new_entries <~ diff_read_tree (te_id new_entry);
    _ <~ diff_below old_entries new_entries;
    truncate_path path_len
  else if is_tree old_entry || is_tree new_entry then
    _ <~ emit Deleted old_entry;
    emit Added new_entry
  else if negb (bool_decide (te_mode old_entry = te_mode new_entry))
          || negb (bool_decide (te_id old_entry = te_id new_entry)) then
    path <~ get_path;
    let file_path := path ++ te_name new_entry in
    old_file <~ rlift (tree_diff_file_entry file_path old_entry);
    new_file <~ rlift (tree_diff_file_entry file_path new_entry);
    diff_visit (MkTreeDiff Modified file_path (Some old_file) (Some new_file))
  else rret tt.

(** The loop of [diff_tree_entries_at], over the entries its indices leave; the fuel is for its turns
    and for the depth of the trees. *)
Fixpoint diff_tree_entries_at (fuel : nat) (old_entries new_entries : list TreeEntry)
  : rd DiffState unit :=
  match fuel with
  | 0 => rlift NoFuel
  | S fuel =>
      match old_entries, new_entries with
      | [], [] => rret tt
      | old_entry :: old', new_entry :: new' =>
          order <~ rlift (compare_tree_entries old_entry new_entry);
          match order with
          | Lt => _ <~ emit_tree_entry fuel Deleted old_entry; diff_tree_entries_at fuel old' new_entries
          | Gt => _ <~ emit_tree_entry fuel Added new_entry; diff_tree_entries_at fuel old_entries new'
          | Eq =>
              _ <~ diff_matching_tree_entry (emit_tree_entry fuel) (diff_tree_entries_at fuel)
                     old_entry new_entry;
              diff_tree_entries_at fuel old' new'
          end
      | old_entry :: old', [] =>
          _ <~ emit_tree_entry fuel Deleted old_entry; diff_tree_entries_at fuel old' []
      | [], new_entry :: new' =>
          _ <~ emit_tree_entry fuel Added new_entry; diff_tree_entries_at fuel [] new'
      end
  end.

Definition tree_diff_run (fuel : nat) (old_tree : option ObjectId) (new_tree : ObjectId) : rd DiffState unit :=
  match old_tree with
  | Some old_tree =>
      if bool_decide (old_tree = new_tree) then rret tt else
      old_entries <~ diff_read_tree old_tree;
      new_entries <~ diff_read_tree new_tree;
      diff_tree_entries_at fuel old_entries new_entries
  | None =>
      new_entries <~ diff_read_tree new_tree;
      emit_tree_entries fuel Added new_entries
  end.

(** Every call starts with an empty path. *)
Definition for_each_tree_diff (fuel : nat) (cache : C) (old_tree : option ObjectId) (new_tree : ObjectId)
  (visited : V) : outcome unit * C * V :=
  let '(o, s) := tree_diff_run fuel old_tree new_tree (MkDiffState cache [] visited) in
  (o, ds_cache s, ds_visited s).
End trees.

Definition diff_trees `{GitObjectStore St} (fuel : nat) (s : St) (cache : TreeObjectCache)
  (old_tree : option ObjectId) (new_tree : ObjectId) : outcome (list TreeDiffEntry) * TreeObjectCache :=
  let '(o, cache, diff) :=
    for_each_tree_diff (cached_read_tree s) (fun entry diff => (Ok tt, diff ++ [entry])) fuel cache
      old_tree new_tree [] in
  (_ ← o; Ok diff, cache).
