(* ===== verification/DiffSpec.v ===== *)
(** * Differences: what the comparisons of indexes and of trees report *)
From S2P Require Import Prelude Object Order TreeCodec Index Store TreeRead Reader Diff.

(** ** The changes between two sorted lists of files *)

Definition file_of (e : IndexEntry) : TreeDiffFileEntry := MkFileEntry (ie_path e) (ie_id e) (ie_mode e).

Definition deletion (e : IndexEntry) : TreeDiffEntry := MkTreeDiff Deleted (ie_path e) (Some (file_of e)) None.

Definition addition (e : IndexEntry) : TreeDiffEntry := MkTreeDiff Added (ie_path e) None (Some (file_of e)).

Definition modification (o n : IndexEntry) : TreeDiffEntry :=
  MkTreeDiff Modified (ie_path n) (Some (file_of o)) (Some (file_of n)).

Definition modified (o n : IndexEntry) : list TreeDiffEntry :=
  if bool_decide (entry_identity o = entry_identity n) then [] else [modification o n].

Fixpoint changes (old : list IndexEntry) : list IndexEntry -> list TreeDiffEntry :=
  fix below (new : list IndexEntry) : list TreeDiffEntry :=
    match old, new with
    | [], [] => []
    | o :: old, [] => deletion o :: changes old []
    | [], n :: new => addition n :: below new
    | o :: old, n :: new' =>
        match cmp_bytes (ie_path o) (ie_path n) with
        | Lt => deletion o :: changes old new
        | Gt => addition n :: below new'
        | Eq => modified o n ++ changes old new'
        end
    end.

(** What is reported of a change between indexes. *)
Definition index_change (t : TreeDiffEntry) : IndexDiffEntry := MkDiff (td_status t) (td_path t) None None.

Lemma changes_cons o old n new :
  changes (o :: old) (n :: new) =
  match cmp_bytes (ie_path o) (ie_path n) with
  | Lt => deletion o :: changes old (n :: new)
  | Gt => addition n :: changes (o :: old) new
  | Eq => modified o n ++ changes old new
  end.
Proof. done. Qed.

Lemma changes_nil_r old : changes old [] = map deletion old.
Proof. induction old as [|o old IH]; [done|]. cbn. by rewrite <- IH. Qed.

Lemma changes_nil_l new : changes [] new = map addition new.
Proof. induction new as [|n new IH]; [done|]. cbn. by rewrite <- IH. Qed.

Lemma changes_self l : changes l l = [].
Proof.
  induction l as [|e l IH]; [done|]. rewrite changes_cons, (cmp_refl cmp_bytes). unfold modified.
  by rewrite bool_decide_true, IH.
Qed.

Lemma diff_loop_changes fuel old new acc :
  length old + length new <= fuel ->
  diff_loop fuel old new acc = Ok (acc ++ map index_change (changes old new)).
Proof.
  revert old new acc. induction fuel as [|fuel IH]; intros [|o old] [|n new] acc Hf; cbn [length] in Hf; try lia;
    try (cbn; by rewrite app_nil_r).
  - cbn [diff_loop]. rewrite IH by (cbn; lia). rewrite !changes_nil_l. cbn [map]. by rewrite <- app_assoc.
  - cbn [diff_loop]. rewrite IH by (cbn; lia). rewrite !changes_nil_r. cbn [map]. by rewrite <- app_assoc.
  - rewrite changes_cons. cbn [diff_loop]. destruct (cmp_bytes (ie_path o) (ie_path n)).
    + rewrite IH by lia. unfold modified. case_bool_decide; [done|]. cbn [map app]. by rewrite <- app_assoc.
    + rewrite IH by (cbn; lia). cbn [map]. by rewrite <- app_assoc.
    + rewrite IH by (cbn; lia). cbn [map]. by rewrite <- app_assoc.
Qed.

(** *** In order *)

Abbreviation in_order := (strictly_sorted ie_path cmp_bytes).

Lemma in_order_cons e l : in_order (e :: l) <->
  in_order l /\ forall x, x ∈ l -> cmp_bytes (ie_path e) (ie_path x) = Lt.
Proof.
  split.
  - intros [Hl Hx]%StronglySorted_inv. split; [done|]. by rewrite <- Forall_forall.
  - intros [Hl Hx]. constructor; [done|]. by apply Forall_forall.
Qed.

(** Parts that are apart are compared apart. *)
Lemma changes_app a1 a2 b1 b2 :
  (forall x y, x ∈ a1 ++ b1 -> y ∈ a2 ++ b2 -> cmp_bytes (ie_path x) (ie_path y) = Lt) ->
  changes (a1 ++ a2) (b1 ++ b2) = changes a1 b1 ++ changes a2 b2.
Proof.
  revert b1. induction a1 as [|o a1 IH]; intros b1.
  - induction b1 as [|n b1 IHb]; intros Hlt; [done|]. cbn [app] in *. rewrite changes_nil_l.
    assert (Hb : changes a2 (b1 ++ b2) = map addition b1 ++ changes a2 b2).
    { rewrite IHb; [by rewrite changes_nil_l|]. intros x y Hx. apply Hlt. by right. }
    destruct a2 as [|o a2]; [rewrite !changes_nil_l in *; cbn [map]; by rewrite Hb|].
    rewrite changes_cons. assert (Hno : cmp_bytes (ie_path o) (ie_path n) = Gt).
    { apply (cmp_gt_lt cmp_bytes), Hlt; [by left|]. apply elem_of_app. left. by left. }
    rewrite Hno, Hb. done.
  - induction b1 as [|n b1 IHb]; intros Hlt; cbn [app] in *.
    + rewrite changes_nil_r. cbn [map app].
      assert (Ha : changes (a1 ++ a2) b2 = map deletion a1 ++ changes a2 b2).
      { rewrite <- changes_nil_r. apply (IH []). intros x y Hx. apply Hlt. by right. }
      destruct b2 as [|n b2]; [rewrite !changes_nil_r in *; cbn [map app]; by rewrite Ha|].
      rewrite changes_cons. rewrite (Hlt o n); [by rewrite Ha|by left|].
      apply elem_of_app. right. by left.
    + rewrite !changes_cons. destruct (cmp_bytes (ie_path o) (ie_path n)).
      * rewrite IH, <- app_assoc; [done|]. intros x y Hx. apply Hlt. set_solver.
      * cbn [app]. f_equal. apply (IH (n :: b1)). intros x y Hx. apply Hlt. set_solver.
      * cbn [app]. f_equal. apply IHb. intros x y Hx. apply Hlt. set_solver.
Qed.

(** *** Which changes there are *)

Inductive change_of (old new : list IndexEntry) : TreeDiffEntry -> Prop :=
| change_deleted o : o ∈ old -> (forall n, n ∈ new -> ie_path n <> ie_path o) -> change_of old new (deletion o)
| change_added n : n ∈ new -> (forall o, o ∈ old -> ie_path o <> ie_path n) -> change_of old new (addition n)
| change_modified o n :
    o ∈ old -> n ∈ new -> ie_path o = ie_path n -> entry_identity o <> entry_identity n ->
    change_of old new (modification o n).

Lemma change_of_skip_old o old new t :
  (forall n, n ∈ new -> ie_path n <> ie_path o) ->
  change_of (o :: old) new t <-> t = deletion o \/ change_of old new t.
Proof.
  intros Hn. split.
  - intros [o' Ho Hp|n Hin Hp|o' n Ho Hin Hp Hi].
    + apply elem_of_cons in Ho as [->|Ho]; [by left|right; by constructor].
    + right. constructor; [done|]. intros o' Ho. apply Hp. by right.
    + apply elem_of_cons in Ho as [->|Ho]; [by destruct (Hn n Hin)|right; by constructor].
  - intros [->|[o' Ho Hp|n Hin Hp|o' n Ho Hin Hp Hi]]; [apply change_deleted; [by left|done]|..].
    + apply change_deleted; [by right|done].
    + apply change_added; [done|]. intros o' [->|Ho]%elem_of_cons; [|by apply Hp]. intros E. by destruct (Hn n Hin).
    + apply change_modified; [by right|done..].
Qed.

Lemma change_of_skip_new n old new t :
  (forall o, o ∈ old -> ie_path o <> ie_path n) ->
  change_of old (n :: new) t <-> t = addition n \/ change_of old new t.
Proof.
  intros Hn. split.
  - intros [o Ho Hp|n' Hin Hp|o n' Ho Hin Hp Hi].
    + right. constructor; [done|]. intros n' Hin. apply Hp. by right.
    + apply elem_of_cons in Hin as [->|Hin]; [by left|right; by constructor].
    + apply elem_of_cons in Hin as [->|Hin]; [by destruct (Hn o Ho)|right; by constructor].
  - intros [->|[o Ho Hp|n' Hin Hp|o n' Ho Hin Hp Hi]]; [apply change_added; [by left|done]|..].
    + apply change_deleted; [done|]. intros n' [->|Hin]%elem_of_cons; [|by apply Hp]. intros E. by destruct (Hn o Ho).
    + apply change_added; [by right|done].
    + apply change_modified; [done|by right|done..].
Qed.

Lemma change_of_match o n old new t :
  ie_path o = ie_path n -> (forall e, e ∈ old ++ new -> ie_path e <> ie_path n) ->
  change_of (o :: old) (n :: new) t <-> t ∈ modified o n \/ change_of old new t.
Proof.
  intros E Hlt. assert (Hm : t ∈ modified o n <-> entry_identity o <> entry_identity n /\ t = modification o n).
  { unfold modified. case_bool_decide; [rewrite elem_of_nil|rewrite list_elem_of_singleton]; split; try done; by intros []. }
  assert (Ho : forall e, e ∈ old -> ie_path e <> ie_path n) by (intros e He; apply Hlt, elem_of_app; by left).
  assert (Hn : forall e, e ∈ new -> ie_path e <> ie_path n) by (intros e He; apply Hlt, elem_of_app; by right).
  rewrite Hm. split.
  - intros [o' Hin Hp|n' Hin Hp|o' n' Hin Hin' Hp Hi].
    + right. apply elem_of_cons in Hin as [->|Hin]; [destruct (Hp n); [by left|done]|].
      constructor; [done|]. intros n' Hn'. apply Hp. by right.
    + right. apply elem_of_cons in Hin as [->|Hin]; [destruct (Hp o); [by left|done]|].
      constructor; [done|]. intros o' Ho'. apply Hp. by right.
    + apply elem_of_cons in Hin as [->|Hin], Hin' as [->|Hin']; [by left|..].
      * destruct (Hn n' Hin'). congruence.
      * by destruct (Ho o' Hin).
      * right. by constructor.
  - intros [[Hi ->]|[o' Hin Hp|n' Hin Hp|o' n' Hin Hin' Hp Hi]]; [apply change_modified; [by left|by left|done..]|..].
    + apply change_deleted; [by right|]. intros n' [->|Hn']%elem_of_cons; [|by apply Hp]. intros E'. by destruct (Ho o' Hin).
    + apply change_added; [by right|]. intros o' [->|Ho']%elem_of_cons; [|by apply Hp]. intros E'. destruct (Hn n' Hin). congruence.
    + apply change_modified; [by right|by right|done..].
Qed.

Lemma cmp_not_path x y : cmp_bytes (ie_path x) (ie_path y) = Lt -> ie_path x <> ie_path y.
Proof. intros Hlt E. rewrite E, (cmp_refl cmp_bytes) in Hlt. done. Qed.

Lemma cmp_bytes_lt_trans a b c : cmp_bytes a b = Lt -> cmp_bytes b c = Lt -> cmp_bytes a c = Lt.
Proof. apply (cmp_lt_trans (cmp := cmp_bytes)). Qed.

Lemma changes_elem old new t : in_order old -> in_order new -> t ∈ changes old new <-> change_of old new t.
Proof.
  revert new. induction old as [|o old IH]; intros new Ho Hn.
  - rewrite changes_nil_l. change (map addition new) with (addition <$> new). rewrite list_elem_of_fmap. split.
    + intros (n & -> & Hin). constructor; [done|]. by intros o ?%elem_of_nil.
    + intros [o Hin|n Hin|o n Hin]; [by apply elem_of_nil in Hin|by exists n|by apply elem_of_nil in Hin].
  - pose proof (proj1 (in_order_cons _ _) Ho) as [Ho' Hlo]. induction new as [|n new IHn].
    + rewrite changes_nil_r. cbn [map]. rewrite elem_of_cons, change_of_skip_old by (by intros n ?%elem_of_nil).
      rewrite <- IH, changes_nil_r by done. done.
    + pose proof (proj1 (in_order_cons _ _) Hn) as [Hn' Hln]. rewrite changes_cons.
      destruct (cmp_bytes (ie_path o) (ie_path n)) eqn:E.
      * apply cmp_eq in E. rewrite elem_of_app, IH, change_of_match; [done|done| |done..].
        intros e [He|He]%elem_of_app; apply not_eq_sym, cmp_not_path; [rewrite <- E; by apply Hlo|by apply Hln].
      * rewrite elem_of_cons, IH, change_of_skip_old; [done| |done..].
        intros x [->|Hx]%elem_of_cons; apply not_eq_sym, cmp_not_path; [done|].
        eapply cmp_bytes_lt_trans; [exact E|by apply Hln].
      * apply (cmp_gt_lt cmp_bytes) in E. rewrite elem_of_cons, IHn, change_of_skip_new; [done| |done].
        intros x [->|Hx]%elem_of_cons; apply not_eq_sym, cmp_not_path; [done|].
        eapply cmp_bytes_lt_trans; [exact E|by apply Hlo].
Qed.

(** The path of a change is one of the paths compared. *)
Lemma change_path old new t : change_of old new t -> exists e, e ∈ old ++ new /\ td_path t = ie_path e.
Proof. intros [o Hin _|n Hin _|o n _ Hin _ _]; eexists; (split; [|reflexivity]); set_solver. Qed.

Lemma changes_sorted old new : in_order old -> in_order new -> strictly_sorted td_path cmp_bytes (changes old new).
Proof.
  revert new. induction old as [|o old IH]; intros new Ho Hn.
  - rewrite changes_nil_l. induction new as [|n new IHn]; [constructor|].
    apply in_order_cons in Hn as [Hn Hlt]. cbn [map]. constructor; [by apply IHn|].
    apply Forall_map, Forall_forall. by intros x Hx%Hlt.
  - pose proof (proj1 (in_order_cons _ _) Ho) as [Ho' Hlo]. induction new as [|n new IHn].
    + rewrite changes_nil_r. cbn [map]. constructor.
      * rewrite <- changes_nil_r. by apply IH.
      * apply Forall_map, Forall_forall. by intros x Hx%Hlo.
    + pose proof (proj1 (in_order_cons _ _) Hn) as [Hn' Hln]. rewrite changes_cons.
      assert (Hcons : forall t old new, in_order old -> in_order new ->
        strictly_sorted td_path cmp_bytes (changes old new) ->
        (forall e, e ∈ old ++ new -> cmp_bytes (td_path t) (ie_path e) = Lt) ->
        strictly_sorted td_path cmp_bytes (t :: changes old new)).
      { intros t old' new' H1 H2 Hs Hlt. constructor; [done|]. apply Forall_forall. intros t' Ht'.
        apply changes_elem, change_path in Ht' as (e & He & ->); [|done..]. by apply Hlt. }
      destruct (cmp_bytes (ie_path o) (ie_path n)) eqn:E.
      * unfold modified. case_bool_decide; [by apply IH|]. cbn [app]. apply Hcons; [done|done|by apply IH|].
        apply cmp_eq in E. intros e [He|He]%elem_of_app; cbn; [rewrite <- E; by apply Hlo|by apply Hln].
      * apply Hcons; [done|done|by apply IH|]. cbn [td_path deletion]. intros e He. rewrite elem_of_app, elem_of_cons in He.
        destruct He as [He|[->|He]]; [by apply Hlo|done|eapply cmp_bytes_lt_trans; [exact E|by apply Hln]].
      * apply Hcons; [done|done|by apply IHn|]. cbn [td_path addition]. apply (cmp_gt_lt cmp_bytes) in E. intros e He.
        rewrite elem_of_app, elem_of_cons in He.
        destruct He as [[->|He]|He]; [done|eapply cmp_bytes_lt_trans; [exact E|by apply Hlo]|by apply Hln].
Qed.

(** ** The comparison of two indexes *)

Lemma validate_diff_entries_eq es :
  validate_diff_entries es
  = if bool_decide (Forall (fun e => ie_stage e = 0%N) es) then Ok tt
    else fail InvalidInput "cannot diff an index with unresolved conflicts".
Proof.
  induction es as [|e es IH]; [by rewrite bool_decide_true by constructor|]. cbn [validate_diff_entries].
  destruct (N.eqb_spec (ie_stage e) 0) as [E|E]; cbn [negb check].
  - rewrite bind_Ok, IH. assert (Hc : Forall (fun e => ie_stage e = 0%N) es <-> Forall (fun e => ie_stage e = 0%N) (e :: es))
      by (rewrite Forall_cons; tauto). by rewrite (bool_decide_ext _ _ Hc).
  - rewrite bool_decide_false; [done|]. by intros []%Forall_cons.
Qed.

Lemma diff_indexes_staged old new :
  ~ Forall (fun e => ie_stage e = 0%N) (entries old ++ entries new) ->
  diff_indexes old new = fail InvalidInput "cannot diff an index with unresolved conflicts".
Proof.
  rewrite Forall_app. intros Hs. unfold diff_indexes, validate_diff_index. rewrite !validate_diff_entries_eq.
  destruct (decide (Forall (fun e => ie_stage e = 0%N) (entries old))) as [Ho|Ho].
  - rewrite (bool_decide_true _ Ho), bind_Ok. by rewrite bool_decide_false by tauto.
  - by rewrite (bool_decide_false _ Ho).
Qed.

Lemma diff_indexes_changes old new :
  Forall (fun e => ie_stage e = 0%N) (entries old ++ entries new) ->
  diff_indexes old new = Ok (map index_change (changes (entries old) (entries new))).
Proof.
  intros [Ho Hn]%Forall_app. unfold diff_indexes, validate_diff_index. rewrite !validate_diff_entries_eq, !bool_decide_true by done.
  rewrite !bind_Ok. by rewrite diff_loop_changes.
Qed.

(** Indexes at stage 0 are in the order of their paths. *)
Lemma index_strict_in_order index :
  index_strict index -> Forall (fun e => ie_stage e = 0%N) (entries index) -> in_order (entries index).
Proof.
  unfold index_strict, strictly_sorted. induction 1 as [|e es Hso IH Hlt]; [constructor|].
  intros [He Hes]%Forall_cons. constructor; [by apply IH|]. rewrite Forall_forall in Hlt, Hes |- *. intros x Hx.
  specialize (Hlt x Hx). specialize (Hes x Hx). unfold cmp_key, cmp_pair, entry_key in Hlt. cbn in Hlt, Hes.
  rewrite He, Hes in Hlt. by destruct (cmp_bytes _ _).
Qed.

(** C34: two indexes without unresolved conflicts always have a difference.  It has one entry for each path
    that only one of them has and for each path with another mode or object in the other, and nothing
    else; it is in the order of the paths, without repetition.  An index with a conflict is refused. *)
Theorem diff_indexes_spec old new :
  index_strict old -> index_strict new ->
  (Forall (fun e => ie_stage e = 0%N) (entries old ++ entries new) ->
   exists diff, diff_indexes old new = Ok diff /\
     strictly_sorted de_path cmp_bytes diff /\
     forall d, d ∈ diff <-> exists t, change_of (entries old) (entries new) t /\ d = index_change t) /\
  (~ Forall (fun e => ie_stage e = 0%N) (entries old ++ entries new) ->
   diff_indexes old new = fail InvalidInput "cannot diff an index with unresolved conflicts").
Proof.
  intros Ho Hn. split; [|apply diff_indexes_staged]. intros Hs.
  pose proof (proj1 (Forall_app _ _ _) Hs) as [Hso Hsn].
  pose proof (index_strict_in_order _ Ho Hso) as Ho'. pose proof (index_strict_in_order _ Hn Hsn) as Hn'.
  exists (map index_change (changes (entries old) (entries new))). split; [by apply diff_indexes_changes|]. split.
  - pose proof (changes_sorted _ _ Ho' Hn') as Hc. unfold strictly_sorted in *. clear -Hc.
    induction Hc as [|t l Hl IH Hlt]; [constructor|]. cbn [map]. constructor; [done|]. by apply Forall_map.
  - intros d. change (map index_change ?l) with (index_change <$> l). rewrite list_elem_of_fmap.
    split; intros (t & H1 & H2); exists t; rewrite ?changes_elem in * by done; tauto.
Qed.

(** ** Witnesses *)

#[local] Existing Instances sample_sha sample_sha_laws.

Definition sample_old : GitIndex :=
  MkGitIndex [leaf_entry (bstr "a") (sample_id Sha1 1) IFile; leaf_entry (bstr "b") (sample_id Sha1 2) IFile;
              leaf_entry (bstr "c") (sample_id Sha1 3) IFile] [].

Definition sample_new : GitIndex :=
  MkGitIndex [leaf_entry (bstr "a") (sample_id Sha1 1) IExecutable; leaf_entry (bstr "b.c") (sample_id Sha1 2) IFile;
              leaf_entry (bstr "c") (sample_id Sha1 3) IFile] [].

Lemma diff_indexes_spec_witness :
  exists diff, diff_indexes sample_old sample_new = Ok diff /\ strictly_sorted de_path cmp_bytes diff /\
    map (fun d => (de_status d, de_path d)) diff
    = [(Modified, bstr "a"); (Deleted, bstr "b"); (Added, bstr "b.c")].
Proof.
  destruct (diff_indexes_spec sample_old sample_new) as [Hok _].
  - apply (windows2_sorted entry_key cmp_key). vm_compute. reflexivity.
  - apply (windows2_sorted entry_key cmp_key). vm_compute. reflexivity.
  - destruct Hok as (diff & E & Hs & _); [by vm_compute; repeat constructor|]. exists diff. split; [exact E|]. split; [exact Hs|].
    vm_compute in E. injection E as <-. reflexivity.
Defined.
