(* ===== verification/DiffTree.v ===== *)
(** * Tree differences: the walk over two trees reports the changes between their files *)
From S2P Require Import Prelude Object Order TreeCodec Index Store TreeRead Reader Diff DiffSpec.

Section walk.
Context `{GitObjectStore St} (s : St).
Context {C V : Type} (read : C -> ObjectId -> outcome (list TreeEntry) * C) (ok : C -> Prop).
Context (Hread : forall c i, ok c -> (read c i).1 = read_tree s i /\ ok (read c i).2).
Context (visit : TreeDiffEntry -> rd V unit).

#[local] Abbreviation run := (rd (DiffState (C := C) (V := V)) unit).

(** The visitor called on one change after the other. *)
Fixpoint visit_all (l : list TreeDiffEntry) : rd V unit :=
  match l with
  | [] => rret tt
  | t :: l => _ <~ visit t; visit_all l
  end.

(** A run that reports the changes [l], with the buffer at [pre] before and after. *)
Definition reports (m : run) (pre : bytes) (l : list TreeDiffEntry) : Prop := forall c v, ok c ->
  exists o st, m (MkDiffState c pre v) = (o, st) /\ visit_all l v = (o, ds_visited st) /\
    ok (ds_cache st) /\ (o = Ok tt -> ds_path st = pre).

Lemma reports_ret pre : reports (rret tt) pre [].
Proof. intros c v Hc. by exists (Ok tt), (MkDiffState c pre v). Qed.

Lemma visit_all_app l1 l2 v :
  visit_all (l1 ++ l2) v = match visit_all l1 v with (Ok _, v) => visit_all l2 v | r => r end.
Proof.
  revert v. induction l1 as [|t l1 IH]; intros v; [done|]. cbn [app visit_all]. unfold rbind.
  destruct (visit t v) as [[[]|e| |] v']; [apply IH|done..].
Qed.

Lemma reports_bind m1 m2 pre l1 l2 :
  reports m1 pre l1 -> reports m2 pre l2 -> reports (_ <~ m1; m2) pre (l1 ++ l2).
Proof.
  intros H1 H2 c v Hc. destruct (H1 c v Hc) as (o & [c1 p1 v1] & E1 & Ev & Hc1 & Hp). cbn [ds_visited ds_cache ds_path] in *.
  unfold rbind. rewrite E1, visit_all_app, Ev. destruct o as [[]|e| |]; cbn [visit_all].
  - rewrite Hp by done. by apply H2.
  - exists (Err e), (MkDiffState c1 p1 v1). done.
  - exists Panic, (MkDiffState c1 p1 v1). done.
  - exists NoFuel, (MkDiffState c1 p1 v1). done.
Qed.

Lemma reports_visit t pre : reports (diff_visit visit t) pre [t].
Proof.
  intros c v Hc. unfold diff_visit. cbn [ds_visited ds_cache ds_path visit_all].
  destruct (visit t v) as [o v'] eqn:E. exists o, (MkDiffState c pre v'). split; [done|].
  split; [|done]. unfold rbind. rewrite E. by destruct o as [[]|e| |].
Qed.

(** A run below a directory: the path is pushed, trees are read, and the path is truncated. *)
Lemma reports_below name pre (m : run) l :
  reports m ((pre ++ name) ++ ["/"%byte]) l ->
  reports (path_len <~ push_tree_path name; _ <~ m; truncate_path path_len) pre l.
Proof.
  intros Hm c v Hc. unfold push_tree_path, truncate_path, get_path, set_path, rret.
  destruct (Hm c v Hc) as (o & [c1 p1 v1] & E & Ev & Hc1 & Hp). cbn [ds_visited ds_cache ds_path] in *.
  rewrite <- app_assoc in E. unfold rbind. cbn [ds_visited ds_cache ds_path]. rewrite E.
  destruct o as [[]|e| |]; [|by eexists _, _..].
  rewrite Hp by done. eexists _, _. split; [reflexivity|]. cbn. split; [done|]. split; [done|].
  intros _. by rewrite <- app_assoc, take_app_length.
Qed.

Lemma reports_read i es pre (f : list TreeEntry -> run) l :
  read_tree s i = Ok es -> reports (f es) pre l -> reports (entries <~ diff_read_tree read i; f entries) pre l.
Proof.
  intros Hr Hf c v Hc. destruct (Hread c i Hc) as [E Hc']. unfold rbind, diff_read_tree. cbn [ds_cache ds_path ds_visited].
  destruct (read c i) as [o c']. cbn [fst snd] in *. subst o. rewrite Hr. by apply Hf.
Qed.

Lemma reports_eq (m m' : run) pre l :
  (forall c v, m (MkDiffState c pre v) = m' (MkDiffState c pre v)) -> reports m' pre l -> reports m pre l.
Proof. intros E Hm c v Hc. rewrite E. by apply Hm. Qed.

(** *** Emission *)

Definition emission (status : IndexDiffStatus) (e : IndexEntry) : TreeDiffEntry :=
  match status with Added => addition e | _ => deletion e end.

Definition emits_status (status : IndexDiffStatus) : Prop := status = Added \/ status = Deleted.

Lemma leaf_reports fuel status pre e mode :
  emits_status status -> index_mode_from_tree_mode (te_mode e) = Ok mode ->
  reports (emit_tree_entry read visit (S fuel) status e) pre
    [emission status (leaf_entry (pre ++ te_name e) (te_id e) mode)].
Proof.
  intros Hs Hm. assert (Ht : is_tree e = false).
  { unfold is_tree. rewrite bool_decide_false; [done|]. by eapply index_mode_not_tree. }
  eapply reports_eq; [|apply reports_visit]. intros c v. cbn [emit_tree_entry]. rewrite Ht.
  unfold rbind, get_path, rlift, tree_diff_file_entry. cbn [ds_path]. rewrite Hm, bind_Ok.
  by destruct Hs as [-> | ->].
Qed.

(** A directory: what its entries report. *)
Lemma tree_reports fuel status pre e es l :
  te_mode e = TTree -> read_tree s (te_id e) = Ok es ->
  reports (emit_tree_entries read visit fuel status es) ((pre ++ te_name e) ++ ["/"%byte]) l ->
  reports (emit_tree_entry read visit (S fuel) status e) pre l.
Proof.
  intros Hm Hr Hes. eapply (reports_eq _ (path_len <~ push_tree_path (te_name e);
    _ <~ (entries <~ diff_read_tree read (te_id e); emit_tree_entries read visit fuel status entries);
    truncate_path path_len)); [|by apply reports_below, reports_read with es].
  intros c v. cbn [emit_tree_entry]. unfold is_tree. rewrite bool_decide_true by done. unfold rbind.
  destruct (push_tree_path (te_name e) _) as [[k|er| |] st]; try done.
  by destruct (diff_read_tree read (te_id e) st) as [[es2|er| |] st'].
Qed.

Lemma emit_entries_reports status pre es L n : emits_status status -> flattens s pre es L n ->
  forall fuel, n <= fuel -> reports (emit_tree_entries read visit fuel status es) pre (map (emission status) L).
Proof.
  intros Hs. unfold emit_tree_entries.
  induction 1 as [pre|pre e es mode L n Hm Hf IH|pre e es es' L' L n' n Hm Hr Hf' IH' Hf IH]; intros fuel Hn;
    cbn [emit_tree_entries_with].
  - apply reports_ret.
  - destruct fuel as [|fuel]; [lia|]. cbn [map]. change (?x :: ?l) with ([x] ++ l).
    apply reports_bind; [by apply leaf_reports|]. apply IH. lia.
  - destruct fuel as [|fuel]; [lia|]. rewrite map_app. apply reports_bind; [|apply IH; lia].
    apply (tree_reports _ _ _ _ es'); [done|done|]. apply IH'. lia.
Qed.

(** The first entry of a list and what is below it. *)
Lemma flattens_head pre e es L n : flattens s pre (e :: es) L n ->
  exists La L' na n', L = La ++ L' /\ n = na + n' /\ 0 < na /\ flattens s pre [e] La (na + 1) /\ flattens s pre es L' n'.
Proof.
  intros Hf. inversion Hf as [|? ? ? mode L' n' Hm Hf'|? ? ? es' La L' na n' Hm Hr Hf' Hf'']; subst.
  - exists [leaf_entry (pre ++ te_name e) (te_id e) mode], L', 1, n'. split_and!; [done|lia|lia| |done].
    apply (flattens_leaf s pre e [] mode [] 1); [done|constructor].
  - exists La, L', (S na), n'. split_and!; [done|lia|lia| |done].
    replace (S na + 1) with (S (na + 1)) by lia. rewrite <- (app_nil_r La).
    by apply (flattens_tree s pre e [] es' La [] na 1); [| | |constructor].
Qed.

Lemma emit_entry_reports fuel status pre e La na :
  emits_status status -> flattens s pre [e] La (na + 1) -> na <= fuel ->
  reports (emit_tree_entry read visit fuel status e) pre (map (emission status) La).
Proof.
  intros Hs Hf Hn. inversion Hf as [|? ? ? mode L' n' Hm Hf'|? ? ? es' L1 L2 n1 n2 Hm Hr Hf' Hf'']; subst.
  - inversion Hf'; subst. destruct fuel as [|fuel]; [lia|]. by apply leaf_reports.
  - assert (Hs2 : exists k, fuel = S k /\ n1 <= k) by (inversion Hf''; subst; exists (pred fuel); lia).
    destruct Hs2 as (k & -> & Hk). inversion Hf''; subst. rewrite app_nil_r.
    apply (tree_reports _ _ _ _ es'); [done|done|]. by eapply emit_entries_reports.
Qed.

(** *** What is below entries in order is in order *)

Definition plain_names (es : list TreeEntry) : Prop :=
  Forall (fun e => contains_byte "/"%byte (te_name e) = false) es.

Lemma wf_plain_names a es : Forall (entry_wf a) es -> plain_names es.
Proof. intros Hw. eapply Forall_impl; [exact Hw|]. by intros e ((_ & _ & ?) & _). Qed.

Lemma below_before pre e1 L1 n1 es2 L2 n2 x y :
  flattens s pre [e1] L1 n1 -> flattens s pre es2 L2 n2 -> plain_names es2 ->
  (forall e, e ∈ es2 -> cmp_bytes (sort_key e1) (sort_key e) = Lt) -> x ∈ L1 -> y ∈ L2 ->
  cmp_bytes (ie_path x) (ie_path y) = Lt.
Proof.
  intros Hf1 Hf2 Hn Hlt Hx Hy.
  destruct (flattens_below _ _ _ _ _ Hf1 x Hx) as (_ & e & r1 & He & Ex & Hr1).
  destruct (flattens_below _ _ _ _ _ Hf2 y Hy) as (_ & e2 & r2 & He2 & Ey & _).
  apply list_elem_of_singleton in He as ->. rewrite Ex, Ey, cmp_bytes_app. unfold plain_names in Hn.
  rewrite Forall_forall in Hn. apply below_order; [by apply Hn|done|by apply Hlt].
Qed.

Lemma trees_sorted_cons e es : trees_sorted s (e :: es) ->
  trees_sorted s es /\ (forall x, x ∈ es -> cmp_bytes (sort_key e) (sort_key x) = Lt) /\
  (forall es', te_mode e = TTree -> read_tree s (te_id e) = Ok es' -> trees_sorted s es').
Proof.
  intros Hs. inversion Hs as [? Hso Hsub]; subst. apply StronglySorted_inv in Hso as [Hso Hlt]. split_and!.
  - constructor; [done|]. intros. eapply Hsub; [by right|done..].
  - by apply Forall_forall.
  - intros es' Hm Hr. apply (Hsub e); [by left|done..].
Qed.

(** Entries at the same place have the same name and are both directories or both files. *)
Lemma same_key e1 e2 :
  contains_byte "/"%byte (te_name e1) = false -> contains_byte "/"%byte (te_name e2) = false ->
  sort_key e1 = sort_key e2 -> te_name e1 = te_name e2 /\ is_tree e1 = is_tree e2.
Proof.
  assert (Hin : forall n n' : bytes, contains_byte "/"%byte n = false -> n <> n' ++ ["/"%byte]).
  { intros n n' Hn ->. assert (contains_byte "/"%byte (n' ++ ["/"%byte]) = true); [|congruence].
    apply contains_byte_true. apply elem_of_app. right. by left. }
  intros H1 H2. unfold sort_key, sort_name. destruct (is_tree e1), (is_tree e2); intros E; split; try done.
  - by apply app_inj_tail in E as [-> _].
  - by destruct (Hin _ (te_name e1) H2).
  - by destruct (Hin _ (te_name e1) H2).
  - by destruct (Hin _ (te_name e2) H1).
  - by destruct (Hin _ (te_name e2) H1).
Qed.

(** The expansion of one entry. *)
Lemma flattens_file pre e La n : flattens s pre [e] La n -> te_mode e <> TTree ->
  exists mode, index_mode_from_tree_mode (te_mode e) = Ok mode /\ La = [leaf_entry (pre ++ te_name e) (te_id e) mode].
Proof.
  intros Hf Hm. inversion Hf as [|? ? ? mode L' n' Hmode Hf'|]; subst; [|done].
  exists mode. inversion Hf'; subst. done.
Qed.

Lemma flattens_dir pre e La na : flattens s pre [e] La (na + 1) -> te_mode e = TTree ->
  exists es k, read_tree s (te_id e) = Ok es /\ flattens s ((pre ++ te_name e) ++ ["/"%byte]) es La k /\ na = S k.
Proof.
  intros Hf Hm. inversion Hf as [|? ? ? mode L' n' Hmode Hf'|? ? ? es' L1 L2 n1 n2 _ Hr Hf' Hf'']; subst.
  - by rewrite Hm in Hmode.
  - inversion Hf''; subst. exists es', n1. rewrite app_nil_r. split_and!; [done|done|lia].
Qed.

(** Two entries at the same place, when the walk below is right. *)
Lemma matching_reports fuel pre eo en Lo Ln no nn :
  flattens s pre [eo] Lo (no + 1) -> flattens s pre [en] Ln (nn + 1) ->
  te_name eo = te_name en -> is_tree eo = is_tree en -> no + nn <= S fuel ->
  (forall es1 es2 L1 L2 n1 n2 p, p = (pre ++ te_name eo) ++ ["/"%byte] ->
     read_tree s (te_id eo) = Ok es1 -> read_tree s (te_id en) = Ok es2 ->
     te_mode eo = TTree -> te_mode en = TTree ->
     flattens s p es1 L1 n1 -> flattens s p es2 L2 n2 -> n1 + n2 <= fuel ->
     reports (diff_tree_entries_at read visit fuel es1 es2) p (changes L1 L2)) ->
  reports (diff_matching_tree_entry read visit (emit_tree_entry read visit fuel)
    (diff_tree_entries_at read visit fuel) eo en) pre (changes Lo Ln).
Proof.
  intros Ho Hn En Et Hfuel Hbelow. unfold diff_matching_tree_entry. rewrite <- Et.
  destruct (is_tree eo) eqn:Eo; cbn [andb orb]; symmetry in Et; unfold is_tree in Eo, Et.
  - apply bool_decide_eq_true in Eo, Et.
    destruct (flattens_dir _ _ _ _ Ho Eo) as (es1 & k1 & Hr1 & Hf1 & ->).
    destruct (flattens_dir _ _ _ _ Hn Et) as (es2 & k2 & Hr2 & Hf2 & ->). rewrite <- En in Hf2.
    case_bool_decide as Ei.
    + rewrite <- Ei, Hr1 in Hr2. injection Hr2 as <-. destruct (flattens_det s _ _ _ _ _ _ Hf1 Hf2) as [-> _].
      rewrite changes_self. apply reports_ret.
    + eapply (reports_eq _ (path_len <~ push_tree_path (te_name eo);
        _ <~ (old_entries <~ diff_read_tree read (te_id eo); new_entries <~ diff_read_tree read (te_id en);
              diff_tree_entries_at read visit fuel old_entries new_entries);
        truncate_path path_len)).
      * intros c v. unfold rbind. destruct (push_tree_path (te_name eo) _) as [[k|er| |] st]; try done.
        destruct (diff_read_tree read (te_id eo) st) as [[esa|er| |] st']; try done.
        by destruct (diff_read_tree read (te_id en) st') as [[esb|er| |] st2].
      * apply reports_below, reports_read with es1; [done|]. apply reports_read with es2; [done|].
        by apply (Hbelow es1 es2 _ _ k1 k2); try done; lia.
  - apply bool_decide_eq_false in Eo, Et.
    destruct (flattens_file _ _ _ _ Ho Eo) as (m1 & Hm1 & ->). destruct (flattens_file _ _ _ _ Hn Et) as (m2 & Hm2 & ->).
    rewrite changes_cons, <- En. cbn [leaf_entry ie_path]. rewrite (cmp_refl cmp_bytes). cbn [changes].
    rewrite app_nil_r. unfold modified, entry_identity. cbn [leaf_entry ie_mode ie_id].
    assert (Emode : te_mode eo = te_mode en <-> m1 = m2).
    { split; [intros E; rewrite E in Hm1; congruence|]. intros <-.
      by destruct (te_mode eo), (te_mode en); cbn in Hm1, Hm2; congruence. }
    destruct (decide (te_mode eo = te_mode en)) as [Em|Em]; destruct (decide (te_id eo = te_id en)) as [Ei|Ei];
      rewrite ?(bool_decide_true _ Em), ?(bool_decide_true _ Ei), ?(bool_decide_false _ Em), ?(bool_decide_false _ Ei);
      cbn [negb orb].
    1: { apply Emode in Em as ->. rewrite bool_decide_true by congruence. apply reports_ret. }
    all: rewrite bool_decide_false by (intros [=]; by try apply Em, Emode);
      eapply reports_eq; [|apply reports_visit]; intros c v;
      unfold rbind, get_path, rlift, tree_diff_file_entry; cbn [ds_path]; rewrite Hm1, Hm2, !bind_Ok;
      unfold modification, file_of; cbn [leaf_entry ie_path ie_id ie_mode]; by rewrite ?En.
Qed.

Lemma plain_names_cons e es : plain_names (e :: es) -> contains_byte "/"%byte (te_name e) = false /\ plain_names es.
Proof. by intros []%Forall_cons. Qed.

(** *** The heads of two lists are compared apart from the rest *)

Section heads.
Context (pre : bytes) (eo en : TreeEntry) (old new : list TreeEntry) (La L1 Lb L2 : list IndexEntry) (na n1 nb n2 : nat).
Context (Ha : flattens s pre [eo] La na) (H1 : flattens s pre old L1 n1).
Context (Hb : flattens s pre [en] Lb nb) (H2 : flattens s pre new L2 n2).
Context (Hp1 : plain_names old) (Hp2 : plain_names new).
Context (Hlt1 : forall e, e ∈ old -> cmp_bytes (sort_key eo) (sort_key e) = Lt).
Context (Hlt2 : forall e, e ∈ new -> cmp_bytes (sort_key en) (sort_key e) = Lt).

Lemma changes_heads_Eq : sort_key eo = sort_key en -> changes (La ++ L1) (Lb ++ L2) = changes La Lb ++ changes L1 L2.
Proof.
  intros E. apply changes_app. intros x y [Hx|Hx]%elem_of_app [Hy|Hy]%elem_of_app.
  - by eapply (below_before _ eo _ _ old).
  - eapply (below_before _ eo _ _ new); [done|done|done| |done|done]. intros e He. rewrite E. by apply Hlt2.
  - eapply (below_before _ en _ _ old); [done|done|done| |done|done]. intros e He. rewrite <- E. by apply Hlt1.
  - by eapply (below_before _ en _ _ new).
Qed.

Lemma changes_heads_Lt : contains_byte "/"%byte (te_name en) = false -> cmp_bytes (sort_key eo) (sort_key en) = Lt ->
  changes (La ++ L1) (Lb ++ L2) = map deletion La ++ changes L1 (Lb ++ L2).
Proof.
  intros Hn E. rewrite <- changes_nil_r. apply (changes_app La L1 [] (Lb ++ L2)). rewrite app_nil_r.
  intros x y Hx [Hy|[Hy|Hy]%elem_of_app]%elem_of_app.
  - by eapply (below_before _ eo _ _ old).
  - eapply (below_before _ eo _ _ [en]); [done|done|by constructor| |done|done]. by intros e ->%list_elem_of_singleton.
  - eapply (below_before _ eo _ _ new); [done|done|done| |done|done].
    intros e He. eapply cmp_bytes_lt_trans; [exact E|by apply Hlt2].
Qed.

Lemma changes_heads_Gt : contains_byte "/"%byte (te_name eo) = false -> cmp_bytes (sort_key en) (sort_key eo) = Lt ->
  changes (La ++ L1) (Lb ++ L2) = map addition Lb ++ changes (La ++ L1) L2.
Proof.
  intros Hn E. rewrite <- changes_nil_l. apply (changes_app [] (La ++ L1) Lb L2). cbn [app].
  intros x y Hx [[Hy|Hy]%elem_of_app|Hy]%elem_of_app; [| |by eapply (below_before _ en _ _ new)].
  - eapply (below_before _ en _ _ [eo]); [done|done|by constructor| |done|done]. by intros e ->%list_elem_of_singleton.
  - eapply (below_before _ en _ _ old); [done|done|done| |done|done].
    intros e He. eapply cmp_bytes_lt_trans; [exact E|by apply Hlt1].
Qed.
End heads.

(** The walk reports the changes between the expansions. *)
Lemma walk_reports fuel : forall pre old new L1 L2 n1 n2,
  flattens s pre old L1 n1 -> flattens s pre new L2 n2 -> trees_sorted s old -> trees_sorted s new ->
  plain_names old -> plain_names new -> n1 + n2 <= fuel ->
  reports (diff_tree_entries_at read visit fuel old new) pre (changes L1 L2).
Proof.
  induction fuel as [|fuel IH]; intros pre old new L1 L2 n1 n2 Hf1 Hf2 Hs1 Hs2 Hp1 Hp2 Hn;
    [inversion Hf1; subst; lia|].
  destruct old as [|eo old], new as [|en new]; cbn [diff_tree_entries_at].
  - inversion Hf1; inversion Hf2; subst. apply reports_ret.
  - destruct (flattens_head _ _ _ _ _ Hf2) as (La & L' & na & n' & -> & -> & Hna & Ha & Hf').
    apply trees_sorted_cons in Hs2 as (Hs2 & _). apply plain_names_cons in Hp2 as [_ Hp2].
    pose proof Hf1 as Hf0. inversion Hf0; subst. rewrite changes_nil_l, map_app, <- (changes_nil_l L'). apply reports_bind.
    + apply (emit_entry_reports _ Added _ _ _ na); [by left|done|lia].
    + apply (IH _ [] new _ _ 1 n'); [done..|lia].
  - destruct (flattens_head _ _ _ _ _ Hf1) as (La & L' & na & n' & -> & -> & Hna & Ha & Hf').
    apply trees_sorted_cons in Hs1 as (Hs1 & _). apply plain_names_cons in Hp1 as [_ Hp1].
    pose proof Hf2 as Hf0. inversion Hf0; subst. rewrite changes_nil_r, map_app, <- (changes_nil_r L'). apply reports_bind.
    + apply (emit_entry_reports _ Deleted _ _ _ na); [by right|done|lia].
    + apply (IH _ old [] _ _ n' 1); [done..|lia].
  - destruct (flattens_head _ _ _ _ _ Hf1) as (La & L1' & na & n1' & -> & -> & Hna & Ha & Hf1').
    destruct (flattens_head _ _ _ _ _ Hf2) as (Lb & L2' & nb & n2' & -> & -> & Hnb & Hb & Hf2').
    pose proof (trees_sorted_cons _ _ Hs1) as (Hs1' & Hlt1 & Hsub1). pose proof (trees_sorted_cons _ _ Hs2) as (Hs2' & Hlt2 & Hsub2).
    pose proof (plain_names_cons _ _ Hp1) as [Hn1 Hp1']. pose proof (plain_names_cons _ _ Hp2) as [Hn2 Hp2'].
    unfold compare_tree_entries. rewrite compare_tree_names_spec. fold (sort_key eo) (sort_key en).
    change (rbind (rlift (Ok ?a)) ?f) with (fun x => f a x). cbv beta.
    destruct (cmp_bytes (sort_key eo) (sort_key en)) eqn:E.
    + apply cmp_eq in E. destruct (same_key _ _ Hn1 Hn2 E) as [En Et].
      rewrite (changes_heads_Eq pre eo en old new _ _ _ _ _ _ _ _ Ha Hf1' Hb Hf2' Hp1' Hp2' Hlt1 Hlt2 E).
      apply (reports_eq _ (_ <~ diff_matching_tree_entry read visit (emit_tree_entry read visit fuel)
        (diff_tree_entries_at read visit fuel) eo en; diff_tree_entries_at read visit fuel old new)); [done|].
      apply reports_bind.
      * apply (matching_reports _ _ _ _ _ _ na nb); [exact Ha|exact Hb|exact En|exact Et|lia|].
        intros es1 es2 La' Lb' k1 k2 p -> Hr1 Hr2 Hm1 Hm2 Hk1 Hk2 Hk.
        apply (IH _ _ _ _ _ k1 k2); [done|done|by apply Hsub1|by apply Hsub2|eapply wf_plain_names; by eapply read_tree_wf..|done].
      * apply (IH _ _ _ _ _ n1' n2'); [done..|lia].
    + rewrite (changes_heads_Lt pre eo en old new _ _ _ _ _ _ _ _ Ha Hf1' Hb Hf2' Hp1' Hp2' Hlt1 Hlt2 Hn2 E).
      apply (reports_eq _ (_ <~ emit_tree_entry read visit fuel Deleted eo; diff_tree_entries_at read visit fuel old (en :: new))); [done|].
      apply reports_bind.
      * apply (emit_entry_reports _ Deleted _ _ _ na); [by right|done|lia].
      * apply (IH _ _ _ _ _ n1' (nb + n2')); [done..|lia].
    + apply (cmp_gt_lt cmp_bytes) in E.
      rewrite (changes_heads_Gt pre eo en old new _ _ _ _ _ _ _ _ Ha Hf1' Hb Hf2' Hp1' Hp2' Hlt1 Hlt2 Hn1 E).
      apply (reports_eq _ (_ <~ emit_tree_entry read visit fuel Added en; diff_tree_entries_at read visit fuel (eo :: old) new)); [done|].
      apply reports_bind.
      * apply (emit_entry_reports _ Added _ _ _ nb); [by left|done|lia].
      * apply (IH _ _ _ _ _ (na + n1') n2'); [done..|lia].
Qed.
End walk.

(** ** The difference of two trees *)

Section trees.
Context `{GitObjectStore St}.
Implicit Types s : St.

(** A tree in git's order throughout, none standing for the empty one; its files; and the nodes of the
    expansion. *)
Definition expands s (tree : option ObjectId) (L : list IndexEntry) (n : nat) : Prop :=
  match tree with
  | Some i => exists es, read_tree s i = Ok es /\ trees_sorted s es /\ flattens s [] es L n
  | None => L = [] /\ n = 1
  end.

Lemma expands_in_order s tree L n : expands s tree L n ->
  in_order L /\ Forall (fun e => ie_stage e = 0%N) L.
Proof.
  destruct tree as [i|]; cbn [expands]; [|by intros [-> _]; split; constructor]. intros (es & Hr & Ht & Hf). split.
  - eapply flattens_sorted; [done..|]. by eapply read_tree_wf.
  - apply Forall_forall. intros e He. by apply (flattens_below s [] es L n Hf).
Qed.

Lemma run_reports {C V} (read : C -> ObjectId -> outcome (list TreeEntry) * C) (ok : C -> Prop)
  (visit : TreeDiffEntry -> rd V unit) s fuel old_tree new_tree L1 L2 n1 n2 :
  (forall c i, ok c -> (read c i).1 = read_tree s i /\ ok (read c i).2) ->
  expands s old_tree L1 n1 -> expands s (Some new_tree) L2 n2 -> n1 + n2 <= fuel ->
  reports ok visit (tree_diff_run read visit fuel old_tree new_tree) [] (changes L1 L2).
Proof.
  intros Hread H1 (es2 & Hr2 & Ht2 & Hf2) Hn. unfold tree_diff_run. destruct old_tree as [i|].
  - destruct H1 as (es1 & Hr1 & Ht1 & Hf1). case_bool_decide as E.
    + subst i. rewrite Hr1 in Hr2. injection Hr2 as <-. destruct (flattens_det s _ _ _ _ _ _ Hf1 Hf2) as [-> _].
      rewrite changes_self. apply reports_ret.
    + apply (reports_read s read ok Hread) with es1; [done|]. apply (reports_read s read ok Hread) with es2; [done|].
      apply (walk_reports s read ok Hread visit fuel [] es1 es2 L1 L2 n1 n2); try done;
        eapply wf_plain_names; by eapply read_tree_wf.
  - destruct H1 as [-> ->]. apply (reports_read s read ok Hread) with es2; [done|].
    rewrite changes_nil_l. apply (emit_entries_reports s read ok Hread visit Added [] es2 L2 n2); [by left|done|lia].
Qed.

(** The walk over two trees in git's order calls the visitor exactly on the changes between the files
    of the two trees, in the order of their paths, through any coherent cache: the visitor's first error
    ends it, with the changes before it visited, and the cache stays coherent. *)
Theorem for_each_tree_diff_visits {V} (visit : TreeDiffEntry -> rd V unit) s cache fuel old_tree new_tree L1 L2 n1 n2 v :
  tree_cache_ok s cache -> expands s old_tree L1 n1 -> expands s (Some new_tree) L2 n2 -> n1 + n2 <= fuel ->
  let '(o, cache', v') := for_each_tree_diff (cached_read_tree s) visit fuel cache old_tree new_tree v in
  (o, v') = visit_all visit (changes L1 L2) v /\ tree_cache_ok s cache' /\
  strictly_sorted td_path cmp_bytes (changes L1 L2) /\
  forall t, t ∈ changes L1 L2 <-> change_of L1 L2 t.
Proof.
  intros Hc H1 H2 Hn. unfold for_each_tree_diff.
  pose proof (run_reports (cached_read_tree s) (tree_cache_ok s) visit s fuel old_tree new_tree L1 L2 n1 n2
    (fun c i => cached_read_tree_spec s c i) H1 H2 Hn cache v Hc) as (o & st & E & Ev & Hc' & _).
  rewrite E, Ev. destruct (expands_in_order _ _ _ _ H1) as [Ho1 _]. destruct (expands_in_order _ _ _ _ H2) as [Ho2 _].
  split; [done|]. split; [done|]. split; [by apply changes_sorted|]. intros t. by apply changes_elem.
Qed.

Lemma visit_all_push l diff :
  visit_all (fun entry diff => (Ok tt, diff ++ [entry])) l diff = (Ok tt, diff ++ l).
Proof.
  revert diff. induction l as [|t l IH]; intros diff; cbn [visit_all]; [by rewrite app_nil_r|].
  unfold rbind. rewrite IH. by rewrite <- app_assoc.
Qed.

(** C13: for trees in git's order, comparing the trees is comparing their expansions: the walk that skips
    equal subtrees reports what the comparison of the two indexes read from the trees reports, with
    the files on both sides, whatever trees the cache already holds. *)
Theorem diff_trees_agrees s cache fuel old_tree new_tree L1 L2 n1 n2 :
  tree_cache_ok s cache -> expands s old_tree L1 n1 -> expands s (Some new_tree) L2 n2 -> n1 + n2 <= fuel ->
  exists cache' old_index diff,
    diff_trees fuel s cache old_tree new_tree = (Ok diff, cache') /\ tree_cache_ok s cache' /\
    read_tree_to_index fuel s new_tree = Ok (MkGitIndex L2 []) /\
    diff_indexes old_index (MkGitIndex L2 []) = Ok (map index_change diff) /\
    match old_tree with
    | Some i => read_tree_to_index fuel s i = Ok old_index /\
        diff_index_to_tree fuel s i (MkGitIndex L2 []) = Ok (map index_change diff)
    | None => old_index = GitIndex_new
    end.
Proof.
  intros Hc H1 H2 Hn. exists (diff_trees fuel s cache old_tree new_tree).2, (MkGitIndex L1 []), (changes L1 L2).
  pose proof (run_reports (cached_read_tree s) (tree_cache_ok s) (fun entry diff => (Ok tt, diff ++ [entry])) s fuel
    old_tree new_tree L1 L2 n1 n2 (fun c i => cached_read_tree_spec s c i) H1 H2 Hn cache [] Hc) as (o & st & E & Ev & Hc' & _).
  rewrite visit_all_push in Ev. injection Ev as <- Ev.
  assert (Ed : diff_indexes (MkGitIndex L1 []) (MkGitIndex L2 []) = Ok (map index_change (changes L1 L2))).
  { apply (diff_indexes_changes (MkGitIndex L1 []) (MkGitIndex L2 [])). apply Forall_app. split; by eapply expands_in_order. }
  unfold diff_trees, for_each_tree_diff. rewrite E, bind_Ok. cbn [snd]. rewrite <- Ev.
  split; [done|]. split; [done|]. split.
  { destruct H2 as (es & Hr & _ & Hf). by apply (read_tree_to_index_complete s new_tree es L2 n2); [..|lia]. }
  split; [done|]. destruct old_tree as [i|]; [|by destruct H1 as [-> _]]. destruct H1 as (es & Hr & _ & Hf).
  assert (Er : read_tree_to_index fuel s i = Ok (MkGitIndex L1 []))
    by (by apply (read_tree_to_index_complete s i es L1 n1); [..|lia]).
  split; [done|]. unfold diff_index_to_tree. by rewrite Er, bind_Ok.
Qed.
End trees.

(** ** Witnesses *)

(** The expansion, computed. *)
Fixpoint flatten `{GitObjectStore St} (fuel : nat) (s : St) (pre : bytes) (es : list TreeEntry)
  : option (list IndexEntry * nat) :=
  match fuel with
  | 0 => None
  | S fuel =>
      match es with
      | [] => Some ([], 1)
      | e :: es =>
          '(L, n) ← flatten fuel s pre es;
          if bool_decide (te_mode e = TTree) then
            match read_tree s (te_id e) with
            | Ok es' =>
                '(L', n') ← flatten fuel s ((pre ++ te_name e) ++ ["/"%byte]) es';
                Some (L' ++ L, S (n' + n))
            | _ => None
            end
          else
            match index_mode_from_tree_mode (te_mode e) with
            | Ok mode => Some (leaf_entry (pre ++ te_name e) (te_id e) mode :: L, S n)
            | _ => None
            end
      end
  end.

Lemma flatten_ok `{GitObjectStore St} fuel (s : St) pre es L n :
  flatten fuel s pre es = Some (L, n) -> flattens s pre es L n.
Proof.
  revert pre es L n. induction fuel as [|fuel IH]; intros pre es L n; [done|]. destruct es as [|e es]; cbn [flatten].
  - intros [= <- <-]. constructor.
  - destruct (flatten fuel s pre es) as [[L1 n1]|] eqn:E1; [|done]. cbn [mbind option_bind]. case_bool_decide as Hm.
    + destruct (read_tree s (te_id e)) as [es'|er| |] eqn:Er; [|done..].
      destruct (flatten fuel s _ es') as [[L2 n2]|] eqn:E2; [|done]. cbn [mbind option_bind]. intros [= <- <-].
      apply (flattens_tree s pre e es es'); [done|done|by apply IH|by apply IH].
    + destruct (index_mode_from_tree_mode (te_mode e)) as [mode|er| |] eqn:Em; [|done..]. intros [= <- <-].
      apply flattens_leaf; [done|by apply IH].
Qed.

#[local] Existing Instances sample_sha sample_sha_laws.

(** The tree [a], [a.d/x], [b], and the tree [a], [a.d/x], [a.d/y], [c] where [a] is executable. *)
Definition two_trees : outcome (InMemoryObjectStore * ObjectId * ObjectId) :=
  '(s, f) ← in_memory_write_object sample_store Blob (bstr "hi");
  sub ← encode_tree [MkTreeEntry TExecutable (bstr "x") f];
  '(s, d) ← in_memory_write_object s Tree sub;
  sub' ← encode_tree [MkTreeEntry TExecutable (bstr "x") f; MkTreeEntry TFile (bstr "y") f];
  '(s, d') ← in_memory_write_object s Tree sub';
  top ← encode_tree [MkTreeEntry TFile (bstr "a") f; MkTreeEntry TTree (bstr "a.d") d;
                     MkTreeEntry TSymlink (bstr "b") f];
  '(s, old) ← in_memory_write_object s Tree top;
  top' ← encode_tree [MkTreeEntry TExecutable (bstr "a") f; MkTreeEntry TTree (bstr "a.d") d';
                      MkTreeEntry TFile (bstr "c") f];
  '(s, new) ← in_memory_write_object s Tree top';
  Ok (s, old, new).

Definition twin_store : InMemoryObjectStore :=
  match two_trees with Ok (s, _, _) => s | _ => sample_store end.

Definition twin_old : ObjectId := match two_trees with Ok (_, i, _) => i | _ => sample_id Sha1 0 end.

Definition twin_new : ObjectId := match two_trees with Ok (_, _, i) => i | _ => sample_id Sha1 0 end.

Definition twin_files (i : ObjectId) : list IndexEntry :=
  match read_tree twin_store i with
  | Ok es => match flatten 20 twin_store [] es with Some (L, _) => L | None => [] end
  | _ => []
  end.

Lemma twin_expands i n :
  match read_tree twin_store i with
  | Ok es => trees_check TreeRead.in_order 3 twin_store es = true /\ (snd <$> flatten 20 twin_store [] es) = Some n
  | _ => False
  end -> expands twin_store (Some i) (twin_files i) n.
Proof.
  unfold twin_files, expands. destruct (read_tree twin_store i) as [es|e| |]; [|done..].
  destruct (flatten 20 twin_store [] es) as [[L n']|] eqn:E; intros [Hc Hn]; [|done]. injection Hn as <-.
  exists es. split; [done|]. split; [|by eapply flatten_ok].
  apply (trees_check_ok _ TreeRead.in_order 3); [apply in_order_ok|done].
Qed.

Lemma twin_old_expands : expands twin_store (Some twin_old) (twin_files twin_old) 6.
Proof. apply twin_expands. vm_compute. split; reflexivity. Qed.

Lemma twin_new_expands : expands twin_store (Some twin_new) (twin_files twin_new) 7.
Proof. apply twin_expands. vm_compute. split; reflexivity. Qed.

(** A visitor that refuses a deletion: what came before it was visited. *)
Definition no_deletions (entry : TreeDiffEntry) : rd (list bytes) unit := fun seen =>
  if bool_decide (td_status entry = Deleted) then (fail InvalidInput "deleted", seen)
  else (Ok tt, seen ++ [td_path entry]).

Lemma for_each_tree_diff_visits_witness :
  exists cache', for_each_tree_diff (cached_read_tree twin_store) no_deletions 13 tree_cache_new (Some twin_old) twin_new []
    = (fail InvalidInput "deleted", cache', [bstr "a"; bstr "a.d/y"]) /\ tree_cache_ok twin_store cache'.
Proof.
  pose proof (for_each_tree_diff_visits no_deletions twin_store tree_cache_new 13 (Some twin_old) twin_new
    (twin_files twin_old) (twin_files twin_new) 6 7 [] (tree_cache_new_ok twin_store) twin_old_expands twin_new_expands
    ltac:(lia)) as Hv.
  destruct (for_each_tree_diff _ _ _ _ _ _ _) as [[o cache'] v']. destruct Hv as (E & Hc & _).
  exists cache'. split; [|exact Hc]. vm_compute in E. injection E as -> ->. reflexivity.
Defined.

Lemma diff_trees_agrees_witness :
  exists cache' old_index diff,
    diff_trees 13 twin_store tree_cache_new (Some twin_old) twin_new = (Ok diff, cache') /\
    read_tree_to_index 13 twin_store twin_old = Ok old_index /\
    diff_index_to_tree 13 twin_store twin_old (MkGitIndex (twin_files twin_new) []) = Ok (map index_change diff).
Proof.
  destruct (diff_trees_agrees twin_store tree_cache_new 13 (Some twin_old) twin_new
    (twin_files twin_old) (twin_files twin_new) 6 7 (tree_cache_new_ok twin_store) twin_old_expands twin_new_expands
    ltac:(lia)) as (cache' & old_index & diff & E & _ & _ & _ & Eo & Ed).
  exists cache', old_index, diff. split; [exact E|]. split; [exact Eo|exact Ed].
Defined.
