(* ===== verification/DiffRename.v ===== *)
(** * Exact renames and copies *)
From S2P Require Import Prelude Object Order TreeCodec Index Store TreeRead Reader Diff DiffSpec.

(** ** The maps of paths *)

(** The file at a path. *)
Definition holds (es : list IndexEntry) (path : bytes) (identity : IndexMode * ObjectId) : Prop :=
  exists e, e ∈ es /\ ie_path e = path /\ entry_identity e = identity.

Definition map_of (es : list IndexEntry) (m : IdentityMap) : Prop :=
  bt_sorted cmp_bytes m /\ forall path identity, bt_get cmp_bytes path m = Some identity <-> holds es path identity.

Lemma index_map_loop_Ok es : forall m,
  in_order es -> Forall (fun e => ie_stage e = 0%N) es -> bt_sorted cmp_bytes m ->
  exists m', index_map_loop es m = Ok m' /\ bt_sorted cmp_bytes m' /\
    forall path identity, bt_get cmp_bytes path m' = Some identity <->
      holds es path identity \/ ((forall e, e ∈ es -> ie_path e <> path) /\ bt_get cmp_bytes path m = Some identity).
Proof.
  induction es as [|e es IH]; intros m Ho Hs Hm; cbn [index_map_loop].
  - exists m. split; [done|]. split; [done|]. intros path identity. split.
    + intros E. right. split; [|done]. by intros e ?%elem_of_nil.
    + intros [(e & He & _)|[_ E]]; [by apply elem_of_nil in He|done].
  - apply in_order_cons in Ho as [Ho Hlt]. apply Forall_cons in Hs as [He Hs]. rewrite He. cbn [negb check N.eqb].
    rewrite bind_Ok. destruct (IH (bt_insert cmp_bytes (ie_path e) (entry_identity e) m)) as (m' & E & Hm' & Hg);
      [done|done|apply (bt_insert_sorted cmp_bytes); exact Hm|].
    exists m'. split; [done|]. split; [done|]. intros path identity. rewrite Hg.
    assert (Hne : forall x, x ∈ es -> ie_path x <> ie_path e) by (intros x Hx; by apply not_eq_sym, cmp_not_path, Hlt).
    destruct (decide (path = ie_path e)) as [->|Hp].
    + rewrite (bt_get_insert_eq cmp_bytes). split.
      * intros [(e' & H1 & H2 & _)|[_ [= <-]]]; [by destruct (Hne e' H1)|]. left. exists e. split; [by left|done].
      * intros [(e' & [->|H1]%elem_of_cons & H2 & <-)|[Hno _]]; [by right|by destruct (Hne e' H1)|].
        destruct (Hno e); [by left|done].
    + rewrite (bt_get_insert_ne cmp_bytes) by done. split.
      * intros [(e' & H1 & H2)|[Hno E']]; [left; exists e'; split; [by right|done]|]. right. split; [|done].
        intros x [->|Hx]%elem_of_cons; [by apply not_eq_sym|by apply Hno].
      * intros [(e' & [->|H1]%elem_of_cons & H2 & H3)|[Hno E']]; [by destruct Hp|left; by exists e'|].
        right. split; [|done]. intros x Hx. apply Hno. by right.
Qed.

Lemma index_map_Ok index :
  in_order (entries index) -> Forall (fun e => ie_stage e = 0%N) (entries index) ->
  exists m, index_map index = Ok m /\ map_of (entries index) m.
Proof.
  intros Ho Hs. destruct (index_map_loop_Ok (entries index) [] Ho Hs) as (m & E & Hm & Hg); [constructor|].
  exists m. split; [done|]. split; [done|]. intros path identity. rewrite Hg. split; [|by left].
  intros [|[_ ?]]; done.
Qed.

Lemma index_map_staged index :
  ~ Forall (fun e => ie_stage e = 0%N) (entries index) ->
  index_map index = fail InvalidInput "cannot diff an index with unresolved conflicts".
Proof.
  unfold index_map. generalize (@nil (bytes * (IndexMode * ObjectId))).
  induction (entries index) as [|e es IH]; intros m Hs; cbn [index_map_loop]; [by destruct Hs|].
  destruct (N.eqb_spec (ie_stage e) 0) as [E|E]; cbn [negb check]; [|done]. rewrite bind_Ok. apply IH.
  intros Hes. apply Hs. by constructor.
Qed.

(** ** The pairs of a rename *)

Section pairs.
Context (om nm : IdentityMap) (added : list IndexDiffEntry).

(** A pair of paths with the same file. *)
Definition same_file (paths : bytes * bytes) : Prop := exists identity,
  bt_get cmp_bytes paths.1 om = Some identity /\ bt_get cmp_bytes paths.2 nm = Some identity.

Record pairs_of (deleted : list IndexDiffEntry) (taken : list bytes) (pairs : list (bytes * bytes)) : Prop := {
  po_old : sublist pairs.*1 (map de_path deleted);
  po_new : forall paths, paths ∈ pairs -> paths.2 ∈ map de_path added /\ same_file paths;
  po_NoDup : NoDup (taken ++ pairs.*2);
  po_max : forall d a, d ∈ deleted -> a ∈ added -> de_path d ∉ pairs.*1 ->
    same_file (de_path d, de_path a) -> de_path a ∈ taken ++ pairs.*2
}.

Lemma rename_loop_pairs deleted : forall renamed, NoDup renamed.*2 ->
  exists pairs, rename_loop om nm added deleted renamed = renamed ++ pairs /\ pairs_of deleted renamed.*2 pairs.
Proof.
  induction deleted as [|d deleted IH]; intros renamed Hnd; cbn [rename_loop].
  - exists []. split; [by rewrite app_nil_r|]. split; cbn [fmap list_fmap map app]; rewrite ?app_nil_r; [constructor|..].
    + by intros paths ?%elem_of_nil.
    + done.
    + by intros x a ?%elem_of_nil.
  - set (found := match bt_get cmp_bytes (de_path d) om with Some _ => _ | None => _ end).
    assert (Hf : match found with
      | Some paths => paths.1 = de_path d /\ paths.2 ∈ map de_path added /\ same_file paths /\ (paths.2 ∉ renamed.*2)
      | None => forall a, a ∈ added -> same_file (de_path d, de_path a) -> de_path a ∈ renamed.*2
      end).
    { unfold found. destruct (bt_get cmp_bytes (de_path d) om) as [i|] eqn:Ei.
      - destruct (list_find _ added) as [[k a]|] eqn:Ea.
        + apply list_find_Some in Ea as (Ea & [Hn Hi] & _). cbn [fst snd]. split; [done|]. split; [|split; [by exists i|done]].
          change (map de_path added) with (de_path <$> added). apply list_elem_of_fmap. exists a. split; [done|].
          by eapply list_elem_of_lookup_2.
        + intros a Ha (i' & H1 & H2). cbn [fst snd] in *. apply list_find_None in Ea. rewrite Forall_forall in Ea.
          specialize (Ea a Ha). destruct (decide (de_path a ∈ renamed.*2)); [done|]. destruct Ea. split; [done|congruence].
      - intros a Ha (i' & H1 & H2). cbn [fst] in H1. congruence. }
    clearbody found. destruct found as [paths|].
    + destruct Hf as (E1 & Hin & Hsame & Hnew). destruct (IH (renamed ++ [paths])) as (pairs & E & [P1 P2 P3 P4]).
      { rewrite fmap_app. apply NoDup_app. split; [done|]. split; [|apply NoDup_singleton].
        intros x Hx ->%list_elem_of_singleton. done. }
      exists (paths :: pairs). rewrite E, <- app_assoc. split; [done|].
      rewrite fmap_app, <- app_assoc in P3, P4. split; [|..|exact P3|].
      * cbn [fmap list_fmap map]. rewrite <- E1. by apply sublist_skip.
      * intros x [->|Hx]%elem_of_cons; [done|by apply P2].
      * intros x a [->|Hx]%elem_of_cons Ha Hno; [|intros Hs]; cbn [fmap list_fmap map] in Hno; rewrite not_elem_of_cons in Hno.
        -- by destruct Hno as [[] _].
        -- apply (P4 x a); tauto.
    + destruct (IH renamed Hnd) as (pairs & E & [P1 P2 P3 P4]). exists pairs. rewrite E. split; [done|].
      split; [by apply sublist_cons|done|done|]. intros x a [->|Hx]%elem_of_cons Ha Hno Hs; [|by apply (P4 x a)].
      apply elem_of_app. left. by apply Hf.
Qed.
End pairs.

(** ** The copies *)

Definition copied_entry (source : bytes -> option bytes) (added_paths : list bytes) (d : IndexDiffEntry)
  : IndexDiffEntry :=
  if decide (de_status d = Added /\ de_path d ∈ added_paths) then
    match source (de_path d) with
    | Some source_path => MkDiff Copied (de_path d) (Some source_path) (Some 100%N)
    | None => d
    end
  else d.

Lemma copied_path source ps d : de_path (copied_entry source ps d) = de_path d.
Proof. unfold copied_entry. destruct (decide _); [|done]. by destruct (source (de_path d)). Qed.

Lemma copied_sorted source ps l :
  strictly_sorted de_path cmp_bytes l -> strictly_sorted de_path cmp_bytes (map (copied_entry source ps) l).
Proof.
  unfold strictly_sorted. induction 1 as [|d l Hl IH Hlt]; [constructor|]. cbn [map]. constructor; [done|]. apply Forall_map.
  eapply Forall_impl; [exact Hlt|]. intros x. by rewrite !copied_path.
Qed.

Lemma mark_copied_map p source_path diff : NoDup (map de_path diff) ->
  mark_copied p source_path diff
  = map (fun d => if decide (de_status d = Added /\ de_path d = p)
                  then MkDiff Copied (de_path d) (Some source_path) (Some 100%N) else d) diff.
Proof.
  induction diff as [|d diff IH]; [done|]. cbn [map mark_copied]. intros [Hni Hnd]%NoDup_cons.
  destruct (decide (de_status d = Added /\ de_path d = p)) as [[Hs Hp]|Hd]; [|by rewrite IH].
  f_equal. rewrite <- (map_id diff) at 1. apply map_ext_in. intros x Hx%list_elem_of_In.
  rewrite decide_False; [done|]. intros [_ E]. apply Hni. rewrite Hp, <- E.
  change (de_path x ∈ de_path <$> diff). by apply list_elem_of_fmap_2.
Qed.

Section copies.
Context (om nm : IdentityMap) (changed : list bytes) (harder : bool).

Definition source_of (added_path : bytes) : option bytes :=
  match bt_get cmp_bytes added_path nm with
  | Some added_identity => copy_source om changed harder added_identity
  | None => None
  end.

Lemma copy_loop_map ps : forall diff, NoDup (map de_path diff) ->
  copy_loop om nm changed harder ps diff = map (copied_entry source_of ps) diff.
Proof.
  induction ps as [|p ps IH]; intros diff Hnd; cbn [copy_loop].
  - rewrite <- (map_id diff) at 1. apply map_ext. intros d. unfold copied_entry.
    rewrite decide_False; [done|]. by intros [_ ?%elem_of_nil].
  - change (match bt_get cmp_bytes p nm with Some i => copy_source om changed harder i | None => None end) with (source_of p).
    destruct (source_of p) as [src|] eqn:Es.
    + rewrite IH; rewrite mark_copied_map by done.
      * rewrite map_map. apply map_ext. intros d. unfold copied_entry.
        destruct (decide (de_status d = Added /\ de_path d = p)) as [[Hs Hp]|Hd]; cbn [de_status de_path].
        -- rewrite (decide_False (P := Copied = Added /\ _)) by (by intros []). rewrite decide_True by (split; [done|rewrite Hp; by left]).
           by rewrite Hp, Es.
        -- destruct (decide (de_status d = Added /\ de_path d ∈ ps)) as [[Hs Hin]|Hno].
           ++ rewrite decide_True by (split; [done|by right]). done.
           ++ rewrite decide_False; [done|]. intros [Hs [Hp|Hin]%elem_of_cons]; tauto.
      * rewrite map_map. erewrite map_ext; [exact Hnd|]. intros d. by destruct (decide _).
    + rewrite IH by done. apply map_ext. intros d. unfold copied_entry.
      destruct (decide (de_status d = Added /\ de_path d ∈ ps)) as [[Hs Hin]|Hno].
      * rewrite decide_True by (split; [done|by right]). done.
      * destruct (decide (de_status d = Added /\ de_path d ∈ p :: ps)) as [[Hs [Hp|Hin]%elem_of_cons]|]; [|tauto|done].
        by rewrite Hp, Es.
Qed.

(** A source is an old file with the same content, changed unless any will do. *)
Lemma source_of_Some old new p src : map_of old om -> map_of new nm -> source_of p = Some src ->
  exists identity, holds new p identity /\ holds old src identity /\ (harder = true \/ src ∈ changed).
Proof.
  intros [Hso Ho] [_ Hn]. unfold source_of, copy_source. destruct (bt_get cmp_bytes p nm) as [i|] eqn:Ei; [|done].
  destruct (list_find _ om) as [[k [path i']]|] eqn:E; [|done]. intros [= <-].
  apply list_find_Some in E as (Hk & [-> Hc] & _). exists i. split; [by apply Hn|]. split; [|done].
  apply Ho. apply (bt_get_elem cmp_bytes); [done|]. by eapply list_elem_of_lookup_2.
Qed.

Lemma source_of_None old new p src i : map_of old om -> map_of new nm -> source_of p = None ->
  holds new p i -> holds old src i -> harder = false /\ (src ∉ changed).
Proof.
  intros [Hso Ho] [_ Hn]. unfold source_of, copy_source. intros E Hp%Hn Hs%Ho. rewrite Hp in E.
  apply (bt_get_elem cmp_bytes) in Hs; [|done].
  destruct (list_find _ om) as [[k [path i']]|] eqn:Ef; [done|]. apply list_find_None in Ef. rewrite Forall_forall in Ef.
  specialize (Ef (src, i) Hs). cbn in Ef. destruct harder.
  - destruct Ef. split; [done|by left].
  - split; [done|]. intros Hc. apply Ef. split; [done|by right].
Qed.
End copies.

(** ** What the difference with renames and copies says *)

Definition plain (status : IndexDiffStatus) (path : bytes) : IndexDiffEntry := MkDiff status path None None.

Definition copied_diff (paths : bytes * bytes) : IndexDiffEntry :=
  MkDiff Copied paths.2 (Some paths.1) (Some 100%N).

(** A path of [es] that [es'] does not have. *)
Definition only_in (es es' : list IndexEntry) (path : bytes) : Prop :=
  (exists e, e ∈ es /\ ie_path e = path) /\ forall e, e ∈ es' -> ie_path e <> path.

Record exact_diff (old new : list IndexEntry) (harder : bool) (diff : list IndexDiffEntry) : Prop := {
  xd_sorted : strictly_sorted de_path cmp_bytes diff;
  xd_form : forall d, d ∈ diff ->
    (exists status, status ∈ [Added; Deleted; Modified] /\ d = plain status (de_path d)) \/
    exists paths, d = renamed_diff paths \/ d = copied_diff paths;
  xd_modified : forall p, plain Modified p ∈ diff <-> exists i j, holds old p i /\ holds new p j /\ i <> j;
  xd_deleted : forall q, only_in old new q <-> plain Deleted q ∈ diff \/ exists p, renamed_diff (q, p) ∈ diff;
  xd_added : forall p, only_in new old p <->
    plain Added p ∈ diff \/ exists q, renamed_diff (q, p) ∈ diff \/ copied_diff (q, p) ∈ diff;
  xd_renamed : forall q p, renamed_diff (q, p) ∈ diff ->
    (exists i, holds old q i /\ holds new p i) /\ (plain Deleted q ∉ diff) /\
    forall p', renamed_diff (q, p') ∈ diff -> p' = p;
  xd_copied : forall q p, copied_diff (q, p) ∈ diff ->
    (exists i, holds old q i /\ holds new p i) /\ (harder = true \/ plain Modified q ∈ diff);
  xd_renames_left : forall q p i, plain Deleted q ∈ diff -> holds old q i -> holds new p i -> only_in new old p ->
    exists q', renamed_diff (q', p) ∈ diff;
  xd_copies_left : forall q p i, plain Added p ∈ diff -> holds new p i -> holds old q i ->
    harder = false /\ (plain Modified q ∉ diff)
}.

Section exact.
Context (old new : list IndexEntry) (Ho : in_order old) (Hn : in_order new).

#[local] Abbreviation diff := (map index_change (changes old new)).

Lemma diff_elem d : d ∈ diff <-> exists t, change_of old new t /\ d = index_change t.
Proof.
  change diff with (index_change <$> changes old new). rewrite list_elem_of_fmap.
  split; intros (t & H1 & H2); exists t; rewrite ?changes_elem in * by done; tauto.
Qed.

Lemma diff_deleted q : plain Deleted q ∈ diff <-> only_in old new q.
Proof.
  rewrite diff_elem. split.
  - intros (t & [o Hin Hp|n Hin Hp|o n Hin Hin' Hp Hi] & E); try done. injection E as ->. split; [by exists o|done].
  - intros [(o & Hin & <-) Hp]. exists (deletion o). split; [by constructor|done].
Qed.

Lemma diff_added p : plain Added p ∈ diff <-> only_in new old p.
Proof.
  rewrite diff_elem. split.
  - intros (t & [o Hin Hp|n Hin Hp|o n Hin Hin' Hp Hi] & E); try done. injection E as ->. split; [by exists n|done].
  - intros [(n & Hin & <-) Hp]. exists (addition n). split; [by constructor|done].
Qed.

Lemma diff_modified p : plain Modified p ∈ diff <-> exists i j, holds old p i /\ holds new p j /\ i <> j.
Proof.
  rewrite diff_elem. split.
  - intros (t & [o Hin Hp|n Hin Hp|o n Hin Hin' Hp Hi] & E); try done. injection E as ->.
    exists (entry_identity o), (entry_identity n). split; [by exists o|]. split; [by exists n|done].
  - intros (i & j & (o & H1 & H2 & <-) & (n & H3 & H4 & <-) & Hne). exists (modification o n).
    split; [constructor; congruence|by rewrite <- H4].
Qed.

Lemma diff_form d : d ∈ diff -> exists status, status ∈ [Added; Deleted; Modified] /\ d = plain status (de_path d).
Proof.
  intros (t & [o Hin Hp|n Hin Hp|o n Hin Hin' Hp Hi] & ->)%diff_elem; eexists; (split; [|reflexivity]);
    rewrite !elem_of_cons; tauto.
Qed.

Lemma diff_NoDup : NoDup (map de_path diff).
Proof.
  rewrite map_map. change (NoDup (td_path <$> changes old new)).
  apply (strictly_sorted_NoDup td_path cmp_bytes). by apply changes_sorted.
Qed.

(** Two entries with the same path are the same entry. *)
Lemma NoDup_path (l : list IndexDiffEntry) d d' : NoDup (map de_path l) -> d ∈ l -> d' ∈ l -> de_path d = de_path d' -> d = d'.
Proof.
  intros Hnd (k & Hk)%list_elem_of_lookup (k' & Hk')%list_elem_of_lookup E.
  assert (k = k') as ->; [|congruence]. apply (NoDup_lookup (de_path <$> l) k k' (de_path d)); [done|..]; rewrite list_lookup_fmap.
  - by rewrite Hk.
  - rewrite Hk'. cbn. by rewrite E.
Qed.

Context (om nm : IdentityMap) (Hom : map_of old om) (Hnm : map_of new nm).

Lemma same_file_holds q p : same_file om nm (q, p) <-> exists i, holds old q i /\ holds new p i.
Proof. destruct Hom as [_ H1], Hnm as [_ H2]. unfold same_file. cbn [fst snd]. by setoid_rewrite H1; setoid_rewrite H2. Qed.

Lemma with_status_elem status p : plain status p ∈ diff <-> p ∈ map de_path (with_status status diff).
Proof.
  change (map de_path ?l) with (de_path <$> l). unfold with_status. rewrite list_elem_of_fmap. split.
  - intros Hin. exists (plain status p). split; [done|]. by apply list_elem_of_filter.
  - intros (d & -> & [Hs Hd]%list_elem_of_filter). destruct (diff_form d Hd) as (status' & _ & E).
    rewrite E in Hd, Hs. cbn in Hs. by subst.
Qed.

(** The pairs found. *)
Context (pairs : list (bytes * bytes)).
Context (Hpairs : pairs_of om nm (with_status Added diff) (with_status Deleted diff) [] pairs).

#[local] Abbreviation kept := (filter (fun entry =>
    ~ ((de_status entry = Deleted /\ de_path entry ∈ pairs.*1) \/
       (de_status entry = Added /\ de_path entry ∈ pairs.*2))) diff).

#[local] Abbreviation renamed := (sort_by (by_key de_path cmp_bytes) (kept ++ map renamed_diff pairs)).

Lemma pair_paths q p : (q, p) ∈ pairs -> only_in old new q /\ only_in new old p /\ exists i, holds old q i /\ holds new p i.
Proof.
  intros Hin. destruct Hpairs as [P1 P2 _ _]. destruct (P2 _ Hin) as [Hp Hs]. split; [|split].
  - apply diff_deleted, with_status_elem. eapply elem_of_sublist; [|exact P1]. change q with ((q, p).1). by apply list_elem_of_fmap_2.
  - by apply diff_added, with_status_elem.
  - by apply same_file_holds.
Qed.

Lemma kept_elem d : d ∈ kept <-> d ∈ diff /\ ~ (de_status d = Deleted /\ de_path d ∈ pairs.*1) /\
  ~ (de_status d = Added /\ de_path d ∈ pairs.*2).
Proof. rewrite list_elem_of_filter. tauto. Qed.

Lemma renamed_elem d : d ∈ renamed <-> d ∈ kept \/ exists paths, paths ∈ pairs /\ d = renamed_diff paths.
Proof.
  rewrite (sort_by_perm de_path cmp_bytes), elem_of_app. change (map renamed_diff pairs) with (renamed_diff <$> pairs).
  rewrite list_elem_of_fmap. naive_solver.
Qed.

Lemma renamed_NoDup : NoDup (map de_path renamed).
Proof.
  change (map de_path ?l) with (de_path <$> l). rewrite (sort_by_perm de_path cmp_bytes), fmap_app.
  destruct Hpairs as [_ _ P3 _]. cbn [app] in P3. apply NoDup_app. split; [|split].
  - eapply sublist_NoDup; [apply diff_NoDup|]. change (map de_path diff) with (de_path <$> diff). apply fmap_sublist, sublist_filter.
  - intros p (d & -> & [Hd [_ Hno]]%kept_elem)%list_elem_of_fmap Hp. change (map renamed_diff pairs) with (renamed_diff <$> pairs) in Hp.
    rewrite <- list_fmap_compose in Hp. apply list_elem_of_fmap in Hp as ([q p] & Ep & Hin). cbn in Ep.
    destruct (pair_paths q p Hin) as (_ & Ha & _). apply diff_added in Ha. rewrite <- Ep in Ha.
    apply Hno. rewrite (NoDup_path diff d (plain Added (de_path d)) diff_NoDup Hd Ha eq_refl). split; [done|].
    cbn [plain de_path]. rewrite Ep. change p with ((q, p).2). by apply list_elem_of_fmap_2.
  - change (map renamed_diff pairs) with (renamed_diff <$> pairs). by rewrite <- list_fmap_compose.
Qed.

Lemma renamed_sorted : strictly_sorted de_path cmp_bytes renamed.
Proof. apply weakly_sorted_strict; [apply _|apply sort_by_sorted; apply _|apply renamed_NoDup]. Qed.

Lemma renamed_plain status p : plain status p ∈ renamed <->
  plain status p ∈ diff /\ ~ (status = Deleted /\ p ∈ pairs.*1) /\ ~ (status = Added /\ p ∈ pairs.*2).
Proof.
  rewrite renamed_elem, kept_elem. cbn [plain de_status de_path]. split; [|by left].
  by intros [?|(paths & _ & ?)].
Qed.

Lemma renamed_pair q p : renamed_diff (q, p) ∈ renamed <-> (q, p) ∈ pairs.
Proof.
  rewrite renamed_elem. split; [|by right; exists (q, p)]. intros [[Hd _]%kept_elem|([q' p'] & Hin & E)].
  - destruct (diff_form _ Hd) as (status & _ & ?). done.
  - by injection E as -> ->.
Qed.

Lemma renamed_form d : d ∈ renamed ->
  (exists status, status ∈ [Added; Deleted; Modified] /\ d = plain status (de_path d)) \/ exists paths, d = renamed_diff paths.
Proof. intros [[Hd _]%kept_elem|(paths & _ & ->)]%renamed_elem; [left; by apply diff_form|right; by exists paths]. Qed.

Lemma pairs_left q p : plain Deleted q ∈ renamed -> only_in new old p -> (exists i, holds old q i /\ holds new p i) -> p ∈ pairs.*2.
Proof.
  intros [Hd [Hno _]]%renamed_plain Hp%diff_added Hs. destruct Hpairs as [_ _ _ P4].
  apply (P4 (plain Deleted q) (plain Added p)); unfold with_status; rewrite ?list_elem_of_filter; [done|done| |by apply same_file_holds].
  intros Hq. by apply Hno.
Qed.

(** *** The copies among what is left *)

Context (harder : bool).

#[local] Abbreviation added_left := (map de_path (with_status Added renamed)).
#[local] Abbreviation changed := (map de_path (filter (fun entry => is_changed (de_status entry) = true) renamed)).
#[local] Abbreviation source := (source_of om nm changed harder).
#[local] Abbreviation final := (map (copied_entry source added_left) renamed).

Lemma changed_elem q : q ∈ changed <-> plain Deleted q ∈ renamed \/ plain Modified q ∈ renamed.
Proof.
  change (map de_path ?l) with (de_path <$> l). rewrite list_elem_of_fmap. split.
  - intros (d & -> & [Hc Hd]%list_elem_of_filter). destruct (renamed_form d Hd) as [(status & _ & E)|([q p] & ->)]; [|done].
    rewrite E in Hc, Hd. cbn in Hc. destruct status; try done; tauto.
  - intros [Hd|Hd]; eexists; (split; [|apply list_elem_of_filter; split; [|exact Hd]; done]); done.
Qed.

Lemma final_plain status p : plain status p ∈ final <-> plain status p ∈ renamed /\ (status = Added -> source p = None).
Proof.
  change final with (copied_entry source added_left <$> renamed). rewrite list_elem_of_fmap. split.
  - intros (d & E & Hd). unfold copied_entry in E. destruct (decide _) as [[Hs _]|Hno].
    + destruct (source (de_path d)) eqn:Es; [done|]. subst d. split; [done|]. by intros _.
    + subst d. split; [done|]. intros ->. destruct Hno. split; [done|]. change (map de_path ?l) with (de_path <$> l).
      apply list_elem_of_fmap. exists (plain Added p). split; [done|]. by apply list_elem_of_filter.
  - intros [Hd Hs]. exists (plain status p). split; [|done]. unfold copied_entry.
    destruct (decide _) as [[Ha _]|]; [|done]. cbn [plain de_status de_path] in *. by rewrite Hs.
Qed.

Lemma final_pair q p : renamed_diff (q, p) ∈ final <-> (q, p) ∈ pairs.
Proof.
  rewrite <- renamed_pair. change final with (copied_entry source added_left <$> renamed). rewrite list_elem_of_fmap. split.
  - intros (d & E & Hd). unfold copied_entry in E. destruct (decide _) as [[Hs _]|]; [|by subst].
    destruct (source (de_path d)); [done|]. by subst d.
  - intros Hd. exists (renamed_diff (q, p)). split; [|done]. unfold copied_entry. by destruct (decide _) as [[? _]|].
Qed.

Lemma final_copied q p : copied_diff (q, p) ∈ final <-> plain Added p ∈ renamed /\ source p = Some q.
Proof.
  change final with (copied_entry source added_left <$> renamed). rewrite list_elem_of_fmap. split.
  - intros (d & E & Hd). unfold copied_entry in E. destruct (renamed_form d Hd) as [(status & _ & Ed)|([q' p'] & ->)].
    + destruct (decide _) as [[Hs _]|]; [|by rewrite Ed in E]. destruct (source (de_path d)) eqn:Es; [|by rewrite Ed in E].
      injection E as -> ->. rewrite Ed in Hs. cbn in Hs. subst status. by rewrite <- Ed.
    + by destruct (decide _) as [[? _]|].
  - intros [Hd Hs]. exists (plain Added p). split; [|done]. unfold copied_entry. rewrite decide_True.
    + cbn [plain de_path]. by rewrite Hs.
    + split; [done|]. change (map de_path ?l) with (de_path <$> l). apply list_elem_of_fmap.
      exists (plain Added p). split; [done|]. by apply list_elem_of_filter.
Qed.

Lemma final_sorted : strictly_sorted de_path cmp_bytes final.
Proof. apply copied_sorted, renamed_sorted. Qed.

Lemma final_form d : d ∈ final ->
  (exists status, status ∈ [Added; Deleted; Modified] /\ d = plain status (de_path d)) \/
  exists paths, d = renamed_diff paths \/ d = copied_diff paths.
Proof.
  change final with (copied_entry source added_left <$> renamed). intros (d' & -> & Hd)%list_elem_of_fmap.
  unfold copied_entry. destruct (decide _) as [_|_].
  - destruct (source (de_path d')) as [q|]; [right; exists (q, de_path d'); by right|].
    destruct (renamed_form d' Hd) as [?|(paths & ->)]; [by left|right; exists paths; by left].
  - destruct (renamed_form d' Hd) as [?|(paths & ->)]; [by left|right; exists paths; by left].
Qed.

Lemma final_exact : exact_diff old new harder final.
Proof.
  split.
  - apply final_sorted.
  - apply final_form.
  - intros p. rewrite final_plain, renamed_plain, diff_modified. naive_solver.
  - intros q. rewrite final_plain, renamed_plain, diff_deleted. setoid_rewrite final_pair. split.
    + intros Hq. destruct (decide (q ∈ pairs.*1)) as [([q' p] & -> & Hin)%list_elem_of_fmap|Hno]; [right; by exists p|left; naive_solver].
    + intros [((? & _) & _)|(p & Hin)]; [done|by apply (pair_paths q p)].
  - intros p. rewrite final_plain, renamed_plain, diff_added. setoid_rewrite final_pair. setoid_rewrite final_copied. split.
    + intros Hp. destruct (decide (p ∈ pairs.*2)) as [([q p'] & -> & Hin)%list_elem_of_fmap|Hno]; [right; exists q; by left|].
      assert (Hr : plain Added p ∈ renamed) by (apply renamed_plain; rewrite diff_added; naive_solver).
      destruct (source p) as [q|] eqn:Es; [right; exists q; by right|left; naive_solver].
    + intros [((? & _) & _)|(q & [Hin|[Hr _]])]; [done|by apply (pair_paths q p)|].
      apply renamed_plain in Hr as [Hr _]. by apply diff_added.
  - intros q p Hin%final_pair. split; [by apply (pair_paths q p)|]. split.
    + intros [[_ [Hno _]]%renamed_plain _]%final_plain. apply Hno. split; [done|]. change q with ((q, p).1). by apply list_elem_of_fmap_2.
    + intros p' Hin'%final_pair. destruct Hpairs as [P1 _ _ _].
      assert (Hnd : NoDup pairs.*1) by (eapply sublist_NoDup; [|exact P1]; eapply sublist_NoDup; [apply diff_NoDup|]; apply fmap_sublist, sublist_filter).
      assert (E : (q, p') = (q, p)); [|congruence]. apply list_elem_of_lookup in Hin as [k Hk], Hin' as [k' Hk'].
      assert (k = k') as ->; [|congruence]. apply (NoDup_lookup pairs.*1 k k' q); [done|by rewrite list_lookup_fmap, Hk|by rewrite list_lookup_fmap, Hk'].
  - intros q p [Hr Hs]%final_copied. destruct (source_of_Some om nm changed harder old new p q Hom Hnm Hs) as (i & Hp & Hq & Hc).
    split; [by exists i|]. destruct Hc as [?|[Hd|Hm]%changed_elem]; [by left| |right; apply final_plain; by split].
    apply renamed_plain in Hr as [Ha%diff_added [_ Hno]]. destruct Hno. split; [done|]. apply (pairs_left q); [done|done|by exists i].
  - intros q p i [Hd _]%final_plain Hq Hp Ha. assert (Hin : p ∈ pairs.*2) by (apply (pairs_left q); [done|done|by exists i]).
    apply list_elem_of_fmap in Hin as ([q' p'] & -> & Hin). exists q'. by apply final_pair.
  - intros q p i [Hr Hs]%final_plain Hp Hq. destruct (source_of_None om nm changed harder old new p q i Hom Hnm (Hs eq_refl) Hp Hq) as [Hh Hc].
    split; [done|]. intros [Hm _]%final_plain. apply Hc, changed_elem. by right.
Qed.
End exact.

(** C15: the difference with exact renames and copies.  Two indexes without unresolved conflicts always
    have one, in the order of the paths without repetition; every path that one index lacks and every path
    with another file is reported, once, and as what it is.  A rename pairs a path that is gone with a new path with the
    same mode and object, no path is renamed twice, and no pair is left; a copy has a
    source with the same mode and object, modified unless any source will do, and no added path is left
    that has one.  An index with a conflict is refused. *)
Theorem exact_renames_spec old new harder :
  index_strict old -> index_strict new ->
  (Forall (fun e => ie_stage e = 0%N) (entries old ++ entries new) ->
   exists diff, diff_indexes_with_exact_renames_and_copies old new harder = Ok diff /\
     exact_diff (entries old) (entries new) harder diff) /\
  (~ Forall (fun e => ie_stage e = 0%N) (entries old ++ entries new) ->
   diff_indexes_with_exact_renames_and_copies old new harder
   = fail InvalidInput "cannot diff an index with unresolved conflicts").
Proof.
  intros Ho Hn. unfold diff_indexes_with_exact_renames_and_copies. split; intros Hs.
  - pose proof (proj1 (Forall_app _ _ _) Hs) as [Hso Hsn].
    pose proof (index_strict_in_order _ Ho Hso) as Ho'. pose proof (index_strict_in_order _ Hn Hsn) as Hn'.
    destruct (index_map_Ok old Ho' Hso) as (om & Eo & Hom). destruct (index_map_Ok new Hn' Hsn) as (nm & En & Hnm).
    rewrite Eo, En, !bind_Ok, (diff_indexes_changes old new Hs), bind_Ok. cbv zeta. unfold detect_exact_renames.
    set (diff := map index_change _).
    destruct (rename_loop_pairs om nm (with_status Added diff) (with_status Deleted diff) [] NoDup_nil_2) as (pairs & E & Hp).
    rewrite E. cbn [app]. eexists. split; [reflexivity|]. unfold detect_exact_copies.
    rewrite copy_loop_map by by eapply renamed_NoDup. by apply final_exact.
  - destruct (decide (Forall (fun e => ie_stage e = 0%N) (entries old))) as [Hso|Hso]; [|rewrite (index_map_staged old Hso); reflexivity].
    destruct (index_map_Ok old (index_strict_in_order _ Ho Hso) Hso) as (om & Eo & Hom). rewrite Eo, bind_Ok.
    rewrite Forall_app in Hs. assert (Hsn : ~ Forall (fun e => ie_stage e = 0%N) (entries new)) by tauto.
    rewrite (index_map_staged new Hsn). reflexivity.
Qed.

(** ** Witness *)

#[local] Existing Instances sample_sha sample_sha_laws.

Definition copies_old : GitIndex :=
  MkGitIndex [leaf_entry (bstr "a") (sample_id Sha1 1) IFile; leaf_entry (bstr "b") (sample_id Sha1 2) IFile;
              leaf_entry (bstr "d") (sample_id Sha1 2) IFile; leaf_entry (bstr "e") (sample_id Sha1 3) IFile] [].

Definition copies_new : GitIndex :=
  MkGitIndex [leaf_entry (bstr "a") (sample_id Sha1 4) IFile; leaf_entry (bstr "a.c") (sample_id Sha1 1) IFile;
              leaf_entry (bstr "c") (sample_id Sha1 2) IFile; leaf_entry (bstr "e") (sample_id Sha1 3) IFile;
              leaf_entry (bstr "f") (sample_id Sha1 3) IFile] [].

Lemma exact_renames_spec_witness :
  exists diff, diff_indexes_with_exact_renames_and_copies copies_old copies_new false = Ok diff /\
    exact_diff (entries copies_old) (entries copies_new) false diff /\
    map (fun d => (de_status d, de_old_path d, de_path d)) diff
    = [(Modified, None, bstr "a"); (Copied, Some (bstr "a"), bstr "a.c"); (Renamed, Some (bstr "b"), bstr "c");
       (Deleted, None, bstr "d"); (Added, None, bstr "f")].
Proof.
  destruct (exact_renames_spec copies_old copies_new false) as [Hok _].
  - apply (windows2_sorted entry_key cmp_key). vm_compute. reflexivity.
  - apply (windows2_sorted entry_key cmp_key). vm_compute. reflexivity.
  - destruct Hok as (diff & E & Hd); [by vm_compute; repeat constructor|]. exists diff. split; [exact E|]. split; [exact Hd|].
    vm_compute in E. injection E as <-. reflexivity.
Defined.
