(* ===== verification/Wildcard.v ===== *)
(** * Wildcards: the matcher of ignore and attribute patterns (ignore.rs and attributes.rs, [wildcard_match]) *)
From S2P Require Import Prelude.

(** ** Definitions *)

Definition star : byte := "*"%byte.

(** The main loop: [None] when the code returns false, else the index it leaves the pattern at. *)
Fixpoint wildcard_loop (fuel : nat) (pattern text : bytes) (pattern_idx text_idx : nat) (star_idx : option nat) (star_text_idx : nat)
  : outcome (option nat) :=
  match fuel with
  | 0 => NoFuel
  | S fuel =>
      match text !! text_idx with
      | None => Ok (Some pattern_idx)
      | Some b =>
          if match pattern !! pattern_idx with Some c => byte_is "?"%byte c || byte_is b c | None => false end then
            wildcard_loop fuel pattern text (S pattern_idx) (S text_idx) star_idx star_text_idx
          else if match pattern !! pattern_idx with Some c => byte_is star c | None => false end then
            wildcard_loop fuel pattern text (S pattern_idx) text_idx (Some pattern_idx) text_idx
          else
            match star_idx with
            | Some star => wildcard_loop fuel pattern text (S star) (S star_text_idx) star_idx (S star_text_idx)
            | None => Ok None
            end
      end
  end.

(** The last loop, over the stars that are left. *)
Fixpoint skip_stars (rest : bytes) (pattern_idx : nat) : nat :=
  match rest with
  | c :: rest => if byte_is star c then skip_stars rest (S pattern_idx) else pattern_idx
  | [] => pattern_idx
  end.

(** Every backtrack moves the star one byte on, and every other step moves the pattern. *)
Definition wildcard_fuel (pattern text : bytes) : nat := S (S (length text) * S (length pattern)).

Definition wildcard_match (pattern text : bytes) : outcome bool :=
  left ← wildcard_loop (wildcard_fuel pattern text) pattern text 0 0 None 0;
  Ok (match left with
      | Some pattern_idx => skip_stars (drop pattern_idx pattern) pattern_idx =? length pattern
      | None => false
      end).

(** ** What a pattern means *)

Inductive globs : bytes -> bytes -> Prop :=
  | globs_nil : globs [] []
  | globs_byte c p t : c <> star -> globs p t -> globs (c :: p) (c :: t)
  | globs_any b p t : globs p t -> globs ("?"%byte :: p) (b :: t)
  | globs_star p t1 t2 : globs p t2 -> globs (star :: p) (t1 ++ t2).

(** A byte of a pattern that is not a star takes one byte. *)
Definition takes (c b : byte) : bool := byte_is "?"%byte c || byte_is b c.

Lemma globs_cons_inv c p t : c <> star -> globs (c :: p) t -> exists b t', t = b :: t' /\ takes c b = true /\ globs p t'.
Proof.
  intros Hc Hg. inversion Hg as [|c' p' t' _ Hg'|b p' t' Hg'|p' t1 t2 Hg']; subst; [..|done].
  - exists c, t'. split; [done|]. split; [|done]. unfold takes, byte_is. by rewrite (byte_eqb_refl c), orb_true_r.
  - by exists b, t'.
Qed.

Lemma globs_cons c b p t : b <> star -> takes c b = true -> globs p t -> globs (c :: p) (b :: t).
Proof.
  intros Hb Ht Hg. unfold takes, byte_is in Ht. apply orb_true_iff in Ht as [E|E].
  - destruct (byte_eqb_spec c "?"%byte) as [->|]; [by constructor|done].
  - destruct (byte_eqb_spec c b) as [->|]; [by constructor|done].
Qed.

Lemma globs_star_inv p t : globs (star :: p) t <-> exists k, k <= length t /\ globs p (drop k t).
Proof.
  split.
  - intros Hg. inversion Hg as [|c' p' t' Hc|b p' t' Hg'|p' t1 t2 Hg']; subst; [done|].
    exists (length t1). rewrite length_app, drop_app_length. split; [lia|done].
  - intros (k & _ & Hg). pose proof (globs_star p (take k t) (drop k t) Hg) as Hs. by rewrite take_drop in Hs.
Qed.

(** Bytes that are not stars take as many bytes as they are. *)
Lemma globs_segment seg p t : star ∉ seg -> globs (seg ++ p) t -> length seg <= length t /\ globs p (drop (length seg) t).
Proof.
  revert t. induction seg as [|c seg IH]; intros t Hs Hg; [split; [cbn; lia|done]|].
  apply not_elem_of_cons in Hs as [Hc Hs]. apply globs_cons_inv in Hg as (b & t' & -> & _ & Hg); [|by apply not_eq_sym].
  apply IH in Hg as [Hl Hg]; [|done]. cbn. split; [lia|done].
Qed.

(** ** The loop *)

Lemma skip_stars_spec rest n : (skip_stars rest n =? n + length rest) = true <-> globs rest [].
Proof.
  revert n. induction rest as [|c rest IH]; intros n; cbn [skip_stars length].
  { rewrite Nat.add_0_r, Nat.eqb_refl. split; [constructor|done]. }
  destruct (byte_is star c) eqn:E.
  - unfold byte_is in E. destruct (byte_eqb_spec c star) as [->|]; [|done]. replace (n + S (length rest)) with (S n + length rest) by lia.
    rewrite IH. split; [intros Hg; by apply (globs_star _ [] [])|]. intros (k & Hk & Hg)%globs_star_inv. by rewrite drop_nil in Hg.
  - split; [intros E2%Nat.eqb_eq; lia|]. intros Hg. inversion Hg as [| | |p t1 t2 Hg' E1 E2]; subst. by rewrite byte_is_refl in E.
Qed.

Lemma skip_stars_ge rest n : n <= skip_stars rest n.
Proof. revert n. induction rest as [|c rest IH]; intros n; cbn; [lia|]. destruct (byte_is star c); [|lia]. specialize (IH (S n)). lia. Qed.

Section loop.
Context (pattern text : bytes) (Htext : star ∉ text).

(** The bytes of the pattern after the last star have been matched, and are not stars. *)
Definition star_inv (p t : nat) (star_idx : option nat) (st : nat) : Prop :=
  match star_idx with
  | Some s => s < p /\ st <= t /\ p - S s = t - st /\ star ∉ take (p - S s) (drop (S s) pattern)
  | None => st = 0
  end.

(** Later places for the last star. *)
Definition later (star_idx : option nat) (st : nat) : Prop :=
  match star_idx with
  | Some s => exists k, st < k <= length text /\ globs (drop (S s) pattern) (drop k text)
  | None => False
  end.

Definition measure (p : nat) (star_idx : option nat) (st : nat) : nat :=
  (length text - st) * S (length pattern) + (length pattern - p).

Lemma loop_step_byte p t star_idx st c b : pattern !! p = Some c -> text !! t = Some b -> takes c b = true ->
  star_inv p t star_idx st -> star_inv (S p) (S t) star_idx st.
Proof.
  intros Hc Hb Ht. unfold star_inv. destruct star_idx as [s|]; [|done]. intros (H1 & H2 & H3 & H4). split_and!; [lia..|].
  replace (S p - S s) with (S (p - S s)) by lia. rewrite (take_S_r _ _ c) by (rewrite lookup_drop; by replace (S s + (p - S s)) with p by lia).
  rewrite elem_of_app, list_elem_of_singleton. intros [?|<-]; [done|]. unfold takes, byte_is in Ht. apply orb_true_iff in Ht as [Ht|Ht]; [by vm_compute in Ht|].
  destruct (byte_eqb_spec star b) as [<-|]; [|done]. apply Htext. by eapply list_elem_of_lookup_2.
Qed.

(** A new star takes the place of the one before. *)
Lemma new_star p t star_idx st : p < length pattern -> pattern !! p = Some star -> t <= length text -> star_inv p t star_idx st -> later star_idx st ->
  exists k, t < k <= length text /\ globs (drop (S p) pattern) (drop k text).
Proof.
  intros Hp Hs Ht Hi. unfold star_inv in Hi. destruct star_idx as [s|]; [|done]. destruct Hi as (H1 & H2 & H3 & H4). intros (k & Hk & Hg).
  rewrite <- (take_drop (p - S s) (drop (S s) pattern)) in Hg. apply globs_segment in Hg as [Hl Hg]; [|done].
  rewrite drop_drop in Hg. replace (S s + (p - S s)) with p in Hg by lia. rewrite (drop_S _ star) in Hg by done.
  apply globs_star_inv in Hg as (k2 & Hk2 & Hg). rewrite length_take, length_drop in *. rewrite Nat.min_l in * by lia. rewrite !length_drop in *. rewrite !drop_drop in Hg.
  exists (k + ((p - S s) + k2)). split; [lia|]. by replace (k + (p - S s) + k2) with (k + ((p - S s) + k2)) in Hg by lia.
Qed.

(** At the end of the text there is no later place. *)
Lemma no_later p star_idx st : p <= length pattern -> star_inv p (length text) star_idx st -> later star_idx st -> False.
Proof.
  unfold star_inv. intros Hp. destruct star_idx as [s|]; [|done]. intros (H1 & H2 & H3 & H4) (k & Hk & Hg).
  rewrite <- (take_drop (p - S s) (drop (S s) pattern)) in Hg. apply globs_segment in Hg as [Hl _]; [|done].
  rewrite length_take, !length_drop in Hl. lia.
Qed.

Definition accepts (r : option nat) : Prop :=
  match r with Some q => q <= length pattern /\ globs (drop q pattern) [] | None => False end.

Lemma loop_spec fuel : forall p t star_idx st, measure p star_idx st < fuel -> p <= length pattern -> t <= length text -> st <= t ->
  star_inv p t star_idx st ->
  exists r, wildcard_loop fuel pattern text p t star_idx st = Ok r /\
    (accepts r <-> globs (drop p pattern) (drop t text) \/ later star_idx st).
Proof.
  induction fuel as [|fuel IH]; intros p t star_idx st Hf Hp Ht Hst Hi; [lia|]. cbn [wildcard_loop]. unfold measure in *.
  destruct (text !! t) as [b|] eqn:Eb.
  2: { apply lookup_ge_None in Eb. assert (t = length text) as -> by lia. exists (Some p). split; [done|]. rewrite drop_all. cbn [accepts].
       split; [intros [_ ?]; by left|]. intros [?|Hl]; [done|]. by destruct (no_later p star_idx st Hp Hi Hl). }
  pose proof (lookup_lt_Some _ _ _ Eb) as Hlt. rewrite (drop_S _ _ _ Eb).
  assert (Hback : (forall p', globs (drop p pattern) (b :: drop (S t) text) -> p' = p -> False) ->
    exists r, (match star_idx with
               | Some star => wildcard_loop fuel pattern text (S star) (S st) star_idx (S st)
               | None => Ok None
               end) = Ok r /\ (accepts r <-> globs (drop p pattern) (b :: drop (S t) text) \/ later star_idx st)).
  { intros Hno. destruct star_idx as [s|].
    - destruct Hi as (H1 & H2 & H3 & H4). destruct (IH (S s) (S st) (Some s) (S st)) as (r & E & Hr); [nia|lia|lia|lia| |].
      + split_and!; [lia|lia|lia|]. rewrite Nat.sub_diag. apply not_elem_of_nil.
      + exists r. split; [done|]. rewrite Hr. split.
        * intros [Hg|(k & Hk & Hg)]; right; [exists (S st)|exists k]; (split; [lia|done]).
        * intros [Hg|(k & Hk & Hg)]; [by destruct (Hno p Hg)|]. destruct (decide (k = S st)) as [->|]; [by left|right; exists k; split; [lia|done]].
    - exists None. split; [done|]. split; [done|]. intros [Hg|?]; [by destruct (Hno p Hg)|done]. }
  destruct (pattern !! p) as [c|] eqn:Ec.
  2: { apply Hback. intros p' Hg ->. apply lookup_ge_None in Ec. rewrite drop_ge in Hg by done. by inversion Hg. }
  pose proof (lookup_lt_Some _ _ _ Ec) as Hpl. rewrite (drop_S _ _ _ Ec) in Hback |- *. fold (takes c b).
  assert (Hb : b <> star) by (intros ->; apply Htext; by eapply list_elem_of_lookup_2).
  destruct (takes c b) eqn:Et.
  - destruct (IH (S p) (S t) star_idx st) as (r & E & Hr); [nia|lia|lia|lia|by eapply loop_step_byte|]. exists r. split; [done|]. rewrite Hr.
    assert (Hc : c <> star) by (intros ->; unfold takes, byte_is in Et; apply orb_true_iff in Et as [Et|Et]; [by vm_compute in Et|by destruct (byte_eqb_spec star b)]).
    split; (intros [Hg|?]; [left|by right]); [by apply globs_cons|]. apply globs_cons_inv in Hg as (b' & t' & [= <- <-] & _ & ?); done.
  - destruct (byte_is star c) eqn:Es.
    + unfold byte_is in Es. destruct (byte_eqb_spec c star) as [->|]; [|done].
      destruct (IH (S p) t (Some p) t) as (r & E & Hr); [nia|lia|lia|lia| |].
      { split_and!; [lia|lia|lia|]. rewrite Nat.sub_diag. apply not_elem_of_nil. }
      exists r. split; [done|]. rewrite Hr, globs_star_inv, <- (drop_S _ _ _ Eb). cbn [later]. split.
      * intros [Hg|(k & Hk & Hg)]; left; [exists 0; rewrite drop_0; split; [lia|done]|].
        exists (k - t). rewrite length_drop, drop_drop. split; [lia|]. by replace (t + (k - t)) with k by lia.
      * intros [(k & Hk & Hg)|Hl].
        -- rewrite length_drop, drop_drop in *. destruct k as [|k]; [left; by rewrite Nat.add_0_r in Hg|right]. exists (t + S k). split; [lia|done].
        -- right. destruct (new_star p t star_idx st Hpl Ec Ht Hi Hl) as (k & Hk & Hg). by exists k.
    + apply Hback. intros p' Hg ->. apply globs_cons_inv in Hg as (b' & t' & [= <- <-] & Ht' & _); [by rewrite Ht' in Et|].
      intros ->. by rewrite byte_is_refl in Es.
Qed.
End loop.

(** The answer of the matcher, by the reference relation. *)
Lemma wildcard_match_globs pattern text : star ∉ text ->
  exists b, wildcard_match pattern text = Ok b /\ (b = true <-> globs pattern text).
Proof.
  intros Ht. destruct (loop_spec pattern text Ht (wildcard_fuel pattern text) 0 0 None 0) as (r & E & Hr); [|lia..|done|].
  { unfold measure, wildcard_fuel. lia. }
  unfold wildcard_match. rewrite E, bind_Ok. eexists. split; [reflexivity|]. rewrite !drop_0 in Hr. cbn [later] in Hr.
  transitivity (accepts pattern r); [|tauto]. destruct r as [q|]; [|done]. cbn [accepts]. split.
  - intros Hq. assert (Hle : q <= length pattern). { apply Nat.eqb_eq in Hq. pose proof (skip_stars_ge (drop q pattern) q). lia. }
    split; [done|]. apply (skip_stars_spec _ q). rewrite length_drop. by replace (q + (length pattern - q)) with (length pattern) by lia.
  - intros [Hle Hg]. apply (skip_stars_spec _ q) in Hg. rewrite length_drop in Hg. by replace (q + (length pattern - q)) with (length pattern) in Hg by lia.
Qed.

(** C23: on texts without stars the matcher always returns, and says whether the text is one the pattern describes: a star
    stands for any bytes, a question mark for one byte, any other byte for itself.  Going back to the last
    star alone, in at most (text + 1) * (pattern + 1) turns, misses nothing. *)
Theorem wildcard_match_spec pattern text : star ∉ text ->
  exists b, wildcard_match pattern text = Ok b /\ (b = true <-> globs pattern text).
Proof. apply wildcard_match_globs. Qed.

(** A star in the text is not matched by a star: the branch that takes the byte for itself comes first, and the
    pattern has then no star to go back to. *)
Theorem wildcard_match_star_text : wildcard_match (bstr "*") (bstr "*.rs") = Ok false /\ globs (bstr "*") (bstr "*.rs").
Proof. split; [reflexivity|]. apply (globs_star [] (bstr "*.rs") []), globs_nil. Qed.

(** ** Witness *)

Lemma wildcard_match_spec_witness : (star ∉ bstr "src/main.rs") /\ wildcard_match (bstr "*/m?in*.rs") (bstr "src/main.rs") = Ok true.
Proof.
  assert (Hs : star ∉ bstr "src/main.rs") by (apply (bool_decide_unpack _); vm_compute; exact I). split; [exact Hs|].
  destruct (wildcard_match_spec (bstr "*/m?in*.rs") (bstr "src/main.rs") Hs) as (b & E & _). vm_compute in E. injection E as <-. vm_compute. reflexivity.
Defined.
