(* ===== verification/FileSystem.v ===== *)
(** * Files: what the reference code uses of [std::fs] and [std::path]

    A tree of directories and regular files below the git directory, whose path is [[]].  Calls return the
    error kinds the code distinguishes; other failures of the system (a full disk, permissions) do not
    happen here. *)
From S2P Require Import Prelude Order Text Reader.

(** ** Definitions *)

Abbreviation path := (list bytes).

Inductive FsNode : Set := FFile (content : bytes) | FDir.

#[export] Instance FsNode_eq_dec : EqDecision FsNode.
Proof. solve_decision. Defined.

Abbreviation Fs := (gmap path FsNode).

(** [Path::join] with a relative name: empty components and dots do not count. *)
Definition join_path (p : path) (name : bytes) : path :=
  p ++ filter (fun component => component <> [] /\ component <> ["."%byte]) (split_on "/"%byte name).

(** [Path::parent]. *)
Definition parent (p : path) : option path :=
  match p with
  | [] => None
  | _ => Some (removelast p)
  end.

(** The name with a suffix: [OsString::push]. *)
Fixpoint push_suffix (p : path) (suffix : bytes) : path :=
  match p with
  | [] => []
  | [x] => [x ++ suffix]
  | x :: p => x :: push_suffix p suffix
  end.

Definition is_file (node : option FsNode) : bool :=
  match node with Some (FFile _) => true | _ => false end.

(** Whether the path goes through a regular file. *)
Definition under_file (fs : Fs) (p : path) : bool :=
  existsb (fun k => is_file (fs !! take k p)) (seq 0 (length p)).

(** The error of a path that is not there. *)
Definition missing {A : Type} (fs : Fs) (p : path) : outcome A :=
  if under_file fs p then fail OtherKind "not a directory" else fail NotFound "no such file or directory".

Definition fs_read (p : path) : rd Fs bytes := fun fs =>
  match fs !! p with
  | Some (FFile content) => (Ok content, fs)
  | Some FDir => (fail OtherKind "is a directory", fs)
  | None => (missing fs p, fs)
  end.

Definition fs_read_to_string (p : path) : rd Fs bytes :=
  raw <~ fs_read p;
  _ <~ rlift (check (negb (utf8_valid raw)) InvalidData "stream did not contain valid UTF-8");
  rret raw.

Definition fs_exists (p : path) : rd Fs bool := fun fs => (Ok (bool_decide (is_Some (fs !! p))), fs).

(** [Path::exists] of a path joined with a name: a name that ends in a slash has to lead to a directory. *)
Definition fs_exists_joined (p : path) (name : bytes) : rd Fs bool := fun fs =>
  (Ok match fs !! join_path p name with
      | Some FDir => true
      | Some (FFile _) => negb (ends_with (bstr "/") name)
      | None => false
      end, fs).

(** [create_dir_all]: the directories of the path that are missing, from the top. *)
Fixpoint make_dirs (done rest : path) : rd Fs unit :=
  match rest with
  | [] => rret tt
  | x :: rest => fun fs =>
      match fs !! (done ++ [x]) with
      | Some FDir => make_dirs (done ++ [x]) rest fs
      | Some (FFile _) => (fail OtherKind "not a directory", fs)
      | None => make_dirs (done ++ [x]) rest (<[done ++ [x] := FDir]> fs)
      end
  end.

Definition create_dir_all (p : path) : rd Fs unit := make_dirs [] p.

(** [OpenOptions::create_new]: an empty file where there is nothing. *)
Definition create_new (p : path) : rd Fs unit := fun fs =>
  match fs !! p with
  | Some _ => (fail AlreadyExists "file exists", fs)
  | None =>
      match parent p with
      | Some dir =>
          match fs !! dir with
          | Some FDir => (Ok tt, <[p := FFile []]> fs)
          | _ => (missing fs p, fs)
          end
      | None => (missing fs p, fs)
      end
  end.

(** [write_all] to the file opened at the path. *)
Definition append_file (p : path) (bs : bytes) : rd Fs unit := fun fs =>
  match fs !! p with
  | Some (FFile content) => (Ok tt, <[p := FFile (content ++ bs)]> fs)
  | _ => (Ok tt, fs)
  end.

Definition remove_file (p : path) : rd Fs unit := fun fs =>
  match fs !! p with
  | Some (FFile _) => (Ok tt, delete p fs)
  | Some FDir => (fail OtherKind "is a directory", fs)
  | None => (missing fs p, fs)
  end.

(** [rename] of a regular file: it replaces a file and not a directory. *)
Definition rename (from to : path) : rd Fs unit := fun fs =>
  match fs !! from with
  | Some (FFile content) =>
      match fs !! to with
      | Some FDir => (fail OtherKind "is a directory", fs)
      | _ => (Ok tt, <[to := FFile content]> (delete from fs))
      end
  | Some FDir => (fail OtherKind "is a directory", fs)
  | None => (missing fs from, fs)
  end.

Definition child_of (dir p : path) : option bytes :=
  match rev p with
  | x :: rdir => if bool_decide (rev rdir = dir) then Some x else None
  | [] => None
  end.

Definition fs_children (fs : Fs) (dir : path) : list (bytes * FsNode) :=
  omap (fun '(p, node) => (fun x => (x, node)) <$> child_of dir p) (map_to_list fs).

Definition remove_dir (p : path) : rd Fs unit := fun fs =>
  match fs !! p with
  | Some FDir =>
      if bool_decide (fs_children fs p = []) then (Ok tt, delete p fs)
      else (fail DirectoryNotEmpty "directory not empty", fs)
  | Some (FFile _) => (fail OtherKind "not a directory", fs)
  | None => (missing fs p, fs)
  end.

(** The order in which a directory is listed is the system's. *)
Class DirOrder : Type := dir_order : list (bytes * FsNode) -> list (bytes * FsNode).

Class DirOrderLaws `{DirOrder} : Prop := dir_order_perm : forall l, dir_order l ≡ₚ l.

Definition read_dir `{DirOrder} (p : path) : rd Fs (list (bytes * FsNode)) := fun fs =>
  match fs !! p with
  | Some FDir => (Ok (dir_order (fs_children fs p)), fs)
  | Some (FFile _) => (fail OtherKind "not a directory", fs)
  | None => (missing fs p, fs)
  end.

(** [fs::remove_file] of a lock whose error is ignored, when the run fails. *)
Definition or_remove {A : Type} (lock : path) (m : rd Fs A) : rd Fs A := fun fs =>
  match m fs with
  | (Ok a, fs) => (Ok a, fs)
  | (Err e, fs) => (Err e, (remove_file lock fs).2)
  | r => r
  end.

(** A call whose [NotFound] is an answer. *)
Definition or_absent {A : Type} (m : rd Fs A) : rd Fs (option A) := fun fs =>
  match m fs with
  | (Ok a, fs) => (Ok (Some a), fs)
  | (Err e, fs) => (match err_kind e with NotFound => Ok None | _ => Err e end, fs)
  | (Panic, fs) => (Panic, fs)
  | (NoFuel, fs) => (NoFuel, fs)
  end.

(** The longest path there is. *)
Definition fs_depth (fs : Fs) : nat := foldr Nat.max 0 (map (fun '(p, _) => length p) (map_to_list fs)).

(** ** Trees *)

Record fs_wf (fs : Fs) : Prop := {
  wf_root : fs !! [] = Some FDir;
  wf_parent : forall p x node, fs !! (p ++ [x]) = Some node -> fs !! p = Some FDir
}.

Lemma wf_prefix fs p q node : fs_wf fs -> fs !! (p ++ q) = Some node -> q <> [] -> fs !! p = Some FDir.
Proof.
  intros Hwf. revert node. induction q as [|x q IH] using rev_ind; intros node E Hq; [done|].
  rewrite app_assoc in E. apply (wf_parent fs Hwf) in E. destruct q as [|y q]; [by rewrite app_nil_r in E|].
  by eapply IH.
Qed.

Lemma wf_under_file fs p node : fs_wf fs -> fs !! p = Some node -> under_file fs p = false.
Proof.
  intros Hwf E. unfold under_file. apply not_true_is_false. intros (k & Hk%in_seq & Hf)%existsb_exists.
  assert (Hd : fs !! take k p = Some FDir); [|by rewrite Hd in Hf].
  apply (wf_prefix fs (take k p) (drop k p) node); [done|by rewrite take_drop|].
  intros E'. apply (f_equal length) in E'. rewrite length_drop in E'. cbn in E'. lia.
Qed.

Lemma removelast_snoc {A} (l : list A) x : removelast (l ++ [x]) = l.
Proof. apply removelast_last. Qed.

Lemma parent_snoc p x : parent (p ++ [x]) = Some p.
Proof. unfold parent. destruct (p ++ [x]) eqn:E; [by destruct p|]. by rewrite <- E, removelast_snoc. Qed.

Lemma push_suffix_snoc p x suffix : push_suffix (p ++ [x]) suffix = p ++ [x ++ suffix].
Proof. induction p as [|y p IH]; [done|]. cbn [app push_suffix]. rewrite IH. by destruct p. Qed.

Lemma snoc_cases (p : path) : p = [] \/ exists d x, p = d ++ [x].
Proof. destruct p as [|x p] using rev_ind; [by left|right; eauto]. Qed.

Lemma children_elem fs dir x node : (x, node) ∈ fs_children fs dir <-> fs !! (dir ++ [x]) = Some node.
Proof.
  unfold fs_children. rewrite list_elem_of_omap. split.
  - intros ([p node'] & Hin & E). apply elem_of_map_to_list in Hin. unfold child_of in E.
    destruct (snoc_cases p) as [->|(d & y & ->)]; [done|]. rewrite rev_app_distr in E. cbn in E.
    rewrite rev_involutive in E. case_bool_decide; [|done]. injection E as -> ->. by subst.
  - intros E. exists (dir ++ [x], node). split; [by apply elem_of_map_to_list|]. unfold child_of.
    rewrite rev_app_distr. cbn. by rewrite rev_involutive, bool_decide_true.
Qed.

Lemma no_children fs dir : fs_children fs dir = [] <-> forall x, fs !! (dir ++ [x]) = None.
Proof.
  split.
  - intros E x. destruct (fs !! (dir ++ [x])) as [node|] eqn:En; [|done]. apply children_elem in En.
    rewrite E in En. by apply elem_of_nil in En.
  - intros Hno. destruct (fs_children fs dir) as [|[x node] l] eqn:E; [done|].
    assert (Hin : (x, node) ∈ fs_children fs dir) by (rewrite E; by left). apply children_elem in Hin. by rewrite Hno in Hin.
Qed.

(** What is below a missing path is missing. *)
Lemma missing_below fs p q : fs_wf fs -> fs !! p = None -> fs !! (p ++ q) = None.
Proof.
  intros Hwf Hp. destruct (fs !! (p ++ q)) as [node|] eqn:E; [|done]. destruct q as [|x q]; [by rewrite app_nil_r in E; congruence|].
  assert (fs !! p = Some FDir) by (by eapply wf_prefix). congruence.
Qed.

Lemma below_file fs p q content : fs_wf fs -> fs !! p = Some (FFile content) -> q <> [] -> fs !! (p ++ q) = None.
Proof.
  intros Hwf Hp Hq. destruct (fs !! (p ++ q)) as [node|] eqn:E; [|done].
  assert (fs !! p = Some FDir) by (by eapply wf_prefix). congruence.
Qed.

(** ** Steps *)

Lemma wf_insert_dir fs p x : fs_wf fs -> fs !! p = Some FDir -> fs !! (p ++ [x]) = None -> fs_wf (<[p ++ [x] := FDir]> fs).
Proof.
  intros Hwf Hp Hx. split.
  - rewrite lookup_insert_ne by (by destruct p). apply wf_root, Hwf.
  - intros q y node [[E _]|[Hne E]]%lookup_insert_Some.
    + apply app_inj_tail in E as [<- <-]. rewrite lookup_insert_ne; [done|]. intros E'. rewrite <- E' in Hp. congruence.
    + apply (wf_parent fs Hwf) in E. destruct (decide (p ++ [x] = q)) as [->|Hq]; [by rewrite lookup_insert_eq|by rewrite lookup_insert_ne].
Qed.

Lemma wf_insert_file fs p x content : fs_wf fs -> fs !! p = Some FDir -> fs !! (p ++ [x]) <> Some FDir ->
  fs_wf (<[p ++ [x] := FFile content]> fs).
Proof.
  intros Hwf Hp Hx. split.
  - rewrite lookup_insert_ne by (by destruct p). apply wf_root, Hwf.
  - intros q y node [[E _]|[Hne E]]%lookup_insert_Some.
    + apply app_inj_tail in E as [<- <-]. rewrite lookup_insert_ne; [done|]. intros E'. rewrite E' in Hx. done.
    + apply (wf_parent fs Hwf) in E. rewrite lookup_insert_ne; [done|]. intros <-. done.
Qed.

Lemma wf_delete fs p : fs_wf fs -> p <> [] -> (forall x, fs !! (p ++ [x]) = None) -> fs_wf (delete p fs).
Proof.
  intros Hwf Hp Hno. split.
  - rewrite lookup_delete_ne by done. apply wf_root, Hwf.
  - intros q y node [_ E]%lookup_delete_Some. rewrite lookup_delete_ne; [by eapply wf_parent|]. intros <-. by rewrite Hno in E.
Qed.

Lemma wf_delete_file fs p content : fs_wf fs -> fs !! p = Some (FFile content) -> fs_wf (delete p fs).
Proof.
  intros Hwf Hp. apply wf_delete; [done| |].
  - intros ->. rewrite (wf_root fs Hwf) in Hp. done.
  - intros x. by eapply below_file.
Qed.

(** The directories of a path, where they were missing. *)
Definition dirs_made (fs : Fs) (p : path) (fs' : Fs) : Prop := forall q,
  fs' !! q = match fs !! q with
             | Some node => Some node
             | None => if decide (q `prefix_of` p) then Some FDir else None
             end.

Lemma make_dirs_Ok rest : forall done fs, fs_wf fs -> fs !! done = Some FDir ->
  (forall q, q `prefix_of` rest -> is_file (fs !! (done ++ q)) = false) ->
  exists fs', make_dirs done rest fs = (Ok tt, fs') /\ fs_wf fs' /\ dirs_made fs (done ++ rest) fs'.
Proof.
  induction rest as [|x rest IH]; intros dn fs Hwf Hd Hf; cbn [make_dirs].
  - exists fs. split; [done|]. split; [done|]. intros q. destruct (fs !! q) as [node|] eqn:E; [done|].
    destruct (decide (q `prefix_of` dn ++ [])) as [[k Hk]|]; [|done]. rewrite app_nil_r in Hk. subst dn.
    destruct k as [|y k]; [rewrite app_nil_r in Hd; congruence|].
    assert (fs !! q = Some FDir) by (by eapply wf_prefix). congruence.
  - assert (Hx : is_file (fs !! (dn ++ [x])) = false) by (apply Hf; by exists rest).
    assert (Hrest : forall q, q `prefix_of` rest -> is_file (fs !! ((dn ++ [x]) ++ q)) = false).
    { intros q [k ->]. rewrite <- app_assoc. apply Hf. by exists k. }
    replace (dn ++ x :: rest) with ((dn ++ [x]) ++ rest) by (by rewrite <- app_assoc).
    destruct (fs !! (dn ++ [x])) as [[content|]|] eqn:E; [done|by apply IH|].
    destruct (IH (dn ++ [x]) (<[dn ++ [x] := FDir]> fs)) as (fs' & E' & Hwf' & Hm).
    + by apply wf_insert_dir.
    + apply lookup_insert_eq.
    + intros q Hq. destruct (decide (dn ++ [x] = (dn ++ [x]) ++ q)) as [<-|Hne]; [by rewrite lookup_insert_eq|].
      rewrite lookup_insert_ne by done. by apply Hrest.
    + exists fs'. split; [done|]. split; [done|]. intros q. rewrite Hm. destruct (decide (dn ++ [x] = q)) as [<-|Hne].
      * rewrite lookup_insert_eq, E, decide_True; [done|]. by exists rest.
      * by rewrite lookup_insert_ne.
Qed.

Lemma create_dir_all_Ok fs p : fs_wf fs -> (forall q, q `prefix_of` p -> is_file (fs !! q) = false) ->
  exists fs', create_dir_all p fs = (Ok tt, fs') /\ fs_wf fs' /\ dirs_made fs p fs'.
Proof. intros Hwf Hf. apply (make_dirs_Ok p [] fs); [done|apply (wf_root fs Hwf)|done]. Qed.

Lemma dirs_made_dir fs p fs' : fs_wf fs -> (forall q, q `prefix_of` p -> is_file (fs !! q) = false) ->
  dirs_made fs p fs' -> fs' !! p = Some FDir.
Proof.
  intros Hwf Hf Hm. rewrite Hm. specialize (Hf p). destruct (fs !! p) as [[content|]|]; [|done|].
  - by discriminate Hf.
  - by rewrite decide_True.
Qed.

Lemma prefix_snoc_neq (d q : path) x : q `prefix_of` d -> q <> d ++ [x].
Proof. intros [k ->] E. apply (f_equal length) in E. rewrite !length_app in E. cbn in E. lia. Qed.

Lemma snoc_not_prefix (d : path) x : ~ (d ++ [x]) `prefix_of` d.
Proof. intros [k E]. apply (f_equal length) in E. rewrite !length_app in E. cbn in E. lia. Qed.

Lemma dir_neq_snoc (d : path) x : d ++ [x] <> d.
Proof. intros E. apply (f_equal length) in E. rewrite length_app in E. cbn in E. lia. Qed.

(** A tree given by its paths can be tested. *)
Definition fs_wf_b (fs : Fs) : bool :=
  bool_decide (fs !! [] = Some FDir) &&
  forallb (fun '(p, _) => match parent p with Some dir => bool_decide (fs !! dir = Some FDir) | None => true end) (map_to_list fs).

Lemma fs_wf_b_true fs : fs_wf_b fs = true -> fs_wf fs.
Proof.
  intros [Hr%bool_decide_eq_true Hf]%andb_true_iff. split; [done|]. intros p x node E%elem_of_map_to_list.
  rewrite forallb_forall in Hf. specialize (Hf (p ++ [x], node)). cbv beta iota in Hf. rewrite parent_snoc in Hf.
  apply list_elem_of_In in E. specialize (Hf E). by apply bool_decide_eq_true in Hf.
Qed.
