(* ===== verification/Ignore.v ===== *)
(** * Ignore rules (zmin-git-core/src/ignore.rs) *)
From S2P Require Import Prelude Text Reader FileSystem Wildcard.

(** ** Definitions *)

Inductive IgnorePattern : Set :=
  | Component (component : bytes)
  | Directory (directory : bytes)
  | Glob (pattern : bytes)
  | Path (pattern : bytes).

Record IgnorePatternEntry : Set := MkIgnorePatternEntry {
  ip_base : bytes;
  ip_source : bytes;
  ip_line_number : nat;
  ip_pattern : bytes;
  ip_is_negation : bool;
  ip_kind : IgnorePattern
}.

Record GitIgnore : Set := MkGitIgnore { patterns : list IgnorePatternEntry }.

Record GitIgnoreMatch : Set := MkGitIgnoreMatch {
  gm_source : bytes;
  gm_line_number : nat;
  gm_pattern : bytes;
  gm_is_negation : bool
}.

(** *** Lines *)

(** The backslashes in front of the last space, from the back. *)
Fixpoint backslashes (rest : bytes) : nat :=
  match rest with
  | b :: rest => if byte_is "\"%byte b then S (backslashes rest) else 0
  | [] => 0
  end.

Definition last_space_is_escaped (line : bytes) : bool :=
  match rev line with
  | b :: rest => byte_is " "%byte b && Nat.odd (backslashes rest)
  | [] => false
  end.

(** The loop that drops spaces, on the line from the back. *)
Fixpoint pop_spaces (rline : bytes) : bytes :=
  match rline with
  | b :: rest => if byte_is " "%byte b && negb (last_space_is_escaped (rev rline)) then pop_spaces rest else rline
  | [] => []
  end.

Definition escapable (b : byte) : bool := existsb (byte_is b) (bstr " \#!").

Fixpoint unescape_ignore_pattern (line : bytes) : bytes :=
  match line with
  | [] => []
  | ch :: rest =>
      match rest with
      | next :: rest' =>
          if byte_is "\"%byte ch && escapable next then next :: unescape_ignore_pattern rest'
          else ch :: unescape_ignore_pattern rest
      | [] => [ch]
      end
  end.

Definition parse_ignore_line (raw_line : bytes) : option (bytes * bytes) :=
  let line := trim_end_byte Byte.x0d raw_line in
  if bool_decide (line = []) || starts_with (bstr "#") line then None else
  let line := rev (pop_spaces (rev line)) in
  let pattern := unescape_ignore_pattern line in
  if bool_decide (pattern = []) then None else Some (line, pattern).

(** *** Patterns *)

Definition strip_suffix (suffix l : bytes) : option bytes :=
  match strip_prefix (rev suffix) (rev l) with Some r => Some (rev r) | None => None end.

Definition pattern_kind (pattern : bytes) : IgnorePattern :=
  match strip_suffix (bstr "/") pattern with
  | Some directory => Directory directory
  | None =>
      if contains_byte "*"%byte pattern || contains_byte "?"%byte pattern then Glob pattern
      else if contains_byte "/"%byte pattern then Path pattern
      else Component pattern
  end.

(** The loop over the lines. *)
Fixpoint parse_lines (base source : bytes) (lines : list bytes) (line_number : nat) : list IgnorePatternEntry :=
  match lines with
  | [] => []
  | raw_line :: lines =>
      let rest := parse_lines base source lines (S line_number) in
      match parse_ignore_line raw_line with
      | None => rest
      | Some (display_pattern, line) =>
          let '(is_negation, line_pattern) :=
            match strip_prefix (bstr "!") line with Some pattern => (true, pattern) | None => (false, line) end in
          let pattern := trim_start_byte "/"%byte line_pattern in
          if bool_decide (pattern = []) then rest else
          MkIgnorePatternEntry base source (line_number + 1) display_pattern is_negation (pattern_kind pattern) :: rest
      end
  end.

Definition parse_with_base_and_source (content base source : bytes) : GitIgnore :=
  let base := forward_slashes (trim_end_byte "/"%byte (trim_start_byte "/"%byte base)) in
  MkGitIgnore (parse_lines base source (str_lines content) 0).

Definition parse_with_base (content base : bytes) : GitIgnore := parse_with_base_and_source content base (bstr ".gitignore").

Definition parse (content : bytes) : GitIgnore := parse_with_base content [].

Definition append (ignore other : GitIgnore) : GitIgnore := MkGitIgnore (patterns ignore ++ patterns other).

(** *** Matching *)

Definition candidate_of (base relative : bytes) : option bytes :=
  if bool_decide (base = []) then Some relative
  else if bool_decide (relative = base) then Some []
  else strip_prefix (base ++ ["/"%byte]) relative.

(** [rsplit('/').next()]. *)
Definition basename_of (candidate : bytes) : bytes :=
  match last (split_on "/"%byte candidate) with Some name => name | None => candidate end.

Definition kind_matches (kind : IgnorePattern) (candidate : bytes) (is_dir : bool) : outcome bool :=
  match kind with
  | Component component => Ok (existsb (fun path_component => bool_decide (path_component = component)) (split_on "/"%byte candidate))
  | Directory directory =>
      Ok ((is_dir && bool_decide (candidate = directory)) || starts_with (directory ++ ["/"%byte]) candidate)
  | Glob pattern =>
      if contains_byte "/"%byte pattern then wildcard_match pattern candidate
      else wildcard_match pattern (basename_of candidate)
  | Path pattern => Ok (bool_decide (candidate = pattern))
  end.

Definition match_of (entry : IgnorePatternEntry) : GitIgnoreMatch :=
  MkGitIgnoreMatch (ip_source entry) (ip_line_number entry) (ip_pattern entry) (ip_is_negation entry).

Fixpoint match_loop (entries : list IgnorePatternEntry) (relative : bytes) (is_dir : bool) (matched : option GitIgnoreMatch)
  : outcome (option GitIgnoreMatch) :=
  match entries with
  | [] => Ok matched
  | entry :: entries =>
      match candidate_of (ip_base entry) relative with
      | None => match_loop entries relative is_dir matched
      | Some candidate =>
          matches ← kind_matches (ip_kind entry) candidate is_dir;
          match_loop entries relative is_dir (if (matches : bool) then Some (match_of entry) else matched)
      end
  end.

Definition match_path (ignore : GitIgnore) (path : bytes) (is_dir : bool) : outcome (option GitIgnoreMatch) :=
  match_loop (patterns ignore) (from_utf8_lossy path) is_dir None.

Definition is_ignored (ignore : GitIgnore) (path : bytes) (is_dir : bool) : outcome bool :=
  matched ← match_path ignore path is_dir;
  Ok (match matched with Some ignore_match => negb (gm_is_negation ignore_match) | None => false end).

(** *** Loading, from a tree of files whose root has a name of its own *)

Definition path_text (root_text : bytes) (p : path) : bytes := join_with "/"%byte (root_text :: map from_utf8_lossy p).

Definition ignore_base (dir : path) : bytes := forward_slashes (join_with "/"%byte (map from_utf8_lossy dir)).

Section loading.
Context `{DirOrder} (root_text : bytes).

(** The loop over the entries of a directory, where [below] loads from a directory below. *)
Fixpoint load_entries (below : GitIgnore -> path -> rd Fs GitIgnore) (dir : path) (children : list (bytes * FsNode)) (ignore : GitIgnore)
  : rd Fs GitIgnore :=
  match children with
  | [] => rret ignore
  | (entry_name, node) :: children =>
      if bool_decide (entry_name = bstr ".git") then load_entries below dir children ignore else
      match node with
      | FDir =>
          ignore <~ below ignore (dir ++ [entry_name]);
          load_entries below dir children ignore
      | FFile _ => load_entries below dir children ignore
      end
  end.

(** The fuel bounds the depth of the directories. *)
Fixpoint load_from_dir (fuel : nat) (ignore : GitIgnore) (dir : path) : rd Fs GitIgnore :=
  match fuel with
  | 0 => rlift NoFuel
  | S fuel =>
      let ignore_path := dir ++ [bstr ".gitignore"] in
      there <~ fs_exists ignore_path;
      ignore <~ (if (there : bool) then
                   content <~ fs_read_to_string ignore_path;
                   rret (append ignore (parse_with_base_and_source content (ignore_base dir) (path_text root_text ignore_path)))
                 else rret ignore);
      children <~ read_dir dir;
      load_entries (load_from_dir fuel) dir children ignore
  end.

Definition load_from_root (fuel : nat) : rd Fs GitIgnore := load_from_dir fuel (MkGitIgnore []) [].
End loading.

(** ** Bytes in texts *)

Lemma contains_byte_not c l : contains_byte c l = false <-> c ∉ l.
Proof. rewrite contains_byte_false, Forall_forall. unfold byte_is. split.
  - intros Hf Hin. specialize (Hf c Hin). by rewrite byte_eqb_refl in Hf.
  - intros Hn b Hb. destruct (byte_eqb_spec b c) as [->|]; done.
Qed.

Lemma contains_byte_in c l : contains_byte c l = true <-> c ∈ l.
Proof. destruct (contains_byte c l) eqn:E; [|apply contains_byte_not in E; by split].
  split; [intros _|done]. destruct (decide (c ∈ l)) as [|Hn]; [done|]. apply contains_byte_not in Hn. congruence.
Qed.

(** ** Matching *)

(** The path below the base of a rule. *)
Definition below_base (base relative candidate : bytes) : Prop :=
  (base = [] /\ candidate = relative) \/ (base <> [] /\ relative = base /\ candidate = []) \/
  (base <> [] /\ relative = base ++ "/"%byte :: candidate).

Definition kind_describes (kind : IgnorePattern) (candidate : bytes) (is_dir : bool) : Prop :=
  match kind with
  | Component c => c ∈ split_on "/"%byte candidate
  | Directory d => (is_dir = true /\ candidate = d) \/ exists rest, candidate = d ++ "/"%byte :: rest
  | Glob p => globs p (if contains_byte "/"%byte p then candidate else basename_of candidate)
  | Path p => candidate = p
  end.

Definition applies (relative : bytes) (is_dir : bool) (entry : IgnorePatternEntry) : Prop :=
  exists candidate, below_base (ip_base entry) relative candidate /\ kind_describes (ip_kind entry) candidate is_dir.

Lemma candidate_of_spec base relative candidate : candidate_of base relative = Some candidate <-> below_base base relative candidate.
Proof.
  unfold candidate_of, below_base. case_bool_decide as Hb; [subst; naive_solver|]. case_bool_decide as Hr.
  - subst. split; [naive_solver|]. intros [[? _]|[(_ & _ & ->)|(_ & E)]]; [done..|]. apply (f_equal length) in E. rewrite length_app in E. cbn in E. lia.
  - rewrite strip_prefix_Some, <- app_assoc. naive_solver.
Qed.

Lemma below_base_star base relative candidate : star ∉ relative -> below_base base relative candidate -> star ∉ candidate.
Proof.
  intros Hs [[_ ->]|[(_ & _ & ->)|(_ & ->)]]; [done|apply not_elem_of_nil|]. intros Hin. apply Hs, elem_of_app. right. by right.
Qed.

Lemma basename_star candidate : star ∉ candidate -> star ∉ basename_of candidate.
Proof.
  intros Hs. unfold basename_of. destruct (last (split_on "/"%byte candidate)) as [name|] eqn:E; [|done]. intros Hin. apply Hs.
  rewrite <- (join_split_on "/"%byte candidate). eapply elem_of_join_2; [by eapply last_Some_elem_of|done].
Qed.

Lemma kind_matches_spec kind candidate is_dir : star ∉ candidate ->
  exists b, kind_matches kind candidate is_dir = Ok b /\ (b = true <-> kind_describes kind candidate is_dir).
Proof.
  intros Hs. destruct kind as [c|d|p|p]; cbn [kind_matches kind_describes].
  - eexists. split; [reflexivity|]. rewrite existsb_exists. setoid_rewrite bool_decide_eq_true. setoid_rewrite <- list_elem_of_In. naive_solver.
  - eexists. split; [reflexivity|]. rewrite orb_true_iff, andb_true_iff, bool_decide_eq_true, starts_with_spec. unfold prefix.
    setoid_rewrite <- app_assoc. done.
  - destruct (contains_byte "/"%byte p); [by apply wildcard_match_globs|]. apply wildcard_match_globs. by apply basename_star.
  - eexists. split; [reflexivity|]. by rewrite bool_decide_eq_true.
Qed.

(** The last rule that applies, if there is one. *)
Definition last_applying (relative : bytes) (is_dir : bool) (entries : list IgnorePatternEntry) (entry : IgnorePatternEntry) : Prop :=
  exists before after, entries = before ++ entry :: after /\ applies relative is_dir entry /\
    Forall (fun later => ~ applies relative is_dir later) after.

Lemma match_loop_spec relative is_dir entries : star ∉ relative -> forall matched,
  exists r, match_loop entries relative is_dir matched = Ok r /\
    ((exists entry, last_applying relative is_dir entries entry /\ r = Some (match_of entry)) \/
     (Forall (fun entry => ~ applies relative is_dir entry) entries /\ r = matched)).
Proof.
  intros Hs. induction entries as [|entry entries IH]; intros matched; cbn [match_loop]; [exists matched; split; [done|]; by right|].
  assert (Hgo : forall m, (m = matched /\ ~ applies relative is_dir entry) \/ (m = Some (match_of entry) /\ applies relative is_dir entry) ->
    exists r, match_loop entries relative is_dir m = Ok r /\
    ((exists entry', last_applying relative is_dir (entry :: entries) entry' /\ r = Some (match_of entry')) \/
     (Forall (fun entry => ~ applies relative is_dir entry) (entry :: entries) /\ r = matched))).
  { intros m Hm. destruct (IH m) as (r & E & [(entry' & (before & after & -> & Ha & Hf) & ->)|[Hf ->]]).
    - eexists. split; [exact E|]. left. exists entry'. split; [|done]. exists (entry :: before), after. by split.
    - eexists. split; [exact E|]. destruct Hm as [[-> Hno]|[-> Ha]]; [right; by split; [constructor|]|left].
      exists entry. split; [|done]. exists [], entries. by split. }
  destruct (candidate_of (ip_base entry) relative) as [candidate|] eqn:Ec.
  - pose proof Ec as Hb. apply candidate_of_spec in Hb. destruct (kind_matches_spec (ip_kind entry) candidate is_dir) as (b & -> & Hk); [by eapply below_base_star|].
    rewrite bind_Ok. apply Hgo. destruct b.
    + right. split; [done|]. exists candidate. split; [done|]. by apply Hk.
    + left. split; [done|]. intros (c' & Hb' & Hd). apply candidate_of_spec in Hb'. rewrite Ec in Hb'. injection Hb' as <-. by apply Hk in Hd.
  - apply Hgo. left. split; [done|]. intros (c' & Hb' & _). apply candidate_of_spec in Hb'. congruence.
Qed.

(** C21: on a path without stars, matching always returns, and its answer is the last rule that applies to the path below the
    rule's base, or none when none applies; so a path is ignored exactly when that rule is not a negation. *)
Theorem match_path_spec ignore path is_dir : star ∉ from_utf8_lossy path ->
  exists r, match_path ignore path is_dir = Ok r /\
    is_ignored ignore path is_dir = Ok (match r with Some m => negb (gm_is_negation m) | None => false end) /\
    match r with
    | Some m => exists entry, last_applying (from_utf8_lossy path) is_dir (patterns ignore) entry /\ m = match_of entry
    | None => Forall (fun entry => ~ applies (from_utf8_lossy path) is_dir entry) (patterns ignore)
    end.
Proof.
  intros Hs. destruct (match_loop_spec (from_utf8_lossy path) is_dir (patterns ignore) Hs None) as (r & E & Hr).
  exists r. split; [done|]. split; [unfold is_ignored, match_path; by rewrite E, bind_Ok|].
  destruct Hr as [(entry & Hl & ->)|[Hf ->]]; [by exists entry|done].
Qed.

(** An exclamation mark that is escaped is still read as a negation, because escapes are taken out of the line first:
    the rule meant to ignore a file of that name takes the file of the name without the mark out of the ignored ones,
    and the file itself is not ignored. *)
Theorem escaped_bang_negates :
  is_ignored (parse (bstr "\!keep")) (bstr "!keep") false = Ok false /\
  is_ignored (parse (bstr "keep" ++ [nl] ++ bstr "\!keep")) (bstr "keep") false = Ok false.
Proof. split; vm_compute; reflexivity. Qed.

(** A slash in front does not tie a pattern to the directory of its file: it is dropped before the pattern is classified,
    and the pattern matches at any depth. *)
Theorem leading_slash_dropped : is_ignored (parse (bstr "/dist")) (bstr "src/dist") true = Ok true /\
  patterns (parse (bstr "/dist")) = map (fun entry => MkIgnorePatternEntry (ip_base entry) (ip_source entry) (ip_line_number entry) (bstr "/dist") (ip_is_negation entry) (ip_kind entry)) (patterns (parse (bstr "dist"))).
Proof. split; vm_compute; reflexivity. Qed.

(** ** Witness *)

Lemma match_path_spec_witness : (star ∉ from_utf8_lossy (bstr "src/debug.log")) /\
  is_ignored (parse (bstr "*.log" ++ [nl] ++ bstr "!keep.log")) (bstr "src/debug.log") false = Ok true.
Proof.
  assert (Hs : star ∉ from_utf8_lossy (bstr "src/debug.log")) by (apply (bool_decide_unpack _); vm_compute; exact I). split; [exact Hs|].
  destruct (match_path_spec (parse (bstr "*.log" ++ [nl] ++ bstr "!keep.log")) (bstr "src/debug.log") false Hs) as (r & E & Ei & _).
  rewrite Ei. vm_compute in E. injection E as <-. reflexivity.
Defined.
