(* ===== verification/IgnoreRules.v ===== *)
(** * Ignore rules: what a line of an ignore file means, and that parsing gives each line its meaning *)
From S2P Require Import Prelude Text Ignore.

(** ** What a line means *)

(** The text without the bytes [c] at its end. *)
Definition without_end (c : byte) (l r : bytes) : Prop := last r <> Some c /\ exists k, l = r ++ replicate k c.

(** The text without the bytes [c] at its start. *)
Definition without_start (c : byte) (l r : bytes) : Prop := head r <> Some c /\ exists k, l = replicate k c ++ r.

(** An odd number of backslashes ends the text: the byte after it is escaped. *)
Definition escaping (l : bytes) : Prop := exists r k, l = r ++ replicate k "\"%byte /\ last r <> Some "\"%byte /\ Nat.odd k = true.

(** The spaces at the end of a line do not count, but for one that is escaped. *)
Definition without_spaces (l r : bytes) : Prop :=
  (forall r', r = r' ++ [" "%byte] -> escaping r') /\
  exists k, l = r ++ replicate k " "%byte /\ (0 < k -> ~ escaping r).

(** A backslash stands for the space, backslash, hash sign or exclamation mark after it. *)
Inductive unescapes : bytes -> bytes -> Prop :=
| unescapes_nil : unescapes [] []
| unescapes_escaped b l r : b ∈ bstr " \#!" -> unescapes l r -> unescapes ("\"%byte :: b :: l) (b :: r)
| unescapes_plain b l r : (b = "\"%byte -> forall c l', l = c :: l' -> c ∉ bstr " \#!") ->
    unescapes l r -> unescapes (b :: l) (b :: r).

(** The kind of a pattern: a slash at its end makes it the name of a directory, a star or a question mark a glob, a slash
    inside it a path. *)
Inductive kind_of : bytes -> IgnorePattern -> Prop :=
| kind_directory d : kind_of (d ++ ["/"%byte]) (Directory d)
| kind_glob p : last p <> Some "/"%byte -> "*"%byte ∈ p \/ "?"%byte ∈ p -> kind_of p (Glob p)
| kind_path p : last p <> Some "/"%byte -> ("*"%byte ∉ p) -> ("?"%byte ∉ p) -> "/"%byte ∈ p -> kind_of p (Path p)
| kind_component p : ("*"%byte ∉ p) -> ("?"%byte ∉ p) -> ("/"%byte ∉ p) -> kind_of p (Component p).

(** An exclamation mark in front negates. *)
Definition negation_of (l : bytes) (negation : bool) (p : bytes) : Prop :=
  if negation then l = "!"%byte :: p else l = p /\ head p <> Some "!"%byte.

(** What is left of a line, with its number, the base and the source of its file: no rule, or one. *)
Inductive line_means (base source : bytes) (number : nat) (raw : bytes) : option IgnorePatternEntry -> Prop :=
| means_blank : without_end Byte.x0d raw [] -> line_means base source number raw None
| means_comment l : without_end Byte.x0d raw ("#"%byte :: l) -> line_means base source number raw None
| means_nothing l shown text negation marked :
    without_end Byte.x0d raw l -> l <> [] -> head l <> Some "#"%byte -> without_spaces l shown -> unescapes shown text ->
    negation_of text negation marked -> without_start "/"%byte marked [] -> line_means base source number raw None
| means_rule l shown text negation marked p kind :
    without_end Byte.x0d raw l -> l <> [] -> head l <> Some "#"%byte -> without_spaces l shown -> unescapes shown text ->
    negation_of text negation marked -> without_start "/"%byte marked p -> p <> [] -> kind_of p kind ->
    line_means base source number raw (Some (MkIgnorePatternEntry base source number shown negation kind)).

(** The base of a file: without the slashes around it, and slashes for backslashes. *)
Definition base_of (base normal : bytes) : Prop :=
  exists open trimmed, without_start "/"%byte base open /\ without_end "/"%byte open trimmed /\
    Forall2 (fun b c => c = if decide (b = "\"%byte) then "/"%byte else b) trimmed normal.

(** ** The functions of the parser *)

Lemma trim_start_spec c l : without_start c l (trim_start_byte c l).
Proof.
  induction l as [|b l [Hh [k IH]]]; [split; [done|by exists 0]|]. cbn [trim_start_byte]. unfold byte_is.
  destruct (byte_eqb_spec b c) as [->|Hne].
  - split; [done|]. exists (S k). cbn [replicate app]. by rewrite <- IH.
  - split; [cbn; congruence|by exists 0].
Qed.

Lemma head_last {A} (l : list A) : head (rev l) = last l.
Proof. induction l as [|x l _] using rev_ind; [done|]. by rewrite rev_app_distr, last_snoc. Qed.

Lemma rev_run {A} k (c : A) : rev (replicate k c) = replicate k c.
Proof. rewrite rev_alt. apply (reverse_replicate k c). Qed.

Lemma trim_end_spec c l : without_end c l (trim_end_byte c l).
Proof.
  unfold trim_end_byte. destruct (trim_start_spec c (rev l)) as [Hh [k E]]. split.
  - by rewrite <- head_last, rev_involutive.
  - exists k. apply (f_equal (@rev _)) in E. rewrite rev_involutive, rev_app_distr, rev_run in E. done.
Qed.

(** Runs of one byte at the end of two equal texts are as long. *)
Lemma run_unique c (r1 r2 : bytes) k1 k2 : r1 ++ replicate k1 c = r2 ++ replicate k2 c ->
  last r1 <> Some c -> last r2 <> Some c -> k1 = k2.
Proof.
  revert r1 r2 k2. induction k1 as [|k1 IH]; intros r1 r2 [|k2] E H1 H2; [done|..].
  - rewrite app_nil_r in E. subst r1. rewrite replicate_S_end in H1. rewrite app_assoc, last_snoc in H1. done.
  - rewrite app_nil_r in E. subst r2. rewrite replicate_S_end, app_assoc, last_snoc in H2. done.
  - rewrite !replicate_S_end, !app_assoc in E. apply app_inj_tail in E as [E _]. f_equal. by eapply IH.
Qed.

Lemma backslashes_run rest : exists r, rev rest = r ++ replicate (backslashes rest) "\"%byte /\ last r <> Some "\"%byte.
Proof.
  induction rest as [|b rest (r & E & Hr)]; [by exists []|]. cbn [backslashes rev]. unfold byte_is.
  destruct (byte_eqb_spec b "\"%byte) as [->|Hne].
  - exists r. split; [|done]. by rewrite E, replicate_S_end, app_assoc.
  - exists (rev rest ++ [b]). rewrite app_nil_r, last_snoc. split; [done|congruence].
Qed.

Lemma escaping_odd rest : escaping (rev rest) <-> Nat.odd (backslashes rest) = true.
Proof.
  destruct (backslashes_run rest) as (r & E & Hr). split.
  - intros (r' & k & E' & Hr' & Hk). rewrite E in E'. by rewrite (run_unique _ _ _ _ _ E' Hr Hr').
  - intros Hk. by exists r, (backslashes rest).
Qed.

Lemma pop_spaces_spec rline : without_spaces (rev rline) (rev (pop_spaces rline)).
Proof.
  induction rline as [|b rest (Hend & k & E & Hk)]; cbn [pop_spaces].
  { split; [|exists 0; split; [done|lia]]. intros r' Er%(f_equal length). rewrite length_app in Er. cbn in Er. lia. }
  unfold last_space_is_escaped. rewrite rev_involutive. unfold byte_is at 1 2. destruct (byte_eqb_spec b " "%byte) as [->|Hne]; cbn [andb].
  - destruct (Nat.odd (backslashes rest)) eqn:Eo; cbn [negb].
    + split; [|exists 0; split; [by rewrite app_nil_r|lia]]. cbn [rev]. intros r' [<- _]%app_inj_tail. by apply escaping_odd.
    + split; [done|]. exists (S k). split; [cbn [rev]; by rewrite E, replicate_S_end, app_assoc|]. intros _.
      destruct k as [|k]; [|apply Hk; lia]. rewrite app_nil_r in E. rewrite <- E, escaping_odd. congruence.
  - split; [|exists 0; split; [by rewrite app_nil_r|lia]]. cbn [rev]. intros r' [_ Eb]%app_inj_tail. done.
Qed.

Lemma escapable_in b : escapable b = true <-> b ∈ bstr " \#!".
Proof.
  unfold escapable. rewrite existsb_exists. setoid_rewrite <- list_elem_of_In. unfold byte_is. split.
  - intros (c & Hc & E). by destruct (byte_eqb_spec c b) as [->|].
  - intros Hb. exists b. by rewrite byte_eqb_refl.
Qed.

Lemma unescape_spec l : unescapes l (unescape_ignore_pattern l).
Proof.
  remember (length l) as n eqn:En. assert (Hn : length l <= n) by lia. clear En. revert l Hn.
  induction n as [|n IH]; intros [|b l] Hn; cbn [length] in Hn; try lia; try constructor.
  cbn [unescape_ignore_pattern]. destruct l as [|c l]; [constructor; [done|constructor]|].
  cbn [length] in Hn. unfold byte_is. destruct (byte_eqb_spec b "\"%byte) as [->|Hne]; cbn [andb].
  - destruct (escapable c) eqn:Ec.
    + constructor; [by apply escapable_in|apply IH; lia].
    + constructor; [|apply IH; cbn; lia]. intros _ c' l' [= <- <-]. rewrite <- escapable_in. congruence.
  - constructor; [done|apply IH; cbn; lia].
Qed.

Lemma pattern_kind_spec p : p <> [] -> kind_of p (pattern_kind p).
Proof.
  intros Hne. unfold pattern_kind, strip_suffix. destruct (exists_last Hne) as (l & b & ->).
  change (rev (bstr "/")) with ["/"%byte]. rewrite rev_app_distr. cbn [rev app strip_prefix].
  destruct (byte_eqb_spec "/"%byte b) as [<-|Hb]; [rewrite rev_involutive; constructor|].
  assert (Hl : last (l ++ [b]) <> Some "/"%byte) by (rewrite last_snoc; congruence).
  destruct (contains_byte "*"%byte (l ++ [b])) eqn:E1; [apply contains_byte_in in E1; cbn [orb]; constructor; auto|].
  destruct (contains_byte "?"%byte (l ++ [b])) eqn:E2; [apply contains_byte_in in E2; cbn [orb]; constructor; auto|].
  apply contains_byte_not in E1, E2. cbn [orb].
  destruct (contains_byte "/"%byte (l ++ [b])) eqn:E3; [apply contains_byte_in in E3|apply contains_byte_not in E3]; by constructor.
Qed.

Lemma negation_spec l : let '(negation, p) := match strip_prefix (bstr "!") l with Some p => (true, p) | None => (false, l) end in
  negation_of l negation p.
Proof.
  destruct (strip_prefix (bstr "!") l) as [p|] eqn:E; [by apply strip_prefix_Some in E|]. split; [done|]. intros Hh.
  destruct l as [|b l]; [done|]. injection Hh as ->. change ("!"%byte :: l) with (bstr "!" ++ l) in E. by rewrite strip_prefix_app in E.
Qed.

(** The rule of one line. *)
Definition rule_of (base source : bytes) (number : nat) (raw : bytes) : option IgnorePatternEntry :=
  match parse_lines base source [raw] (number - 1) with entry :: _ => Some entry | [] => None end.

Lemma rule_of_means base source n raw : line_means base source (n + 1) raw (rule_of base source (n + 1) raw).
Proof.
  unfold rule_of. rewrite Nat.add_sub. cbn [parse_lines]. unfold parse_ignore_line.
  pose proof (trim_end_spec Byte.x0d raw) as Hcr. set (l := trim_end_byte Byte.x0d raw) in *.
  case_bool_decide as Hl; cbn [orb]; [rewrite Hl in Hcr; by constructor|].
  destruct (starts_with (bstr "#") l) eqn:Eh.
  { apply starts_with_spec in Eh as [r Er]. rewrite Er in Hcr. change (line_means base source (n + 1) raw None). exact (means_comment _ _ _ _ r Hcr). }
  assert (Hh : head l <> Some "#"%byte).
  { destruct l as [|b r]; [done|]. intros [= ->]. change ("#"%byte :: r) with (bstr "#" ++ r) in Eh. by rewrite starts_with_app in Eh. }
  pose proof (pop_spaces_spec (rev l)) as Hsp. rewrite rev_involutive in Hsp. set (shown := rev (pop_spaces (rev l))) in *.
  pose proof (unescape_spec shown) as Hu. set (text := unescape_ignore_pattern shown) in *.
  pose proof (negation_spec text) as Hneg. case_bool_decide as Ht.
  - rewrite Ht in Hu, Hneg. cbn in Hneg. eapply (means_nothing _ _ _ _ l shown [] false []); try done. split; [done|by exists 0].
  - destruct (match strip_prefix _ text with Some _ => _ | None => _ end) as [negation marked].
    pose proof (trim_start_spec "/"%byte marked) as Hs. case_bool_decide as Hp.
    + rewrite Hp in Hs. by eapply means_nothing.
    + eapply means_rule; try done. by apply pattern_kind_spec.
Qed.

(** ** A line has one meaning *)

Lemma without_end_unique c l r1 r2 : without_end c l r1 -> without_end c l r2 -> r1 = r2.
Proof.
  intros [H1 [k1 ->]] [H2 [k2 E]]. pose proof (run_unique _ _ _ _ _ E H1 H2) as <-. by apply app_inv_tail in E.
Qed.

Lemma without_start_unique c l r1 r2 : without_start c l r1 -> without_start c l r2 -> r1 = r2.
Proof.
  intros [H1 [k1 ->]] [H2 [k2 E]]. revert k2 E. induction k1 as [|k1 IH]; intros [|k2] E; cbn [replicate app] in E.
  - done.
  - subst r1. done.
  - subst r2. done.
  - injection E as E. by apply (IH k2).
Qed.

Lemma not_escaping_space l : ~ escaping (l ++ [" "%byte]).
Proof.
  intros (r & k & E & Hr & Hk). destruct k as [|k]; [done|]. rewrite replicate_S_end, app_assoc in E. by apply app_inj_tail in E as [_ ?].
Qed.

Lemma without_spaces_unique l r1 r2 : without_spaces l r1 -> without_spaces l r2 -> r1 = r2.
Proof.
  assert (Hlt : forall r1 r2 k1 j, (forall r', r1 = r' ++ [" "%byte] -> escaping r') -> ~ escaping r2 ->
    r1 ++ replicate k1 " "%byte = r2 ++ replicate (S j + k1) " "%byte -> False).
  { intros a1 a2 k1 j H1 H2 E. rewrite replicate_add, app_assoc in E. apply app_inv_tail in E.
    rewrite replicate_S_end, app_assoc in E. specialize (H1 _ E). destruct j as [|j]; [by rewrite app_nil_r in H1|].
    rewrite replicate_S_end, app_assoc in H1. by apply not_escaping_space in H1. }
  intros (H1 & k1 & -> & N1) (H2 & k2 & E & N2). destruct (lt_eq_lt_dec k1 k2) as [[Hlt'|<-]|Hlt'].
  - exfalso. apply (Hlt r1 r2 k1 (k2 - k1 - 1) H1 (N2 ltac:(lia))). rewrite E. do 2 f_equal. lia.
  - by apply app_inv_tail in E.
  - exfalso. apply (Hlt r2 r1 k2 (k1 - k2 - 1) H2 (N1 ltac:(lia))). rewrite <- E. do 2 f_equal. lia.
Qed.

Lemma unescapes_unique l r1 : unescapes l r1 -> forall r2, unescapes l r2 -> r1 = r2.
Proof.
  induction 1 as [|b l r1 Hb _ IH|b l r1 Hb _ IH]; intros r2 H2; inversion H2 as [|b' l' r' Hb' H'|b' l' r' Hb' H']; subst; [done|..].
  - f_equal. by apply IH.
  - exfalso. by apply (Hb' eq_refl b l).
  - exfalso. by apply (Hb eq_refl b' l').
  - f_equal. by apply IH.
Qed.

Lemma negation_unique l n1 p1 n2 p2 : negation_of l n1 p1 -> negation_of l n2 p2 -> n1 = n2 /\ p1 = p2.
Proof.
  destruct n1, n2; cbn.
  - intros -> [= ->]. done.
  - intros -> [<- ?]. done.
  - intros [-> ?] ->. done.
  - intros [-> _] [-> _]. done.
Qed.

Lemma kind_unique p k1 k2 : kind_of p k1 -> kind_of p k2 -> k1 = k2.
Proof.
  assert (Hd : forall d, last (d ++ ["/"%byte]) = Some "/"%byte) by (intros d; by rewrite last_snoc).
  assert (Hs : forall d, "/"%byte ∈ d ++ ["/"%byte]) by (intros d; apply elem_of_app; right; by left).
  intros H1 H2. destruct H1; inversion H2; subst; try done; try tauto; try (exfalso; eauto; done).
  - by match goal with E : _ ++ _ = _ ++ _ |- _ => apply app_inj_tail in E as [-> _] end.
Qed.

Lemma line_means_unique base source number raw r1 r2 :
  line_means base source number raw r1 -> line_means base source number raw r2 -> r1 = r2.
Proof.
  destruct 1 as [H1|l H1|l shown text negation marked H1 Hl Hh Hs Hu Hn Hm|l shown text negation marked p kind H1 Hl Hh Hs Hu Hn Hm Hp Hk];
    destruct 1 as [H1'|l' H1'|l' shown' text' negation' marked' H1' Hl' Hh' Hs' Hu' Hn' Hm'
                  |l' shown' text' negation' marked' p' kind' H1' Hl' Hh' Hs' Hu' Hn' Hm' Hp' Hk'];
    pose proof (without_end_unique _ _ _ _ H1 H1') as El; try subst; try done.
  - pose proof (without_spaces_unique _ _ _ Hs Hs') as <-. pose proof (unescapes_unique _ _ Hu _ Hu') as <-.
    destruct (negation_unique _ _ _ _ _ Hn Hn') as [<- <-]. by destruct (Hp' (without_start_unique _ _ _ _ Hm' Hm)).
  - pose proof (without_spaces_unique _ _ _ Hs Hs') as <-. pose proof (unescapes_unique _ _ Hu _ Hu') as <-.
    destruct (negation_unique _ _ _ _ _ Hn Hn') as [<- <-]. by destruct (Hp (without_start_unique _ _ _ _ Hm Hm')).
  - pose proof (without_spaces_unique _ _ _ Hs Hs') as <-. pose proof (unescapes_unique _ _ Hu _ Hu') as <-.
    destruct (negation_unique _ _ _ _ _ Hn Hn') as [<- <-]. pose proof (without_start_unique _ _ _ _ Hm Hm') as <-.
    by rewrite (kind_unique _ _ _ Hk Hk').
Qed.

(** ** Files *)

Lemma base_of_spec base : base_of base (forward_slashes (trim_end_byte "/"%byte (trim_start_byte "/"%byte base))).
Proof.
  exists (trim_start_byte "/"%byte base), (trim_end_byte "/"%byte (trim_start_byte "/"%byte base)).
  split; [apply trim_start_spec|]. split; [apply trim_end_spec|]. unfold forward_slashes.
  generalize (trim_end_byte "/"%byte (trim_start_byte "/"%byte base)). intros l. induction l as [|b l IH]; constructor; [|done].
  unfold byte_is. destruct (byte_eqb_spec b "\"%byte); by case_decide.
Qed.

Lemma parse_lines_rules base source lines : forall n, parse_lines base source lines n =
  omap id (imap (fun i raw => rule_of base source (n + i + 1) raw) lines).
Proof.
  induction lines as [|raw lines IH]; intros n; [done|]. rewrite imap_cons. cbn [omap list_omap id].
  assert (E : omap id (imap ((fun i raw => rule_of base source (n + i + 1) raw) ∘ S) lines) = parse_lines base source lines (S n)).
  { rewrite IH. f_equal. apply imap_ext. intros i raw' _. unfold compose. f_equal. lia. }
  rewrite E. unfold rule_of. rewrite Nat.add_sub, Nat.add_0_r. cbn [parse_lines].
  destruct (parse_ignore_line raw) as [[display line]|]; [|done].
  destruct (match strip_prefix _ line with Some _ => _ | None => _ end) as [negation marked]. by case_bool_decide.
Qed.

(** C29: the rules of an ignore file are the meanings of its lines, in their order, and no others; each line has one
    meaning. What a line means: without the carriage returns at its end, an empty line and a comment mean nothing; the
    spaces at its end do not count but for an escaped one, and the rest is what the rule is shown as; with its escapes
    taken out and an exclamation mark in front read as the negation, the pattern is what follows the slashes in front, and
    nothing when that is empty; its kind is that of its last byte and of the stars, question marks and slashes in it. The
    rule carries the number of the line from 1, the source, and the base without the slashes around it and with slashes for
    backslashes. *)
Theorem parse_rules_spec content base source :
  exists normal rules, base_of base normal /\
    patterns (parse_with_base_and_source content base source) = omap id rules /\
    length rules = length (str_lines content) /\
    forall i raw, str_lines content !! i = Some raw ->
      exists rule, rules !! i = Some rule /\ line_means normal source (i + 1) raw rule /\
        forall other, line_means normal source (i + 1) raw other -> other = rule.
Proof.
  eexists _, _. split; [apply base_of_spec|]. split; [apply parse_lines_rules|]. split; [apply length_imap|].
  intros i raw Hi. rewrite list_lookup_imap, Hi. eexists. split; [reflexivity|].
  pose proof (rule_of_means (forward_slashes (trim_end_byte "/"%byte (trim_start_byte "/"%byte base))) source i raw) as Hm.
  cbn [Nat.add]. split; [done|]. intros other Ho. by eapply line_means_unique.
Qed.

(** The lines of a file, and what is made of them. *)
Example parse_rules_example : patterns (parse_with_base_and_source (bstr "# c" ++ [nl] ++ bstr "!/a\ b/  " ++ [nl] ++ bstr "x*") (bstr "/sub/") (bstr "f"))
  = [MkIgnorePatternEntry (bstr "sub") (bstr "f") 2 (bstr "!/a\ b/") true (Directory (bstr "a b"));
     MkIgnorePatternEntry (bstr "sub") (bstr "f") 3 (bstr "x*") false (Glob (bstr "x*"))].
Proof. vm_compute. reflexivity. Qed.
