(* ===== verification/RefNames.v ===== *)
(** * References: names and the texts they are stored in (the pure part of zmin-git-core/src/refs.rs) *)
From S2P Require Import Prelude Order Object Text Index Reader FileSystem.

(** ** Definitions *)

Inductive RefTarget : Set := Direct (id : ObjectId) | Symbolic (target : bytes).

(** [str::contains] with a string. *)
Definition contains_str (needle l : bytes) : bool := bool_decide (is_Some (find_subslice needle l)).

Definition bad_component (part : bytes) : bool :=
  bool_decide (part = []) || bool_decide (part = bstr ".") || bool_decide (part = bstr "..")
  || starts_with (bstr ".") part || ends_with (bstr ".lock") part.

(** The bytes of the last test of a name and of a prefix. *)
Definition special_byte (b : byte) : bool := existsb (byte_is b) (bstr " ~^:?*[").

Definition control_byte (b : byte) : bool := ((u8 b <? 32) || (u8 b =? 127))%N.

Definition validate_ref_format (name : bytes) (allow_onelevel : bool) : outcome unit :=
  _ ← check (bool_decide (name = []) || bool_decide (name = bstr "@") || ends_with (bstr "/") name
             || ends_with (bstr ".") name || contains_str (bstr "//") name
             || (negb allow_onelevel && negb (contains_byte "/"%byte name)))
        InvalidInput "invalid git ref name";
  _ ← check (existsb bad_component (split_on "/"%byte name)) InvalidInput "invalid git ref component";
  check (contains_str (bstr "..") name || contains_byte "\"%byte name || contains_str (bstr "@{") name
         || existsb control_byte name || existsb special_byte name)
    InvalidInput "invalid git ref character".

Definition check_ref_format (name : bytes) (allow_onelevel : bool) : bool :=
  is_ok (validate_ref_format name allow_onelevel).

Definition validate_ref_name (name : bytes) : outcome unit :=
  check (negb (starts_with (bstr "refs/") name) || negb (is_ok (validate_ref_format name false)))
    InvalidInput "invalid git ref name".

Definition bad_prefix_component (part : bytes) : bool :=
  bool_decide (part = []) || bool_decide (part = bstr ".") || bool_decide (part = bstr "..")
  || ends_with (bstr ".lock") part.

Definition validate_ref_prefix (prefix : bytes) : outcome unit :=
  _ ← check (negb (starts_with (bstr "refs/") prefix) || contains_str (bstr "//") prefix)
        InvalidInput "invalid git ref prefix";
  _ ← check (existsb bad_prefix_component (split_on "/"%byte (trim_end_byte "/"%byte prefix)))
        InvalidInput "invalid git ref prefix component";
  check (contains_str (bstr "..") prefix || contains_byte "\"%byte prefix || contains_str (bstr "@{") prefix
         || existsb special_byte prefix)
    InvalidInput "invalid git ref prefix character".

(** *** Texts *)

(** The crate [hex] writes bytes in lower-case hexadecimal. *)
Class HexCrate : Type := hex_crate_encode : bytes -> bytes.

Class HexCrateLaws `{HexCrate} : Prop := hex_crate_spec : forall bs, hex_crate_encode bs = hex_encode bs.

(** [ObjectId::to_hex]. *)
Definition to_hex `{HexCrate} (id : ObjectId) : bytes := hex_crate_encode (as_bytes id).

Definition parse_ref_target (alg : GitHashAlgorithm) (value : bytes) : outcome RefTarget :=
  match strip_prefix (bstr "ref: ") value with
  | Some target =>
      _ ← validate_ref_name target;
      Ok (Symbolic target)
  | None =>
      id ← from_hex_bytes alg value;
      Ok (Direct id)
  end.

Definition parse_packed_ref_line (alg : GitHashAlgorithm) (line : bytes) : outcome (option (ObjectId * bytes)) :=
  if bool_decide (line = []) || starts_with (bstr "#") line || starts_with (bstr "^") line then Ok None else
  match split_on " "%byte line with
  | [] => Ok None
  | [_] => fail InvalidData "packed ref missing ref name"
  | [id; name] =>
      _ ← validate_ref_name name;
      id ← from_hex_bytes alg id;
      Ok (Some (id, name))
  | _ => fail InvalidData "packed ref has trailing fields"
  end.

(** One turn of the loops over the lines of a file. *)
Definition line_of (raw : bytes * bool) : outcome bytes :=
  _ ← check (negb (utf8_valid raw.1)) InvalidData "stream did not contain valid UTF-8";
  Ok (chomp raw).

(** The loop of [for_each_packed_ref_line]: the callback says whether to go on. *)
Fixpoint packed_ref_line_loop {S : Type} (on_line : bytes -> S -> outcome (S * bool)) (raws : list (bytes * bool)) (s : S)
  : outcome S :=
  match raws with
  | [] => Ok s
  | raw :: raws =>
      line ← line_of raw;
      '(s, go_on) ← on_line line s;
      if (go_on : bool) then packed_ref_line_loop on_line raws s else Ok s
  end.

Fixpoint packed_refs_contains_loop (alg : GitHashAlgorithm) (raws : list (bytes * bool)) (name : bytes) : outcome bool :=
  match raws with
  | [] => Ok false
  | raw :: raws =>
      line ← line_of raw;
      entry ← parse_packed_ref_line alg line;
      match entry with
      | Some (_, ref_name) => if bool_decide (ref_name = name) then Ok true else packed_refs_contains_loop alg raws name
      | None => packed_refs_contains_loop alg raws name
      end
  end.

Definition packed_refs_contains_ref (alg : GitHashAlgorithm) (content name : bytes) : outcome bool :=
  packed_refs_contains_loop alg (raw_lines content) name.

(** The lines of [pack_refs] and of [write_fresh_packed_refs]. *)
Definition packed_line `{HexCrate} (name : bytes) (id : ObjectId) : bytes := to_hex id ++ " "%byte :: name ++ [nl].

Definition peeled_line `{HexCrate} (id : ObjectId) : bytes := "^"%byte :: to_hex id ++ [nl].
