(* ===== verification/Refs.v ===== *)
(** * References: the store of references (zmin-git-core/src/refs.rs)

    Paths are relative to the git directory of the store; a name is joined to it. *)
From S2P Require Import Prelude Order Object Text Tag Index Store Reader FileSystem RefNames.

(** ** Definitions *)

Record PackRefsOptions : Set := MkPackRefsOptions { opt_all : bool; opt_prune : bool }.

Definition packed_refs_path : path := [bstr "packed-refs"].
Definition packed_refs_lock_path : path := [bstr "packed-refs.new"].
Definition head_path : path := [bstr "HEAD"].
Definition refs_root : path := [bstr "refs"].

Definition ref_path (name : bytes) : path := join_path [] name.

Definition lock_path (p : path) : path := push_suffix p (bstr ".lock").

(** *** Writing a file under a lock *)

Definition write_lock_file (lock : path) (bs : bytes) : rd Fs unit :=
  _ <~ create_new lock;
  append_file lock bs.

Definition replace_with_lock (lock p : path) : rd Fs unit := rename lock p.

Definition atomic_write (p : path) (bs : bytes) : rd Fs unit :=
  _ <~ match parent p with Some dir => create_dir_all dir | None => rret tt end;
  let lock := lock_path p in
  _ <~ or_remove lock (write_lock_file lock bs);
  or_remove lock (replace_with_lock lock p).

(** *** Loose references *)

(** The loop of [prune_empty_ref_parent_dirs], over the directories of the path from the innermost. *)
Fixpoint prune_loop (rdir : path) : rd Fs unit :=
  match rdir with
  | [] => rret tt
  | _ :: rparent => fun fs =>
      if bool_decide (rev rdir = refs_root) || bool_decide (rev rparent = refs_root) then (Ok tt, fs) else
      match remove_dir (rev rdir) fs with
      | (Ok _, fs) => prune_loop rparent fs
      | (Err e, fs) =>
          match err_kind e with
          | NotFound => prune_loop rparent fs
          | DirectoryNotEmpty => (Ok tt, fs)
          | _ => (Err e, fs)
          end
      | (Panic, fs) => (Panic, fs)
      | (NoFuel, fs) => (NoFuel, fs)
      end
  end.

Definition prune_empty_ref_parent_dirs (p : path) : rd Fs unit :=
  match parent p with
  | Some dir => prune_loop (rev dir)
  | None => rret tt
  end.

Section listing.
Context `{DirOrder}.

(** The loop over the entries of a directory, where [below] collects from a directory below. *)
Fixpoint collect_entries (below : path -> bytes -> list (bytes * unit) -> rd Fs (list (bytes * unit)))
  (dir : path) (prefix : bytes) (children : list (bytes * FsNode)) (refs : list (bytes * unit))
  : rd Fs (list (bytes * unit)) :=
  match children with
  | [] => rret refs
  | (entry_name, node) :: children =>
      let name := from_utf8_lossy entry_name in
      let ref_name := prefix ++ "/"%byte :: name in
      match node with
      | FDir =>
          refs <~ below (dir ++ [entry_name]) ref_name refs;
          collect_entries below dir prefix children refs
      | FFile _ =>
          if ends_with (bstr ".lock") name then collect_entries below dir prefix children refs else
          _ <~ rlift (validate_ref_name ref_name);
          collect_entries below dir prefix children (bt_insert cmp_bytes ref_name tt refs)
      end
  end.

(** The fuel bounds the depth of the directories. *)
Fixpoint collect_loose_refs_from_dir (fuel : nat) (dir : path) (prefix : bytes) (refs : list (bytes * unit))
  : rd Fs (list (bytes * unit)) :=
  match fuel with
  | 0 => rlift NoFuel
  | S fuel =>
      children <~ read_dir dir;
      collect_entries (collect_loose_refs_from_dir fuel) dir prefix children refs
  end.

Definition collect_loose_refs (prefix : bytes) (refs : list (bytes * unit)) : rd Fs (list (bytes * unit)) := fun fs =>
  (there <~ fs_exists_joined [] prefix;
   if (there : bool) then
     collect_loose_refs_from_dir (S (fs_depth fs)) (join_path [] prefix) (trim_end_byte "/"%byte prefix) refs
   else rret refs) fs.

Definition loose_ref_names (prefix : bytes) : rd Fs (list bytes) :=
  _ <~ rlift (validate_ref_prefix prefix);
  refs <~ collect_loose_refs prefix [];
  rret (map fst refs).
End listing.

(** *** Packed references *)

Definition read_packed_lines : rd Fs (list (bytes * bool)) :=
  content <~ or_absent (fs_read packed_refs_path);
  rret (match content with Some content => raw_lines content | None => [] end).

Definition for_each_packed_ref_line {S : Type} (on_line : bytes -> S -> outcome (S * bool)) (s : S) : rd Fs S :=
  raws <~ read_packed_lines;
  rlift (packed_ref_line_loop on_line raws s).

Definition packed_on_line {S : Type} (alg : GitHashAlgorithm) (on_ref : ObjectId -> bytes -> S -> outcome (S * bool))
  (line : bytes) (s : S) : outcome (S * bool) :=
  entry ← parse_packed_ref_line alg line;
  match entry with
  | Some (id, ref_name) => on_ref id ref_name s
  | None => Ok (s, true)
  end.

Definition for_each_packed_ref {S : Type} (alg : GitHashAlgorithm) (on_ref : ObjectId -> bytes -> S -> outcome (S * bool))
  (s : S) : rd Fs S := for_each_packed_ref_line (packed_on_line alg on_ref) s.

Definition read_packed_ref (alg : GitHashAlgorithm) (name : bytes) : rd Fs (option RefTarget) :=
  for_each_packed_ref alg (fun id ref_name found =>
    if bool_decide (ref_name = name) then Ok (Some (Direct id), false) else Ok (found, true)) None.

Definition read_packed_refs (alg : GitHashAlgorithm) : rd Fs (list (bytes * ObjectId)) :=
  for_each_packed_ref alg (fun id ref_name refs => Ok (bt_insert cmp_bytes ref_name id refs, true)) [].

(** The loop of [write_packed_refs_without_ref] after the lock is created. *)
Fixpoint copy_without_ref (alg : GitHashAlgorithm) (lock : path) (name : bytes) (raws : list (bytes * bool))
  (skip_peeled : bool) : rd Fs unit :=
  match raws with
  | [] => rret tt
  | raw :: raws =>
      line <~ rlift (line_of raw);
      if skip_peeled && starts_with (bstr "^") line then copy_without_ref alg lock name raws false else
      entry <~ rlift (parse_packed_ref_line alg line);
      if match entry with Some (_, ref_name) => bool_decide (ref_name = name) | None => false end
      then copy_without_ref alg lock name raws true
      else
        _ <~ append_file lock line;
        _ <~ append_file lock [nl];
        copy_without_ref alg lock name raws false
  end.

Definition write_packed_refs_without_ref (alg : GitHashAlgorithm) (content : bytes) (lock : path) (name : bytes)
  : rd Fs unit :=
  _ <~ create_new lock;
  copy_without_ref alg lock name (raw_lines content) false.

Definition delete_packed_ref (alg : GitHashAlgorithm) (name : bytes) : rd Fs bool :=
  content <~ or_absent (fs_read packed_refs_path);
  match content with
  | None => rret false
  | Some content =>
      there <~ rlift (packed_refs_contains_ref alg content name);
      if negb there then rret false else
      content <~ fs_read packed_refs_path;
      _ <~ or_remove packed_refs_lock_path
             (write_packed_refs_without_ref alg content packed_refs_lock_path name);
      _ <~ or_remove packed_refs_lock_path (replace_with_lock packed_refs_lock_path packed_refs_path);
      rret true
  end.

(** *** The operations of [RefStore] *)

Section store.
Context `{HexCrate} (alg : GitHashAlgorithm).

Definition check_ref_algorithm (id : ObjectId) : outcome unit :=
  check (negb (bool_decide (algorithm id = alg))) InvalidInput "object id algorithm does not match ref store".

Definition direct_text (id : ObjectId) : bytes := to_hex id ++ [nl].
Definition symbolic_text (target : bytes) : bytes := bstr "ref: " ++ target ++ [nl].

Definition write_ref (name : bytes) (id : ObjectId) : rd Fs unit :=
  _ <~ rlift (validate_ref_name name);
  _ <~ rlift (check_ref_algorithm id);
  atomic_write (ref_path name) (direct_text id).

Definition write_head_symbolic (target : bytes) : rd Fs unit :=
  _ <~ rlift (validate_ref_name target);
  atomic_write head_path (symbolic_text target).

Definition write_head_direct (id : ObjectId) : rd Fs unit :=
  _ <~ rlift (check_ref_algorithm id);
  atomic_write head_path (direct_text id).

Definition write_symbolic_ref (name target : bytes) : rd Fs unit :=
  if bool_decide (name = bstr "HEAD") then write_head_symbolic target else
  _ <~ rlift (validate_ref_name name);
  _ <~ rlift (validate_ref_name target);
  atomic_write (ref_path name) (symbolic_text target).

Definition delete_ref (name : bytes) : rd Fs unit :=
  _ <~ rlift (validate_ref_name name);
  removed <~ or_absent (remove_file (ref_path name));
  _ <~ match removed with
       | Some _ => prune_empty_ref_parent_dirs (ref_path name)
       | None => rret tt
       end;
  packed <~ delete_packed_ref alg name;
  if bool_decide (is_Some removed) || packed then rret tt else rlift (fail NotFound "ref not found").

Definition read_ref (name : bytes) : rd Fs RefTarget :=
  _ <~ rlift (validate_ref_name name);
  raw <~ or_absent (fs_read_to_string (ref_path name));
  match raw with
  | Some raw => rlift (parse_ref_target alg (trim_end_byte nl raw))
  | None =>
      found <~ read_packed_ref alg name;
      rlift (ok_or found NotFound "ref not found")
  end.

Definition read_head : rd Fs RefTarget :=
  raw <~ fs_read_to_string head_path;
  rlift (parse_ref_target alg (trim_end_byte nl raw)).

Definition resolve (name : bytes) : rd Fs ObjectId :=
  target <~ (if bool_decide (name = bstr "HEAD") then read_head else read_ref name);
  match target with
  | Direct id => rret id
  | Symbolic target =>
      target <~ read_ref target;
      match target with
      | Direct id => rret id
      | Symbolic _ => rlift (fail InvalidData "nested symbolic refs are not supported yet")
      end
  end.

(** [peel_tag_ref]: the fuel bounds the length of a chain of tags. *)
Fixpoint peel_loop `{GitObjectStore St} (fuel : nat) (store : St) (id_alg : GitHashAlgorithm) (tag : TagObject)
  : outcome (option ObjectId) :=
  match fuel with
  | 0 => NoFuel
  | S fuel =>
      if negb (bool_decide (to_target_kind tag = Tag)) then Ok (Some (to_target tag)) else
      match read_object store (to_target tag) with
      | Ok object =>
          tag ← decode_tag id_alg (lo_content object);
          peel_loop fuel store id_alg tag
      | Err e => match err_kind e with NotFound => Ok None | _ => Err e end
      | Panic => Panic
      | NoFuel => NoFuel
      end
  end.

Definition peel_tag_ref `{GitObjectStore St} (fuel : nat) (store : St) (id : ObjectId) : outcome (option ObjectId) :=
  match read_object store id with
  | Ok object =>
      if negb (bool_decide (lo_kind object = Tag)) then Ok None else
      tag ← decode_tag (algorithm id) (lo_content object);
      peel_loop fuel store (algorithm id) tag
  | Err e => match err_kind e with NotFound => Ok None | _ => Err e end
  | Panic => Panic
  | NoFuel => NoFuel
  end.

(** *** Packing *)

Context `{DirOrder} `{GitObjectStore St} (fuel : nat) (objects : St).

(** The loop of [pack_refs] over the loose names: the references to pack and the names to prune. *)
Fixpoint pack_refs_loop (all : bool) (packed_names names : list bytes) (refs : list (bytes * ObjectId))
  (prune_names : list bytes) : rd Fs (list (bytes * ObjectId) * list bytes) :=
  match names with
  | [] => rret (refs, prune_names)
  | name :: names =>
      if negb (all || starts_with (bstr "refs/tags/") name || bool_decide (name ∈ packed_names))
      then pack_refs_loop all packed_names names refs prune_names
      else
        target <~ read_ref name;
        match target with
        | Direct id => pack_refs_loop all packed_names names (bt_insert cmp_bytes name id refs) (prune_names ++ [name])
        | Symbolic _ => pack_refs_loop all packed_names names refs prune_names
        end
  end.

Fixpoint packed_text_loop (refs : list (bytes * ObjectId)) (out : bytes) : outcome bytes :=
  match refs with
  | [] => Ok out
  | (name, id) :: refs =>
      let out := out ++ packed_line name id in
      peeled ← peel_tag_ref fuel objects id;
      packed_text_loop refs (match peeled with Some peeled => out ++ peeled_line peeled | None => out end)
  end.

Fixpoint prune_names_loop (names : list bytes) : rd Fs unit :=
  match names with
  | [] => rret tt
  | name :: names =>
      _ <~ or_absent (remove_file (ref_path name));
      prune_names_loop names
  end.

Definition pack_refs (options : PackRefsOptions) : rd Fs unit :=
  packed_refs <~ read_packed_refs alg;
  let packed_names := map fst packed_refs in
  names <~ loose_ref_names (bstr "refs/");
  '(refs, prune_names) <~ pack_refs_loop (opt_all options) packed_names names packed_refs [];
  out <~ rlift (packed_text_loop refs (bstr "# pack-refs with: peeled fully-peeled sorted " ++ [nl]));
  _ <~ atomic_write packed_refs_path out;
  if opt_prune options then prune_names_loop prune_names else rret tt.

(** *** A fresh clone's references *)

Fixpoint fresh_direct_loop (direct_refs : list (bytes * ObjectId)) (packed : list (bytes * ObjectId))
  : outcome (list (bytes * ObjectId)) :=
  match direct_refs with
  | [] => Ok packed
  | (name, id) :: direct_refs =>
      _ ← validate_ref_name name;
      _ ← check_ref_algorithm id;
      fresh_direct_loop direct_refs (bt_insert cmp_bytes name id packed)
  end.

Fixpoint fresh_symbolic_check (symbolic_refs : list (bytes * bytes)) : outcome unit :=
  match symbolic_refs with
  | [] => Ok tt
  | (name, target) :: symbolic_refs =>
      _ ← (if bool_decide (name = bstr "HEAD") then validate_ref_name target
           else _ ← validate_ref_name name; validate_ref_name target);
      fresh_symbolic_check symbolic_refs
  end.

Definition fresh_text (packed : list (bytes * ObjectId)) : bytes :=
  bstr "# pack-refs with: sorted" ++ [nl] ++ packed ≫= (fun '(name, id) => packed_line name id).

Fixpoint write_symbolic_refs (symbolic_refs : list (bytes * bytes)) : rd Fs unit :=
  match symbolic_refs with
  | [] => rret tt
  | (name, target) :: symbolic_refs =>
      _ <~ write_symbolic_ref name target;
      write_symbolic_refs symbolic_refs
  end.

Definition write_fresh_packed_refs (direct_refs : list (bytes * ObjectId)) (symbolic_refs : list (bytes * bytes))
  : rd Fs unit :=
  packed <~ rlift (fresh_direct_loop direct_refs []);
  _ <~ rlift (fresh_symbolic_check symbolic_refs);
  _ <~ (if bool_decide (packed = []) then rret tt else atomic_write packed_refs_path (fresh_text packed));
  write_symbolic_refs symbolic_refs.

(** *** Enumeration *)

Definition ref_names (prefix : bytes) : rd Fs (list bytes) :=
  _ <~ rlift (validate_ref_prefix prefix);
  refs <~ collect_loose_refs prefix [];
  refs <~ for_each_packed_ref alg (fun _ name refs =>
            Ok (if starts_with prefix name then bt_insert cmp_bytes name tt refs else refs, true)) refs;
  rret (map fst refs).

(** [for_each_ref_name] with the visitor of [list_refs]. *)
Fixpoint visit_names {V : Type} (on_ref : bytes -> V -> outcome V) (names : list bytes) (v : V) : outcome V :=
  match names with
  | [] => Ok v
  | name :: names => v ← on_ref name v; visit_names on_ref names v
  end.

Definition for_each_ref_name {V : Type} (prefix : bytes) (on_ref : bytes -> V -> outcome V) (v : V) : rd Fs V :=
  names <~ ref_names prefix;
  rlift (visit_names on_ref names v).

Definition list_refs (prefix : bytes) : rd Fs (list bytes) :=
  for_each_ref_name prefix (fun name refs => Ok (refs ++ [name])) [].

Fixpoint resolved_loop (names : list bytes) (refs : list (bytes * ObjectId)) : rd Fs (list (bytes * ObjectId)) :=
  match names with
  | [] => rret refs
  | name :: names =>
      id <~ resolve name;
      resolved_loop names (bt_insert cmp_bytes name id refs)
  end.

Definition resolved_refs (prefix : bytes) : rd Fs (list (bytes * ObjectId)) :=
  _ <~ rlift (validate_ref_prefix prefix);
  refs <~ for_each_packed_ref alg (fun id name refs =>
            Ok (if starts_with prefix name then bt_insert cmp_bytes name id refs else refs, true)) [];
  names <~ loose_ref_names prefix;
  resolved_loop names refs.

Fixpoint visit_resolved {V : Type} (on_ref : bytes -> ObjectId -> V -> outcome V) (refs : list (bytes * ObjectId)) (v : V)
  : outcome V :=
  match refs with
  | [] => Ok v
  | (name, id) :: refs => v ← on_ref name id v; visit_resolved on_ref refs v
  end.

Definition for_each_resolved_ref {V : Type} (prefix : bytes) (on_ref : bytes -> ObjectId -> V -> outcome V) (v : V)
  : rd Fs V :=
  refs <~ resolved_refs prefix;
  rlift (visit_resolved on_ref refs v).

Definition for_each_server_info_ref {V : Type} (on_ref : ObjectId -> bytes -> V -> outcome V) (v : V) : rd Fs V :=
  for_each_resolved_ref (bstr "refs/") (fun name id v =>
    v ← on_ref id name v;
    peeled ← peel_tag_ref fuel objects id;
    match peeled with
    | Some peeled => on_ref peeled (name ++ bstr "^{}") v
    | None => Ok v
    end) v.

Definition server_info_refs : rd Fs (list (ObjectId * bytes)) :=
  for_each_server_info_ref (fun id name rows => Ok (rows ++ [(id, name)])) [].
End store.
