(* ===== verification/RefSpec.v ===== *)
(** * References: what names and texts are accepted, and what they read as *)
From S2P Require Import Prelude Order Object Text Index Reader FileSystem RefNames.

(** A decidable fact about closed texts. *)
Ltac by_decide := apply (bool_decide_unpack _); vm_compute; exact I.

(** ** Texts inside texts *)

Definition occurs (needle l : bytes) : Prop := exists a b, l = a ++ needle ++ b.

Lemma find_subslice_is_Some needle l : is_Some (find_subslice needle l) <-> occurs needle l.
Proof.
  split.
  - induction l as [|b l IH]; cbn [find_subslice]; destruct (starts_with needle _) eqn:E; try (by intros [? ?]).
    + intros _. apply starts_with_spec in E as [r E]. by exists [], r.
    + intros _. apply starts_with_spec in E as [r E]. by exists [], r.
    + intros [i (j & Hj & _)%fmap_Some]. destruct IH as (a & c & ->); [by eexists|]. by exists (b :: a), c.
  - intros (a & b & ->). induction a as [|x a IH]; cbn [app find_subslice].
    + replace (find_subslice needle (needle ++ b)) with (Some 0); [done|].
      destruct (needle ++ b) eqn:E; cbn [find_subslice]; rewrite <- E, starts_with_app; done.
    + destruct (starts_with _ _); [done|]. destruct IH as [i ->]. by exists (S i).
Qed.

Lemma contains_str_true needle l : contains_str needle l = true <-> occurs needle l.
Proof. unfold contains_str. rewrite bool_decide_eq_true. apply find_subslice_is_Some. Qed.

Lemma contains_str_false needle l : contains_str needle l = false <-> ~ occurs needle l.
Proof. rewrite <- contains_str_true. by destruct (contains_str needle l). Qed.

(** A text without the separator occurs in a joined text where it occurs in a piece. *)
Lemma occurs_join c needle ps : needle <> [] -> c ∉ needle ->
  occurs needle (join_with c ps) <-> exists p, p ∈ ps /\ occurs needle p.
Proof.
  intros Hne Hc. split.
  - induction ps as [|p ps IH].
    { intros (a & b & E). cbn in E. symmetry in E. apply app_eq_nil in E as [_ [? _]%app_eq_nil]. done. }
    destruct ps as [|q ps]; [intros Ho; exists p; split; [by left|done]|].
    rewrite join_with_cons. intros (a & b & E). apply app_eq_inv in E as [(k & -> & E)|(k & -> & E)].
    + apply app_eq_inv in E as [(k2 & -> & E)|(k2 & -> & E)].
      * destruct k2 as [|x k2].
        -- exists (a ++ k). split; [by left|]. rewrite app_nil_r. exists a, []. by rewrite app_nil_r.
        -- exfalso. injection E as <- E. apply Hc. apply elem_of_app. right. by left.
      * exists (a ++ needle ++ k2). split; [by left|]. by exists a, k2.
    + destruct k as [|x k].
      * exfalso. destruct needle as [|y needle]; [done|]. injection E as <- E. apply Hc. by left.
      * injection E as <- E. destruct IH as (p' & Hin & Ho); [by exists k, b|]. exists p'. split; [by right|done].
  - intros (p & Hin & Ho). induction ps as [|p' ps IH]; [by apply elem_of_nil in Hin|].
    destruct ps as [|q ps].
    + apply elem_of_cons in Hin as [->|Hin%elem_of_nil]; done.
    + rewrite join_with_cons. apply elem_of_cons in Hin as [<-|Hin].
      * destruct Ho as (a & b & ->). exists a, (b ++ c :: join_with c (q :: ps)). by rewrite <- !app_assoc.
      * destruct IH as (a & b & ->); [done|]. exists (p' ++ c :: a), b. by rewrite <- !app_assoc.
Qed.

(** ** Names *)

(** The bytes a component may hold: those above the space, save the delete character and the marks of git's
    rules. *)
Definition ref_byte_ok (b : byte) : Prop :=
  (32 < u8 b)%N /\ u8 b <> 127%N /\
  b <> "/"%byte /\ b <> "\"%byte /\ b <> "~"%byte /\ b <> "^"%byte /\ b <> ":"%byte /\ b <> "?"%byte /\
  b <> "*"%byte /\ b <> "["%byte.

(** The tests of the code keep out the bytes that [ref_byte_ok] leaves out. *)
Lemma ref_byte_ok_iff b : ref_byte_ok b <->
  b <> "/"%byte /\ b <> "\"%byte /\ control_byte b = false /\ special_byte b = false.
Proof. by split; destruct b; vm_compute; naive_solver. Qed.

Lemma slash_not_ok : ~ ref_byte_ok "/"%byte.
Proof. intros H. by apply ref_byte_ok_iff in H as [? _]. Qed.

(** A component of a name. *)
Definition ref_component_ok (part : bytes) : Prop :=
  part <> [] /\ ~ bstr "." `prefix_of` part /\ ~ bstr ".lock" `suffix_of` part /\
  ~ occurs (bstr "..") part /\ ~ occurs (bstr "@{") part /\ Forall ref_byte_ok part.

Lemma bad_component_false part : bad_component part = false <->
  part <> [] /\ ~ bstr "." `prefix_of` part /\ ~ bstr ".lock" `suffix_of` part.
Proof.
  unfold bad_component. rewrite !orb_false_iff, !bool_decide_eq_false, starts_with_false, ends_with_false.
  split; [tauto|]. intros (H1 & H2 & H3). split_and!; try done; intros ->; apply H2; vm_compute; by eexists.
Qed.

Lemma existsb_false {A} (f : A -> bool) l : existsb f l = false <-> Forall (fun x => f x = false) l.
Proof.
  induction l as [|x l IH]; cbn [existsb]; [split; [constructor|done]|].
  rewrite orb_false_iff, Forall_cons, IH. done.
Qed.

(** The tests of a name that look at its bytes and not at its components. *)
Definition bytes_ok (name : bytes) : Prop :=
  ~ occurs (bstr "..") name /\ contains_byte "\"%byte name = false /\ ~ occurs (bstr "@{") name /\
  Forall (fun b => control_byte b = false) name /\ Forall (fun b => special_byte b = false) name.

Lemma validate_ref_format_Ok name one u : validate_ref_format name one = Ok u <->
  name <> [] /\ name <> bstr "@" /\ ~ bstr "/" `suffix_of` name /\ ~ bstr "." `suffix_of` name /\ ~ occurs (bstr "//") name /\
  (one = true \/ contains_byte "/"%byte name = true) /\
  Forall (fun part => part <> [] /\ ~ bstr "." `prefix_of` part /\ ~ bstr ".lock" `suffix_of` part) (split_on "/"%byte name) /\
  bytes_ok name.
Proof.
  unfold validate_ref_format, bytes_ok. rewrite !bind_check_Ok, check_Ok, !orb_false_iff, !bool_decide_eq_false,
    !ends_with_false, !contains_str_false, !existsb_false.
  assert (Hp : Forall (fun part => bad_component part = false) (split_on "/"%byte name) <->
    Forall (fun part => part <> [] /\ ~ bstr "." `prefix_of` part /\ ~ bstr ".lock" `suffix_of` part) (split_on "/"%byte name))
    by (apply Forall_iff; intros; apply bad_component_false).
  rewrite Hp, andb_false_iff, !negb_false_iff. destruct u. naive_solver.
Qed.

(** The pieces of a text that ends in no separator and has no two in a row are not empty. *)
Lemma bytes_ok_join parts : bytes_ok (join_with "/"%byte parts) -> Forall (fun p => contains_byte "/"%byte p = false) parts ->
  Forall (fun part => ~ occurs (bstr "..") part /\ ~ occurs (bstr "@{") part /\ Forall ref_byte_ok part) parts.
Proof.
  intros (H1 & H2 & H3 & H4 & H5) Hs. apply Forall_forall. intros p Hp. rewrite Forall_forall in H4. rewrite Forall_forall in H5. rewrite Forall_forall in Hs. split_and!.
  - intros Ho. apply H1. apply occurs_join; [done|by_decide|]. by exists p.
  - intros Ho. apply H3. apply occurs_join; [done|by_decide|]. by exists p.
  - apply Forall_forall. intros b Hb. assert (Hin : b ∈ join_with "/"%byte parts) by by eapply elem_of_join_2.
    apply ref_byte_ok_iff. split_and!; [|intros ->|by apply H4|by apply H5].
    + intros ->. specialize (Hs p Hp). apply contains_byte_true in Hb. congruence.
    + apply contains_byte_true in Hin. congruence.
Qed.

Lemma join_bytes_ok parts :
  Forall (fun part => ~ occurs (bstr "..") part /\ ~ occurs (bstr "@{") part /\ Forall ref_byte_ok part) parts ->
  bytes_ok (join_with "/"%byte parts).
Proof.
  intros Hp. rewrite Forall_forall in Hp.
  assert (Hb : forall b, b ∈ join_with "/"%byte parts -> b = "/"%byte \/
    (b <> "/"%byte /\ b <> "\"%byte /\ control_byte b = false /\ special_byte b = false)).
  { intros b [->|(p & Hin & Hb)]%elem_of_join; [by left|]. right. destruct (Hp p Hin) as (_ & _ & Hf).
    rewrite Forall_forall in Hf. by apply ref_byte_ok_iff, Hf. }
  split_and!.
  - rewrite occurs_join by (done || by_decide). intros (p & Hin & Ho). destruct (Hp p Hin) as (Hno & _ & _). by apply Hno.
  - apply not_true_is_false. intros Hin%contains_byte_true. destruct (Hb _ Hin) as [?|(_ & ? & _)]; done.
  - rewrite occurs_join by (done || by_decide). intros (p & Hin & Ho). destruct (Hp p Hin) as (_ & Hno & _). by apply Hno.
  - apply Forall_forall. intros b [->|(_ & _ & ? & _)]%Hb; done.
  - apply Forall_forall. intros b [->|(_ & _ & _ & ?)]%Hb; done.
Qed.

Lemma split_on_app_gen c a l : split_on c (a ++ c :: l) = split_on c a ++ split_on c l.
Proof.
  induction a as [|b a IH]; cbn [app split_on]; [by rewrite byte_eqb_refl|].
  destruct (Byte.eqb b c); [by rewrite IH|]. rewrite IH.
  pose proof (split_on_nonempty c a). by destruct (split_on c a).
Qed.

Lemma split_on_length c l : 2 <= length (split_on c l) <-> contains_byte c l = true.
Proof.
  rewrite contains_byte_true. split.
  - intros Hl. destruct (contains_byte c l) eqn:E; [by apply contains_byte_true|]. rewrite split_on_piece in Hl by done. cbn in Hl. lia.
  - intros (a & b & ->)%list_elem_of_split. rewrite split_on_app_gen, length_app.
    pose proof (split_on_nonempty c a). pose proof (split_on_nonempty c b).
    destruct (split_on c a), (split_on c b); cbn; try done; lia.
Qed.

(** Pieces that are not empty leave no empty text, no separator at the end and no two in a row. *)
Lemma no_empty_pieces l : [] ∉ split_on "/"%byte l -> l <> [] /\ ~ bstr "/" `suffix_of` l /\ ~ occurs (bstr "//") l.
Proof.
  intros Hno. split_and!.
  - intros ->. apply Hno. by left.
  - intros [a ->]. apply Hno. change (a ++ bstr "/") with (a ++ "/"%byte :: []). rewrite split_on_app_gen.
    apply elem_of_app. right. by left.
  - intros (a & b & ->). apply Hno. change (a ++ bstr "//" ++ b) with (a ++ "/"%byte :: ("/"%byte :: b)).
    rewrite split_on_app_gen. apply elem_of_app. right. by left.
Qed.

(** The names accepted, by their components. *)
Lemma check_ref_format_parts name allow_onelevel :
  check_ref_format name allow_onelevel = true <->
  exists parts, name = join_with "/"%byte parts /\ Forall ref_component_ok parts /\
    (if allow_onelevel then 1 else 2) <= length parts /\ ~ bstr "." `suffix_of` name /\ name <> bstr "@".
Proof.
  unfold check_ref_format.
  assert (Hok : is_ok (validate_ref_format name allow_onelevel) = true <-> exists u, validate_ref_format name allow_onelevel = Ok u).
  { unfold is_ok. destruct (validate_ref_format name allow_onelevel); naive_solver. }
  rewrite Hok. setoid_rewrite validate_ref_format_Ok. split.
  - intros (_ & H1 & H2 & H3 & H4 & H5 & H6 & H7 & H8). exists (split_on "/"%byte name).
    rewrite join_split_on. split; [done|]. split; [|split; [|done]].
    + pose proof (split_on_Forall "/"%byte name) as Hs. rewrite <- (join_split_on "/"%byte name) in H8.
      pose proof (bytes_ok_join _ H8 Hs) as Hb. rewrite Forall_forall in H7. rewrite Forall_forall in Hb.
      apply Forall_forall. intros p Hp. unfold ref_component_ok. specialize (H7 p Hp). specialize (Hb p Hp). tauto.
    + pose proof (split_on_nonempty "/"%byte name). destruct allow_onelevel.
      * destruct (split_on "/"%byte name); [done|cbn; lia].
      * apply split_on_length. by destruct H6.
  - intros (parts & -> & Hp & Hl & Hdot & Hat). exists tt.
    assert (Hs : split_on "/"%byte (join_with "/"%byte parts) = parts).
    { apply split_on_join; [intros ->; destruct allow_onelevel; cbn in Hl; lia|]. eapply Forall_impl; [exact Hp|].
      intros p (_ & _ & _ & _ & _ & Hb). apply not_true_is_false. intros Hin%contains_byte_true. rewrite Forall_forall in Hb.
      by apply slash_not_ok, Hb. }
    destruct (no_empty_pieces (join_with "/"%byte parts)) as (N1 & N2 & N3).
    { rewrite Hs. intros Hin. rewrite Forall_forall in Hp. by destruct (Hp _ Hin). }
    split_and!; try done.
    + destruct allow_onelevel; [by left|right]. apply split_on_length. by rewrite Hs.
    + rewrite Hs. eapply Forall_impl; [exact Hp|]. unfold ref_component_ok. tauto.
    + apply join_bytes_ok. eapply Forall_impl; [exact Hp|]. unfold ref_component_ok. tauto.
Qed.

(** C35: the names accepted are those of git's rules: components separated by single slashes, none of them
    empty, none beginning with a dot or ending in [.lock], no two dots and no [@{] in a row, no backslash,
    control character, space, tilde, caret, colon, question mark, asterisk or bracket, no dot at the end, not
    [@] alone, and at least two components unless one is allowed. *)
Theorem check_ref_format_spec name allow_onelevel :
  check_ref_format name allow_onelevel = true <->
  exists parts, name = join_with "/"%byte parts /\ Forall ref_component_ok parts /\
    (if allow_onelevel then 1 else 2) <= length parts /\ ~ bstr "." `suffix_of` name /\ name <> bstr "@".
Proof. apply check_ref_format_parts. Qed.

(** *** Names of references *)

(** A name of a reference, by its components below [refs]. *)
Definition ref_name_of (parts : list bytes) (name : bytes) : Prop :=
  name = join_with "/"%byte (bstr "refs" :: parts) /\ parts <> [] /\ Forall ref_component_ok parts /\ ~ bstr "." `suffix_of` name.

Lemma component_no_slash p : ref_component_ok p -> contains_byte "/"%byte p = false.
Proof.
  intros (_ & _ & _ & _ & _ & Hb). apply not_true_is_false. intros Hin%contains_byte_true. rewrite Forall_forall in Hb.
  by apply slash_not_ok, Hb.
Qed.

Lemma refs_component_ok : ref_component_ok (bstr "refs").
Proof.
  unfold ref_component_ok. rewrite <- starts_with_false, <- ends_with_false, <- !contains_str_false.
  split_and!; try reflexivity; [done|]. repeat constructor; done.
Qed.

Lemma ref_name_component parts name : ref_name_of parts name -> split_on "/"%byte name = bstr "refs" :: parts.
Proof.
  intros (-> & _ & Hp & _). apply split_on_join; [done|]. constructor; [reflexivity|].
  eapply Forall_impl; [exact Hp|]. apply component_no_slash.
Qed.

Lemma validate_ref_name_Ok name u : validate_ref_name name = Ok u <-> exists parts, ref_name_of parts name.
Proof.
  unfold validate_ref_name. rewrite check_Ok, orb_false_iff, !negb_false_iff.
  change (is_ok (validate_ref_format name false)) with (check_ref_format name false).
  rewrite check_ref_format_parts, starts_with_spec. split.
  - intros [([r Hr] & parts & E & Hp & Hl & Hdot & _) _]. assert (Hs : split_on "/"%byte name = parts).
    { rewrite E. apply split_on_join; [intros ->; cbn in Hl; lia|]. eapply Forall_impl; [exact Hp|]. apply component_no_slash. }
    rewrite Hr in Hs. change (bstr "refs/" ++ r) with (bstr "refs" ++ "/"%byte :: r) in Hs.
    rewrite split_on_app in Hs by done. subst parts. exists (split_on "/"%byte r). apply Forall_cons in Hp as [_ Hp].
    split_and!; [done|apply split_on_nonempty|done|done].
  - intros (parts & Hn). pose proof Hn as (E & Hne & Hp & Hdot). split; [|by destruct u]. split.
    + destruct parts as [|p parts]; [done|]. exists (join_with "/"%byte (p :: parts)). by rewrite E.
    + exists (bstr "refs" :: parts). split; [done|]. split; [constructor; [apply refs_component_ok|done]|].
      split; [destruct parts; [done|cbn; lia]|]. split; [done|]. intros E2.
      pose proof (ref_name_component _ _ Hn) as Hs. rewrite E2 in Hs. done.
Qed.

Lemma join_path_components p name : Forall (fun c => c <> [] /\ c <> bstr ".") (split_on "/"%byte name) ->
  join_path p name = p ++ split_on "/"%byte name.
Proof. intros Hc. unfold join_path. f_equal. by apply filter_all. Qed.

Lemma component_plain c : ref_component_ok c -> c <> [] /\ c <> bstr ".".
Proof. intros (? & Hd & _). split; [done|]. intros ->. by apply Hd. Qed.

Lemma ref_name_path parts name : ref_name_of parts name -> join_path [] name = bstr "refs" :: parts.
Proof.
  intros Hn. rewrite join_path_components; rewrite (ref_name_component _ _ Hn); [done|].
  destruct Hn as (_ & _ & Hp & _). constructor; [done|]. eapply Forall_impl; [exact Hp|]. apply component_plain.
Qed.

(** ** Texts *)

Lemma utf8_next_app x a b n : utf8_next x a = inl n -> utf8_next x (a ++ b) = inl n.
Proof.
  unfold utf8_next. destruct (u8 x <? 128)%N; [done|]. destruct (in_range 194 223 x).
  { destruct a as [|c a]; [done|]. done. }
  destruct (in_range 224 239 x).
  { destruct a as [|c [|d a]]; [done| |done]. cbn [app]. by destruct (if (u8 x =? 224)%N then _ else _). }
  destruct (in_range 240 244 x); [|done]. destruct a as [|c [|d [|e a]]]; [done|..|done]; cbn [app];
    destruct (if (u8 x =? 240)%N then _ else _); try done. by destruct (is_cont d).
Qed.

Lemma utf8_loop_fuel f1 f2 l : length l <= f1 -> length l <= f2 -> utf8_valid_loop f1 l = utf8_valid_loop f2 l.
Proof.
  revert f2 l. induction f1 as [|f1 IH]; intros [|f2] [|b l] H1 H2; cbn [length] in *; try lia; try done.
  cbn [utf8_valid_loop]. destruct (utf8_next b l) as [n|n] eqn:E; [|done]. apply utf8_next_inl in E.
  apply IH; rewrite length_drop; cbn [length]; lia.
Qed.

Lemma utf8_valid_app_eq a b : utf8_valid a = true -> utf8_valid (a ++ b) = utf8_valid b.
Proof.
  unfold utf8_valid at 1. revert a.
  assert (Hg : forall fuel a, utf8_valid_loop fuel a = true -> utf8_valid_loop (length (a ++ b)) (a ++ b) = utf8_valid b); [|intros a; apply Hg].
  induction fuel as [|fuel IH]; intros [|x a] Ha; cbn [utf8_valid_loop] in Ha; try done.
  destruct (utf8_next x a) as [n|n] eqn:E; [|done]. pose proof (utf8_next_inl _ _ _ E) as Hn.
  cbn [app length utf8_valid_loop]. rewrite (utf8_next_app _ _ b _ E).
  change (x :: a ++ b) with ((x :: a) ++ b). rewrite drop_app_le by (cbn [length]; lia).
  rewrite (utf8_loop_fuel _ (length (drop n (x :: a) ++ b))); [by apply IH| |done].
  rewrite !length_app, length_drop. cbn [length]. lia.
Qed.

Lemma utf8_valid_app a b : utf8_valid a = true -> utf8_valid b = true -> utf8_valid (a ++ b) = true.
Proof. intros Ha Hb. by rewrite utf8_valid_app_eq. Qed.

Section texts.
Context `{HexCrateLaws}.

Lemma to_hex_text id : Forall (fun b => (48 <= u8 b < 128)%N) (to_hex id).
Proof. unfold to_hex. rewrite hex_crate_spec. apply hex_encode_text. Qed.

Lemma to_hex_no c id : (u8 c < 48)%N -> c ∉ to_hex id.
Proof. intros Hc Hin. pose proof (to_hex_text id) as Ht. rewrite Forall_forall in Ht. specialize (Ht _ Hin). lia. Qed.

Lemma to_hex_utf8 id : utf8_valid (to_hex id) = true.
Proof. apply utf8_valid_ascii. eapply Forall_impl; [apply to_hex_text|]. cbn. lia. Qed.

Lemma to_hex_parse id : ObjectId_wf id -> from_hex_bytes (algorithm id) (to_hex id) = Ok id.
Proof. unfold to_hex. rewrite hex_crate_spec. apply from_hex_bytes_encode. Qed.

(** The text of a loose reference reads back. *)
Lemma direct_target id : ObjectId_wf id -> parse_ref_target (algorithm id) (trim_end_byte nl (to_hex id ++ [nl])) = Ok (Direct id).
Proof.
  intros Hwf. rewrite trim_end_keep by (apply to_hex_no; done). unfold parse_ref_target.
  destruct (strip_prefix (bstr "ref: ") (to_hex id)) as [r|] eqn:E.
  - exfalso. apply strip_prefix_Some in E. apply (to_hex_no " "%byte id); [done|]. rewrite E. apply elem_of_app. left.
    by apply (bool_decide_unpack _).
  - by rewrite to_hex_parse, bind_Ok.
Qed.

Lemma ref_name_bytes parts name : ref_name_of parts name -> Forall (fun b => ref_byte_ok b \/ b = "/"%byte) name.
Proof.
  intros (-> & _ & Hp & _). apply Forall_forall. intros b [->|(p & Hin & Hb)]%elem_of_join; [by right|]. left.
  assert (Hc : ref_component_ok p).
  { apply elem_of_cons in Hin as [->|Hin]; [apply refs_component_ok|]. rewrite Forall_forall in Hp. by apply Hp. }
  destruct Hc as (_ & _ & _ & _ & _ & Hf). rewrite Forall_forall in Hf. by apply Hf.
Qed.

Lemma ref_name_no parts name c : ref_name_of parts name -> (u8 c <? 33)%N = true -> c ∉ name.
Proof.
  intros Hn Hc Hin. pose proof (ref_name_bytes _ _ Hn) as Hb. rewrite Forall_forall in Hb.
  destruct (Hb _ Hin) as [(Hlow & _)| ->]; [|discriminate Hc]. apply N.ltb_lt in Hc. lia.
Qed.

Lemma symbolic_target alg parts target : ref_name_of parts target ->
  parse_ref_target alg (trim_end_byte nl (bstr "ref: " ++ target ++ [nl])) = Ok (Symbolic target).
Proof.
  intros Hn. rewrite app_assoc, trim_end_keep.
  - unfold parse_ref_target. rewrite strip_prefix_app.
    assert (Hv : validate_ref_name target = Ok tt) by (apply validate_ref_name_Ok; by exists parts). by rewrite Hv, bind_Ok.
  - rewrite elem_of_app. intros [Hin|Hin]; [by revert Hin; apply (bool_decide_unpack (nl ∉ bstr "ref: "))|].
    by apply (ref_name_no _ _ nl Hn).
Qed.
End texts.
