(* ===== verification/Attributes.v ===== *)
(** * Attributes, ident and end-of-line conversion (zmin-git-core/src/attributes.rs) *)
From S2P Require Import Prelude Order Object Text Reader FileSystem Wildcard Ignore RefNames RefSpec.

(** ** Definitions *)

Inductive AttributeValue : Set := AttrSet | AttrUnset | AttrUnspecified | AttrValue (value : bytes).

#[export] Instance AttributeValue_eq_dec : EqDecision AttributeValue.
Proof. solve_decision. Defined.

Definition as_check_attr_value (value : AttributeValue) : bytes :=
  match value with
  | AttrSet => bstr "set"
  | AttrUnset => bstr "unset"
  | AttrUnspecified => bstr "unspecified"
  | AttrValue value => value
  end.

Record AttributeAssignment : Set := MkAttributeAssignment { aa_name : bytes; aa_value : AttributeValue }.

Record AttributeRule : Set := MkAttributeRule { ar_pattern : bytes; ar_assignments : list AttributeAssignment }.

Record GitAttributes : Set := MkGitAttributes { rules : list AttributeRule }.

(** *** Characters *)

(** The characters of a text, each with its bytes; the fuel is the length. *)
Fixpoint chars_loop (fuel : nat) (l : bytes) : list bytes :=
  match fuel, l with
  | S fuel, b :: rest =>
      let n := match utf8_next b rest with inl n => n | inr n => n end in
      take n l :: chars_loop fuel (drop n l)
  | _, _ => []
  end.

Definition chars (l : bytes) : list bytes := chars_loop (length l) l.

(** [char::is_whitespace]: the property White_Space of Unicode. *)
Definition char_is_whitespace (c : bytes) : bool :=
  match map u8 c with
  | [b] => ((9 <=? b) && (b <=? 13) || (b =? 32))%N
  | [194; b] => ((b =? 133) || (b =? 160))%N
  | [225; 154; 128] => true
  | [226; 128; b] => ((128 <=? b) && (b <=? 138) || (b =? 168) || (b =? 169) || (b =? 175))%N
  | [226; 129; 159] => true
  | [227; 128; 128] => true
  | _ => false
  end%N.

Fixpoint drop_whitespace (cs : list bytes) : list bytes :=
  match cs with
  | c :: rest => if char_is_whitespace c then drop_whitespace rest else cs
  | [] => []
  end.

(** [str::trim]. *)
Definition str_trim (l : bytes) : bytes := concat (rev (drop_whitespace (rev (drop_whitespace (chars l))))).

Fixpoint whitespace_loop (cs : list bytes) (part : bytes) : list bytes :=
  match cs with
  | [] => if bool_decide (part = []) then [] else [part]
  | c :: cs =>
      if char_is_whitespace c then
        if bool_decide (part = []) then whitespace_loop cs [] else part :: whitespace_loop cs []
      else whitespace_loop cs (part ++ c)
  end.

(** [str::split_whitespace]. *)
Definition split_whitespace (l : bytes) : list bytes := whitespace_loop (chars l) [].

(** *** Rules *)

Definition is_ascii_alphanumeric (b : byte) : bool := in_range 48 57 b || in_range 65 90 b || in_range 97 122 b.

Definition valid_attr_name (name : bytes) : bool :=
  negb (bool_decide (name = [])) && forallb (fun b => is_ascii_alphanumeric b || existsb (byte_is b) (bstr "-_.")) name.

Definition split_once (c : byte) (l : bytes) : option (bytes * bytes) :=
  match split_on c l with
  | a :: b :: rest => Some (a, join_with c (b :: rest))
  | _ => None
  end.

Definition then_assign (name : bytes) (value : AttributeValue) : option AttributeAssignment :=
  if valid_attr_name name then Some (MkAttributeAssignment name value) else None.

Definition parse_assignment (value : bytes) : option AttributeAssignment :=
  match strip_prefix (bstr "-") value with
  | Some name => then_assign name AttrUnset
  | None =>
      match strip_prefix (bstr "!") value with
      | Some name => then_assign name AttrUnspecified
      | None =>
          match split_once "="%byte value with
          | Some (name, attr_value) => then_assign name (AttrValue attr_value)
          | None => then_assign value AttrSet
          end
      end
  end.

Definition parse_rule (line : bytes) : option AttributeRule :=
  let line := str_trim (match split_on "#"%byte line with piece :: _ => piece | [] => [] end) in
  if bool_decide (line = []) then None else
  match split_whitespace line with
  | [] => None
  | pattern :: parts =>
      let assignments := omap parse_assignment parts in
      if bool_decide (assignments = []) then None
      else Some (MkAttributeRule (trim_start_byte "/"%byte pattern) assignments)
  end.

Definition parse_attributes (content : bytes) : GitAttributes := MkGitAttributes (omap parse_rule (str_lines content)).

Definition load_attributes_from_root : rd Fs GitAttributes :=
  content <~ or_absent (fs_read_to_string [bstr ".gitattributes"]);
  rret (match content with Some content => parse_attributes content | None => MkGitAttributes [] end).

Definition attributes_is_empty (attributes : GitAttributes) : bool := bool_decide (length (rules attributes) = 0).

(** *** Values *)

Definition attribute_pattern_matches (pattern relative basename : bytes) : outcome bool :=
  if contains_byte "/"%byte pattern then wildcard_match pattern relative else wildcard_match pattern basename.

Abbreviation attribute_map := (list (bytes * AttributeValue)).

Definition apply_assignment (values : attribute_map) (assignment : AttributeAssignment) : attribute_map :=
  if bool_decide (aa_name assignment = bstr "binary") && bool_decide (aa_value assignment = AttrSet) then
    bt_insert cmp_bytes (bstr "text") AttrUnset
      (bt_insert cmp_bytes (bstr "merge") AttrUnset
        (bt_insert cmp_bytes (bstr "diff") AttrUnset
          (bt_insert cmp_bytes (bstr "binary") AttrSet values)))
  else bt_insert cmp_bytes (aa_name assignment) (aa_value assignment) values.

Fixpoint values_loop (rules : list AttributeRule) (relative basename : bytes) (values : attribute_map) : outcome attribute_map :=
  match rules with
  | [] => Ok values
  | rule :: rules =>
      matches ← attribute_pattern_matches (ar_pattern rule) relative basename;
      values_loop rules relative basename
        (if (matches : bool) then fold_left apply_assignment (ar_assignments rule) values else values)
  end.

Definition values_for_path (attributes : GitAttributes) (path : bytes) : outcome attribute_map :=
  let relative := forward_slashes (from_utf8_lossy path) in
  values_loop (rules attributes) relative (basename_of relative) [].

Fixpoint check_attributes (attributes : GitAttributes) (path : bytes) (attrs : list bytes) : outcome attribute_map :=
  match attrs with
  | [] => Ok []
  | attr :: attrs =>
      values ← values_for_path attributes path;
      rest ← check_attributes attributes path attrs;
      Ok ((attr, match bt_get cmp_bytes attr values with Some value => value | None => AttrUnspecified end) :: rest)
  end.

Definition check_all (attributes : GitAttributes) (path : bytes) : outcome attribute_map :=
  values ← values_for_path attributes path;
  Ok (omap (fun name =>
        match bt_get cmp_bytes name values with
        | Some value => if bool_decide (value = AttrUnspecified) then None else Some (name, value)
        | None => None
        end) (map fst values)).

Definition is_set (attributes : GitAttributes) (path attr : bytes) : outcome bool :=
  values ← values_for_path attributes path;
  Ok (match bt_get cmp_bytes attr values with Some value => bool_decide (value = AttrSet) | None => false end).

(** *** Ident: [rest] is the content from the cursor *)

Fixpoint find_ident_clean_terminator (content : bytes) : option nat :=
  match content with
  | [] => None
  | b :: content =>
      if byte_is "$"%byte b then Some 0
      else if byte_is nl b || byte_is Byte.x0d b then None
      else S <$> find_ident_clean_terminator content
  end.

(** [u8::is_ascii_whitespace]. *)
Definition is_ascii_whitespace (b : byte) : bool := existsb (byte_is b) [Byte.x09; Byte.x0a; Byte.x0c; Byte.x0d; " "%byte].

Fixpoint trim_ascii_start (value : bytes) : bytes :=
  match value with
  | b :: rest => if is_ascii_whitespace b then trim_ascii_start rest else value
  | [] => []
  end.

Definition trim_ascii_whitespace (value : bytes) : bytes := rev (trim_ascii_start (rev (trim_ascii_start value))).

Definition ident_clean_value_is_collapsible (value : bytes) : bool :=
  forallb (fun b => negb (is_ascii_whitespace b)) (trim_ascii_whitespace value).

Fixpoint ident_clean_loop (fuel : nat) (rest out : bytes) : outcome bytes :=
  match fuel with
  | 0 => NoFuel
  | S fuel =>
      match find_subslice (bstr "$Id:") rest with
      | None => Ok (out ++ rest)
      | Some start =>
          let out := out ++ take start rest in
          let search := drop (start + 4) rest in
          match find_ident_clean_terminator search with
          | Some relative_end =>
              let value := take relative_end search in
              let out := out ++ (if ident_clean_value_is_collapsible value then bstr "$Id$"
                                 else take (4 + relative_end + 1) (drop start rest)) in
              ident_clean_loop fuel (drop (relative_end + 1) search) out
          | None => ident_clean_loop fuel search (out ++ take 4 (drop start rest))
          end
      end
  end.

Definition apply_ident_clean (content : bytes) : outcome bytes := ident_clean_loop (S (length content)) content [].

Section smudge.
Context `{HexCrate}.

Definition ident_smudge_marker (id : ObjectId) : bytes := bstr "$Id: " ++ to_hex id ++ bstr " $".

Fixpoint ident_smudge_loop (fuel : nat) (id : ObjectId) (rest out : bytes) : outcome bytes :=
  match fuel with
  | 0 => NoFuel
  | S fuel =>
      match find_subslice (bstr "$Id") rest with
      | None => Ok (out ++ rest)
      | Some start =>
          let out := out ++ take start rest in
          let tail := drop (start + 3) rest in
          match tail with
          | b :: search =>
              if byte_is "$"%byte b then ident_smudge_loop fuel id search (out ++ ident_smudge_marker id)
              else if byte_is ":"%byte b then
                match find_ident_clean_terminator search with
                | Some relative_end =>
                    let value := take relative_end search in
                    let out := out ++ (if ident_clean_value_is_collapsible value then ident_smudge_marker id
                                       else take (4 + relative_end + 1) (drop start rest)) in
                    ident_smudge_loop fuel id (drop (relative_end + 1) search) out
                | None => ident_smudge_loop fuel id search (out ++ take 4 (drop start rest))
                end
              else ident_smudge_loop fuel id tail (out ++ bstr "$Id")
          | [] => ident_smudge_loop fuel id tail (out ++ bstr "$Id")
          end
      end
  end.

Definition apply_ident_smudge (content : bytes) (id : ObjectId) : outcome bytes :=
  ident_smudge_loop (S (length content)) id content [].
End smudge.

(** *** Ends of lines *)

Definition crlf : bytes := [Byte.x0d; nl].

Fixpoint eol_clean_loop (fuel : nat) (rest out : bytes) : outcome bytes :=
  match fuel with
  | 0 => NoFuel
  | S fuel =>
      match find_subslice crlf rest with
      | None => Ok (out ++ rest)
      | Some start => eol_clean_loop fuel (drop (start + 2) rest) (out ++ take start rest ++ [nl])
      end
  end.

Definition apply_eol_clean_to_lf (content : bytes) : outcome bytes := eol_clean_loop (S (length content)) content [].

Fixpoint eol_smudge_loop (content : bytes) (previous : option byte) (out : bytes) : bytes :=
  match content with
  | [] => out
  | b :: content =>
      let out := if byte_is nl b && negb (bool_decide (previous = Some Byte.x0d)) then out ++ [Byte.x0d] else out in
      eol_smudge_loop content (Some b) (out ++ [b])
  end.

Definition apply_eol_smudge_to_crlf (content : bytes) : bytes := eol_smudge_loop content None [].

(** ** Characters *)

Lemma utf8_next_pos b rest : 0 < match utf8_next b rest with inl n => n | inr n => n end.
Proof.
  destruct (utf8_next b rest) as [n|n] eqn:E; [by apply utf8_next_inl in E; lia|]. unfold utf8_next in E. repeat case_match; simplify_eq; lia.
Qed.

(** The fuel is enough: the characters of a text are all of it. *)
Lemma chars_concat l : concat (chars l) = l.
Proof.
  unfold chars. assert (Hg : forall fuel l, length l <= fuel -> concat (chars_loop fuel l) = l); [|by apply Hg]. clear l.
  induction fuel as [|fuel IH]; intros [|b l] Hl; cbn [length] in Hl; try done; [lia|]. cbn [chars_loop concat]. pose proof (utf8_next_pos b l) as Hn.
  set (n := match utf8_next b l with inl n => n | inr n => n end) in *. rewrite IH; [apply take_drop|]. rewrite length_drop. cbn [length]. lia.
Qed.

(** ** Ends of lines *)

(** What the loops do, byte by byte. *)
Fixpoint lf_of (l : bytes) : bytes :=
  match l with
  | [] => []
  | b :: rest =>
      match rest with
      | c :: rest' => if byte_is Byte.x0d b && byte_is nl c then nl :: lf_of rest' else b :: lf_of rest
      | [] => [b]
      end
  end.

Fixpoint crlf_of (previous : option byte) (l : bytes) : bytes :=
  match l with
  | [] => []
  | b :: rest => (if byte_is nl b && negb (bool_decide (previous = Some Byte.x0d)) then crlf else [b]) ++ crlf_of (Some b) rest
  end.

Lemma byte_is_true c b : byte_is c b = true <-> b = c.
Proof. unfold byte_is. destruct (byte_eqb_spec b c); naive_solver. Qed.

Lemma crlf_of_loop l : forall previous out, eol_smudge_loop l previous out = out ++ crlf_of previous l.
Proof.
  induction l as [|b l IH]; intros previous out; cbn [eol_smudge_loop crlf_of]; [by rewrite app_nil_r|]. rewrite IH.
  destruct (byte_is nl b) eqn:E; cbn [andb]; [|by rewrite <- app_assoc]. apply byte_is_true in E as ->.
  destruct (negb _); unfold crlf; by rewrite <- !app_assoc.
Qed.

Lemma find_crlf l : match find_subslice crlf l with
  | None => lf_of l = l
  | Some start => lf_of l = take start l ++ nl :: lf_of (drop (start + 2) l) /\ start + 2 <= length l
  end.
Proof.
  induction l as [|b l IH]; [done|]. cbn [find_subslice]. destruct (starts_with crlf (b :: l)) eqn:E.
  - apply starts_with_spec in E as [r E]. injection E as -> ->. cbn. split; [done|lia].
  - assert (Hl : lf_of (b :: l) = b :: lf_of l).
    { cbn [lf_of]. destruct l as [|c l]; [done|]. destruct (byte_is Byte.x0d b && byte_is nl c) eqn:E2; [|done].
      apply andb_true_iff in E2 as [->%byte_is_true ->%byte_is_true]. by vm_compute in E. }
    destruct (find_subslice crlf l) as [start|]; cbn [fmap option_fmap option_map].
    + destruct IH as [IH Hlen]. rewrite Hl, IH. cbn. split; [done|lia].
    + by rewrite Hl, IH.
Qed.

Lemma eol_clean_loop_eq fuel : forall rest out, length rest < fuel -> eol_clean_loop fuel rest out = Ok (out ++ lf_of rest).
Proof.
  induction fuel as [|fuel IH]; intros rest out Hf; [lia|]. cbn [eol_clean_loop]. pose proof (find_crlf rest) as Hc.
  destruct (find_subslice crlf rest) as [start|]; [|by rewrite Hc]. destruct Hc as [-> Hlen].
  rewrite IH by (rewrite length_drop; lia). by rewrite <- !app_assoc.
Qed.

Lemma lf_of_cons b l : b <> Byte.x0d -> lf_of (b :: l) = b :: lf_of l.
Proof.
  intros Hb. cbn [lf_of]. destruct l as [|c l]; [done|]. destruct (byte_is Byte.x0d b) eqn:E; [|done]. by apply byte_is_true in E.
Qed.

Lemma lf_of_crlf_of l :
  (forall previous, previous <> Some Byte.x0d -> lf_of (crlf_of previous l) = lf_of l) /\
  lf_of (Byte.x0d :: crlf_of (Some Byte.x0d) l) = lf_of (Byte.x0d :: l).
Proof.
  induction l as [|b l [IH1 IH2]]; [done|]. split.
  - intros previous Hp. cbn [crlf_of]. rewrite bool_decide_false by done. cbn [negb]. rewrite andb_true_r.
    destruct (byte_is nl b) eqn:E; [apply byte_is_true in E as ->|].
    + cbn [crlf app]. change (lf_of (Byte.x0d :: nl :: ?x)) with (nl :: lf_of x). rewrite IH1 by done. by rewrite lf_of_cons.
    + cbn [app]. destruct (decide (b = Byte.x0d)) as [->|Hb]; [done|]. rewrite !lf_of_cons by done. rewrite IH1; [done|congruence].
  - cbn [crlf_of]. rewrite bool_decide_true by done. cbn [negb]. rewrite andb_false_r. cbn [app].
    destruct (decide (b = nl)) as [->|Hn].
    + change (lf_of (Byte.x0d :: nl :: ?x)) with (nl :: lf_of x). by rewrite IH1.
    + assert (Hs : forall x, lf_of (Byte.x0d :: b :: x) = Byte.x0d :: lf_of (b :: x)).
      { intros x. cbn [lf_of]. destruct (byte_is nl b) eqn:E; [by apply byte_is_true in E|]. by rewrite andb_false_r. }
      rewrite !Hs. f_equal. destruct (decide (b = Byte.x0d)) as [->|Hb]; [done|]. rewrite !lf_of_cons by done. rewrite IH1; [done|congruence].
Qed.

Lemma lf_of_plain l : Byte.x0d ∉ l -> lf_of l = l.
Proof.
  induction l as [|b l IH]; [done|]. intros [Hb Hl]%not_elem_of_cons. rewrite lf_of_cons by done. by rewrite IH.
Qed.

Lemma crlf_of_twice l : forall previous, crlf_of previous (crlf_of previous l) = crlf_of previous l.
Proof.
  induction l as [|b l IH]; intros previous; [done|]. cbn [crlf_of].
  destruct (byte_is nl b && negb (bool_decide (previous = Some Byte.x0d))) eqn:E.
  - apply andb_true_iff in E as [->%byte_is_true _]. cbn [crlf app].
    change (crlf_of previous (Byte.x0d :: nl :: ?x)) with (Byte.x0d :: nl :: crlf_of (Some nl) x). by rewrite IH.
  - cbn [app crlf_of]. rewrite E. cbn [app]. by rewrite IH.
Qed.

(** C30: ends of lines: writing to the worktree and reading back loses nothing.  Both conversions always return; a second
    conversion to CRLF changes nothing, cleaning what was converted gives what cleaning the content gives, and a
    content without carriage returns comes back as it was. *)
Theorem eol_roundtrip content :
  apply_eol_smudge_to_crlf (apply_eol_smudge_to_crlf content) = apply_eol_smudge_to_crlf content /\
  apply_eol_clean_to_lf (apply_eol_smudge_to_crlf content) = apply_eol_clean_to_lf content /\
  is_ok (apply_eol_clean_to_lf content) = true /\
  (Byte.x0d ∉ content -> apply_eol_clean_to_lf (apply_eol_smudge_to_crlf content) = Ok content).
Proof.
  unfold apply_eol_clean_to_lf, apply_eol_smudge_to_crlf. rewrite !crlf_of_loop. cbn [app]. rewrite !eol_clean_loop_eq by lia. cbn [app].
  destruct (lf_of_crlf_of content) as [-> _]; [|done]. split_and!; [apply crlf_of_twice|done|done|].
  intros Hc. by rewrite lf_of_plain.
Qed.

(** ** Ident *)

Lemma find_cons needle b l : starts_with needle (b :: l) = false -> find_subslice needle (b :: l) = S <$> find_subslice needle l.
Proof. intros E. cbn [find_subslice]. by rewrite E. Qed.

Lemma find_starts needle l : l <> [] -> starts_with needle l = true -> find_subslice needle l = Some 0.
Proof. intros Hl E. destruct l as [|b l]; [done|]. cbn [find_subslice]. by rewrite E. Qed.

Lemma clean_step fuel b l out : starts_with (bstr "$Id:") (b :: l) = false ->
  ident_clean_loop (S fuel) (b :: l) out = ident_clean_loop (S fuel) l (out ++ [b]).
Proof.
  intros E. cbn [ident_clean_loop]. rewrite find_cons by done. destruct (find_subslice (bstr "$Id:") l) as [start|]; cbn [fmap option_fmap option_map].
  - cbn [take drop Nat.add]. rewrite <- !app_assoc. done.
  - by rewrite <- app_assoc.
Qed.

Section ident.
Context `{HexCrateLaws} (id : ObjectId).

Lemma smudge_step fuel b l out : starts_with (bstr "$Id") (b :: l) = false ->
  ident_smudge_loop (S fuel) id (b :: l) out = ident_smudge_loop (S fuel) id l (out ++ [b]).
Proof.
  intros E. cbn [ident_smudge_loop]. rewrite find_cons by done. destruct (find_subslice (bstr "$Id") l) as [start|]; cbn [fmap option_fmap option_map].
  - cbn [take drop Nat.add]. rewrite <- !app_assoc. done.
  - by rewrite <- app_assoc.
Qed.

(** What smudging makes of a content that has no expanded marker. *)
Inductive smudges : bytes -> bytes -> Prop :=
  | smudges_nil : smudges [] []
  | smudges_marker r r' : smudges r r' -> smudges (bstr "$Id$" ++ r) (ident_smudge_marker id ++ r')
  | smudges_byte b r r' : smudges r r' -> smudges (b :: r) (b :: r').

Definition expanded (l : bytes) : Prop := exists a b, l = a ++ bstr "$Id:" ++ b.

Lemma expanded_cons b l : expanded l -> expanded (b :: l).
Proof. intros (a & c & ->). by exists (b :: a), c. Qed.

Lemma expanded_app a l : expanded l -> expanded (a ++ l).
Proof. intros (a' & c & ->). exists (a ++ a'), c. by rewrite <- app_assoc. Qed.

Lemma smudge_loop_spec n : forall rest fuel out, length rest < n -> length rest < fuel -> ~ expanded rest ->
  exists r', ident_smudge_loop fuel id rest out = Ok (out ++ r') /\ smudges rest r'.
Proof.
  induction n as [|n IH]; intros rest fuel out Hn Hf He; [lia|]. destruct fuel as [|fuel]; [lia|]. destruct rest as [|b l].
  { exists []. split; [reflexivity|constructor]. }
  destruct (starts_with (bstr "$Id") (b :: l)) eqn:E.
  - pose proof E as Hs. apply starts_with_spec in E as [tail E]. rewrite E in *. cbn [ident_smudge_loop]. rewrite find_starts by done.
    cbn [take Nat.add]. change (drop 3 (bstr "$Id" ++ tail)) with tail. rewrite app_nil_r. rewrite length_app in *. change (length (bstr "$Id")) with 3 in *.
    assert (Htail : forall out', exists r', ident_smudge_loop fuel id tail (out' ++ bstr "$Id") = Ok (out' ++ r') /\ smudges (bstr "$Id" ++ tail) r').
    { intros out'. destruct (IH tail fuel (out' ++ bstr "$Id")) as (r' & -> & Hr); [lia|lia|intros ?; by apply He, expanded_app|].
      exists (bstr "$Id" ++ r'). split; [by rewrite <- app_assoc|]. by repeat constructor. }
    destruct tail as [|c search]; [by apply Htail|]. destruct (byte_is "$"%byte c) eqn:E1; [apply byte_is_true in E1 as ->|].
    + cbn [length] in *. destruct (IH search fuel (out ++ ident_smudge_marker id)) as (r' & -> & Hr); [lia|lia| |].
      { intros ?. by apply He, (expanded_app (bstr "$Id$")). }
      exists (ident_smudge_marker id ++ r'). split; [by rewrite <- app_assoc|]. by apply smudges_marker.
    + destruct (byte_is ":"%byte c) eqn:E2; [|apply Htail]. apply byte_is_true in E2 as ->. destruct He. by exists [], search.
  - rewrite smudge_step by done. cbn [length] in *. destruct (IH l (S fuel) (out ++ [b])) as (r' & -> & Hr); [lia|lia|intros ?; by apply He, expanded_cons|].
    exists (b :: r'). split; [by rewrite <- app_assoc|]. by constructor.
Qed.

Lemma smudges_inv r b r' : smudges r (b :: r') ->
  (exists r1 r1', r = bstr "$Id$" ++ r1 /\ b :: r' = ident_smudge_marker id ++ r1' /\ smudges r1 r1') \/
  (exists r0, r = b :: r0 /\ smudges r0 r').
Proof.
  intros Hs. remember (b :: r') as x eqn:E. destruct Hs as [|r1 r1' H1|c r1 r1' H1]; [done|left; by exists r1, r1'|right].
  injection E as -> ->. by exists r1.
Qed.

Lemma smudges_plain r b r' : b <> "$"%byte -> smudges r (b :: r') -> exists r0, r = b :: r0 /\ smudges r0 r'.
Proof. intros Hb [(r1 & r1' & _ & E & _)|?]%smudges_inv; [|done]. injection E as -> _. done. Qed.

(** A marker in the result is a marker of the content. *)
Lemma smudges_start r r' : smudges r r' -> ~ expanded r -> starts_with (bstr "$Id:") r' = true ->
  exists r1 r1', r = bstr "$Id$" ++ r1 /\ r' = ident_smudge_marker id ++ r1' /\ smudges r1 r1'.
Proof.
  intros Hs He [q ->]%starts_with_spec. apply smudges_inv in Hs as [?|(r0 & -> & Hs)]; [done|]. exfalso.
  apply smudges_plain in Hs as (r1 & -> & Hs); [|done]. apply smudges_plain in Hs as (r2 & -> & Hs); [|done].
  apply smudges_plain in Hs as (r3 & -> & Hs); [|done]. apply He. by exists [], r3.
Qed.

Lemma terminator_found a b : "$"%byte ∉ a -> nl ∉ a -> Byte.x0d ∉ a -> find_ident_clean_terminator (a ++ "$"%byte :: b) = Some (length a).
Proof.
  induction a as [|c a IH]; [done|]. intros [H1 H2]%not_elem_of_cons [H3 H4]%not_elem_of_cons [H5 H6]%not_elem_of_cons. cbn [app find_ident_clean_terminator].
  destruct (byte_is "$"%byte c) eqn:E1; [by apply byte_is_true in E1|]. destruct (byte_is nl c) eqn:E2; [by apply byte_is_true in E2|].
  destruct (byte_is Byte.x0d c) eqn:E3; [by apply byte_is_true in E3|]. cbn [orb]. by rewrite IH.
Qed.

Lemma no_whitespace l : Forall (fun b => is_ascii_whitespace b = false) l -> trim_ascii_start l = l.
Proof. destruct 1 as [|b l Hb _]; [done|]. cbn [trim_ascii_start]. by rewrite Hb. Qed.

Lemma spaced_collapsible l : Forall (fun b => is_ascii_whitespace b = false) l -> ident_clean_value_is_collapsible (" "%byte :: l ++ [" "%byte]) = true.
Proof.
  intros Hl. unfold ident_clean_value_is_collapsible, trim_ascii_whitespace. change (trim_ascii_start (" "%byte :: ?x)) with (trim_ascii_start x).
  assert (Hr : trim_ascii_start (l ++ [" "%byte]) = match l with [] => [] | _ => l ++ [" "%byte] end).
  { destruct l as [|b l]; [done|]. apply Forall_cons in Hl as [Hb _]. cbn [app trim_ascii_start]. by rewrite Hb. }
  rewrite Hr. destruct l as [|b l]; [done|]. rewrite rev_app_distr. cbn [rev app]. change (trim_ascii_start (" "%byte :: ?x)) with (trim_ascii_start x).
  rewrite no_whitespace, <- (rev_involutive l) at 1.
  2: { apply Forall_app. apply Forall_cons in Hl as [Hb Hl]. split; [by apply Forall_rev|by constructor]. }
  rewrite rev_involutive. change (rev l ++ [b]) with (rev (b :: l)). rewrite rev_involutive. apply forallb_forall. intros c Hc%list_elem_of_In.
  rewrite Forall_forall in Hl. by rewrite Hl.
Qed.

Lemma hex_no_whitespace : Forall (fun b => is_ascii_whitespace b = false) (to_hex id).
Proof.
  eapply Forall_impl; [apply to_hex_text|]. intros b Hb. cbv beta in Hb. unfold is_ascii_whitespace. cbn [existsb]. unfold byte_is.
  assert (Hne : forall c, (u8 c < 48)%N -> Byte.eqb c b = false) by (intros c Hc; destruct (byte_eqb_spec c b) as [->|]; [lia|done]).
  by rewrite !Hne.
Qed.

Lemma clean_marker fuel r out : ident_clean_loop (S fuel) (ident_smudge_marker id ++ r) out = ident_clean_loop fuel r (out ++ bstr "$Id$").
Proof.
  cbn [ident_clean_loop]. rewrite find_starts by done. cbn [take Nat.add]. rewrite app_nil_r. unfold ident_smudge_marker.
  set (v := " "%byte :: to_hex id ++ [" "%byte]).
  assert (Hv : (bstr "$Id: " ++ to_hex id ++ bstr " $") ++ r = bstr "$Id:" ++ v ++ "$"%byte :: r) by (unfold v; cbn; by rewrite <- !app_assoc).
  rewrite Hv. change (drop 4 (bstr "$Id:" ++ ?x)) with x.
  assert (Hno : forall c, (u8 c < 48)%N -> c <> " "%byte -> c ∉ v).
  { intros c Hc Hsp. unfold v. rewrite elem_of_cons, elem_of_app, list_elem_of_singleton. intros [?|[Hin|?]]; [done| |done]. by apply (to_hex_no c id). }
  rewrite terminator_found by (by apply Hno). rewrite take_app_length.
  pose proof (spaced_collapsible (to_hex id) hex_no_whitespace) as Hcol. fold v in Hcol. rewrite Hcol.
  f_equal. rewrite Nat.add_1_r, drop_app_ge by lia. by replace (S (length v) - length v) with 1 by lia.
Qed.

Lemma clean_smudged n : forall r r' fuel out, smudges r r' -> ~ expanded r -> length r' < n -> length r' < fuel ->
  ident_clean_loop fuel r' out = Ok (out ++ r).
Proof.
  induction n as [|n IH]; intros r r' fuel out Hs He Hn Hf; [lia|]. destruct fuel as [|fuel]; [lia|].
  destruct (starts_with (bstr "$Id:") r') eqn:E.
  - destruct (smudges_start r r' Hs He E) as (r1 & r1' & -> & -> & Hs1). rewrite length_app in *. unfold ident_smudge_marker in Hn, Hf.
    rewrite length_app in Hn, Hf. cbn in Hn, Hf. rewrite clean_marker, (IH r1), <- app_assoc; [done|done|intros ?; by apply He, expanded_app|lia|lia].
  - destruct Hs as [|r r' Hs|b r r' Hs]; [done|done|]. cbn [length] in *.
    rewrite clean_step, (IH r), <- app_assoc; [done|done|intros ?; by apply He, expanded_cons|lia|lia|done].
Qed.
End ident.

(** C28: ident: expanding a content and cleaning the result gives the content back, whatever the object id, when the content
    has no expanded marker in it; both loops return. *)
Theorem ident_roundtrip `{HexCrateLaws} content id : ~ expanded content ->
  exists smudged, apply_ident_smudge content id = Ok smudged /\ apply_ident_clean smudged = Ok content.
Proof.
  intros He. destruct (smudge_loop_spec id (S (length content)) content (S (length content)) []) as (smudged & E & Hs); [lia|lia|done|].
  exists smudged. split; [exact E|]. unfold apply_ident_clean. by rewrite (clean_smudged id (S (length smudged)) content smudged) by (done || lia).
Qed.

(** ** Values of a path *)

(** The assignments of a rule as the code reads them: [binary] stands for four. *)
Definition expand_assignment (assignment : AttributeAssignment) : list (bytes * AttributeValue) :=
  if bool_decide (aa_name assignment = bstr "binary") && bool_decide (aa_value assignment = AttrSet) then
    [(bstr "binary", AttrSet); (bstr "diff", AttrUnset); (bstr "merge", AttrUnset); (bstr "text", AttrUnset)]
  else [(aa_name assignment, aa_value assignment)].

(** A rule is for the whole path when its pattern has a slash, else for the last component. *)
Definition rule_describes (relative : bytes) (rule : AttributeRule) : Prop :=
  globs (ar_pattern rule) (if contains_byte "/"%byte (ar_pattern rule) then relative else basename_of relative).

(** The assignments of the rules that describe a path, in order. *)
Inductive collects (relative : bytes) : list AttributeRule -> list (bytes * AttributeValue) -> Prop :=
  | collects_nil : collects relative [] []
  | collects_rule rule rules assigned : rule_describes relative rule -> collects relative rules assigned ->
      collects relative (rule :: rules) ((ar_assignments rule ≫= expand_assignment) ++ assigned)
  | collects_skip rule rules assigned : ~ rule_describes relative rule -> collects relative rules assigned ->
      collects relative (rule :: rules) assigned.

Fixpoint last_assigned (assigned : list (bytes * AttributeValue)) (name : bytes) : option AttributeValue :=
  match assigned with
  | [] => None
  | (name', value) :: assigned =>
      match last_assigned assigned name with
      | Some value => Some value
      | None => if decide (name' = name) then Some value else None
      end
  end.

Lemma last_assigned_app a b name : last_assigned (a ++ b) name =
  match last_assigned b name with Some value => Some value | None => last_assigned a name end.
Proof.
  induction a as [|[n v] a IH]; cbn [app last_assigned]; [by destruct (last_assigned b name)|]. rewrite IH. by destruct (last_assigned b name).
Qed.

(** A map of values, after some assignments. *)
Definition holds_after (values : attribute_map) (assigned : list (bytes * AttributeValue)) (values' : attribute_map) : Prop :=
  bt_sorted cmp_bytes values' /\ forall name, bt_get cmp_bytes name values' =
    match last_assigned assigned name with Some value => Some value | None => bt_get cmp_bytes name values end.

Lemma holds_after_trans v1 v2 v3 a b : holds_after v1 a v2 -> holds_after v2 b v3 -> holds_after v1 (a ++ b) v3.
Proof.
  intros [_ H1] [Hs H2]. split; [done|]. intros name. rewrite H2, H1, last_assigned_app. by destruct (last_assigned b name).
Qed.

Lemma insert_holds name value values : bt_sorted cmp_bytes values -> holds_after values [(name, value)] (bt_insert cmp_bytes name value values).
Proof.
  intros Hs. split; [by apply (bt_insert_sorted cmp_bytes)|]. intros name'. cbn [last_assigned]. destruct (decide (name = name')) as [->|Hne].
  - apply (bt_get_insert_eq cmp_bytes).
  - by rewrite (bt_get_insert_ne cmp_bytes).
Qed.

Lemma apply_assignment_holds values assignment : bt_sorted cmp_bytes values ->
  holds_after values (expand_assignment assignment) (apply_assignment values assignment).
Proof.
  intros Hs. unfold apply_assignment, expand_assignment. destruct (_ && _); [|by apply insert_holds].
  pose proof (insert_holds (bstr "binary") AttrSet values Hs) as H1.
  pose proof (insert_holds (bstr "diff") AttrUnset _ (proj1 H1)) as H2. pose proof (holds_after_trans _ _ _ _ _ H1 H2) as H12.
  pose proof (insert_holds (bstr "merge") AttrUnset _ (proj1 H2)) as H3. pose proof (holds_after_trans _ _ _ _ _ H12 H3) as H123.
  pose proof (insert_holds (bstr "text") AttrUnset _ (proj1 H3)) as H4. exact (holds_after_trans _ _ _ _ _ H123 H4).
Qed.

Lemma apply_assignments_holds assignments : forall values, bt_sorted cmp_bytes values ->
  holds_after values (assignments ≫= expand_assignment) (fold_left apply_assignment assignments values).
Proof.
  induction assignments as [|a assignments IH]; intros values Hs; cbn [mbind list_bind fold_left]; [by split|].
  pose proof (apply_assignment_holds values a Hs) as Ha. exact (holds_after_trans _ _ _ _ _ Ha (IH _ (proj1 Ha))).
Qed.

Lemma pattern_matches_spec pattern relative : star ∉ relative -> exists b, attribute_pattern_matches pattern relative (basename_of relative) = Ok b /\
  (b = true <-> globs pattern (if contains_byte "/"%byte pattern then relative else basename_of relative)).
Proof.
  intros Hs. unfold attribute_pattern_matches. destruct (contains_byte "/"%byte pattern); apply wildcard_match_globs; [done|by apply basename_star].
Qed.

Lemma values_loop_spec relative : star ∉ relative -> forall rs values, bt_sorted cmp_bytes values ->
  exists values' assigned, values_loop rs relative (basename_of relative) values = Ok values' /\ collects relative rs assigned /\
    holds_after values assigned values'.
Proof.
  intros Hstar. induction rs as [|rule rs IH]; intros values Hs; cbn [values_loop]; [exists values, []; split; [done|]; split; [constructor|by split]|].
  destruct (pattern_matches_spec (ar_pattern rule) relative Hstar) as (b & -> & Hb). rewrite bind_Ok. destruct b.
  - pose proof (apply_assignments_holds (ar_assignments rule) values Hs) as Ha. destruct (IH _ (proj1 Ha)) as (values' & assigned & E & Hc & Hh).
    exists values', ((ar_assignments rule ≫= expand_assignment) ++ assigned). split; [done|]. split; [constructor; [by apply Hb|done]|].
    exact (holds_after_trans _ _ _ _ _ Ha Hh).
  - destruct (IH values Hs) as (values' & assigned & E & Hc & Hh). exists values', assigned. split; [done|]. split; [|done].
    apply collects_skip; [|done]. intros Hd. by apply Hb in Hd.
Qed.

Lemma check_loop attributes path values attrs : values_for_path attributes path = Ok values ->
  check_attributes attributes path attrs =
    Ok (map (fun attr => (attr, match bt_get cmp_bytes attr values with Some value => value | None => AttrUnspecified end)) attrs).
Proof. intros E. induction attrs as [|attr attrs IH]; cbn [check_attributes map]; [done|]. by rewrite E, bind_Ok, IH, bind_Ok. Qed.

Lemma check_all_elem (values : attribute_map) name value : bt_sorted cmp_bytes values ->
  (name, value) ∈ omap (fun name =>
        match bt_get cmp_bytes name values with
        | Some value => if bool_decide (value = AttrUnspecified) then None else Some (name, value)
        | None => None
        end) (map fst values) <-> bt_get cmp_bytes name values = Some value /\ value <> AttrUnspecified.
Proof.
  intros Hs. rewrite list_elem_of_omap. split.
  - intros (n & _ & E). destruct (bt_get cmp_bytes n values) as [v|] eqn:Ev; [|done]. case_bool_decide as Hv; [done|]. by injection E as -> ->.
  - intros [E Hv]. exists name. split; [|by rewrite E, bool_decide_false]. change (map fst values) with (values.*1).
    apply list_elem_of_fmap. exists (name, value). split; [done|]. by apply (bt_get_elem cmp_bytes).
Qed.

(** C22: on a path without stars the three questions about attributes are answered alike: from the assignments of the
    rules whose pattern describes the path, in the order of the file and with [binary] standing for its four, the last
    one of each name counts; a name that has none is unspecified. *)
Theorem attributes_spec attributes path : star ∉ forward_slashes (from_utf8_lossy path) ->
  exists assigned all, collects (forward_slashes (from_utf8_lossy path)) (rules attributes) assigned /\
    (forall attrs, check_attributes attributes path attrs =
       Ok (map (fun attr => (attr, match last_assigned assigned attr with Some value => value | None => AttrUnspecified end)) attrs)) /\
    check_all attributes path = Ok all /\
    (forall name value, (name, value) ∈ all <-> last_assigned assigned name = Some value /\ value <> AttrUnspecified) /\
    (forall attr, is_set attributes path attr = Ok (bool_decide (last_assigned assigned attr = Some AttrSet))).
Proof.
  intros Hs. destruct (values_loop_spec _ Hs (rules attributes) [] ltac:(constructor)) as (values & assigned & E & Hc & Hsorted & Hg).
  assert (Hget : forall name, bt_get cmp_bytes name values = last_assigned assigned name) by (intros name; rewrite Hg; by destruct (last_assigned assigned name)).
  assert (Ev : values_for_path attributes path = Ok values) by exact E. eexists assigned, _. split; [done|]. split; [|split; [|split]].
  - intros attrs. rewrite (check_loop _ _ _ _ Ev). f_equal. apply map_ext. intros attr. by rewrite Hget.
  - unfold check_all. by rewrite Ev, bind_Ok.
  - intros name value. by rewrite check_all_elem, Hget.
  - intros attr. unfold is_set. rewrite Ev, bind_Ok, Hget. f_equal. destruct (last_assigned assigned attr) as [v|]; [|by rewrite bool_decide_false].
    apply bool_decide_ext. split; [by intros ->|by intros [= ->]].
Qed.

(** A number sign ends the line wherever it stands, so a pattern that has one is cut, and its assignments are lost. *)
Theorem hash_cuts_pattern : rules (parse_attributes (bstr "a#b.txt text")) = [].
Proof. vm_compute. reflexivity. Qed.

(** ** Witnesses *)

Lemma attributes_spec_witness : exists assigned, last_assigned assigned (bstr "diff") = Some AttrUnset /\
  check_attributes (parse_attributes (bstr "*.bin -text binary")) (bstr "a/file.bin") [bstr "diff"] = Ok [(bstr "diff", AttrUnset)].
Proof.
  destruct (attributes_spec (parse_attributes (bstr "*.bin -text binary")) (bstr "a/file.bin")) as (assigned & all & _ & Hc & _ & _ & _).
  - by_decide.
  - exists assigned. specialize (Hc [bstr "diff"]). split; [|vm_compute; reflexivity].
    replace (check_attributes (parse_attributes (bstr "*.bin -text binary")) (bstr "a/file.bin") [bstr "diff"])
      with (@Ok attribute_map [(bstr "diff", AttrUnset)]) in Hc by (vm_compute; reflexivity).
    cbn [map] in Hc. injection Hc as Hc. destruct (last_assigned assigned (bstr "diff")); congruence.
Defined.

Lemma eol_roundtrip_witness : apply_eol_clean_to_lf (apply_eol_smudge_to_crlf (bstr "a" ++ [nl] ++ bstr "b")) = Ok (bstr "a" ++ [nl] ++ bstr "b").
Proof. apply (eol_roundtrip (bstr "a" ++ [nl] ++ bstr "b")). by_decide. Defined.

#[local] Instance sample_hex_crate : HexCrate := hex_encode.

#[local] Instance sample_hex_crate_laws : HexCrateLaws.
Proof. done. Qed.

Lemma ident_roundtrip_witness : exists smudged, apply_ident_smudge (bstr "x $Id$ y") (sample_id Sha1 7) = Ok smudged /\
  apply_ident_clean smudged = Ok (bstr "x $Id$ y").
Proof.
  apply (ident_roundtrip (bstr "x $Id$ y") (sample_id Sha1 7)). intros (a & b & E).
  assert (Hf : find_subslice (bstr "$Id:") (bstr "x $Id$ y") = None) by reflexivity.
  destruct (find_subslice_is_Some (bstr "$Id:") (bstr "x $Id$ y")) as [_ [i Hi]]; [by exists a, b|]. rewrite Hf in Hi. done.
Defined.
