(* ===== verification/RefStore.v ===== *)
(** * References: single updates of the store, and what they leave of the other references *)
From S2P Require Import Prelude Order Object Text Tag Index Store Reader FileSystem RefNames Refs RefSpec.

(** ** Writing under a lock *)

(** Every directory above a path can be made. *)
Definition no_file_above (fs : Fs) (d : path) : Prop := forall q, q `prefix_of` d -> is_file (fs !! q) = false.

Lemma no_file_above_below fs d x q content : fs_wf fs -> no_file_above fs d -> fs !! q = Some (FFile content) -> q <> d ++ [x] ->
  ~ q `prefix_of` d ++ [x].
Proof.
  intros Hwf Hd Hq Hne [k E]. destruct (snoc_cases k) as [->|(k' & y & ->)]; [by rewrite app_nil_r in E|].
  rewrite app_assoc in E. apply app_inj_tail in E as [-> _]. specialize (Hd q ltac:(by eexists)). by rewrite Hq in Hd.
Qed.

Section atomic.
Context (d : path) (x : bytes).

#[local] Abbreviation target := (d ++ [x]).
#[local] Abbreviation lock := (d ++ [x ++ bstr ".lock"]).

Lemma lock_neq : lock <> target.
Proof. intros [_ E]%app_inj_tail. apply (f_equal length) in E. rewrite length_app in E. cbn in E. lia. Qed.

Lemma atomic_write_eq bs fs fs1 : create_dir_all d fs = (Ok tt, fs1) ->
  atomic_write target bs fs
  = (_ <~ or_remove lock (write_lock_file lock bs); or_remove lock (replace_with_lock lock target)) fs1.
Proof.
  intros E. unfold atomic_write. rewrite parent_snoc. rewrite (rbind_Ok _ _ _ _ _ E). cbv zeta. unfold lock_path.
  by rewrite push_suffix_snoc.
Qed.

(** The file afterwards, with the directories above it; nothing else changes. *)
Definition written (bs : bytes) (fs fs' : Fs) : Prop :=
  fs_wf fs' /\ fs' !! target = Some (FFile bs) /\
  forall q, q <> target -> fs' !! q = match fs !! q with
                                      | Some node => Some node
                                      | None => if decide (q `prefix_of` d) then Some FDir else None
                                      end.

Lemma atomic_write_Ok bs fs : fs_wf fs -> no_file_above fs d -> fs !! target <> Some FDir -> fs !! lock = None ->
  exists fs', atomic_write target bs fs = (Ok tt, fs') /\ written bs fs fs'.
Proof.
  intros Hwf Hd Ht Hl. destruct (create_dir_all_Ok fs d Hwf Hd) as (fs1 & E & Hwf1 & Hm).
  pose proof (dirs_made_dir _ _ _ Hwf Hd Hm) as Hdir. rewrite (atomic_write_eq _ _ _ E).
  assert (Hl1 : fs1 !! lock = None) by (rewrite Hm, Hl, decide_False by apply snoc_not_prefix; done).
  assert (Ht1 : fs1 !! target = fs !! target).
  { rewrite Hm. destruct (fs !! target); [done|]. by rewrite decide_False by apply snoc_not_prefix. }
  set (fs2 := <[lock := FFile bs]> fs1).
  assert (E2 : or_remove lock (write_lock_file lock bs) fs1 = (Ok tt, fs2)).
  { unfold or_remove, write_lock_file, create_new, append_file, rbind. rewrite Hl1, parent_snoc, Hdir.
    rewrite lookup_insert_eq. cbn [app]. by rewrite insert_insert_eq. }
  rewrite (rbind_Ok _ _ _ _ _ E2). unfold or_remove, replace_with_lock, rename.
  assert (El : fs2 !! lock = Some (FFile bs)) by apply lookup_insert_eq.
  assert (Et : fs2 !! target = fs !! target) by (unfold fs2; rewrite lookup_insert_ne by apply lock_neq; done).
  rewrite El, Et. exists (<[target := FFile bs]> (delete lock fs2)).
  split; [destruct (fs !! target) as [[?|]|]; done|]. split; [|split].
  - apply wf_insert_file.
    + eapply wf_delete_file; [|exact El]. apply wf_insert_file; [done|done|by rewrite Hl1].
    + rewrite lookup_delete_ne by apply dir_neq_snoc. unfold fs2. by rewrite lookup_insert_ne by apply dir_neq_snoc.
    + rewrite lookup_delete_ne by apply lock_neq. by rewrite Et.
  - apply lookup_insert_eq.
  - intros q Hq. rewrite lookup_insert_ne by done. destruct (decide (lock = q)) as [<-|Hne].
    + rewrite lookup_delete_eq, Hl. by rewrite decide_False by apply snoc_not_prefix.
    + rewrite lookup_delete_ne by done. unfold fs2. rewrite lookup_insert_ne by done. apply Hm.
Qed.

Lemma create_dir_all_id fs : fs_wf fs -> fs !! d = Some FDir -> create_dir_all d fs = (Ok tt, fs).
Proof.
  intros Hwf Hdir. assert (Hd : no_file_above fs d).
  { intros q [k ->]. destruct (fs !! q) as [[content|]|] eqn:Eq; [|done..]. destruct k as [|y k]; [rewrite app_nil_r in Hdir; congruence|].
    assert (fs !! q = Some FDir) by (by eapply wf_prefix). congruence. }
  destruct (create_dir_all_Ok fs d Hwf Hd) as (fs1 & E & Hwf1 & Hm). rewrite E. f_equal.
  apply map_eq. intros q. rewrite Hm. destruct (fs !! q) as [node|] eqn:Eq; [done|]. destruct (decide (q `prefix_of` d)) as [[k ->]|]; [|done].
  destruct k as [|y k]; [rewrite app_nil_r in Hdir; congruence|].
  assert (fs !! q = Some FDir) by (by eapply wf_prefix). congruence.
Qed.

(** A lock that is there: the call fails, and removes it. *)
Lemma atomic_write_locked bs fs content : fs_wf fs -> no_file_above fs d -> fs !! lock = Some (FFile content) ->
  atomic_write target bs fs = (fail AlreadyExists "file exists", delete lock fs).
Proof.
  intros Hwf Hd Hl. assert (Hdir : fs !! d = Some FDir) by (by eapply wf_parent).
  rewrite (atomic_write_eq _ _ _ (create_dir_all_id fs Hwf Hdir)). unfold or_remove at 1, write_lock_file, create_new, rbind. rewrite Hl.
  cbn [fail]. unfold remove_file. by rewrite Hl.
Qed.

(** A directory in the way: the call fails, and leaves nothing. *)
Lemma atomic_write_directory bs fs : fs_wf fs -> fs !! target = Some FDir -> fs !! lock = None ->
  atomic_write target bs fs = (fail OtherKind "is a directory", fs).
Proof.
  intros Hwf Ht Hl. assert (Hdir : fs !! d = Some FDir) by (by eapply wf_parent).
  rewrite (atomic_write_eq _ _ _ (create_dir_all_id fs Hwf Hdir)). set (fs2 := <[lock := FFile bs]> fs).
  assert (E2 : or_remove lock (write_lock_file lock bs) fs = (Ok tt, fs2)).
  { unfold or_remove, write_lock_file, create_new, append_file, rbind. rewrite Hl, parent_snoc, Hdir.
    rewrite lookup_insert_eq. cbn [app]. by rewrite insert_insert_eq. }
  rewrite (rbind_Ok _ _ _ _ _ E2). unfold or_remove, replace_with_lock, rename, fs2.
  rewrite lookup_insert_eq, lookup_insert_ne, Ht by apply lock_neq. cbn [fail]. unfold remove_file. rewrite lookup_insert_eq. cbn [snd].
  by rewrite delete_insert_id.
Qed.
End atomic.

(** ** The file of packed references *)

Definition unlines (lines : list bytes) : bytes := lines ≫= (fun line => line ++ [nl]).

Definition line_ok (line : bytes) : Prop :=
  contains_byte nl line = false /\ ends_with [Byte.x0d] line = false /\ utf8_valid line = true.

Fixpoint packed_entries (alg : GitHashAlgorithm) (lines : list bytes) : outcome (list (ObjectId * bytes)) :=
  match lines with
  | [] => Ok []
  | line :: lines =>
      entry ← parse_packed_ref_line alg line;
      entries ← packed_entries alg lines;
      Ok (match entry with Some entry => entry :: entries | None => entries end)
  end.

(** A file of lines that are read as these entries. *)
Definition packed_wf (alg : GitHashAlgorithm) (content : bytes) (entries : list (ObjectId * bytes)) : Prop :=
  exists lines, content = unlines lines /\ Forall line_ok lines /\ packed_entries alg lines = Ok entries.

Lemma split_unlines lines : Forall line_ok lines -> split_on nl (unlines lines) = lines ++ [[]].
Proof.
  induction 1 as [|line lines (Hn & _) _ IH]; [done|]. unfold unlines. cbn [mbind list_bind].
  rewrite <- app_assoc. cbn [app]. rewrite split_on_app by done. cbn [app]. by rewrite <- IH.
Qed.

Lemma raw_lines_unlines lines : Forall line_ok lines -> raw_lines (unlines lines) = map (fun line => (line, true)) lines.
Proof.
  intros Hl. unfold raw_lines. rewrite split_unlines, removelast_snoc, last_snoc by done.
  by rewrite bool_decide_true, app_nil_r.
Qed.

Lemma line_of_ok line : line_ok line -> line_of (line, true) = Ok line.
Proof. intros (_ & Hr & Hu). unfold line_of. cbn [fst]. rewrite Hu. cbn [negb check]. rewrite bind_Ok. unfold chomp. by rewrite Hr. Qed.

Section entries.
Context (alg : GitHashAlgorithm).

(** The callbacks over the entries. *)
Fixpoint entry_loop {S : Type} (on_ref : ObjectId -> bytes -> S -> outcome (S * bool)) (entries : list (ObjectId * bytes)) (s : S)
  : outcome S :=
  match entries with
  | [] => Ok s
  | (id, name) :: entries =>
      '(s, go_on) ← on_ref id name s;
      if (go_on : bool) then entry_loop on_ref entries s else Ok s
  end.

Lemma packed_loop_entries {S : Type} (on_ref : ObjectId -> bytes -> S -> outcome (S * bool)) lines entries s :
  Forall line_ok lines -> packed_entries alg lines = Ok entries ->
  packed_ref_line_loop (packed_on_line alg on_ref) (map (fun line => (line, true)) lines) s = entry_loop on_ref entries s.
Proof.
  intros Hl. revert entries s. induction Hl as [|line lines Hline _ IH]; intros entries s E; cbn [packed_entries] in E.
  { by injection E as <-. }
  apply bind_Ok_inv in E as (entry & Ep & E). apply bind_Ok_inv in E as (entries' & Ee & [= <-]).
  cbn [map packed_ref_line_loop]. rewrite line_of_ok, bind_Ok by done. assert (Eo : packed_on_line alg on_ref line s = match entry with Some (id, name) => on_ref id name s | None => Ok (s, true) end)
    by (unfold packed_on_line; by rewrite Ep, bind_Ok). rewrite Eo.
  destruct entry as [[id name]|]; [|rewrite bind_Ok; by apply IH]. cbn [entry_loop].
  destruct (on_ref id name s) as [[s' [|]]|e| |]; try done. rewrite !bind_Ok. by apply IH.
Qed.

Definition packed_find (entries : list (ObjectId * bytes)) (name : bytes) : option ObjectId :=
  match list_find (fun entry => entry.2 = name) entries with
  | Some (_, (id, _)) => Some id
  | None => None
  end.

Lemma packed_find_cons id name' entries name :
  packed_find ((id, name') :: entries) name = if decide (name' = name) then Some id else packed_find entries name.
Proof.
  unfold packed_find. cbn [list_find snd]. destruct (decide (name' = name)); [done|].
  by destruct (list_find _ entries) as [[? [? ?]]|].
Qed.

Lemma entry_loop_find entries name :
  entry_loop (fun id ref_name found =>
    if bool_decide (ref_name = name) then Ok (Some (Direct id), false) else Ok (found, true)) entries None
  = Ok (Direct <$> packed_find entries name).
Proof.
  induction entries as [|[id name'] entries IH]; [done|]. cbn [entry_loop]. rewrite packed_find_cons.
  destruct (decide (name' = name)) as [->|Hne]; [by rewrite bool_decide_true, bind_Ok|].
  by rewrite bool_decide_false, bind_Ok, IH.
Qed.

Lemma contains_loop_entries lines entries name : Forall line_ok lines -> packed_entries alg lines = Ok entries ->
  packed_refs_contains_loop alg (map (fun line => (line, true)) lines) name = Ok (bool_decide (name ∈ entries.*2)).
Proof.
  intros Hl. revert entries. induction Hl as [|line lines Hline _ IH]; intros entries E; cbn [packed_entries] in E.
  { by injection E as <-. }
  apply bind_Ok_inv in E as (entry & Ep & E). apply bind_Ok_inv in E as (entries' & Ee & [= <-]).
  cbn [map packed_refs_contains_loop]. rewrite line_of_ok, bind_Ok, Ep, bind_Ok by done.
  destruct entry as [[id name']|]; [|by apply IH]. cbn [fmap list_fmap map snd].
  destruct (decide (name' = name)) as [->|Hne].
  - rewrite !bool_decide_true; [done|by left|done].
  - rewrite bool_decide_false, (IH entries') by done. f_equal. apply bool_decide_ext. rewrite elem_of_cons. naive_solver.
Qed.

Lemma caret_line line : starts_with (bstr "^") line = true -> parse_packed_ref_line alg line = Ok None.
Proof. intros E. unfold parse_packed_ref_line. by rewrite E, orb_true_r. Qed.

Lemma append_append fs lock c a b : fs !! lock = Some (FFile c) ->
  (append_file lock b (append_file lock a fs).2) = (Ok tt, <[lock := FFile (c ++ a ++ b)]> fs).
Proof. intros E. unfold append_file. rewrite E. cbn [snd]. by rewrite lookup_insert_eq, insert_insert_eq, <- app_assoc. Qed.

(** The copy has the lines of the other references. *)
Lemma copy_without_entries lock name lines : Forall line_ok lines -> forall entries skip fs c,
  packed_entries alg lines = Ok entries -> fs !! lock = Some (FFile c) ->
  exists lines', copy_without_ref alg lock name (map (fun line => (line, true)) lines) skip fs
      = (Ok tt, <[lock := FFile (c ++ unlines lines')]> fs) /\
    Forall line_ok lines' /\ packed_entries alg lines' = Ok (filter (fun entry => entry.2 <> name) entries).
Proof.
  induction 1 as [|line lines Hline Hl IH]; intros entries skip fs c E Hc; cbn [packed_entries] in E.
  { injection E as <-. exists []. split; [|done]. cbn. unfold rret. rewrite app_nil_r. by rewrite insert_id. }
  apply bind_Ok_inv in E as (entry & Ep & E). apply bind_Ok_inv in E as (entries' & Ee & [= <-]).
  cbn [map copy_without_ref]. rewrite line_of_ok by done. change (rbind (rlift (Ok ?a)) ?f ?x) with (f a x). cbv beta.
  destruct (skip && starts_with (bstr "^") line) eqn:Es.
  { apply andb_true_iff in Es as [_ Es]. rewrite (caret_line _ Es) in Ep. injection Ep as <-. by apply IH. }
  rewrite Ep. change (rbind (rlift (Ok ?a)) ?f ?x) with (f a x). cbv beta.
  assert (Hkeep : (match entry with Some (_, ref_name) => bool_decide (ref_name = name) | None => false end) = false ->
    exists lines', (_ <~ append_file lock line; _ <~ append_file lock [nl];
        copy_without_ref alg lock name (map (fun line => (line, true)) lines) false) fs
      = (Ok tt, <[lock := FFile (c ++ unlines lines')]> fs) /\ Forall line_ok lines' /\
      packed_entries alg lines' = Ok (filter (fun entry => entry.2 <> name)
        (match entry with Some entry => entry :: entries' | None => entries' end))).
  { intros Hk. set (fs2 := <[lock := FFile (c ++ line ++ [nl])]> fs).
    destruct (IH entries' false fs2 (c ++ line ++ [nl]) Ee) as (lines' & E' & Hl' & Ee'); [apply lookup_insert_eq|].
    exists (line :: lines'). split; [|split; [by constructor|]].
    - pose proof (append_append fs lock c line [nl] Hc) as Ea. unfold rbind.
      destruct (append_file lock line fs) as [o1 fs1] eqn:E1. cbn [snd] in Ea.
      assert (o1 = Ok tt) as -> by (unfold append_file in E1; rewrite Hc in E1; by injection E1).
      rewrite Ea. fold fs2. rewrite E'. unfold fs2. rewrite insert_insert_eq. unfold unlines. cbn [mbind list_bind].
      by rewrite <- !app_assoc.
    - cbn [packed_entries]. rewrite Ep, bind_Ok, Ee', bind_Ok. destruct entry as [[id name']|]; [|done].
      apply bool_decide_eq_false in Hk. by rewrite filter_cons_True. }
  destruct entry as [[id name']|]; [|by apply Hkeep].
  destruct (bool_decide (name' = name)) eqn:En; [|by apply Hkeep]. apply bool_decide_eq_true in En. subst name'.
  rewrite filter_cons_False by (cbn; tauto). by apply IH.
Qed.
End entries.

(** ** Reading *)

Definition packed_in (alg : GitHashAlgorithm) (fs : Fs) (entries : list (ObjectId * bytes)) : Prop :=
  match fs !! packed_refs_path with
  | Some (FFile content) => packed_wf alg content entries
  | Some FDir => False
  | None => entries = []
  end.

Lemma missing_top {A : Type} fs x : fs_wf fs -> missing (A := A) fs [x] = fail NotFound "no such file or directory".
Proof. intros Hwf. unfold missing, under_file. cbn. by rewrite (wf_root fs Hwf). Qed.

Lemma read_packed_lines_eq alg fs entries : fs_wf fs -> packed_in alg fs entries ->
  exists lines, read_packed_lines fs = (Ok (map (fun line => (line, true)) lines), fs) /\
    Forall line_ok lines /\ packed_entries alg lines = Ok entries.
Proof.
  intros Hwf. unfold packed_in, read_packed_lines, or_absent, fs_read, rbind. destruct (fs !! packed_refs_path) as [[content|]|]; [|done|].
  - intros (lines & -> & Hl & E). exists lines. unfold rret. by rewrite raw_lines_unlines.
  - intros ->. exists []. unfold packed_refs_path. rewrite missing_top by done. done.
Qed.

Lemma for_each_packed_ref_eq {S : Type} alg (on_ref : ObjectId -> bytes -> S -> outcome (S * bool)) fs entries s :
  fs_wf fs -> packed_in alg fs entries -> for_each_packed_ref alg on_ref s fs = (entry_loop on_ref entries s, fs).
Proof.
  intros Hwf Hp. destruct (read_packed_lines_eq alg fs entries Hwf Hp) as (lines & E & Hl & Ee).
  unfold for_each_packed_ref, for_each_packed_ref_line. rewrite (rbind_Ok _ _ _ _ _ E). unfold rlift.
  by rewrite (packed_loop_entries alg on_ref lines entries s Hl Ee).
Qed.

(** What a reference at a path reads as. *)
Definition stored (alg : GitHashAlgorithm) (fs : Fs) (entries : list (ObjectId * bytes)) (p : path) (name : bytes) : outcome RefTarget :=
  match fs !! p with
  | Some (FFile content) =>
      _ ← check (negb (utf8_valid content)) InvalidData "stream did not contain valid UTF-8";
      parse_ref_target alg (trim_end_byte nl content)
  | Some FDir => fail OtherKind "is a directory"
  | None =>
      if under_file fs p then fail OtherKind "not a directory"
      else ok_or (Direct <$> packed_find entries name) NotFound "ref not found"
  end.

Lemma read_ref_eq alg fs entries parts name : fs_wf fs -> packed_in alg fs entries -> ref_name_of parts name ->
  read_ref alg name fs = (stored alg fs entries (bstr "refs" :: parts) name, fs).
Proof.
  intros Hwf Hp Hn. assert (Hv : validate_ref_name name = Ok tt) by (apply validate_ref_name_Ok; by exists parts).
  unfold read_ref, stored, ref_path, or_absent, fs_read_to_string, fs_read, missing, rbind, rlift, rret.
  rewrite Hv, (ref_name_path _ _ Hn). destruct (fs !! (bstr "refs" :: parts)) as [[content|]|].
  - destruct (utf8_valid content); cbn [negb check]; [|done]. by rewrite bind_Ok.
  - done.
  - destruct (under_file fs _); [done|]. cbn [fail err_kind]. unfold read_packed_ref.
    by rewrite (for_each_packed_ref_eq _ _ _ entries), entry_loop_find by done.
Qed.

(** Paths of which neither goes through the other. *)
Definition apart (p q : path) : Prop := ~ p `prefix_of` q /\ ~ q `prefix_of` p.

Lemma under_file_agree fs fs' p : (forall q, q `prefix_of` p -> q <> p -> is_file (fs' !! q) = is_file (fs !! q)) ->
  under_file fs' p = under_file fs p.
Proof.
  intros Hq. unfold under_file. assert (Hin : forall k, k ∈ seq 0 (length p) -> is_file (fs' !! take k p) = is_file (fs !! take k p)).
  { intros k [_ Hk]%elem_of_seq. apply Hq; [by exists (drop k p); rewrite take_drop|]. intros E.
    apply (f_equal length) in E. rewrite length_take in E. lia. }
  induction (seq 0 (length p)) as [|k ks IH]; [done|]. cbn [existsb]. rewrite Hin by (by left). f_equal.
  apply IH. intros k' Hk'. apply Hin. by right.
Qed.

(** A store that differs only where the path does not lead reads the same. *)
Lemma stored_agree alg fs fs' entries entries' p name :
  fs' !! p = fs !! p -> (forall q, q `prefix_of` p -> q <> p -> is_file (fs' !! q) = is_file (fs !! q)) ->
  packed_find entries' name = packed_find entries name ->
  stored alg fs' entries' p name = stored alg fs entries p name.
Proof. intros Hp Hq Hf. unfold stored. by rewrite Hp, (under_file_agree fs fs' p Hq), Hf. Qed.

(** *** A name and its files *)

Lemma name_snoc (parts : list bytes) : parts <> [] -> exists d x, bstr "refs" :: parts = (bstr "refs" :: d) ++ [x].
Proof. intros Hp. destruct (exists_last Hp) as (d & x & ->). by exists d, x. Qed.

Lemma not_top_prefix (d : list bytes) y : y <> bstr "refs" -> ~ [y] `prefix_of` bstr "refs" :: d.
Proof. intros Hy [k E]. injection E as E _. by symmetry in E. Qed.

Lemma written_stored alg d x bs fs fs' entries p name : written (bstr "refs" :: d) x bs fs fs' ->
  apart ((bstr "refs" :: d) ++ [x]) p -> stored alg fs' entries p name = stored alg fs entries p name.
Proof.
  intros (_ & _ & Hw) [H1 H2]. apply stored_agree; [|intros q Hq Hne|done].
  - rewrite Hw by (intros ->; by apply H1). destruct (fs !! p); [done|]. rewrite decide_False; [done|].
    intros Hp. apply H2. destruct Hp as [k Hk]. rewrite Hk. exists (k ++ [x]). by rewrite <- app_assoc.
  - rewrite Hw by (intros ->; by apply H1). destruct (fs !! q) as [[?|]|]; [done..|]. by destruct (decide _).
Qed.

Lemma written_packed alg d x bs fs fs' entries : written (bstr "refs" :: d) x bs fs fs' -> packed_in alg fs entries -> packed_in alg fs' entries.
Proof.
  intros (_ & _ & Hw). unfold packed_in. rewrite Hw by done. destruct (fs !! packed_refs_path); [done|].
  rewrite decide_False; [done|]. by apply not_top_prefix.
Qed.

Lemma written_other bs d x fs fs' q : written d x bs fs fs' -> q <> d ++ [x] -> ~ q `prefix_of` d -> fs' !! q = fs !! q.
Proof. intros (_ & _ & Hw) H1 H2. rewrite Hw by done. destruct (fs !! q); [done|]. by rewrite decide_False. Qed.

(** ** Writing a reference *)

Section updates.
Context `{HexCrateLaws} (alg : GitHashAlgorithm).

Definition target_ok (t : RefTarget) : Prop :=
  match t with
  | Direct id => ObjectId_wf id /\ algorithm id = alg
  | Symbolic target => (exists parts, ref_name_of parts target) /\ utf8_valid target = true
  end.

Definition target_text (t : RefTarget) : bytes :=
  match t with Direct id => direct_text id | Symbolic target => symbolic_text target end.

Definition write_target (name : bytes) (t : RefTarget) : rd Fs unit :=
  match t with Direct id => write_ref alg name id | Symbolic target => write_symbolic_ref name target end.

Lemma target_text_utf8 t : target_ok t -> utf8_valid (target_text t) = true.
Proof.
  destruct t as [id|target]; intros Ht; cbn [target_text]; unfold direct_text, symbolic_text.
  - apply utf8_valid_app; [apply to_hex_utf8|done].
  - repeat apply utf8_valid_app; try done. apply Ht.
Qed.

Lemma target_text_reads t : target_ok t -> parse_ref_target alg (trim_end_byte nl (target_text t)) = Ok t.
Proof.
  destruct t as [id|target]; cbn [target_text target_ok].
  - intros [Hwf <-]. by apply direct_target.
  - intros [(parts & Hn) _]. by eapply symbolic_target.
Qed.

Lemma ref_name_not_head parts name : ref_name_of parts name -> name <> bstr "HEAD".
Proof. intros (-> & Hne & _). destruct parts; [done|]. rewrite join_with_cons. done. Qed.

Lemma write_target_eq name parts t fs : ref_name_of parts name -> target_ok t ->
  write_target name t fs = atomic_write (bstr "refs" :: parts) (target_text t) fs.
Proof.
  intros Hn Ht. assert (Hv : validate_ref_name name = Ok tt) by (apply validate_ref_name_Ok; by exists parts).
  unfold write_target, write_ref, write_symbolic_ref, check_ref_algorithm, rbind, rlift, ref_path. rewrite (ref_name_path _ _ Hn), Hv.
  destruct t as [id|target]; cbn [target_ok] in Ht.
  - destruct Ht as [_ <-]. by rewrite bool_decide_true.
  - destruct Ht as [Ht _]. rewrite bool_decide_false by (by eapply ref_name_not_head).
    assert (Hv' : validate_ref_name target = Ok tt) by by apply validate_ref_name_Ok. by rewrite Hv'.
Qed.

(** C18: writing a reference, direct or symbolic, succeeds whenever its lock is free, its path is not a directory and no
    file stands above it.  The reference then reads as what was written, the lock is free again,
    the packed references are as they were, and every other name reads as before unless one path leads through
    the other. *)
Theorem ref_write_spec fs entries parts name t :
  fs_wf fs -> packed_in alg fs entries -> ref_name_of parts name -> target_ok t ->
  no_file_above fs (removelast (bstr "refs" :: parts)) -> fs !! (bstr "refs" :: parts) <> Some FDir ->
  fs !! lock_path (bstr "refs" :: parts) = None ->
  exists fs', write_target name t fs = (Ok tt, fs') /\ fs_wf fs' /\ packed_in alg fs' entries /\
    fs' !! lock_path (bstr "refs" :: parts) = None /\ read_ref alg name fs' = (Ok t, fs') /\
    forall parts' name', ref_name_of parts' name' -> apart (bstr "refs" :: parts) (bstr "refs" :: parts') ->
      (read_ref alg name' fs').1 = (read_ref alg name' fs).1.
Proof.
  intros Hwf Hp Hn Ht Hd Hdir Hlock. rewrite (write_target_eq _ parts) by done. pose proof Hn as (_ & Hne & _).
  destruct (name_snoc parts Hne) as (d & x & E). unfold lock_path in *. rewrite E in *. rewrite removelast_snoc in Hd. rewrite push_suffix_snoc in *.
  destruct (atomic_write_Ok (bstr "refs" :: d) x (target_text t) fs Hwf Hd Hdir Hlock) as (fs' & Ew & Hw).
  exists fs'. split; [done|]. pose proof Hw as (Hwf' & Ht' & _). split; [done|].
  pose proof (written_packed alg d x _ fs fs' entries Hw Hp) as Hp'. split; [done|]. split; [|split].
  - rewrite (written_other _ _ _ _ _ _ Hw); [done|apply (lock_neq (bstr "refs" :: d))|apply snoc_not_prefix].
  - rewrite (read_ref_eq alg fs' entries parts) by done. unfold stored. rewrite E, Ht'.
    rewrite target_text_utf8 by done. cbn [negb check]. by rewrite bind_Ok, target_text_reads.
  - intros parts' name' Hn' Ha. rewrite (read_ref_eq alg fs' entries parts') by done. rewrite (read_ref_eq alg fs entries parts') by done.
    cbn [fst]. by eapply written_stored.
Qed.

(** A lock does not hold.  The call that finds the lock of another writer fails and removes that lock,
    so that the same call made again succeeds, while the other writer still believes to hold it. *)
Theorem write_ref_breaks_lock fs entries parts name t content :
  fs_wf fs -> packed_in alg fs entries -> ref_name_of parts name -> target_ok t ->
  no_file_above fs (removelast (bstr "refs" :: parts)) -> fs !! (bstr "refs" :: parts) <> Some FDir ->
  fs !! lock_path (bstr "refs" :: parts) = Some (FFile content) ->
  exists fs1 fs2, write_target name t fs = (fail AlreadyExists "file exists", fs1) /\
    fs1 = delete (lock_path (bstr "refs" :: parts)) fs /\
    write_target name t fs1 = (Ok tt, fs2) /\ read_ref alg name fs2 = (Ok t, fs2).
Proof.
  intros Hwf Hp Hn Ht Hd Hdir Hlock. pose proof Hn as (_ & Hne & _). destruct (name_snoc parts Hne) as (d & x & E).
  unfold lock_path in *. rewrite E in *. rewrite removelast_snoc in Hd. rewrite push_suffix_snoc in *.
  set (lock := (bstr "refs" :: d) ++ [x ++ bstr ".lock"]) in *.
  assert (Hwf1 : fs_wf (delete lock fs)) by by eapply wf_delete_file.
  destruct (atomic_write_Ok (bstr "refs" :: d) x (target_text t) (delete lock fs)) as (fs2 & Ew & Hw); [done|..].
  - intros q Hq. destruct (decide (lock = q)) as [<-|Hl]; [by rewrite lookup_delete_eq|]. rewrite lookup_delete_ne by done. by apply Hd.
  - rewrite lookup_delete_ne by apply (lock_neq (bstr "refs" :: d)). done.
  - apply lookup_delete_eq.
  - exists (delete lock fs), fs2. rewrite !(write_target_eq _ parts), E by done.
    split; [by apply (atomic_write_locked (bstr "refs" :: d) x _ fs content)|]. split; [done|]. split; [done|].
    pose proof Hw as (Hwf2 & Ht2 & _). assert (Hp2 : packed_in alg fs2 entries).
    { eapply written_packed; [exact Hw|]. unfold packed_in in *. by rewrite lookup_delete_ne. }
    rewrite (read_ref_eq alg fs2 entries parts) by done. unfold stored. rewrite E, Ht2.
    rewrite target_text_utf8 by done. cbn [negb check]. by rewrite bind_Ok, target_text_reads.
Qed.
End updates.

(** ** Deleting a reference *)

(** A directory on the way to [d], below the second level, that holds nothing but directories on that way. *)
Definition emptied (d : path) (fs : Fs) (q : path) : Prop :=
  q `prefix_of` d /\ 3 <= length q /\ forall r, q `prefix_of` r -> is_Some (fs !! r) -> r `prefix_of` d.

(** The directories left empty are gone, and nothing else is touched. *)
Definition pruned (d : path) (fs fs' : Fs) : Prop := forall q,
  (emptied d fs q /\ fs' !! q = None) \/ (~ emptied d fs q /\ fs' !! q = fs !! q).

Lemma pruned_or d fs fs' q : no_file_above fs d -> pruned d fs fs' ->
  fs' !! q = fs !! q \/ (fs !! q = Some FDir /\ fs' !! q = None /\ q `prefix_of` d /\ 3 <= length q).
Proof.
  intros Hd Hp. destruct (Hp q) as [[(Hq & Hl & _) E]|[_ E]]; [|by left].
  specialize (Hd q Hq). destruct (fs !! q) as [[content|]|]; [done|by right|by left].
Qed.

Lemma pruned_files d fs fs' q : no_file_above fs d -> pruned d fs fs' -> is_file (fs' !! q) = is_file (fs !! q).
Proof. intros Hd Hp. destruct (pruned_or d fs fs' q Hd Hp) as [->|(-> & -> & _)]; done. Qed.

(** Nothing goes where the last directory holds something off the way, or is on the second level. *)
Lemma pruned_stop d fs : length d < 3 \/ (exists r, d `prefix_of` r /\ is_Some (fs !! r) /\ ~ r `prefix_of` d) -> pruned d fs fs.
Proof.
  intros Hd q. right. split; [|done]. intros (Hq & Hl & Hall). destruct Hd as [Hd|(r & Hr & Hin & Hno)].
  - apply prefix_length in Hq. lia.
  - apply Hno, Hall; [by etrans|done].
Qed.

(** The last directory goes, then those above it. *)
Lemma pruned_step d x fs fs' : 2 <= length d -> (forall y, fs !! ((d ++ [x]) ++ [y]) = None) -> fs_wf fs ->
  pruned d (delete (d ++ [x]) fs) fs' -> pruned (d ++ [x]) fs fs'.
Proof.
  intros Hl Hno Hwf Hp q.
  assert (Hbelow : forall r, d ++ [x] `prefix_of` r -> is_Some (fs !! r) -> r = d ++ [x]).
  { intros r [k ->] [node En]. destruct k as [|y k]; [by rewrite app_nil_r|]. exfalso. destruct k as [|z k].
    - by rewrite Hno in En.
    - replace ((d ++ [x]) ++ y :: z :: k) with (((d ++ [x]) ++ [y]) ++ z :: k) in En by (by rewrite <- app_assoc).
      apply (wf_prefix fs) in En; [|done|done]. by rewrite Hno in En. }
  assert (Hup : forall r, r `prefix_of` d -> r `prefix_of` d ++ [x]) by (intros r; apply prefix_app_r).
  destruct (decide (q = d ++ [x])) as [->|Hne].
  - left. split.
    + split; [done|]. split; [rewrite length_app; cbn; lia|]. intros r Hr Hin. by rewrite (Hbelow r Hr Hin).
    + destruct (Hp (d ++ [x])) as [[_ E]|[_ ->]]; [done|apply lookup_delete_eq].
  - rewrite <- (lookup_delete_ne fs (d ++ [x]) q) by done.
    assert (Hdown : forall r, r <> d ++ [x] -> r `prefix_of` d ++ [x] -> r `prefix_of` d).
    { intros r Hr [k Ek]. destruct k as [|z k _] using rev_ind; [by rewrite app_nil_r in Ek|].
      rewrite app_assoc in Ek. apply app_inj_tail in Ek as [-> _]. by exists k. }
    destruct (Hp q) as [[(Hq & Hlq & Hall) E]|[Hn E]]; [left|right].
    + split; [|done]. split; [by apply Hup|]. split; [done|]. intros r Hr Hin.
      destruct (decide (r = d ++ [x])) as [->|Hrx]; [done|]. apply Hup, Hall; [done|by rewrite lookup_delete_ne].
    + split; [|done]. intros (Hq & Hlq & Hall). apply Hn. split; [by apply Hdown|]. split; [done|].
      intros r Hr [node [Hrx Hin]%lookup_delete_Some]. apply Hdown; [done|]. by apply Hall.
Qed.

Lemma no_file_missing {A : Type} fs d : no_file_above fs d -> missing (A := A) fs d = fail NotFound "no such file or directory".
Proof.
  intros Hd. unfold missing. assert (under_file fs d = false) as ->; [|done]. unfold under_file. apply not_true_is_false.
  intros (k & _ & Hf)%existsb_exists. rewrite Hd in Hf; [done|]. exists (drop k d). by rewrite take_drop.
Qed.

Lemma prune_loop_spec rdir : forall fs rest, rev rdir = bstr "refs" :: rest -> fs_wf fs -> no_file_above fs (rev rdir) ->
  exists fs', prune_loop rdir fs = (Ok tt, fs') /\ fs_wf fs' /\ pruned (rev rdir) fs fs'.
Proof.
  induction rdir as [|x rparent IH]; intros fs rest E Hwf Hd; [done|]. cbn [prune_loop].
  assert (Hsame : pruned (rev (x :: rparent)) fs fs ->
    exists fs', (Ok tt, fs) = (@Ok unit tt, fs') /\ fs_wf fs' /\ pruned (rev (x :: rparent)) fs fs') by (by exists fs).
  destruct (bool_decide (rev (x :: rparent) = refs_root)) eqn:E1.
  { apply bool_decide_eq_true in E1. apply Hsame, pruned_stop. left. rewrite E1. cbn. lia. }
  destruct (bool_decide (rev rparent = refs_root)) eqn:E2; cbn [orb].
  { apply bool_decide_eq_true in E2. apply Hsame, pruned_stop. left. cbn [rev]. rewrite E2. cbn. lia. }
  apply bool_decide_eq_false in E1, E2. cbn [rev] in *.
  assert (Hrest : exists y rest', rev rparent = bstr "refs" :: y :: rest').
  { destruct (rev rparent) as [|a [|y rest']]; cbn [app] in E.
    - injection E as -> _. done.
    - injection E as -> _. done.
    - injection E as -> _. by exists y, rest'. }
  destruct Hrest as (y & rest' & Er).
  assert (Hlen : 2 <= length (rev rparent)) by (rewrite Er; cbn; lia).
  assert (Hup : no_file_above fs (rev rparent)) by (intros q Hq; by apply Hd, prefix_app_r).
  assert (Hnext : (forall z, fs !! ((rev rparent ++ [x]) ++ [z]) = None) ->
    exists fs', prune_loop rparent (delete (rev rparent ++ [x]) fs) = (Ok tt, fs') /\ fs_wf fs' /\ pruned (rev rparent ++ [x]) fs fs').
  { intros Hno. destruct (IH (delete (rev rparent ++ [x]) fs) (y :: rest') Er) as (fs' & E' & Hwf' & Hp').
    - apply wf_delete; [done|by destruct (rev rparent)|done].
    - intros q Hq. rewrite lookup_delete_ne; [by apply Hup|]. apply not_eq_sym. by apply prefix_snoc_neq.
    - exists fs'. split; [done|]. split; [done|]. by apply pruned_step. }
  unfold remove_dir. destruct (fs !! (rev rparent ++ [x])) as [[content|]|] eqn:Ed.
  - exfalso. specialize (Hd (rev rparent ++ [x]) ltac:(done)). by rewrite Ed in Hd.
  - case_bool_decide as Hc; [by apply Hnext, no_children|].
    apply Hsame, pruned_stop. right. destruct (fs_children fs (rev rparent ++ [x])) as [|[z node] l] eqn:Ec; [done|].
    exists ((rev rparent ++ [x]) ++ [z]). split; [by apply prefix_app_r|]. split; [|apply snoc_not_prefix].
    exists node. apply children_elem. rewrite Ec. by left.
  - rewrite no_file_missing by done. cbn [fail err_kind]. rewrite (delete_id fs (rev rparent ++ [x])) in Hnext by done.
    apply Hnext. intros z. destruct (fs !! ((rev rparent ++ [x]) ++ [z])) eqn:Ez; [|done]. apply (wf_parent fs Hwf) in Ez. congruence.
Qed.

Section deletes.
Context `{HexCrateLaws} (alg : GitHashAlgorithm).

Definition other_entries (name : bytes) (entries : list (ObjectId * bytes)) : list (ObjectId * bytes) :=
  filter (fun entry => entry.2 <> name) entries.

Lemma packed_find_others name entries name' : name' <> name -> packed_find (other_entries name entries) name' = packed_find entries name'.
Proof.
  intros Hne. induction entries as [|[id n] entries IH]; [done|]. unfold other_entries in *.
  destruct (decide (n = name)) as [->|Hn].
  - rewrite filter_cons_False by (cbn; tauto). by rewrite packed_find_cons, decide_False.
  - rewrite filter_cons_True by done. by rewrite !packed_find_cons, IH.
Qed.

Lemma packed_find_absent name entries : name ∉ entries.*2 -> packed_find entries name = None.
Proof.
  induction entries as [|[id n] entries IH]; [done|]. rewrite packed_find_cons. cbn [fmap list_fmap map snd].
  intros [Hn He]%not_elem_of_cons. rewrite decide_False by done. by apply IH.
Qed.

Lemma others_absent name entries : name ∉ (other_entries name entries).*2.
Proof. intros (e & -> & [He _]%list_elem_of_filter)%list_elem_of_fmap. done. Qed.

Lemma others_id name entries : name ∉ entries.*2 -> other_entries name entries = entries.
Proof.
  intros Hn. apply filter_all, Forall_forall. intros e He E. apply Hn. rewrite <- E. by apply list_elem_of_fmap_2.
Qed.

(** After the scan. *)
Lemma delete_packed_ref_eq fs content lines entries name : fs !! packed_refs_path = Some (FFile content) ->
  content = unlines lines -> Forall line_ok lines -> packed_entries alg lines = Ok entries ->
  delete_packed_ref alg name fs =
  if bool_decide (name ∈ entries.*2) then
    (_ <~ or_remove packed_refs_lock_path (write_packed_refs_without_ref alg content packed_refs_lock_path name);
     _ <~ or_remove packed_refs_lock_path (replace_with_lock packed_refs_lock_path packed_refs_path);
     rret true) fs
  else (Ok false, fs).
Proof.
  intros Ep -> Hl Ee. assert (Er : fs_read packed_refs_path fs = (Ok (unlines lines), fs)) by (unfold fs_read; by rewrite Ep).
  assert (Eo : or_absent (fs_read packed_refs_path) fs = (Ok (Some (unlines lines)), fs)) by (unfold or_absent; by rewrite Er).
  unfold delete_packed_ref. rewrite (rbind_Ok _ _ _ _ _ Eo). unfold packed_refs_contains_ref.
  rewrite raw_lines_unlines, (contains_loop_entries alg lines entries name Hl Ee) by done.
  change (rbind (rlift (Ok ?a)) ?f ?x) with (f a x). cbv beta. case_bool_decide; cbn [negb]; [|done].
  by rewrite (rbind_Ok _ _ _ _ _ Er).
Qed.

Lemma delete_packed_ref_spec fs entries name : fs_wf fs -> packed_in alg fs entries -> fs !! packed_refs_lock_path = None ->
  exists fs', delete_packed_ref alg name fs = (Ok (bool_decide (name ∈ entries.*2)), fs') /\ fs_wf fs' /\
    packed_in alg fs' (other_entries name entries) /\ (forall q, q <> packed_refs_path -> fs' !! q = fs !! q) /\
    (name ∉ entries.*2 -> fs' = fs).
Proof.
  intros Hwf Hp Hlock. unfold packed_in in Hp. destruct (fs !! packed_refs_path) as [[content|]|] eqn:Ep; [|done|].
  2: { subst entries. exists fs. split; [|split; [done|]; split; [by unfold packed_in; rewrite Ep|done]].
       assert (Er : or_absent (fs_read packed_refs_path) fs = (Ok None, fs)).
       { unfold or_absent, fs_read. rewrite Ep. unfold packed_refs_path. by rewrite missing_top. }
       unfold delete_packed_ref. by rewrite (rbind_Ok _ _ _ _ _ Er). }
  destruct Hp as (lines & Econtent & Hl & Ee). rewrite (delete_packed_ref_eq fs content lines entries name) by done.
  case_bool_decide as Hin.
  2: { exists fs. split; [done|]. split; [done|]. rewrite others_id by done. split; [|by split]. unfold packed_in. rewrite Ep. by exists lines. }
  set (fs1 := <[packed_refs_lock_path := FFile []]> fs).
  destruct (copy_without_entries alg packed_refs_lock_path name lines Hl entries false fs1 [] Ee) as (lines' & Ec & Hl' & Ee');
    [apply lookup_insert_eq|].
  set (fs2 := <[packed_refs_lock_path := FFile (unlines lines')]> fs).
  assert (E1 : or_remove packed_refs_lock_path (write_packed_refs_without_ref alg content packed_refs_lock_path name) fs = (Ok tt, fs2)).
  { assert (Enew : create_new packed_refs_lock_path fs = (Ok tt, fs1)).
    { unfold create_new. rewrite Hlock. cbn [parent packed_refs_lock_path removelast]. by rewrite (wf_root fs Hwf). }
    unfold or_remove, write_packed_refs_without_ref. rewrite (rbind_Ok _ _ _ _ _ Enew), Econtent, raw_lines_unlines, Ec by done.
    unfold fs1, fs2. by rewrite insert_insert_eq. }
  rewrite (rbind_Ok _ _ _ _ _ E1). set (fs3 := <[packed_refs_path := FFile (unlines lines')]> (delete packed_refs_lock_path fs2)).
  assert (E2 : or_remove packed_refs_lock_path (replace_with_lock packed_refs_lock_path packed_refs_path) fs2 = (Ok tt, fs3)).
  { unfold or_remove, replace_with_lock, rename, fs2. rewrite lookup_insert_eq, lookup_insert_ne, Ep by done. done. }
  rewrite (rbind_Ok _ _ _ _ _ E2). exists fs3. split; [done|].
  assert (Hwf2 : fs_wf fs2) by (apply (wf_insert_file fs [] (bstr "packed-refs.new")); [done|apply (wf_root fs Hwf)|cbn [app]; by unfold packed_refs_lock_path in Hlock; rewrite Hlock]).
  split; [|split].
  - apply (wf_insert_file _ [] (bstr "packed-refs")).
    + eapply wf_delete_file; [done|apply lookup_insert_eq].
    + rewrite lookup_delete_ne by done. apply (wf_root fs2 Hwf2).
    + change ([] ++ [bstr "packed-refs"]) with packed_refs_path. rewrite lookup_delete_ne by done. unfold fs2.
      rewrite lookup_insert_ne, Ep by done. done.
  - unfold packed_in, fs3. rewrite lookup_insert_eq. by exists lines'.
  - split; [|done]. intros q Hq. unfold fs3. rewrite lookup_insert_ne by done. destruct (decide (packed_refs_lock_path = q)) as [<-|Hne].
    + by rewrite lookup_delete_eq.
    + rewrite lookup_delete_ne by done. unfold fs2. by rewrite lookup_insert_ne.
Qed.

Lemma delete_packed_ref_locked fs entries name content : packed_in alg fs entries -> name ∈ entries.*2 ->
  fs !! packed_refs_lock_path = Some (FFile content) ->
  delete_packed_ref alg name fs = (fail AlreadyExists "file exists", delete packed_refs_lock_path fs).
Proof.
  intros Hp Hin Hlock. unfold packed_in in Hp. destruct (fs !! packed_refs_path) as [[packed|]|] eqn:Ep; [|done|by subst; apply elem_of_nil in Hin].
  destruct Hp as (lines & Econtent & Hl & Ee). rewrite (delete_packed_ref_eq fs packed lines entries name), bool_decide_true by done.
  unfold or_remove at 1, write_packed_refs_without_ref, create_new, rbind. rewrite Hlock. cbn [fail]. unfold remove_file. by rewrite Hlock.
Qed.

Lemma packed_find_Some entries name id : packed_find entries name = Some id -> (id, name) ∈ entries.
Proof.
  induction entries as [|[id' n] entries IH]; [done|]. rewrite packed_find_cons. case_decide as Hn; [|right; by apply IH].
  subst n. intros [= ->]. by left.
Qed.

Lemma packed_find_elem entries name id : packed_find entries name = Some id -> name ∈ entries.*2.
Proof. intros Hin%packed_find_Some. by apply (list_elem_of_fmap_2 snd) in Hin. Qed.

(** A directory on the way to the file [p], below the second level, under which [p] was the last file: all that is
    there are directories on the way to [p], and [p]. *)
Definition left_empty (fs : Fs) (p q : path) : Prop :=
  q `prefix_of` removelast p /\ 3 <= length q /\ forall r, q `prefix_of` r -> is_Some (fs !! r) -> r `prefix_of` p.

Lemma emptied_left_empty fs d x q : emptied d (delete (d ++ [x]) fs) q <-> left_empty fs (d ++ [x]) q.
Proof.
  unfold emptied, left_empty. rewrite removelast_snoc. split; intros (Hq & Hl & Hall); (split; [done|]; split; [done|]).
  - intros r Hr Hin. destruct (decide (d ++ [x] = r)) as [<-|Hne]; [done|]. apply prefix_app_r, Hall; [done|by rewrite lookup_delete_ne].
  - intros r Hr [node [Hne Hin]%lookup_delete_Some]. destruct (Hall r Hr (ex_intro _ _ Hin)) as [k Ek].
    destruct k as [|z k _] using rev_ind; [by rewrite app_nil_r in Ek|].
    rewrite app_assoc in Ek. apply app_inj_tail in Ek as [-> _]. by exists k.
Qed.

(** The file [p] is gone, with exactly the directories it was the last file of; the packed references aside, the
    rest of the store is as it was. *)
Definition loose_gone (fs fs' : Fs) (p : path) : Prop :=
  fs' !! p = None /\
  forall q, q <> packed_refs_path ->
    (left_empty fs p q -> fs' !! q = None) /\ (~ left_empty fs p q -> q <> p -> fs' !! q = fs !! q).

Lemma pruned_gone fs fs1 fs' d x : fs1 !! ((bstr "refs" :: d) ++ [x]) = None ->
  pruned (bstr "refs" :: d) (delete ((bstr "refs" :: d) ++ [x]) fs) fs1 -> (forall q, q <> packed_refs_path -> fs' !! q = fs1 !! q) ->
  loose_gone fs fs' ((bstr "refs" :: d) ++ [x]).
Proof.
  intros Hx Hp Hq. split; [by rewrite Hq|]. intros q Hne. rewrite Hq, <- emptied_left_empty by done.
  destruct (Hp q) as [[He ->]|[Hn ->]]; [by split|]. split; [done|]. intros _ Hqp. by rewrite lookup_delete_ne.
Qed.

(** The loose file of a reference goes, with the directories left empty. *)
Lemma remove_loose fs d x content : fs_wf fs -> no_file_above fs (bstr "refs" :: d) ->
  fs !! ((bstr "refs" :: d) ++ [x]) = Some (FFile content) ->
  exists fs', prune_empty_ref_parent_dirs ((bstr "refs" :: d) ++ [x]) (delete ((bstr "refs" :: d) ++ [x]) fs) = (Ok tt, fs') /\
    fs_wf fs' /\ fs' !! ((bstr "refs" :: d) ++ [x]) = None /\ no_file_above fs' (bstr "refs" :: d) /\
    pruned (bstr "refs" :: d) (delete ((bstr "refs" :: d) ++ [x]) fs) fs'.
Proof.
  intros Hwf Hd Hf. set (p := (bstr "refs" :: d) ++ [x]) in *.
  assert (Hwf1 : fs_wf (delete p fs)) by by eapply wf_delete_file.
  assert (Hd1 : no_file_above (delete p fs) (bstr "refs" :: d)).
  { intros q Hq. rewrite lookup_delete_ne; [by apply Hd|]. apply not_eq_sym. by apply prefix_snoc_neq. }
  unfold prune_empty_ref_parent_dirs, p. rewrite parent_snoc. fold p.
  destruct (prune_loop_spec (rev (bstr "refs" :: d)) (delete p fs) d) as (fs' & E & Hwf' & Hp); [by rewrite rev_involutive|done| |].
  { by rewrite rev_involutive. }
  rewrite rev_involutive in Hp. exists fs'. split; [done|]. split; [done|]. split; [|split; [|done]].
  - destruct (Hp p) as [[_ ->]|[_ ->]]; [done|apply lookup_delete_eq].
  - intros q Hq. rewrite (pruned_files _ _ _ _ Hd1 Hp). by apply Hd1.
Qed.

Lemma no_file_under fs d x : no_file_above fs d -> under_file fs (d ++ [x]) = false.
Proof.
  intros Hd. unfold under_file. apply not_true_is_false. intros (k & Hk%in_seq & Hf)%existsb_exists. rewrite Hd in Hf; [done|].
  rewrite length_app in Hk. cbn in Hk. rewrite take_app_le by lia. exists (drop k d). by rewrite take_drop.
Qed.

(** What is apart from a path whose file and empty directories went reads as before. *)
Lemma removed_stored fs fs1 fs' entries entries' d x p name : no_file_above fs (bstr "refs" :: d) ->
  pruned (bstr "refs" :: d) (delete ((bstr "refs" :: d) ++ [x]) fs) fs1 -> (forall q, q <> packed_refs_path -> fs' !! q = fs1 !! q) ->
  packed_find entries' name = packed_find entries name -> apart ((bstr "refs" :: d) ++ [x]) (bstr "refs" :: p) ->
  stored alg fs' entries' (bstr "refs" :: p) name = stored alg fs entries (bstr "refs" :: p) name.
Proof.
  intros Hd Hp Hq Hf [H1 H2].
  assert (Hd1 : no_file_above (delete ((bstr "refs" :: d) ++ [x]) fs) (bstr "refs" :: d)).
  { intros q Hpre. rewrite lookup_delete_ne; [by apply Hd|]. apply not_eq_sym. by apply prefix_snoc_neq. }
  assert (Hne : forall q, q `prefix_of` bstr "refs" :: p -> fs' !! q = fs1 !! q /\ delete ((bstr "refs" :: d) ++ [x]) fs !! q = fs !! q).
  { intros q Hpre. split; [|apply lookup_delete_ne; by intros <-]. apply Hq. intros ->. by apply not_top_prefix in Hpre. }
  apply stored_agree; [|intros q Hpre _|done].
  - destruct (Hne (bstr "refs" :: p)) as [-> <-]; [done|]. destruct (pruned_or _ _ _ (bstr "refs" :: p) Hd1 Hp) as [->|(_ & _ & [k Hk] & _)]; [done|].
    exfalso. apply H2. rewrite Hk. exists (k ++ [x]). by rewrite <- app_assoc.
  - destruct (Hne q Hpre) as [-> <-]. by eapply pruned_files.
Qed.

(** *** One name *)

Section one.
Context (fs : Fs) (entries : list (ObjectId * bytes)) (parts : list bytes) (name : bytes) (d : list bytes) (x : bytes).
Context (Hwf : fs_wf fs) (Hp : packed_in alg fs entries) (Hn : ref_name_of parts name).
Context (E : bstr "refs" :: parts = (bstr "refs" :: d) ++ [x]) (Hd : no_file_above fs (bstr "refs" :: d)).
Context (Hlock : fs !! packed_refs_lock_path = None).

#[local] Abbreviation p := ((bstr "refs" :: d) ++ [x]).

Lemma delete_ref_eq removed fs1 : or_absent (remove_file p) fs = (Ok removed, fs1) ->
  delete_ref alg name fs =
  (_ <~ match removed with Some _ => prune_empty_ref_parent_dirs p | None => rret tt end;
   packed <~ delete_packed_ref alg name;
   if bool_decide (is_Some removed) || packed then rret tt else rlift (fail NotFound "ref not found")) fs1.
Proof.
  intros Er. assert (Hv : validate_ref_name name = Ok tt) by (apply validate_ref_name_Ok; by exists parts).
  unfold delete_ref, ref_path. rewrite Hv, (ref_name_path _ _ Hn), E.
  change (rbind (rlift (Ok ?a)) ?f ?y) with (f a y). cbv beta. by rewrite (rbind_Ok _ _ _ _ _ Er).
Qed.

Lemma apart_other parts' name' : ref_name_of parts' name' -> apart (bstr "refs" :: parts) (bstr "refs" :: parts') -> name' <> name.
Proof.
  intros Hn' [Ha _] ->. apply Ha. by rewrite <- (ref_name_component _ _ Hn), (ref_name_component _ _ Hn').
Qed.

(** The name is gone, the rest is as before; [files] says what became of the files. *)
Definition deleted (files : Fs -> Prop) (fs' : Fs) : Prop :=
  fs_wf fs' /\ files fs' /\ packed_in alg fs' (other_entries name entries) /\
  read_ref alg name fs' = (fail NotFound "ref not found", fs') /\
  forall parts' name', ref_name_of parts' name' -> apart (bstr "refs" :: parts) (bstr "refs" :: parts') ->
    (read_ref alg name' fs').1 = (read_ref alg name' fs).1.

Lemma gone_stored fs' : fs' !! p = None -> no_file_above fs' (bstr "refs" :: d) ->
  stored alg fs' (other_entries name entries) p name = fail NotFound "ref not found".
Proof.
  intros Hnone Habove. unfold stored. rewrite Hnone, no_file_under by done.
  by rewrite (packed_find_absent _ _ (others_absent name entries)).
Qed.

Lemma refs_prefix (q : path) l : q `prefix_of` bstr "refs" :: l -> q <> packed_refs_path.
Proof. intros Hq ->. by apply not_top_prefix in Hq. Qed.

Lemma delete_loose content : fs !! p = Some (FFile content) -> exists fs', delete_ref alg name fs = (Ok tt, fs') /\ deleted (fun fs' => loose_gone fs fs' p) fs'.
Proof.
  intros Ef. destruct (remove_loose fs d x content Hwf Hd Ef) as (fs1 & E1 & Hwf1 & Hp1 & Hd1 & Hpr).
  rewrite (delete_ref_eq (Some tt) (delete p fs)) by (unfold or_absent, remove_file; by rewrite Ef).
  rewrite (rbind_Ok _ _ _ _ _ E1).
  assert (Hsame : forall q, q = packed_refs_path \/ q = packed_refs_lock_path -> fs1 !! q = fs !! q).
  { intros q Hq. destruct (Hpr q) as [[(_ & Hl & _) _]|[_ ->]]; [destruct Hq as [-> | ->]; cbn in Hl; lia|].
    apply lookup_delete_ne. by destruct Hq as [-> | ->]. }
  destruct (delete_packed_ref_spec fs1 entries name Hwf1) as (fs2 & E2 & Hwf2 & Hp2 & Hq2 & _).
  { unfold packed_in. by rewrite Hsame by (by left). }
  { rewrite Hsame by (by right). done. }
  rewrite (rbind_Ok _ _ _ _ _ E2). rewrite bool_decide_true by done. cbn [orb].
  exists fs2. split; [done|]. split; [done|]. split; [by eapply pruned_gone|]. split; [done|]. split.
  - rewrite (read_ref_eq alg fs2 _ parts name Hwf2 Hp2 Hn), E. f_equal. apply gone_stored; [by rewrite Hq2|].
    intros q Hq. rewrite Hq2 by (by eapply refs_prefix). by apply Hd1.
  - intros parts' name' Hn' Ha. rewrite (read_ref_eq alg fs2 _ parts' name' Hwf2 Hp2 Hn'), (read_ref_eq alg fs entries parts' name') by done.
    cbn [fst]. eapply removed_stored; [exact Hd|exact Hpr|exact Hq2| |by rewrite <- E]. apply packed_find_others. by eapply apart_other.
Qed.

Lemma delete_packed : fs !! p = None ->
  (name ∈ entries.*2 -> exists fs', delete_ref alg name fs = (Ok tt, fs') /\
    deleted (fun fs' => forall q, q <> packed_refs_path -> fs' !! q = fs !! q) fs') /\
  (name ∉ entries.*2 -> delete_ref alg name fs = (fail NotFound "ref not found", fs)).
Proof.
  intros Ef. pose proof (no_file_under fs _ x Hd) as Hunder.
  rewrite (delete_ref_eq None fs) by (unfold or_absent, remove_file, missing; by rewrite Ef, Hunder).
  change (rbind (rret ?a) ?f ?y) with (f a y). cbv beta.
  destruct (delete_packed_ref_spec fs entries name Hwf Hp Hlock) as (fs2 & E2 & Hwf2 & Hp2 & Hq2 & Hid).
  rewrite (rbind_Ok _ _ _ _ _ E2). rewrite (bool_decide_false (is_Some None)) by (by intros [? ?]). cbn [orb]. split.
  - intros Hin. rewrite bool_decide_true by done. exists fs2. split; [done|]. split; [done|]. split; [done|]. split; [done|]. split.
    + rewrite (read_ref_eq alg fs2 _ parts name Hwf2 Hp2 Hn), E. f_equal. apply gone_stored; [by rewrite Hq2|].
      intros q Hq. rewrite Hq2 by (by eapply refs_prefix). by apply Hd.
    + intros parts' name' Hn' Ha. rewrite (read_ref_eq alg fs2 _ parts' name' Hwf2 Hp2 Hn'), (read_ref_eq alg fs entries parts' name') by done.
      cbn [fst]. apply stored_agree; [by apply Hq2|intros q Hq _; by rewrite Hq2 by (by eapply refs_prefix)|].
      apply packed_find_others. by eapply apart_other.
  - intros Hnot. rewrite (bool_decide_false _ Hnot), Hid by done. done.
Qed.
End one.

(** C19: deleting a reference removes its loose file and its packed line: afterwards the name is not found, every
    other packed reference is kept, and every other name reads as before unless one path leads through the other.
    With the loose file go exactly the directories below the second level it was the last file of, and the rest of
    the store, the packed references aside, is as it was; a name that is only packed leaves all of it as it was.
    A name that is neither loose nor packed is reported, and nothing changes. *)
Theorem delete_ref_spec fs entries parts name :
  fs_wf fs -> packed_in alg fs entries -> ref_name_of parts name ->
  no_file_above fs (removelast (bstr "refs" :: parts)) -> fs !! (bstr "refs" :: parts) <> Some FDir ->
  fs !! packed_refs_lock_path = None ->
  (is_file (fs !! (bstr "refs" :: parts)) = true \/ name ∈ entries.*2 ->
   exists fs', delete_ref alg name fs = (Ok tt, fs') /\ fs_wf fs' /\ packed_in alg fs' (other_entries name entries) /\
     read_ref alg name fs' = (fail NotFound "ref not found", fs') /\
     (forall parts' name', ref_name_of parts' name' -> apart (bstr "refs" :: parts) (bstr "refs" :: parts') ->
       (read_ref alg name' fs').1 = (read_ref alg name' fs).1) /\
     (if is_file (fs !! (bstr "refs" :: parts)) then loose_gone fs fs' (bstr "refs" :: parts)
      else forall q, q <> packed_refs_path -> fs' !! q = fs !! q)) /\
  (is_file (fs !! (bstr "refs" :: parts)) = false -> name ∉ entries.*2 ->
   delete_ref alg name fs = (fail NotFound "ref not found", fs)).
Proof.
  intros Hwf Hp Hn Hd Hdir Hlock. pose proof Hn as (_ & Hne & _). destruct (name_snoc parts Hne) as (d & x & E).
  rewrite E, removelast_snoc in Hd. rewrite E in Hdir.
  destruct (fs !! (bstr "refs" :: parts)) as [[content|]|] eqn:Ef; pose proof Ef as Ef'; rewrite E in Ef'; [|done|].
  - split; [|done]. intros _. rewrite E.
    destruct (delete_loose fs entries parts name d x Hwf Hp Hn E Hd Hlock content Ef') as (fs' & Er & ? & ? & ? & ? & Ho).
    rewrite E in Ho. by exists fs'.
  - destruct (delete_packed fs entries parts name d x Hwf Hp Hn E Hd Hlock Ef') as [H1 H2].
    split; [intros [?|Hin]; [done|]|by intros _]. destruct (H1 Hin) as (fs' & Er & ? & ? & ? & ? & ?). by exists fs'.
Qed.

(** C39: the loose file goes before the packed references are locked: when that lock is taken, the deletion fails with
    the reference turned back to the value it was packed with, and the other writer's lock removed. *)
Theorem delete_ref_brings_back fs entries parts name content id lock_content :
  fs_wf fs -> packed_in alg fs entries -> ref_name_of parts name ->
  no_file_above fs (removelast (bstr "refs" :: parts)) -> fs !! (bstr "refs" :: parts) = Some (FFile content) ->
  packed_find entries name = Some id -> fs !! packed_refs_lock_path = Some (FFile lock_content) ->
  exists fs', delete_ref alg name fs = (fail AlreadyExists "file exists", fs') /\
    read_ref alg name fs' = (Ok (Direct id), fs') /\ fs' !! packed_refs_lock_path = None.
Proof.
  intros Hwf Hp Hn Hd Hf Hid Hlock. pose proof Hn as (_ & Hne & _). destruct (name_snoc parts Hne) as (d & x & E).
  rewrite E, removelast_snoc in Hd. rewrite E in Hf.
  destruct (remove_loose fs d x content Hwf Hd Hf) as (fs1 & E1 & Hwf1 & Hp1 & Hd1 & Hpr).
  rewrite (delete_ref_eq fs parts name d x Hn E (Some tt) (delete ((bstr "refs" :: d) ++ [x]) fs))
    by (unfold or_absent, remove_file; by rewrite Hf).
  rewrite (rbind_Ok _ _ _ _ _ E1).
  assert (Hsame : forall q, q = packed_refs_path \/ q = packed_refs_lock_path -> fs1 !! q = fs !! q).
  { intros q Hq. destruct (Hpr q) as [[(_ & Hl & _) _]|[_ ->]]; [destruct Hq as [-> | ->]; cbn in Hl; lia|].
    apply lookup_delete_ne. by destruct Hq as [-> | ->]. }
  assert (Hin1 : packed_in alg fs1 entries) by (unfold packed_in; rewrite Hsame by (by left); exact Hp).
  assert (Hl1 : fs1 !! packed_refs_lock_path = Some (FFile lock_content)) by (rewrite Hsame by (by right); exact Hlock).
  exists (delete packed_refs_lock_path fs1). split; [|split].
  - unfold rbind. by rewrite (delete_packed_ref_locked fs1 entries name lock_content Hin1 (packed_find_elem _ _ _ Hid) Hl1).
  - rewrite (read_ref_eq alg _ entries parts name); [|by eapply wf_delete_file|by unfold packed_in; rewrite lookup_delete_ne|done].
    f_equal. unfold stored. rewrite E, lookup_delete_ne, Hp1 by done.
    rewrite (under_file_agree fs1); [by rewrite no_file_under, Hid by done|]. intros q Hq _. rewrite lookup_delete_ne; [done|].
    intros <-. by apply not_top_prefix in Hq.
  - apply lookup_delete_eq.
Qed.
End deletes.

(** ** Witnesses *)

#[local] Instance sample_hex : HexCrate := hex_encode.

#[local] Instance sample_hex_laws : HexCrateLaws.
Proof. done. Qed.

Definition packed_line_text (id : ObjectId) (name : string) : bytes := to_hex id ++ bstr " " ++ bstr name.

(** A branch, a tag that is packed, and a branch that is both. *)
Definition sample_packed : bytes :=
  unlines [packed_line_text (sample_id Sha1 2) "refs/heads/main"; packed_line_text (sample_id Sha1 3) "refs/tags/v1"].

Definition sample_refs : Fs := list_to_map [
  ([], FDir); (refs_root, FDir); ([bstr "refs"; bstr "heads"], FDir);
  ([bstr "refs"; bstr "heads"; bstr "main"], FFile (direct_text (sample_id Sha1 1)));
  (packed_refs_path, FFile sample_packed)].

Definition sample_entries : list (ObjectId * bytes) :=
  [(sample_id Sha1 2, bstr "refs/heads/main"); (sample_id Sha1 3, bstr "refs/tags/v1")].

Lemma sample_refs_wf : fs_wf sample_refs.
Proof. apply fs_wf_b_true. vm_compute. reflexivity. Qed.

Lemma sample_refs_packed : packed_in Sha1 sample_refs sample_entries.
Proof.
  unfold packed_in. replace (sample_refs !! packed_refs_path) with (Some (FFile sample_packed)) by (vm_compute; reflexivity).
  eexists. split; [reflexivity|]. split; [|vm_compute; reflexivity]. repeat constructor; vm_compute; reflexivity.
Qed.

Lemma sample_no_file (fs : Fs) d : forallb (fun k => negb (is_file (fs !! take k d))) (seq 0 (S (length d))) = true -> no_file_above fs d.
Proof.
  intros Hf q [k ->]. rewrite forallb_forall in Hf. specialize (Hf (length q)). rewrite take_app_length in Hf.
  apply negb_true_iff, Hf, in_seq. rewrite length_app. lia.
Qed.

Lemma sample_name parts name : is_ok (validate_ref_name name) && bool_decide (split_on "/"%byte name = bstr "refs" :: parts) = true -> ref_name_of parts name.
Proof.
  intros [Hv Hs%bool_decide_eq_true]%andb_true_iff. unfold is_ok in Hv. destruct (validate_ref_name name) as [u| | |] eqn:E; try done.
  apply validate_ref_name_Ok in E as (parts' & Hn). rewrite (ref_name_component _ _ Hn) in Hs. by injection Hs as ->.
Qed.

Abbreviation main_parts := [bstr "heads"; bstr "main"].
Abbreviation dev_parts := [bstr "heads"; bstr "dev"].

Lemma main_name : ref_name_of main_parts (bstr "refs/heads/main").
Proof. by apply sample_name. Qed.

Lemma dev_name : ref_name_of dev_parts (bstr "refs/heads/dev").
Proof. by apply sample_name. Qed.

Lemma ref_write_spec_witness : exists fs', write_ref Sha1 (bstr "refs/heads/dev") (sample_id Sha1 4) sample_refs = (Ok tt, fs') /\
  read_ref Sha1 (bstr "refs/heads/dev") fs' = (Ok (Direct (sample_id Sha1 4)), fs').
Proof.
  destruct (ref_write_spec Sha1 sample_refs sample_entries dev_parts (bstr "refs/heads/dev") (Direct (sample_id Sha1 4))
    sample_refs_wf sample_refs_packed dev_name) as (fs' & E & _ & _ & _ & Er & _).
  - split; [apply sample_id_wf|reflexivity].
  - apply sample_no_file. vm_compute. reflexivity.
  - by_decide.
  - vm_compute. reflexivity.
  - exists fs'. split; [exact E|exact Er].
Defined.

(** The same store while other writers hold locks. *)
Definition locked_refs : Fs := <[[bstr "refs"; bstr "heads"; bstr "dev.lock"] := FFile []]> sample_refs.
Definition packed_locked_refs : Fs := <[packed_refs_lock_path := FFile []]> sample_refs.

Lemma sample_packed_in fs : fs !! packed_refs_path = sample_refs !! packed_refs_path -> packed_in Sha1 fs sample_entries.
Proof. intros E. unfold packed_in. rewrite E. apply sample_refs_packed. Qed.

Lemma write_ref_breaks_lock_witness : exists fs1 fs2,
  write_ref Sha1 (bstr "refs/heads/dev") (sample_id Sha1 4) locked_refs = (fail AlreadyExists "file exists", fs1) /\
  write_ref Sha1 (bstr "refs/heads/dev") (sample_id Sha1 4) fs1 = (Ok tt, fs2).
Proof.
  destruct (write_ref_breaks_lock Sha1 locked_refs sample_entries dev_parts (bstr "refs/heads/dev") (Direct (sample_id Sha1 4)) [])
    as (fs1 & fs2 & E1 & _ & E2 & _).
  - apply fs_wf_b_true. vm_compute. reflexivity.
  - apply sample_packed_in. vm_compute. reflexivity.
  - exact dev_name.
  - split; [apply sample_id_wf|reflexivity].
  - apply sample_no_file. vm_compute. reflexivity.
  - by_decide.
  - vm_compute. reflexivity.
  - exists fs1, fs2. split; [exact E1|exact E2].
Defined.

(** A branch in a directory of its own. *)
Definition team_parts : list bytes := [bstr "heads"; bstr "team"; bstr "a"].

Definition team_refs : Fs :=
  <[bstr "refs" :: team_parts := FFile (direct_text (sample_id Sha1 1))]> (<[[bstr "refs"; bstr "heads"; bstr "team"] := FDir]> sample_refs).

Lemma delete_ref_spec_witness :
  (exists fs', delete_ref Sha1 (bstr "refs/heads/team/a") team_refs = (Ok tt, fs') /\
    read_ref Sha1 (bstr "refs/heads/team/a") fs' = (fail NotFound "ref not found", fs') /\
    fs' !! [bstr "refs"; bstr "heads"; bstr "team"] = None) /\
  delete_ref Sha1 (bstr "refs/heads/dev") sample_refs = (fail NotFound "ref not found", sample_refs).
Proof.
  split.
  - destruct (delete_ref_spec Sha1 team_refs sample_entries team_parts (bstr "refs/heads/team/a")) as [Hdel _].
    + apply fs_wf_b_true. vm_compute. reflexivity.
    + apply sample_packed_in. vm_compute. reflexivity.
    + apply sample_name. vm_compute. reflexivity.
    + apply sample_no_file. vm_compute. reflexivity.
    + by_decide.
    + vm_compute. reflexivity.
    + assert (Hf : is_file (team_refs !! (bstr "refs" :: team_parts)) = true) by (vm_compute; reflexivity).
      destruct Hdel as (fs' & E & _ & _ & Er & _ & Hgone); [by left|]. rewrite Hf in Hgone. destruct Hgone as [_ Hgone].
      exists fs'. split; [exact E|]. split; [exact Er|]. apply Hgone; [done|]. split; [by_decide|]. split; [cbn; lia|].
      assert (Hall : map_Forall (fun r _ => [bstr "refs"; bstr "heads"; bstr "team"] `prefix_of` r -> r `prefix_of` bstr "refs" :: team_parts) team_refs)
        by by_decide.
      intros r Hr [node Hin]. by apply (Hall r node Hin).
  - destruct (delete_ref_spec Sha1 sample_refs sample_entries dev_parts (bstr "refs/heads/dev") sample_refs_wf sample_refs_packed dev_name)
      as [_ Hno].
    + apply sample_no_file. vm_compute. reflexivity.
    + by_decide.
    + vm_compute. reflexivity.
    + apply Hno; [vm_compute; reflexivity|by_decide].
Defined.

Lemma delete_ref_brings_back_witness : exists fs',
  delete_ref Sha1 (bstr "refs/heads/main") packed_locked_refs = (fail AlreadyExists "file exists", fs') /\
  read_ref Sha1 (bstr "refs/heads/main") fs' = (Ok (Direct (sample_id Sha1 2)), fs').
Proof.
  destruct (delete_ref_brings_back Sha1 packed_locked_refs sample_entries main_parts (bstr "refs/heads/main")
    (direct_text (sample_id Sha1 1)) (sample_id Sha1 2) []) as (fs' & E & Er & _).
  - apply fs_wf_b_true. vm_compute. reflexivity.
  - apply sample_packed_in. vm_compute. reflexivity.
  - exact main_name.
  - apply sample_no_file. vm_compute. reflexivity.
  - vm_compute. reflexivity.
  - vm_compute. reflexivity.
  - vm_compute. reflexivity.
  - exists fs'. split; [exact E|exact Er].
Defined.
