(* ===== verification/RefList.v ===== *)
(** * References: enumeration *)
From S2P Require Import Prelude Order Object Text Tag Index Store Reader FileSystem RefNames Refs RefSpec RefStore.

(** ** Loose references *)

Lemma join_snoc c ps x : ps <> [] -> join_with c (ps ++ [x]) = join_with c ps ++ c :: x.
Proof.
  induction ps as [|p ps IH]; [done|]. intros _. destruct ps as [|q ps]; [done|].
  cbn [app]. rewrite !join_with_cons. cbn [app] in IH. rewrite IH by done. by rewrite <- app_assoc.
Qed.

Definition ref_name_text (parts : list bytes) : bytes := join_with "/"%byte (bstr "refs" :: parts).

(** What the files below [refs] look like: names in UTF-8, and every file that is not a lock has a valid name and
    reads as a reference. *)
Record loose_wf (alg : GitHashAlgorithm) (fs : Fs) : Prop := {
  lw_utf8 : forall p x node, fs !! (bstr "refs" :: p ++ [x]) = Some node -> utf8_valid x = true;
  lw_file : forall p x content, fs !! (bstr "refs" :: p ++ [x]) = Some (FFile content) -> ends_with (bstr ".lock") x = false ->
    ref_name_of (p ++ [x]) (ref_name_text (p ++ [x])) /\ utf8_valid content = true /\
    exists t, parse_ref_target alg (trim_end_byte nl content) = Ok t
}.

Abbreviation name_set := (list (bytes * unit)).

Definition has_name (refs : name_set) (name : bytes) : Prop := bt_get cmp_bytes name refs = Some tt.

Lemma has_name_insert refs name name' : has_name (bt_insert cmp_bytes name' tt refs) name <-> name = name' \/ has_name refs name.
Proof.
  unfold has_name. destruct (decide (name = name')) as [->|Hne].
  - rewrite (bt_get_insert_eq cmp_bytes). tauto.
  - rewrite (bt_get_insert_ne cmp_bytes) by done. tauto.
Qed.

Lemma fs_depth_le fs p node : fs !! p = Some node -> length p <= fs_depth fs.
Proof.
  intros E%elem_of_map_to_list. unfold fs_depth. induction (map_to_list fs) as [|[q n] l IH]; [by apply elem_of_nil in E|].
  cbn [map foldr]. apply elem_of_cons in E as [[= <- <-]|E]; [lia|]. specialize (IH E). lia.
Qed.

Section collect.
Context `{DirOrderLaws} (alg : GitHashAlgorithm) (fs : Fs) (Hwf : fs_wf fs) (Hloose : loose_wf alg fs).

(** The names of the files at and below some entries of a directory. *)
Definition names_below (parts : list bytes) (children : list (bytes * FsNode)) (name : bytes) : Prop :=
  exists x node rest, (x, node) ∈ children /\ ref_name_of (parts ++ x :: rest) name /\
    is_file (fs !! (bstr "refs" :: parts ++ x :: rest)) = true.

Lemma lock_not_name parts x name : ref_name_of (parts ++ [x]) name -> ends_with (bstr ".lock") x = false.
Proof.
  intros (_ & _ & Hp & _). apply Forall_app in Hp as [_ [(_ & _ & Hl & _) _]%Forall_cons]. by apply ends_with_false.
Qed.

Lemma file_name_below parts x content name : fs !! (bstr "refs" :: parts ++ [x]) = Some (FFile content) ->
  (exists rest, ref_name_of (parts ++ x :: rest) name /\ is_file (fs !! (bstr "refs" :: parts ++ x :: rest)) = true) <->
  ends_with (bstr ".lock") x = false /\ name = ref_name_text (parts ++ [x]).
Proof.
  intros Hf. split.
  - intros (rest & Hn & Hrest). destruct rest as [|y rest].
    + split; [by eapply lock_not_name|]. by destruct Hn as (-> & _).
    + exfalso.
      replace (bstr "refs" :: parts ++ x :: y :: rest) with ((bstr "refs" :: parts ++ [x]) ++ y :: rest) in Hrest by (cbn; by rewrite <- app_assoc).
      by rewrite (below_file fs _ (y :: rest) content Hwf Hf) in Hrest.
  - intros [Hl ->]. exists []. split; [by apply (lw_file alg fs Hloose parts x content)|]. by rewrite Hf.
Qed.

(** Collecting from a directory, when collecting from the directories below it is right. *)
Lemma collect_entries_spec (below : path -> bytes -> name_set -> rd Fs name_set) parts children refs :
  (forall x refs, fs !! (bstr "refs" :: parts ++ [x]) = Some FDir -> bt_sorted cmp_bytes refs ->
     exists refs', below (bstr "refs" :: parts ++ [x]) (ref_name_text (parts ++ [x])) refs fs = (Ok refs', fs) /\
       bt_sorted cmp_bytes refs' /\
       forall name, has_name refs' name <-> has_name refs name \/
         exists rest, ref_name_of (parts ++ x :: rest) name /\ is_file (fs !! (bstr "refs" :: parts ++ x :: rest)) = true) ->
  (forall x node, (x, node) ∈ children -> fs !! (bstr "refs" :: parts ++ [x]) = Some node) -> bt_sorted cmp_bytes refs ->
  exists refs', collect_entries below (bstr "refs" :: parts) (ref_name_text parts) children refs fs = (Ok refs', fs) /\
    bt_sorted cmp_bytes refs' /\ forall name, has_name refs' name <-> has_name refs name \/ names_below parts children name.
Proof.
  intros Hbelow. revert refs. induction children as [|[x node] children IH]; intros refs Hin Hs.
  { exists refs. split; [done|]. split; [done|]. intros name. split; [by left|]. intros [?|(x & node & rest & ?%elem_of_nil & _)]; done. }
  pose proof (Hin x node ltac:(by left)) as Hx. assert (Hutf : from_utf8_lossy x = x) by (apply lossy_valid; by eapply (lw_utf8 alg fs Hloose)).
  assert (Hname : ref_name_text parts ++ "/"%byte :: x = ref_name_text (parts ++ [x])).
  { unfold ref_name_text. change (bstr "refs" :: parts ++ [x]) with ((bstr "refs" :: parts) ++ [x]). by rewrite join_snoc. }
  assert (Hcons : forall name, names_below parts ((x, node) :: children) name <->
    (exists rest, ref_name_of (parts ++ x :: rest) name /\ is_file (fs !! (bstr "refs" :: parts ++ x :: rest)) = true) \/
    names_below parts children name).
  { intros name. unfold names_below. split.
    - intros (x' & node' & rest & [[= -> ->]|Hin']%elem_of_cons & Hrest); [left; by exists rest|right; by exists x', node', rest].
    - intros [(rest & Hrest)|(x' & node' & rest & Hin' & Hrest)]; [exists x, node, rest; split; [by left|done]|exists x', node', rest; split; [by right|done]]. }
  assert (Hgo : forall refs1, bt_sorted cmp_bytes refs1 ->
    (forall name, has_name refs1 name <-> has_name refs name \/
       exists rest, ref_name_of (parts ++ x :: rest) name /\ is_file (fs !! (bstr "refs" :: parts ++ x :: rest)) = true) ->
    exists refs', collect_entries below (bstr "refs" :: parts) (ref_name_text parts) children refs1 fs = (Ok refs', fs) /\
      bt_sorted cmp_bytes refs' /\ forall name, has_name refs' name <-> has_name refs name \/ names_below parts ((x, node) :: children) name).
  { intros refs1 Hs1 H1. destruct (IH refs1) as (refs' & E & Hs' & H'); [intros ? ? ?; apply Hin; by right|done|].
    exists refs'. split; [done|]. split; [done|]. intros name. rewrite H', H1, Hcons. tauto. }
  cbn [collect_entries]. rewrite Hutf, Hname. change ((bstr "refs" :: parts) ++ [x]) with (bstr "refs" :: parts ++ [x]).
  destruct node as [content|].
  - destruct (ends_with (bstr ".lock") x) eqn:El.
    + apply Hgo; [done|]. intros name. rewrite (file_name_below parts x content name Hx). rewrite El. naive_solver.
    + destruct (lw_file alg fs Hloose parts x content Hx El) as (Hn & _).
      assert (Hv : validate_ref_name (ref_name_text (parts ++ [x])) = Ok tt) by (apply validate_ref_name_Ok; by exists (parts ++ [x])).
      rewrite Hv. change (rbind (rlift (Ok ?a)) ?f ?y) with (f a y). cbv beta.
      apply Hgo; [by apply (bt_insert_sorted cmp_bytes)|]. intros name. rewrite has_name_insert, (file_name_below parts x content name Hx). tauto.
  - destruct (Hbelow x refs Hx Hs) as (refs1 & E1 & Hs1 & H1). rewrite (rbind_Ok _ _ _ _ _ E1). by apply Hgo.
Qed.

Lemma collect_from_dir_spec fuel : forall parts refs, fs !! (bstr "refs" :: parts) = Some FDir ->
  fs_depth fs < fuel + length (bstr "refs" :: parts) -> bt_sorted cmp_bytes refs ->
  exists refs', collect_loose_refs_from_dir fuel (bstr "refs" :: parts) (ref_name_text parts) refs fs = (Ok refs', fs) /\
    bt_sorted cmp_bytes refs' /\
    forall name, has_name refs' name <-> has_name refs name \/
      exists rest, rest <> [] /\ ref_name_of (parts ++ rest) name /\ is_file (fs !! (bstr "refs" :: parts ++ rest)) = true.
Proof.
  induction fuel as [|fuel IH]; intros parts refs Hd Hfuel Hs; [pose proof (fs_depth_le _ _ _ Hd); cbn [length] in *; lia|].
  cbn [collect_loose_refs_from_dir].
  assert (Er : read_dir (bstr "refs" :: parts) fs = (Ok (dir_order (fs_children fs (bstr "refs" :: parts))), fs)) by (unfold read_dir; by rewrite Hd).
  rewrite (rbind_Ok _ _ _ _ _ Er). set (children := dir_order _).
  assert (Hc : forall x node, (x, node) ∈ children <-> fs !! (bstr "refs" :: parts ++ [x]) = Some node).
  { intros x node. unfold children. rewrite dir_order_perm. apply (children_elem fs (bstr "refs" :: parts)). }
  destruct (collect_entries_spec (collect_loose_refs_from_dir fuel) parts children refs) as (refs' & E & Hs' & Hn).
  - intros x refs1 Hx Hs1. destruct (IH (parts ++ [x]) refs1 Hx) as (refs2 & E2 & Hs2 & Hn2); [|done|].
    { cbn [length] in *. rewrite length_app. cbn. lia. }
    exists refs2. split; [done|]. split; [done|]. intros name. rewrite Hn2. apply or_iff_compat_l. split.
    + intros (rest & _ & Hrest). exists rest. by rewrite <- app_assoc in Hrest.
    + intros (rest & Hname & Hrest). exists rest. rewrite <- app_assoc. cbn [app]. split; [|done]. intros ->.
      change (parts ++ x :: []) with (parts ++ [x]) in Hrest. by rewrite Hx in Hrest.
  - intros x node. apply Hc.
  - done.
  - exists refs'. split; [done|]. split; [done|]. intros name. rewrite Hn. apply or_iff_compat_l. split.
    + intros (x & node & rest & _ & Hrest). by exists (x :: rest).
    + intros ([|x rest] & Hne & Hname & Hrest); [done|].
      assert (Hnode : exists node, fs !! (bstr "refs" :: parts ++ [x]) = Some node).
      { destruct (fs !! (bstr "refs" :: parts ++ [x])) eqn:Ex; [by eexists|].
        replace (bstr "refs" :: parts ++ x :: rest) with ((bstr "refs" :: parts ++ [x]) ++ rest) in Hrest by (cbn; by rewrite <- app_assoc).
        by rewrite (missing_below fs _ rest Hwf Ex) in Hrest. }
      destruct Hnode as [node Hnode]. exists x, node, rest. split; [by apply Hc|done].
Qed.

(** A prefix: the directory of some components. *)
Definition ref_prefix (parts : list bytes) : bytes := ref_name_text parts ++ ["/"%byte].

Lemma ref_text_split parts : Forall ref_component_ok parts -> split_on "/"%byte (ref_name_text parts) = bstr "refs" :: parts.
Proof.
  intros Hp. apply split_on_join; [done|]. constructor; [reflexivity|]. eapply Forall_impl; [exact Hp|]. apply component_no_slash.
Qed.

Lemma ref_prefix_path parts : Forall ref_component_ok parts -> join_path [] (ref_prefix parts) = bstr "refs" :: parts.
Proof.
  intros Hp. unfold join_path, ref_prefix. rewrite split_on_app_gen, ref_text_split by done.
  rewrite filter_app, filter_all, app_nil_r; [done|]. constructor; [done|]. eapply Forall_impl; [exact Hp|]. apply component_plain.
Qed.

Lemma ref_prefix_trim parts : Forall ref_component_ok parts -> trim_end_byte "/"%byte (ref_prefix parts) = ref_name_text parts.
Proof.
  intros Hp. assert (Hx : exists l b, ref_name_text parts = l ++ [b] /\ b <> "/"%byte).
  { assert (Hlast : exists c, ref_component_ok c /\ exists l, ref_name_text parts = l ++ c).
    { unfold ref_name_text. destruct (snoc_cases parts) as [->|(d & x & ->)]; [exists (bstr "refs"); split; [apply refs_component_ok|by exists []]|].
      apply Forall_app in Hp as [_ [Hx _]%Forall_cons]. exists x. split; [done|].
      change (bstr "refs" :: d ++ [x]) with ((bstr "refs" :: d) ++ [x]). rewrite join_snoc by done.
      exists (join_with "/"%byte (bstr "refs" :: d) ++ ["/"%byte]). by rewrite <- app_assoc. }
    destruct Hlast as (c & Hc & l & ->). destruct Hc as (Hne & Hc). pose proof (component_no_slash c (conj Hne Hc)) as Hs.
    destruct (exists_last Hne) as (c' & b & ->). exists (l ++ c'), b. rewrite app_assoc. split; [done|]. intros ->.
    assert (Ht : contains_byte "/"%byte (c' ++ ["/"%byte]) = true) by (apply contains_byte_true, elem_of_app; right; by left). congruence. }
  destruct Hx as (l & b & E & Hb). unfold ref_prefix. rewrite E. unfold trim_end_byte. rewrite !rev_app_distr. cbn [rev app trim_start_byte].
  unfold byte_is. rewrite byte_eqb_refl. destruct (byte_eqb_spec b "/"%byte) as [|_]; [done|]. cbn [rev]. by rewrite rev_involutive.
Qed.

(** The names with the prefix are those in the directory. *)
Lemma ref_prefix_names parts parts' name : Forall ref_component_ok parts -> ref_name_of parts' name ->
  starts_with (ref_prefix parts) name = true <-> exists rest, rest <> [] /\ parts' = parts ++ rest.
Proof.
  intros Hp Hn. rewrite starts_with_spec. unfold ref_prefix. split.
  - intros [r E]. pose proof (ref_name_component _ _ Hn) as Hs. rewrite E, <- app_assoc in Hs. cbn [app] in Hs.
    rewrite split_on_app_gen, ref_text_split in Hs by done. injection Hs as <-. exists (split_on "/"%byte r).
    split; [apply split_on_nonempty|done].
  - intros (rest & Hr & ->). destruct Hn as (-> & _). exists (join_with "/"%byte rest). rewrite <- app_assoc. cbn [app].
    unfold ref_name_text. clear Hp. generalize (bstr "refs"). induction parts as [|p parts IH]; intros c; cbn [app].
    + destruct rest; [done|]. by rewrite join_with_cons.
    + rewrite join_with_cons, IH, join_with_cons. by rewrite <- app_assoc.
Qed.

(** The loose names with a prefix: the files below its directory that are not locks. *)
Lemma collect_loose_refs_spec parts refs : Forall ref_component_ok parts -> bt_sorted cmp_bytes refs ->
  exists refs', collect_loose_refs (ref_prefix parts) refs fs = (Ok refs', fs) /\ bt_sorted cmp_bytes refs' /\
    forall name, has_name refs' name <-> has_name refs name \/
      exists rest, rest <> [] /\ ref_name_of (parts ++ rest) name /\ is_file (fs !! (bstr "refs" :: parts ++ rest)) = true.
Proof.
  intros Hp Hs. unfold collect_loose_refs. unfold fs_exists_joined, rbind. rewrite ref_prefix_path, ref_prefix_trim by done.
  assert (Hnone : (forall x rest, fs !! ((bstr "refs" :: parts) ++ x :: rest) = None) ->
    exists refs', (Ok refs, fs) = (Ok refs', fs) /\ bt_sorted cmp_bytes refs' /\
      forall name, has_name refs' name <-> has_name refs name \/
        exists rest, rest <> [] /\ ref_name_of (parts ++ rest) name /\ is_file (fs !! (bstr "refs" :: parts ++ rest)) = true).
  { intros Hm. exists refs. split; [done|]. split; [done|]. intros name. split; [by left|].
    intros [?|([|x rest] & Hr & _ & Hf)]; [done..|]. specialize (Hm x rest). cbn [app] in Hm. by rewrite Hm in Hf. }
  destruct (fs !! (bstr "refs" :: parts)) as [[content|]|] eqn:E.
  - assert (Hend : ends_with (bstr "/") (ref_prefix parts) = true) by (apply ends_with_spec; by eexists).
    rewrite Hend. apply Hnone. intros x rest. destruct (fs !! ((bstr "refs" :: parts) ++ x :: rest)) eqn:Eb; [|done]. by rewrite (wf_prefix fs _ _ _ Hwf Eb) in E.
  - apply (collect_from_dir_spec (S (fs_depth fs)) parts refs E); [cbn; lia|done].
  - apply Hnone. intros x rest. apply (missing_below fs _ _ Hwf E).
Qed.
End collect.

(** ** Sorted collections over the packed entries *)

Abbreviation ref_map := (list (bytes * ObjectId)).

(** A reference to keep. *)
Definition packable (alg : GitHashAlgorithm) (ref : bytes * ObjectId) : Prop :=
  (exists parts, ref_name_of parts ref.1) /\ utf8_valid ref.1 = true /\ ObjectId_wf ref.2 /\ algorithm ref.2 = alg.

Lemma insert_entries {V : Type} (keep : bytes -> bool) (val : ObjectId -> V) entries :
  forall m : list (bytes * V), NoDup entries.*2 -> bt_sorted cmp_bytes m ->
  exists m', entry_loop (fun id name refs => Ok (if keep name then bt_insert cmp_bytes name (val id) refs else refs, true)) entries m = Ok m' /\
    bt_sorted cmp_bytes m' /\
    forall name, bt_get cmp_bytes name m' =
      match packed_find entries name with
      | Some id => if keep name then Some (val id) else bt_get cmp_bytes name m
      | None => bt_get cmp_bytes name m
      end.
Proof.
  induction entries as [|[id n] entries IH]; intros m Hnd Hs; cbn [entry_loop]; [by exists m|].
  cbn [fmap list_fmap map snd] in Hnd. apply NoDup_cons in Hnd as [Hni Hnd]. rewrite bind_Ok.
  set (m1 := if keep n then _ else m).
  destruct (IH m1 Hnd) as (m' & E & Hs' & Hg); [unfold m1; destruct (keep n); [by apply (bt_insert_sorted cmp_bytes)|done]|].
  exists m'. split; [done|]. split; [done|]. intros name. rewrite Hg, packed_find_cons. unfold m1.
  destruct (decide (n = name)) as [->|Hne].
  - rewrite (packed_find_absent _ _ Hni). destruct (keep name); [|done]. apply (bt_get_insert_eq cmp_bytes).
  - destruct (keep n); [|done]. by rewrite (bt_get_insert_ne cmp_bytes) by done.
Qed.

Lemma from_hex_ascii alg s id : from_hex_bytes alg s = Ok id -> Forall (fun b => (u8 b < 128)%N) s.
Proof.
  intros (_ & _ & E)%from_hex_bytes_iff. pose proof (hex_encode_text (as_bytes id)) as Ht. rewrite <- E in Ht.
  apply Forall_map in Ht. eapply Forall_impl; [exact Ht|]. intros b. cbv beta. unfold compose, to_lower.
  destruct ((65 <=? u8 b) && (u8 b <=? 90))%N eqn:Eb; [|lia]. apply andb_true_iff in Eb as [_ Eb%N.leb_le]. lia.
Qed.

Lemma parsed_line_packable alg line id name : line_ok line -> parse_packed_ref_line alg line = Ok (Some (id, name)) ->
  packable alg (name, id).
Proof.
  intros (_ & _ & Hu) E. unfold parse_packed_ref_line in E. destruct (_ || _ || _); [done|].
  pose proof (join_split_on " "%byte line) as Ej.
  destruct (split_on " "%byte line) as [|idtext [|name' [|? ?]]] eqn:Es; try done.
  apply bind_Ok_inv in E as ([] & Hv & E). apply bind_Ok_inv in E as (id' & Hid & [= -> ->]).
  apply validate_ref_name_Ok in Hv as (parts & Hn). pose proof (from_hex_bytes_wf _ _ _ Hid) as [Hwf Ha].
  split; [by exists parts|]. split; [|done]. cbn [fst]. rewrite <- Ej in Hu. cbn [join_with] in Hu.
  rewrite utf8_valid_app_eq in Hu by (apply utf8_valid_ascii; by eapply from_hex_ascii).
  change (" "%byte :: name) with ([" "%byte] ++ name) in Hu. by rewrite utf8_valid_app_eq in Hu.
Qed.

Lemma packed_entries_packable alg lines entries : Forall line_ok lines -> packed_entries alg lines = Ok entries ->
  Forall (fun entry => packable alg (entry.2, entry.1)) entries.
Proof.
  intros Hl. revert entries. induction Hl as [|line lines Hline _ IH]; intros entries E; cbn [packed_entries] in E; [by injection E as <-|].
  apply bind_Ok_inv in E as (entry & Ep & E). apply bind_Ok_inv in E as (entries' & Ee & [= <-]).
  destruct entry as [[id name]|]; [|by apply IH]. constructor; [by eapply parsed_line_packable|by apply IH].
Qed.

Lemma packed_in_packable alg fs entries : packed_in alg fs entries -> Forall (fun entry => packable alg (entry.2, entry.1)) entries.
Proof.
  unfold packed_in. destruct (fs !! packed_refs_path) as [[content|]|]; [|done|by intros ->].
  intros (lines & _ & Hl & E). by eapply packed_entries_packable.
Qed.

Lemma packed_name_of alg fs entries name : packed_in alg fs entries -> name ∈ entries.*2 -> exists parts, ref_name_of parts name.
Proof.
  intros Hp ([id name'] & -> & Hin)%list_elem_of_fmap. pose proof (packed_in_packable alg fs entries Hp) as Hk.
  rewrite Forall_forall in Hk. by destruct (Hk _ Hin).
Qed.

(** A character does not reach past an ASCII byte. *)
Lemma utf8_next_stops x a c b n : (u8 c < 128)%N -> utf8_next x (a ++ c :: b) = inl n -> utf8_next x a = inl n.
Proof.
  intros Hc. assert (Hr : forall lo hi, (128 <=? lo)%N = true -> in_range lo hi c = false).
  { intros lo hi Hlo%N.leb_le. unfold in_range. apply andb_false_iff. left. apply N.leb_gt. lia. }
  unfold utf8_next, is_cont.
  destruct a as [|p [|q [|r a]]]; cbn [app]; rewrite ?Hr by done; repeat case_match; congruence.
Qed.

Lemma utf8_valid_front a c b : (u8 c < 128)%N -> utf8_valid (a ++ c :: b) = true -> utf8_valid a = true.
Proof.
  intros Hc. unfold utf8_valid at 1. generalize (length (a ++ c :: b)). intros fuel. revert a.
  induction fuel as [|fuel IH]; intros [|x a] E; try done. cbn [app utf8_valid_loop] in E.
  destruct (utf8_next x (a ++ c :: b)) as [n|n] eqn:En; [|done]. apply utf8_next_stops in En; [|done].
  pose proof (utf8_next_inl _ _ _ En) as Hn. change (x :: a ++ c :: b) with ((x :: a) ++ c :: b) in E.
  rewrite drop_app_le in E by (cbn; lia). apply IH in E. unfold utf8_valid. cbn [length utf8_valid_loop]. rewrite En.
  rewrite (utf8_loop_fuel _ (length (drop n (x :: a)))); [done| |done]. rewrite length_drop. cbn. lia.
Qed.

Lemma utf8_pieces c parts : (u8 c < 128)%N -> utf8_valid (join_with c parts) = true -> Forall (fun p => utf8_valid p = true) parts.
Proof.
  intros Hc. induction parts as [|p parts IH]; [done|]. destruct parts as [|q parts]; [by repeat constructor|].
  rewrite join_with_cons. intros Hu. pose proof (utf8_valid_front _ _ _ Hc Hu) as Hp. constructor; [done|]. apply IH.
  rewrite utf8_valid_app_eq in Hu by done. change (c :: join_with c (q :: parts)) with ([c] ++ join_with c (q :: parts)) in Hu.
  rewrite utf8_valid_app_eq in Hu; [done|]. apply utf8_valid_ascii. by constructor.
Qed.

(** ** A store of references *)

Record store_ok (alg : GitHashAlgorithm) (fs : Fs) (entries : list (ObjectId * bytes)) : Prop := {
  so_wf : fs_wf fs;
  so_packed : packed_in alg fs entries;
  so_once : NoDup entries.*2;
  so_loose : loose_wf alg fs;
  so_root : is_file (fs !! refs_root) = false
}.

Definition loose_name (fs : Fs) (name : bytes) : Prop :=
  exists parts, ref_name_of parts name /\ is_file (fs !! (bstr "refs" :: parts)) = true.

Lemma snoc_cases_byte (l : bytes) : l = [] \/ exists l' b, l = l' ++ [b].
Proof. induction l as [|b l _] using rev_ind; [by left|right; by exists l, b]. Qed.

Lemma name_set_elem (refs : name_set) name : bt_sorted cmp_bytes refs -> name ∈ map fst refs <-> has_name refs name.
Proof.
  intros Hs. unfold has_name. rewrite (bt_get_elem cmp_bytes) by done. change (map fst refs) with (fst <$> refs). rewrite list_elem_of_fmap. split.
  - by intros ([name' []] & -> & Hin).
  - intros Hin. by exists (name, tt).
Qed.

Lemma sorted_keys {V : Type} (m : list (bytes * V)) : bt_sorted cmp_bytes m -> strictly_sorted id cmp_bytes (map fst m).
Proof. induction 1 as [|p m _ IH Hp]; cbn [map]; constructor; [done|]. apply Forall_map. exact Hp. Qed.

Lemma packed_find_None entries name : packed_find entries name = None -> name ∉ entries.*2.
Proof.
  induction entries as [|[id n] entries IH]; [by intros _ ?%elem_of_nil|]. rewrite packed_find_cons. case_decide; [done|].
  intros E [?|Hin]%elem_of_cons; [by subst|]. by apply IH.
Qed.

Lemma decide_name fs name : loose_name fs name \/ ~ loose_name fs name.
Proof.
  destruct (is_ok (validate_ref_name name)) eqn:E.
  - unfold is_ok in E. destruct (validate_ref_name name) eqn:Ev; try done. apply validate_ref_name_Ok in Ev as (parts & Hn).
    destruct (is_file (fs !! (bstr "refs" :: parts))) eqn:Ef; [left; by exists parts|right].
    intros (parts' & Hn' & Hf). pose proof (ref_name_component _ _ Hn) as E1. rewrite (ref_name_component _ _ Hn') in E1.
    injection E1 as ->. congruence.
  - right. intros (parts & Hn & _). assert (Hv : validate_ref_name name = Ok tt) by (apply validate_ref_name_Ok; by exists parts).
    by rewrite Hv in E.
Qed.

Section enumerate.
Context `{DirOrderLaws} (alg : GitHashAlgorithm) (fs : Fs) (entries : list (ObjectId * bytes)) (Hok : store_ok alg fs entries).

Lemma utf8_join parts : Forall (fun p => utf8_valid p = true) parts -> utf8_valid (join_with "/"%byte parts) = true.
Proof.
  induction 1 as [|p parts Hp1 Hparts IH]; [done|]. destruct parts as [|q parts]; [done|]. rewrite join_with_cons, utf8_valid_app_eq by done.
  change ("/"%byte :: join_with "/"%byte (q :: parts)) with (["/"%byte] ++ join_with "/"%byte (q :: parts)). by rewrite utf8_valid_app_eq.
Qed.

Lemma loose_name_utf8 name : loose_name fs name -> utf8_valid name = true.
Proof.
  destruct Hok as [Hwf _ _ Hloose _].
  intros (parts & (-> & _) & Hf). apply utf8_join. constructor; [done|]. apply Forall_forall. intros x (l1 & l2 & ->)%list_elem_of_split.
  destruct (fs !! (bstr "refs" :: l1 ++ x :: l2)) as [node|] eqn:E; [|done].
  destruct (fs !! (bstr "refs" :: l1 ++ [x])) as [node'|] eqn:Ex; [by eapply (lw_utf8 alg fs Hloose)|].
  replace (bstr "refs" :: l1 ++ x :: l2) with ((bstr "refs" :: l1 ++ [x]) ++ l2) in E by (cbn; by rewrite <- app_assoc).
  by rewrite (missing_below fs _ l2 Hwf Ex) in E.
Qed.

Lemma parse_direct value id : parse_ref_target alg value = Ok (Direct id) -> ObjectId_wf id /\ algorithm id = alg.
Proof.
  unfold parse_ref_target. destruct (strip_prefix _ value); intros E.
  - by apply bind_Ok_inv in E as (? & _ & ?).
  - apply bind_Ok_inv in E as (id' & E & [= ->]). by eapply from_hex_bytes_wf.
Qed.

(** A loose reference reads, and when it is direct it can be packed. *)
Lemma loose_name_reads name : loose_name fs name -> exists t, read_ref alg name fs = (Ok t, fs) /\
  forall id, t = Direct id -> packable alg (name, id).
Proof.
  intros Hl. pose proof (loose_name_utf8 _ Hl) as Hu. destruct Hok as [Hwf Hp _ Hloose _]. destruct Hl as (parts & Hn & Hf). pose proof Hn as (_ & Hne & _).
  destruct (exists_last Hne) as (d & x & E). destruct (fs !! (bstr "refs" :: parts)) as [[content|]|] eqn:Ef; [|done|done].
  pose proof Ef as Ef'. rewrite E in Ef'. destruct (lw_file alg fs Hloose d x content Ef') as (_ & Hc & t & Ht).
  { rewrite E in Hn. by eapply lock_not_name. }
  exists t. split.
  - rewrite (read_ref_eq alg fs entries parts) by done. unfold stored. rewrite Ef, Hc. cbn [negb check]. by rewrite bind_Ok, Ht.
  - intros id ->. destruct (parse_direct _ _ Ht). split; [by exists parts|done].
Qed.

Lemma ref_prefix_valid parts : Forall ref_component_ok parts -> validate_ref_prefix (ref_prefix parts) = Ok tt.
Proof.
  intros Hp. pose proof (ref_text_split parts Hp) as Es.
  destruct (no_empty_pieces (ref_name_text parts)) as (_ & N2 & N3).
  { rewrite Es. intros [?|Hin]%elem_of_cons; [done|]. rewrite Forall_forall in Hp. by destruct (Hp _ Hin). }
  assert (Hb : bytes_ok (ref_prefix parts)).
  { unfold ref_prefix, ref_name_text. rewrite <- join_snoc by done. apply join_bytes_ok. apply Forall_app. split.
    - constructor; [|eapply Forall_impl; [exact Hp|]; unfold ref_component_ok; tauto]. pose proof refs_component_ok. unfold ref_component_ok in *. tauto.
    - constructor; [|done]. split; [|split; [|done]]; intros (a & b & E); symmetry in E; apply app_eq_nil in E as [_ [? _]%app_eq_nil]; done. }
  destruct Hb as (B1 & B2 & B3 & _ & B5). unfold validate_ref_prefix. rewrite ref_prefix_trim, Es by done.
  rewrite !bind_check_Ok, check_Ok, !orb_false_iff, negb_false_iff, !contains_str_false, !existsb_false. split_and!; try done.
  - apply starts_with_spec. unfold ref_prefix, ref_name_text. destruct parts as [|p parts]; [by exists []|].
    exists (join_with "/"%byte (p :: parts) ++ ["/"%byte]). by rewrite join_with_cons, <- app_assoc.
  - intros (a & b & E). destruct (snoc_cases_byte b) as [->|(b' & y & ->)].
    + unfold ref_prefix in E. rewrite app_nil_r in E. change (bstr "//") with (bstr "/" ++ ["/"%byte]) in E. rewrite app_assoc in E.
      apply app_inj_tail in E as [E _]. apply N2. by exists a.
    + unfold ref_prefix in E. rewrite !app_assoc in E. apply app_inj_tail in E as [E _]. apply N3. exists a, b'. by rewrite E, <- app_assoc.
  - constructor; [reflexivity|]. eapply Forall_impl; [exact Hp|]. intros p Hc. unfold bad_prefix_component.
    pose proof (component_plain p Hc) as [C1 C2]. destruct Hc as (_ & C3 & C4 & _).
    rewrite !bool_decide_false by (done || (intros ->; apply C3; by exists ["."%byte])). by apply ends_with_false.
Qed.

(** *** Names *)

Definition listed (prefix name : bytes) : Prop := starts_with prefix name = true /\ (loose_name fs name \/ name ∈ entries.*2).

Lemma loose_prefix parts name : Forall ref_component_ok parts ->
  (exists rest, rest <> [] /\ ref_name_of (parts ++ rest) name /\ is_file (fs !! (bstr "refs" :: parts ++ rest)) = true) <->
  starts_with (ref_prefix parts) name = true /\ loose_name fs name.
Proof.
  intros Hp. split.
  - intros (rest & Hr & Hn & Hf). split; [|by exists (parts ++ rest)]. apply (ref_prefix_names parts (parts ++ rest)); [done..|]. by exists rest.
  - intros [Hs (parts' & Hn & Hf)]. destruct (proj1 (ref_prefix_names parts parts' name Hp Hn) Hs) as (rest & Hr & ->). by exists rest.
Qed.

Lemma loose_ref_names_spec parts : Forall ref_component_ok parts ->
  exists names, loose_ref_names (ref_prefix parts) fs = (Ok names, fs) /\ NoDup names /\
    forall name, name ∈ names <-> starts_with (ref_prefix parts) name = true /\ loose_name fs name.
Proof.
  intros Hp. destruct Hok as [Hwf _ _ Hloose _].
  destruct (collect_loose_refs_spec alg fs Hwf Hloose parts [] Hp ltac:(constructor)) as (refs & E & Hs & Hn).
  exists (map fst refs). split; [|split].
  - unfold loose_ref_names. rewrite ref_prefix_valid by done.
    change (rbind (rlift (Ok ?a)) ?f ?y) with (f a y). cbv beta. by rewrite (rbind_Ok _ _ _ _ _ E).
  - by apply (strictly_sorted_NoDup fst cmp_bytes).
  - intros name. rewrite <- loose_prefix by done. transitivity (has_name refs name); [|rewrite Hn; split; [by intros [?|?]|by right]].
    by apply name_set_elem.
Qed.

Lemma ref_names_spec parts : Forall ref_component_ok parts ->
  exists names, ref_names alg (ref_prefix parts) fs = (Ok names, fs) /\ strictly_sorted id cmp_bytes names /\
    forall name, name ∈ names <-> listed (ref_prefix parts) name.
Proof.
  intros Hp. destruct Hok as [Hwf Hpk Hnd Hloose _].
  destruct (collect_loose_refs_spec alg fs Hwf Hloose parts [] Hp ltac:(constructor)) as (refs & E & Hs & Hn).
  destruct (insert_entries (starts_with (ref_prefix parts)) (fun _ => tt) entries refs Hnd Hs) as (refs' & E' & Hs' & Hg).
  exists (map fst refs'). split; [|split].
  - unfold ref_names. rewrite ref_prefix_valid by done. change (rbind (rlift (Ok ?a)) ?f ?y) with (f a y). cbv beta.
    rewrite (rbind_Ok _ _ _ _ _ E). unfold rbind at 1. rewrite (for_each_packed_ref_eq alg _ fs entries) by done. by rewrite E'.
  - by apply sorted_keys.
  - intros name. rewrite name_set_elem by done. unfold has_name, listed. rewrite Hg.
    assert (Hl : bt_get cmp_bytes name refs = Some tt <-> starts_with (ref_prefix parts) name = true /\ loose_name fs name).
    { rewrite <- loose_prefix by done. change (bt_get cmp_bytes name refs = Some tt) with (has_name refs name). rewrite Hn.
      split; [by intros [?|?]|by right]. }
    destruct (packed_find entries name) as [id|] eqn:Ef.
    + apply packed_find_elem in Ef. destruct (starts_with _ name) eqn:Es; [split; [by split; [|right]|done]|rewrite Hl; naive_solver].
    + rewrite Hl. split; [intros [? ?]; by split; [|left]|]. intros [? [?|Hin]]; [by split|]. by destruct (packed_find_None _ _ Ef Hin).
Qed.

Lemma visit_push names acc : visit_names (fun name refs => Ok (refs ++ [name])) names acc = Ok (acc ++ names).
Proof.
  revert acc. induction names as [|name names IH]; intros acc; cbn [visit_names]; [by rewrite app_nil_r|].
  by rewrite bind_Ok, IH, <- app_assoc.
Qed.

(** *** Values *)

Lemma resolved_loop_spec names : (forall name, name ∈ names -> exists id, (resolve alg name fs = (Ok id, fs))) ->
  forall refs, bt_sorted cmp_bytes refs ->
  exists refs', resolved_loop alg names refs fs = (Ok refs', fs) /\ bt_sorted cmp_bytes refs' /\
    forall name id, (bt_get cmp_bytes name refs' = Some id) <->
      (name ∈ names /\ (resolve alg name fs = (Ok id, fs))) \/ ((name ∉ names) /\ bt_get cmp_bytes name refs = Some id).
Proof.
  induction names as [|name names IH]; intros Hr refs Hs; cbn [resolved_loop].
  { exists refs. split; [done|]. split; [done|]. intros name id. split; [right; by split; [apply not_elem_of_nil|]|].
    by intros [[?%elem_of_nil _]|[_ ?]]. }
  destruct (Hr name ltac:(by left)) as [id0 Er]. rewrite (rbind_Ok _ _ _ _ _ Er).
  destruct (IH (fun name' Hin => Hr name' (list_elem_of_further _ _ _ Hin)) (bt_insert cmp_bytes name id0 refs)) as (refs' & E & Hs' & Hg);
    [by apply (bt_insert_sorted cmp_bytes)|].
  exists refs'. split; [done|]. split; [done|]. intros name' id. rewrite Hg, elem_of_cons. destruct (decide (name' = name)) as [->|Hne].
  - rewrite (bt_get_insert_eq cmp_bytes). split.
    + intros [[_ ?]|[_ [= <-]]]; left; (split; [by left|done]).
    + intros [[_ E']|[Hno _]]; [|by destruct Hno; left]. destruct (decide (name ∈ names)); [by left|right].
      split; [done|]. rewrite Er in E'. congruence.
  - rewrite (bt_get_insert_ne cmp_bytes) by done. tauto.
Qed.

(** Nothing stands where the path of a packed name leads. *)
Definition packed_clear : Prop := forall parts name, ref_name_of parts name -> name ∈ entries.*2 ->
  under_file fs (bstr "refs" :: parts) = false /\ fs !! (bstr "refs" :: parts) <> Some FDir.

Lemma packed_resolves name id : packed_clear -> ~ loose_name fs name -> packed_find entries name = Some id ->
  resolve alg name fs = (Ok id, fs).
Proof.
  intros Hc Hno Hf. destruct Hok as [Hwf Hpk _ _ _]. pose proof (packed_find_Some _ _ _ Hf) as Hin.
  pose proof (packed_find_elem _ _ _ Hf) as Hel.
  destruct (packed_name_of alg fs entries name Hpk Hel) as (parts & Hn). destruct (Hc parts name Hn Hel) as [Hu Hd].
  unfold resolve. rewrite bool_decide_false by (by eapply ref_name_not_head).
  assert (Er : read_ref alg name fs = (Ok (Direct id), fs)).
  { rewrite (read_ref_eq alg fs entries parts) by done. unfold stored.
    destruct (fs !! (bstr "refs" :: parts)) as [[content|]|] eqn:E; [|done|by rewrite Hu, Hf].
    destruct Hno. exists parts. by rewrite E. }
  by rewrite (rbind_Ok _ _ _ _ _ Er).
Qed.
Lemma resolved_refs_map parts : packed_clear -> Forall ref_component_ok parts ->
  (forall name, starts_with (ref_prefix parts) name = true -> loose_name fs name -> exists id, resolve alg name fs = (Ok id, fs)) ->
  exists refs, resolved_refs alg (ref_prefix parts) fs = (Ok refs, fs) /\ bt_sorted cmp_bytes refs /\
    forall name id, (bt_get cmp_bytes name refs = Some id) <-> listed (ref_prefix parts) name /\ (resolve alg name fs = (Ok id, fs)).
Proof.
  intros Hc Hp Hres. pose proof Hok as [Hwf Hpk Hnd Hloose _].
  destruct (loose_ref_names_spec parts Hp) as (names & E & Hndn & Hn).
  destruct (insert_entries (starts_with (ref_prefix parts)) (fun i => i) entries [] Hnd ltac:(constructor)) as (refs0 & E0 & Hs0 & Hg0).
  destruct (resolved_loop_spec names ltac:(intros name [? ?]%Hn; by apply Hres) refs0 Hs0) as (refs & E1 & Hs & Hg).
  exists refs. split; [|split; [done|]].
  - unfold resolved_refs. rewrite ref_prefix_valid by done. change (rbind (rlift (Ok ?a)) ?f ?y) with (f a y). cbv beta.
    unfold rbind at 1. rewrite (for_each_packed_ref_eq alg _ fs entries), E0 by done. by rewrite (rbind_Ok _ _ _ _ _ E).
  - intros name i. rewrite Hg, Hn, Hg0. unfold listed. split.
    + intros [[[? ?] ?]|[Hno Hf]]; [tauto|]. destruct (packed_find entries name) as [i'|] eqn:Ef; [|done].
      destruct (starts_with (ref_prefix parts) name) eqn:Es; [|done]. injection Hf as <-.
      pose proof (packed_find_elem _ _ _ Ef). split; [tauto|]. apply (packed_resolves name i'); [done|tauto|done].
    + intros [[Hs' Hl] Hr]. destruct (decide_name fs name) as [Hd|Hd]; [by left|right]. split; [tauto|].
      destruct Hl as [?|Hl]; [done|]. destruct (packed_find entries name) as [i'|] eqn:Ef; [|by destruct (packed_find_None _ _ Ef Hl)].
      rewrite Hs'. pose proof (packed_resolves name i' Hc Hd Ef) as E'. congruence.
Qed.

Lemma listed_resolves prefix name : packed_clear -> (loose_name fs name -> exists id, resolve alg name fs = (Ok id, fs)) ->
  listed prefix name -> exists id, resolve alg name fs = (Ok id, fs).
Proof.
  intros Hc Hres [_ Hl]. destruct (decide_name fs name) as [Hd|Hd]; [by apply Hres|]. destruct Hl as [?|Hl]; [done|].
  destruct (packed_find entries name) as [i|] eqn:Ef; [|by destruct (packed_find_None _ _ Ef Hl)]. exists i. by apply packed_resolves.
Qed.
End enumerate.

(** The names listed are, once each and in order, those with the prefix that have a loose file or a packed line.
    Locks left below the directory do not appear. *)
Theorem list_refs_spec `{DirOrderLaws} alg fs entries parts :
  store_ok alg fs entries -> Forall ref_component_ok parts ->
  exists names, list_refs alg (ref_prefix parts) fs = (Ok names, fs) /\ strictly_sorted id cmp_bytes names /\
    forall name, name ∈ names <-> starts_with (ref_prefix parts) name = true /\ (loose_name fs name \/ name ∈ entries.*2).
Proof.
  intros Hok Hp. destruct (ref_names_spec alg fs entries Hok parts Hp) as (names & E & Hs & Hn).
  exists names. split; [|by split]. unfold list_refs, for_each_ref_name. rewrite (rbind_Ok _ _ _ _ _ E). unfold rlift.
  by rewrite visit_push.
Qed.


(** ** Witnesses *)

(** Whether the loose files are well formed can be tested. *)
Definition loose_b (alg : GitHashAlgorithm) (entry : path * FsNode) : bool :=
  match entry.1 with
  | [] => true
  | root :: q =>
      negb (bool_decide (root = bstr "refs")) ||
      match rev q with
      | [] => true
      | x :: _ =>
          utf8_valid x &&
          match entry.2 with
          | FDir => true
          | FFile content => ends_with (bstr ".lock") x ||
              ((is_ok (validate_ref_name (ref_name_text q)) && bool_decide (split_on "/"%byte (ref_name_text q) = bstr "refs" :: q))
               && (utf8_valid content && is_ok (parse_ref_target alg (trim_end_byte nl content))))
          end
      end
  end.

Lemma loose_b_true (alg : GitHashAlgorithm) (fs : Fs) : forallb (loose_b alg) (map_to_list fs) = true -> loose_wf alg fs.
Proof.
  intros Hf. rewrite forallb_forall in Hf. assert (Hp : forall p x node, fs !! (bstr "refs" :: p ++ [x]) = Some node -> loose_b alg (bstr "refs" :: p ++ [x], node) = true).
  { intros p x node E. apply Hf, list_elem_of_In. by apply elem_of_map_to_list. }
  split.
  - intros p x node E%Hp. unfold loose_b in E. cbn [fst snd] in E. rewrite bool_decide_true in E by done. rewrite rev_app_distr in E.
    cbn [rev app negb orb] in E. by apply andb_true_iff in E as [? _].
  - intros p x content E%Hp Hl. unfold loose_b in E. cbn [fst snd] in E. rewrite bool_decide_true in E by done. rewrite rev_app_distr in E.
    cbn [rev app negb orb] in E. rewrite Hl in E. cbn [orb] in E. apply andb_true_iff in E as [_ [Hn [Hu Ht]%andb_true_iff]%andb_true_iff].
    split; [by apply sample_name|]. split; [done|]. unfold is_ok in Ht. destruct (parse_ref_target _ _) as [t| | |]; try done. by exists t.
Qed.

#[local] Existing Instances sample_hex sample_hex_laws.

#[local] Instance sample_order : DirOrder := fun l => l.

#[local] Instance sample_order_laws : DirOrderLaws.
Proof. intros l. reflexivity. Qed.

Lemma sample_refs_ok : store_ok Sha1 sample_refs sample_entries.
Proof.
  split; [apply sample_refs_wf|apply sample_refs_packed| | |vm_compute; reflexivity].
  - by_decide.
  - apply loose_b_true. vm_compute. reflexivity.
Qed.

Lemma prefix_parts parts : forallb (fun p => is_ok (validate_ref_format p true)) parts && forallb (fun p => negb (contains_byte "/"%byte p)) parts = true ->
  Forall ref_component_ok parts.
Proof.
  intros [Hf Hs]%andb_true_iff. rewrite forallb_forall in Hf. rewrite forallb_forall in Hs. apply Forall_forall. intros p Hin%list_elem_of_In.
  pose proof (proj1 (check_ref_format_parts p true) (Hf p Hin)) as (ps & -> & Hp & Hl & _). specialize (Hs _ Hin). apply negb_true_iff in Hs.
  destruct ps as [|q [|q' ps]]; [cbn in Hl; lia|by apply Forall_cons in Hp as [? _]|]. rewrite join_with_cons in Hs.
  assert (Hc : contains_byte "/"%byte (q ++ "/"%byte :: join_with "/"%byte (q' :: ps)) = true) by (apply contains_byte_true, elem_of_app; right; by left).
  congruence.
Qed.

Lemma list_refs_spec_witness : exists names, list_refs Sha1 (bstr "refs/heads/") sample_refs = (Ok names, sample_refs) /\ bstr "refs/heads/main" ∈ names.
Proof.
  destruct (list_refs_spec Sha1 sample_refs sample_entries [bstr "heads"] sample_refs_ok) as (names & E & _ & Hn).
  - apply prefix_parts. vm_compute. reflexivity.
  - exists names. split; [exact E|]. apply Hn. split; [vm_compute; reflexivity|]. right. by_decide.
Defined.

Lemma sample_clear : packed_clear sample_refs sample_entries.
Proof.
  intros parts name Hn Hin. pose proof (ref_name_component _ _ Hn) as E. cbn [fmap list_fmap sample_entries map snd] in Hin.
  apply elem_of_cons in Hin as [->|[->|Hin%elem_of_nil]%elem_of_cons]; [..|done]; vm_compute in E; injection E as <-; split; vm_compute; congruence.
Qed.

Lemma sample_main_reads : (read_ref Sha1 (join_with "/"%byte (bstr "refs" :: main_parts)) sample_refs).1 = Ok (Direct (sample_id Sha1 1)).
Proof. vm_compute. reflexivity. Qed.

Lemma sample_loose : forallb (fun entry => negb (is_file (Some entry.2)) || negb (bool_decide (head entry.1 = Some (bstr "refs"))) ||
  bool_decide (entry.1 = [bstr "refs"; bstr "heads"; bstr "main"])) (map_to_list sample_refs) = true.
Proof. vm_compute. reflexivity. Qed.

