(* ===== verification/RefPack.v ===== *)
(** * References: packing *)
From S2P Require Import Prelude Order Object Text Tag Index Store Reader FileSystem RefNames Refs RefSpec RefStore RefList.

(** ** The text of the packed references *)

Lemma hex_no_caret bs : "^"%byte ∉ hex_encode bs.
Proof.
  unfold hex_encode. induction bs as [|b bs IH]; [apply not_elem_of_nil|]. cbn [flat_map app]. rewrite !not_elem_of_cons.
  assert (Hc : forall n, (n < 16)%N -> "^"%byte <> hex_char n).
  { intros n Hn E. pose proof (forall_below 16 (fun n => negb (Byte.eqb "^"%byte (hex_char n)))) as H. cbv beta in H.
    specialize (H eq_refl n Hn). rewrite <- E in H. done. }
  pose proof (u8_lt b) as Hb. split; [apply Hc|split; [apply Hc|done]].
  - apply N.Div0.div_lt_upper_bound. lia.
  - by apply N.mod_lt.
Qed.

Section text.
Context `{HexCrateLaws}.

Lemma to_hex_head id : ObjectId_wf id -> exists b r, to_hex id = b :: r /\ b <> "^"%byte /\ b <> "#"%byte.
Proof.
  intros Hwf. destruct (to_hex id) as [|b r] eqn:E.
  - exfalso. apply (f_equal length) in E. unfold to_hex in E. rewrite hex_crate_spec, length_hex_encode, length_as_bytes in E by done.
    by destruct (algorithm id).
  - exists b, r. split; [done|]. split.
    + intros ->. apply (hex_no_caret (as_bytes id)). rewrite <- hex_crate_spec. change (hex_crate_encode (as_bytes id)) with (to_hex id).
      rewrite E. by left.
    + intros ->. apply (to_hex_no "#"%byte id); [done|]. rewrite E. by left.
Qed.

(** The line of a reference. *)
Definition ref_line (name : bytes) (id : ObjectId) : bytes := to_hex id ++ " "%byte :: name.

Lemma not_in_contains c l : c ∉ l -> contains_byte c l = false.
Proof. intros Hc. apply not_true_is_false. by intros ?%contains_byte_true. Qed.

Lemma ends_not_in c l : c ∉ l -> ends_with [c] l = false.
Proof. intros Hc. apply ends_with_false. intros [k ->]. apply Hc, elem_of_app. right. by left. Qed.

Lemma ref_line_no c parts name id : ref_name_of parts name -> (u8 c <? 32)%N = true -> c ∉ ref_line name id.
Proof.
  intros Hn Hc%N.ltb_lt. unfold ref_line. rewrite elem_of_app, elem_of_cons. intros [Hin|[->|Hin]].
  - apply (to_hex_no c id); [lia|done].
  - by vm_compute in Hc.
  - apply (ref_name_no parts name c Hn); [apply N.ltb_lt; lia|done].
Qed.

Lemma ref_line_ok parts name id : ref_name_of parts name -> utf8_valid name = true -> line_ok (ref_line name id).
Proof.
  intros Hn Hu. split; [|split].
  - apply not_in_contains. by eapply ref_line_no.
  - apply ends_not_in. by eapply ref_line_no.
  - unfold ref_line. rewrite utf8_valid_app_eq by apply to_hex_utf8. change (" "%byte :: name) with ([" "%byte] ++ name).
    by rewrite utf8_valid_app_eq.
Qed.

Lemma ref_line_parses parts name id : ref_name_of parts name -> ObjectId_wf id ->
  parse_packed_ref_line (algorithm id) (ref_line name id) = Ok (Some (id, name)).
Proof.
  intros Hn Hwf. destruct (to_hex_head id Hwf) as (b & r & E & H1 & H2). unfold parse_packed_ref_line.
  assert (Hs : forall c, b <> c -> starts_with [c] (ref_line name id) = false).
  { intros c Hc. apply starts_with_false. unfold ref_line. rewrite E. intros [k Hk]. by injection Hk as ->. }
  change (bstr "#") with ["#"%byte]. change (bstr "^") with ["^"%byte]. rewrite !Hs, bool_decide_false by (done || (unfold ref_line; by rewrite E)).
  cbn [orb]. unfold ref_line. rewrite split_on_app by (apply not_in_contains, to_hex_no; done).
  rewrite split_on_piece by (apply not_in_contains; by eapply ref_name_no).
  assert (Hv : validate_ref_name name = Ok tt) by (apply validate_ref_name_Ok; by exists parts). by rewrite Hv, bind_Ok, to_hex_parse, bind_Ok.
Qed.

Lemma caret_line_ok id : line_ok ("^"%byte :: to_hex id).
Proof.
  assert (Hno : forall c, c <> "^"%byte -> (u8 c < 48)%N -> c ∉ "^"%byte :: to_hex id).
  { intros c H1 H2. rewrite elem_of_cons. intros [?|Hin]; [done|]. by apply (to_hex_no c id). }
  split; [|split].
  - apply not_in_contains. by apply Hno.
  - apply ends_not_in. by apply Hno.
  - change ("^"%byte :: to_hex id) with (["^"%byte] ++ to_hex id). rewrite utf8_valid_app_eq by done. apply to_hex_utf8.
Qed.

Lemma packed_entries_app alg l1 l2 e1 e2 : packed_entries alg l1 = Ok e1 -> packed_entries alg l2 = Ok e2 ->
  packed_entries alg (l1 ++ l2) = Ok (e1 ++ e2).
Proof.
  revert e1. induction l1 as [|line l1 IH]; intros e1 E1 E2; cbn [packed_entries app] in *; [by injection E1 as <-|].
  apply bind_Ok_inv in E1 as (entry & -> & E1). apply bind_Ok_inv in E1 as (entries & Ee & [= <-]).
  rewrite bind_Ok, (IH entries Ee E2), bind_Ok. by destruct entry.
Qed.

Lemma unlines_app l1 l2 : unlines (l1 ++ l2) = unlines l1 ++ unlines l2.
Proof. apply bind_app. Qed.

Definition swap_ref (ref : bytes * ObjectId) : ObjectId * bytes := (ref.2, ref.1).

Lemma packed_text_loop_lines `{GitObjectStore St} alg fuel (objects : St) refs : Forall (packable alg) refs ->
  Forall (fun ref => exists peeled, peel_tag_ref fuel objects ref.2 = Ok peeled) refs -> forall out,
  exists lines, packed_text_loop fuel objects refs out = Ok (out ++ unlines lines) /\ Forall line_ok lines /\
    packed_entries alg lines = Ok (map swap_ref refs).
Proof.
  induction 1 as [|[name id] refs ((parts & Hn) & Hu & Hwf & Ha) Hrefs IH]; intros Hpeel out; cbn [packed_text_loop].
  { exists []. split; [by rewrite app_nil_r|done]. }
  apply Forall_cons in Hpeel as [(peeled & Ep) Hpeel]. cbn [fst snd] in *. rewrite Ep, bind_Ok.
  set (extra := match peeled with Some p => ["^"%byte :: to_hex p] | None => [] end).
  destruct (IH Hpeel (out ++ unlines (ref_line name id :: extra))) as (lines & E & Hl & Ee).
  exists (ref_line name id :: extra ++ lines). split; [|split].
  - replace (match peeled with Some p => _ | None => _ end) with (out ++ unlines (ref_line name id :: extra)).
    + rewrite E. f_equal. change (ref_line name id :: extra ++ lines) with ((ref_line name id :: extra) ++ lines).
      by rewrite unlines_app, app_assoc.
    + unfold packed_line, extra, unlines, ref_line, peeled_line. destruct peeled; cbn [mbind list_bind]; rewrite ?app_nil_r, <- ?app_assoc; cbn [app];
        by rewrite <- ?app_assoc.
  - constructor; [by eapply ref_line_ok|]. apply Forall_app. split; [|done]. unfold extra. destruct peeled; [|constructor].
    constructor; [apply caret_line_ok|constructor].
  - cbn [packed_entries]. subst alg. rewrite (ref_line_parses parts) by done. rewrite bind_Ok.
    assert (Ex : packed_entries (algorithm id) extra = Ok []).
    { unfold extra. destruct peeled as [p|]; [|done]. cbn [packed_entries]. by rewrite (caret_line (algorithm id) ("^"%byte :: to_hex p)) by done. }
    rewrite (packed_entries_app _ _ _ [] _ Ex Ee), bind_Ok. done.
Qed.
End text.

(** ** Maps of references *)

Lemma packed_find_map (m : ref_map) name : bt_sorted cmp_bytes m -> packed_find (map swap_ref m) name = bt_get cmp_bytes name m.
Proof.
  induction m as [|[k v] m IH]; intros Hs; [done|]. apply (bt_sorted_cons cmp_bytes) in Hs as [Hk Hs]. cbn [map]. unfold swap_ref at 1. cbn [fst snd bt_get].
  rewrite packed_find_cons, IH by done. destruct (decide (k = name)) as [->|Hne]; [by rewrite (cmp_refl cmp_bytes)|].
  destruct (cmp_bytes name k) eqn:E; [by apply cmp_eq in E| |done].
  apply (bt_get_below cmp_bytes). eapply Forall_impl; [exact Hk|]. intros q Hq. by eapply (cmp_lt_trans (cmp := cmp_bytes)).
Qed.

Lemma map_keys_NoDup (m : ref_map) : bt_sorted cmp_bytes m -> NoDup (map swap_ref m).*2.
Proof.
  intros Hs. replace ((map swap_ref m).*2) with (fst <$> m).
  - by apply (strictly_sorted_NoDup fst cmp_bytes).
  - change (map swap_ref m) with (swap_ref <$> m). rewrite <- list_fmap_compose. done.
Qed.

Lemma read_packed_refs_eq alg fs entries : fs_wf fs -> packed_in alg fs entries -> NoDup entries.*2 ->
  exists m, read_packed_refs alg fs = (Ok m, fs) /\ bt_sorted cmp_bytes m /\ forall name, bt_get cmp_bytes name m = packed_find entries name.
Proof.
  intros Hwf Hp Hnd. destruct (insert_entries (fun _ => true) (fun i => i) entries [] Hnd) as (m & E & Hs & Hg); [constructor|].
  exists m. split; [|split; [done|]].
  - unfold read_packed_refs. by rewrite (for_each_packed_ref_eq alg _ fs entries), E.
  - intros name. rewrite Hg. by destruct (packed_find entries name).
Qed.

(** ** Packing changes no reference *)

Section pack.
Context `{DirOrderLaws, HexCrateLaws, GitObjectStore St} (alg : GitHashAlgorithm) (fuel : nat) (objects : St).
Context (fs : Fs) (entries : list (ObjectId * bytes)) (Hok : store_ok alg fs entries).

(** The references to write, and the names to prune, after some of the loose names. *)
Record packing (refs0 refs : ref_map) (prune_names : list bytes) : Prop := {
  pk_sorted : bt_sorted cmp_bytes refs;
  pk_packable : Forall (packable alg) refs;
  pk_pruned : forall name, name ∈ prune_names -> loose_name fs name /\
    exists id, read_ref alg name fs = (Ok (Direct id), fs) /\ bt_get cmp_bytes name refs = Some id;
  pk_kept : forall name, name ∉ prune_names -> bt_get cmp_bytes name refs = bt_get cmp_bytes name refs0
}.

Lemma packing_insert refs0 refs prune_names name id : packing refs0 refs prune_names -> loose_name fs name ->
  read_ref alg name fs = (Ok (Direct id), fs) -> packable alg (name, id) ->
  packing refs0 (bt_insert cmp_bytes name id refs) (prune_names ++ [name]).
Proof.
  intros [K1 K2 K3 K4] Hl Hr Hk. split.
  - by apply (bt_insert_sorted cmp_bytes).
  - apply bt_insert_Forall; [apply _|done|]. by intros k' ->.
  - intros name' Hin. destruct (decide (name' = name)) as [->|Hne].
    + split; [done|]. exists id. split; [done|]. apply (bt_get_insert_eq cmp_bytes).
    + apply elem_of_app in Hin as [Hin|Hin%list_elem_of_singleton]; [|done]. destruct (K3 name' Hin) as (Hl' & id' & Hr' & Hg).
      split; [done|]. exists id'. split; [done|]. by rewrite (bt_get_insert_ne cmp_bytes).
  - intros name'. rewrite elem_of_app, list_elem_of_singleton. intros Hno. rewrite (bt_get_insert_ne cmp_bytes) by tauto. apply K4. tauto.
Qed.

Lemma pack_refs_loop_spec all packed_names refs0 names : Forall (loose_name fs) names -> forall refs prune_names,
  NoDup (prune_names ++ names) -> packing refs0 refs prune_names ->
  exists refs' prune_names', pack_refs_loop alg all packed_names names refs prune_names fs = (Ok (refs', prune_names'), fs) /\
    NoDup prune_names' /\ packing refs0 refs' prune_names' /\ (forall name, name ∈ prune_names -> name ∈ prune_names') /\
    (all = true -> forall name id, name ∈ names -> read_ref alg name fs = (Ok (Direct id), fs) -> name ∈ prune_names').
Proof.
  induction 1 as [|name names Hl Hnames IH]; intros refs prune_names Hnd Hk; cbn [pack_refs_loop].
  { exists refs, prune_names. rewrite app_nil_r in Hnd. split; [done|]. split; [done|]. split; [done|]. split; [done|].
    by intros _ name id ?%elem_of_nil. }
  assert (Hskip : exists refs' prune_names', pack_refs_loop alg all packed_names names refs prune_names fs = (Ok (refs', prune_names'), fs) /\
    NoDup prune_names' /\ packing refs0 refs' prune_names' /\ (forall name, name ∈ prune_names -> name ∈ prune_names') /\
    (all = true -> forall name id, name ∈ names -> read_ref alg name fs = (Ok (Direct id), fs) -> name ∈ prune_names')).
  { apply IH; [|done]. apply NoDup_app in Hnd as (N1 & N2 & [_ N3]%NoDup_cons). apply NoDup_app. split; [done|]. split; [|done].
    intros y Hy Hin. apply (N2 y Hy). by right. }
  destruct (loose_name_reads alg fs entries Hok name Hl) as (t & Er & Ht).
  destruct (negb (all || starts_with (bstr "refs/tags/") name || bool_decide (name ∈ packed_names))) eqn:Eskip.
  { destruct Hskip as (refs' & prune' & E & N & K & Hsub & Hall). exists refs', prune'. split; [done|]. split; [done|]. split; [done|].
    split; [done|]. intros ->. by rewrite orb_true_l in Eskip. }
  rewrite (rbind_Ok _ _ _ _ _ Er). destruct t as [id|target].
  - destruct (IH (bt_insert cmp_bytes name id refs) (prune_names ++ [name])) as (refs' & prune' & E & N & K & Hsub & Hall).
    + by rewrite <- app_assoc.
    + by apply packing_insert; [..|apply Ht].
    + exists refs', prune'. split; [done|]. split; [done|]. split; [done|]. split; [intros y Hy; apply Hsub, elem_of_app; by left|].
      intros Ha y id' [->|Hy]%elem_of_cons Hr; [apply Hsub, elem_of_app; right; by left|by eapply Hall].
  - destruct Hskip as (refs' & prune' & E & N & K & Hsub & Hall). exists refs', prune'. split; [done|]. split; [done|]. split; [done|].
    split; [done|]. intros Ha y id' [->|Hy]%elem_of_cons Hr; [|by eapply Hall]. rewrite Er in Hr. done.
Qed.

(** *** Pruning *)

Lemma ref_path_inj name name' : loose_name fs name -> loose_name fs name' -> ref_path name = ref_path name' -> name = name'.
Proof.
  intros (parts & Hn & _) (parts' & Hn' & _). unfold ref_path. rewrite (ref_name_path _ _ Hn), (ref_name_path _ _ Hn').
  intros [= ->]. destruct Hn as (-> & _), Hn' as (-> & _). done.
Qed.

Lemma prune_names_loop_spec names : NoDup names -> Forall (loose_name fs) names -> forall fs1, fs_wf fs1 ->
  (forall name, name ∈ names -> is_file (fs1 !! ref_path name) = true) ->
  exists fs2, prune_names_loop names fs1 = (Ok tt, fs2) /\ fs_wf fs2 /\
    forall q, fs2 !! q = if decide (q ∈ map ref_path names) then None else fs1 !! q.
Proof.
  induction names as [|name names IH]; intros Hnd Hl fs1 Hwf1 Hf; cbn [prune_names_loop map].
  { exists fs1. split; [done|]. split; [done|]. intros q. by rewrite decide_False by apply not_elem_of_nil. }
  apply NoDup_cons in Hnd as [Hni Hnd]. apply Forall_cons in Hl as [Hl Hls].
  pose proof (Hf name ltac:(by left)) as Hfile. destruct (fs1 !! ref_path name) as [[content|]|] eqn:Ef; [|done|done].
  assert (Er : or_absent (remove_file (ref_path name)) fs1 = (Ok (Some tt), delete (ref_path name) fs1)) by (unfold or_absent, remove_file; by rewrite Ef).
  rewrite (rbind_Ok _ _ _ _ _ Er). destruct (IH Hnd Hls (delete (ref_path name) fs1)) as (fs2 & E2 & Hwf2 & Hq).
  - by eapply wf_delete_file.
  - intros name' Hin. rewrite lookup_delete_ne; [apply Hf; by right|]. intros E. rewrite Forall_forall in Hls.
    apply ref_path_inj in E; [by subst|done|by apply Hls].
  - exists fs2. split; [done|]. split; [done|]. intros q. rewrite Hq. destruct (decide (q ∈ map ref_path names)) as [Hin|Hnin].
    + rewrite decide_True; [done|]. by right.
    + destruct (decide (ref_path name = q)) as [<-|Hne].
      * rewrite lookup_delete_eq, decide_True; [done|]. by left.
      * rewrite lookup_delete_ne by done. rewrite decide_False; [done|]. intros [?|?]%elem_of_cons; by subst.
Qed.

(** *** The whole operation *)

Context (Hclear : forall parts name, ref_name_of parts name -> name ∈ entries.*2 -> under_file fs (bstr "refs" :: parts) = false).

(** A store with new packed references and some loose ones gone, which are packed, reads the same. *)
Lemma packed_same refs0 refs prune_names fs2 :
  packing refs0 refs prune_names -> (forall name, bt_get cmp_bytes name refs0 = packed_find entries name) ->
  fs_wf fs2 -> packed_in alg fs2 (map swap_ref refs) ->
  (forall parts name, ref_name_of parts name -> fs2 !! (bstr "refs" :: parts) = fs !! (bstr "refs" :: parts) \/
     (name ∈ prune_names /\ fs2 !! (bstr "refs" :: parts) = None)) ->
  (forall q, q <> packed_refs_path -> is_file (fs2 !! q) = true -> is_file (fs !! q) = true) ->
  forall parts name t, ref_name_of parts name -> (read_ref alg name fs2).1 = Ok t <-> (read_ref alg name fs).1 = Ok t.
Proof.
  pose proof Hok as [Hwf Hp Hnd Hloose Hroot].
  intros [K1 K2 K3 K4] Hrefs0 Hwf2 Hp2 Hq Hfiles parts name t Hn.
  rewrite (read_ref_eq alg fs2 _ parts name Hwf2 Hp2 Hn). rewrite (read_ref_eq alg fs entries parts name Hwf Hp Hn). cbn [fst].
  assert (Hunder : under_file fs (bstr "refs" :: parts) = false -> under_file fs2 (bstr "refs" :: parts) = false).
  { unfold under_file. rewrite !existsb_false, !Forall_forall. intros Hf k Hk. specialize (Hf k Hk).
    destruct (is_file (fs2 !! take k _)) eqn:E2; [|done]. rewrite Hfiles in Hf; [done| |done]. intros Etake.
    by assert (Hpre : packed_refs_path `prefix_of` bstr "refs" :: parts) by (exists (drop k (bstr "refs" :: parts)); by rewrite <- Etake, take_drop);
      apply not_top_prefix in Hpre. }
  assert (Hfind : packed_find (map swap_ref refs) name = bt_get cmp_bytes name refs) by by apply packed_find_map.
  unfold stored. rewrite Hfind. destruct (Hq parts name Hn) as [->|[Hpr ->]].
  - destruct (fs !! (bstr "refs" :: parts)) as [[content|]|] eqn:Ef; [done|done|].
    assert (Hno : name ∉ prune_names).
    { intros ((parts' & Hn' & Hf) & _)%K3. assert (parts' = parts) as ->; [|by rewrite Ef in Hf].
      pose proof (ref_name_component _ _ Hn) as E1. rewrite (ref_name_component _ _ Hn') in E1. by injection E1. }
    rewrite (K4 name Hno), Hrefs0. destruct (under_file fs (bstr "refs" :: parts)) eqn:Eu; [|by rewrite Hunder].
    destruct (packed_find entries name) as [id|] eqn:Eid; [|by destruct (under_file fs2 _)].
    apply packed_find_elem in Eid. by rewrite (Hclear parts name Hn Eid) in Eu.
  - destruct (K3 name Hpr) as ((parts' & Hn' & Hf) & id & Hr & Hg). assert (parts' = parts) as ->.
    { pose proof (ref_name_component _ _ Hn) as E1. rewrite (ref_name_component _ _ Hn') in E1. by injection E1. }
    rewrite (read_ref_eq alg fs entries parts name Hwf Hp Hn) in Hr. injection Hr as Hr. unfold stored in Hr.
    destruct (fs !! (bstr "refs" :: parts)) as [[content|]|] eqn:Ef; [|done|done]. rewrite Hr, Hg.
    rewrite Hunder by by eapply wf_under_file. done.
Qed.

(** *** The steps of the operation *)

Lemma loose_names_eq : exists names, loose_ref_names (bstr "refs/") fs = (Ok names, fs) /\ NoDup names /\
  forall name, name ∈ names <-> loose_name fs name.
Proof.
  destruct (loose_ref_names_spec alg fs entries Hok [] ltac:(constructor)) as (names & E & Hndn & Hn).
  exists names. split; [done|]. split; [done|]. intros name. rewrite Hn. split; [by intros [_ ?]|]. intros Hl. split; [|done].
  apply (loose_prefix fs [] name ltac:(constructor)). destruct Hl as (parts & Hname & Hf). exists parts.
  split; [by destruct Hname as (_ & ? & _)|done].
Qed.

Lemma packing_start refs0 : bt_sorted cmp_bytes refs0 -> (forall name, bt_get cmp_bytes name refs0 = packed_find entries name) ->
  packing refs0 refs0 [].
Proof.
  pose proof Hok as [Hwf Hp Hnd Hloose Hroot].
  intros Hs Hg. split; [done| |by intros ? ?%elem_of_nil|done]. apply Forall_forall. intros [name id] Hin.
  apply (bt_get_elem cmp_bytes) in Hin; [|done]. rewrite Hg in Hin. apply packed_find_Some in Hin.
  pose proof (packed_in_packable alg fs entries Hp) as Hk. rewrite Forall_forall in Hk. exact (Hk _ Hin).
Qed.

(** The objects that are asked for can be read. *)
Context (Hpeel : forall name id, packed_find entries name = Some id \/ read_ref alg name fs = (Ok (Direct id), fs) ->
  exists peeled, peel_tag_ref fuel objects id = Ok peeled).

Lemma packing_peels refs0 refs prune_names : packing refs0 refs prune_names ->
  (forall name, bt_get cmp_bytes name refs0 = packed_find entries name) ->
  Forall (fun ref => exists peeled, peel_tag_ref fuel objects ref.2 = Ok peeled) refs.
Proof.
  intros [K1 K2 K3 K4] Hg. apply Forall_forall. intros [name id] Hin. apply (bt_get_elem cmp_bytes) in Hin; [|done].
  apply (Hpeel name id). destruct (decide (name ∈ prune_names)) as [Hpr|Hpr].
  - destruct (K3 name Hpr) as (_ & id' & Hr & Hid). right. congruence.
  - left. by rewrite <- Hg, <- K4.
Qed.

Definition pack_header : bytes := bstr "# pack-refs with: peeled fully-peeled sorted ".

Lemma packed_header_text lines content refs : Forall line_ok lines -> packed_entries alg lines = Ok (map swap_ref refs) ->
  content = (pack_header ++ [nl]) ++ unlines lines -> packed_wf alg content (map swap_ref refs).
Proof.
  intros Hl He ->. exists (pack_header :: lines). split; [done|]. split; [constructor; [by split|done]|].
  cbn [packed_entries]. assert (Eh : parse_packed_ref_line alg pack_header = Ok None) by reflexivity. by rewrite Eh, bind_Ok, He, bind_Ok.
Qed.

(** The new file of packed references, written under its lock. *)
Lemma write_packed_spec content refs : packed_wf alg content (map swap_ref refs) -> fs !! [bstr "packed-refs.lock"] = None ->
  exists fs1, atomic_write packed_refs_path content fs = (Ok tt, fs1) /\ fs_wf fs1 /\ packed_in alg fs1 (map swap_ref refs) /\
    forall q, q <> packed_refs_path -> fs1 !! q = fs !! q.
Proof.
  pose proof Hok as [Hwf Hp Hnd Hloose Hroot].
  intros Hc Hlock. assert (Hno : no_file_above fs []) by (intros q ->%prefix_nil_inv; by rewrite (wf_root fs Hwf)).
  destruct (atomic_write_Ok [] (bstr "packed-refs") content fs Hwf Hno) as (fs1 & E & Hwf1 & Ht & Hq).
  - unfold packed_in, packed_refs_path in Hp. cbn [app]. intros E. by rewrite E in Hp.
  - exact Hlock.
  - exists fs1. split; [done|]. split; [done|]. split.
    + unfold packed_in. change packed_refs_path with ([] ++ [bstr "packed-refs"]). by rewrite Ht.
    + intros q Hne. rewrite Hq by done. destruct (fs !! q) eqn:Eq; [done|]. rewrite decide_False; [done|].
      intros ->%prefix_nil_inv. by rewrite (wf_root fs Hwf) in Eq.
Qed.
Lemma prune_step (prune : bool) prune_names fs1 : fs_wf fs1 -> NoDup prune_names -> Forall (loose_name fs) prune_names ->
  (forall q, q <> packed_refs_path -> fs1 !! q = fs !! q) ->
  exists fs2, (if prune then prune_names_loop prune_names else rret tt) fs1 = (Ok tt, fs2) /\ fs_wf fs2 /\
    forall q, fs2 !! q = if decide (prune = true /\ q ∈ map ref_path prune_names) then None else fs1 !! q.
Proof.
  intros Hwf1 Hndp Hl Hq1. destruct prune; [|exists fs1; split; [done|split; [done|]]; intros q; by rewrite decide_False by (by intros [? _])].
  destruct (prune_names_loop_spec prune_names Hndp Hl fs1 Hwf1) as (fs2 & E & Hwf2 & Hq).
  - rewrite Forall_forall in Hl. intros name (parts & Hn & Hf)%Hl. unfold ref_path. rewrite (ref_name_path _ _ Hn).
    by rewrite Hq1 by (by destruct parts).
  - exists fs2. split; [done|]. split; [done|]. intros q. rewrite Hq. apply decide_ext. tauto.
Qed.

(** The whole run. *)
Lemma pack_refs_run options : fs !! [bstr "packed-refs.lock"] = None ->
  exists refs0 refs prune_names fs1 fs2, pack_refs alg fuel objects options fs = (Ok tt, fs2) /\
    packing refs0 refs prune_names /\ (forall name, bt_get cmp_bytes name refs0 = packed_find entries name) /\
    (opt_all options = true -> forall name id, loose_name fs name -> read_ref alg name fs = (Ok (Direct id), fs) -> name ∈ prune_names) /\
    packed_in alg fs1 (map swap_ref refs) /\ (forall q, q <> packed_refs_path -> fs1 !! q = fs !! q) /\ fs_wf fs2 /\
    forall q, fs2 !! q = if decide (opt_prune options = true /\ q ∈ map ref_path prune_names) then None else fs1 !! q.
Proof.
  pose proof Hok as [Hwf Hp Hnd Hloose Hroot].
  intros Hlock. destruct (read_packed_refs_eq alg fs entries Hwf Hp Hnd) as (refs0 & E0 & Hs0 & Hg0).
  destruct loose_names_eq as (names & En & Hndn & Hnames).
  assert (Hln : Forall (loose_name fs) names) by (apply Forall_forall; intros name; apply Hnames).
  destruct (pack_refs_loop_spec (opt_all options) (map fst refs0) refs0 names Hln refs0 [] Hndn)
    as (refs & prune_names & El & Hndp & K & _ & Hall); [by apply packing_start|].
  destruct (packed_text_loop_lines alg fuel objects refs (pk_packable _ _ _ K) (packing_peels refs0 refs prune_names K Hg0)
    (pack_header ++ [nl])) as (lines & Et & Hl & Ee).
  destruct (write_packed_spec ((pack_header ++ [nl]) ++ unlines lines) refs) as (fs1 & Ew & Hwf1 & Hp1 & Hq1);
    [by eapply packed_header_text|done|].
  destruct (prune_step (opt_prune options) prune_names fs1 Hwf1 Hndp) as (fs2 & E2 & Hwf2 & Hq2); [|done|].
  { apply Forall_forall. intros name Hin. by apply (pk_pruned _ _ _ K). }
  exists refs0, refs, prune_names, fs1, fs2. split; [|split; [done|split; [done|split; [|done]]]].
  - unfold pack_refs. rewrite (rbind_Ok _ _ _ _ _ E0). cbv zeta. rewrite (rbind_Ok _ _ _ _ _ En), (rbind_Ok _ _ _ _ _ El).
    change (bstr "# pack-refs with: peeled fully-peeled sorted " ++ [nl]) with (pack_header ++ [nl]).
    rewrite Et. change (rbind (rlift (Ok ?a)) ?f ?y) with (f a y). cbv beta. by rewrite (rbind_Ok _ _ _ _ _ Ew).
  - intros Ha name id Hln' Hr. by apply (Hall Ha name id); [apply Hnames|].
Qed.
End pack.

(** C17: packing changes no reference.  It succeeds when its lock is free and the objects it peels can be read;
    afterwards every name reads as a value exactly when it read as that value before.  With [opt_all] every direct
    loose reference is packed with its value, and with [opt_prune] its loose file is gone. *)
Theorem pack_refs_spec `{DirOrderLaws, HexCrateLaws, GitObjectStore St} alg fuel (objects : St) options fs entries :
  store_ok alg fs entries ->
  fs !! [bstr "packed-refs.lock"] = None ->
  (forall parts name, ref_name_of parts name -> name ∈ entries.*2 -> under_file fs (bstr "refs" :: parts) = false) ->
  (forall name id, packed_find entries name = Some id \/ read_ref alg name fs = (Ok (Direct id), fs) ->
     exists peeled, peel_tag_ref fuel objects id = Ok peeled) ->
  exists fs' entries', pack_refs alg fuel objects options fs = (Ok tt, fs') /\
    fs_wf fs' /\ packed_in alg fs' entries' /\ NoDup entries'.*2 /\
    (forall parts name t, ref_name_of parts name -> (read_ref alg name fs').1 = Ok t <-> (read_ref alg name fs).1 = Ok t) /\
    (opt_all options = true -> forall parts name id, ref_name_of parts name ->
       is_file (fs !! (bstr "refs" :: parts)) = true -> read_ref alg name fs = (Ok (Direct id), fs) ->
       packed_find entries' name = Some id /\ (opt_prune options = true -> fs' !! (bstr "refs" :: parts) = None)).
Proof.
  intros Hok Hlock Hclear Hpeel.
  destruct (pack_refs_run alg fuel objects fs entries Hok Hpeel options Hlock)
    as (refs0 & refs & prune_names & fs1 & fs2 & E & K & Hg0 & Hall & Hp1 & Hq1 & Hwf2 & Hq2).
  assert (Hpath : forall parts name, ref_name_of parts name -> bstr "refs" :: parts ∈ map ref_path prune_names <-> name ∈ prune_names).
  { intros parts name Hn. change (map ref_path prune_names) with (ref_path <$> prune_names). rewrite list_elem_of_fmap. split.
    - intros (name' & Ep & Hin). destruct (pk_pruned _ _ _ _ _ K name' Hin) as ((parts' & Hn' & _) & _).
      unfold ref_path in Ep. rewrite (ref_name_path _ _ Hn') in Ep. injection Ep as ->.
      destruct Hn as (-> & _), Hn' as (E' & _). by rewrite <- E'.
    - intros Hin. exists name. split; [|done]. unfold ref_path. by rewrite (ref_name_path _ _ Hn). }
  assert (Hp2 : packed_in alg fs2 (map swap_ref refs)).
  { unfold packed_in. rewrite Hq2, decide_False; [exact Hp1|]. intros [_ (name & Ep & Hin)%list_elem_of_fmap].
    destruct (pk_pruned _ _ _ _ _ K name Hin) as ((parts & Hn & _) & _). unfold ref_path in Ep. by rewrite (ref_name_path _ _ Hn) in Ep. }
  exists fs2, (map swap_ref refs). split; [done|]. split; [done|]. split; [done|].
  split; [apply map_keys_NoDup, K|]. split.
  - eapply packed_same; try done.
    + intros parts name Hn. rewrite Hq2. destruct (decide _) as [Hd|Hd]; [right|left; by apply Hq1].
      split; [apply (Hpath parts name Hn), Hd|done].
    + intros q Hne. rewrite Hq2. destruct (decide _); [done|]. by rewrite Hq1.
  - intros Ha parts name id Hn Hf Hr. assert (Hin : name ∈ prune_names) by (apply (Hall Ha name id); [by exists parts|done]).
    destruct (pk_pruned _ _ _ _ _ K name Hin) as (_ & id' & Hr' & Hid). split.
    + rewrite (packed_find_map _ _ (pk_sorted _ _ _ _ _ K)), Hid. congruence.
    + intros Hprune. rewrite Hq2, decide_True; [done|]. split; [done|]. by apply (Hpath parts name).
Qed.

(** Packing prunes loose files and leaves their directories, and a directory, empty or not, is in the way of a reference of
    its name: once every reference below it is packed and pruned, that name still cannot be written. *)
Theorem pack_leaves_directories `{DirOrderLaws, HexCrateLaws, GitObjectStore St} alg fuel (objects : St) options fs entries parts name t :
  store_ok alg fs entries -> fs !! [bstr "packed-refs.lock"] = None ->
  (forall name id, packed_find entries name = Some id \/ read_ref alg name fs = (Ok (Direct id), fs) ->
     exists peeled, peel_tag_ref fuel objects id = Ok peeled) ->
  ref_name_of parts name -> target_ok alg t -> fs !! (bstr "refs" :: parts) = Some FDir -> fs !! lock_path (bstr "refs" :: parts) = None ->
  exists fs', pack_refs alg fuel objects options fs = (Ok tt, fs') /\ fs' !! (bstr "refs" :: parts) = Some FDir /\
    write_target alg name t fs' = (fail OtherKind "is a directory", fs').
Proof.
  intros Hok Hlock Hpeel Hn Ht Hdir Hfree.
  destruct (pack_refs_run alg fuel objects fs entries Hok Hpeel options Hlock)
    as (refs0 & refs & prune_names & fs1 & fs2 & E & K & _ & _ & _ & Hq1 & Hwf2 & Hq2).
  pose proof Hn as (_ & Hne & _). destruct (name_snoc parts Hne) as (d & x & Ep).
  assert (Hd2 : fs2 !! (bstr "refs" :: parts) = Some FDir).
  { rewrite Hq2, decide_False; [by rewrite Hq1 by (by destruct parts)|]. intros [_ (name' & Epath & Hin)%list_elem_of_fmap].
    destruct (pk_pruned _ _ _ _ _ K name' Hin) as ((parts' & Hn' & Hf) & _). unfold ref_path in Epath.
    rewrite (ref_name_path _ _ Hn') in Epath. rewrite <- Epath in Hf. by rewrite Hdir in Hf. }
  exists fs2. split; [done|]. split; [done|]. rewrite (write_target_eq alg _ parts) by done. unfold lock_path in Hfree.
  rewrite Ep in *. rewrite push_suffix_snoc in Hfree. apply atomic_write_directory; [done|done|].
  rewrite Hq2. destruct (decide _); [done|]. rewrite Hq1; [done|]. by destruct d.
Qed.

(** ** Witnesses *)

#[local] Existing Instances sample_hex sample_hex_laws sample_order sample_order_laws.

(** A repository that has none of the objects. *)
#[local] Instance no_objects : GitObjectStore unit := {
  read_object _ _ := fail NotFound "object not found";
  object_kind_hint _ _ := Ok None;
  object_id_capacity_hint _ := Ok 0
}.

Lemma pack_refs_spec_witness : exists fs' entries',
  pack_refs Sha1 1 tt (MkPackRefsOptions true true) sample_refs = (Ok tt, fs') /\ packed_in Sha1 fs' entries' /\
  packed_find entries' (bstr "refs/heads/main") = Some (sample_id Sha1 1) /\
  fs' !! [bstr "refs"; bstr "heads"; bstr "main"] = None.
Proof.
  destruct (pack_refs_spec Sha1 1 tt (MkPackRefsOptions true true) sample_refs sample_entries sample_refs_ok)
    as (fs' & entries' & E & _ & Hp & _ & _ & Hall).
  - vm_compute. reflexivity.
  - intros parts name Hn Hin. by apply sample_clear with (name := name).
  - intros name i _. exists None. reflexivity.
  - destruct (Hall eq_refl main_parts (bstr "refs/heads/main") (sample_id Sha1 1) main_name) as [Hf Hgone].
    + vm_compute. reflexivity.
    + destruct (loose_name_reads Sha1 sample_refs sample_entries sample_refs_ok (bstr "refs/heads/main")) as (t & Er & _).
      { exists main_parts. split; [exact main_name|vm_compute; reflexivity]. }
      pose proof sample_main_reads as Em. change (join_with _ _) with (bstr "refs/heads/main") in Em. rewrite Er in Em. cbn [fst] in Em.
      injection Em as ->. exact Er.
    + exists fs', entries'. split; [exact E|]. split; [exact Hp|]. split; [exact Hf|]. by apply Hgone.
Defined.

Lemma pack_leaves_directories_witness : exists fs',
  pack_refs Sha1 1 tt (MkPackRefsOptions true true) sample_refs = (Ok tt, fs') /\
  write_ref Sha1 (bstr "refs/heads") (sample_id Sha1 4) fs' = (fail OtherKind "is a directory", fs').
Proof.
  destruct (pack_leaves_directories Sha1 1 tt (MkPackRefsOptions true true) sample_refs sample_entries [bstr "heads"] (bstr "refs/heads")
    (Direct (sample_id Sha1 4)) sample_refs_ok) as (fs' & E & _ & Ew).
  - vm_compute. reflexivity.
  - intros name i _. exists None. reflexivity.
  - apply sample_name. vm_compute. reflexivity.
  - split; [apply sample_id_wf|reflexivity].
  - vm_compute. reflexivity.
  - vm_compute. reflexivity.
  - exists fs'. split; [exact E|exact Ew].
Defined.
