(* ===== verification/RefSafe.v ===== *)
(** * References: what every call leaves behind, failing or not *)
From S2P Require Import Prelude Order Object Text Tag Index Store Reader FileSystem RefNames Refs RefSpec RefStore RefList RefPack.

(** ** Calls on files *)

Lemma make_dirs_any rest : forall dn fs fs' r, fs_wf fs -> fs !! dn = Some FDir -> make_dirs dn rest fs = (r, fs') ->
  fs_wf fs' /\ (forall q, fs' !! q = fs !! q \/ (q `prefix_of` dn ++ rest /\ fs' !! q = Some FDir)) /\
  (r = Ok tt -> fs' !! (dn ++ rest) = Some FDir).
Proof.
  induction rest as [|x rest IH]; intros dn fs fs' r Hwf Hd E; cbn [make_dirs] in E.
  { injection E as <- <-. split; [done|]. split; [by left|]. intros _. by rewrite app_nil_r. }
  replace (dn ++ x :: rest) with ((dn ++ [x]) ++ rest) by (by rewrite <- app_assoc).
  destruct (fs !! (dn ++ [x])) as [[content|]|] eqn:Ex.
  - injection E as <- <-. split; [done|]. split; [by left|done].
  - by apply (IH (dn ++ [x])).
  - destruct (IH (dn ++ [x]) (<[dn ++ [x] := FDir]> fs) fs' r) as (Hwf' & Hq & Hr); [by apply wf_insert_dir|apply lookup_insert_eq|done|].
    split; [done|]. split; [|done]. intros q. destruct (Hq q) as [Eq|?]; [|by right].
    destruct (decide (dn ++ [x] = q)) as [<-|Hne]; [right|left; by rewrite Eq, lookup_insert_ne].
    split; [by exists rest|]. by rewrite Eq, lookup_insert_eq.
Qed.

Lemma or_remove_Err {A : Type} (lock : path) (m : rd Fs A) fs e fs1 : m fs = (Err e, fs1) -> or_remove lock m fs = (Err e, (remove_file lock fs1).2).
Proof. intros E. unfold or_remove. by rewrite E. Qed.

(** Removing a file, or failing to. *)
Lemma remove_file_any p fs : fs_wf fs -> fs_wf (remove_file p fs).2 /\
  forall q, (remove_file p fs).2 !! q = fs !! q \/ (q = p /\ is_file (fs !! p) = true /\ (remove_file p fs).2 !! q = None).
Proof.
  intros Hwf. unfold remove_file. destruct (fs !! p) as [[content|]|] eqn:E; cbn [snd]; [|by split; [|left]..].
  split; [by eapply wf_delete_file|]. intros q. destruct (decide (p = q)) as [<-|Hne]; [right; by rewrite lookup_delete_eq|left; by apply lookup_delete_ne].
Qed.

Section atomic.
Context (d : path) (x : bytes) (bs : bytes).

#[local] Abbreviation target := (d ++ [x]).
#[local] Abbreviation lock := (d ++ [x ++ bstr ".lock"]).

Lemma write_lock_any fs fs' r : fs_wf fs -> fs !! d = Some FDir ->
  (_ <~ or_remove lock (write_lock_file lock bs); or_remove lock (replace_with_lock lock target)) fs = (r, fs') ->
  fs_wf fs' /\ forall q, fs' !! q = fs !! q \/ (q = lock /\ fs' !! q = None) \/ (q = target /\ fs' !! q = Some (FFile bs)).
Proof.
  intros Hwf Hd. unfold rbind. destruct (fs !! lock) as [node|] eqn:El.
  - assert (E1 : write_lock_file lock bs fs = (fail AlreadyExists "file exists", fs)) by (unfold write_lock_file, rbind, create_new; by rewrite El).
    rewrite (or_remove_Err _ _ _ _ _ E1). intros [= <- <-]. destruct (remove_file_any lock fs Hwf) as [Hwf' Hq]. split; [done|].
    intros q. destruct (Hq q) as [->|(-> & _ & ?)]; [by left|right; by left].
  - set (fs1 := <[lock := FFile bs]> fs).
    assert (E1 : or_remove lock (write_lock_file lock bs) fs = (Ok tt, fs1)).
    { unfold or_remove, write_lock_file, create_new, append_file, rbind. rewrite El, parent_snoc, Hd.
      rewrite lookup_insert_eq. cbn [app]. by rewrite insert_insert_eq. }
    rewrite E1. unfold or_remove, replace_with_lock, rename.
    assert (Hl1 : fs1 !! lock = Some (FFile bs)) by apply lookup_insert_eq.
    assert (Hback : delete lock fs1 = fs) by (apply delete_insert_id; done).
    rewrite Hl1. assert (Et : fs1 !! target = fs !! target) by (unfold fs1; rewrite lookup_insert_ne by apply lock_neq; done).
    destruct (decide (fs !! target = Some FDir)) as [Ed|Ed].
    + rewrite Et, Ed. cbn [fail]. unfold remove_file. rewrite Hl1. cbn [snd]. intros [= <- <-]. rewrite Hback. split; [done|]. by left.
    + rewrite Et, Hback. intros E. assert (fs' = <[target := FFile bs]> fs) as ->.
      { destruct (fs !! target) as [[?|]|]; [by injection E|done|by injection E]. }
      split; [by apply wf_insert_file|]. intros q. destruct (decide (target = q)) as [<-|Hne].
      * right. right. by rewrite lookup_insert_eq.
      * left. by rewrite lookup_insert_ne.
Qed.

(** Whatever the outcome: directories may have been made, a lock may have gone, and the file may have the bytes. *)
Lemma atomic_write_any fs fs' r : fs_wf fs -> atomic_write target bs fs = (r, fs') ->
  fs_wf fs' /\ forall q, fs' !! q = fs !! q \/ (q `prefix_of` d /\ fs' !! q = Some FDir) \/
    (q = lock /\ fs' !! q = None) \/ (q = target /\ fs' !! q = Some (FFile bs)).
Proof.
  intros Hwf. destruct (create_dir_all d fs) as [r1 fs1] eqn:E1.
  destruct (make_dirs_any d [] fs fs1 r1 Hwf (wf_root fs Hwf) E1) as (Hwf1 & Hq1 & Hd1). cbn [app] in *.
  assert (Hfail : forall r', (r', fs1) = (r, fs') -> fs_wf fs' /\ forall q, fs' !! q = fs !! q \/ (q `prefix_of` d /\ fs' !! q = Some FDir) \/
    (q = lock /\ fs' !! q = None) \/ (q = target /\ fs' !! q = Some (FFile bs))).
  { intros r' [= _ <-]. split; [done|]. intros q. destruct (Hq1 q); [by left|right; by left]. }
  destruct r1 as [[]|e| |]; [|unfold atomic_write; rewrite parent_snoc; unfold rbind; rewrite E1; by apply Hfail..].
  rewrite (atomic_write_eq _ _ _ _ _ E1). intros E. destruct (write_lock_any fs1 fs' r Hwf1 (Hd1 eq_refl) E) as [Hwf' Hq]. split; [done|].
  intros q. destruct (Hq q) as [Eq|[?|?]]; [rewrite Eq; destruct (Hq1 q); tauto|tauto..].
Qed.
End atomic.

Lemma or_absent_state {A : Type} (m : rd Fs A) fs : (or_absent m fs).2 = (m fs).2.
Proof. unfold or_absent. by destruct (m fs) as [[]]. Qed.

(** Directories may have gone. *)
Lemma prune_loop_any rdir : forall fs fs' r, fs_wf fs -> prune_loop rdir fs = (r, fs') ->
  fs_wf fs' /\ forall q, fs' !! q = fs !! q \/ (fs !! q = Some FDir /\ fs' !! q = None).
Proof.
  induction rdir as [|x rparent IH]; intros fs fs' r Hwf E; cbn [prune_loop] in E.
  { injection E as _ <-. split; [done|]. by left. }
  destruct (_ || _); [injection E as _ <-; split; [done|by left]|].
  unfold remove_dir in E. destruct (fs !! rev (x :: rparent)) as [[content|]|] eqn:Ed.
  - injection E as _ <-. split; [done|by left].
  - case_bool_decide as Hc; [|injection E as _ <-; split; [done|by left]].
    destruct (IH (delete (rev (x :: rparent)) fs) fs' r) as [Hwf' Hq]; [|done|].
    { apply wf_delete; [done|cbn [rev]; by destruct (rev rparent)|]. by apply no_children. }
    split; [done|]. intros q. destruct (decide (rev (x :: rparent) = q)) as [<-|Hne].
    + right. split; [done|]. destruct (Hq (rev (x :: rparent))) as [->|[_ ?]]; [apply lookup_delete_eq|done].
    + destruct (Hq q) as [->|[Hf ?]]; [left; by apply lookup_delete_ne|right]. by rewrite lookup_delete_ne in Hf.
  - unfold missing in E. destruct (under_file _ _); cbn [fail err_kind] in E; [injection E as _ <-; split; [done|by left]|by eapply IH].
Qed.

Lemma prune_names_loop_any names : forall fs fs' r, fs_wf fs -> prune_names_loop names fs = (r, fs') ->
  fs_wf fs' /\ forall q, fs' !! q = fs !! q \/ (fs' !! q = None /\ q ∈ map ref_path names).
Proof.
  induction names as [|name names IH]; intros fs fs' r Hwf E; cbn [prune_names_loop] in E.
  { injection E as _ <-. split; [done|]. by left. }
  destruct (remove_file_any (ref_path name) fs Hwf) as [Hwf1 Hq1]. rewrite <- or_absent_state in Hwf1.
  unfold rbind in E. destruct (or_absent (remove_file (ref_path name)) fs) as [r1 fs1] eqn:E1. cbn [snd] in Hwf1.
  assert (Hq1' : forall q, fs1 !! q = fs !! q \/ (fs1 !! q = None /\ q ∈ map ref_path (name :: names))).
  { assert (fs1 = (remove_file (ref_path name) fs).2) as -> by (rewrite <- or_absent_state, E1; done).
    intros q. destruct (Hq1 q) as [->|(-> & _ & ?)]; [by left|right]. split; [done|by left]. }
  destruct r1 as [o|e| |]; [|injection E as _ <-; by split..].
  destruct (IH fs1 fs' r Hwf1 E) as [Hwf' Hq]. split; [done|]. intros q. destruct (Hq q) as [->|[? ?]]; [apply Hq1'|right; split; [done|by right]].
Qed.

(** ** Changes that keep a store well formed *)

Section changes.
Context (alg : GitHashAlgorithm).

(** What may stand at a path. *)
Definition allowed (q : path) (node : FsNode) : Prop :=
  (q = refs_root -> node = FDir) /\
  forall p x, q = bstr "refs" :: p ++ [x] -> utf8_valid x = true /\
    forall content, node = FFile content -> ends_with (bstr ".lock") x = false ->
      ref_name_of (p ++ [x]) (ref_name_text (p ++ [x])) /\ utf8_valid content = true /\
      exists t, parse_ref_target alg (trim_end_byte nl content) = Ok t.

Definition changes_ok (fs fs' : Fs) : Prop := forall q,
  fs' !! q = fs !! q \/ (q <> packed_refs_path /\ forall node, fs' !! q = Some node -> allowed q node).

#[export] Instance changes_preorder : PreOrder changes_ok.
Proof.
  split; [intros fs q; by left|]. intros fs1 fs2 fs3 H1 H2 q. destruct (H2 q) as [E|?]; [|by right].
  destruct (H1 q) as [?|[? Ha]]; [left; congruence|right]. split; [done|]. by rewrite E.
Qed.

Lemma store_ok_packed (fs fs' : Fs) entries entries' : store_ok alg fs entries -> fs_wf fs' ->
  (forall q, q <> packed_refs_path -> fs' !! q = fs !! q \/ forall node, fs' !! q = Some node -> allowed q node) ->
  packed_in alg fs' entries' -> NoDup entries'.*2 -> store_ok alg fs' entries'.
Proof.
  intros [_ _ _ [L1 L2] Hroot] Hwf' Hc Hp Hnd. split; [done|done|done| |].
  - split.
    + intros p x node E. destruct (Hc (bstr "refs" :: p ++ [x])) as [Eq|Ha]; [done|rewrite Eq in E; by eapply L1|].
      by destruct (Ha node E) as [_ Hx]; destruct (Hx p x eq_refl).
    + intros p x content E Hl. destruct (Hc (bstr "refs" :: p ++ [x])) as [Eq|Ha]; [done|rewrite Eq in E; by apply (L2 p x content)|].
      destruct (Ha _ E) as [_ Hx]. destruct (Hx p x eq_refl) as [_ Hf]. by apply (Hf content).
  - destruct (Hc refs_root) as [->|Ha]; [done|done|]. destruct (fs' !! refs_root) as [node|]; [|done].
    by destruct (Ha node eq_refl) as [-> _].
Qed.

Lemma store_ok_changes (fs fs' : Fs) entries : store_ok alg fs entries -> fs_wf fs' -> changes_ok fs fs' -> store_ok alg fs' entries.
Proof.
  intros Hok Hwf' Hc. eapply store_ok_packed; [done|done| | |apply Hok].
  - intros q _. destruct (Hc q) as [?|[_ ?]]; tauto.
  - pose proof (so_packed _ _ _ Hok) as Hp. unfold packed_in in *. by destruct (Hc packed_refs_path) as [->|[? _]].
Qed.

Lemma gone_ok (fs fs' : Fs) q : q <> packed_refs_path -> fs' !! q = None ->
  fs' !! q = fs !! q \/ (q <> packed_refs_path /\ forall node, fs' !! q = Some node -> allowed q node).
Proof. intros Hq E. right. split; [done|]. by rewrite E. Qed.

(** Where nothing is said. *)
Lemma allowed_elsewhere q node : head q <> Some (bstr "refs") -> allowed q node.
Proof. intros Hq. split; [by intros ->|]. by intros p x ->. Qed.

Lemma atomic_keeps d x bs fs entries : store_ok alg fs entries -> d ++ [x] <> packed_refs_path -> d ++ [x ++ bstr ".lock"] <> packed_refs_path ->
  ~ packed_refs_path `prefix_of` d -> (forall q, q `prefix_of` d -> allowed q FDir) -> allowed (d ++ [x]) (FFile bs) ->
  store_ok alg (atomic_write (d ++ [x]) bs fs).2 entries.
Proof.
  intros Hok Ht Hl Hnp Hd Hf. destruct (atomic_write (d ++ [x]) bs fs) as [r fs'] eqn:E.
  destruct (atomic_write_any d x bs fs fs' r (so_wf _ _ _ Hok) E) as [Hwf' Hq]. cbn [snd].
  eapply store_ok_changes; [done..|]. intros q. destruct (Hq q) as [?|[[Hpre Eq]|[[-> Eq]|[-> Eq]]]]; [by left|..].
  - right. split; [by intros ->|]. rewrite Eq. intros node [= <-]. by apply Hd.
  - by apply gone_ok.
  - right. split; [done|]. rewrite Eq. by intros node [= <-].
Qed.

Lemma atomic_head_keeps bs fs entries : store_ok alg fs entries -> store_ok alg (atomic_write head_path bs fs).2 entries.
Proof.
  intros Hok. apply (atomic_keeps [] (bstr "HEAD")); try done.
  - by intros ?%prefix_nil_inv.
  - intros q ->%prefix_nil_inv. by apply allowed_elsewhere.
Qed.

Lemma name_parts_utf8 parts name : ref_name_of parts name -> utf8_valid name = true -> Forall (fun p => utf8_valid p = true) parts.
Proof. intros (-> & _) Hu. apply utf8_pieces in Hu; [|done]. by apply Forall_cons in Hu as [_ ?]. Qed.

Lemma atomic_ref_keeps parts name bs fs entries : store_ok alg fs entries -> ref_name_of parts name -> utf8_valid name = true ->
  utf8_valid bs = true -> (exists t, parse_ref_target alg (trim_end_byte nl bs) = Ok t) ->
  store_ok alg (atomic_write (ref_path name) bs fs).2 entries.
Proof.
  intros Hok Hn Hu Hbs Ht. pose proof (name_parts_utf8 _ _ Hn Hu) as Hparts. pose proof Hn as (_ & Hne & _). unfold ref_path. rewrite (ref_name_path _ _ Hn).
  destruct (exists_last Hne) as (d & x & E). rewrite E. change (bstr "refs" :: d ++ [x]) with ((bstr "refs" :: d) ++ [x]).
  rewrite Forall_forall in Hparts. apply atomic_keeps; [done|by destruct d|by destruct d|by apply not_top_prefix| |].
  - intros q [k Hk]. split; [done|]. intros p y ->. split; [|done]. apply Hparts. rewrite E. injection Hk as Hk. rewrite Hk.
    apply elem_of_app. left. apply elem_of_app. left. apply elem_of_app. right. by left.
  - split; [by destruct d|]. intros p y Hy. cbn [app] in Hy. injection Hy as Hy. apply app_inj_tail in Hy as [<- <-].
    split; [apply Hparts; rewrite E; apply elem_of_app; right; by left|]. intros content [= <-] _. rewrite <- E. split; [|done].
    pose proof Hn as (E' & _). by rewrite E' in Hn.
Qed.

Context `{HexCrateLaws}.

(** Texts of the code are UTF-8, and its ids have the length of their algorithm. *)
Definition target_typed (t : RefTarget) : Prop :=
  match t with Direct id => ObjectId_wf id | Symbolic target => utf8_valid target = true end.

Lemma symbolic_text_ok target parts : ref_name_of parts target -> utf8_valid target = true ->
  utf8_valid (symbolic_text target) = true /\ exists t, parse_ref_target alg (trim_end_byte nl (symbolic_text target)) = Ok t.
Proof.
  intros Hn Hu. assert (Ht : target_ok alg (Symbolic target)) by (split; [by exists parts|done]).
  split; [by apply (target_text_utf8 alg _ Ht)|]. eexists. by apply (target_text_reads alg _ Ht).
Qed.

Lemma write_keeps name t fs entries : store_ok alg fs entries -> utf8_valid name = true -> target_typed t ->
  store_ok alg (write_target alg name t fs).2 entries.
Proof.
  intros Hok Hu Ht. destruct t as [id|target]; cbn [write_target target_typed] in *.
  - unfold write_ref. destruct (validate_ref_name name) as [[]|e| |] eqn:Ev; try done.
    change (rbind (rlift (Ok ?a)) ?f ?y) with (f a y). cbv beta. unfold check_ref_algorithm, check.
    destruct (decide (algorithm id = alg)) as [Ha|Ha]; [|by rewrite (bool_decide_false _ Ha)]. rewrite (bool_decide_true _ Ha). cbn [negb].
    change (rbind (rlift (Ok ?a)) ?f ?y) with (f a y). cbv beta. apply validate_ref_name_Ok in Ev as (parts & Hn).
    apply (atomic_ref_keeps parts); try done; [by apply (target_text_utf8 alg (Direct id))|]. eexists. by apply (target_text_reads alg (Direct id)).
  - unfold write_symbolic_ref. case_bool_decide.
    + unfold write_head_symbolic. destruct (validate_ref_name target) as [[]|e| |] eqn:Ev; try done.
      change (rbind (rlift (Ok ?a)) ?f ?y) with (f a y). cbv beta. by apply atomic_head_keeps.
    + destruct (validate_ref_name name) as [[]|e| |] eqn:Ev; try done. destruct (validate_ref_name target) as [[]|e| |] eqn:Ev2; try done.
      change (rbind (rlift (Ok ?a)) ?f ?y) with (f a y). cbv beta. change (rbind (rlift (Ok ?a)) ?f ?y) with (f a y). cbv beta.
      apply validate_ref_name_Ok in Ev as (parts & Hn). apply validate_ref_name_Ok in Ev2 as (parts2 & Hn2).
      destruct (symbolic_text_ok target parts2 Hn2 Ht). by apply (atomic_ref_keeps parts).
Qed.

Lemma others_NoDup name (entries : list (ObjectId * bytes)) : NoDup entries.*2 -> NoDup (other_entries name entries).*2.
Proof.
  intros Hnd. induction entries as [|[i n] entries IH]; [done|]. cbn [fmap list_fmap map snd] in Hnd. apply NoDup_cons in Hnd as [Hn Hnd].
  specialize (IH Hnd). unfold other_entries in *. rewrite filter_cons. destruct (decide _); [|done].
  cbn [fmap list_fmap map snd]. constructor; [|done]. intros (e & -> & [_ Hin]%list_elem_of_filter)%list_elem_of_fmap.
  by apply Hn, list_elem_of_fmap_2.
Qed.

Lemma delete_packed_any name fs entries : store_ok alg fs entries ->
  exists entries', store_ok alg (delete_packed_ref alg name fs).2 entries'.
Proof.
  intros Hok. pose proof Hok as [Hwf Hp Hnd _ _]. destruct (fs !! packed_refs_lock_path) as [node|] eqn:El.
  - assert (Hlock : store_ok alg (remove_file packed_refs_lock_path fs).2 entries).
    { destruct (remove_file_any packed_refs_lock_path fs Hwf) as [Hwf' Hq]. eapply store_ok_changes; [done..|]. intros q.
      destruct (Hq q) as [->|(-> & _ & E)]; [by left|]. by apply gone_ok. }
    exists entries. unfold packed_in in Hp. destruct (fs !! packed_refs_path) as [[content|]|] eqn:Ep; [|done|].
    + destruct Hp as (lines & Econtent & Hl & Ee). rewrite (delete_packed_ref_eq alg fs content lines entries name) by done.
      case_bool_decide; [|done]. unfold rbind at 1.
      assert (E1 : write_packed_refs_without_ref alg content packed_refs_lock_path name fs = (fail AlreadyExists "file exists", fs))
        by (unfold write_packed_refs_without_ref, rbind, create_new; by rewrite El).
      by rewrite (or_remove_Err _ _ _ _ _ E1).
    + assert (Er : or_absent (fs_read packed_refs_path) fs = (Ok None, fs)).
      { unfold or_absent, fs_read. rewrite Ep. unfold packed_refs_path. by rewrite missing_top. }
      unfold delete_packed_ref. by rewrite (rbind_Ok _ _ _ _ _ Er).
  - destruct (delete_packed_ref_spec alg fs entries name Hwf Hp El) as (fs' & E & Hwf' & Hp' & Hq & _).
    rewrite E. cbn [snd]. exists (other_entries name entries). eapply store_ok_packed; [done|done| |done|].
    + intros q Hne. left. by apply Hq.
    + by apply others_NoDup.
Qed.

Lemma delete_keeps name fs entries : store_ok alg fs entries -> exists entries', store_ok alg (delete_ref alg name fs).2 entries'.
Proof.
  intros Hok. unfold delete_ref. destruct (validate_ref_name name) as [[]|e| |] eqn:Ev; try by exists entries.
  change (rbind (rlift (Ok ?a)) ?f ?y) with (f a y). cbv beta. apply validate_ref_name_Ok in Ev as (parts & Hn).
  assert (Hpath : ref_path name <> packed_refs_path) by (unfold ref_path; rewrite (ref_name_path _ _ Hn); by destruct parts).
  destruct (remove_file_any (ref_path name) fs (so_wf _ _ _ Hok)) as [Hwf1 Hq1]. rewrite <- or_absent_state in Hwf1, Hq1.
  unfold rbind at 1. destruct (or_absent (remove_file (ref_path name)) fs) as [r1 fs1] eqn:E1. cbn [snd] in *.
  assert (Hok1 : store_ok alg fs1 entries).
  { eapply store_ok_changes; [done..|]. intros q. destruct (Hq1 q) as [->|(-> & _ & E)]; [by left|]. by apply gone_ok. }
  destruct r1 as [removed|e| |]; try by exists entries.
  destruct ((match removed with Some _ => prune_empty_ref_parent_dirs (ref_path name) | None => rret tt end) fs1) as [r2 fs2] eqn:E2.
  assert (Hok2 : store_ok alg fs2 entries).
  { destruct removed; [|by injection E2 as _ <-]. unfold prune_empty_ref_parent_dirs in E2. destruct (parent _); [|by injection E2 as _ <-].
    destruct (prune_loop_any _ _ _ _ (so_wf _ _ _ Hok1) E2) as [Hwf2 Hq2]. eapply store_ok_changes; [exact Hok1|done|]. intros q.
    destruct (Hq2 q) as [->|[Hd E]]; [by left|]. apply gone_ok; [|done]. intros ->. pose proof (so_packed _ _ _ Hok1) as Hp.
    unfold packed_in in Hp. by rewrite Hd in Hp. }
  unfold rbind at 1. rewrite E2. destruct r2 as [[]|e| |]; try by exists entries.
  destruct (delete_packed_any name fs2 entries Hok2) as [entries' Hok3]. exists entries'. unfold rbind.
  destruct (delete_packed_ref alg name fs2) as [r3 fs3]. destruct r3 as [packed|e| |]; try done. by destruct (_ || packed).
Qed.

Context `{DirOrderLaws, GitObjectStore St} (fuel : nat) (objects : St).

Lemma packed_text_loop_peels refs : forall out text, packed_text_loop fuel objects refs out = Ok text ->
  Forall (fun ref => exists peeled, peel_tag_ref fuel objects ref.2 = Ok peeled) refs.
Proof.
  induction refs as [|[name id] refs IH]; intros out text E; cbn [packed_text_loop] in E; [constructor|].
  apply bind_Ok_inv in E as (peeled & Ep & E). constructor; [by exists peeled|by eapply IH].
Qed.

(** The new packed references, written or not. *)
Lemma write_packed_any fs entries content refs : store_ok alg fs entries -> packed_wf alg content (map swap_ref refs) ->
  bt_sorted cmp_bytes refs -> exists entries', store_ok alg (atomic_write packed_refs_path content fs).2 entries'.
Proof.
  intros Hok Hc Hs. destruct (atomic_write packed_refs_path content fs) as [r fs'] eqn:E. pose proof Hok as [Hwf Hp Hnd _ _].
  destruct (atomic_write_any [] (bstr "packed-refs") content fs fs' r Hwf E) as [Hwf' Hq]. cbn [app snd] in *.
  assert (Hrest : forall q, q <> packed_refs_path -> fs' !! q = fs !! q \/ forall node, fs' !! q = Some node -> allowed q node).
  { intros q Hne. destruct (Hq q) as [?|[[->%prefix_nil_inv _]|[[-> ->]|[? _]]]]; [by left|right|by right|done].
    intros node _. by apply allowed_elsewhere. }
  destruct (Hq packed_refs_path) as [Eq|[[Hpre _]|[[? _]|[_ Eq]]]]; [|by apply prefix_nil_inv in Hpre|done|].
  - exists entries. eapply store_ok_packed; [done..| |done]. unfold packed_in in *. by rewrite Eq.
  - exists (map swap_ref refs). eapply store_ok_packed; [done..| |by apply map_keys_NoDup]. unfold packed_in. by rewrite Eq.
Qed.

Lemma pack_keeps options fs entries : store_ok alg fs entries ->
  exists entries', store_ok alg (pack_refs alg fuel objects options fs).2 entries'.
Proof.
  intros Hok. pose proof Hok as [Hwf Hp Hnd _ _].
  destruct (read_packed_refs_eq alg fs entries Hwf Hp Hnd) as (refs0 & E0 & Hs0 & Hg0).
  destruct (loose_names_eq alg fs entries Hok) as (names & En & Hndn & Hnames).
  assert (Hln : Forall (loose_name fs) names) by (apply Forall_forall; intros name; apply Hnames).
  destruct (pack_refs_loop_spec alg fs entries Hok (opt_all options) (map fst refs0) refs0 names Hln refs0 [] Hndn)
    as (refs & prune_names & El & _ & K & _); [by eapply packing_start|].
  unfold pack_refs. rewrite (rbind_Ok _ _ _ _ _ E0). cbv zeta. rewrite (rbind_Ok _ _ _ _ _ En), (rbind_Ok _ _ _ _ _ El).
  change (bstr "# pack-refs with: peeled fully-peeled sorted " ++ [nl]) with (pack_header ++ [nl]).
  destruct (packed_text_loop fuel objects refs (pack_header ++ [nl])) as [content|e| |] eqn:Et; try by exists entries.
  change (rbind (rlift (Ok ?a)) ?f ?y) with (f a y). cbv beta.
  destruct (packed_text_loop_lines alg fuel objects refs (pk_packable _ _ _ _ _ K) (packed_text_loop_peels _ _ _ Et) (pack_header ++ [nl]))
    as (lines & Et' & Hl & Ee). rewrite Et in Et'. injection Et' as Econtent.
  pose proof (packed_header_text alg lines content refs Hl Ee Econtent) as Hc.
  destruct (write_packed_any fs entries content refs Hok Hc (pk_sorted _ _ _ _ _ K)) as [entries' Hok1].
  exists entries'. unfold rbind. destruct (atomic_write packed_refs_path content fs) as [r1 fs1]. cbn [snd] in Hok1.
  destruct r1 as [[]|e| |]; try done. destruct (opt_prune options); [|done].
  destruct (prune_names_loop prune_names fs1) as [r2 fs2] eqn:E2. destruct (prune_names_loop_any _ _ _ _ (so_wf _ _ _ Hok1) E2) as [Hwf2 Hq2].
  eapply store_ok_changes; [exact Hok1|done|]. intros q. destruct (Hq2 q) as [?|[E (name & -> & Hin)%list_elem_of_fmap]]; [by left|].
  apply gone_ok; [|done]. destruct (pk_pruned _ _ _ _ _ K name Hin) as ((parts & Hn & _) & _). unfold ref_path. rewrite (ref_name_path _ _ Hn).
  by destruct parts.
Qed.
End changes.

(** ** Sequences of calls *)

Inductive ref_call : Set :=
  | CallWrite (name : bytes) (t : RefTarget)
  | CallDelete (name : bytes)
  | CallPack (options : PackRefsOptions).

Definition call_typed (c : ref_call) : Prop :=
  match c with CallWrite name t => utf8_valid name = true /\ target_typed t | _ => True end.

Section calls.
Context `{HexCrateLaws, DirOrderLaws, GitObjectStore St} (alg : GitHashAlgorithm) (fuel : nat) (objects : St).

Definition run_call (c : ref_call) : rd Fs unit :=
  match c with
  | CallWrite name t => write_target alg name t
  | CallDelete name => delete_ref alg name
  | CallPack options => pack_refs alg fuel objects options
  end.

(** A caller goes on after a call that failed. *)
Inductive calls_reach (fs : Fs) : Fs -> Prop :=
  | calls_start : calls_reach fs fs
  | calls_more fs1 c : calls_reach fs fs1 -> call_typed c -> calls_reach fs (run_call c fs1).2.

(** C16: no sequence of writes, deletions and packings, with any names, whatever locks and directories are in the way and
    wherever a call fails, takes a well-formed store of references out of its invariant: the files still make a tree,
    the packed references parse with each name once, and every loose file that is not a lock has a valid name
    and reads as a reference. *)
Theorem refs_keep_store fs fs' entries : store_ok alg fs entries -> calls_reach fs fs' -> exists entries', store_ok alg fs' entries'.
Proof.
  intros Hok. induction 1 as [|fs1 c _ [entries1 Hok1] Hc]; [by exists entries|]. destruct c as [name t|name|options]; cbn [run_call].
  - exists entries1. destruct Hc. by apply write_keeps.
  - by eapply delete_keeps.
  - by eapply pack_keeps.
Qed.
End calls.

(** ** Witness *)

#[local] Existing Instances sample_hex sample_hex_laws sample_order sample_order_laws no_objects.

Lemma refs_keep_store_witness : exists fs' entries', store_ok Sha1 fs' entries' /\
  fs' = (delete_ref Sha1 (bstr "refs/heads/main") (write_ref Sha1 (bstr "refs/heads/main/x") (sample_id Sha1 4) sample_refs).2).2.
Proof.
  destruct (refs_keep_store Sha1 1 tt sample_refs
    (run_call Sha1 1 tt (CallDelete (bstr "refs/heads/main"))
      (run_call Sha1 1 tt (CallWrite (bstr "refs/heads/main/x") (Direct (sample_id Sha1 4))) sample_refs).2).2
    sample_entries sample_refs_ok) as [entries' Hok].
  - apply calls_more; [apply calls_more; [apply calls_start|]|exact I]. split; [vm_compute; reflexivity|apply sample_id_wf].
  - eexists. exists entries'. split; [exact Hok|reflexivity].
Defined.
