(* ===== verification/RefFresh.v ===== *)
(** * References: those of a fresh clone, and HEAD *)
From S2P Require Import Prelude Order Object Text Tag Index Store Reader FileSystem RefNames Refs RefSpec RefStore RefList RefPack.

(** ** The packed references of a clone *)

Section fresh.
Context `{HexCrateLaws} (alg : GitHashAlgorithm).

Lemma packed_find_app a b name :
  packed_find (a ++ b) name = match packed_find a name with Some id => Some id | None => packed_find b name end.
Proof.
  induction a as [|[id n] a IH]; [done|]. cbn [app]. rewrite !packed_find_cons, IH. by destruct (decide (n = name)).
Qed.

(** The last value given to a name. *)
Definition last_given (direct_refs : list (bytes * ObjectId)) (name : bytes) : option ObjectId :=
  packed_find (rev (map swap_ref direct_refs)) name.

Lemma last_given_cons name' id direct_refs name : last_given ((name', id) :: direct_refs) name =
  match last_given direct_refs name with Some id => Some id | None => if decide (name' = name) then Some id else None end.
Proof. unfold last_given. cbn [map rev]. rewrite packed_find_app. unfold swap_ref at 2. by rewrite packed_find_cons. Qed.

Lemma fresh_direct_loop_spec direct_refs : Forall (packable alg) direct_refs -> forall packed, bt_sorted cmp_bytes packed ->
  Forall (packable alg) packed ->
  exists m, fresh_direct_loop alg direct_refs packed = Ok m /\ bt_sorted cmp_bytes m /\ Forall (packable alg) m /\
    forall name, bt_get cmp_bytes name m = match last_given direct_refs name with Some id => Some id | None => bt_get cmp_bytes name packed end.
Proof.
  induction 1 as [|[name id] direct_refs Hk _ IH]; intros packed Hs Hp; cbn [fresh_direct_loop]; [by exists packed|].
  pose proof Hk as (Hn & _ & _ & Ha). cbn [fst snd] in *. assert (Hv : validate_ref_name name = Ok tt) by by apply validate_ref_name_Ok. rewrite Hv, bind_Ok.
  unfold check_ref_algorithm. rewrite bool_decide_true by done. cbn [negb check]. rewrite bind_Ok.
  destruct (IH (bt_insert cmp_bytes name id packed)) as (m & E & Hsm & Hpm & Hg).
  - by apply (bt_insert_sorted cmp_bytes).
  - apply bt_insert_Forall; [apply _|done|]. by intros k' ->.
  - exists m. split; [done|]. split; [done|]. split; [done|]. intros name'. rewrite Hg, last_given_cons.
    destruct (last_given direct_refs name'); [done|]. destruct (decide (name = name')) as [->|Hne].
    + apply (bt_get_insert_eq cmp_bytes).
    + by rewrite (bt_get_insert_ne cmp_bytes).
Qed.

Lemma fresh_not_empty direct_refs (m : list (bytes * ObjectId)) : direct_refs <> [] ->
  (forall name, bt_get cmp_bytes name m = match last_given direct_refs name with Some id => Some id | None => None end) -> m <> [].
Proof.
  intros Hne Hg ->. destruct direct_refs as [|[name id] direct_refs]; [done|]. specialize (Hg name). rewrite last_given_cons, decide_True in Hg by done.
  by destruct (last_given direct_refs name).
Qed.

Definition fresh_header : bytes := bstr "# pack-refs with: sorted".

Lemma fresh_text_wf refs : Forall (packable alg) refs -> packed_wf alg (fresh_text refs) (map swap_ref refs).
Proof.
  intros Hk. exists (fresh_header :: map (fun ref => ref_line ref.1 ref.2) refs). split; [|split].
  - unfold fresh_text, unlines. cbn [mbind list_bind]. rewrite <- app_assoc. f_equal. f_equal. clear Hk.
    induction refs as [|[name id] refs IH]; [done|]. cbn [mbind list_bind map fst snd]. rewrite IH. unfold packed_line, ref_line.
    f_equal. by rewrite <- app_assoc.
  - constructor; [by split|]. apply Forall_map. eapply Forall_impl; [exact Hk|]. intros [name id] ((parts & Hn) & Hu & _). by eapply ref_line_ok.
  - cbn [packed_entries]. assert (Eh : parse_packed_ref_line alg fresh_header = Ok None) by reflexivity. rewrite Eh, bind_Ok.
    assert (El : packed_entries alg (map (fun ref => ref_line ref.1 ref.2) refs) = Ok (map swap_ref refs)); [|by rewrite El, bind_Ok].
    induction Hk as [|[name id] refs ((parts & Hn) & _ & Hwf & Ha) _ IH]; [done|]. cbn [map packed_entries fst snd] in *. subst alg.
    by rewrite (ref_line_parses parts name id), bind_Ok, IH, bind_Ok.
Qed.

(** A store whose references below [refs] are another's, with new packed ones. *)
Lemma fresh_stored fs fs' entries' p name : (forall q, head q = Some (bstr "refs") -> fs' !! q = fs !! q) -> fs !! [] = Some FDir -> fs' !! [] = Some FDir ->
  fs !! (bstr "refs" :: p) = None -> under_file fs (bstr "refs" :: p) = false ->
  stored alg fs' entries' (bstr "refs" :: p) name = ok_or (Direct <$> packed_find entries' name) NotFound "ref not found".
Proof.
  intros Hq Hr Hr' Hf Hu. unfold stored. rewrite Hq, Hf by done. rewrite (under_file_agree fs fs'), Hu; [done|].
  intros q [k Hk] _. destruct q as [|y q]; [by rewrite Hr, Hr'|]. injection Hk as <- _. by rewrite Hq.
Qed.

Lemma write_head_spec fs target : fs_wf fs -> (exists parts, ref_name_of parts target) -> fs !! head_path <> Some FDir ->
  fs !! [bstr "HEAD.lock"] = None ->
  exists fs', write_head_symbolic target fs = (Ok tt, fs') /\ fs_wf fs' /\ fs' !! head_path = Some (FFile (symbolic_text target)) /\
    forall q, q <> head_path -> fs' !! q = fs !! q.
Proof.
  intros Hwf Hn Hh Hl. assert (Hv : validate_ref_name target = Ok tt) by by apply validate_ref_name_Ok. unfold write_head_symbolic. rewrite Hv.
  change (rbind (rlift (Ok ?a)) ?f ?y) with (f a y). cbv beta.
  assert (Hno : no_file_above fs []) by (intros q ->%prefix_nil_inv; by rewrite (wf_root fs Hwf)).
  destruct (atomic_write_Ok [] (bstr "HEAD") (symbolic_text target) fs Hwf Hno Hh Hl) as (fs' & E & Hwf' & Ht & Hq).
  exists fs'. split; [done|]. split; [done|]. split; [done|]. intros q Hne. rewrite Hq by done. destruct (fs !! q) eqn:Eq; [done|].
  rewrite decide_False; [done|]. intros ->%prefix_nil_inv. by rewrite (wf_root fs Hwf) in Eq.
Qed.

Lemma read_head_eq fs target : (exists parts, ref_name_of parts target) -> utf8_valid target = true ->
  fs !! head_path = Some (FFile (symbolic_text target)) -> read_head alg fs = (Ok (Symbolic target), fs).
Proof.
  intros Hn Hu Hf. assert (Ht : target_ok alg (Symbolic target)) by by split.
  unfold read_head, fs_read_to_string, rbind, fs_read, rlift, rret. rewrite Hf. pose proof (target_text_utf8 alg _ Ht) as Hu'.
  cbn [target_text] in Hu'. rewrite Hu'. cbn [negb check]. pose proof (target_text_reads alg _ Ht) as Hr. cbn [target_text] in Hr. by rewrite Hr.
Qed.

(** What a clone writes is what is read back.  After [write_fresh_packed_refs] with some direct references and
    HEAD, HEAD is the symbolic reference that was asked for; every name with no loose file reads as the value given
    last for it, and is not found when none was given; and HEAD resolves to the value of its target. *)
Theorem fresh_refs_spec fs entries direct_refs target :
  store_ok alg fs entries -> fs !! [bstr "packed-refs.lock"] = None -> fs !! [bstr "HEAD.lock"] = None -> fs !! head_path <> Some FDir ->
  direct_refs <> [] -> Forall (packable alg) direct_refs -> (exists parts, ref_name_of parts target) -> utf8_valid target = true ->
  exists fs', write_fresh_packed_refs alg direct_refs [(bstr "HEAD", target)] fs = (Ok tt, fs') /\ fs_wf fs' /\
    read_head alg fs' = (Ok (Symbolic target), fs') /\
    forall parts name, ref_name_of parts name -> fs !! (bstr "refs" :: parts) = None -> under_file fs (bstr "refs" :: parts) = false ->
      read_ref alg name fs' = (ok_or (Direct <$> last_given direct_refs name) NotFound "ref not found", fs') /\
      (name = target -> forall id, last_given direct_refs name = Some id -> resolve alg (bstr "HEAD") fs' = (Ok id, fs')).
Proof.
  intros Hok Hl1 Hl2 Hh Hne Hk Hn Hu. pose proof Hok as [Hwf _ _ _ _].
  destruct (fresh_direct_loop_spec direct_refs Hk [] ltac:(constructor) ltac:(constructor)) as (m & Em & Hs & Hm & Hg).
  destruct (write_packed_spec alg fs entries Hok (fresh_text m) m) as (fs1 & E1 & Hwf1 & Hp1 & Hq1); [by apply fresh_text_wf|done|].
  destruct (write_head_spec fs1 target Hwf1 Hn) as (fs2 & E2 & Hwf2 & Hh2 & Hq2); [by rewrite Hq1|by rewrite Hq1|].
  pose proof (read_head_eq fs2 target Hn Hu Hh2) as Er. exists fs2. split; [|split; [done|split; [done|]]].
  - unfold write_fresh_packed_refs. rewrite Em. change (rbind (rlift (Ok ?a)) ?f ?y) with (f a y). cbv beta.
    assert (Hv : validate_ref_name target = Ok tt) by by apply validate_ref_name_Ok. cbn [fresh_symbolic_check].
    rewrite bool_decide_true by done. rewrite Hv, bind_Ok. change (rbind (rlift (Ok ?a)) ?f ?y) with (f a y). cbv beta.
    rewrite bool_decide_false by (by apply (fresh_not_empty direct_refs)). rewrite (rbind_Ok _ _ _ _ _ E1). cbn [write_symbolic_refs].
    assert (Ew : write_symbolic_ref (bstr "HEAD") target fs1 = (Ok tt, fs2)) by (unfold write_symbolic_ref; by rewrite bool_decide_true).
    by rewrite (rbind_Ok _ _ _ _ _ Ew).
  - intros parts name Hname Hf Hunder. assert (Hp2 : packed_in alg fs2 (map swap_ref m)) by (unfold packed_in; by rewrite Hq2).
    assert (Eread : read_ref alg name fs2 = (ok_or (Direct <$> last_given direct_refs name) NotFound "ref not found", fs2)).
    { rewrite (read_ref_eq alg fs2 _ parts name Hwf2 Hp2 Hname). f_equal.
      rewrite (fresh_stored fs fs2); [|intros q Hq; rewrite Hq2 by (by intros ->); apply Hq1; by intros ->|apply Hwf|apply Hwf2|done|done].
      rewrite packed_find_map, Hg by done. by destruct (last_given direct_refs name). }
    split; [done|]. intros -> id Hid. unfold resolve. rewrite bool_decide_true by done. rewrite (rbind_Ok _ _ _ _ _ Er), Hid in *.
    by rewrite (rbind_Ok _ _ _ _ _ Eread).
Qed.
End fresh.

(** ** Witness *)

#[local] Existing Instances sample_hex sample_hex_laws.

Lemma fresh_refs_spec_witness : exists fs',
  write_fresh_packed_refs Sha1 [(bstr "refs/heads/dev", sample_id Sha1 4)] [(bstr "HEAD", bstr "refs/heads/dev")] sample_refs = (Ok tt, fs') /\
  resolve Sha1 (bstr "HEAD") fs' = (Ok (sample_id Sha1 4), fs').
Proof.
  destruct (fresh_refs_spec Sha1 sample_refs sample_entries [(bstr "refs/heads/dev", sample_id Sha1 4)] (bstr "refs/heads/dev") sample_refs_ok)
    as (fs' & E & _ & _ & Hr).
  - vm_compute. reflexivity.
  - vm_compute. reflexivity.
  - by_decide.
  - done.
  - constructor; [|constructor]. split; [exists dev_parts; exact dev_name|]. split; [vm_compute; reflexivity|]. split; [apply sample_id_wf|reflexivity].
  - exists dev_parts. exact dev_name.
  - vm_compute. reflexivity.
  - exists fs'. split; [exact E|].
    destruct (Hr dev_parts (bstr "refs/heads/dev") dev_name) as [_ Hh]; [vm_compute; reflexivity|vm_compute; reflexivity|].
    apply Hh; [reflexivity|vm_compute; reflexivity].
Defined.
