(* ===== verification/LooseCodec.v ===== *)
(** * Loose objects: the format of a file (zmin-git-core/src/loose.rs) *)
From S2P Require Import Prelude Digits Object Reader Zlib.

(** ** Definitions *)

Definition MAX_HEADER_LEN : nat := 128.

(** The buffer of the reading loops. *)
Definition LOOSE_BUFFER_LEN : N := 64 * 1024.

(** *** Encoding *)

(** The loop of [write_decimal_usize]: the digits from the last to the first, in an array of twenty. *)
Fixpoint usize_digits (room : nat) (value : N) : outcome bytes :=
  match room with
  | 0 => Panic
  | S room =>
      let digit := byte_of_N (48 + value mod 10) in
      let value := (value / 10)%N in
      if (value =? 0)%N then Ok [digit] else digits ← usize_digits room value; Ok (digit :: digits)
  end.

Definition write_decimal_usize (value : N) : outcome bytes :=
  digits ← usize_digits 20 value;
  Ok (rev digits).

Definition loose_object_header (kind : GitObjectKind) (size : N) : outcome bytes :=
  decimal ← write_decimal_usize size;
  Ok (kind_as_bytes kind ++ " "%byte :: decimal ++ [Byte.x00]).

Definition encode_loose_object `{ZlibEncoder} (kind : GitObjectKind) (content : bytes) : outcome bytes :=
  header ← loose_object_header kind (N.of_nat (length content));
  Ok (zlib_compress (header ++ content)).

(** *** The header *)

Fixpoint loose_size_loop (bs : bytes) (value : N) : outcome N :=
  match bs with
  | [] => Ok value
  | b :: bs =>
      _ ← check (negb ((48 <=? u8 b) && (u8 b <=? 57))%N) InvalidData "invalid git object size digit";
      value ← ok_or (checked_mulN value 10 ≫= (fun value => checked_addN value (u8 b - 48)%N)) InvalidData
                "git object size overflows usize";
      loose_size_loop bs value
  end.

Definition parse_loose_object_size (bs : bytes) : outcome N :=
  _ ← check (bool_decide (bs = [])) InvalidData "empty git object size";
  _ ← check ((1 <? length bs) && bool_decide (bs !! 0 = Some "0"%byte)) InvalidData "git object size has leading zero";
  loose_size_loop bs 0.

(** The end of the file in the header is reported as an error of the header. *)
Definition no_nul (e : io_error) : io_error :=
  match err_kind e with
  | UnexpectedEof => IoError InvalidData "git object header missing NUL"
  | _ => e
  end.

Definition parse_loose_header (header : bytes) : outcome (GitObjectKind * N) :=
  space ← ok_or (position (byte_is " "%byte) header) InvalidData "loose git object header is malformed";
  _ ← check (32 <? space) InvalidData "object type header too long";
  kind_bytes ← slice header 0 space;
  kind ← ok_or (kind_parse kind_bytes) InvalidData "invalid object type";
  size_bytes ← slice header (space + 1) (length header);
  size ← parse_loose_object_size size_bytes;
  Ok (kind, size).

Section reading.
Context `{Sha, Reader R}.

(** The loop over the bytes up to the NUL. *)
Fixpoint header_loop (fuel : nat) (header : bytes) : rd R bytes := fun r =>
  match fuel with
  | 0 => (NoFuel, r)
  | S fuel =>
      if MAX_HEADER_LEN <=? length header then (fail InvalidData "loose git object header is too large", r) else
      match read_byte r with
      | (Ok b, r) => if byte_is Byte.x00 b then (Ok header, r) else header_loop fuel (header ++ [b]) r
      | (Err e, r) => (Err (no_nul e), r)
      | (Panic, r) => (Panic, r)
      | (NoFuel, r) => (NoFuel, r)
      end
  end.

Definition read_loose_object_header : rd R (GitObjectKind * N) :=
  header <~ header_loop (S MAX_HEADER_LEN) [];
  rlift (parse_loose_header header).

Definition check_loose_size (size max_object_bytes : N) : outcome unit :=
  check (max_object_bytes <? size)%N InvalidData "loose git object exceeds configured size limit".

(** The loops that read the content: [early] is the error when the file ends too soon.  Every turn reads a byte at
    least.  What is read is returned; [hasher] has absorbed it. *)
Fixpoint content_loop (early : io_error) (fuel : nat) (remaining : N) (hasher : GitObjectHash) (content : bytes)
  : rd R (GitObjectHash * bytes) := fun r =>
  if (remaining =? 0)%N then (Ok (hasher, content), r) else
  match fuel with
  | 0 => (NoFuel, r)
  | S fuel =>
      match reader_read r (N.to_nat (N.min remaining LOOSE_BUFFER_LEN)) with
      | (Ok [], r) => (Err early, r)
      | (Ok bs, r) => content_loop early fuel (remaining - N.of_nat (length bs)) (hash_update hasher bs) (content ++ bs) r
      | (Err e, r) => (Err e, r)
      | (Panic, r) => (Panic, r)
      | (NoFuel, r) => (NoFuel, r)
      end
  end.

(** The read that must find the end. *)
Definition no_trailing (message : string) : rd R unit :=
  extra <~ (fun r => reader_read r 1);
  rlift (check (negb (bool_decide (extra = []))) InvalidData message).

Definition check_loose_hash (hasher : GitObjectHash) (id : ObjectId) : outcome unit :=
  actual ← hash_finalize hasher;
  check (negb (bool_decide (actual = id))) InvalidData "loose git object hash mismatch".

(** The content and its checks: [early] is the error of a file that ends too soon, [trailing] that of one that goes on. *)
Definition checked_content (early : io_error) (trailing : string) (alg : GitHashAlgorithm) (id : ObjectId)
  (kind : GitObjectKind) (size : N) : rd R bytes :=
  hasher <~ rlift (update_header (hash_new alg) kind (N.to_nat size));
  '(hasher, content) <~ content_loop early (N.to_nat size) size hasher [];
  _ <~ no_trailing trailing;
  _ <~ rlift (check_loose_hash hasher id);
  rret content.

Definition read_verified_loose_object_content (alg : GitHashAlgorithm) (expected_id : ObjectId) (max_object_bytes : N)
  : rd R (GitObjectKind * bytes) :=
  '(kind, size) <~ read_loose_object_header;
  _ <~ rlift (check_loose_size size max_object_bytes);
  content <~ checked_content (IoError InvalidData "loose git object ended before declared size")
               "loose git object size does not match header" alg expected_id kind size;
  rret (kind, content).

(** The same checks without keeping the content. *)
Definition verify_loose_object_kind (max_object_bytes : N) (id : ObjectId) : rd R GitObjectKind :=
  '(kind, size) <~ read_loose_object_header;
  _ <~ rlift (check_loose_size size max_object_bytes);
  _ <~ checked_content (IoError UnexpectedEof "loose git object ended before declared size")
         "loose git object has trailing content" (algorithm id) id kind size;
  rret kind.

Definition verify_loose_object_copy (max_object_bytes : N) (id : ObjectId) : rd R unit :=
  _ <~ verify_loose_object_kind max_object_bytes id;
  rret tt.
End reading.

(** The text of a header. *)
Definition header_text (k : GitObjectKind) (ds : bytes) : bytes := kind_as_bytes k ++ " "%byte :: ds.

(** ** Sizes *)

Lemma usize_digits_spec room : forall value, (value < 10 ^ N.of_nat room)%N -> 0 < room ->
  exists digits, usize_digits room value = Ok digits /\ decimal_spec value (rev digits) /\ digits <> [].
Proof.
  induction room as [|room IH]; intros value Hv Hr; [lia|]. cbn [usize_digits]. cbv zeta.
  pose proof (N.mod_lt value 10 ltac:(lia)) as Hm. pose proof (N.div_mod value 10 ltac:(lia)) as Hdm.
  destruct (digit_byte 10 ltac:(lia) (value mod 10) Hm) as (Hdig & Hdv & Hu). destruct (N.eqb_spec (value / 10) 0) as [Hz|Hz].
  - exists [byte_of_N (48 + value mod 10)]. split; [done|]. split; [|done]. split; [split; [by constructor|done]|]. cbn [rev app].
    unfold numeral_value. cbn [fold_left]. rewrite Hdv. lia.
  - rewrite Nat2N.inj_succ, N.pow_succ_r' in Hv. destruct room as [|room].
    { exfalso. apply Hz, N.div_small. cbn in Hv. lia. }
    destruct (IH (value / 10)%N) as (digits & E & [[Hf Hhd] Hval] & Hne); [by apply N.Div0.div_lt_upper_bound|lia|].
    rewrite E, bind_Ok. exists (byte_of_N (48 + value mod 10) :: digits). split; [done|]. split; [|done]. cbn [rev]. split; [split|].
    + apply Forall_app. by split; [|constructor].
    + destruct (rev digits) as [|d ds] eqn:Er; [done|]. cbn [app]. destruct (ds ++ _) eqn:Ea; [by destruct ds|].
      destruct ds as [|d' ds]; [|done]. intros Hd0. apply Hz. rewrite <- Hval. unfold numeral_value, digit_value. cbn. by rewrite Hd0.
    + rewrite numeral_value_snoc, Hval, Hdv by lia. lia.
Qed.

Lemma write_decimal_usize_spec value ds : (value < usize_limit)%N -> decimal_spec value ds -> write_decimal_usize value = Ok ds.
Proof.
  intros Hv Hds. destruct (usize_digits_spec 20 value) as (digits & E & Hd & _); [by eapply N.lt_trans; [exact Hv|]|lia|].
  unfold write_decimal_usize. rewrite E, bind_Ok. f_equal. by apply (decimal_spec_inj value).
Qed.

Lemma loose_size_loop_eq bs : forall value n, loose_size_loop bs value = Ok n <-> parse_decimal_loop bs value = Ok n.
Proof.
  induction bs as [|b bs IH]; intros value n; cbn [loose_size_loop parse_decimal_loop]; [done|].
  destruct (negb _); cbn [check]; [done|]. rewrite !bind_Ok. destruct (checked_mulN value 10 ≫= _) as [v|]; cbn [ok_or]; [|done]. rewrite !bind_Ok. apply IH.
Qed.

Lemma parse_loose_object_size_Ok bs n : parse_loose_object_size bs = Ok n <-> decimal_spec n bs /\ (n < usize_limit)%N.
Proof.
  rewrite <- parse_decimal_Ok. unfold parse_loose_object_size, parse_decimal. destruct (bool_decide (bs = [])); cbn [check]; [done|].
  rewrite !bind_Ok. destruct (_ && _); cbn [check]; [done|]. rewrite !bind_Ok. apply loose_size_loop_eq.
Qed.

Lemma safe_parse_loose_object_size bs : safe (parse_loose_object_size bs).
Proof.
  unfold parse_loose_object_size. do 2 (apply safe_bind; [auto with zmin|intros _ _]).
  generalize 0%N. induction bs as [|b bs IH]; intros v; cbn [loose_size_loop]; [exact I|].
  apply safe_bind; [auto with zmin|intros _ _]. apply safe_bind; [auto with zmin|intros ? _]. apply IH.
Qed.

(** ** The header *)

Lemma frame_header k ds content : frame k ds content = header_text k ds ++ Byte.x00 :: content.
Proof. unfold frame, header_text. by rewrite <- app_assoc. Qed.

Lemma digits_length n ds : decimal_spec n ds -> (n < usize_limit)%N -> length ds <= 20.
Proof. intros [Hc <-] Hn. apply (canonical_length_bound 10); [lia|done|by eapply N.lt_trans; [exact Hn|]|lia]. Qed.

Lemma loose_object_header_Ok k n ds : (n < usize_limit)%N -> decimal_spec n ds -> loose_object_header k n = Ok (header_text k ds ++ [Byte.x00]).
Proof. intros Hn Hds. unfold loose_object_header, header_text. rewrite (write_decimal_usize_spec n ds) by done. rewrite bind_Ok. f_equal. solve_app. Qed.

Lemma parse_loose_header_Ok header k size : parse_loose_header header = Ok (k, size) <->
  exists ds, header = header_text k ds /\ decimal_spec size ds /\ (size < usize_limit)%N.
Proof.
  unfold parse_loose_header, header_text. split.
  - intros E. destruct (position_split " "%byte header) as [[Ep _]|(pre & post & -> & Hpre & Ep)]; rewrite Ep in E; [done|]. cbn [ok_or] in E. rewrite bind_Ok in E.
    apply bind_Ok_inv in E as (u & _ & E). rewrite slice_take, take_app_length, bind_Ok in E by solve_length.
    apply bind_Ok_inv in E as (kind & Ek & E). apply ok_or_Ok, kind_parse_Some in Ek as ->.
    rewrite slice_from, bind_Ok in E by solve_length. rewrite Nat.add_1_r, drop_app_ge, Nat.sub_succ_l, Nat.sub_diag in E by lia. cbn [drop] in E.
    apply bind_Ok_inv in E as (n & En & [= <- <-]). apply parse_loose_object_size_Ok in En as [Hds Hn]. by exists post.
  - intros (ds & -> & Hds & Hn). rewrite position_byte_app by apply kind_no_space. cbn [ok_or]. rewrite bind_Ok.
    rewrite (proj2 (Nat.ltb_ge 32 (length (kind_as_bytes k)))) by (destruct k; cbn; lia). cbn [check]. rewrite bind_Ok.
    rewrite slice_take, take_app_length, bind_Ok by solve_length. rewrite kind_parse_as_bytes. cbn [ok_or]. rewrite bind_Ok.
    rewrite slice_from, bind_Ok by solve_length. rewrite Nat.add_1_r, drop_app_ge, Nat.sub_succ_l, Nat.sub_diag by lia. cbn [drop].
    rewrite drop_0, (proj2 (parse_loose_object_size_Ok ds size)) by done. by rewrite bind_Ok.
Qed.

(** ** Reading *)

Section reads.
Context `{ShaLaws, ReaderLaws R rest}.

Lemma read_byte_from r b t : total_from r -> rest r = b :: t ->
  exists r', read_byte r = (Ok b, r') /\ rest r' = t /\ total_from r'.
Proof.
  intros Ht Er. destruct (read_exact_from r [b] t Ht Er) as (r' & E & Hr). exists r'.
  split; [unfold read_byte; cbn [length] in E; by rewrite E|]. split; [done|]. by eapply read_exact_total.
Qed.

Lemma header_loop_inv fuel : forall header r h r', header_loop fuel header r = (Ok h, r') ->
  exists b, h = header ++ b /\ contains_byte Byte.x00 b = false /\ rest r = b ++ Byte.x00 :: rest r'.
Proof.
  induction fuel as [|fuel IH]; intros header r h r' E; cbn [header_loop] in E; [done|].
  destruct (MAX_HEADER_LEN <=? length header); [done|]. destruct (read_byte r) as [[b|e| |] r1] eqn:Eb; try done.
  apply read_byte_Ok in Eb. destruct (byte_is Byte.x00 b) eqn:Ez.
  - injection E as <- <-. unfold byte_is in Ez. destruct (byte_eqb_spec b Byte.x00) as [->|]; [|done]. exists []. by rewrite app_nil_r.
  - apply IH in E as (b' & -> & Hb & Er). exists (b :: b'). rewrite Eb, Er. split; [solve_app|]. split; [|done].
    unfold contains_byte. cbn [existsb]. by rewrite Ez.
Qed.

Lemma header_loop_run b : forall fuel header r t, total_from r -> rest r = b ++ Byte.x00 :: t -> contains_byte Byte.x00 b = false ->
  length b < fuel -> length header + length b < MAX_HEADER_LEN ->
  exists r', header_loop fuel header r = (Ok (header ++ b), r') /\ rest r' = t /\ total_from r'.
Proof.
  induction b as [|x b IH]; intros [|fuel] header r t Ht Er Hn Hf Hl; cbn [length] in Hf, Hl; [lia| |lia|]; cbn [header_loop].
  all: rewrite (proj2 (Nat.leb_gt MAX_HEADER_LEN (length header))) by lia.
  all: destruct (read_byte_from r _ _ Ht Er) as (r1 & E1 & Er1 & Ht1); rewrite E1.
  - rewrite byte_is_refl, app_nil_r. by exists r1.
  - unfold contains_byte in Hn. cbn [existsb] in Hn. apply orb_false_iff in Hn as [Hx Hb]. rewrite Hx.
    destruct (IH fuel (header ++ [x]) r1 t Ht1 Er1 Hb) as (r' & E & Hr'); [lia|rewrite length_app; cbn; lia|].
    exists r'. by rewrite E, <- app_assoc.
Qed.

Lemma safe_header_loop fuel : forall header r, length header <= MAX_HEADER_LEN < fuel + length header -> safe (header_loop fuel header r).1.
Proof.
  induction fuel as [|fuel IH]; intros header r Hf; cbn [header_loop].
  - cbn in Hf. lia.
  - destruct (Nat.leb_spec MAX_HEADER_LEN (length header)); [exact I|].
    pose proof (safe_read_byte r) as Hs. destruct (read_byte r) as [[b|e| |] r1]; try done.
    destruct (byte_is Byte.x00 b); [exact I|]. apply IH. rewrite length_app. cbn [length]. lia.
Qed.

Lemma read_loose_object_header_inv r k size r' : read_loose_object_header r = (Ok (k, size), r') ->
  exists ds, rest r = header_text k ds ++ Byte.x00 :: rest r' /\ decimal_spec size ds /\ (size < usize_limit)%N.
Proof.
  unfold read_loose_object_header. intros E. inv_rd. apply header_loop_inv in R0 as (b & -> & _ & Er).
  apply parse_loose_header_Ok in O as (ds & Eb & Hds & Hn). cbn [app] in Eb. subst b. by exists ds.
Qed.

Lemma read_loose_object_header_run r k size ds t : total_from r -> rest r = header_text k ds ++ Byte.x00 :: t ->
  decimal_spec size ds -> (size < usize_limit)%N ->
  exists r', read_loose_object_header r = (Ok (k, size), r') /\ rest r' = t /\ total_from r'.
Proof.
  intros Ht Er Hds Hn. pose proof (digits_length _ _ Hds Hn) as Hl.
  assert (length (header_text k ds) < MAX_HEADER_LEN) by (unfold header_text, MAX_HEADER_LEN; destruct k; cbn; lia).
  destruct (header_loop_run _ (S MAX_HEADER_LEN) [] r t Ht Er) as (r' & E & Hr'); [by apply frame_header_no_nul, Hds|lia|done|].
  exists r'. split; [|done]. unfold read_loose_object_header. rewrite (rbind_Ok _ _ _ _ _ E). unfold rlift. f_equal.
  apply parse_loose_header_Ok. by exists ds.
Qed.

Lemma safe_parse_loose_header header : safe (parse_loose_header header).
Proof.
  unfold parse_loose_header. apply safe_bind; [auto with zmin|]. intros space Es. apply safe_bind; [auto with zmin|intros _ _].
  assert (Hs : space < length header). { apply ok_or_Ok, position_byte_inv in Es. by destruct Es as (_ & _ & ?). }
  apply safe_bind; [apply safe_slice; lia|intros ? _]. apply safe_bind; [auto with zmin|intros ? _].
  apply safe_bind; [apply safe_slice; lia|intros ? _]. apply safe_bind; [apply safe_parse_loose_object_size|]. done.
Qed.

Lemma safe_read_loose_object_header r : safe (read_loose_object_header r).1.
Proof.
  unfold read_loose_object_header, rbind. pose proof (safe_header_loop (S MAX_HEADER_LEN) [] r ltac:(cbn [length]; lia)) as Hs.
  destruct (header_loop _ _ r) as [[h|?| |] r']; try done. apply safe_parse_loose_header.
Qed.

(** *** The content *)

Lemma content_loop_inv early fuel : forall n hasher content r hasher' content' r',
  content_loop early fuel n hasher content r = (Ok (hasher', content'), r') ->
  exists b, N.of_nat (length b) = n /\ rest r = b ++ rest r' /\ hasher' = hash_update hasher b /\ content' = content ++ b.
Proof.
  induction fuel as [|fuel IH]; intros n hasher content r hasher' content' r'; cbn [content_loop]; destruct (N.eqb_spec n 0) as [->|Hn].
  1,3: intros [= <- <- <-]; exists []; unfold hash_update; rewrite !app_nil_r; by destruct hasher.
  - done.
  - destruct (reader_read r _) as [[bs|e| |] r1] eqn:Er; try done. destruct bs as [|x bs]; [done|].
    apply read_takes in Er as (Er & Hl & _). set (l := x :: bs) in *. intros (b & Hb & Eb & -> & ->)%IH.
    exists (l ++ b). rewrite Er, Eb, length_app, <- !app_assoc. split; [lia|]. split; [done|]. split; [|done].
    unfold hash_update. cbn [hash_algorithm hash_absorbed]. by rewrite <- app_assoc.
Qed.

Lemma content_loop_run early fuel : forall b hasher content r t,
  total_from r -> rest r = b ++ t -> length b <= fuel ->
  exists r', content_loop early fuel (N.of_nat (length b)) hasher content r = (Ok (hash_update hasher b, content ++ b), r') /\ rest r' = t /\ total_from r'.
Proof.
  induction fuel as [|fuel IH]; intros b hasher content r t Ht Er Hf; cbn [content_loop]; destruct (N.eqb_spec (N.of_nat (length b)) 0) as [Hn|Hn].
  1,3: destruct b; [|cbn in Hn; lia]; exists r; unfold hash_update; rewrite !app_nil_r; by destruct hasher.
  - lia.
  - destruct (total_from_read r (N.to_nat (N.min (N.of_nat (length b)) LOOSE_BUFFER_LEN)) Ht) as [Hok Ht1].
    destruct (reader_read r _) as [[bs|e| |] r1] eqn:E1; try done. cbn [snd] in Ht1. apply read_takes in E1 as (E1 & Hl & Hz).
    destruct bs as [|x bs].
    { destruct (Hz eq_refl) as [Hz'|Hz']; [unfold LOOSE_BUFFER_LEN in *; lia|]. rewrite Er in Hz'. by destruct b. }
    set (l := x :: bs) in *. assert (Hb : exists b', b = l ++ b').
    { exists (drop (length l) b). rewrite Er in E1. assert (length l <= length b) by lia.
      rewrite <- (take_drop (length l) b) at 1. f_equal. apply (f_equal (take (length l))) in E1. by rewrite take_app_le, take_app_length in E1. }
    destruct Hb as [b' ->].
    rewrite Er, <- app_assoc in E1. apply app_inv_head in E1. rewrite length_app in Hf |- *.
    replace (N.of_nat (length l + length b') - N.of_nat (length l))%N with (N.of_nat (length b')) by lia.
    destruct (IH b' (hash_update hasher l) (content ++ l) r1 t Ht1) as (r' & E & Hr'); [done|cbn [length l] in *; subst l; cbn [length] in *; lia|].
    exists r'. rewrite E. split; [|done]. unfold hash_update. cbn. by rewrite <- !app_assoc.
Qed.

Lemma safe_content_loop early fuel : forall n hasher content r, (n <= N.of_nat fuel)%N -> safe (content_loop early fuel n hasher content r).1.
Proof.
  induction fuel as [|fuel IH]; intros n hasher content r Hf; cbn [content_loop]; destruct (N.eqb_spec n 0) as [->|Hn]; try exact I; [lia|].
  pose proof (read_safe r (N.to_nat (N.min n LOOSE_BUFFER_LEN))) as Hs. destruct (reader_read r _) as [[[|x bs]|e| |] r1]; try done.
  apply IH. cbn [length]. lia.
Qed.

Lemma no_trailing_inv message r r' : no_trailing message r = (Ok tt, r') -> rest r = [] /\ rest r' = [].
Proof.
  unfold no_trailing. intros E. inv_rd. apply check_Ok in O. rewrite negb_false_iff, bool_decide_eq_true in O. destruct O as [-> _]. apply read_takes in R0 as (Er & _ & Hz).
  destruct (Hz eq_refl) as [?|Hr]; [done|]. split; [done|]. by rewrite Hr in Er.
Qed.

Lemma no_trailing_run message r : total_from r -> rest r = [] -> exists r', no_trailing message r = (Ok tt, r').
Proof.
  intros Ht Er. destruct (total_from_read r 1 Ht) as [Hok _]. unfold no_trailing, rbind.
  destruct (reader_read r 1) as [[bs|e| |] r1] eqn:E1; try done. apply read_takes in E1 as (E1 & _). rewrite Er in E1.
  destruct bs; [|done]. by exists r1.
Qed.

Lemma check_loose_hash_Ok hasher id :
  check_loose_hash hasher id = Ok tt <-> id = mk_id (hash_algorithm hasher) (sha_digest (hash_algorithm hasher) (hash_absorbed hasher)).
Proof. unfold check_loose_hash. rewrite hash_finalize_ok, bind_Ok, check_Ok, negb_false_iff, bool_decide_eq_true. naive_solver. Qed.

(** *** The whole file *)

Lemma checked_content_inv early trailing alg id k size ds r c r' :
  decimal_spec size ds -> (size < usize_limit)%N -> checked_content early trailing alg id k size r = (Ok c, r') ->
  N.of_nat (length c) = size /\ rest r = c /\ id = mk_id alg (sha_digest alg (frame k ds c)).
Proof.
  intros Hds Hn. unfold checked_content. intros E. inv_rd. rewrite (update_header_frame _ _ ds) in O by (by rewrite N2Nat.id). injection O as <-.
  destruct v0 as [h content]. inv_rd.
  repeat match goal with u : unit |- _ => destruct u end.
  match goal with L : content_loop _ _ _ _ _ _ = _, T : no_trailing _ _ = _, C : check_loose_hash _ _ = _ |- _ =>
    apply content_loop_inv in L as (b & Hb & Er & -> & ->); apply no_trailing_inv in T as [Er1 _]; apply check_loose_hash_Ok in C as -> end.
  rewrite Er1, app_nil_r in Er. cbn [app]. split; [done|]. split; [done|].
  cbn. do 2 f_equal. unfold frame. solve_app.
Qed.

Lemma checked_content_run early trailing alg k ds c r :
  total_from r -> rest r = c -> decimal_spec (N.of_nat (length c)) ds -> (N.of_nat (length c) < usize_limit)%N ->
  exists r', checked_content early trailing alg (mk_id alg (sha_digest alg (frame k ds c))) k (N.of_nat (length c)) r = (Ok c, r').
Proof.
  intros Ht Er Hds Hn. unfold checked_content. rewrite (update_header_frame _ _ ds) by (by rewrite N2Nat.id).
  unfold rlift at 1. unfold rbind at 1. rewrite Nat2N.id.
  destruct (content_loop_run early (length c) c (MkHash (hash_algorithm (hash_new alg)) (hash_absorbed (hash_new alg) ++
    kind_as_bytes k ++ " "%byte :: ds ++ [Byte.x00])) [] r [] Ht) as (r1 & E1 & Er1 & Ht1); [by rewrite app_nil_r|done|].
  rewrite (rbind_Ok _ _ _ _ _ E1). destruct (no_trailing_run trailing r1 Ht1 Er1) as (r2 & E2). rewrite (rbind_Ok _ _ _ _ _ E2).
  exists r2. unfold rlift, rbind. rewrite (proj2 (check_loose_hash_Ok _ _)); [done|]. cbn. do 2 f_equal. unfold frame. solve_app.
Qed.

Lemma safe_checked_content early trailing alg id k size r : (size < usize_limit)%N -> safe (checked_content early trailing alg id k size r).1.
Proof.
  intros Hn. destruct (decimal_spec_exists size) as [ds Hds]. unfold checked_content.
  rewrite (update_header_frame _ _ ds) by (by rewrite N2Nat.id). unfold rlift, rbind.
  match goal with |- context [content_loop ?e ?f ?n ?h ?c ?s] => pose proof (safe_content_loop e f n h c s ltac:(lia)) as Hs; destruct (content_loop e f n h c s) as [[[h' c']|?| |] r1] end; try done.
  unfold no_trailing, rbind, rlift. pose proof (read_safe r1 1) as Hs1. destruct (reader_read r1 1) as [[x|?| |] r2]; try done.
  destruct (negb _); [exact I|]. cbn [check]. unfold check_loose_hash. rewrite hash_finalize_ok, bind_Ok. by destruct (negb _).
Qed.
End reads.

(** What a file of an object inflates to, when the object is within the limits. *)
Definition loose_text `{Sha} (alg : GitHashAlgorithm) (id : ObjectId) (max_object_bytes : N) (k : GitObjectKind) (c text : bytes) : Prop :=
  exists ds, text = frame k ds c /\ decimal_spec (N.of_nat (length c)) ds /\ (N.of_nat (length c) < usize_limit)%N /\
    (N.of_nat (length c) <= max_object_bytes)%N /\ id = mk_id alg (sha_digest alg text).

Section files.
Context `{ShaLaws, ReaderLaws R rest}.

(** The two readers of a file: what they check is the text. *)
Lemma checked_file_inv early trailing alg id max r {A} (f : GitObjectKind -> bytes -> A) a r' :
  ('(kind, size) <~ read_loose_object_header; _ <~ rlift (check_loose_size size max);
     content <~ checked_content early trailing alg id kind size; rret (f kind content)) r = (Ok a, r') ->
  exists k c, f k c = a /\ loose_text alg id max k c (rest r).
Proof.
  intros E. inv_rd. destruct v as [k size].
  inv_rd. match goal with L : read_loose_object_header _ = _, S : check_loose_size _ _ = _, C : checked_content _ _ _ _ _ _ _ = (Ok ?cc, _) |- _ =>
    rename cc into c; apply read_loose_object_header_inv in L as (ds & Er & Hds & Hn); apply check_Ok in S as [S _]; rename S into Hs;
    apply (checked_content_inv _ _ _ _ _ _ ds) in C as (Hl & Ec & Hid); [|done..] end.
  apply N.ltb_ge in Hs. rewrite <- frame_header in Er. exists k, c. split; [done|]. exists ds. subst. by rewrite Er.
Qed.

(** A codec that does not fail delivers all of it. *)
Lemma checked_file_run early trailing alg id max k c r {A} (f : GitObjectKind -> bytes -> A) :
  total_from r -> loose_text alg id max k c (rest r) ->
  exists r', ('(kind, size) <~ read_loose_object_header; _ <~ rlift (check_loose_size size max);
     content <~ checked_content early trailing alg id kind size; rret (f kind content)) r = (Ok (f k c), r').
Proof.
  intros Ht (ds & Er & Hds & Hn & Hm & ->). rewrite frame_header in Er.
  destruct (read_loose_object_header_run r k _ ds c Ht Er Hds Hn) as (r1 & E1 & Er1 & Ht1). rewrite (rbind_Ok _ _ _ _ _ E1).
  unfold rbind at 1, rlift, check_loose_size. rewrite (proj2 (N.ltb_ge _ _)) by done. cbn [check].
  destruct (checked_content_run early trailing alg k ds c r1 Ht1 Er1 Hds Hn) as (r2 & E2). rewrite Er, <- frame_header.
  rewrite (rbind_Ok _ _ _ _ _ E2). by exists r2.
Qed.

Lemma safe_checked_file early trailing alg id max r {A} (f : GitObjectKind -> bytes -> A) :
  safe (('(kind, size) <~ read_loose_object_header; _ <~ rlift (check_loose_size size max);
    content <~ checked_content early trailing alg id kind size; rret (f kind content)) r).1.
Proof.
  unfold rbind at 1. pose proof (safe_read_loose_object_header r) as Hs.
  destruct (read_loose_object_header r) as [[[k size]|?| |] r1] eqn:E; try done. apply read_loose_object_header_inv in E as (_ & _ & _ & Hn).
  unfold rbind, rlift, check_loose_size. destruct (max <? size)%N; [exact I|]. cbn [check].
  pose proof (safe_checked_content early trailing alg id k size r1 Hn) as Hs1. by destruct (checked_content _ _ _ _ _ _ r1) as [[?|?| |] r2].
Qed.

(** C11: whatever bytes the codec delivers, in any pieces, and wherever it fails, the readers of a loose file end without a
    panic; and what they accept is right: when [read_verified_loose_object_content] gives a kind and a content, the file
    inflates to the canonical header of that kind and length, a NUL and the content and nothing else, the length is within
    the limit, and the digest of the whole is the expected id, and [verify_loose_object_kind] accepts only such files, with
    their kind. When the codec does not fail, every such file is accepted by both. *)
Theorem loose_read_spec alg id max k c r :
  safe (read_verified_loose_object_content alg id max r).1 /\ safe (verify_loose_object_kind max id r).1 /\
  (forall r', read_verified_loose_object_content alg id max r = (Ok (k, c), r') -> loose_text alg id max k c (rest r)) /\
  (forall r', verify_loose_object_kind max id r = (Ok k, r') -> exists c', loose_text (algorithm id) id max k c' (rest r)) /\
  (total_from r -> loose_text alg id max k c (rest r) ->
    exists r', read_verified_loose_object_content alg id max r = (Ok (k, c), r')) /\
  (total_from r -> forall c', loose_text (algorithm id) id max k c' (rest r) ->
    exists r', verify_loose_object_kind max id r = (Ok k, r')).
Proof.
  unfold read_verified_loose_object_content, verify_loose_object_kind. split_and!.
  - apply (safe_checked_file _ _ _ _ _ _ (fun k c => (k, c))).
  - apply (safe_checked_file _ _ _ _ _ _ (fun k _ => k)).
  - intros r' E. apply (checked_file_inv _ _ _ _ _ _ (fun k c => (k, c))) in E as (k' & c' & [= -> ->] & Ht). done.
  - intros r' E. apply (checked_file_inv _ _ _ _ _ _ (fun k _ => k)) in E as (k' & c' & -> & Ht). by exists c'.
  - intros. by apply (checked_file_run _ _ _ _ _ _ _ _ (fun k c => (k, c))).
  - intros Ht c' Hc. by apply (checked_file_run _ _ _ _ _ _ c' _ (fun k _ => k)).
Qed.
End files.

(** C12: what [encode_loose_object] writes is read back: the encoder of any object of a representable length succeeds, and
    the verified reader, given the id of the object and a limit it fits, returns its kind and content, whatever follows the
    stream in the file. *)
Theorem loose_roundtrip `{ShaLaws, ZlibLaws D zsource zrest} alg k c t max id :
  (N.of_nat (length c) < usize_limit)%N -> (N.of_nat (length c) <= max)%N -> hash_object alg k c = Ok id ->
  exists file d, encode_loose_object k c = Ok file /\
    read_verified_loose_object_content (R := D) alg id max (zlib_new (file ++ t)) = (Ok (k, c), d).
Proof.
  intros Hn Hm Hid. destruct (decimal_spec_exists (N.of_nat (length c))) as [ds Hds].
  unfold encode_loose_object. rewrite (loose_object_header_Ok _ _ ds) by done. rewrite bind_Ok. eexists.
  rewrite (hash_object_frame _ _ _ ds) in Hid by done. injection Hid as <-.
  rewrite <- app_assoc. change ([Byte.x00] ++ c) with (Byte.x00 :: c). rewrite <- frame_header.
  unfold read_verified_loose_object_content.
  set (x := mk_id alg (sha_digest alg (frame k ds c))).
  destruct (checked_file_run (IoError InvalidData "loose git object ended before declared size")
               "loose git object size does not match header" alg x max k c (zlib_new (zlib_compress (frame k ds c) ++ t)) (fun k c => (k, c))
    ltac:(apply zlib_total)) as [d E].
  - exists ds. rewrite zlib_inflates. done.
  - exists d. split; [done|]. exact E.
Qed.

(** ** Witnesses *)

#[local] Existing Instances sample_sha sample_sha_laws marked_encoder.

Definition sample_loose_text : bytes := bstr "blob 3" ++ Byte.x00 :: bstr "abc".

Definition sample_loose_id : ObjectId := Eval vm_compute in mk_id Sha1 (sha_digest Sha1 sample_loose_text).

(** The last text has one byte more than its header says. *)
Lemma loose_read_spec_witness :
  (read_verified_loose_object_content Sha1 sample_loose_id 100 (sample_loose_text : short_reader)).1 = Ok (Blob, bstr "abc") /\
  (exists r', verify_loose_object_kind 100 sample_loose_id (sample_loose_text : short_reader) = (Ok Blob, r')) /\
  ~ (exists r', verify_loose_object_kind 100 sample_loose_id ((sample_loose_text ++ bstr "d") : short_reader) = (Ok Blob, r')) /\
  loose_text Sha1 sample_loose_id 100 Blob (bstr "abc") sample_loose_text.
Proof.
  split; [vm_compute; reflexivity|].
  destruct (loose_read_spec (rest := fun r : short_reader => r) Sha1 sample_loose_id 100 Blob (bstr "abc") sample_loose_text)
    as (_ & _ & Hread & _ & _ & Hkind).
  assert (Hl : loose_text Sha1 sample_loose_id 100 Blob (bstr "abc") sample_loose_text)
    by (eapply Hread; vm_compute; reflexivity).
  split; [apply (Hkind ltac:(apply total_reader_from, short_reader_total) (bstr "abc")), Hl|]. split; [|exact Hl].
  intros (r' & E). apply (f_equal fst) in E. revert E. vm_compute. discriminate.
Defined.

Lemma loose_roundtrip_witness :
  exists file d, encode_loose_object Blob (bstr "abc") = Ok file /\ length file = 21 /\
    read_verified_loose_object_content (R := MarkedDecoder) Sha1 sample_loose_id 3 (zlib_new (file ++ bstr "junk")) = (Ok (Blob, bstr "abc"), d).
Proof.
  destruct (loose_roundtrip (D := MarkedDecoder) Sha1 Blob (bstr "abc") (bstr "junk") 3 sample_loose_id) as (file & d & E & Hr);
    [vm_compute; reflexivity|vm_compute; discriminate|vm_compute; reflexivity|].
  exists file, d. split; [exact E|]. split; [|exact Hr]. revert E. vm_compute. by intros [= <-].
Defined.
